(* ===== verification/_CoqProject ===== *)
-Q . S2P
Prelude.v
Operations.v
KVStore.v
StoreConcurrency.v
LockManager.v
TwoPL.v
TwoPLInvariant.v
Serializability.v
Progress.v
Scenarios.v
Json.v
Coordinator.v
Scheduler.v
SchedulerLocal.v
TwoPLRefinement.v
Handlers.v
SchedulerRemote.v
Monitor.v
MonitorWakeups.v
MonitorRefinement.v
Distributed.v
Startup.v
Typing.v
Maelstrom.v
TxnHandler.v
ConcurrentService.v
PeerWire.v
Logger.v
