(* ===== verification/Prelude.v ===== *)
(** * A verification of the two-phase locking transaction system

    The program (lib/) is one node of a transaction processing system.  Lines
    of JSON arrive on standard input; [maelstrom::Node] parses them and posts
    each request to a thread pool, where [TransactionMessageHandler] runs
    transactions of reads and appends through [TwoPLScheduler].  The scheduler
    locks all keys of a transaction in [LockManager], runs its operations on
    the [ThreadSafeKVStore], releases the locks and returns the reads, which
    become the reply.  In a cluster, [DistributedCoordinator] maps each key to
    a primary node, and locks and operations of remote keys are requested by
    messages that handler methods of the scheduler serve; [Peer] frames
    messages on TCP connections.

    ** How code is modelled

    - A method is a Rocq function; code with effects is a function of the
      monad [M] of this file: it maps the state to a result, a value or an
      exception, and the state left behind.  [catch_std] and [catch_all] are
      the two forms of handlers the sources use.
    - Machine integers are [Z]; where a conversion can lose bits it is written
      out ([u16], [u32], [u64], [i32]).
    - [unordered_map] and [unordered_set] are [gmap] and [gset]; the order of
      iterating over one is an [Iteration], an arbitrary permutation for each
      container of each transaction ([Container]): two containers with the
      same elements may be visited in different orders.
    - What the repository does not contain is a parameter with its documented
      behaviour as a class of laws: boost::json ([Json], [JsonSpec]; [JsonWire]
      for serializing and parsing back; [JsonText], [MessageCodec] for text),
      [std::hash] ([StdHash]), the operation executor ([OpExecutor],
      [OpExecutorSpec]; NaiveOpExecutor.cpp is absent), the construction of a
      transaction from JSON ([TransactionParser]) and the transaction server
      ([TransactionServer]: its calls are recorded, the exceptions they end
      with are arbitrary).  Each has an instance, on which the witnesses of the
      theorems run.  Two more parameters stand for the network a peer connects
      over ([Network]) and for Boost.Log ([BoostLog], [BoostLogSpec]).
    - A wait is given what the other threads do meanwhile as an argument:
      [Interference] for the windows of [LockManager::acquire], [Wakeups] for
      the condition variables, [OpWait] for the windows of a remote operation.
      Theorems quantify over it.  TwoPL, Monitor and StoreConcurrency are step
      relations with explicit mutexes; TwoPLRefinement and MonitorRefinement
      show that every interleaving supplies such an argument.

    ** Files

    - Prelude: integers, the monad, sets, tactics and hint databases.
    - Operations (Operations.h, Transaction.h, NaiveOpExecutor.h): operations,
      the store and executor interfaces, the reference semantics [apply_tx]
      and [tx_reads] of a transaction and its frame properties.
    - KVStore (ThreadSafeKVStore): the 256 stripes and their refinement of one
      flat map.
    - StoreConcurrency (ThreadSafeKVStore.cpp): threads in the middle of [get]
      and [append], with the stripes' mutexes; their calls are linearizable.
    - LockManager (LockManager.h, .cpp): every method; [rely], what a
      transaction may count on while others run; [tracked], the invariant that
      a transaction's locks are found by its [release_all]; the contracts of
      the methods.
    - TwoPL (LockManager.cpp with TwoPLScheduler.cpp and the pool of
      maelstrom.cpp): the interleaving semantics.  A thread is a program
      counter in [execute_transaction]; a step is one shared access or one
      mutex operation; [step] is the step relation of the whole node.
    - TwoPLInvariant: the inductive invariant of [step].
    - Serializability: serial logs, a simulation, and the theorems of strict
      serializability, real-time order, isolation and lock release.
    - Progress: the order of the mutexes and no deadlock on them, termination
      within a bound, the accesses of each step, data races only at one place.
    - Scenarios: concrete schedules; the race is reachable.
    - Json: the interface to boost::json, what text makes of an object
      ([over_text]), and a tree model of it.
    - Coordinator (DistributedCoordinator): routing and messages.
    - Scheduler (TwoPLScheduler: execution): locks, local and remote
      operations, timeouts, exceptions.
    - SchedulerLocal: what it guarantees when all keys are local; the
      single-node variant agrees with it.
    - TwoPLRefinement: a transaction in TwoPL is the method of Scheduler in an
      environment made of the other threads' accesses, which commute with
      what they are moved over.
    - Handlers (the message handlers of TwoPLScheduler): lock and operation
      requests and responses, and how they interact with the waits of Scheduler.
    - SchedulerRemote: what Scheduler guarantees when keys are remote, whatever
      happens while it waits; what the handlers guarantee to waiting
      transactions.
    - Monitor (the same methods and handlers): [distributed_mutex] and the two
      condition variables.  A thread is a program counter; a step is an access,
      a mutex operation, a wait, a notification or a send; mutual exclusion.
    - MonitorWakeups: sleeping threads are notified, all threads come to an
      end, and the one case in which a wake-up is lost.
    - MonitorRefinement: a transaction in the monitor is the methods of Scheduler
      in an environment made of other threads' accesses; handlers act as one
      call.
    - Distributed: a node runs a transaction while the others serve what a
      channel makes of its messages: over text it ends at its deadline; over a
      channel that keeps the fields of the messages, as text does only for ids
      from 2^63 on, the cluster is compared with one map.
    - Startup (TwoPLScheduler::start, its destructor): parsing of names, the
      cluster's node list; all nodes agree on the primary of a key.
    - Typing: the machine types of all numbers, as an invariant of everything
      Startup, Scheduler and Handlers do.
    - Maelstrom (maelstrom.h, .cpp, EchoMessageHandler): messages, handshake,
      dispatch, main loop.
    - TxnHandler (TransactionMessageHandler, TransactionManager.h, main.cpp):
      replies, and a request from the message to the store and back.
    - ConcurrentService: a request handled while others are, from the
      interleaving to the reply.
    - PeerWire (Peer, JSONMessage.h): byte order, frames, streams, connecting,
      shutdown.
    - Logger (Logger.h): initialisation, levels, formatting, lines.

    ** What the theorems show

    For transactions on one node, under every interleaving: strict
    serializability (C1, C2), termination (C3), replies that are those of a
    serial execution (C4), refinement of the methods of Scheduler and
    LockManager by the interleaving (C5), isolation (C6), no lock left behind
    (C7), no deadlock (C8), and a race-free lock table but for one lookup
    (C30); the store's calls are linearizable and return (C17, C31), which is
    why TwoPL may take a visit as one step.  For the threads that wait for
    remote answers and those that deliver them, under every interleaving: no
    lost wake-up (C12, and C39 where one is lost), refinement of the methods of
    Scheduler (C13) and of the handlers (C16), mutual exclusion (C14) and
    termination (C15).  For single calls under any interference: atomicity of
    requests and of [execute_transaction] (C9, C18), no leak on exceptions
    (C19), the lock manager's contracts (C21, C22), agreement of the two
    execution paths when nothing interferes (C33), the store's refinement
    (C23), and the front end's replies and messages (C28, C32).  C10 follows a
    session from the lines of standard input to the store and the output.  For
    clusters: whatever disturbs a transaction with remote keys, it leaves no
    local lock but when a lock message cannot be sent (C20), an unanswered one
    aborts cleanly (C26), and the handlers do not disturb other transactions (C25); routing
    (C29, C34), framing (C27, C36) and messages (C37).  C24 is the typing
    invariant of all of it and C35 is about the logger.  C11 and C38 to C40
    describe what the code does where it departs from its documentation, on the
    path of remote keys: the handlers drop every message that arrives as text
    (C40), so a transaction with remote keys that has its local locks and
    whose sends succeed ends at its deadline without effect (C11);
    any response they would accept counts as all locks granted (C38); and a
    wake-up can be lost (C39).  Beside the numbered theorems,
    [distributed_transaction_refines_one_map] shows what the protocol does when
    messages arrive with the fields they were sent with.

    ** Bounds

    Loops of the sources are structural recursion: over the operations, keys
    and lines given, and over the constants of the sources (1000 spins, 500
    yields, 10 connection attempts).  There is no fuel.  Waits on condition
    variables end after the wake-ups given in [Wakeups]: a wait with a deadline
    wakes up finitely often before it.  In Monitor a deadline is a step that
    can be taken at any time, and the number of steps is bounded by the keys and
    operations of the threads and the spurious wake-ups (C15).  The theorems
    C1 to C8 assume fewer than 2^64 - 1 transactions ([initial] of TwoPL), so
    that ids are not reused; Monitor asks for different ids ([initial] there).

    ** Not modelled

    boost::asio's sockets, resolver and timers beyond what [Peer] uses of them;
    [TransactionServer], of which only the declaration exists, and with it the
    delivery of messages: the waits and the response handlers of one node are
    interleaved step by step (Monitor), what other nodes answer is arbitrary
    there and one transaction at a time in Distributed; the log lines the other
    parts write, which change nothing they read; memory ordering weaker than
    sequential consistency (the race that would expose it is the one of C30);
    in Monitor, the order of different threads' sends, which decides nothing
    there (a send fails or not by its peer and message, and the only message a
    transaction can send twice is that of an operation it repeats); allocation
    failure. *)
From Stdlib Require Import ZArith Lia.
From stdpp Require Export base numbers strings list gmap sets fin_maps option relations.

#[export] Set Default Goal Selector "!".

(** ** Machine integers

    The conversions C++ performs when an integer is stored in a type of a
    given width: unsigned types wrap modulo [2^w], signed types wrap into
    [-2^(w-1), 2^(w-1))] (C++20, two's complement). *)
Definition wrap_u (w : Z) (z : Z) : Z := z mod 2 ^ w.
Definition wrap_s (w : Z) (z : Z) : Z := (z + 2 ^ (w - 1)) mod 2 ^ w - 2 ^ (w - 1).

Definition u16 := wrap_u 16.
Definition u32 := wrap_u 32.
Definition u64 := wrap_u 64.
Definition i32 := wrap_s 32.

Definition in_u (w z : Z) : Prop := (0 ≤ z < 2 ^ w)%Z.
Definition in_s (w z : Z) : Prop := (- 2 ^ (w - 1) ≤ z < 2 ^ (w - 1))%Z.

Section widths.
Local Open Scope Z_scope.
Context (w : Z) (Hw : 0 < w).

Lemma pow2_split : 2 ^ w = 2 * 2 ^ (w - 1).
Proof. rewrite <- Z.pow_succ_r by lia. f_equal. lia. Qed.

Lemma wrap_u_range z : in_u w (wrap_u w z).
Proof. apply Z.mod_pos_bound, Z.pow_pos_nonneg; lia. Qed.

Lemma wrap_u_small z : in_u w z → wrap_u w z = z.
Proof. intros H. by apply Z.mod_small. Qed.

Lemma wrap_s_range z : in_s w (wrap_s w z).
Proof.
  unfold in_s, wrap_s. pose proof pow2_split.
  pose proof (Z.mod_pos_bound (z + 2 ^ (w - 1)) (2 ^ w)).
  assert (0 < 2 ^ w) by (apply Z.pow_pos_nonneg; lia). lia.
Qed.

Lemma wrap_s_small z : in_s w z → wrap_s w z = z.
Proof.
  unfold in_s, wrap_s. pose proof pow2_split. intros Hz.
  rewrite Z.mod_small by lia. lia.
Qed.
End widths.

(** ** Exceptions and effectful code

    A C++ call either returns a value or leaves by an exception; the state it
    mutated before throwing stays mutated.  [M S A] is code of result type [A]
    over mutable state [S].  An exception is classified the way the handlers
    of the program classify it: [catch (const std::exception&)] sees
    [StdException] only, [catch (...)] sees both. *)
Inductive exn := StdException (what : string) | OtherException.

#[export] Instance exn_eq_dec : EqDecision exn.
Proof. solve_decision. Defined.

Inductive res (A : Type) := Ok (a : A) | Throw (e : exn).
Arguments Ok {A} a.
Arguments Throw {A} e.

#[export] Instance res_eq_dec {A} `{EqDecision A} : EqDecision (res A).
Proof. solve_decision. Defined.

Definition M (S A : Type) : Type := S → res A * S.

#[export] Instance M_ret S : MRet (M S) := λ A a s, (Ok a, s).
#[export] Instance M_bind S : MBind (M S) := λ A B k m s,
  match m s with
  | (Ok a, s') => k a s'
  | (Throw e, s') => (Throw e, s')
  end.

Definition throw {S A} (e : exn) : M S A := λ s, (Throw e, s).
Definition gets {S A} (f : S → A) : M S A := λ s, (Ok (f s), s).
Definition modify {S} (f : S → S) : M S unit := λ s, (Ok tt, f s).
(** A checked access ([at], [as_int64], ...) that throws on [None]. *)
Definition lift_opt {S A} (what : string) (o : option A) : M S A :=
  match o with
  | Some a => mret a
  | None => throw (StdException what)
  end.
(** [catch (...)] *)
Definition catch_all {S A} (m : M S A) (h : exn → M S A) : M S A := λ s,
  match m s with
  | (Ok a, s') => (Ok a, s')
  | (Throw e, s') => h e s'
  end.
(** [catch (const std::exception &e)] *)
Definition catch_std {S A} (m : M S A) (h : string → M S A) : M S A :=
  catch_all m (λ e, match e with
                    | StdException w => h w
                    | OtherException => throw e
                    end).
(** A range [for] whose body returns nothing. *)
Fixpoint for_each {S A} (l : list A) (body : A → M S unit) : M S unit :=
  match l with
  | [] => mret tt
  | x :: l' => _ ← body x; for_each l' body
  end.
(** Run code on a component of a larger state. *)
Definition zoom {S T A} (get : S → T) (put : T → S → S) (m : M T A) : M S A := λ s,
  match m (get s) with (r, t) => (r, put t s) end.

Lemma bind_ok {S A B} (m : M S A) (k : A → M S B) s a s' :
  m s = (Ok a, s') → (m ≫= k) s = k a s'.
Proof. intros H. unfold mbind, M_bind. by rewrite H. Qed.

Lemma bind_throw {S A B} (m : M S A) (k : A → M S B) s e s' :
  m s = (Throw e, s') → (m ≫= k) s = (Throw e, s').
Proof. intros H. unfold mbind, M_bind. by rewrite H. Qed.

Lemma bind_gets {S A B} (f : S → A) (k : A → M S B) s : (gets f ≫= k) s = k (f s) s.
Proof. done. Qed.

Lemma bind_modify {S B} (f : S → S) (k : unit → M S B) s : (modify f ≫= k) s = k tt (f s).
Proof. done. Qed.

Lemma bind_assoc {S A B C} (m : M S A) (f : A → M S B) (g : B → M S C) s :
  ((m ≫= f) ≫= g) s = (m ≫= λ a, f a ≫= g) s.
Proof. unfold mbind, M_bind. by destruct (m s) as [[] ?]. Qed.

(** ** What code does to its state

    [within R m]: running [m], to whatever result, relates the states before
    and after by [R].  For a preorder [R] this is closed under the ways code is
    put together, so that a frame or an invariant ([R s s' := P s → P s']) of
    a method follows from that of its parts. *)
Definition within {S A} (R : relation S) (m : M S A) : Prop := ∀ s, R s (m s).2.

Section within.
Context {S : Type} (R : relation S) `{!PreOrder R}.

Lemma within_ret {A} (a : A) : within R (mret a).
Proof. intros s. simpl. reflexivity. Qed.
Lemma within_throw {A} e : within R (throw e : M S A).
Proof. intros s. simpl. reflexivity. Qed.
Lemma within_gets {A} (f : S → A) : within R (gets f).
Proof. intros s. simpl. reflexivity. Qed.
Lemma within_lift {A} w (o : option A) : within R (lift_opt w o).
Proof. destruct o; [apply within_ret|apply within_throw]. Qed.
Lemma within_modify f : (∀ s, R s (f s)) → within R (modify f).
Proof. intros Hf s. apply Hf. Qed.

Lemma within_bind {A B} (m : M S A) (k : A → M S B) :
  within R m → (∀ a, within R (k a)) → within R (m ≫= k).
Proof.
  intros Hm Hk s. specialize (Hm s). unfold mbind, M_bind.
  destruct (m s) as [[a|e] s1]; simpl in *; [|done]. etrans; [done|]. apply Hk.
Qed.

Lemma within_catch_all {A} (m : M S A) h :
  within R m → (∀ e, within R (h e)) → within R (catch_all m h).
Proof.
  intros Hm Hh s. specialize (Hm s). unfold catch_all.
  destruct (m s) as [[a|e] s1]; simpl in *; [done|]. etrans; [done|]. apply Hh.
Qed.

Lemma within_catch_std {A} (m : M S A) h :
  within R m → (∀ w, within R (h w)) → within R (catch_std m h).
Proof.
  intros Hm Hh. apply within_catch_all; [done|].
  intros [w|]; [apply Hh|apply within_throw].
Qed.

Lemma within_for_each {A} (l : list A) (body : A → M S unit) :
  (∀ x, x ∈ l → within R (body x)) → within R (for_each l body).
Proof.
  induction l as [|x l IH]; intros Hb; simpl; [apply within_ret|].
  apply within_bind; [apply Hb; set_solver|]. intros _. apply IH. set_solver.
Qed.
End within.

Lemma within_zoom {S T A} (R : relation S) get put (Q : relation T) (m : M T A) :
  (∀ s t, Q (get s) t → R s (put t s)) → within Q m → within R (zoom get put m).
Proof.
  intros HQ Hm s. specialize (Hm (get s)). unfold zoom.
  destruct (m (get s)) as [r t]. by apply HQ.
Qed.

(** [raises P m]: the exceptions [m] can leave by satisfy [P]. *)
Definition raises {S A} (P : exn → Prop) (m : M S A) : Prop :=
  ∀ s e s', m s = (Throw e, s') → P e.

Section raises.
Context {S : Type} (P : exn → Prop).

Lemma raises_ret {A} (a : A) : raises P (mret a : M S A).
Proof. by intros s e s'. Qed.
Lemma raises_gets {A} (f : S → A) : raises P (gets f).
Proof. by intros s e s'. Qed.
Lemma raises_modify (f : S → S) : raises P (modify f).
Proof. by intros s e s'. Qed.
Lemma raises_lift {A} w (o : option A) : P (StdException w) → raises P (lift_opt w o : M S A).
Proof. intros Hw s e s'. by destruct o; intros [= <- <-]. Qed.
Lemma raises_bind {A B} (m : M S A) (k : A → M S B) :
  raises P m → (∀ a, raises P (k a)) → raises P (m ≫= k).
Proof.
  intros Hm Hk s e s'. unfold mbind, M_bind.
  destruct (m s) as [[a|e'] s1] eqn:E; [apply Hk|]. intros [= <- <-]. by eapply Hm.
Qed.
Lemma raises_for_each {A} (l : list A) (body : A → M S unit) :
  (∀ x, raises P (body x)) → raises P (for_each l body).
Proof.
  intros Hb. induction l as [|x l IH]; simpl; [apply raises_ret|].
  by apply raises_bind; [|intros _].
Qed.
End raises.

(** ** Finite maps and sets *)

(** [m[k]] of an [unordered_map] of sets, as a value: the default-constructed
    set when the key is missing. *)
Definition set_at {K A} `{Countable K, Countable A} (m : gmap K (gset A)) (k : K) : gset A :=
  default ∅ (m !! k).

Lemma set_at_insert {K A} `{Countable K, Countable A} (m : gmap K (gset A)) k k' X :
  set_at (<[k := X]> m) k' = if decide (k = k') then X else set_at m k'.
Proof. unfold set_at. rewrite lookup_insert. by case_decide. Qed.

Lemma set_at_delete {K A} `{Countable K, Countable A} (m : gmap K (gset A)) k k' :
  set_at (delete k m) k' = if decide (k = k') then ∅ else set_at m k'.
Proof. unfold set_at. rewrite lookup_delete. by case_decide. Qed.

Lemma set_at_empty {K A} `{Countable K, Countable A} (k : K) :
  set_at (∅ : gmap K (gset A)) k = ∅.
Proof. unfold set_at. by rewrite lookup_empty. Qed.

(** The unordered containers the scheduler loops over, each of one
    transaction: the key sets of [acquire_all_locks] and [execute_with_id], the
    lock manager's [held_locks[tx_id]], the maps [remote_keys],
    [pending_remote_locks[tx_id]] and [node_to_keys], and the key set such a
    map [c] has at a node. *)
Inductive Container :=
  | LocalKeys (tx_id : Z)
  | KeysToLock (tx_id : Z)
  | HeldLocks (tx_id : Z)
  | RemoteKeys (tx_id : Z)
  | PendingLocks (tx_id : Z)
  | NodeToKeys (tx_id : Z)
  | KeysAt (c : Container) (node_id : Z).

(** The iteration order of an unordered container is unspecified, and two
    containers with the same elements may differ in it; an [Iteration] chooses
    an order for each container and set, and nothing more is assumed of it. *)
Class Iteration (A : Type) `{Countable A} := {
  iter_order : Container → gset A → list A;
  iter_order_perm c X : iter_order c X ≡ₚ elements X;
}.

#[export] Instance elements_iteration {A} `{Countable A} : Iteration A | 100.
Proof. by refine {| iter_order := λ _, elements |}. Defined.

(** An iteration that visits some of the containers backwards. *)
Definition mixed_order {A} `{Countable A} (c : Container) (X : gset A) : list A :=
  match c with
  | KeysToLock _ | HeldLocks _ | PendingLocks _ | KeysAt (PendingLocks _) _ => reverse (elements X)
  | _ => elements X
  end.
Lemma mixed_order_perm {A} `{Countable A} c (X : gset A) : mixed_order c X ≡ₚ elements X.
Proof. unfold mixed_order. repeat case_match; rewrite ?reverse_Permutation; done. Qed.
Definition mixed_iteration {A} `{Countable A} : Iteration A :=
  {| iter_order := mixed_order; iter_order_perm := mixed_order_perm |}.

Section iteration.
Context {A} `{Iteration A}.

Lemma elem_of_iter_order c (X : gset A) x : x ∈ iter_order c X ↔ x ∈ X.
Proof. rewrite iter_order_perm. apply elem_of_elements. Qed.

Lemma NoDup_iter_order c (X : gset A) : NoDup (iter_order c X).
Proof. rewrite iter_order_perm. apply NoDup_elements. Qed.

End iteration.

(** ** Automation *)
Create HintDb tp discriminated.
Create HintDb typing discriminated.
Create Rewrite HintDb tpr.
Create Rewrite HintDb json.
#[export] Hint Resolve elem_of_iter_order NoDup_iter_order : tp.
#[export] Hint Resolve within_ret within_throw within_gets within_lift : tp.
#[export] Hint Resolve raises_ret raises_gets raises_modify raises_bind raises_for_each : tp.
#[export] Hint Rewrite @set_at_insert @set_at_delete : tpr.

(** Case analysis on every [decide] of the goal and the hypotheses. *)
Ltac cases := repeat first
  [ progress simplify_eq/= | case_decide | progress simplify_option_eq ].
(** Unfold one step of the effect monad at a known result. *)
Ltac run H := erewrite (bind_ok _ _ _ _ _ H).
(** Decompose code down to the calls it is made of. *)
Ltac frame_step := first
  [ assumption | apply _
  | progress intros
  | match goal with
    | |- within _ (_ ≫= _) => apply within_bind
    | |- within _ (catch_std _ _) => apply within_catch_std
    | |- within _ (catch_all _ _) => apply within_catch_all
    | |- within _ (for_each _ _) => apply within_for_each
    | |- within _ (mret _) => apply within_ret
    | |- within _ (throw _) => apply within_throw
    | |- within _ (gets _) => apply within_gets
    | |- within _ (lift_opt _ _) => apply within_lift
    | |- within _ (match ?x with _ => _ end) => destruct x
    end ].
Ltac frame := repeat frame_step.
Ltac invert H := inversion H; clear H; simplify_eq/=.
