(* ===== verification/Operations.v ===== *)
(** * Operations and transactions

    [lib/include/transactions/Operations.h], [Transaction.h] and the executor
    interface [OperationExecutor.h] / [NaiveOpExecutor.h]. *)
From S2P Require Import Prelude.

(** [storage/Types.h].  Keys and values are only stored, compared and
    hashed, so they are kept as [Z] values of the int64 range. *)
Abbreviation KeyType := Z (only parsing).
Abbreviation ValueType := Z (only parsing).
Abbreviation ValueContainer := (list Z) (only parsing).
(** [TransactionId] is [uint64_t], [NodeID] (= [Peer::id]) is [uint16_t]. *)
Abbreviation TransactionId := Z (only parsing).
Abbreviation NodeID := Z (only parsing).

Inductive OpType := READ | APPEND.

#[export] Instance OpType_eq_dec : EqDecision OpType.
Proof. solve_decision. Defined.

(** The abstract class [Operation] with its two final subclasses. *)
Inductive Operation :=
  | ReadOp (k : KeyType)
  | AppendOp (k : KeyType) (v : ValueType).

#[export] Instance Operation_eq_dec : EqDecision Operation.
Proof. solve_decision. Defined.

Definition op_type (op : Operation) : OpType :=
  match op with ReadOp _ => READ | AppendOp _ _ => APPEND end.
Definition op_key (op : Operation) : KeyType :=
  match op with ReadOp k => k | AppendOp k _ => k end.
(** [ReadOp] passes [-1] to the base class constructor. *)
Definition op_value (op : Operation) : ValueType :=
  match op with ReadOp _ => -1 | AppendOp _ v => v end.

(** [class Transaction]: the vector of operations. *)
Abbreviation Transaction := (list Operation) (only parsing).
(** What [execute_transaction] returns: one pair per reported read. *)
Abbreviation Reads := (list (Z * option (list Z))) (only parsing).

(** The keys a transaction touches, as the set the scheduler locks. *)
Definition tx_keys (tx : Transaction) : gset KeyType := list_to_set (op_key <$> tx).

Lemma elem_of_tx_keys tx k : k ∈ tx_keys tx ↔ ∃ op, op ∈ tx ∧ op_key op = k.
Proof.
  unfold tx_keys. rewrite elem_of_list_to_set, list_elem_of_fmap. naive_solver.
Qed.

(** ** The store interface [KVStore] and the visitor that uses it *)
Class KVStore (S : Type) := {
  kv_get : S → KeyType → option ValueContainer;
  kv_append : S → KeyType → ValueType → S;
}.

(** The contract written in [storage/KVStore.h]. *)
Class KVStoreSpec (S : Type) `{KVStore S} : Prop :=
  kv_get_append : ∀ s k v k',
    kv_get (kv_append s k v) k' =
      if decide (k = k') then Some (default [] (kv_get s k) ++ [v]) else kv_get s k'.

(** [NaiveOpExecutor]: only its declaration is in the repository, so it is a
    parameter.  [visit op] is [op->Accept(&visitor)]; the store is shared, and
    the call may throw.  [result()] is not const, hence returns the visitor's
    next state too. *)
Class OpExecutor (S : Type) := {
  executor : Type;
  new_executor : executor;
  visit : Operation → executor → M S executor;
  exec_result : executor → option ValueContainer * executor;
}.

(** What the scheduler relies on: visiting a read stores [get(key)] as the
    result, visiting an append performs [append(key, value)]. *)
Class OpExecutorSpec (S : Type) `{KVStore S, OpExecutor S} : Prop := {
  visit_read k e s :
    ∃ e', visit (ReadOp k) e s = (Ok e', s) ∧ (exec_result e').1 = kv_get s k;
  visit_append k v e s :
    ∃ e', visit (AppendOp k v) e s = (Ok e', kv_append s k v);
}.

(** ** Stores up to observation

    Two stores that answer every [get] alike are the same store to every
    client of the interface. *)
Section observation.
Context {S : Type} `{KVStoreSpec S}.

Definition kv_equiv (s1 s2 : S) : Prop := ∀ k, kv_get s1 k = kv_get s2 k.

#[export] Instance kv_equiv_equivalence : Equivalence kv_equiv.
Proof.
  split; [by intros s k|by intros s1 s2 E k|].
  intros s1 s2 s3 E1 E2 k. by rewrite E1.
Qed.

#[export] Instance kv_get_proper : Proper (kv_equiv ==> eq ==> eq) kv_get.
Proof. intros s1 s2 E k ? <-. apply E. Qed.

#[export] Instance kv_append_proper : Proper (kv_equiv ==> eq ==> eq ==> kv_equiv) kv_append.
Proof. intros s1 s2 E k ? <- v ? <- k'. by rewrite !kv_get_append, (E k), (E k'). Qed.

(** *** Reference semantics of a transaction: run its operations in order *)
Definition apply_op (op : Operation) (s : S) : S :=
  match op with ReadOp _ => s | AppendOp k v => kv_append s k v end.

Definition op_reads (op : Operation) (s : S) : Reads :=
  match op with ReadOp k => [(k, kv_get s k)] | AppendOp _ _ => [] end.

Fixpoint apply_tx (tx : Transaction) (s : S) : S :=
  match tx with [] => s | op :: tx' => apply_tx tx' (apply_op op s) end.

Fixpoint tx_reads (tx : Transaction) (s : S) : Reads :=
  match tx with [] => [] | op :: tx' => op_reads op s ++ tx_reads tx' (apply_op op s) end.

Lemma apply_tx_app tx1 tx2 s : apply_tx (tx1 ++ tx2) s = apply_tx tx2 (apply_tx tx1 s).
Proof. revert s. induction tx1 as [|op tx1 IH]; intros s; simpl; auto. Qed.

Lemma tx_reads_app tx1 tx2 s :
  tx_reads (tx1 ++ tx2) s = tx_reads tx1 s ++ tx_reads tx2 (apply_tx tx1 s).
Proof.
  revert s. induction tx1 as [|op tx1 IH]; intros s; simpl; [done|].
  by rewrite IH, (assoc_L (++)).
Qed.

Lemma apply_op_frame op s k : k ≠ op_key op → kv_get (apply_op op s) k = kv_get s k.
Proof. destruct op; simpl; [done|]. intros. rewrite kv_get_append. by case_decide. Qed.

(** A transaction only changes the keys it names ... *)
Lemma apply_tx_frame tx s k : k ∉ tx_keys tx → kv_get (apply_tx tx s) k = kv_get s k.
Proof.
  revert s. induction tx as [|op tx IH]; intros s Hk; simpl in *; [done|].
  rewrite IH by set_solver. apply apply_op_frame. set_solver.
Qed.

(** ... and what it reads and writes depends on those keys only. *)
Definition agree_on (X : gset KeyType) (s1 s2 : S) : Prop :=
  ∀ k, k ∈ X → kv_get s1 k = kv_get s2 k.

Lemma apply_op_agree op X s1 s2 :
  op_key op ∈ X → agree_on X s1 s2 → agree_on X (apply_op op s1) (apply_op op s2).
Proof.
  intros Hop E k Hk. destruct op as [k0|k0 v]; simpl in *; [by apply E|].
  by rewrite !kv_get_append, (E k0), (E k) by done.
Qed.

Lemma apply_tx_agree tx X s1 s2 :
  tx_keys tx ⊆ X → agree_on X s1 s2 → agree_on X (apply_tx tx s1) (apply_tx tx s2).
Proof.
  revert s1 s2. induction tx as [|op tx IH]; intros s1 s2 HX E; simpl in *; [done|].
  apply IH; [set_solver|]. apply apply_op_agree; [set_solver|done].
Qed.

Lemma tx_reads_agree tx X s1 s2 :
  tx_keys tx ⊆ X → agree_on X s1 s2 → tx_reads tx s1 = tx_reads tx s2.
Proof.
  revert s1 s2. induction tx as [|op tx IH]; intros s1 s2 HX E; simpl in *; [done|].
  f_equal.
  - destruct op; simpl; [|done]. do 2 f_equal. apply E. set_solver.
  - apply IH; [set_solver|]. apply apply_op_agree; [set_solver|done].
Qed.

#[export] Instance apply_op_proper op : Proper (kv_equiv ==> kv_equiv) (apply_op op).
Proof. intros s1 s2 E. destruct op; simpl; [done|by rewrite E]. Qed.

#[export] Instance apply_tx_proper tx : Proper (kv_equiv ==> kv_equiv) (apply_tx tx).
Proof.
  intros s1 s2 E. revert s1 s2 E. induction tx as [|op tx IH]; intros s1 s2 E; simpl; [done|].
  apply IH. by rewrite E.
Qed.
End observation.

(** One visit, under the executor's contract. *)
Lemma visit_spec {S} `{OpExecutorSpec S} op e s :
  ∃ e', visit op e s = (Ok e', apply_op op s) ∧
        (op_type op = READ → (exec_result e').1 = kv_get s (op_key op)).
Proof.
  destruct op as [k|k v]; simpl.
  - destruct (visit_read k e s) as (e' & ? & ?). eauto.
  - destruct (visit_append k v e s) as (e' & ?). naive_solver.
Qed.

(** ** The parameters instantiated

    A flat map as a store and an executor that keeps the last read: they meet
    the two contracts above, so the contracts can be met. *)
Definition flat_store : KVStore (gmap KeyType ValueContainer) :=
  {| kv_get m k := m !! k; kv_append m k v := <[k := default [] (m !! k) ++ [v]]> m |}.

Lemma flat_store_spec : @KVStoreSpec _ flat_store.
Proof. intros m k v k'. simpl. by rewrite lookup_insert. Qed.

Definition last_read_executor (S : Type) `{KVStore S} : OpExecutor S :=
  {| executor := option ValueContainer;
     new_executor := None;
     visit op e s := match op with
                     | ReadOp k => (Ok (kv_get s k), s)
                     | AppendOp k v => (Ok e, kv_append s k v)
                     end;
     exec_result e := (e, e) |}.

Lemma last_read_executor_spec (S : Type) `{KVStore S} :
  @OpExecutorSpec S _ (last_read_executor S).
Proof. split; simpl; eauto. Qed.
