(* ===== verification/KVStore.v ===== *)
(** * The striped key-value store

    [lib/include/storage/impl/ThreadSafeKVStore.h] and
    [lib/src/storage/impl/ThreadSafeKVStore.cpp].  The store is an array of
    256 stripes, each a mutex and a map partition; a key lives in the stripe
    its hash selects.  Every operation is one critical section of one stripe's
    mutex and a function on the store here; [StoreConcurrency] has the
    mutexes. *)
From stdpp Require Import vector.
From S2P Require Import Prelude Operations.

(** [std::hash<int64_t>]: a pure function into [size_t]; which one is
    unspecified, so it is a parameter of everything that routes by hash. *)
Class StdHash := {
  hash_i64 : KeyType → Z;
  hash_i64_range k : in_u 64 (hash_i64 k);
}.

(** The choice of libstdc++ and libc++: the value converted to [size_t]. *)
Definition identity_hash : StdHash.
Proof. refine {| hash_i64 := u64 |}. intros k. by apply wrap_u_range. Defined.

Definition NUM_STRIPES : nat := 256.

Record Stripe := { partition : gmap KeyType ValueContainer }.
Record ThreadSafeKVStore := { stripes : vec Stripe NUM_STRIPES }.

Section store.
Context `{StdHash}.

Definition get_stripe_index (key : KeyType) : Z := hash_i64 key mod Z.of_nat NUM_STRIPES.

Lemma get_stripe_index_lt key : Z.to_nat (get_stripe_index key) < NUM_STRIPES.
Proof.
  unfold get_stripe_index.
  pose proof (Z.mod_pos_bound (hash_i64 key) (Z.of_nat NUM_STRIPES)).
  unfold NUM_STRIPES in *. lia.
Qed.

(** [stripes[get_stripe_index(key)]]: the index as an index of the array. *)
Definition stripe_index (key : KeyType) : fin NUM_STRIPES :=
  nat_to_fin (get_stripe_index_lt key).

Definition get_stripe (s : ThreadSafeKVStore) (key : KeyType) : Stripe :=
  stripes s !!! stripe_index key.

Definition put_stripe (s : ThreadSafeKVStore) (key : KeyType) (t : Stripe) : ThreadSafeKVStore :=
  {| stripes := vinsert (stripe_index key) t (stripes s) |}.

Definition store_get (s : ThreadSafeKVStore) (key : KeyType) : option ValueContainer :=
  let p := partition (get_stripe s key) in
  match p !! key with
  | Some v => Some v
  | None => None
  end.

Definition store_append (s : ThreadSafeKVStore) (key : KeyType) (value : ValueType)
    : ThreadSafeKVStore :=
  let p := partition (get_stripe s key) in
  match p !! key with
  | Some v => put_stripe s key {| partition := <[key := v ++ [value]]> p |}
  | None => put_stripe s key {| partition := <[key := [value]]> p |}
  end.

#[export] Instance striped_store : KVStore ThreadSafeKVStore :=
  {| kv_get := store_get; kv_append := store_append |}.

(** The default-constructed store. *)
Definition empty_store : ThreadSafeKVStore :=
  {| stripes := vreplicate NUM_STRIPES {| partition := ∅ |} |}.

(** Keys are never stored outside the stripe their hash selects. *)
Definition striped (s : ThreadSafeKVStore) : Prop :=
  ∀ i key, is_Some (partition (stripes s !!! i) !! key) → i = stripe_index key.

(** The flat map the striped store stands for. *)
Definition flatten (s : ThreadSafeKVStore) : gmap KeyType ValueContainer :=
  foldr (λ t m, partition t ∪ m) ∅ (vec_to_list (stripes s)).

(** The abstract operation of [KVStore.h]'s documentation on a flat map. *)
Definition flat_append (m : gmap KeyType ValueContainer) (key : KeyType) (value : ValueType)
    : gmap KeyType ValueContainer :=
  <[key := default [] (m !! key) ++ [value]]> m.

Lemma get_put_stripe s key t key' :
  get_stripe (put_stripe s key t) key' =
    if decide (stripe_index key = stripe_index key') then t else get_stripe s key'.
Proof.
  unfold get_stripe, put_stripe; simpl. case_decide as E.
  - rewrite <- E. apply vlookup_insert.
  - by apply vlookup_insert_ne.
Qed.

Lemma store_get_lookup s key : store_get s key = partition (get_stripe s key) !! key.
Proof. unfold store_get. by case_match. Qed.

Lemma store_append_put s key value :
  store_append s key value =
    put_stripe s key {| partition := flat_append (partition (get_stripe s key)) key value |}.
Proof. unfold store_append, flat_append. by case_match. Qed.

#[export] Instance striped_store_spec : KVStoreSpec ThreadSafeKVStore.
Proof.
  intros s k v k'. simpl. rewrite store_append_put, !store_get_lookup, get_put_stripe.
  destruct (decide (k = k')) as [->|Hne].
  - rewrite decide_True by done. apply lookup_insert_eq.
  - case_decide as E; [|done]. unfold get_stripe. rewrite <- E. simpl.
    by apply lookup_insert_ne.
Qed.

Lemma striped_empty : striped empty_store.
Proof. intros i key [v Hv]. cbn [stripes empty_store] in Hv. by rewrite vlookup_replicate in Hv. Qed.

Lemma striped_append_inv s key value : striped s → striped (store_append s key value).
Proof.
  intros Hs i key'. rewrite store_append_put. simpl.
  destruct (decide (stripe_index key = i)) as [<-|Hne].
  - rewrite vlookup_insert. unfold flat_append; simpl. intros Hk.
    destruct (decide (key = key')) as [->|?]; [done|].
    rewrite lookup_insert_ne in Hk by done. by apply Hs.
  - rewrite vlookup_insert_ne by done. apply Hs.
Qed.

Lemma fold_partitions_None (l : list Stripe) key :
  (∀ i t, l !! i = Some t → partition t !! key = None) →
  foldr (λ t m, partition t ∪ m) ∅ l !! key = None.
Proof.
  induction l as [|t l IH]; intros Hl; simpl; [apply lookup_empty|].
  rewrite lookup_union_None. split; [by apply (Hl 0)|].
  apply IH. intros i t' Hi. by apply (Hl (S i)).
Qed.

(** Folding the partitions looks a key up in the only stripe that can hold it. *)
Lemma lookup_fold_partitions (l : list Stripe) (j : nat) t key :
  l !! j = Some t →
  (∀ i t', l !! i = Some t' → i ≠ j → partition t' !! key = None) →
  foldr (λ t m, partition t ∪ m) ∅ l !! key = partition t !! key.
Proof.
  revert j. induction l as [|t0 l IH]; intros j Hj Hother; [done|]. simpl.
  destruct j as [|j]; simplify_eq/=.
  - rewrite lookup_union_l; [done|]. apply fold_partitions_None.
    intros i t' Hi. by apply (Hother (S i)).
  - rewrite lookup_union_r by (by apply (Hother 0)). apply (IH j); [done|].
    intros i t' Hi Hne. apply (Hother (S i)); [done|lia].
Qed.

Lemma lookup_flatten s key : striped s → flatten s !! key = store_get s key.
Proof.
  intros Hs. rewrite store_get_lookup. unfold flatten.
  apply (lookup_fold_partitions _ (fin_to_nat (stripe_index key))).
  - by apply vlookup_lookup.
  - intros i t Hi Hne. apply vlookup_lookup' in Hi as [Hlt <-].
    apply eq_None_not_Some. intros Hk. apply Hs in Hk.
    apply Hne. rewrite <- Hk. by rewrite fin_to_nat_to_fin.
Qed.

(** C23. The striped store refines one flat map: a key is only ever in the stripe its hash
    selects, append on the 256 stripes is append on the flat map they stand for, and get
    reads that map - whatever the hash function is. *)
Theorem striped_store_refines_flat_map s key value :
  striped s →
  striped (store_append s key value) ∧
  flatten (store_append s key value) = flat_append (flatten s) key value ∧
  (∀ k, store_get s k = flatten s !! k).
Proof.
  intros Hs. pose proof (striped_append_inv s key value Hs) as Hs'.
  split_and!; [done| |intros k; by rewrite lookup_flatten].
  apply map_eq. intros k. unfold flat_append.
  rewrite lookup_flatten, lookup_insert, !lookup_flatten by done.
  pose proof (kv_get_append s key value k) as Hk. simpl in Hk. exact Hk.
Qed.
End store.

Definition demo_striped : ThreadSafeKVStore := @store_append identity_hash empty_store 7 1.

(** Keys 7 and -249 share a stripe. *)
Lemma striped_store_refines_flat_map_witness :
  @striped identity_hash demo_striped ∧
  flatten (@store_append identity_hash demo_striped (-249) 2) =
    flat_append (flatten demo_striped) (-249) 2.
Proof.
  assert (H : @striped identity_hash demo_striped) by apply striped_append_inv, striped_empty.
  split; [exact H|].
  exact (proj1 (proj2 (@striped_store_refines_flat_map identity_hash _ (-249) 2 H))).
Defined.
