(* ===== verification/StoreConcurrency.v ===== *)
(** * Concurrent calls on the striped store

    [lib/src/storage/impl/ThreadSafeKVStore.cpp] with the stripes' mutexes
    explicit: any number of threads call [get] and [append], and every access
    to a stripe's map and every mutex operation is a step of its own.  The
    calls are linearizable: whatever the interleaving, they return and leave
    what the functions [store_get] and [store_append] of [KVStore] return and
    leave when they are applied one after another, each between its
    invocation and its return.  So the other files may take a call on the
    store as one step. *)
From S2P Require Import Prelude Operations KVStore.

Inductive store_call := CGet (k : KeyType) | CAppend (k : KeyType) (v : ValueType).

Definition call_key (c : store_call) : KeyType :=
  match c with CGet k | CAppend k _ => k end.

Inductive response := RGet (o : option ValueContainer) | RAppend.

(** Inside [get] and [append] (line numbers of ThreadSafeKVStore.cpp). *)
Inductive store_pc :=
  | S_lock                    (* 11, 25: locking the stripe's mutex *)
  | S_contains                (* 14, 28: partition.contains(key) *)
  | S_present                 (* 15: partition.at(key); 29: partition[key].push_back(value) *)
  | S_absent                  (* 17: nullopt; 31: partition.emplace(key, {value}) *)
  | S_unlock (r : response)   (* the guard's destructor *)
  | S_terminate.              (* an exception in a noexcept function *)

#[export] Instance response_eq_dec : EqDecision response.
Proof. solve_decision. Defined.
#[export] Instance store_pc_eq_dec : EqDecision store_pc.
Proof. solve_decision. Defined.

(** A thread: the calls it still has to make, the first of them in progress,
    and what its finished calls returned. *)
Record client := mkClient {
  cl_todo : list store_call;
  cl_pc : store_pc;
  cl_done : list response;
}.

Section clients.
Context `{StdHash}.

(** [partition[key].push_back(value)], which default-inserts a missing key. *)
Definition push_back (k : KeyType) (v : ValueType) (p : gmap KeyType ValueContainer) :=
  <[k := default [] (p !! k) ++ [v]]> p.
(** [partition.emplace(key, ValueContainer({value}))], which keeps a present one. *)
Definition emplace_value (k : KeyType) (v : ValueType) (p : gmap KeyType ValueContainer) :=
  match p !! k with Some _ => p | None => <[k := [v]]> p end.

Definition on_stripe (k : KeyType) (f : gmap KeyType ValueContainer → gmap KeyType ValueContainer)
    (s : ThreadSafeKVStore) : ThreadSafeKVStore :=
  put_stripe s k {| partition := f (partition (get_stripe s k)) |}.

(** One step of the call in progress, its mutex being available. *)
Definition call_step (c : store_call) (p : store_pc) (s : ThreadSafeKVStore)
    : store_pc * ThreadSafeKVStore :=
  let part := partition (get_stripe s (call_key c)) in
  match p, c with
  | S_lock, _ => (S_contains, s)
  | S_contains, _ => (if decide (is_Some (part !! call_key c)) then S_present else S_absent, s)
  | S_present, CGet k =>
      match part !! k with
      | Some v => (S_unlock (RGet (Some v)), s)
      | None => (S_terminate, s)
      end
  | S_present, CAppend k v => (S_unlock RAppend, on_stripe k (push_back k v) s)
  | S_absent, CGet k => (S_unlock (RGet None), s)
  | S_absent, CAppend k v => (S_unlock RAppend, on_stripe k (emplace_value k v) s)
  | S_unlock r, _ => (S_lock, s)
  | S_terminate, _ => (S_terminate, s)
  end.

Definition client_step (cl : client) (s : ThreadSafeKVStore) : client * ThreadSafeKVStore :=
  match cl_todo cl with
  | [] => (cl, s)
  | c :: todo =>
      let '(p, s') := call_step c (cl_pc cl) s in
      (match cl_pc cl with
       | S_unlock r => mkClient todo p (cl_done cl ++ [r])
       | _ => mkClient (c :: todo) p (cl_done cl)
       end, s')
  end.

(** The stripe whose mutex a thread holds. *)
Definition holds_stripe (cl : client) : option (fin NUM_STRIPES) :=
  match cl_todo cl, cl_pc cl with
  | [], _ | _, S_lock => None
  | c :: _, _ => Some (stripe_index (call_key c))
  end.

Record store_sys := mkStoreSys { ss_clients : gmap nat client; ss_store : ThreadSafeKVStore }.

(** The thread can take its next step. *)
Definition can_step (cls : gmap nat client) (cl : client) : Prop :=
  match cl_todo cl, cl_pc cl with
  | [], _ | _, S_terminate => False
  | c :: _, S_lock => map_Forall (λ _ cl', holds_stripe cl' ≠ Some (stripe_index (call_key c))) cls
  | _, _ => True
  end.

#[export] Instance can_step_dec cls cl : Decision (can_step cls cl).
Proof. unfold can_step. destruct (cl_todo cl), (cl_pc cl); apply _. Defined.

Definition step_client (i : nat) (s : store_sys) : option store_sys :=
  match ss_clients s !! i with
  | Some cl =>
      if decide (can_step (ss_clients s) cl)
      then let '(cl', st') := client_step cl (ss_store s) in
           Some (mkStoreSys (<[i := cl']> (ss_clients s)) st')
      else None
  | None => None
  end.

Inductive store_step (s s' : store_sys) : Prop :=
  | store_step_by i : step_client i s = Some s' → store_step s s'.

(** Threads that have not begun their first call. *)
Definition calls_waiting (prog : gmap nat (list store_call)) (st : ThreadSafeKVStore) : store_sys :=
  mkStoreSys ((λ p, mkClient p S_lock []) <$> prog) st.

(** ** Sequential executions *)
Record store_entry := mkSE { se_tid : nat; se_call : store_call; se_resp : response }.

(** A call as one function of the store. *)
Definition apply_call (c : store_call) (s : ThreadSafeKVStore) : response * ThreadSafeKVStore :=
  match c with
  | CGet k => (RGet (store_get s k), s)
  | CAppend k v => (RAppend, store_append s k v)
  end.

Fixpoint replays (log : list store_entry) (s s' : ThreadSafeKVStore) : Prop :=
  match log with
  | [] => s = s'
  | e :: log' =>
      se_resp e = (apply_call (se_call e) s).1 ∧ replays log' (apply_call (se_call e) s).2 s'
  end.

Lemma replays_snoc log e s s' :
  replays log s s' → se_resp e = (apply_call (se_call e) s').1 →
  replays (log ++ [e]) s (apply_call (se_call e) s').2.
Proof.
  revert s. induction log as [|e0 log IH]; intros s; simpl; [by intros <-|].
  intros [? ?] ?. split; [done|]. by apply IH.
Qed.

(** What one thread did in a log. *)
Definition by_client (i : nat) (log : list store_entry) : list store_entry :=
  filter (λ e, se_tid e = i) log.

(** The call in progress has had its effect. *)
Definition pending_response (cl : client) : list response :=
  match cl_pc cl with S_unlock r => [r] | _ => [] end.
Definition calls_ahead (cl : client) : list store_call :=
  match cl_pc cl with S_unlock _ => tail (cl_todo cl) | _ => cl_todo cl end.

(** [log] explains a state: run one after another on the initial store its
    calls give their responses and the store; and each thread's calls are in
    it in program order, those that returned with what they returned, at most
    the one in progress besides. *)
Record linearized (prog : gmap nat (list store_call)) (st0 : ThreadSafeKVStore) (s : store_sys)
    (log : list store_entry) : Prop := {
  lin_replays : replays log st0 (ss_store s);
  lin_threads e : e ∈ log → is_Some (ss_clients s !! se_tid e);
  lin_client i cl : ss_clients s !! i = Some cl →
    prog !! i = Some ((se_call <$> by_client i log) ++ calls_ahead cl) ∧
    se_resp <$> by_client i log = cl_done cl ++ pending_response cl;
}.

(** ** The mutexes exclude *)

(** What the test has found still holds when its branch runs. *)
Definition pc_found (c : store_call) (p : store_pc) (s : ThreadSafeKVStore) : Prop :=
  let v := partition (get_stripe s (call_key c)) !! call_key c in
  match p with
  | S_present => is_Some v
  | S_absent => v = None
  | S_terminate => False
  | _ => True
  end.

Definition client_ok (s : ThreadSafeKVStore) (cl : client) : Prop :=
  match cl_todo cl with
  | [] => cl_pc cl = S_lock
  | c :: _ => pc_found c (cl_pc cl) s
  end.

Record store_inv (s : store_sys) : Prop := {
  sinv_exclusive i j cl cl' x :
    ss_clients s !! i = Some cl → ss_clients s !! j = Some cl' →
    holds_stripe cl = Some x → holds_stripe cl' = Some x → i = j;
  sinv_client i cl : ss_clients s !! i = Some cl → client_ok (ss_store s) cl;
}.

Lemma get_on_stripe k f s k' :
  stripe_index k ≠ stripe_index k' → get_stripe (on_stripe k f s) k' = get_stripe s k'.
Proof. intros Hne. unfold on_stripe. rewrite get_put_stripe. by rewrite decide_False. Qed.

(** A step changes no stripe but the one whose mutex the thread holds. *)
Lemma client_step_frame cl s k :
  holds_stripe cl ≠ Some (stripe_index k) →
  get_stripe (client_step cl s).2 k = get_stripe s k.
Proof.
  unfold client_step, holds_stripe. destruct (cl_todo cl) as [|c todo]; [done|].
  destruct (cl_pc cl), c as [k'|k' v]; simpl; try done; intros Hne;
    try (apply get_on_stripe; congruence).
  by destruct (partition (get_stripe s k') !! k').
Qed.

(** The branch taken has the effect and the result of the function. *)
Lemma call_effect c p s r s' :
  pc_found c p s → call_step c p s = (S_unlock r, s') → apply_call c s = (r, s').
Proof.
  destruct p, c as [k|k v]; simpl; intros Hf E; try done; simplify_eq.
  - by case_decide.
  - by case_decide.
  - rewrite store_get_lookup. by destruct (partition (get_stripe s k) !! k); simplify_eq.
  - by rewrite store_append_put.
  - by rewrite store_get_lookup, Hf.
  - rewrite store_append_put. unfold on_stripe, emplace_value, flat_append. by rewrite Hf.
Qed.

(** After its own step a thread holds the stripe it held, or just locked it. *)
Lemma holds_own_step cl s x :
  holds_stripe (client_step cl s).1 = Some x →
  holds_stripe cl = Some x ∨
  cl_pc cl = S_lock ∧ ∃ c todo, cl_todo cl = c :: todo ∧ x = stripe_index (call_key c).
Proof.
  unfold client_step, holds_stripe. destruct (cl_todo cl) as [|c todo] eqn:Et; simpl.
  { by rewrite Et. }
  destruct (call_step c (cl_pc cl) s) as [p s'] eqn:E.
  destruct (cl_pc cl) eqn:Ep; simpl; intros Hx.
  - right. split; [done|]. exists c, todo. split; [done|]. simpl in E. by simplify_eq/=.
  - left. by destruct p.
  - left. by destruct p.
  - left. by destruct p.
  - simpl in E. simplify_eq. by destruct todo.
  - left. by destruct p.
Qed.

Lemma client_ok_own cl s :
  client_ok s cl → client_ok (client_step cl s).2 (client_step cl s).1.
Proof.
  unfold client_ok, client_step. destruct (cl_todo cl) as [|c todo] eqn:Et; simpl; [by rewrite Et|].
  destruct (cl_pc cl), c as [k|k v]; simpl; intros Hok; try done; try by destruct todo.
  - by case_decide as E; [|apply eq_None_not_Some].
  - by case_decide as E; [|apply eq_None_not_Some].
  - destruct Hok as [v ->]. done.
Qed.

Lemma client_ok_frame s s' cl :
  (∀ k, holds_stripe cl = Some (stripe_index k) → get_stripe s' k = get_stripe s k) →
  client_ok s cl → client_ok s' cl.
Proof.
  unfold client_ok, holds_stripe. destruct (cl_todo cl) as [|c todo]; [done|].
  destruct (cl_pc cl); simpl; intros Hf; try done; by rewrite Hf.
Qed.

Lemma store_step_inv s s' :
  store_step s s' → ∃ i cl, ss_clients s !! i = Some cl ∧ can_step (ss_clients s) cl ∧
    s' = mkStoreSys (<[i := (client_step cl (ss_store s)).1]> (ss_clients s))
           (client_step cl (ss_store s)).2.
Proof.
  intros [i Hi]. unfold step_client in Hi. destruct (ss_clients s !! i) as [cl|] eqn:E; [|done].
  case_decide; [|done]. exists i, cl. split_and!; [done..|].
  destruct (client_step cl (ss_store s)). by simplify_eq.
Qed.

Lemma store_inv_step s s' : store_inv s → store_step s s' → store_inv s'.
Proof.
  intros [Hexcl Hok] (i & cl & Hcl & Hcan & ->)%store_step_inv.
  assert (Hnew : ∀ j cl' x, j ≠ i → ss_clients s !! j = Some cl' → holds_stripe cl' = Some x →
    holds_stripe (client_step cl (ss_store s)).1 ≠ Some x).
  { intros j cl' x Hne Hcl' Hx [Hx'|(Hpc & c & todo & Ht & ->)]%holds_own_step.
    - by apply Hne, (Hexcl j i cl' cl x).
    - unfold can_step in Hcan. rewrite Ht, Hpc in Hcan. by apply (Hcan j cl' Hcl'). }
  split; simpl.
  - intros j1 j2 cl1 cl2 x [[<- <-]|[Hn1 H1]]%lookup_insert_Some
      [[<- <-]|[Hn2 H2]]%lookup_insert_Some Hx1 Hx2; [done|..].
    + by destruct (Hnew j2 cl2 x).
    + by destruct (Hnew j1 cl1 x).
    + by apply (Hexcl j1 j2 cl1 cl2 x).
  - intros j cl' [[<- <-]|[Hne Hcl']]%lookup_insert_Some; [by eapply client_ok_own, Hok|].
    apply (client_ok_frame (ss_store s)); [|by eapply Hok].
    intros k Hk. apply client_step_frame. intros Hx. by apply Hne, (Hexcl i j cl cl' (stripe_index k)).
Qed.

Lemma store_inv_waiting prog st : store_inv (calls_waiting prog st).
Proof.
  split; simpl.
  - intros i j cl cl' x (p & <- & _)%lookup_fmap_Some _. by destruct p.
  - intros i cl (p & <- & _)%lookup_fmap_Some. by destruct p.
Qed.

(** ** The log *)
Lemma linearized_waiting prog st : linearized prog st (calls_waiting prog st) [].
Proof.
  split; simpl; [done|set_solver|].
  intros i cl (p & <- & Hp)%lookup_fmap_Some. by rewrite Hp.
Qed.

Lemma by_client_app i j log ent :
  Forall (λ e, se_tid e = i) ent →
  by_client j (log ++ ent) = by_client j log ++ (if decide (i = j) then ent else []).
Proof.
  intros Htid. unfold by_client. rewrite filter_app. f_equal.
  induction Htid as [|e ent He _ IH]; [by case_decide|]. rewrite filter_cons, He, IH.
  by case_decide.
Qed.

(** The entry a step adds: that of a branch. *)
Definition step_entry (i : nat) (cl : client) (s : ThreadSafeKVStore) : list store_entry :=
  match cl_todo cl, cl_pc cl, pending_response (client_step cl s).1 with
  | c :: _, (S_present | S_absent), [r] => [mkSE i c r]
  | _, _, _ => []
  end.

Lemma branch_runs c p s :
  pc_found c p s → p = S_present ∨ p = S_absent → ∃ r s', call_step c p s = (S_unlock r, s').
Proof.
  intros Hf Hp. destruct c as [k|k v], Hp as [-> | ->]; simpl in *; eauto.
  destruct Hf as [v ->]. eauto.
Qed.

Lemma step_entry_spec i cl s :
  client_ok s cl →
  let cl' := (client_step cl s).1 in
  let ent := step_entry i cl s in
  (∀ log st0, replays log st0 s → replays (log ++ ent) st0 (client_step cl s).2) ∧
  Forall (λ e, se_tid e = i) ent ∧
  calls_ahead cl = (se_call <$> ent) ++ calls_ahead cl' ∧
  cl_done cl' ++ pending_response cl' = cl_done cl ++ pending_response cl ++ (se_resp <$> ent).
Proof.
  intros Hok. unfold client_ok, step_entry, client_step, calls_ahead, pending_response in *.
  destruct cl as [[|c todo] p d]; simpl in *.
  { subst p. simpl. split_and!; try done; intros; by rewrite app_nil_r. }
  destruct (decide (p = S_present ∨ p = S_absent)) as [Hp|Hp].
  - destruct (branch_runs c p s Hok Hp) as (r & s' & E). rewrite E.
    pose proof (call_effect c p s r s' Hok E) as Heff.
    destruct Hp as [-> | ->]; simpl; split_and!; try done; try (by repeat constructor);
      intros log st0 Hlog; pose proof (replays_snoc log (mkSE i c r) st0 s Hlog) as Hsnoc;
      simpl in Hsnoc; rewrite Heff in Hsnoc; by apply Hsnoc.
  - destruct p as [| | | |r|]; simpl in *; try done; try naive_solver.
    + split_and!; try done; intros; by rewrite app_nil_r.
    + case_decide; split_and!; try done; intros; by rewrite app_nil_r.
    + split_and!; try done; intros; by rewrite ?app_nil_r.
Qed.

Lemma linearized_step prog st0 s log i cl :
  store_inv s → linearized prog st0 s log → ss_clients s !! i = Some cl →
  linearized prog st0
    (mkStoreSys (<[i := (client_step cl (ss_store s)).1]> (ss_clients s))
       (client_step cl (ss_store s)).2)
    (log ++ step_entry i cl (ss_store s)).
Proof.
  intros Hinv [Hrep Hth Hcls] Hcl.
  destruct (step_entry_spec i cl (ss_store s)) as (Hr & Htid & Hahead & Hdone);
    [by eapply sinv_client|].
  set (ent := step_entry i cl (ss_store s)) in *. clearbody ent.
  split; simpl.
  - by apply Hr.
  - intros e [He|He]%elem_of_app.
    + rewrite lookup_insert. case_decide; [by eexists|]. by apply Hth.
    + rewrite Forall_forall in Htid. rewrite (Htid e He), lookup_insert_eq. by eexists.
  - intros j cl' [[<- <-]|[Hne Hcl']]%lookup_insert_Some; rewrite (by_client_app i) by done.
    + destruct (Hcls i cl Hcl) as [Hp Hd]. rewrite decide_True, !fmap_app by done.
      rewrite <- (assoc_L (++)), <- Hahead, Hd, Hdone. by rewrite <- (assoc_L (++)).
    + rewrite decide_False, app_nil_r by done. by apply Hcls.
Qed.

(** Calls left to make, four steps each. *)
Definition pc_steps (p : store_pc) : nat :=
  match p with
  | S_lock => 4 | S_contains => 3 | S_present | S_absent => 2 | S_unlock _ => 1 | S_terminate => 0
  end.
Definition client_steps (cl : client) : nat :=
  match cl_todo cl with [] => 0 | _ :: todo => pc_steps (cl_pc cl) + 4 * length todo end.
Definition steps_left (s : store_sys) : nat :=
  map_fold (λ _ cl n, client_steps cl + n) 0 (ss_clients s).

Lemma steps_left_insert s i cl cl' st :
  ss_clients s !! i = Some cl →
  steps_left (mkStoreSys (<[i := cl']> (ss_clients s)) st) + client_steps cl =
    steps_left s + client_steps cl'.
Proof.
  intros Hi. unfold steps_left; simpl.
  rewrite <- (insert_delete_id (ss_clients s) i cl Hi) at 2.
  rewrite <- insert_delete_eq, !map_fold_insert_L by (rewrite ?lookup_delete_eq; done || (intros; lia)).
  lia.
Qed.

Lemma step_counts s s' : store_inv s → store_step s s' → steps_left s = Datatypes.S (steps_left s').
Proof.
  intros Hinv (i & cl & Hcl & Hcan & ->)%store_step_inv.
  pose proof (steps_left_insert s i cl (client_step cl (ss_store s)).1
                (client_step cl (ss_store s)).2 Hcl) as Hleft.
  enough (client_steps cl = Datatypes.S (client_steps (client_step cl (ss_store s)).1)) by lia.
  pose proof (sinv_client _ Hinv _ _ Hcl) as Hok.
  unfold client_steps, client_step, client_ok, can_step in *. clear Hleft.
  destruct cl as [[|c todo] p d]; simpl in *; [done|].
  destruct (decide (p = S_present ∨ p = S_absent)) as [Hp|Hp].
  - destruct (branch_runs c p _ Hok Hp) as (r & s' & ->). by destruct Hp as [-> | ->].
  - destruct p as [| | | |r|]; simpl in *; try done; try naive_solver.
    + by case_decide.
    + destruct todo; simpl; lia.
Qed.

(** No deadlock: a thread with a call left can step, or waits for one that can. *)
Lemma some_client_steps s :
  store_inv s → (∃ i cl, ss_clients s !! i = Some cl ∧ cl_todo cl ≠ []) → ∃ s', store_step s s'.
Proof.
  intros Hinv (i & cl & Hcl & Htodo).
  assert (Hgo : ∀ j cl', ss_clients s !! j = Some cl' → can_step (ss_clients s) cl' →
    ∃ s', store_step s s').
  { intros j cl' Hcl' Hcan. destruct (client_step cl' (ss_store s)) as [cl1 st1] eqn:E.
    eexists. apply (store_step_by _ _ j). unfold step_client.
    rewrite Hcl', decide_True, E by done. done. }
  pose proof (sinv_client _ Hinv _ _ Hcl) as Hok.
  destruct (decide (can_step (ss_clients s) cl)) as [Hcan|Hno]; [by eapply Hgo|].
  unfold can_step, client_ok in Hno, Hok. destruct (cl_todo cl) as [|c todo] eqn:Et; [done|].
  destruct (cl_pc cl) eqn:Ep; try done.
  apply map_not_Forall in Hno as (j & cl' & Hcl' & Hx); [|apply _].
  apply dec_stable in Hx. apply (Hgo j cl' Hcl').
  pose proof (sinv_client _ Hinv _ _ Hcl') as Hok'.
  unfold holds_stripe, can_step, client_ok in *.
  destruct (cl_todo cl') as [|c' todo']; [done|]. by destruct (cl_pc cl').
Qed.

Lemma store_inv_steps s s' : store_inv s → rtc store_step s s' → store_inv s'.
Proof. intros Hinv Hs. induction Hs; eauto using store_inv_step. Qed.

Lemma linearized_steps prog st0 s s' log :
  store_inv s → linearized prog st0 s log → rtc store_step s s' →
  ∃ new, linearized prog st0 s' (log ++ new).
Proof.
  intros Hinv Hlin Hsteps. revert log Hinv Hlin.
  induction Hsteps as [s|s s1 s2 Hstep _ IH]; intros log Hinv Hlin.
  - exists []. by rewrite app_nil_r.
  - pose proof (store_inv_step _ _ Hinv Hstep) as Hinv1.
    apply store_step_inv in Hstep as (i & cl & Hcl & _ & ->).
    destruct (IH _ Hinv1 (linearized_step prog st0 s log i cl Hinv Hlin Hcl)) as [new Hnew].
    eexists. by rewrite (assoc_L (++)).
Qed.

(** C17. The striped store is linearizable: any number of threads call get and append, every
    access to a stripe's map and every operation on its mutex being a step. At every point
    there is a sequence of the calls that have had their effect - each thread's calls in
    program order, those that returned with what they returned, at most the one in progress
    besides - which, run one after another on the initial store with the functions store_get
    and store_append, gives those results and the store; and the sequence of a later point
    extends it, so a call that returned before another began comes before it. *)
Theorem store_linearizable prog st0 s1 s2 :
  rtc store_step (calls_waiting prog st0) s1 → rtc store_step s1 s2 →
  ∃ log1 log2, linearized prog st0 s1 log1 ∧ linearized prog st0 s2 (log1 ++ log2).
Proof.
  intros H1 H2. pose proof (store_inv_waiting prog st0) as Hinv.
  destruct (linearized_steps prog st0 _ s1 [] Hinv (linearized_waiting prog st0) H1) as [log1 Hl1].
  destruct (linearized_steps prog st0 s1 s2 log1) as [log2 Hl2];
    [by eapply store_inv_steps|done..|].
  by exists log1, log2.
Qed.

Lemma steps_counted n s s' :
  store_inv s → nsteps store_step n s s' → store_inv s' ∧ steps_left s = n + steps_left s'.
Proof.
  intros Hinv Hn. induction Hn as [s|n s s1 s2 Hstep _ IH]; [done|].
  pose proof (step_counts _ _ Hinv Hstep). pose proof (store_inv_step _ _ Hinv Hstep) as Hinv1.
  destruct (IH Hinv1). split; [done|lia].
Qed.

Definition calls_finished (s : store_sys) : Prop :=
  map_Forall (λ _ cl, cl_todo cl = []) (ss_clients s).

Lemma calls_finish s :
  store_inv s → ∃ s', nsteps store_step (steps_left s) s s' ∧ calls_finished s'.
Proof.
  remember (steps_left s) as n eqn:Hn. revert s Hn. induction n as [|n IH]; intros s Hn Hinv.
  - exists s. split; [constructor|]. intros i cl Hcl. destruct (cl_todo cl) eqn:E; [done|].
    destruct (some_client_steps s Hinv) as [s' Hs']; [exists i, cl; by rewrite E|].
    pose proof (step_counts _ _ Hinv Hs'). lia.
  - destruct (decide (map_Exists (λ _ cl, cl_todo cl ≠ []) (ss_clients s))) as [(i & cl & ? & ?)|Hno].
    + destruct (some_client_steps s Hinv) as [s1 Hs1]; [by exists i, cl|].
      pose proof (step_counts _ _ Hinv Hs1). destruct (IH s1) as (s' & Hsteps & Hfin);
        [lia|by eapply store_inv_step|]. exists s'. split; [by econstructor|done].
    + exfalso. enough (steps_left s = 0) by lia. unfold steps_left.
      apply (map_fold_weak_ind (λ n m, m ⊆ ss_clients s → n = 0)); [done| |done].
      intros j cl m n' Hj IHn Hsub.
      assert (Hcl : ss_clients s !! j = Some cl).
      { eapply lookup_weaken; [|done]. apply lookup_insert_eq. }
      rewrite IHn by (etrans; [by apply insert_subseteq|done]).
      unfold client_steps. destruct (cl_todo cl) eqn:E; [done|].
      destruct Hno. exists j, cl. by rewrite E.
Qed.

Lemma steps_keep_clients s s' :
  rtc store_step s s' → dom (ss_clients s') = dom (ss_clients s).
Proof.
  intros Hs. induction Hs as [|s s1 s2 Hstep _ ->]; [done|].
  apply store_step_inv in Hstep as (i & cl & Hcl & _ & ->). simpl.
  rewrite dom_insert_L. apply elem_of_dom_2 in Hcl. set_solver.
Qed.

(** The steps of all calls of a program. *)
Definition program_steps (prog : gmap nat (list store_call)) : nat :=
  map_fold (λ _ calls n, 4 * length calls + n) 0 prog.

Lemma steps_left_waiting prog st : steps_left (calls_waiting prog st) = program_steps prog.
Proof.
  unfold steps_left, program_steps. simpl. rewrite map_fold_fmap.
  rewrite !map_fold_foldr. induction (map_to_list prog) as [|[i calls] l IH]; simpl in *; [done|].
  rewrite IH. destruct calls; simpl; lia.
Qed.

Lemma finished_client prog st0 s i calls :
  rtc store_step (calls_waiting prog st0) s → calls_finished s → prog !! i = Some calls →
  ∃ cl, ss_clients s !! i = Some cl ∧ length (cl_done cl) = length calls.
Proof.
  intros Hs Hfin Hi. pose proof (store_inv_waiting prog st0) as Hinv.
  destruct (linearized_steps _ _ _ _ _ Hinv (linearized_waiting prog st0) Hs) as [log Hlin].
  assert (Hdom : i ∈ dom (ss_clients s)).
  { rewrite (steps_keep_clients _ _ Hs). simpl. rewrite dom_fmap. by apply elem_of_dom_2 in Hi. }
  apply elem_of_dom in Hdom as [cl Hcl]. exists cl. split; [done|].
  pose proof (sinv_client _ (store_inv_steps _ _ Hinv Hs) _ _ Hcl) as Hok.
  destruct (lin_client _ _ _ _ Hlin i cl Hcl) as [Hp Hd]. pose proof (Hfin i cl Hcl) as Ht.
  unfold client_ok, calls_ahead, pending_response in *. rewrite Ht in Hok. simpl in Hok.
  rewrite Hok, ?Ht, ?app_nil_r in *. simplify_eq. by rewrite <- Hd, !length_fmap.
Qed.

(** C31. Calls on the store return: no interleaving of get and append calls blocks or runs
    on - from every state reached the threads can go on until all calls have returned, each
    with one result, and every execution has at most four steps per call. *)
Theorem store_calls_return prog st0 n s :
  nsteps store_step n (calls_waiting prog st0) s →
  ∃ m s', nsteps store_step m s s' ∧ calls_finished s' ∧ n + m = program_steps prog ∧
    ∀ i calls, prog !! i = Some calls →
      ∃ cl, ss_clients s' !! i = Some cl ∧ length (cl_done cl) = length calls.
Proof.
  intros Hn. pose proof (store_inv_waiting prog st0) as Hinv.
  destruct (steps_counted _ _ _ Hinv Hn) as [Hinvs Hcount].
  destruct (calls_finish s Hinvs) as (s' & Hm & Hfin).
  exists (steps_left s), s'. split_and!; [done..|by rewrite <- Hcount, steps_left_waiting|].
  intros i calls. apply (finished_client prog st0); [|done].
  etrans; apply rtc_nsteps; eauto.
Qed.
End clients.

(** ** The hypotheses hold

    Two threads on the same key, which is in the same stripe for both: the
    second waits for the mutex while the first appends. *)
Module StoreDemo.
#[local] Existing Instance identity_hash.

Definition demo_calls : gmap nat (list store_call) :=
  {[ 0 := [CAppend 5 1; CGet 5]; 1 := [CGet 5; CAppend 261 2] ]}.

Definition run_clients (sched : list nat) (s : store_sys) : option store_sys :=
  foldl (λ o i, o ≫= step_client i) (Some s) sched.

Lemma run_clients_nsteps sched s s' :
  run_clients sched s = Some s' → nsteps store_step (length sched) s s'.
Proof.
  unfold run_clients. revert s. induction sched as [|i sched IH]; intros s Hrun; simpl in *.
  { simplify_eq. constructor. }
  destruct (step_client i s) as [s1|] eqn:E.
  - eapply nsteps_l; [by econstructor|by apply IH].
  - exfalso. clear IH E. induction sched; simpl in *; [done|by apply IHsched].
Qed.

Definition clients_at (sched : list nat) : store_sys :=
  default (calls_waiting demo_calls empty_store)
    (run_clients sched (calls_waiting demo_calls empty_store)).

(** Thread 1 wants the stripe of key 5 while thread 0 has it; its second call,
    on a key of the same stripe, overlaps the get of thread 0. *)
Definition first_part : list nat := [0; 0; 0; 0; 1; 1].
Definition second_part : list nat := [1; 1; 0; 0; 0; 0; 1; 1; 1; 1].

Lemma store_linearizable_witness :
  ∃ log1 log2, linearized demo_calls empty_store (clients_at first_part) log1 ∧
    linearized demo_calls empty_store (clients_at (first_part ++ second_part)) (log1 ++ log2).
Proof.
  apply (store_linearizable demo_calls empty_store).
  - apply (rtc_nsteps_2 6). apply (run_clients_nsteps first_part). vm_compute. reflexivity.
  - apply (rtc_nsteps_2 10). apply (run_clients_nsteps second_part). vm_compute. reflexivity.
Defined.

Lemma store_calls_return_witness :
  ∃ m s', nsteps store_step m (clients_at first_part) s' ∧ calls_finished s' ∧ 6 + m = 16.
Proof.
  destruct (store_calls_return demo_calls empty_store 6 (clients_at first_part))
    as (m & s' & Hm & Hfin & Hn & _).
  - apply (run_clients_nsteps first_part). vm_compute. reflexivity.
  - exists m, s'. split; [exact Hm|]. split; [exact Hfin|exact Hn].
Defined.
End StoreDemo.
