(* ===== verification/LockManager.v ===== *)
(** * The lock manager

    [lib/include/transactions/LockManager.h] and
    [lib/src/transactions/LockManager.cpp]: a table of per-key exclusive
    locks, and for each transaction the set of keys to release at its end.

    The mutexes of the class make the code between a lock and an unlock one
    indivisible step; the file [TwoPL] interleaves those steps with the
    mutexes explicit.  Here each method is a function, and the only place
    where a method lets other threads run in the middle - [acquire], while it
    waits for the entry's mutex and each time it gives the mutex up - takes
    what they do to the table as an argument. *)
From S2P Require Import Prelude Operations.

Inductive AcquireResult := ACQUIRED | ABORTED.

#[export] Instance AcquireResult_eq_dec : EqDecision AcquireResult.
Proof. solve_decision. Defined.

(** The entry's mutex is not data; the map node is never erased, so a
    reference to an entry is its key. *)
Record LockEntry := { owner : option TransactionId }.

Record LockManager := {
  lock_table : gmap KeyType LockEntry;
  held_locks : gmap TransactionId (gset KeyType);
}.

Definition new_lock_manager : LockManager := {| lock_table := ∅; held_locks := ∅ |}.

(** ** Accesses the methods are made of *)
Definition owner_of (l : LockManager) (key : KeyType) : option TransactionId :=
  lock_table l !! key ≫= owner.

Definition held_by (l : LockManager) (tx_id : TransactionId) : gset KeyType :=
  set_at (held_locks l) tx_id.

Definition set_owner (key : KeyType) (o : option TransactionId) (l : LockManager) : LockManager :=
  {| lock_table := <[key := {| owner := o |}]> (lock_table l); held_locks := held_locks l |}.

Definition set_held (h : gmap TransactionId (gset KeyType)) (l : LockManager) : LockManager :=
  {| lock_table := lock_table l; held_locks := h |}.

(** [if (!lock_table.contains(key)) lock_table.try_emplace(key);] *)
Definition emplace_entry (key : KeyType) (l : LockManager) : LockManager :=
  match lock_table l !! key with
  | Some _ => l
  | None => set_owner key None l
  end.

(** [held_locks[tx_id].insert(key);] *)
Definition track_key (key : KeyType) (tx_id : TransactionId) (l : LockManager) : LockManager :=
  set_held (<[tx_id := {[key]} ∪ held_by l tx_id]> (held_locks l)) l.

(** The erasure at the end of [release]. *)
Definition untrack_key (key : KeyType) (tx_id : TransactionId) (l : LockManager) : LockManager :=
  match held_locks l !! tx_id with
  | Some keys =>
      if decide (keys ∖ {[key]} = ∅)
      then set_held (delete tx_id (held_locks l)) l
      else set_held (<[tx_id := keys ∖ {[key]}]> (held_locks l)) l
  | None => l
  end.

(** ** The methods *)
Definition MAX_SPINS : nat := 1000.
Definition MAX_YIELDS : nat := 500.
#[global] Arguments MAX_SPINS : simpl never.
#[global] Arguments MAX_YIELDS : simpl never.

(** One test of the first loop: free, already ours, or held by another. *)
Definition try_spin (key : KeyType) (tx_id : TransactionId) (l : LockManager)
    : option LockManager :=
  match owner_of l key with
  | None => Some (set_owner key (Some tx_id) l)
  | Some owner_id => if decide (owner_id = tx_id) then Some l else None
  end.

(** One test of the second loop, which does not look for [tx_id] itself. *)
Definition try_yield (key : KeyType) (tx_id : TransactionId) (l : LockManager)
    : option LockManager :=
  match owner_of l key with
  | None => Some (set_owner key (Some tx_id) l)
  | Some _ => None
  end.

(** The test that iteration [i] of [acquire_with_wait_die] performs, counting
    the iterations of both loops from 0; [None] past the end of the second. *)
Definition attempt (i : nat) : option (KeyType → TransactionId → LockManager → option LockManager) :=
  if decide (i < MAX_SPINS) then Some try_spin
  else if decide (i < MAX_SPINS + MAX_YIELDS) then Some try_yield
  else None.

(** A [for] loop over such tests.  [env i] is what other threads do while the
    entry's mutex is released after iteration [i]. *)
Fixpoint wait_loop (try : KeyType → TransactionId → LockManager → option LockManager)
    (n i : nat) (env : nat → LockManager → LockManager)
    (key : KeyType) (tx_id : TransactionId) (l : LockManager) : option LockManager * LockManager :=
  match n with
  | O => (None, l)
  | S n' =>
      match try key tx_id l with
      | Some l' => (Some l', l')
      | None => wait_loop try n' (S i) env key tx_id (env i l)
      end
  end.

Definition acquire_with_wait_die (env : nat → LockManager → LockManager)
    (key : KeyType) (tx_id : TransactionId) : M LockManager AcquireResult := λ l,
  match wait_loop try_spin MAX_SPINS 0 env key tx_id l with
  | (Some l1, _) => (Ok ACQUIRED, l1)
  | (None, l1) =>
      match wait_loop try_yield MAX_YIELDS MAX_SPINS env key tx_id l1 with
      | (Some l2, _) => (Ok ACQUIRED, l2)
      | (None, l2) => (Ok ABORTED, l2)
      end
  end.

(** What other threads do during one call of [acquire]: between the release
    of the table's mutex and the acquisition of the entry's, and in each of
    the waiting loops' windows. *)
Record Interference := {
  before_entry : LockManager → LockManager;
  in_window : nat → LockManager → LockManager;
}.

Definition no_interference : Interference :=
  {| before_entry := id; in_window := λ _, id |}.

Definition acquire (env : Interference) (key : KeyType) (tx_id : TransactionId)
    : M LockManager AcquireResult :=
  _ ← modify (emplace_entry key);
  _ ← modify (before_entry env);
  e ← gets (λ l, lock_table l !! key);
  _ ← lift_opt "out_of_range" e;
  _ ← modify (track_key key tx_id);
  acquire_with_wait_die (in_window env) key tx_id.

Definition release (key : KeyType) (tx_id : TransactionId) (l : LockManager) : LockManager :=
  match lock_table l !! key with
  | None => l
  | Some e =>
      if decide (owner e = Some tx_id)
      then untrack_key key tx_id (set_owner key None l)
      else l
  end.

Section release_all.
Context `{!Iteration KeyType}.

(** The keys moved out of [held_locks], and the table without them. *)
Definition take_held (tx_id : TransactionId) (l : LockManager) : gset KeyType * LockManager :=
  match held_locks l !! tx_id with
  | Some keys => (keys, set_held (delete tx_id (held_locks l)) l)
  | None => (∅, l)
  end.

Definition release_all (tx_id : TransactionId) (l : LockManager) : LockManager :=
  let '(keys, l1) := take_held tx_id l in
  foldl (λ l key, release key tx_id l) l1 (iter_order (HeldLocks tx_id) keys).
End release_all.

Definition holds_lock (key : KeyType) (tx_id : TransactionId) (l : LockManager) : bool :=
  match held_locks l !! tx_id with
  | None => false
  | Some keys => bool_decide (key ∈ keys)
  end.

(** ** Reading the table after an access *)
Lemma owner_of_set_owner key o l k :
  owner_of (set_owner key o l) k = if decide (key = k) then o else owner_of l k.
Proof. unfold owner_of, set_owner; simpl. rewrite lookup_insert. by case_decide. Qed.

Lemma owner_of_emplace key l k : owner_of (emplace_entry key l) k = owner_of l k.
Proof.
  unfold emplace_entry. case_match eqn:E; [done|]. rewrite owner_of_set_owner.
  case_decide as Hk; [subst|done]. unfold owner_of. by rewrite E.
Qed.

Lemma owner_of_untrack key t l k : owner_of (untrack_key key t l) k = owner_of l k.
Proof. unfold untrack_key. repeat case_match; done. Qed.

Lemma held_by_emplace key l t : held_by (emplace_entry key l) t = held_by l t.
Proof. unfold emplace_entry. by case_match. Qed.

Lemma held_by_track key t l t' :
  held_by (track_key key t l) t' =
    if decide (t = t') then {[key]} ∪ held_by l t else held_by l t'.
Proof. unfold held_by at 1, track_key; simpl. by rewrite set_at_insert. Qed.

Lemma held_by_untrack key t l t' :
  held_by (untrack_key key t l) t' =
    if decide (t = t') then held_by l t ∖ {[key]} else held_by l t'.
Proof.
  unfold untrack_key, held_by. case_match eqn:E; [case_decide|]; simpl.
  - rewrite set_at_delete. case_decide; [|done]. unfold set_at. by rewrite E.
  - rewrite set_at_insert. case_decide; [|done]. unfold set_at. by rewrite E.
  - case_decide; [subst|done]. unfold set_at. rewrite E. set_solver.
Qed.

Lemma owner_of_release key t l k :
  owner_of (release key t l) k =
    if decide (key = k ∧ owner_of l k = Some t) then None else owner_of l k.
Proof.
  unfold release. destruct (lock_table l !! key) as [e|] eqn:E.
  - destruct (decide (owner e = Some t)) as [Ho|Ho].
    + rewrite owner_of_untrack, owner_of_set_owner. destruct (decide (key = k)) as [->|].
      * rewrite decide_True; [done|]. unfold owner_of. by rewrite E.
      * rewrite decide_False by naive_solver. done.
    + rewrite decide_False; [done|]. intros [-> Hk]. unfold owner_of in Hk.
      rewrite E in Hk. done.
  - rewrite decide_False; [done|]. intros [-> Hk]. unfold owner_of in Hk. by rewrite E in Hk.
Qed.

Lemma held_by_release key t l t' :
  held_by (release key t l) t' =
    if decide (t = t' ∧ owner_of l key = Some t) then held_by l t ∖ {[key]} else held_by l t'.
Proof.
  unfold release, owner_of. destruct (lock_table l !! key) as [e|] eqn:E; simpl.
  - destruct (decide (owner e = Some t)) as [Ho|Ho].
    + rewrite held_by_untrack. by repeat case_decide; naive_solver.
    + by rewrite decide_False by naive_solver.
  - by rewrite decide_False by naive_solver.
Qed.

Lemma owner_of_take_held t l k : owner_of (take_held t l).2 k = owner_of l k.
Proof. unfold take_held. by case_match. Qed.

Lemma held_by_take_held t l t' :
  held_by (take_held t l).2 t' = if decide (t = t') then ∅ else held_by l t'.
Proof.
  unfold take_held. case_match eqn:E; simpl.
  - unfold held_by; simpl. apply set_at_delete.
  - case_decide; [subst|done]. unfold held_by, set_at. by rewrite E.
Qed.

Lemma take_held_keys t l : (take_held t l).1 = held_by l t.
Proof. unfold take_held, held_by, set_at. by case_match. Qed.

#[export] Hint Rewrite owner_of_set_owner owner_of_emplace owner_of_untrack held_by_emplace
  held_by_track held_by_untrack owner_of_release held_by_release owner_of_take_held
  held_by_take_held take_held_keys : tpr.

Lemma dom_emplace key l :
  key ∈ dom (lock_table (emplace_entry key l)) ∧
  dom (lock_table l) ⊆ dom (lock_table (emplace_entry key l)).
Proof.
  unfold emplace_entry. case_match eqn:E.
  - split; [by apply elem_of_dom|done].
  - simpl. rewrite dom_insert_L. set_solver.
Qed.

Lemma dom_set_owner key o l : dom (lock_table l) ⊆ dom (lock_table (set_owner key o l)).
Proof. simpl. rewrite dom_insert_L. set_solver. Qed.

Lemma dom_release key t l : dom (lock_table l) ⊆ dom (lock_table (release key t l)).
Proof.
  unfold release, untrack_key. repeat case_match; simpl; rewrite ?dom_insert_L; set_solver.
Qed.

(** ** Rely and guarantee

    [rely t] is what transaction [t] can count on while it is not running:
    nobody else gives it a lock or takes one from it, nobody edits its
    tracking set, and entries are never erased. *)
Record rely (t : TransactionId) (l l' : LockManager) : Prop := {
  rely_owner k : owner_of l k = Some t ↔ owner_of l' k = Some t;
  rely_held : held_by l' t = held_by l t;
  rely_dom : dom (lock_table l) ⊆ dom (lock_table l');
}.

#[export] Instance rely_preorder t : PreOrder (rely t).
Proof.
  split; [by split|]. intros l1 l2 l3 [Ho1 Hh1 Hd1] [Ho2 Hh2 Hd2]. split.
  - intros k. by rewrite Ho1, Ho2.
  - by rewrite Hh2, Hh1.
  - by etrans.
Qed.

(** The guarantee: every access a transaction makes is harmless to the others. *)
Section guarantee.
Context (t t' : TransactionId) (Hne : t ≠ t').

Lemma rely_set_owner key l :
  owner_of l key = None → rely t' l (set_owner key (Some t) l).
Proof.
  intros Hk. split; [|done|apply dom_set_owner].
  intros k. rewrite owner_of_set_owner. case_decide; naive_solver.
Qed.

Lemma rely_emplace key l : rely t' l (emplace_entry key l).
Proof.
  split; [|apply held_by_emplace|apply dom_emplace].
  intros k. by rewrite owner_of_emplace.
Qed.

Lemma rely_track key l : rely t' l (track_key key t l).
Proof. split; [done| |done]. rewrite held_by_track. by case_decide. Qed.

Lemma rely_release key l : rely t' l (release key t l).
Proof.
  split; [|rewrite held_by_release; case_decide; naive_solver|apply dom_release].
  intros k. rewrite owner_of_release. case_decide; naive_solver.
Qed.

Lemma rely_take_held l : rely t' l (take_held t l).2.
Proof.
  split.
  - intros k. by rewrite owner_of_take_held.
  - rewrite held_by_take_held. by case_decide.
  - unfold take_held. by case_match.
Qed.

Lemma rely_try_spin key l l1 : try_spin key t l = Some l1 → rely t' l l1.
Proof.
  unfold try_spin. destruct (owner_of l key) eqn:E; [by intros; cases|].
  intros [= <-]. by apply rely_set_owner.
Qed.

Lemma rely_try_yield key l l1 : try_yield key t l = Some l1 → rely t' l l1.
Proof.
  unfold try_yield. destruct (owner_of l key) eqn:E; [done|].
  intros [= <-]. by apply rely_set_owner.
Qed.
End guarantee.

(** Interference that keeps to [rely t] for transaction [t]. *)
Record respects (t : TransactionId) (env : Interference) : Prop := {
  respects_entry l : rely t l (before_entry env l);
  respects_window i l : rely t l (in_window env i l);
}.

Lemma respects_none t : respects t no_interference.
Proof. by split. Qed.

(** ** The waiting loops *)
Section wait_loops.
Context (key : KeyType) (t : TransactionId).

Lemma try_spin_Some l l1 : try_spin key t l = Some l1 →
  owner_of l1 key = Some t ∧ held_by l1 t = held_by l t ∧
  (∀ k, k ≠ key → owner_of l1 k = owner_of l k).
Proof.
  unfold try_spin. destruct (owner_of l key) eqn:E; [by intros; cases|].
  intros [= <-]. rewrite owner_of_set_owner, decide_True by done.
  split_and!; [done..|]. intros k Hk. rewrite owner_of_set_owner. by case_decide.
Qed.

Lemma try_spin_None l : try_spin key t l = None ↔ ∃ o, owner_of l key = Some o ∧ o ≠ t.
Proof. unfold try_spin. destruct (owner_of l key) eqn:E; cases; naive_solver. Qed.

Lemma try_yield_spin l : owner_of l key ≠ Some t → try_yield key t l = try_spin key t l.
Proof. unfold try_yield, try_spin. destruct (owner_of l key); cases; naive_solver. Qed.

(** The loop ends with the lock, or without it and with the ownership and
    tracking of [t] as at its start. *)
Lemma wait_loop_spec try n i env l :
  (∀ l l1, try key t l = Some l1 →
     owner_of l1 key = Some t ∧ held_by l1 t = held_by l t ∧
     (∀ k, k ≠ key → owner_of l1 k = owner_of l k)) →
  (∀ l, try key t l = None → owner_of l key ≠ Some t) →
  (∀ i l, rely t l (env i l)) →
  owner_of l key ≠ Some t ∨ 0 < n →
  let '(r, l') := wait_loop try n i env key t l in
  (r = Some l' ∨ r = None) ∧
  (is_Some r ↔ owner_of l' key = Some t) ∧
  held_by l' t = held_by l t ∧
  (∀ k, k ≠ key → owner_of l k = Some t ↔ owner_of l' k = Some t).
Proof.
  intros Hsome Hnone Henv. revert i l. induction n as [|n IH]; intros i l Hstart; simpl.
  - assert (¬ is_Some (@None LockManager)) by (by intros [? ?]).
    destruct Hstart; [|lia]. split_and!; naive_solver.
  - destruct (try key t l) as [l1|] eqn:E.
    + destruct (Hsome _ _ E) as (Ho & Hh & Hk). split_and!; [by left|done|done|].
      intros k Hne. by rewrite Hk.
    + specialize (IH (S i) (env i l)). destruct (Henv i l) as [Ho Hh _].
      destruct (wait_loop _ _ _ _ _ _ _) as [r l'].
      destruct IH as (? & ? & Hh' & Hk').
      { left. intros ?. by apply (Hnone _ E), Ho. }
      split_and!; [done..|by rewrite Hh'|]. intros k Hne. by rewrite Ho, Hk'.
Qed.

(** A preorder every test and every window keeps is kept by the loop. *)
Lemma wait_loop_rel (R : relation LockManager) `{!PreOrder R} try n i env l :
  (∀ l l1, try key t l = Some l1 → R l l1) →
  (∀ i l, R l (env i l)) →
  R l (wait_loop try n i env key t l).2.
Proof.
  intros Htry Henv. revert i l. induction n as [|n IH]; intros i l; simpl; [done|].
  destruct (try key t l) as [l1|] eqn:E; simpl; [by apply Htry|].
  etrans; [apply Henv|apply IH].
Qed.

(** Only the windows of the iterations the loop can make are used. *)
Lemma wait_loop_env_ext try n i env env' l :
  (∀ j l, i ≤ j < i + n → env j l = env' j l) →
  wait_loop try n i env key t l = wait_loop try n i env' key t l.
Proof.
  revert i l. induction n as [|n IH]; intros i l Heq; simpl; [done|].
  case_match; [done|]. rewrite Heq by lia. apply IH. intros. apply Heq. lia.
Qed.

Lemma wait_loop_fst try n i env l :
  match (wait_loop try n i env key t l).1 with
  | Some l1 => (wait_loop try n i env key t l).2 = l1
  | None => True
  end.
Proof.
  revert i l. induction n as [|n IH]; intros i l; simpl; [done|].
  destruct (try key t l); [done|apply IH].
Qed.

Lemma wait_loop_app try n m i env l :
  wait_loop try (n + m) i env key t l =
    match wait_loop try n i env key t l with
    | (Some l1, l1') => (Some l1, l1')
    | (None, l1) => wait_loop try m (i + n) env key t l1
    end.
Proof.
  revert i l. induction n as [|n IH]; intros i l; simpl; [by rewrite Nat.add_0_r|].
  case_match; [done|]. by rewrite IH, Nat.add_succ_comm.
Qed.

Lemma wait_die_rel (R : relation LockManager) `{!PreOrder R} env l :
  (∀ l l1, try_spin key t l = Some l1 → R l l1) →
  (∀ l l1, try_yield key t l = Some l1 → R l l1) →
  (∀ i l, R l (env i l)) →
  R l (acquire_with_wait_die env key t l).2.
Proof.
  intros Hspin Hyield Henv. unfold acquire_with_wait_die.
  generalize MAX_SPINS, MAX_YIELDS. intros n m.
  pose proof (wait_loop_rel R try_spin n 0 env l Hspin Henv) as H1.
  pose proof (wait_loop_fst try_spin n 0 env l) as F1.
  destruct (wait_loop try_spin _ _ _ _ _ _) as [[l1|] l1']; simpl in *; [by rewrite <- F1|].
  pose proof (wait_loop_rel R try_yield m n env l1' Hyield Henv) as H2.
  pose proof (wait_loop_fst try_yield m n env l1') as F2.
  destruct (wait_loop try_yield _ _ _ _ _ _) as [[l2|] l2']; simpl in *;
    [rewrite <- F2|]; by etrans.
Qed.

Lemma spin_loop_spec n i env l :
  (∀ i l, rely t l (env i l)) →
  owner_of l key ≠ Some t ∨ 0 < n →
  let '(r, l') := wait_loop try_spin n i env key t l in
  (r = Some l' ∨ r = None) ∧
  (is_Some r ↔ owner_of l' key = Some t) ∧
  held_by l' t = held_by l t ∧
  (∀ k, k ≠ key → owner_of l k = Some t ↔ owner_of l' k = Some t).
Proof.
  apply wait_loop_spec; [intros ??; apply try_spin_Some|].
  intros l0 E%try_spin_None. naive_solver.
Qed.

(** While nobody hands [t] the lock, the second loop's missing test for
    [tx_id] makes no difference. *)
Lemma wait_loop_yield_spin n i env l :
  (∀ i l, rely t l (env i l)) → owner_of l key ≠ Some t →
  wait_loop try_yield n i env key t l = wait_loop try_spin n i env key t l.
Proof.
  intros Henv. revert i l. induction n as [|n IH]; intros i l Hl; simpl; [done|].
  rewrite try_yield_spin by done. case_match; [done|].
  apply IH. intros E. by apply Hl, (rely_owner _ _ _ (Henv i l)).
Qed.

(** The two loops of [acquire_with_wait_die] are one loop of 1500 tests. *)
Lemma acquire_one_loop env l :
  (∀ i l, rely t l (env i l)) →
  acquire_with_wait_die env key t l =
    match wait_loop try_spin (MAX_SPINS + MAX_YIELDS) 0 env key t l with
    | (Some l1, _) => (Ok ACQUIRED, l1)
    | (None, l1) => (Ok ABORTED, l1)
    end.
Proof.
  intros Henv. unfold acquire_with_wait_die. rewrite wait_loop_app.
  pose proof (spin_loop_spec MAX_SPINS 0 env l Henv) as Hspec.
  destruct (wait_loop try_spin MAX_SPINS _ _ _ _ _) as [[l1|] l1'].
  - done.
  - destruct Hspec as (_ & Hs & _); [right; unfold MAX_SPINS; lia|].
    rewrite wait_loop_yield_spin; [done..|]. intros E%Hs. by destruct E.
Qed.
End wait_loops.

(** ** What the methods promise *)
Section acquire.
Context (env : Interference) (key : KeyType) (t : TransactionId).

(** Past the bookkeeping, [acquire] is [acquire_with_wait_die] on the table
    with the entry created and the key tracked. *)
Definition entered (l : LockManager) : LockManager :=
  track_key key t (before_entry env (emplace_entry key l)).

Lemma acquire_entered l :
  dom (lock_table (emplace_entry key l)) ⊆
    dom (lock_table (before_entry env (emplace_entry key l))) →
  acquire env key t l = acquire_with_wait_die (in_window env) key t (entered l).
Proof.
  intros Hdom. unfold acquire, mbind, M_bind, modify, gets, lift_opt, mret, M_ret; simpl.
  assert (Hk : key ∈ dom (lock_table (before_entry env (emplace_entry key l)))).
  { apply Hdom. exact (proj1 (dom_emplace key l)). }
  apply elem_of_dom in Hk as [e He]. by rewrite He.
Qed.

Lemma entered_rely_self l :
  respects t env →
  (∀ k, owner_of l k = Some t ↔ owner_of (entered l) k = Some t) ∧
  held_by (entered l) t = {[key]} ∪ held_by l t.
Proof.
  intros [He _]. specialize (He (emplace_entry key l)). destruct He as [Ho Hh _].
  unfold entered. split.
  - intros k. etrans; [|apply Ho]. by rewrite owner_of_emplace.
  - rewrite held_by_track, decide_True, Hh, held_by_emplace by done. done.
Qed.

(** The outcome of [acquire] for the caller ... *)
Lemma acquire_post l :
  respects t env →
  ∃ r l', acquire env key t l = (Ok r, l') ∧
    (r = ACQUIRED ↔ owner_of l' key = Some t) ∧
    held_by l' t = {[key]} ∪ held_by l t ∧
    (∀ k, k ≠ key → owner_of l k = Some t ↔ owner_of l' k = Some t).
Proof.
  intros Henv. destruct (entered_rely_self l Henv) as [Ho Hh].
  rewrite acquire_entered, acquire_one_loop by apply Henv.
  pose proof (spin_loop_spec key t (MAX_SPINS + MAX_YIELDS) 0 (in_window env) (entered l))
    as Hspec.
  destruct (wait_loop _ _ _ _ _ _ _) as [r l1].
  destruct Hspec as (Hr & Hs & Hh1 & Hk); [apply Henv|right; unfold MAX_SPINS; lia|].
  assert (Hpost : held_by l1 t = {[key]} ∪ held_by l t ∧
    (∀ k, k ≠ key → owner_of l k = Some t ↔ owner_of l1 k = Some t)).
  { split; [by rewrite Hh1|]. intros k Hne. by rewrite Ho, Hk. }
  destruct r as [l1'|].
  - destruct Hr as [[= ->]|]; [|done]. exists ACQUIRED, l1. naive_solver.
  - exists ABORTED, l1. split; [done|]. split; [|done]. split; [done|].
    intros [? [=]]%Hs.
Qed.

(** ... and for everybody else. *)
Lemma acquire_rely t' l :
  t ≠ t' → respects t' env → rely t' l (acquire env key t l).2.
Proof.
  intros Hne Henv. etrans; [apply (rely_emplace t' key)|].
  etrans; [apply Henv|]. rewrite acquire_entered by apply Henv.
  etrans; [by apply (rely_track t _ Hne key)|].
  apply (wait_die_rel key t (rely t')).
  - by apply rely_try_spin.
  - by apply rely_try_yield.
  - apply Henv.
Qed.

(** Bounded waiting: acquire gives the entry's mutex up at most 1500 times; what other
    threads would do in any later window cannot influence its result. *)
Theorem acquire_bounded_waiting env' l :
  (∀ l, before_entry env l = before_entry env' l) →
  (∀ i l, i < 1500 → in_window env i l = in_window env' i l) →
  acquire env key t l = acquire env' key t l.
Proof.
  intros He Hw. unfold acquire, mbind, M_bind, modify, gets; simpl. rewrite He.
  destruct (lift_opt _ _ _) as [[e|e] l1]; [|done]. unfold acquire_with_wait_die.
  rewrite (wait_loop_env_ext key t try_spin MAX_SPINS 0 _ (in_window env'))
    by (unfold MAX_SPINS; intros; apply Hw; lia).
  destruct (wait_loop try_spin _ _ _ _ _ _) as [[l2|] l2']; [done|].
  rewrite (wait_loop_env_ext key t try_yield MAX_YIELDS MAX_SPINS _ (in_window env'))
    by (unfold MAX_SPINS, MAX_YIELDS; intros; apply Hw; lia).
  done.
Qed.
End acquire.

(** ** The tracking invariant

    A transaction that owns a lock has it in its tracking set, so that
    [release_all] finds it.  The converse fails: a key is tracked before it is
    locked.  The invariant is one of a single transaction: another one in the
    middle of [release_all] has moved its set out and still owns locks. *)
Definition tracked (t : TransactionId) (l : LockManager) : Prop :=
  ∀ k, owner_of l k = Some t → k ∈ held_by l t.

Lemma tracked_new t : tracked t new_lock_manager.
Proof. intros k. unfold owner_of; simpl. by rewrite lookup_empty. Qed.

(** What others may do keeps it. *)
Lemma tracked_rely t l l' : rely t l l' → tracked t l → tracked t l'.
Proof. intros [Ho Hh _] Hl k Hk. rewrite Hh. by apply Hl, Ho. Qed.

(** [t] has no lock and no tracked key. *)
Definition idle (t : TransactionId) (l : LockManager) : Prop :=
  held_by l t = ∅ ∧ ∀ k, owner_of l k ≠ Some t.

Lemma idle_tracked t l : idle t l → tracked t l.
Proof. intros [_ Ho] k Hk. by apply Ho in Hk. Qed.

Section release_all_facts.
Context `{!Iteration KeyType} (t : TransactionId).

Lemma owner_of_foldl_release ks l k :
  owner_of (foldl (λ l key, release key t l) l ks) k =
    if decide (k ∈ ks ∧ owner_of l k = Some t) then None else owner_of l k.
Proof.
  revert l. induction ks as [|key ks IH]; intros l; cbn [foldl].
  - case_decide; [set_solver|done].
  - rewrite IH, owner_of_release. repeat case_decide; set_solver.
Qed.

Lemma held_by_foldl_release ks l t' :
  held_by l t = ∅ → held_by (foldl (λ l key, release key t l) l ks) t' = held_by l t'.
Proof.
  revert l. induction ks as [|key ks IH]; intros l Hl; simpl; [done|].
  assert (Hr : ∀ t', held_by (release key t l) t' = held_by l t').
  { intros t0. rewrite held_by_release. case_decide; set_solver. }
  rewrite IH; [apply Hr|by rewrite Hr].
Qed.

Lemma owner_of_release_all l k :
  owner_of (release_all t l) k =
    if decide (k ∈ held_by l t ∧ owner_of l k = Some t) then None else owner_of l k.
Proof.
  unfold release_all. rewrite (surjective_pairing (take_held t l)).
  rewrite owner_of_foldl_release, owner_of_take_held, take_held_keys.
  apply decide_ext. by rewrite elem_of_iter_order.
Qed.

Lemma held_by_release_all l t' :
  held_by (release_all t l) t' = if decide (t = t') then ∅ else held_by l t'.
Proof.
  unfold release_all. rewrite (surjective_pairing (take_held t l)).
  rewrite held_by_foldl_release; rewrite held_by_take_held; [done|by rewrite decide_True].
Qed.

Lemma rely_release_all t' l : t ≠ t' → rely t' l (release_all t l).
Proof.
  intros Hne. split.
  - intros k. rewrite owner_of_release_all. case_decide; naive_solver.
  - rewrite held_by_release_all. by case_decide.
  - unfold release_all. rewrite (surjective_pairing (take_held t l)).
    etrans; [apply (rely_dom _ _ _ (rely_take_held t t' Hne l))|].
    generalize (take_held t l).2. induction (iter_order _) as [|key ks IH]; [done|].
    intros l0. simpl. etrans; [apply (dom_release key t)|apply IH].
Qed.

Lemma release_all_post l :
  tracked t l →
  idle t (release_all t l) ∧
  (∀ k, owner_of (release_all t l) k =
          if decide (owner_of l k = Some t) then None else owner_of l k) ∧
  (∀ t', t' ≠ t → rely t' l (release_all t l)).
Proof.
  intros Hl.
  assert (Ho : ∀ k, owner_of (release_all t l) k =
          if decide (owner_of l k = Some t) then None else owner_of l k).
  { intros k. rewrite owner_of_release_all. apply decide_ext.
    split; [naive_solver|]. intros E. split; [by apply Hl|done]. }
  split_and!; [|done|intros t' Hne; by apply rely_release_all].
  split; [rewrite held_by_release_all; by rewrite decide_True|].
  intros k. rewrite Ho. by case_decide.
Qed.
End release_all_facts.

Lemma holds_lock_spec key t l : holds_lock key t l = bool_decide (key ∈ held_by l t).
Proof.
  unfold holds_lock, held_by, set_at. case_match; simpl; [done|].
  symmetry. apply bool_decide_eq_false. set_solver.
Qed.

Section acquire_outcomes.
Context (key : KeyType) (t : TransactionId).

Lemma wait_loop_alone n i l :
  0 < n →
  wait_loop try_spin n i (λ _, id) key t l =
    match try_spin key t l with Some l1 => (Some l1, l1) | None => (None, l) end.
Proof.
  destruct n as [|n]; [lia|]. intros _. simpl. destruct (try_spin key t l) eqn:E; [done|].
  generalize (S i). induction n as [|n IH]; intros j; simpl; [done|]. rewrite E. apply IH.
Qed.

Lemma acquire_alone l :
  acquire no_interference key t l =
    let l1 := track_key key t (emplace_entry key l) in
    match owner_of l key with
    | None => (Ok ACQUIRED, set_owner key (Some t) l1)
    | Some o => (Ok (if decide (o = t) then ACQUIRED else ABORTED), l1)
    end.
Proof.
  rewrite acquire_entered, acquire_one_loop by done.
  change (in_window no_interference) with (λ _ : nat, @id LockManager).
  rewrite wait_loop_alone by (unfold MAX_SPINS; lia).
  change (entered no_interference key t l) with (track_key key t (emplace_entry key l)).
  unfold try_spin. change (owner_of (track_key key t ?l0)) with (owner_of l0).
  rewrite owner_of_emplace. cbn zeta. destruct (owner_of l key); [by case_decide|done].
Qed.

(** Mutual exclusion: while a transaction owns a key's lock and other threads respect
    that, acquire by any other transaction - of a smaller or a larger id - ends in ABORTED
    and the owner keeps the lock; holds_lock nevertheless answers true for the transaction
    that was refused. *)
Theorem acquire_excluded env t' l :
  t ≠ t' → respects t env → respects t' env →
  owner_of l key = Some t →
  ∃ l', acquire env key t' l = (Ok ABORTED, l') ∧
        owner_of l' key = Some t ∧ holds_lock key t' l' = true.
Proof.
  intros Hne Ht Ht' Ho.
  pose proof (acquire_rely env key t' t l ltac:(done) Ht) as Hrely.
  destruct (acquire_post env key t' l Ht') as (r & l' & Hacq & Hr & Hh & _).
  rewrite Hacq in Hrely. apply (rely_owner _ _ _ Hrely) in Ho. simpl in Ho.
  exists l'. split_and!; [|done|].
  - rewrite Hacq. destruct r; [|done]. assert (owner_of l' key = Some t') by naive_solver.
    congruence.
  - rewrite holds_lock_spec. apply bool_decide_eq_true. set_solver.
Qed.

Lemma acquire_tracked env l :
  respects t env → tracked t l → tracked t (acquire env key t l).2.
Proof.
  intros Henv Hl. destruct (acquire_post env key t l Henv) as (r & l' & -> & _ & Hh & Hk).
  intros k. simpl. rewrite Hh. destruct (decide (k = key)) as [->|Hne]; [set_solver|].
  rewrite <- Hk by done. intros E%Hl. set_solver.
Qed.
End acquire_outcomes.

(** ** The contracts of the two methods a transaction uses *)

(** C21. The contract of LockManager::acquire under interference that keeps to the protocol:
    it returns ACQUIRED exactly when the caller owns the key's lock at the end; the caller's
    other locks are unchanged; the key is in its tracking set either way; if the caller's
    locks were all tracked they still are; and nothing that any other transaction relies on
    changes, its tracking included. *)
Theorem acquire_contract env key t l :
  respects t env → tracked t l →
  ∃ r l', acquire env key t l = (Ok r, l') ∧
    (r = ACQUIRED ↔ owner_of l' key = Some t) ∧
    (∀ k, k ≠ key → owner_of l k = Some t ↔ owner_of l' k = Some t) ∧
    holds_lock key t l' = true ∧ tracked t l' ∧
    (∀ t', t' ≠ t → respects t' env → rely t' l l' ∧ (tracked t' l → tracked t' l')).
Proof.
  intros Henv Hl.
  destruct (acquire_post env key t l Henv) as (r & l' & Hacq & Hr & Hh & Hk).
  pose proof (acquire_tracked key t env l Henv Hl) as Htr. rewrite Hacq in Htr.
  exists r, l'. split_and!; [done..| |done|].
  - rewrite holds_lock_spec. apply bool_decide_eq_true. set_solver.
  - intros t' Hne Henv'. pose proof (acquire_rely env key t t' l) as Hrely.
    rewrite Hacq in Hrely. split; [|apply tracked_rely]; by apply Hrely.
Qed.

(** C22. The contract of LockManager::release_all for a transaction whose locks are all
    tracked: every lock it owns is freed and its tracking set is gone, every other lock
    keeps its owner, and nothing that any other transaction relies on changes, its tracking
    included - for every iteration order of the key set. *)
Theorem release_all_contract `{!Iteration KeyType} t l :
  tracked t l →
  idle t (release_all t l) ∧
  (∀ k, owner_of (release_all t l) k =
          if decide (owner_of l k = Some t) then None else owner_of l k) ∧
  (∀ t', t' ≠ t → rely t' l (release_all t l) ∧
                  (tracked t' l → tracked t' (release_all t l))).
Proof.
  intros Hl. destruct (release_all_post t l Hl) as (Hidle & Ho & Hrely). split_and!; [done..|].
  intros t' Hne. split; [|apply tracked_rely]; by apply Hrely.
Qed.

(** *** The hypotheses hold *)

(** Transaction 1 has keys 4 and 5; another thread creates the
    entry of key 6 and tracks it for transaction 9. *)
Definition demo_locks : LockManager :=
  (acquire no_interference 5 1 (acquire no_interference 4 1 new_lock_manager).2).2.

Definition demo_interference : Interference :=
  {| before_entry := λ l, track_key 6 9 (emplace_entry 6 l); in_window := λ _, id |}.

Lemma demo_locks_tracked t : tracked t demo_locks.
Proof.
  destruct (decide (t = 1%Z)) as [->|Hne].
  - repeat (apply acquire_tracked; [apply respects_none|]). apply tracked_new.
  - unfold demo_locks. do 2 (eapply tracked_rely; [apply acquire_rely; [done|apply respects_none]|]).
    apply tracked_new.
Qed.

Lemma demo_respects t : t ≠ 9%Z → respects t demo_interference.
Proof.
  intros Hne. split; [|done]. intros l. simpl. etrans; [apply rely_emplace|].
  apply rely_track. naive_solver.
Qed.

Lemma acquire_contract_witness :
  ∃ r l', acquire demo_interference 4 2 demo_locks = (Ok r, l') ∧
    (r = ACQUIRED ↔ owner_of l' 4 = Some 2%Z) ∧ tracked 2 l'.
Proof.
  destruct (acquire_contract demo_interference 4 2 demo_locks)
    as (r & l' & Hacq & Hr & _ & _ & Htr & _).
  - by apply demo_respects.
  - apply demo_locks_tracked.
  - exists r, l'. repeat split; assumption || apply Hr.
Defined.

Lemma release_all_contract_witness :
  idle 1 (release_all 1 demo_locks) ∧ owner_of (release_all 1 demo_locks) 5 = None.
Proof.
  destruct (release_all_contract 1 demo_locks (demo_locks_tracked 1)) as (Hidle & Ho & _).
  split; [exact Hidle|]. rewrite Ho. by rewrite decide_True by by vm_compute.
Defined.

Lemma acquire_excluded_witness :
  ∃ l', acquire demo_interference 4 2 demo_locks = (Ok ABORTED, l') ∧
        owner_of l' 4 = Some 1%Z ∧ holds_lock 4 2 l' = true.
Proof.
  apply (acquire_excluded 4 1 demo_interference 2 demo_locks);
    [done|by apply demo_respects..|by vm_compute].
Defined.

(** Past the last window the interference is not consulted. *)
Lemma acquire_bounded_waiting_witness :
  acquire {| before_entry := id; in_window := λ i, if decide (i < 1500) then id else set_owner 4 None |}
    4 2 demo_locks = acquire no_interference 4 2 demo_locks.
Proof.
  apply (acquire_bounded_waiting _ 4 2 no_interference demo_locks); [done|].
  intros i l Hi. simpl. by rewrite decide_True.
Defined.
