(* ===== verification/TwoPL.v ===== *)
(** * Concurrent execution of transactions on one node

    [maelstrom::Node] posts every transaction to a thread pool, and each pool
    thread runs [TwoPLScheduler::execute_transaction], that is
    [execute_with_distributed_support] with every key local.  This file is the
    interleaving semantics of those threads over the shared lock manager,
    store and transaction counter.

    A step is one access to shared data, one mutex operation, or one visit of
    an operation; the mutexes [table_mutex], [held_locks_mutex] and the
    entries' [mtx] are explicit, a mutex being held by the thread whose
    program counter is inside the guard's scope.  The calls on the store are
    linearizable ([StoreConcurrency]) and request no other mutex, so a visit
    is one step. *)
From S2P Require Import Prelude Operations LockManager.

(** ** Program counters *)

(** Inside [LockManager::acquire] (line numbers of LockManager.cpp). *)
Inductive acq_pc :=
  | AQ_table_lock            (* 10: locking table_mutex *)
  | AQ_emplace               (* 13-16, table_mutex held *)
  | AQ_table_unlock          (* 17 *)
  | AQ_at                    (* 19: lock_table.at(key), no mutex held *)
  | AQ_entry_lock            (* 22 *)
  | AQ_held_lock             (* 26 *)
  | AQ_track                 (* 27, held_locks_mutex held *)
  | AQ_held_unlock           (* 28 *)
  | AQ_try (i : nat)         (* 43-56, 64-68: test of iteration i *)
  | AQ_unlock (i : nat)      (* 58, 70 *)
  | AQ_relock (i : nat)      (* 60, 72 *)
  | AQ_return (r : AcquireResult).

(** Inside [LockManager::release]. *)
Inductive rel_pc :=
  | RL_table_lock            (* 81 *)
  | RL_contains              (* 83-87 *)
  | RL_entry_lock            (* 88 *)
  | RL_check                 (* 91-96 *)
  | RL_held_lock             (* 100 *)
  | RL_untrack               (* 101-107 *)
  | RL_held_unlock           (* 108 *)
  | RL_entry_unlock          (* 109 *)
  | RL_table_unlock.

Inductive outcome :=
  | Committed (reads : Reads)
  | Aborted                  (* a lock was refused: the call returns {} *)
  | Failed (e : exn).        (* an exception left execute_transaction *)

Inductive pc :=
  | P_start                                                   (* next_tx_id.fetch_add *)
  | P_acquire (k : KeyType) (ks : list KeyType) (a : acq_pc)  (* ks: keys still to lock *)
  | P_exec (ran todo : Transaction) (reads : Reads)
  | P_take_lock (o : outcome)                                 (* release_all, line 117 *)
  | P_take (o : outcome)                                      (* 118-122 *)
  | P_take_unlock (o : outcome) (ks : list KeyType)           (* 123 *)
  | P_release (k : KeyType) (ks : list KeyType) (o : outcome) (r : rel_pc)
  | P_done (o : outcome).

Record thread := mkThread {
  th_tx : Transaction;
  (** the iteration orders this thread's unordered sets happen to have *)
  th_order : Container → gset KeyType → list KeyType;
  th_id : TransactionId;
  th_pc : pc;
}.

Inductive mutex := TableMutex | EntryMutex (k : KeyType) | HeldMutex.

#[export] Instance mutex_eq_dec : EqDecision mutex.
Proof. solve_decision. Defined.

(** The mutexes in whose scope a program counter is. *)
Definition acq_holds (k : KeyType) (a : acq_pc) : list mutex :=
  match a with
  | AQ_table_lock | AQ_at | AQ_entry_lock | AQ_relock _ => []
  | AQ_emplace | AQ_table_unlock => [TableMutex]
  | AQ_held_lock | AQ_try _ | AQ_unlock _ | AQ_return _ => [EntryMutex k]
  | AQ_track | AQ_held_unlock => [EntryMutex k; HeldMutex]
  end.

Definition rel_holds (k : KeyType) (r : rel_pc) : list mutex :=
  match r with
  | RL_table_lock => []
  | RL_contains | RL_entry_lock | RL_table_unlock => [TableMutex]
  | RL_check | RL_held_lock | RL_entry_unlock => [TableMutex; EntryMutex k]
  | RL_untrack | RL_held_unlock => [TableMutex; EntryMutex k; HeldMutex]
  end.

Definition pc_holds (p : pc) : list mutex :=
  match p with
  | P_acquire k _ a => acq_holds k a
  | P_release k _ _ r => rel_holds k r
  | P_take _ | P_take_unlock _ _ => [HeldMutex]
  | _ => []
  end.

(** The mutex the next step of a program counter locks. *)
Definition pc_wants (p : pc) : option mutex :=
  match p with
  | P_acquire k _ AQ_table_lock => Some TableMutex
  | P_acquire k _ AQ_entry_lock | P_acquire k _ (AQ_relock _) => Some (EntryMutex k)
  | P_acquire k _ AQ_held_lock => Some HeldMutex
  | P_release k _ _ RL_table_lock => Some TableMutex
  | P_release k _ _ RL_entry_lock => Some (EntryMutex k)
  | P_release k _ _ RL_held_lock => Some HeldMutex
  | P_take_lock _ => Some HeldMutex
  | _ => None
  end.

(** ** Steps *)
Section machine.
Context {S : Type} `{OpExecutor S}.

Record shared := mkShared {
  sh_lm : LockManager;
  sh_store : S;
  sh_next : TransactionId;    (* next_tx_id *)
}.

Definition with_lm (f : LockManager → LockManager) (sh : shared) : shared :=
  mkShared (f (sh_lm sh)) (sh_store sh) (sh_next sh).

Definition goto (th : thread) (p : pc) : thread :=
  mkThread (th_tx th) (th_order th) (th_id th) p.

(** The loop of [acquire_all_locks] over the keys not yet locked. *)
Definition next_acquire (tx : Transaction) (ks : list KeyType) : pc :=
  match ks with
  | [] => P_exec [] tx []
  | k :: ks' => P_acquire k ks' AQ_table_lock
  end.

(** The loop of [release_all] over the keys not yet released. *)
Definition next_release (o : outcome) (ks : list KeyType) : pc :=
  match ks with
  | [] => P_done o
  | k :: ks' => P_release k ks' o RL_table_lock
  end.

Definition acquire_step (th : thread) (k : KeyType) (ks : list KeyType) (a : acq_pc)
    (sh : shared) : thread * shared :=
  let at_pc a' := goto th (P_acquire k ks a') in
  match a with
  | AQ_table_lock => (at_pc AQ_emplace, sh)
  | AQ_emplace => (at_pc AQ_table_unlock, with_lm (emplace_entry k) sh)
  | AQ_table_unlock => (at_pc AQ_at, sh)
  | AQ_at =>
      match lock_table (sh_lm sh) !! k with
      | Some _ => (at_pc AQ_entry_lock, sh)
      | None => (goto th (P_done (Failed (StdException "out_of_range"))), sh)
      end
  | AQ_entry_lock => (at_pc AQ_held_lock, sh)
  | AQ_held_lock => (at_pc AQ_track, sh)
  | AQ_track => (at_pc AQ_held_unlock, with_lm (track_key k (th_id th)) sh)
  | AQ_held_unlock => (at_pc (AQ_try 0), sh)
  | AQ_try i =>
      match attempt i with
      | None => (at_pc (AQ_return ABORTED), sh)
      | Some try =>
          match try k (th_id th) (sh_lm sh) with
          | Some l' => (at_pc (AQ_return ACQUIRED), with_lm (λ _, l') sh)
          | None => (at_pc (AQ_unlock i), sh)
          end
      end
  | AQ_unlock i => (at_pc (AQ_relock (Datatypes.S i)), sh)
  | AQ_relock i => (at_pc (AQ_try i), sh)
  | AQ_return ACQUIRED => (goto th (next_acquire (th_tx th) ks), sh)
  | AQ_return ABORTED => (goto th (P_take_lock Aborted), sh)
  end.

Definition exec_step (th : thread) (ran todo : Transaction) (reads : Reads)
    (sh : shared) : thread * shared :=
  match todo with
  | [] => (goto th (P_take_lock (Committed reads)), sh)
  | op :: todo' =>
      let '(r, store') := visit op new_executor (sh_store sh) in
      let sh' := mkShared (sh_lm sh) store' (sh_next sh) in
      match r with
      | Ok v =>
          let reads' := match op_type op with
                        | READ => reads ++ [(op_key op, (exec_result v).1)]
                        | APPEND => reads
                        end in
          (goto th (P_exec (ran ++ [op]) todo' reads'), sh')
      | Throw e => (goto th (P_take_lock (Failed e)), sh')
      end
  end.

Definition release_step (th : thread) (k : KeyType) (ks : list KeyType) (o : outcome)
    (r : rel_pc) (sh : shared) : thread * shared :=
  let at_pc r' := goto th (P_release k ks o r') in
  match r with
  | RL_table_lock => (at_pc RL_contains, sh)
  | RL_contains =>
      match lock_table (sh_lm sh) !! k with
      | None => (at_pc RL_table_unlock, sh)
      | Some _ => (at_pc RL_entry_lock, sh)
      end
  | RL_entry_lock => (at_pc RL_check, sh)
  | RL_check =>
      if decide (owner_of (sh_lm sh) k = Some (th_id th))
      then (at_pc RL_held_lock, with_lm (set_owner k None) sh)
      else (at_pc RL_entry_unlock, sh)
  | RL_held_lock => (at_pc RL_untrack, sh)
  | RL_untrack => (at_pc RL_held_unlock, with_lm (untrack_key k (th_id th)) sh)
  | RL_held_unlock => (at_pc RL_entry_unlock, sh)
  | RL_entry_unlock => (at_pc RL_table_unlock, sh)
  | RL_table_unlock => (goto th (next_release o ks), sh)
  end.

(** One step of one thread, its mutex being available. *)
Definition thread_step (th : thread) (sh : shared) : thread * shared :=
  match th_pc th with
  | P_start =>
      (mkThread (th_tx th) (th_order th) (sh_next sh)
         (next_acquire (th_tx th) (th_order th (LocalKeys (sh_next sh)) (tx_keys (th_tx th)))),
       mkShared (sh_lm sh) (sh_store sh) (u64 (sh_next sh + 1)))
  | P_acquire k ks a => acquire_step th k ks a sh
  | P_exec ran todo reads => exec_step th ran todo reads sh
  | P_take_lock o => (goto th (P_take o), sh)
  | P_take o =>
      let '(keys, l') := take_held (th_id th) (sh_lm sh) in
      (goto th (P_take_unlock o (th_order th (HeldLocks (th_id th)) keys)), with_lm (λ _, l') sh)
  | P_take_unlock o ks => (goto th (next_release o ks), sh)
  | P_release k ks o r => release_step th k ks o r sh
  | P_done _ => (th, sh)
  end.

Record sys := mkSys { sy_threads : gmap nat thread; sy_shared : shared }.

Definition is_done (p : pc) : bool := match p with P_done _ => true | _ => false end.

(** No thread is in the scope of a guard of [m]. *)
Definition mutex_free (ths : gmap nat thread) (m : mutex) : Prop :=
  map_Forall (λ _ th, m ∉ pc_holds (th_pc th)) ths.

#[export] Instance mutex_free_dec ths m : Decision (mutex_free ths m).
Proof. apply map_Forall_dec. intros. apply _. Defined.

Definition enabled (ths : gmap nat thread) (p : pc) : Prop :=
  is_done p = false ∧ match pc_wants p with Some m => mutex_free ths m | None => True end.

#[export] Instance enabled_dec ths p : Decision (enabled ths p).
Proof. unfold enabled. destruct (pc_wants p); apply _. Defined.

(** The scheduler lets thread [tid] make its next step. *)
Definition step_thread (tid : nat) (s : sys) : option sys :=
  match sy_threads s !! tid with
  | Some th =>
      if decide (enabled (sy_threads s) (th_pc th))
      then let '(th', sh') := thread_step th (sy_shared s) in
           Some (mkSys (<[tid := th']> (sy_threads s)) sh')
      else None
  | None => None
  end.

Inductive step (s s' : sys) : Prop :=
  | step_by tid : step_thread tid s = Some s' → step s s'.

(** A whole schedule. *)
Fixpoint run_schedule (sched : list nat) (s : sys) : option sys :=
  match sched with
  | [] => Some s
  | tid :: sched' => step_thread tid s ≫= run_schedule sched'
  end.

Lemma run_schedule_rtc sched s s' : run_schedule sched s = Some s' → rtc step s s'.
Proof.
  revert s. induction sched as [|tid sched IH]; intros s Hrun; simplify_eq/=; [done|].
  apply bind_Some in Hrun as (s1 & Hs1 & Hrun).
  eapply rtc_l; [by econstructor|by apply IH].
Qed.

Lemma run_schedule_nsteps sched s s' :
  run_schedule sched s = Some s' → nsteps step (length sched) s s'.
Proof.
  revert s. induction sched as [|tid sched IH]; intros s Hrun; simplify_eq/=; [constructor|].
  apply bind_Some in Hrun as (s1 & Hs1 & Hrun).
  eapply nsteps_l; [by econstructor|by apply IH].
Qed.

Lemma step_inv s s' :
  step s s' → ∃ tid th th' sh',
    sy_threads s !! tid = Some th ∧ enabled (sy_threads s) (th_pc th) ∧
    thread_step th (sy_shared s) = (th', sh') ∧
    s' = mkSys (<[tid := th']> (sy_threads s)) sh'.
Proof.
  intros [tid Hs]. unfold step_thread in Hs.
  destruct (sy_threads s !! tid) as [th|] eqn:Hth; [|done].
  case_decide; [|done]. destruct (thread_step th (sy_shared s)) as [th' sh'] eqn:E.
  simplify_eq. eauto 10.
Qed.

(** A thread waiting to be picked up by the pool. *)
Definition fresh_thread (tx : Transaction) (order : Container → gset KeyType → list KeyType) : thread :=
  mkThread tx order 0 P_start.

(** The node at start-up: every transaction it will ever receive is waiting,
    the lock manager is empty, [next_tx_id] is 1. *)
Record initial (store : S) (s : sys) : Prop := {
  init_threads tid th : sy_threads s !! tid = Some th →
    ∃ tx order, th = fresh_thread tx order ∧ ∀ c X, order c X ≡ₚ elements X;
  init_shared : sy_shared s = mkShared new_lock_manager store 1;
  init_size : (Z.of_nat (size (sy_threads s)) < 2 ^ 64 - 1)%Z;
}.
End machine.
Arguments shared : clear implicits.
Arguments sys : clear implicits.
