(* ===== verification/TwoPLInvariant.v ===== *)
(** * The invariant of the concurrent executions

    For every thread: which locks it owns and which keys it has tracked at
    its program counter; globally: transaction ids are distinct and an id not
    in use owns nothing. *)
From S2P Require Import Prelude Operations LockManager TwoPL.

Definition started (th : thread) : bool :=
  match th_pc th with P_start => false | _ => true end.

(** *** Facts about one thread *)

(** Every lock of the thread is among its tracked keys, all of them keys of
    its transaction: the state in which [release_all] finds everything. *)
Definition all_tracked (l : LockManager) (th : thread) : Prop :=
  (∀ x, owner_of l x = Some (th_id th) → x ∈ held_by l (th_id th)) ∧
  held_by l (th_id th) ⊆ tx_keys (th_tx th).

(** What is known of key [k] at each point of [acquire]. *)
Definition acq_ok (l : LockManager) (t : TransactionId) (k : KeyType) (a : acq_pc) : Prop :=
  match a with
  | AQ_table_lock | AQ_emplace => True
  | AQ_table_unlock | AQ_at | AQ_entry_lock | AQ_held_lock | AQ_track =>
      k ∈ dom (lock_table l)
  | AQ_return ACQUIRED => k ∈ held_by l t ∧ owner_of l k = Some t
  | AQ_unlock i => k ∈ held_by l t ∧ i < MAX_SPINS + MAX_YIELDS
  | _ => k ∈ held_by l t
  end.

(** The keys that may still be locked while [release_all] runs. *)
Definition rel_left (k : KeyType) (ks : list KeyType) (r : rel_pc) : list KeyType :=
  match r with
  | RL_table_lock | RL_contains | RL_entry_lock | RL_check => k :: ks
  | _ => ks
  end.

Definition thread_ok (l : LockManager) (th : thread) : Prop :=
  let t := th_id th in
  let keys := tx_keys (th_tx th) in
  match th_pc th with
  | P_start => True
  | P_acquire k ks a =>
      all_tracked l th ∧ acq_ok l t k a ∧
      ∃ locked, th_order th (LocalKeys t) keys = locked ++ k :: ks ∧
                (∀ x, x ∈ locked → owner_of l x = Some t)
  | P_exec ran todo _ =>
      all_tracked l th ∧ th_tx th = ran ++ todo ∧
      (∀ x, x ∈ keys → owner_of l x = Some t)
  | P_take_lock _ | P_take _ => all_tracked l th
  | P_take_unlock _ ks =>
      held_by l t = ∅ ∧ (∀ x, owner_of l x = Some t → x ∈ ks) ∧ length ks ≤ size keys
  | P_release k ks _ r =>
      held_by l t = ∅ ∧ (∀ x, owner_of l x = Some t → x ∈ rel_left k ks r) ∧
      length ks < size keys
  | P_done _ => idle t l
  end.

Lemma all_tracked_rely l l' th :
  rely (th_id th) l l' → all_tracked l th → all_tracked l' th.
Proof.
  intros [Ho Hh _] [H1 H2]. split; [|by rewrite Hh].
  intros x Hx. rewrite Hh. by apply H1, Ho.
Qed.

(** What other threads do keeps a thread's facts. *)
Lemma thread_ok_rely l l' th :
  rely (th_id th) l l' → thread_ok l th → thread_ok l' th.
Proof.
  intros Hrely. pose proof (all_tracked_rely _ _ _ Hrely) as Htr.
  destruct Hrely as [Ho Hh Hd].
  unfold thread_ok. destruct (th_pc th) as [|k ks a|ran todo rs|o|o|o ks|k ks o r|o]; try done.
  - intros (H1 & H2 & locked & H3 & H4). split_and!; [auto| |].
    + destruct a as [| | | | | | | | | | |[]]; simpl in *; rewrite ?Hh; set_solver.
    + exists locked. naive_solver.
  - intros (H1 & H2 & H3). split_and!; naive_solver.
  - rewrite Hh. naive_solver.
  - rewrite Hh. naive_solver.
  - intros [H1 H2]. split; [by rewrite Hh|]. intros k E. by apply (H2 k), Ho.
Qed.

Lemma attempt_bound i try : attempt i = Some try → i < MAX_SPINS + MAX_YIELDS.
Proof. unfold attempt. repeat case_decide; intros; simplify_eq; lia. Qed.

(** A successful test, whichever loop makes it. *)
Lemma attempt_Some i try k t l l1 :
  attempt i = Some try → try k t l = Some l1 →
  owner_of l1 k = Some t ∧ held_by l1 t = held_by l t ∧
  (∀ x, x ≠ k → owner_of l1 x = owner_of l x).
Proof.
  intros Hatt Htry. apply try_spin_Some. unfold attempt in Hatt.
  repeat case_decide; simplify_eq; [done|].
  unfold try_yield, try_spin in *. by destruct (owner_of l k).
Qed.

Section invariant.
Context {S : Type} `{OpExecutor S}.
Implicit Types (s : sys S) (sh : shared S).

(** One step of a thread with id [t] is harmless to every other id. *)
Lemma thread_step_rely th sh t' :
  (started th = true → th_id th ≠ t') →
  rely t' (sh_lm sh) (sh_lm (thread_step th sh).2).
Proof.
  intros Hne. unfold started, thread_step in *.
  destruct (th_pc th) as [|k ks a|ran todo rs|o|o|o ks|k ks o r|o]; try done;
    specialize (Hne eq_refl).
  - destruct a as [| | | | | | | |i| | |[]]; simpl; try done.
    + apply rely_emplace.
    + by case_match.
    + by apply rely_track.
    + unfold attempt. repeat case_decide; simpl; try done.
      * destruct (try_spin _ _ _) eqn:E; [|done]. simpl. by eapply rely_try_spin.
      * destruct (try_yield _ _ _) eqn:E; [|done]. simpl. by eapply rely_try_yield.
  - unfold exec_step. destruct todo as [|op todo]; [done|].
    destruct (visit op new_executor (sh_store sh)) as [[]?]; done.
  - rewrite (surjective_pairing (take_held _ _)). simpl. by apply rely_take_held.
  - destruct r; simpl; try done.
    + by case_match.
    + case_decide as E; [|done]. simpl. split.
      * intros x. rewrite owner_of_set_owner. case_decide; naive_solver.
      * done.
      * apply dom_set_owner.
    + simpl. split.
      * intros x. by rewrite owner_of_untrack.
      * rewrite held_by_untrack. by case_decide.
      * unfold untrack_key. repeat case_match; done.
Qed.

Definition ids_below (n : TransactionId) (th : thread) : Prop :=
  started th = true → (1 ≤ th_id th < n)%Z.

Record sys_inv s : Prop := {
  inv_order tid th : sy_threads s !! tid = Some th → ∀ c X, th_order th c X ≡ₚ elements X;
  inv_thread tid th : sy_threads s !! tid = Some th → thread_ok (sh_lm (sy_shared s)) th;
  inv_ids tid th : sy_threads s !! tid = Some th → ids_below (sh_next (sy_shared s)) th;
  inv_unique tid1 tid2 th1 th2 :
    sy_threads s !! tid1 = Some th1 → sy_threads s !! tid2 = Some th2 →
    started th1 = true → started th2 = true → th_id th1 = th_id th2 → tid1 = tid2;
  inv_idle t :
    (∀ tid th, sy_threads s !! tid = Some th → started th = true → th_id th ≠ t) →
    idle t (sh_lm (sy_shared s));
  inv_next :
    sh_next (sy_shared s) =
      (1 + Z.of_nat (size (filter (λ p, started p.2 = true) (sy_threads s))))%Z;
  inv_size : (Z.of_nat (size (sy_threads s)) < 2 ^ 64 - 1)%Z;
}.

(** *** A thread's own steps keep its facts *)
Lemma elem_of_order th c X x :
  (∀ c X, th_order th c X ≡ₚ elements X) → x ∈ th_order th c X ↔ x ∈ X.
Proof. intros ->. apply elem_of_elements. Qed.

Lemma next_acquire_ok th l locked ks :
  (∀ c X, th_order th c X ≡ₚ elements X) →
  all_tracked l th → th_order th (LocalKeys (th_id th)) (tx_keys (th_tx th)) = locked ++ ks →
  (∀ x, x ∈ locked → owner_of l x = Some (th_id th)) →
  thread_ok l (goto th (next_acquire (th_tx th) ks)).
Proof.
  intros Horder Htr Hks Hlocked. destruct ks as [|k ks]; unfold thread_ok; simpl.
  - split_and!; [done..|]. intros x Hx. apply Hlocked.
    rewrite <- (app_nil_r locked), <- Hks. by apply elem_of_order.
  - split_and!; [done..|]. by exists locked.
Qed.

Section own_step.
Context (th : thread) (Horder : ∀ c X, th_order th c X ≡ₚ elements X).

Lemma next_release_ok l o ks :
  held_by l (th_id th) = ∅ → (∀ x, owner_of l x = Some (th_id th) → x ∈ ks) →
  length ks ≤ size (tx_keys (th_tx th)) →
  thread_ok l (goto th (next_release o ks)).
Proof.
  intros Hh Ho Hlen. destruct ks as [|k ks]; unfold thread_ok; simpl.
  - split; [done|]. intros k E. by apply Ho, not_elem_of_nil in E.
  - split_and!; [done..|]. simpl in Hlen. lia.
Qed.

Lemma acquire_step_ok k ks a sh :
  th_pc th = P_acquire k ks a → thread_ok (sh_lm sh) th →
  thread_ok (sh_lm (acquire_step th k ks a sh).2) (acquire_step th k ks a sh).1.
Proof.
  intros Hpc Hok. unfold thread_ok in Hok. rewrite Hpc in Hok.
  destruct Hok as (Htr & Ha & locked & Hks & Hlocked).
  assert (Hk : k ∈ tx_keys (th_tx th)) by (apply (elem_of_order th (LocalKeys (th_id th))); [done|rewrite Hks; set_solver]).
  assert (Hgo : ∀ l a', all_tracked l th → acq_ok l (th_id th) k a' →
    (∀ x, x ∈ locked → owner_of l x = Some (th_id th)) →
    thread_ok l (goto th (P_acquire k ks a'))).
  { intros l a' ? ? ?. unfold thread_ok; simpl. split_and!; eauto. }
  destruct a as [| | | | | | | |i|i|i|[]]; simpl; try by apply Hgo.
  - pose proof (rely_emplace (th_id th) k (sh_lm sh)) as Hrely.
    apply Hgo; [by eapply all_tracked_rely|exact (proj1 (dom_emplace _ _))|].
    intros x Hx. by apply (rely_owner _ _ _ Hrely), Hlocked.
  - simpl in Ha. apply elem_of_dom in Ha as [e He]. rewrite He. simpl.
    apply Hgo; [done| |done]. by apply elem_of_dom.
  - destruct Htr as [Ht1 Ht2]. apply Hgo; [split| |done].
    + intros x Hx%Ht1. rewrite held_by_track, decide_True by done. set_solver.
    + rewrite held_by_track, decide_True by done. set_solver.
    + simpl. rewrite held_by_track, decide_True by done. set_solver.
  - destruct (attempt i) as [try|] eqn:Hatt; simpl; [|by apply Hgo].
    destruct (try k (th_id th) (sh_lm sh)) as [l'|] eqn:Htry; simpl.
    2:{ apply Hgo; [done| |done]. split; [done|by eapply attempt_bound]. }
    assert (Hpost : owner_of l' k = Some (th_id th) ∧
      held_by l' (th_id th) = held_by (sh_lm sh) (th_id th) ∧
      ∀ x, x ≠ k → owner_of l' x = owner_of (sh_lm sh) x) by by eapply attempt_Some.
    destruct Hpost as (Ho & Hh & Hx). simpl in Ha.
    apply Hgo; [split; rewrite Hh; [|apply Htr]|simpl; by rewrite Hh|].
    + intros x E. destruct (decide (x = k)) as [->|]; [done|].
      apply Htr. by rewrite <- Hx.
    + intros x Hl. destruct (decide (x = k)) as [->|]; [done|].
      rewrite Hx by done. by apply Hlocked.
  - apply Hgo; [done|exact (proj1 Ha)|done].
  - apply (next_acquire_ok _ _ (locked ++ [k])); [done..| |].
    + by rewrite Hks, <- (assoc_L (++)).
    + simpl in Ha. intros x [Hx| ->%list_elem_of_singleton]%elem_of_app; naive_solver.
  - done.
Qed.

Lemma release_step_ok k ks o r sh :
  th_pc th = P_release k ks o r → thread_ok (sh_lm sh) th →
  thread_ok (sh_lm (release_step th k ks o r sh).2) (release_step th k ks o r sh).1.
Proof.
  intros Hpc Hok. unfold thread_ok in Hok. rewrite Hpc in Hok.
  destruct Hok as (Hh & Ho & Hlen).
  assert (Hgo : ∀ l r', held_by l (th_id th) = ∅ →
    (∀ x, owner_of l x = Some (th_id th) → x ∈ rel_left k ks r') →
    thread_ok l (goto th (P_release k ks o r'))).
  { intros l r' ? ?. unfold thread_ok; simpl. auto. }
  destruct r; simpl; try by apply Hgo.
  - destruct (lock_table (sh_lm sh) !! k) eqn:E; simpl; [by apply Hgo|].
    apply Hgo; [done|]. intros x Hx. simpl in *. pose proof (Ho _ Hx).
    assert (x ≠ k); [|set_solver]. intros ->. unfold owner_of in Hx. by rewrite E in Hx.
  - case_decide as E; simpl; (apply Hgo; [done|]); intros x; simpl in *.
    + rewrite owner_of_set_owner. case_decide; [done|]. intros Hx%Ho. set_solver.
    + intros Hx. pose proof (Ho _ Hx). assert (x ≠ k) by congruence. set_solver.
  - apply Hgo.
    + rewrite held_by_untrack, decide_True by done. set_solver.
    + intros x. rewrite owner_of_untrack. apply Ho.
  - apply next_release_ok; [done..|lia].
Qed.

Lemma thread_step_ok sh :
  (started th = false → idle (sh_next sh) (sh_lm sh)) →
  thread_ok (sh_lm sh) th →
  thread_ok (sh_lm (thread_step th sh).2) (thread_step th sh).1.
Proof.
  intros Hidle Hok. unfold thread_step.
  destruct (th_pc th) as [|k ks a|ran todo rs|o|o|o ks|k ks o r|o] eqn:Hpc.
  - destruct Hidle as [Hh Ho]; [by unfold started; rewrite Hpc|].
    pose (th1 := mkThread (th_tx th) (th_order th) (sh_next sh) (th_pc th)).
    apply (next_acquire_ok th1 _ []); [done| |done|set_solver].
    split; simpl; [intros x Hx; by apply Ho in Hx|rewrite Hh; set_solver].
  - by apply acquire_step_ok.
  - unfold thread_ok in Hok. rewrite Hpc in Hok. destruct Hok as (Htr & Htx & Ho).
    unfold exec_step. destruct todo as [|op todo]; [done|].
    destruct (visit op new_executor (sh_store sh)) as [[v|e] st]; [|done].
    unfold thread_ok; simpl. split_and!; [done| |done].
    by rewrite Htx, <- (assoc_L (++)).
  - unfold thread_ok in *. by rewrite Hpc in Hok.
  - unfold thread_ok in Hok. rewrite Hpc in Hok. destruct Hok as [Ho Hsub].
    rewrite (surjective_pairing (take_held _ _)). unfold thread_ok; simpl.
    rewrite held_by_take_held, take_held_keys, decide_True by done.
    split_and!; [done| |].
    + intros x. rewrite owner_of_take_held, elem_of_order by done. apply Ho.
    + rewrite Horder. exact (subseteq_size _ _ Hsub).
  - unfold thread_ok in Hok. rewrite Hpc in Hok. destruct Hok as (Hh & Ho & Hlen).
    by apply next_release_ok.
  - by apply release_step_ok.
  - done.
Qed.
End own_step.

(** *** The invariant holds in every reachable state *)
Lemma thread_step_id th sh :
  th_tx (thread_step th sh).1 = th_tx th ∧
  th_order (thread_step th sh).1 = th_order th ∧
  (started th = true → th_id (thread_step th sh).1 = th_id th ∧
                       sh_next (thread_step th sh).2 = sh_next sh) ∧
  (started th = false → th_id (thread_step th sh).1 = sh_next sh ∧
                        sh_next (thread_step th sh).2 = u64 (sh_next sh + 1)) ∧
  started (thread_step th sh).1 = true.
Proof.
  unfold thread_step, started.
  destruct (th_pc th) as [|k ks a|ran todo rs|o|o|o ks|k ks o r|o] eqn:Hpc; simpl.
  - by destruct (th_order th _).
  - destruct a as [| | | | | | | |i| | |[]]; simpl; repeat case_match; simpl; try done;
      by destruct ks.
  - unfold exec_step. destruct todo as [|op todo]; [done|].
    destruct (visit op new_executor (sh_store sh)) as [[]?]; done.
  - done.
  - by destruct (take_held _ _).
  - by destruct ks.
  - destruct r; simpl; repeat case_match; simpl; try done; by destruct ks.
  - by rewrite Hpc.
Qed.

Lemma filter_started_insert (ths : gmap nat thread) tid th th' :
  ths !! tid = Some th → started th' = true →
  size (filter (λ p, started p.2 = true) (<[tid := th']> ths)) =
    (if started th then 0 else 1) + size (filter (λ p, started p.2 = true) ths).
Proof.
  intros Hth Hst. rewrite map_filter_insert_True by done.
  destruct (started th) eqn:E.
  - apply map_size_insert_Some. exists th. by apply map_lookup_filter_Some.
  - apply map_size_insert_None. apply map_lookup_filter_None_2. right.
    intros th0 Hth0. simplify_eq/=. by rewrite E.
Qed.

Lemma filter_started_lt (ths : gmap nat thread) tid th :
  ths !! tid = Some th → started th = false →
  size (filter (λ p, started p.2 = true) ths) < size ths.
Proof.
  intros Hth Hst.
  pose proof (filter_started_insert ths tid th (goto th (P_done Aborted)) Hth eq_refl) as E.
  rewrite Hst in E.
  pose proof (map_size_filter (λ p, started p.2 = true)
                (<[tid := goto th (P_done Aborted)]> ths)) as Hle.
  rewrite map_size_insert_Some in Hle by eauto. lia.
Qed.

Lemma idle_rely t l l' : rely t l l' → idle t l → idle t l'.
Proof.
  intros [Ho Hh _] [H1 H2]. split; [by rewrite Hh|]. intros k E. by apply (H2 k), Ho.
Qed.

Lemma thread_ok_unstarted l th : started th = false → thread_ok l th.
Proof. unfold started, thread_ok. by destruct (th_pc th). Qed.

(** The counter after a step of thread [tid], which never wraps, and the id
    of the thread afterwards, which nobody else has. *)
Lemma thread_step_counter s tid th :
  sys_inv s → sy_threads s !! tid = Some th →
  let '(th', sh') := thread_step th (sy_shared s) in
  sh_next sh' = (1 + Z.of_nat (size (filter (λ p, started p.2 = true)
    (<[tid := th']> (sy_threads s)))))%Z ∧
  (sh_next (sy_shared s) ≤ sh_next sh')%Z ∧
  (1 ≤ th_id th' < sh_next sh')%Z ∧
  (started th = false → th_id th' = sh_next (sy_shared s)).
Proof.
  intros Hinv Hth. pose proof (thread_step_id th (sy_shared s)) as Hid.
  destruct (thread_step th (sy_shared s)) as [th' sh']; simpl in *.
  destruct Hid as (_ & _ & Hst & Hnst & Hst').
  pose proof (inv_next _ Hinv) as Hnext. pose proof (inv_size _ Hinv) as Hsize.
  rewrite (filter_started_insert _ _ th) by done. destruct (started th) eqn:E.
  - destruct Hst as [-> ->]; [done|]. pose proof (inv_ids _ Hinv _ _ Hth E).
    split_and!; [done|lia..|done].
  - destruct Hnst as [-> ->]; [done|].
    pose proof (filter_started_lt _ _ _ Hth E). unfold u64.
    rewrite wrap_u_small by (unfold in_u; lia). split_and!; lia.
Qed.

Lemma thread_step_id_fresh s tid th tid0 th0 :
  sys_inv s → sy_threads s !! tid = Some th →
  sy_threads s !! tid0 = Some th0 → tid0 ≠ tid → started th0 = true →
  th_id (thread_step th (sy_shared s)).1 ≠ th_id th0.
Proof.
  intros Hinv Hth Hth0 Hne Hst0.
  pose proof (thread_step_id th (sy_shared s)) as (_ & _ & Hst & Hnst & _).
  destruct (started th) eqn:Est.
  - destruct Hst as [-> _]; [done|]. intros E. by apply Hne, (inv_unique _ Hinv _ _ th0 th).
  - destruct Hnst as [-> _]; [done|]. pose proof (inv_ids _ Hinv _ _ Hth0 Hst0). lia.
Qed.

Lemma unused_next_idle s : sys_inv s → idle (sh_next (sy_shared s)) (sh_lm (sy_shared s)).
Proof.
  intros Hinv. apply (inv_idle _ Hinv). intros tid th Hth Hst.
  pose proof (inv_ids _ Hinv _ _ Hth Hst). lia.
Qed.

(** After a step of [tid], the facts of every thread. *)
Lemma sys_inv_step_threads s tid th tid0 th0 :
  sys_inv s → sy_threads s !! tid = Some th →
  <[tid := (thread_step th (sy_shared s)).1]> (sy_threads s) !! tid0 = Some th0 →
  thread_ok (sh_lm (thread_step th (sy_shared s)).2) th0.
Proof.
  intros Hinv Hth [[<- <-]|[Hne Hth0]]%lookup_insert_Some.
  - apply thread_step_ok; [by eapply inv_order| |by eapply inv_thread].
    intros _. by apply unused_next_idle.
  - destruct (started th0) eqn:E; [|by apply thread_ok_unstarted].
    eapply thread_ok_rely; [|by eapply inv_thread]. apply thread_step_rely. intros Hst.
    pose proof (thread_step_id th (sy_shared s)) as (_ & _ & Hid & _).
    destruct (Hid Hst) as [<- _]. by eapply thread_step_id_fresh.
Qed.

Lemma sys_inv_step s s' : sys_inv s → step s s' → sys_inv s'.
Proof.
  intros Hinv (tid & th & th' & sh' & Hth & _ & Hstep & ->)%step_inv.
  pose proof (thread_step_id th (sy_shared s)) as Hid.
  pose proof (thread_step_counter s tid th Hinv Hth) as Hcnt.
  pose proof (λ tid0 th0, sys_inv_step_threads s tid th tid0 th0 Hinv Hth) as Hok.
  pose proof (λ tid0 th0, thread_step_id_fresh s tid th tid0 th0 Hinv Hth) as Hfresh.
  pose proof (λ t, thread_step_rely th (sy_shared s) t) as Hrely.
  rewrite Hstep in *. simpl in *. destruct Hid as (Htx & Hor & Hst & Hnst & Hst').
  destruct Hcnt as (Hnext & Hmono & Hnew & _).
  split; simpl.
  - intros tid0 th0 [[<- <-]|[Hne Hth0]]%lookup_insert_Some X; [rewrite Hor|];
      by eapply inv_order.
  - done.
  - intros tid0 th0 [[<- <-]|[Hne Hth0]]%lookup_insert_Some Hst0; [done|].
    pose proof (inv_ids _ Hinv _ _ Hth0 Hst0). lia.
  - intros tid1 tid2 th1 th2 [[<- <-]|[Hne1 Hth1]]%lookup_insert_Some
      [[<- <-]|[Hne2 Hth2]]%lookup_insert_Some Hs1 Hs2 E; [done|..].
    + by destruct (Hfresh tid2 th2).
    + by destruct (Hfresh tid1 th1).
    + by eapply (inv_unique _ Hinv).
  - intros t Ht.
    assert (Hself : started th = true → th_id th ≠ t).
    { intros Hst0. destruct Hst as [<- _]; [done|]. apply (Ht tid); [|done].
      apply lookup_insert_eq. }
    eapply idle_rely; [by apply Hrely|apply (inv_idle _ Hinv)].
    intros tid0 th0 Hth0 Hst0. destruct (decide (tid0 = tid)) as [->|Hne].
    + simplify_eq. auto.
    + apply (Ht tid0); [|done]. by rewrite lookup_insert_ne.
  - done.
  - rewrite map_size_insert_Some by eauto. apply (inv_size _ Hinv).
Qed.

Lemma sys_inv_initial store s : initial store s → sys_inv s.
Proof.
  intros [Hths Hsh Hsize].
  assert (Hst : ∀ tid th, sy_threads s !! tid = Some th → started th = false).
  { intros tid th Hth. by destruct (Hths _ _ Hth) as (tx & order & -> & _). }
  split; rewrite ?Hsh; simpl.
  - intros tid th Hth. by destruct (Hths _ _ Hth) as (tx & order & -> & ?).
  - intros tid th Hth. apply thread_ok_unstarted. eauto.
  - intros tid th Hth E. by rewrite (Hst _ _ Hth) in E.
  - intros tid1 tid2 th1 th2 Hth1 _ E. by rewrite (Hst _ _ Hth1) in E.
  - intros t _. split; [done|]. intros k. unfold owner_of; simpl. by rewrite lookup_empty.
  - assert (filter (λ p, started p.2 = true) (sy_threads s) = ∅) as ->; [|done].
    apply map_empty. intros tid. apply map_lookup_filter_None_2. right. intros th Hth E. simpl in E.
    by rewrite (Hst _ _ Hth) in E.
  - done.
Qed.

Lemma sys_inv_reachable store s s' : initial store s → rtc step s s' → sys_inv s'.
Proof.
  intros Hinit%sys_inv_initial Hsteps. induction Hsteps; eauto using sys_inv_step.
Qed.
End invariant.
