(* ===== verification/Serializability.v ===== *)
(** * Strict serializability of the concurrent executions

    The threads of [TwoPL], under every interleaving, produce the reads and
    the store of running the committed transactions one after another. *)
From S2P Require Import Prelude Operations LockManager TwoPL TwoPLInvariant.

Definition executing (th : thread) : bool :=
  match th_pc th with P_exec _ _ _ => true | _ => false end.

(** How a thread will leave [execute_transaction], once that is decided. *)
Definition pc_outcome (p : pc) : option outcome :=
  match p with
  | P_take_lock o | P_take o | P_take_unlock o _ | P_release _ _ o _ | P_done o => Some o
  | _ => None
  end.

Definition committed_reads (th : thread) : option Reads :=
  match pc_outcome (th_pc th) with Some (Committed r) => Some r | _ => None end.

(** ** Serial executions *)

(** An entry of a serial execution: who, what, and what it read. *)
Record entry := mkEntry { en_tid : nat; en_tx : Transaction; en_reads : Reads }.

Section serial.
Context {S : Type} `{KVStoreSpec S}.

(** The store after running the entries one after another. *)
Fixpoint serial_store (log : list entry) (G : S) : S :=
  match log with
  | [] => G
  | e :: log' => serial_store log' (apply_tx (en_tx e) G)
  end.

(** Every entry read what it reads in that run. *)
Fixpoint serial_reads (log : list entry) (G : S) : Prop :=
  match log with
  | [] => True
  | e :: log' => en_reads e = tx_reads (en_tx e) G ∧ serial_reads log' (apply_tx (en_tx e) G)
  end.

Lemma serial_store_snoc log e G :
  serial_store (log ++ [e]) G = apply_tx (en_tx e) (serial_store log G).
Proof. revert G. induction log as [|e0 log IH]; intros G; simpl; auto. Qed.

Lemma serial_reads_snoc log e G :
  serial_reads (log ++ [e]) G ↔
    serial_reads log G ∧ en_reads e = tx_reads (en_tx e) (serial_store log G).
Proof.
  revert G. induction log as [|e0 log IH]; intros G; simpl; [naive_solver|].
  rewrite IH. naive_solver.
Qed.
End serial.

Section simulation.
Context {S : Type} `{KVStore S} `{!KVStoreSpec S} `{OpExecutor S} `{!OpExecutorSpec S}.
Implicit Types (s : sys S) (sh : shared S).

Lemma executing_pc th :
  executing th = true ↔ ∃ ran todo r, th_pc th = P_exec ran todo r.
Proof. unfold executing. destruct (th_pc th); naive_solver. Qed.

Lemma ran_keys s tid th ran todo r :
  sys_inv s → sy_threads s !! tid = Some th → th_pc th = P_exec ran todo r →
  tx_keys ran ⊆ tx_keys (th_tx th).
Proof.
  intros Hinv Hth Hpc. pose proof (inv_thread _ Hinv _ _ Hth) as Hok.
  unfold thread_ok in Hok. rewrite Hpc in Hok. destruct Hok as (_ & -> & _).
  intros k. rewrite !elem_of_tx_keys. set_solver.
Qed.

(** Executing transactions have disjoint key sets. *)
Lemma executing_disjoint s tid1 tid2 th1 th2 k :
  sys_inv s →
  sy_threads s !! tid1 = Some th1 → sy_threads s !! tid2 = Some th2 →
  executing th1 = true → executing th2 = true →
  k ∈ tx_keys (th_tx th1) → k ∈ tx_keys (th_tx th2) → tid1 = tid2.
Proof.
  intros Hinv Hth1 Hth2 (ran1 & todo1 & r1 & E1)%executing_pc
    (ran2 & todo2 & r2 & E2)%executing_pc Hk1 Hk2.
  pose proof (inv_thread _ Hinv _ _ Hth1) as Hok1.
  pose proof (inv_thread _ Hinv _ _ Hth2) as Hok2.
  unfold thread_ok in Hok1, Hok2. rewrite E1 in Hok1. rewrite E2 in Hok2.
  destruct Hok1 as (_ & _ & Ho1), Hok2 as (_ & _ & Ho2).
  apply (inv_unique _ Hinv _ _ th1 th2); [done..| | |].
  - unfold started. by rewrite E1.
  - unfold started. by rewrite E2.
  - specialize (Ho1 _ Hk1). specialize (Ho2 _ Hk2). congruence.
Qed.

(** Steps outside the execution phase touch neither the store nor a
    decision already taken, and enter the phase at its beginning. *)
Lemma thread_step_quiet th sh :
  executing th = false →
  sh_store (thread_step th sh).2 = sh_store sh ∧
  committed_reads (thread_step th sh).1 = committed_reads th ∧
  (executing (thread_step th sh).1 = true →
   th_pc (thread_step th sh).1 = P_exec [] (th_tx th) []).
Proof.
  unfold executing, committed_reads, thread_step.
  destruct (th_pc th) as [|k ks a|ran todo rs|o|o|o ks|k ks o r|o] eqn:Hpc; simpl; intros E;
    try done.
  - by destruct (th_order th _).
  - destruct a as [| | | | | | | |i| | |[]], ks; simpl; try done;
      [by destruct (lock_table _ !! k)..| |];
      by destruct (attempt i) as [try|]; [destruct (try _ _ _)|].
  - by destruct (take_held _ _).
  - by destruct ks, o.
  - destruct r, ks, o; simpl; try done;
      (by destruct (lock_table _ !! k)) || by case_decide.
  - by rewrite Hpc.
Qed.

(** ** The simulation relation

    [log] lists the transactions past their commit point, in that order;
    [serial_store log G0] is the store of the serial execution so far. *)
Record sim (G0 : S) (s : sys S) (log : list entry) : Prop := {
  sim_serial : serial_reads log G0;
  sim_nodup : NoDup (en_tid <$> log);
  sim_log e : e ∈ log ↔ ∃ th, sy_threads s !! en_tid e = Some th ∧
                          th_tx th = en_tx e ∧ committed_reads th = Some (en_reads e);
  sim_exec tid th ran todo r :
    sy_threads s !! tid = Some th → th_pc th = P_exec ran todo r →
    agree_on (tx_keys (th_tx th)) (sh_store (sy_shared s)) (apply_tx ran (serial_store log G0)) ∧
    r = tx_reads ran (serial_store log G0);
  sim_rest k :
    (∀ tid th, sy_threads s !! tid = Some th → executing th = true → k ∉ tx_keys (th_tx th)) →
    kv_get (sh_store (sy_shared s)) k = kv_get (serial_store log G0) k;
}.

Lemma sim_initial G0 s : initial G0 s → sim G0 s [].
Proof.
  intros [Hths Hsh _]. split; simpl.
  - done.
  - constructor.
  - intros e. split; [set_solver|]. intros (th & Hth & _ & Hr).
    by destruct (Hths _ _ Hth) as (tx & order & -> & _).
  - intros tid th ran todo r Hth Hpc. by destruct (Hths _ _ Hth) as (tx & order & -> & _).
  - by rewrite Hsh.
Qed.

(** Replacing one thread, the log membership of the others is unchanged. *)
Lemma sim_log_insert G0 s log tid th th' e :
  sim G0 s log → sy_threads s !! tid = Some th →
  th_tx th' = th_tx th → committed_reads th' = committed_reads th →
  e ∈ log ↔ ∃ th0, <[tid := th']> (sy_threads s) !! en_tid e = Some th0 ∧
              th_tx th0 = en_tx e ∧ committed_reads th0 = Some (en_reads e).
Proof.
  intros Hsim Hth Htx Hr. rewrite (sim_log _ _ _ Hsim). setoid_rewrite lookup_insert.
  case_decide as Htid; [subst|done]. split.
  - intros (th0 & Hth0 & ? & ?). simplify_eq. exists th'. by rewrite Htx, Hr.
  - intros (th0 & Hth0 & ? & ?). simplify_eq. exists th. by rewrite <- Htx, <- Hr.
Qed.

(** *** One step outside the execution phase *)
Lemma sim_step_quiet G0 s log tid th th' sh' :
  sys_inv (mkSys (<[tid := th']> (sy_threads s)) sh') →
  sim G0 s log → sy_threads s !! tid = Some th →
  thread_step th (sy_shared s) = (th', sh') → executing th = false →
  sim G0 (mkSys (<[tid := th']> (sy_threads s)) sh') log.
Proof.
  intros Hinv' Hsim Hth Hstep Hex.
  pose proof (thread_step_quiet th (sy_shared s) Hex) as (Hst & Hr & Hpc).
  pose proof (thread_step_id th (sy_shared s)) as (Htx & _).
  rewrite Hstep in Hst, Hr, Hpc, Htx. simpl in *.
  split; simpl; [by apply Hsim|by apply Hsim| | |].
  - intros e. by apply (sim_log_insert G0 s log tid th).
  - intros tid0 th0 ran todo r [[<- <-]|[Hne Hth0]]%lookup_insert_Some Hpc0.
    + assert (Hex' : executing th' = true) by (apply executing_pc; eauto).
      rewrite Hpc in Hpc0 by done. simplify_eq/=. split; [|done].
      intros k Hk. rewrite Hst. apply (sim_rest _ _ _ Hsim).
      intros tid1 th1 Hth1 Hex1 Hk1.
      assert (tid ≠ tid1) by (intros ->; simplify_eq; congruence).
      assert (tid = tid1); [|done].
      eapply (executing_disjoint _ _ _ th' th1 k Hinv'); simpl; try done.
      * apply lookup_insert_eq.
      * by rewrite lookup_insert_ne.
    + rewrite Hst. by eapply sim_exec.
  - intros k Hk. rewrite Hst. apply (sim_rest _ _ _ Hsim).
    intros tid0 th0 Hth0 Hex0.
    assert (tid ≠ tid0) by (intros ->; simplify_eq; congruence).
    apply (Hk tid0); [by rewrite lookup_insert_ne|done].
Qed.

(** *** One operation *)
Lemma sim_step_op G0 s log tid th ran op todo r v :
  sys_inv s → sim G0 s log → sy_threads s !! tid = Some th →
  th_pc th = P_exec ran (op :: todo) r → th_tx th = ran ++ op :: todo →
  (op_type op = READ → (exec_result v).1 = kv_get (sh_store (sy_shared s)) (op_key op)) →
  sim G0
    (mkSys (<[tid := goto th (P_exec (ran ++ [op]) todo
               match op_type op with
               | READ => r ++ [(op_key op, (exec_result v).1)]
               | APPEND => r
               end)]> (sy_threads s))
       (mkShared (sh_lm (sy_shared s)) (apply_op op (sh_store (sy_shared s)))
          (sh_next (sy_shared s)))) log.
Proof.
  intros Hinv Hsim Hth Hpc Htx Hv.
  assert (Hex : executing th = true) by (apply executing_pc; eauto).
  assert (Hkey : op_key op ∈ tx_keys (th_tx th)).
  { apply elem_of_tx_keys. exists op. rewrite Htx. set_solver. }
  destruct (sim_exec _ _ _ Hsim _ _ _ _ _ Hth Hpc) as [Hagree ->].
  split; simpl; [by apply Hsim|by apply Hsim| | |].
  - intros e. apply (sim_log_insert G0 s log tid th); [done..|].
    unfold committed_reads. by rewrite Hpc.
  - intros tid0 th0 ran0 todo0 r0 [[<- <-]|[Hne Hth0]]%lookup_insert_Some Hpc0; simplify_eq/=.
    + rewrite apply_tx_app, tx_reads_app. simpl. rewrite app_nil_r. split.
      * by apply apply_op_agree.
      * destruct op as [k|k v0]; simpl in *; [|by rewrite app_nil_r].
        by rewrite Hv, Hagree.
    + destruct (sim_exec _ _ _ Hsim _ _ _ _ _ Hth0 Hpc0) as [Hagree0 ?]. split; [|done].
      intros k Hk. rewrite <- Hagree0 by done. apply apply_op_frame. intros ->.
      apply Hne, (executing_disjoint s _ _ th th0 (op_key op)); try done.
      apply executing_pc; eauto.
  - intros k Hk. assert (Hkt : k ∉ tx_keys (th_tx th)).
    { exact (Hk tid _ (lookup_insert_eq _ _ _) eq_refl). }
    rewrite apply_op_frame by (intros ->; done). apply (sim_rest _ _ _ Hsim).
    intros tid0 th0 Hth0 Hex0. destruct (decide (tid = tid0)) as [->|]; [by simplify_eq|].
    apply (Hk tid0); [by rewrite lookup_insert_ne|done].
Qed.

(** *** The commit point *)
Lemma sim_step_commit G0 s log tid th r :
  sys_inv s → sim G0 s log → sy_threads s !! tid = Some th →
  th_pc th = P_exec (th_tx th) [] r →
  sim G0 (mkSys (<[tid := goto th (P_take_lock (Committed r))]> (sy_threads s)) (sy_shared s))
    (log ++ [mkEntry tid (th_tx th) r]).
Proof.
  intros Hinv Hsim Hth Hpc.
  assert (Hex : executing th = true) by (apply executing_pc; eauto).
  assert (Hnew : ∀ e, e ∈ log → en_tid e ≠ tid).
  { intros e (th0 & Hth0 & _ & Hr0)%(sim_log _ _ _ Hsim) <-. simplify_eq.
    unfold committed_reads in Hr0. by rewrite Hpc in Hr0. }
  destruct (sim_exec _ _ _ Hsim _ _ _ _ _ Hth Hpc) as [Hagree Hr].
  split; simpl.
  - apply serial_reads_snoc. split; [by apply Hsim|done].
  - rewrite fmap_app. apply NoDup_app. split_and!; [by apply Hsim| |by apply NoDup_singleton].
    intros tid0 (e & -> & He)%list_elem_of_fmap. simpl. specialize (Hnew _ He). set_solver.
  - intros e. rewrite elem_of_app, list_elem_of_singleton.
    setoid_rewrite lookup_insert. case_decide as Htid.
    + split; [intros [He| ->]; [by destruct (Hnew _ He)|]; by eexists|].
      intros (th0 & Hth0 & Htx0 & Hr0). right. destruct e.
      unfold committed_reads in Hr0. by simplify_eq/=.
    + rewrite <- (sim_log _ _ _ Hsim). split; [|by left]. by intros [?| ->].
  - intros tid0 th0 ran0 todo0 r0 [[<- <-]|[Hne Hth0]]%lookup_insert_Some Hpc0; [done|].
    rewrite serial_store_snoc. simpl.
    destruct (sim_exec _ _ _ Hsim _ _ _ _ _ Hth0 Hpc0) as [Hagree0 ->].
    assert (HG : agree_on (tx_keys (th_tx th0)) (serial_store log G0)
                   (apply_tx (th_tx th) (serial_store log G0))).
    { intros k Hk. symmetry. apply apply_tx_frame. intros Hk'. apply Hne.
      apply (executing_disjoint s _ _ th th0 k); try done. apply executing_pc; eauto. }
    assert (Hran : tx_keys ran0 ⊆ tx_keys (th_tx th0)) by by eapply ran_keys.
    split; [|by eapply tx_reads_agree]. intros k Hk. rewrite Hagree0 by done.
    by apply (apply_tx_agree ran0 (tx_keys (th_tx th0))).
  - intros k Hk. rewrite serial_store_snoc. simpl.
    destruct (decide (k ∈ tx_keys (th_tx th))) as [Hin|Hin]; [by apply Hagree|].
    rewrite apply_tx_frame by done. apply (sim_rest _ _ _ Hsim).
    intros tid0 th0 Hth0 Hex0. destruct (decide (tid = tid0)) as [->|]; [by simplify_eq|].
    apply (Hk tid0); [by rewrite lookup_insert_ne|done].
Qed.

(** Every step is matched by zero or one transaction of the serial run. *)
Lemma sim_step G0 s s' log :
  sys_inv s → sim G0 s log → step s s' → ∃ new, sim G0 s' (log ++ new).
Proof.
  intros Hinv Hsim Hstep. pose proof (sys_inv_step _ _ Hinv Hstep) as Hinv'.
  apply step_inv in Hstep as (tid & th & th' & sh' & Hth & _ & Hts & ->).
  destruct (executing th) eqn:Hex.
  2:{ exists []. rewrite app_nil_r. by eapply sim_step_quiet. }
  apply executing_pc in Hex as (ran & todo & r & Hpc).
  pose proof (inv_thread _ Hinv _ _ Hth) as Hok. unfold thread_ok in Hok.
  rewrite Hpc in Hok. destruct Hok as (_ & Htx & _).
  unfold thread_step in Hts. rewrite Hpc in Hts. unfold exec_step in Hts.
  destruct todo as [|op todo]; simplify_eq.
  - rewrite app_nil_r in Htx. subst ran. eexists. by apply sim_step_commit.
  - destruct (visit_spec op new_executor (sh_store (sy_shared s))) as (v & Hv & Hres).
    rewrite Hv in Hts. simplify_eq. exists []. rewrite app_nil_r. by apply sim_step_op.
Qed.

Lemma sim_steps G0 s s' log :
  sys_inv s → sim G0 s log → rtc step s s' → ∃ new, sim G0 s' (log ++ new).
Proof.
  intros Hinv Hsim Hsteps. revert log Hinv Hsim.
  induction Hsteps as [s|s s1 s2 Hstep Hsteps IH]; intros log Hinv Hsim.
  - exists []. by rewrite app_nil_r.
  - destruct (sim_step G0 s s1 log) as [new1 Hsim1]; [done..|].
    destruct (IH (log ++ new1)) as [new2 Hsim2]; [by eapply sys_inv_step|done|].
    exists (new1 ++ new2). by rewrite (assoc_L (++)).
Qed.
End simulation.

(** ** The theorems *)
Section theorems.
Context {S : Type} `{KVStore S} `{!KVStoreSpec S} `{OpExecutor S} `{!OpExecutorSpec S}.
Implicit Types (s : sys S).

(** [log] is a serial execution that explains what is visible of [s]: it
    contains exactly the transactions whose fate is to commit, each with the
    reads it returns, and when no transaction is in the middle of its
    operations it yields the store. *)
Record explains (G0 : S) (s : sys S) (log : list entry) : Prop := {
  explains_reads : serial_reads log G0;
  explains_nodup : NoDup (en_tid <$> log);
  explains_committed e :
    e ∈ log ↔ ∃ th, sy_threads s !! en_tid e = Some th ∧ th_tx th = en_tx e ∧
                    pc_outcome (th_pc th) = Some (Committed (en_reads e));
  explains_store :
    (∀ tid th, sy_threads s !! tid = Some th → executing th = false) →
    kv_equiv (sh_store (sy_shared s)) (serial_store log G0);
}.

Lemma sim_explains G0 s log : sim G0 s log → explains G0 s log.
Proof.
  intros Hsim. split; [by apply Hsim|by apply Hsim| |].
  - intros e. rewrite (sim_log _ _ _ Hsim). unfold committed_reads.
    by split; intros (th & Hth & Htx & Hr); exists th; split_and!; try done;
      repeat case_match; simplify_eq.
  - intros Hex k. apply (sim_rest _ _ _ Hsim). intros tid th Hth E.
    by rewrite (Hex _ _ Hth) in E.
Qed.

(** C1. Strict serializability: in every interleaving of any number of transactions on a
    node, at every point s1 the transactions decided to commit are explained by a serial log
    - the log contains exactly those transactions, each once and with the reads it returns,
    running the log one transaction after another on the initial store produces those reads,
    and whenever no transaction is in the middle of its operations it produces the store.
    The log of a later point s2 extends the log of s1, so the serial order never revises
    decisions already made. *)
Theorem strictly_serializable G0 s0 s1 s2 :
  initial G0 s0 → rtc step s0 s1 → rtc step s1 s2 →
  ∃ log1 log2, explains G0 s1 log1 ∧ explains G0 s2 (log1 ++ log2).
Proof.
  intros Hinit H01 H12. pose proof (sys_inv_initial _ _ Hinit) as Hinv.
  destruct (sim_steps G0 s0 s1 [] Hinv (sim_initial _ _ Hinit) H01) as [log1 Hsim1].
  destruct (sim_steps G0 s1 s2 log1) as [log2 Hsim2]; [|done..|].
  { by eapply sys_inv_reachable. }
  exists log1, log2. split; by apply sim_explains.
Qed.

(** C2. Real-time order: if one transaction has returned committed before another has
    started, and the other commits later, then some serial log that explains the state has
    the first before the second. *)
Theorem real_time_order G0 s0 s1 s2 tid1 tid2 th1 th2 th2' r1 r2 :
  initial G0 s0 → rtc step s0 s1 → rtc step s1 s2 →
  sy_threads s1 !! tid1 = Some th1 → th_pc th1 = P_done (Committed r1) →
  sy_threads s1 !! tid2 = Some th2 → th_pc th2 = P_start →
  sy_threads s2 !! tid2 = Some th2' → pc_outcome (th_pc th2') = Some (Committed r2) →
  ∃ a b c, explains G0 s2 (a ++ mkEntry tid1 (th_tx th1) r1 :: b ++
                           mkEntry tid2 (th_tx th2') r2 :: c).
Proof.
  intros Hinit H01 H12 Ht1 Hp1 Ht2 Hp2 Ht2' Hp2'.
  pose proof (sys_inv_initial _ _ Hinit) as Hinv.
  destruct (sim_steps G0 s0 s1 [] Hinv (sim_initial _ _ Hinit) H01) as [log1 Hsim1].
  destruct (sim_steps G0 s1 s2 log1) as [log2 Hsim2];
    [by eapply sys_inv_reachable|done..|].
  apply sim_explains in Hsim1, Hsim2. simpl in *.
  assert (Hin1 : mkEntry tid1 (th_tx th1) r1 ∈ log1).
  { apply (explains_committed _ _ _ Hsim1). exists th1. by rewrite Hp1. }
  assert (Hin2 : mkEntry tid2 (th_tx th2') r2 ∈ log2).
  { assert (Hin : mkEntry tid2 (th_tx th2') r2 ∈ log1 ++ log2).
    { apply (explains_committed _ _ _ Hsim2). eauto. }
    apply elem_of_app in Hin as [Hin|]; [|done].
    apply (explains_committed _ _ _ Hsim1) in Hin as (th & Hth & _ & Ho).
    simplify_eq/=. by rewrite Hp2 in Ho. }
  apply list_elem_of_split in Hin1 as (a & b1 & ->), Hin2 as (b2 & c & ->).
  exists a, (b1 ++ b2), c.
  by rewrite <- (assoc_L (++)) in Hsim2 |- *.
Qed.

(** C7. No lock outlives its transaction: in any reachable state where every transaction has
    returned (committed, aborted or failed with an exception) no key has an owner and no
    transaction has a tracked key. *)
Theorem quiescent_no_locks G0 s0 s :
  initial G0 s0 → rtc step s0 s →
  (∀ tid th, sy_threads s !! tid = Some th → is_done (th_pc th) = true) →
  ∀ k t, owner_of (sh_lm (sy_shared s)) k = None ∧ held_by (sh_lm (sy_shared s)) t = ∅.
Proof.
  intros Hinit Hsteps Hdone. pose proof (sys_inv_reachable _ _ _ Hinit Hsteps) as Hinv.
  assert (Hidle : ∀ t, idle t (sh_lm (sy_shared s))).
  { intros t. destruct (decide (map_Exists (λ _ th, th_id th = t) (sy_threads s)))
      as [(tid & th & Hth & <-)|Hno].
    - pose proof (inv_thread _ Hinv _ _ Hth) as Hok. pose proof (Hdone _ _ Hth) as Hd.
      unfold thread_ok in Hok. by destruct (th_pc th).
    - apply (inv_idle _ Hinv). intros tid th Hth _ E. apply Hno. by exists tid, th. }
  intros k t. split; [|apply Hidle].
  destruct (owner_of (sh_lm (sy_shared s)) k) as [t0|] eqn:E; [|done].
  by apply (Hidle t0) in E.
Qed.

(** C6. Isolation: in every reachable state a transaction that is executing operations owns
    the lock of every key it touches, whether or not others execute at the same time; and
    any other transaction that is executing then has a disjoint key set. *)
Theorem executing_isolated G0 s0 s tid th :
  initial G0 s0 → rtc step s0 s → sy_threads s !! tid = Some th → executing th = true →
  (∀ k, k ∈ tx_keys (th_tx th) → owner_of (sh_lm (sy_shared s)) k = Some (th_id th)) ∧
  (∀ tid' th', sy_threads s !! tid' = Some th' → tid' ≠ tid → executing th' = true →
     tx_keys (th_tx th) ## tx_keys (th_tx th')).
Proof.
  intros Hinit Hsteps Hth He.
  pose proof (sys_inv_reachable _ _ _ Hinit Hsteps) as Hinv. split.
  - apply executing_pc in He as (ran & todo & r & E).
    pose proof (inv_thread _ Hinv _ _ Hth) as Hok. unfold thread_ok in Hok.
    rewrite E in Hok. apply Hok.
  - intros tid' th' Hth' Hne He' k Hk Hk'.
    by apply Hne, (executing_disjoint s _ _ th' th k).
Qed.
End theorems.
