(* ===== verification/Progress.v ===== *)
(** * Mutexes, progress and termination of the concurrent executions

    No interleaving of [TwoPL] deadlocks on the mutexes, every execution ends
    with every transaction returned, and the mutexes protect every shared
    datum but one. *)
From S2P Require Import Prelude Operations LockManager TwoPL TwoPLInvariant.

(** ** The order of the mutexes *)
Definition mutex_rank (m : mutex) : nat :=
  match m with TableMutex => 0 | EntryMutex _ => 1 | HeldMutex => 2 end.

(** A thread inside a guard's scope only ever requests a mutex of higher rank. *)
Lemma holds_below_wants p m :
  m ∈ pc_holds p →
  is_done p = false ∧
  match pc_wants p with Some m' => mutex_rank m < mutex_rank m' | None => True end.
Proof.
  destruct p as [|k ks []|ran todo rs|o|o|o ks|k ks o []|o]; simpl; intros Hm;
    rewrite ?elem_of_cons, ?elem_of_nil in Hm; naive_solver lia.
Qed.

Section progress.
Context {S : Type} `{OpExecutor S}.
Implicit Types (s : sys S).

Definition all_done (s : sys S) : Prop :=
  ∀ tid th, sy_threads s !! tid = Some th → is_done (th_pc th) = true.

Lemma enabled_step s tid th :
  sy_threads s !! tid = Some th → enabled (sy_threads s) (th_pc th) → ∃ s', step s s'.
Proof.
  intros Hth Hen. destruct (thread_step th (sy_shared s)) as [th' sh'] eqn:E.
  eexists. apply (step_by _ _ tid). unfold step_thread. by rewrite Hth, decide_True, E.
Qed.

(** If nobody can move, the mutexes of rank at least [n] are free. *)
Lemma stuck_free (ths : gmap nat thread) n :
  (∀ tid th, ths !! tid = Some th → ¬ enabled ths (th_pc th)) →
  ∀ m, 3 - n ≤ mutex_rank m → mutex_free ths m.
Proof.
  intros Hstuck. induction n as [|n IH]; intros m Hm.
  { destruct m; simpl in Hm; lia. }
  intros tid th Hth Hholds. apply (Hstuck _ _ Hth).
  destruct (holds_below_wants _ _ Hholds) as [Hd Hw]. split; [done|].
  destruct (pc_wants (th_pc th)) as [m'|]; [|done]. apply IH. lia.
Qed.

Lemma stuck_all_done s :
  (∀ tid th, sy_threads s !! tid = Some th → ¬ enabled (sy_threads s) (th_pc th)) →
  all_done s.
Proof.
  intros Hstuck tid th Hth. destruct (is_done (th_pc th)) eqn:Hd; [done|]. exfalso.
  apply (Hstuck _ _ Hth). split; [done|].
  destruct (pc_wants (th_pc th)); [|done]. by apply (stuck_free _ 3); [|lia].
Qed.

(** ** Mutual exclusion on the mutexes *)

(** A step enters a guard's scope only through the lock it was waiting for. *)
Lemma thread_step_holds th (sh : shared S) m :
  m ∈ pc_holds (th_pc (thread_step th sh).1) →
  m ∈ pc_holds (th_pc th) ∨ pc_wants (th_pc th) = Some m.
Proof.
  unfold thread_step.
  destruct (th_pc th) as [|k ks a|ran todo rs|o|o|o ks|k ks o r|o] eqn:Hpc; simpl.
  - destruct (th_order th _); simpl; set_solver.
  - destruct a as [| | | | | | | |i|i|i|[]]; simpl;
      [..|destruct ks; simpl|]; try set_solver.
    + destruct (lock_table _ !! k); simpl; set_solver.
    + destruct (attempt i) as [try|]; [destruct (try _ _ _)|]; simpl; set_solver.
  - unfold exec_step. destruct todo as [|op todo]; simpl; [set_solver|].
    destruct (visit op new_executor (sh_store sh)) as [[]?]; simpl; set_solver.
  - set_solver.
  - destruct (take_held _ _); simpl. set_solver.
  - destruct ks; simpl; set_solver.
  - destruct r; simpl; [..|destruct ks; simpl]; try set_solver.
    + destruct (lock_table _ !! k); simpl; set_solver.
    + case_decide; simpl; set_solver.
  - rewrite Hpc. set_solver.
Qed.

(** C8. Deadlock freedom on the mutexes: in every state, reachable or not, a step that
    enters a mutex finds it free and enters it only with mutexes of lower rank held
    (table_mutex below the entry mutexes below held_locks_mutex); a thread waiting for a
    mutex holds only mutexes of lower rank; and either all threads have returned or some
    thread can make a step. *)
Theorem mutexes_never_deadlock s :
  (∀ tid s' th th' m, step_thread tid s = Some s' →
     sy_threads s !! tid = Some th → sy_threads s' !! tid = Some th' →
     m ∈ pc_holds (th_pc th') → m ∉ pc_holds (th_pc th) →
     mutex_free (sy_threads s) m ∧
     ∀ m0, m0 ∈ pc_holds (th_pc th) → mutex_rank m0 < mutex_rank m) ∧
  (∀ tid th m m', sy_threads s !! tid = Some th → m ∈ pc_holds (th_pc th) →
     pc_wants (th_pc th) = Some m' → mutex_rank m < mutex_rank m') ∧
  (all_done s ∨ ∃ s', step s s').
Proof.
  split_and!.
  - intros tid s' th th' m Hs Hth Hth' Hm Hm0. unfold step_thread in Hs. rewrite Hth in Hs.
    case_decide as Hen; [|done]. destruct (thread_step th (sy_shared s)) as [th1 sh] eqn:E.
    simplify_eq/=. rewrite lookup_insert_eq in Hth'. simplify_eq.
    pose proof (thread_step_holds th (sy_shared s) m) as Hnew. rewrite E in Hnew.
    destruct (Hnew Hm) as [?|Hw]; [done|]. unfold enabled in Hen. rewrite Hw in Hen.
    split; [apply Hen|]. intros m0 [_ Hr]%holds_below_wants. by rewrite Hw in Hr.
  - intros tid th m m' _ [_ Hr]%holds_below_wants Hw. by rewrite Hw in Hr.
  - destruct (decide (map_Exists (λ _ th, enabled (sy_threads s) (th_pc th)) (sy_threads s)))
      as [(tid & th & Hth & Hen)|Hno]; [right; by eapply enabled_step|left].
    apply stuck_all_done. intros tid th Hth Hen. apply Hno. by exists tid, th.
Qed.

Definition mutex_exclusive (s : sys S) : Prop :=
  ∀ tid1 tid2 th1 th2 m,
    sy_threads s !! tid1 = Some th1 → sy_threads s !! tid2 = Some th2 →
    m ∈ pc_holds (th_pc th1) → m ∈ pc_holds (th_pc th2) → tid1 = tid2.

Lemma mutex_exclusive_step s s' : mutex_exclusive s → step s s' → mutex_exclusive s'.
Proof.
  intros Hex (tid & th & th' & sh' & Hth & [_ Hfree] & Hstep & ->)%step_inv.
  pose proof (thread_step_holds th (sy_shared s)) as Hholds. rewrite Hstep in Hholds.
  assert (Hnew : ∀ tid0 th0 m, sy_threads s !! tid0 = Some th0 → tid0 ≠ tid →
    m ∈ pc_holds (th_pc th0) → m ∉ pc_holds (th_pc th')).
  { intros tid0 th0 m Hth0 Hne Hm0 [Hm|Hm]%Hholds; [by apply Hne; eapply Hex|].
    rewrite Hm in Hfree. by apply (Hfree _ _ Hth0). }
  intros tid1 tid2 th1 th2 m; simpl.
  intros [[<- <-]|[Hne1 Hth1]]%lookup_insert_Some [[<- <-]|[Hne2 Hth2]]%lookup_insert_Some Hm1 Hm2;
    [done|..].
  - by destruct (Hnew tid2 th2 m).
  - by destruct (Hnew tid1 th1 m).
  - by eapply Hex.
Qed.

Lemma mutex_exclusive_reachable store s0 s :
  initial store s0 → rtc step s0 s → mutex_exclusive s.
Proof.
  intros [Hths _ _] Hsteps.
  assert (H0 : mutex_exclusive s0).
  { intros tid1 tid2 th1 th2 m Hth1 _ Hm. destruct (Hths _ _ Hth1) as (tx & o & -> & _).
    simpl in Hm. set_solver. }
  clear Hths. induction Hsteps; eauto using mutex_exclusive_step.
Qed.
End progress.

(** ** Shared accesses

    The data the mutexes are there for: the structure of [lock_table], the
    owner of one entry, and [held_locks]. *)
Inductive location := LTable | LOwner (k : KeyType) | LHeld.

(** The access the next step makes, [true] for a write. *)
Definition pc_access (p : pc) : option (location * bool) :=
  match p with
  | P_acquire _ _ AQ_emplace => Some (LTable, true)
  | P_acquire _ _ AQ_at => Some (LTable, false)
  | P_acquire k _ (AQ_try _) => Some (LOwner k, true)
  | P_acquire _ _ AQ_track => Some (LHeld, true)
  | P_release _ _ _ RL_contains => Some (LTable, false)
  | P_release k _ _ RL_check => Some (LOwner k, true)
  | P_release _ _ _ RL_untrack => Some (LHeld, true)
  | P_take _ => Some (LHeld, true)
  | _ => None
  end.

Definition guard_of (x : location) : mutex :=
  match x with LTable => TableMutex | LOwner k => EntryMutex k | LHeld => HeldMutex end.

(** Two next accesses that race: the same place, at least one a write. *)
Definition conflict (p q : pc) : Prop :=
  ∃ x w w', pc_access p = Some (x, w) ∧ pc_access q = Some (x, w') ∧ w || w' = true.

Definition at_unguarded_lookup (p : pc) : Prop := ∃ k ks, p = P_acquire k ks AQ_at.

Lemma access_guarded p x w :
  pc_access p = Some (x, w) →
  guard_of x ∈ pc_holds p ∨ (at_unguarded_lookup p ∧ x = LTable ∧ w = false).
Proof.
  destruct p as [|k ks []|ran todo rs|o|o|o ks|k ks o []|o]; simpl; intros; simplify_eq/=;
    try (left; set_solver). right. split; [by do 2 eexists|done].
Qed.

(** *** The table of accesses is complete *)
Definition same_content (x : location) (l l' : LockManager) : Prop :=
  match x with
  | LTable => dom (lock_table l') = dom (lock_table l)
  | LOwner k => owner_of l' k = owner_of l k
  | LHeld => held_locks l' = held_locks l
  end.

Section accesses.
Context {S : Type} `{OpExecutor S}.
Implicit Types (s : sys S) (sh : shared S).

(** Every tracked key has its entry: [acquire] creates it first and nothing
    removes entries. *)
Definition entries_exist (l : LockManager) : Prop :=
  ∀ t k, k ∈ held_by l t → k ∈ dom (lock_table l).

Lemma entries_exist_less l l' :
  entries_exist l → dom (lock_table l) ⊆ dom (lock_table l') →
  (∀ t, held_by l' t ⊆ held_by l t) → entries_exist l'.
Proof. intros Hl Hd Hh t k Hk. by apply Hd, (Hl t), Hh. Qed.

Lemma attempt_table i try k t l l1 :
  attempt i = Some try → try k t l = Some l1 →
  l1 = l ∨ l1 = set_owner k (Some t) l.
Proof.
  unfold attempt. repeat case_decide; intros [= <-]; unfold try_spin, try_yield;
    repeat case_match; intros [= <-]; auto.
Qed.

Lemma thread_step_entries th sh :
  thread_ok (sh_lm sh) th → entries_exist (sh_lm sh) →
  entries_exist (sh_lm (thread_step th sh).2).
Proof.
  intros Hok Hl. unfold thread_ok in Hok. unfold thread_step.
  destruct (th_pc th) as [|k ks a|ran todo rs|o|o|o ks|k ks o r|o] eqn:Hpc; try done.
  - destruct Hok as (_ & Ha & _). destruct a as [| | | | | | | |i|i|i|[]]; try done; simpl.
    + eapply entries_exist_less; [done|apply dom_emplace|intros; by rewrite held_by_emplace].
    + by case_match.
    + intros t x. rewrite held_by_track. case_decide; [|by apply Hl].
      intros [->%elem_of_singleton|Hx]%elem_of_union; [done|by apply Hl in Hx].
    + destruct (attempt i) as [try|] eqn:Hi; [|done].
      destruct (try k _ _) as [l'|] eqn:Ht; [|done]. simpl.
      destruct (attempt_table _ _ _ _ _ _ Hi Ht) as [-> | ->]; [done|].
      eapply entries_exist_less; [done|apply dom_set_owner|done].
  - unfold exec_step. repeat case_match; done.
  - rewrite (surjective_pairing (take_held _ _)). simpl. unfold take_held. case_match; [|done].
    eapply entries_exist_less; [done|done|]. intros t. unfold held_by. simpl.
    rewrite set_at_delete. case_decide; set_solver.
  - destruct r; try done; simpl.
    + by case_match.
    + case_decide; [|done]. eapply entries_exist_less; [done|apply dom_set_owner|done].
    + eapply entries_exist_less; [done| |].
      * unfold untrack_key. repeat case_match; done.
      * intros t. rewrite held_by_untrack. case_decide; set_solver.
Qed.

Lemma entries_exist_reachable store s0 s :
  initial store s0 → rtc step s0 s → entries_exist (sh_lm (sy_shared s)).
Proof.
  intros Hinit. revert s. apply rtc_ind_r.
  - destruct Hinit as [_ E _]. rewrite E. intros t k. unfold held_by. simpl.
    by rewrite set_at_empty.
  - intros s1 s Hs (tid & th & th' & sh' & Hth & _ & E & ->)%step_inv IH. simpl.
    replace sh' with (thread_step th (sy_shared s1)).2 by by rewrite E.
    apply thread_step_entries; [|done].
    by apply (inv_thread _ (sys_inv_reachable _ _ _ Hinit Hs) tid).
Qed.

(** A step changes only the place it is said to write. *)
Lemma thread_step_writes th sh x :
  thread_ok (sh_lm sh) th → entries_exist (sh_lm sh) →
  pc_access (th_pc th) ≠ Some (x, true) →
  same_content x (sh_lm sh) (sh_lm (thread_step th sh).2).
Proof.
  assert (Hrefl : ∀ l, same_content x l l) by by destruct x.
  intros Hok Hl. unfold thread_ok in Hok. unfold thread_step.
  destruct (th_pc th) as [|k ks a|ran todo rs|o|o|o ks|k ks o r|o] eqn:Hpc; intros Hx; try apply Hrefl.
  - destruct Hok as (_ & Ha & _). destruct a as [| | | | | | | |i|i|i|[]]; try apply Hrefl; simpl in *.
    + destruct x; [done| |]; simpl; [by rewrite owner_of_emplace|].
      unfold emplace_entry. by case_match.
    + case_match; apply Hrefl.
    + by destruct x.
    + destruct (attempt i) as [try|] eqn:Hi; [|apply Hrefl].
      destruct (try k _ _) as [l'|] eqn:Ht; [|apply Hrefl]. simpl.
      destruct (attempt_table _ _ _ _ _ _ Hi Ht) as [-> | ->]; [apply Hrefl|].
      apply Hl in Ha. destruct x as [|k'|]; simpl.
      * rewrite dom_insert_L. set_solver.
      * rewrite owner_of_set_owner. case_decide; [congruence|done].
      * done.
  - unfold exec_step. repeat case_match; apply Hrefl.
  - rewrite (surjective_pairing (take_held _ _)). simpl. unfold take_held.
    destruct x; [| |done]; case_match; done.
  - destruct r; try apply Hrefl; simpl in *.
    + case_match; apply Hrefl.
    + case_decide as E; [|apply Hrefl]. destruct x as [|k'|]; simpl.
      * rewrite dom_insert_L. unfold owner_of in E.
        destruct (lock_table (sh_lm sh) !! k) eqn:Ek; [|done].
        apply elem_of_dom_2 in Ek. set_solver.
      * rewrite owner_of_set_owner. case_decide; [congruence|done].
      * done.
    + destruct x; [| |done]; simpl; [|by rewrite owner_of_untrack].
      unfold untrack_key. repeat case_match; done.
Qed.

(** What a thread does next depends only on the place it is said to access
    and on the store and the counter. *)
Lemma thread_step_reads th sh sh' :
  sh_store sh' = sh_store sh → sh_next sh' = sh_next sh →
  (∀ x w, pc_access (th_pc th) = Some (x, w) → same_content x (sh_lm sh) (sh_lm sh')) →
  (thread_step th sh').1 = (thread_step th sh).1.
Proof.
  intros Hst Hnx Hx. unfold thread_step.
  assert (Hdom : ∀ k, dom (lock_table (sh_lm sh')) = dom (lock_table (sh_lm sh)) →
    is_Some (lock_table (sh_lm sh') !! k) ↔ is_Some (lock_table (sh_lm sh) !! k)).
  { intros k E. by rewrite <- !elem_of_dom, E. }
  destruct (th_pc th) as [|k ks a|ran todo rs|o|o|o ks|k ks o r|o] eqn:Hpc; simpl in *; try done.
  - by rewrite Hnx.
  - destruct a as [| | | | | | | |i|i|i|[]]; try done; simpl in *.
    + pose proof (Hdom k (Hx _ _ eq_refl)) as [H1 H2].
      destruct (lock_table (sh_lm sh') !! k), (lock_table (sh_lm sh) !! k); [done| | |done].
      all: (by destruct H1; [eexists|]) || (by destruct H2; [eexists|]).
    + pose proof (Hx _ _ eq_refl) as E. simpl in E. unfold attempt.
      repeat case_decide; try done; unfold try_spin, try_yield; rewrite E; by repeat case_match.
  - unfold exec_step. rewrite Hst. repeat case_match; done.
  - pose proof (Hx _ _ eq_refl) as E. simpl in E. unfold take_held. rewrite E. by destruct (held_locks (sh_lm sh) !! th_id th).
  - destruct r; try done; simpl in *.
    + pose proof (Hdom k (Hx _ _ eq_refl)) as [H1 H2].
      destruct (lock_table (sh_lm sh') !! k), (lock_table (sh_lm sh) !! k); [done| | |done].
      all: (by destruct H1; [eexists|]) || (by destruct H2; [eexists|]).
    + pose proof (Hx _ _ eq_refl) as E. simpl in E. rewrite E. by case_decide.
Qed.
End accesses.

(** C30. The mutexes protect the lock manager's data. The table of accesses - which of the
    structure of lock_table, the owner of an entry and held_locks the next step reads or
    writes - is right: in a reachable state a step leaves every location it is not said to
    write as it is, and what a thread does next depends only on the location it is said to
    access, the store and the id counter. Two threads whose next accesses conflict (same
    location, at least one write) never exist in a reachable state, with one exception - one
    thread at the lookup of lock_table after table_mutex has been released, the other
    inserting a new entry. *)
Theorem races_only_at_unguarded_lookup {S} `{OpExecutor S} store (s0 s : sys S) :
  initial store s0 → rtc step s0 s →
  (∀ tid th x, sy_threads s !! tid = Some th → pc_access (th_pc th) ≠ Some (x, true) →
     same_content x (sh_lm (sy_shared s)) (sh_lm (thread_step th (sy_shared s)).2)) ∧
  (∀ th sh sh', sh_store sh' = sh_store sh → sh_next sh' = sh_next sh →
     (∀ x w, pc_access (th_pc th) = Some (x, w) → same_content x (sh_lm sh) (sh_lm sh')) →
     (thread_step (S := S) th sh').1 = (thread_step th sh).1) ∧
  (∀ tid1 tid2 th1 th2,
     sy_threads s !! tid1 = Some th1 → sy_threads s !! tid2 = Some th2 → tid1 ≠ tid2 →
     conflict (th_pc th1) (th_pc th2) →
     (at_unguarded_lookup (th_pc th1) ∧ ∃ k ks, th_pc th2 = P_acquire k ks AQ_emplace) ∨
     (at_unguarded_lookup (th_pc th2) ∧ ∃ k ks, th_pc th1 = P_acquire k ks AQ_emplace)).
Proof.
  intros Hinit Hsteps. split_and!.
  - intros tid th x Hth. apply thread_step_writes.
    + by apply (inv_thread _ (sys_inv_reachable _ _ _ Hinit Hsteps) tid).
    + by eapply entries_exist_reachable.
  - apply thread_step_reads.
  - intros tid1 tid2 th1 th2 Hth1 Hth2 Hne (x & w & w' & Ha1 & Ha2 & Hw).
    pose proof (mutex_exclusive_reachable _ _ _ Hinit Hsteps) as Hex.
    assert (Hemplace : ∀ p, pc_access p = Some (LTable, true) →
                            ∃ k ks, p = P_acquire k ks AQ_emplace).
    { intros [|k ks []|ran todo rs|o|o|o ks|k ks o []|o] E; simplify_eq/=; eauto. }
    destruct (access_guarded _ _ _ Ha1) as [Hg1|(Hl1 & -> & ->)].
    + destruct (access_guarded _ _ _ Ha2) as [Hg2|(Hl2 & -> & ->)].
      * by destruct Hne; eapply Hex.
      * right. split; [done|]. apply Hemplace. by destruct w.
    + left. split; [done|]. apply Hemplace. by destruct w'.
Qed.

(** ** Termination

    The steps a thread can still make at each program counter.  [ATTEMPTS]
    bounds the tests of one [acquire] and [ACQ_STEPS] its steps, nine steps
    make a [release]. *)
Definition ATTEMPTS : nat := MAX_SPINS + MAX_YIELDS.
Definition ACQ_STEPS : nat := 3 * ATTEMPTS + 12.
#[global] Arguments ATTEMPTS : simpl never.
#[global] Arguments ACQ_STEPS : simpl never.

Definition acq_weight (a : acq_pc) : nat :=
  let w i := 3 * (ATTEMPTS - i) in
  match a with
  | AQ_table_lock => w 0 + 12
  | AQ_emplace => w 0 + 11
  | AQ_table_unlock => w 0 + 10
  | AQ_at => w 0 + 9
  | AQ_entry_lock => w 0 + 8
  | AQ_held_lock => w 0 + 7
  | AQ_track => w 0 + 6
  | AQ_held_unlock => w 0 + 5
  | AQ_try i => w i + 3
  | AQ_unlock i => w i + 2
  | AQ_relock i => w i + 4
  | AQ_return _ => 1
  end.

Definition rel_weight (r : rel_pc) : nat :=
  match r with
  | RL_table_lock => 9 | RL_contains => 8 | RL_entry_lock => 7 | RL_check => 6
  | RL_held_lock => 5 | RL_untrack => 4 | RL_held_unlock => 3 | RL_entry_unlock => 2
  | RL_table_unlock => 1
  end.

(** [n] keys and [m] operations in the transaction. *)
Definition pc_weight (n m : nat) (p : pc) : nat :=
  match p with
  | P_start => ACQ_STEPS * n + (10 * n + m + 6)
  | P_acquire _ ks a => ACQ_STEPS * length ks + acq_weight a + (10 * n + m + 5)
  | P_exec _ todo _ => 10 * n + length todo + 4
  | P_take_lock _ => 10 * n + 3
  | P_take _ => 10 * n + 2
  | P_take_unlock _ ks => 10 * length ks + 1
  | P_release _ ks _ r => 10 * length ks + rel_weight r
  | P_done _ => 0
  end.

Definition thread_weight (th : thread) : nat :=
  pc_weight (size (tx_keys (th_tx th))) (length (th_tx th)) (th_pc th).

(** Compute weights without evaluating the bounds. *)
Ltac weigh := cbn [thread_weight pc_weight acq_weight rel_weight th_pc th_tx goto fst snd length
  acquire_step release_step acq_ok] in *.

Section termination.
Context {S : Type} `{OpExecutor S}.
Implicit Types (s : sys S).

Lemma next_acquire_weight n tx ks :
  pc_weight n (length tx) (next_acquire tx ks) <
    ACQ_STEPS * length ks + (10 * n + length tx + 6).
Proof.
  destruct ks as [|k ks]; cbn [next_acquire pc_weight acq_weight length]; [lia|].
  unfold ACQ_STEPS. nia.
Qed.

Lemma next_release_weight n m o ks :
  pc_weight n m (next_release o ks) < 10 * length ks + 1.
Proof. destruct ks; simpl; lia. Qed.

Lemma acquire_step_weight th k ks a (sh : shared S) :
  th_pc th = P_acquire k ks a → thread_ok (sh_lm sh) th →
  thread_weight (acquire_step th k ks a sh).1 < thread_weight th.
Proof.
  intros Hpc Hok. unfold thread_ok in Hok. rewrite Hpc in Hok.
  destruct Hok as (_ & Ha & _). unfold thread_weight. rewrite Hpc.
  destruct a as [| | | | | | | |i|i|i|[]]; weigh; try lia.
  - destruct (lock_table _ !! k); weigh; lia.
  - destruct (attempt i) as [try|]; [destruct (try _ _ _)|]; weigh; lia.
  - destruct Ha as [_ Hi]. unfold ATTEMPTS. lia.
  - pose proof (next_acquire_weight (size (tx_keys (th_tx th))) (th_tx th) ks). lia.
Qed.

Lemma thread_step_weight th (sh : shared S) :
  (∀ c X, th_order th c X ≡ₚ elements X) → thread_ok (sh_lm sh) th →
  is_done (th_pc th) = false →
  thread_weight (thread_step th sh).1 < thread_weight th.
Proof.
  intros Horder Hok Hd. unfold thread_step.
  destruct (th_pc th) as [|k ks a|ran todo rs|o|o|o ks|k ks o r|o] eqn:Hpc; try done.
  - unfold thread_weight. rewrite Hpc. weigh.
    pose proof (next_acquire_weight (size (tx_keys (th_tx th))) (th_tx th)
                  (th_order th (LocalKeys (sh_next sh)) (tx_keys (th_tx th)))) as Hw.
    rewrite Horder in Hw at 2. exact Hw.
  - by apply acquire_step_weight.
  - unfold exec_step, thread_weight. rewrite Hpc. destruct todo as [|op todo]; weigh; [lia|].
    destruct (visit op new_executor (sh_store sh)) as [[]?]; weigh; lia.
  - unfold thread_weight. rewrite Hpc. weigh. lia.
  - unfold thread_ok in Hok. rewrite Hpc in Hok. destruct Hok as [_ Hsub%subseteq_size].
    rewrite (surjective_pairing (take_held _ _)), take_held_keys.
    unfold thread_weight. rewrite Hpc. weigh. rewrite Horder.
    unfold size, set_size in Hsub. simpl in Hsub. unfold size, set_size. simpl. lia.
  - unfold thread_weight. rewrite Hpc. weigh. apply next_release_weight.
  - unfold thread_weight. rewrite Hpc. destruct r; weigh; try lia.
    + destruct (lock_table _ !! k); weigh; lia.
    + case_decide; weigh; lia.
    + pose proof (next_release_weight (size (tx_keys (th_tx th))) (length (th_tx th)) o ks).
      lia.
Qed.

(** The steps all threads together can still make. *)
Definition total_weight (ths : gmap nat thread) : nat :=
  map_fold (λ _ th n, thread_weight th + n) 0 ths.

Lemma total_weight_insert ths tid th :
  ths !! tid = None →
  total_weight (<[tid := th]> ths) = thread_weight th + total_weight ths.
Proof. intros Hn. unfold total_weight.
  apply (map_fold_insert_L (λ _ th n, thread_weight th + n)); [intros; lia|done]. Qed.

Lemma total_weight_update ths tid th th' :
  ths !! tid = Some th → thread_weight th' < thread_weight th →
  total_weight (<[tid := th']> ths) < total_weight ths.
Proof.
  intros Hth Hw. rewrite <- (insert_delete_eq ths).
  rewrite <- (insert_delete_id ths tid th Hth) at 2.
  rewrite !total_weight_insert by apply lookup_delete_eq. lia.
Qed.

Lemma step_weight s s' :
  sys_inv s → step s s' → total_weight (sy_threads s') < total_weight (sy_threads s).
Proof.
  intros Hinv (tid & th & th' & sh' & Hth & [Hd _] & Hstep & ->)%step_inv. simpl.
  apply (total_weight_update _ _ th); [done|].
  pose proof (thread_step_weight th (sy_shared s)) as Hw. rewrite Hstep in Hw.
  apply Hw; [by eapply inv_order|by eapply inv_thread|done].
Qed.

Lemma nsteps_weight n s s' :
  sys_inv s → nsteps step n s s' →
  sys_inv s' ∧ n + total_weight (sy_threads s') ≤ total_weight (sy_threads s).
Proof.
  intros Hinv Hn. revert Hinv.
  induction Hn as [s|n s s1 s2 Hstep Hn IH]; intros Hinv; [split; [done|lia]|].
  pose proof (step_weight _ _ Hinv Hstep).
  destruct IH as [? ?]; [by eapply sys_inv_step|]. split; [done|lia].
Qed.

(** C3. Termination: an execution from the initial state never takes more steps than a
    weight computed from the transactions alone, whatever the interleaving; a state from
    which no step is possible has every transaction returned; and every execution prefix can
    be completed within the bound to a state where every transaction has returned. *)
Theorem every_execution_finishes store s0 s n :
  initial store s0 → nsteps step n s0 s →
  n ≤ total_weight (sy_threads s0) ∧
  ((∀ s', ¬ step s s') → all_done s) ∧
  ∃ m s', nsteps step m s s' ∧ all_done s' ∧ n + m ≤ total_weight (sy_threads s0).
Proof.
  intros Hinit%sys_inv_initial Hn.
  destruct (nsteps_weight _ _ _ Hinit Hn) as [Hinv Hle].
  split_and!; [lia| |].
  { intros Hstuck. apply stuck_all_done. intros tid th Hth Hen.
    destruct (enabled_step _ _ _ Hth Hen) as [s' Hs']. by apply (Hstuck s'). }
  enough (∃ m s', nsteps step m s s' ∧ all_done s' ∧ m ≤ total_weight (sy_threads s))
    as (m & s' & ? & ? & ?) by (exists m, s'; split_and!; [done..|lia]).
  clear s0 n Hinit Hn Hle. remember (total_weight (sy_threads s)) as w eqn:Hw.
  revert s Hinv Hw. induction (lt_wf w) as [w _ IH]. intros s Hinv ->.
  destruct (decide (map_Exists (λ _ th, enabled (sy_threads s) (th_pc th)) (sy_threads s)))
    as [(tid & th & Hth & Hen)|Hno].
  - destruct (enabled_step _ _ _ Hth Hen) as [s1 Hstep].
    pose proof (step_weight _ _ Hinv Hstep) as Hlt.
    destruct (IH _ Hlt s1 (sys_inv_step _ _ Hinv Hstep) eq_refl) as (m & s' & Hm & Hd & Hle).
    exists (Datatypes.S m), s'. split_and!; [by eapply nsteps_l|done|lia].
  - exists 0, s. split_and!; [constructor| |lia]. apply stuck_all_done.
    intros tid th Hth Hen. apply Hno. by exists tid, th.
Qed.
End termination.
