(* ===== verification/Scenarios.v ===== *)
(** * Concrete executions

    A node with three waiting transactions, two of which want the same keys,
    and particular interleavings of their threads: they show that the
    hypotheses of the theorems about the interleaved machine are met by real
    runs, and one of them reaches a data race. *)
From S2P Require Import Prelude Operations LockManager TwoPL TwoPLInvariant Serializability Progress.

#[local] Existing Instance flat_store.
#[local] Existing Instance flat_store_spec.
#[local] Instance demo_executor : OpExecutor (gmap KeyType ValueContainer) :=
  last_read_executor _.
#[local] Instance demo_executor_spec : OpExecutorSpec (gmap KeyType ValueContainer) :=
  last_read_executor_spec _.

Definition demo_threads : gmap nat thread :=
  {[ 0 := fresh_thread [AppendOp 1 10; ReadOp 1] mixed_order;
     1 := fresh_thread [ReadOp 1; AppendOp 2 20] mixed_order;
     2 := fresh_thread [AppendOp 3 30] mixed_order ]}.

Definition demo_start : sys (gmap KeyType ValueContainer) :=
  mkSys demo_threads (mkShared new_lock_manager ∅ 1).

Lemma demo_initial : initial ∅ demo_start.
Proof.
  split; [|done|vm_compute; reflexivity].
  intros tid th Hth. unfold demo_start, demo_threads in Hth; simpl in Hth.
  repeat (apply lookup_insert_Some in Hth as [[<- <-]|[_ Hth]]; [by do 2 eexists; split; [|apply mixed_order_perm]|]).
  apply lookup_singleton_Some in Hth as [<- <-]. by do 2 eexists; split; [|apply mixed_order_perm].
Qed.

(** Thread 0 runs to the middle of its operations, thread 2 starts executing
    too, thread 0 finishes, then thread 1 runs. *)
Definition demo_prefix : list nat := replicate 12 0 ++ replicate 11 2.
Definition demo_commit0 : list nat := replicate 14 0.
Definition demo_rest : list nat := replicate 14 2 ++ replicate 45 1.

Definition demo_at (sched : list nat) : sys (gmap KeyType ValueContainer) :=
  default demo_start (run_schedule sched demo_start).

Lemma demo_rtc sched :
  is_Some (run_schedule sched demo_start) → rtc step demo_start (demo_at sched).
Proof.
  intros [s Hs]. unfold demo_at. rewrite Hs. by eapply run_schedule_rtc.
Qed.

Ltac demo_run := apply demo_rtc; vm_compute; by eexists.

Lemma demo_run1 : rtc step demo_start (demo_at (demo_prefix ++ demo_commit0)).
Proof. demo_run. Qed.

Lemma demo_run2 :
  rtc step (demo_at (demo_prefix ++ demo_commit0))
    (demo_at (demo_prefix ++ demo_commit0 ++ demo_rest)).
Proof.
  apply (run_schedule_rtc demo_rest). vm_compute. reflexivity.
Qed.

Lemma strictly_serializable_witness : ∃ log1 log2,
  explains ∅ (demo_at (demo_prefix ++ demo_commit0)) log1 ∧
  explains ∅ (demo_at (demo_prefix ++ demo_commit0 ++ demo_rest)) (log1 ++ log2).
Proof. exact (strictly_serializable _ _ _ _ demo_initial demo_run1 demo_run2). Defined.

Lemma real_time_order_witness : ∃ a b c,
  explains ∅ (demo_at (demo_prefix ++ demo_commit0 ++ demo_rest))
    (a ++ mkEntry 0 [AppendOp 1 10; ReadOp 1] [(1%Z, Some [10%Z])] :: b ++
     mkEntry 1 [ReadOp 1; AppendOp 2 20] [(1%Z, Some [10%Z])] :: c).
Proof.
  refine (real_time_order _ _ _ _ 0 1 (mkThread [AppendOp 1 10; ReadOp 1] mixed_order 1
            (P_done (Committed [(1%Z, Some [10%Z])])))
            (fresh_thread [ReadOp 1; AppendOp 2 20] mixed_order)
            (mkThread [ReadOp 1; AppendOp 2 20] mixed_order 3
               (P_done (Committed [(1%Z, Some [10%Z])]))) _ _
            demo_initial demo_run1 demo_run2 _ _ _ _ _ _); vm_compute; reflexivity.
Defined.

Lemma quiescent_no_locks_witness :
  owner_of (sh_lm (sy_shared (demo_at (demo_prefix ++ demo_commit0 ++ demo_rest)))) 1 = None ∧
  held_by (sh_lm (sy_shared (demo_at (demo_prefix ++ demo_commit0 ++ demo_rest)))) 3 = ∅.
Proof.
  apply (quiescent_no_locks ∅ demo_start); [exact demo_initial|demo_run|].
  refine (bool_decide_unpack (map_Forall (λ _ th, is_done (th_pc th) = true) _) _).
  vm_compute. exact I.
Defined.

Lemma executing_isolated_witness :
  owner_of (sh_lm (sy_shared (demo_at (replicate 12 0)))) 1 = Some 1%Z ∧
  owner_of (sh_lm (sy_shared (demo_at demo_prefix))) 1 = Some 1%Z ∧
  tx_keys [AppendOp 1 10; ReadOp 1] ## tx_keys [AppendOp 3 30].
Proof.
  pose (th0 := mkThread [AppendOp 1 10; ReadOp 1] mixed_order 1
                 (P_exec [AppendOp 1 10] [ReadOp 1] [])).
  pose (th2 := mkThread [AppendOp 3 30] mixed_order 2 (P_exec [] [AppendOp 3 30] [])).
  destruct (executing_isolated ∅ demo_start (demo_at (replicate 12 0)) 0 th0 demo_initial)
    as [Halone _]; [demo_run|vm_compute; reflexivity|reflexivity|].
  destruct (executing_isolated ∅ demo_start (demo_at demo_prefix) 0 th0 demo_initial)
    as [Hown Hdis]; [demo_run|vm_compute; reflexivity|reflexivity|].
  split_and!; [apply Halone; set_solver|apply Hown; set_solver|].
  apply (Hdis 2 th2); [vm_compute; reflexivity|done|reflexivity].
Defined.

Lemma every_execution_finishes_witness :
  ∃ m s', nsteps step m (demo_at (replicate 12 0)) s' ∧ all_done s' ∧
          12 + m ≤ total_weight (sy_threads demo_start).
Proof.
  refine (proj2 (proj2 (every_execution_finishes ∅ demo_start _ 12 demo_initial _))).
  apply (run_schedule_nsteps (replicate 12 0)). vm_compute. reflexivity.
Defined.

(** ** The data race on the lock table

    Thread 0 is about to execute line 19 of LockManager.cpp, a lookup in
    [lock_table] with no mutex held; thread 2 is about to insert key 3. *)
Definition race_state : sys (gmap KeyType ValueContainer) :=
  demo_at (replicate 4 0 ++ replicate 2 2).

(** The exception in the mutex discipline is real: a concrete schedule of three
    transactions from the initial state reaches a state where one thread is about to look a
    key up in lock_table without any mutex while another is about to insert a new key into
    the same table, both enabled. *)
Theorem lock_table_lookup_races :
  initial ∅ demo_start ∧ rtc step demo_start race_state ∧
  ∃ th0 th2,
    sy_threads race_state !! 0 = Some th0 ∧ sy_threads race_state !! 2 = Some th2 ∧
    th_pc th0 = P_acquire 1 [] AQ_at ∧ th_pc th2 = P_acquire 3 [] AQ_emplace ∧
    conflict (th_pc th0) (th_pc th2) ∧
    lock_table (sh_lm (sy_shared race_state)) !! 3%Z = None ∧
    enabled (sy_threads race_state) (th_pc th0) ∧ enabled (sy_threads race_state) (th_pc th2).
Proof.
  split; [exact demo_initial|]. split; [demo_run|].
  eexists _, _. split; [vm_compute; reflexivity|]. split; [vm_compute; reflexivity|].
  split_and!; try done. by exists LTable, false, true.
Qed.

Lemma races_only_at_unguarded_lookup_witness :
  (at_unguarded_lookup (P_acquire 1 [] AQ_at) ∧ ∃ k ks, P_acquire 3 [] AQ_emplace =
     P_acquire k ks AQ_emplace) ∨
  (at_unguarded_lookup (P_acquire 3 [] AQ_emplace) ∧ ∃ k ks, P_acquire 1 [] AQ_at =
     P_acquire k ks AQ_emplace).
Proof.
  destruct (races_only_at_unguarded_lookup ∅ demo_start race_state demo_initial)
    as (_ & _ & Hraces); [demo_run|].
  refine (Hraces 0 2 (mkThread [AppendOp 1 10; ReadOp 1] mixed_order 1 (P_acquire 1 [] AQ_at))
            (mkThread [AppendOp 3 30] mixed_order 2 (P_acquire 3 [] AQ_emplace)) _ _ _ _);
    [vm_compute; reflexivity..|lia|].
  by exists LTable, false, true.
Defined.

Lemma mutexes_never_deadlock_witness :
  (∀ tid th m m', sy_threads race_state !! tid = Some th → m ∈ pc_holds (th_pc th) →
     pc_wants (th_pc th) = Some m' → mutex_rank m < mutex_rank m') ∧
  ∃ s', step race_state s'.
Proof.
  destruct (mutexes_never_deadlock race_state) as (_ & Hrank & [Hd|Hs]); split; try done.
  exfalso. assert (is_done (P_acquire 1 [] AQ_at) = true); [|done].
  apply (Hd 0 (mkThread [AppendOp 1 10; ReadOp 1] mixed_order 1 (P_acquire 1 [] AQ_at))).
  vm_compute. reflexivity.
Defined.
