(* ===== verification/Json.v ===== *)
(** * The JSON library the program uses

    [boost::json] is not part of the repository.  Its values and objects are
    parameters here, with the operations the sources call and the behaviour
    its documentation gives them; [tree_json] shows that the contract can be
    met and is what concrete examples run on. *)
From S2P Require Import Prelude Operations.

Inductive json_kind :=
  | kind_null | kind_bool | kind_int64 | kind_uint64 | kind_double
  | kind_string | kind_array | kind_object.

#[export] Instance json_kind_eq_dec : EqDecision json_kind.
Proof. solve_decision. Defined.

(** [value] with its converting constructors and checked accessors ([None]:
    the accessor throws), and [object] as a map from names to values. *)
Class Json := {
  value : Type;
  object : Type;
  kind : value → json_kind;
  v_null : value;
  v_bool : bool → value;
  v_int64 : Z → value;
  v_uint64 : Z → value;
  v_string : string → value;
  v_array : list value → value;
  v_object : object → value;
  as_bool : value → option bool;
  as_int64 : value → option Z;
  as_uint64 : value → option Z;
  as_string : value → option string;
  as_array : value → option (list value);
  as_object : value → option object;
  obj_empty : object;
  obj_at : object → string → option value;
  obj_set : object → string → value → object;
  obj_erase : object → string → object;
}.

Class JsonSpec `{Json} : Prop := {
  kind_of_null : kind v_null = kind_null;
  kind_of_bool b : kind (v_bool b) = kind_bool;
  kind_of_int64 z : kind (v_int64 z) = kind_int64;
  kind_of_uint64 z : kind (v_uint64 z) = kind_uint64;
  kind_of_string x : kind (v_string x) = kind_string;
  kind_of_array l : kind (v_array l) = kind_array;
  kind_of_object o : kind (v_object o) = kind_object;
  as_bool_spec v b : as_bool v = Some b ↔ v = v_bool b;
  as_int64_spec v z : as_int64 v = Some z ↔ v = v_int64 z;
  as_uint64_spec v z : as_uint64 v = Some z ↔ v = v_uint64 z;
  as_string_spec v x : as_string v = Some x ↔ v = v_string x;
  as_array_spec v l : as_array v = Some l ↔ v = v_array l;
  as_object_spec v o : as_object v = Some o ↔ v = v_object o;
  obj_at_empty k : obj_at obj_empty k = None;
  obj_at_set o k v k' : obj_at (obj_set o k v) k' = if decide (k = k') then Some v else obj_at o k';
  obj_at_erase o k k' : obj_at (obj_erase o k) k' = if decide (k = k') then None else obj_at o k';
}.

(** Serializing a value and parsing the text: a number keeps its value but is
    parsed as [int64] whenever it fits, and as [uint64] only above that. *)
Class JsonWire `{Json} := wire : value → value.

Class JsonWireSpec `{JsonWire} : Prop := {
  wire_null : wire v_null = v_null;
  wire_bool b : wire (v_bool b) = v_bool b;
  wire_int64 z : in_s 64 z → wire (v_int64 z) = v_int64 z;
  wire_uint64 z : in_u 64 z → wire (v_uint64 z) = if decide (z < 2 ^ 63)%Z then v_int64 z else v_uint64 z;
  wire_string x : wire (v_string x) = v_string x;
  wire_array l : wire (v_array l) = v_array (wire <$> l);
  wire_object o : ∃ o', wire (v_object o) = v_object o' ∧ ∀ k, obj_at o' k = wire <$> obj_at o k;
}.

(** An object as the receiver sees it: [boost::json::serialize] on one side,
    [boost::json::parse(...).as_object()] on the other. *)
Definition over_text `{JsonWire} (o : object) : object :=
  default obj_empty (as_object (wire (v_object o))).

Lemma obj_at_over_text `{Json, !JsonSpec, !JsonWire, !JsonWireSpec} o k :
  obj_at (over_text o) k = wire <$> obj_at o k.
Proof.
  unfold over_text. destruct (wire_object o) as (o' & -> & Ho).
  by rewrite (proj2 (as_object_spec _ o') eq_refl).
Qed.

Section derived.
Context `{Json}.

Definition contains (o : object) (k : string) : bool := bool_decide (is_Some (obj_at o k)).
Definition is_null (v : value) : bool := bool_decide (kind v = kind_null).
Definition is_object (v : value) : bool := bool_decide (kind v = kind_object).

(** Objects that differ at most in the order of their names. *)
Definition same_fields (o o' : object) : Prop := ∀ k, obj_at o k = obj_at o' k.

#[export] Instance same_fields_equiv : Equivalence same_fields.
Proof. split; [by intros o k|by intros o o' E k|intros o1 o2 o3 E1 E2 k; by rewrite E1]. Qed.
#[export] Instance contains_proper : Proper (same_fields ==> (=) ==> (=)) contains.
Proof. intros o o' E k ? <-. unfold contains. by rewrite E. Qed.

(** [o.at(k)] in code that may throw. *)
Definition at_ {S} (o : object) (k : string) : M S value := lift_opt "out_of_range" (obj_at o k).
#[export] Instance at_proper {S} : Proper (same_fields ==> (=) ==> (=)) (at_ (S := S)).
Proof. intros o o' E k ? <-. unfold at_. by rewrite E. Qed.
Definition int64_of {S} (v : value) : M S Z := lift_opt "not_int64" (as_int64 v).
Definition uint64_of {S} (v : value) : M S Z := lift_opt "not_uint64" (as_uint64 v).
Definition bool_of {S} (v : value) : M S bool := lift_opt "not_bool" (as_bool v).
Definition string_of {S} (v : value) : M S string := lift_opt "not_string" (as_string v).
Definition array_of {S} (v : value) : M S (list value) := lift_opt "not_array" (as_array v).
Definition object_of {S} (v : value) : M S object := lift_opt "not_object" (as_object v).
End derived.

(** A [std::string] built from [c_str()] stops at the first NUL character. *)
Fixpoint c_str (s : string) : string :=
  match s with
  | EmptyString => EmptyString
  | String a s' => if decide (a = Ascii.zero) then EmptyString else String a (c_str s')
  end.

Section accessors.
Context `{JsonSpec}.

Lemma as_bool_bool b : as_bool (v_bool b) = Some b.
Proof. by apply as_bool_spec. Qed.
Lemma as_int64_int64 z : as_int64 (v_int64 z) = Some z.
Proof. by apply as_int64_spec. Qed.
Lemma as_uint64_uint64 z : as_uint64 (v_uint64 z) = Some z.
Proof. by apply as_uint64_spec. Qed.
Lemma as_string_string x : as_string (v_string x) = Some x.
Proof. by apply as_string_spec. Qed.
Lemma as_array_array l : as_array (v_array l) = Some l.
Proof. by apply as_array_spec. Qed.
Lemma as_object_object o : as_object (v_object o) = Some o.
Proof. by apply as_object_spec. Qed.

(** An accessor of another kind throws. *)
Lemma as_uint64_other v : kind v ≠ kind_uint64 → as_uint64 v = None.
Proof.
  destruct (as_uint64 v) eqn:E; [|done]. apply as_uint64_spec in E as ->.
  by rewrite kind_of_uint64.
Qed.
Lemma contains_at o k v : obj_at o k = Some v → contains o k = true.
Proof. intros E. apply bool_decide_eq_true. by rewrite E. Qed.

Lemma contains_not o k : obj_at o k = None → contains o k = false.
Proof. intros E. apply bool_decide_eq_false. rewrite E. by intros [? ?]. Qed.
End accessors.

#[export] Hint Rewrite @as_bool_bool @as_int64_int64 @as_uint64_uint64 @as_string_string
  @as_array_array @as_object_object @obj_at_set @obj_at_erase @obj_at_empty
  using (typeclasses eauto) : json.

(** ** A model of the contract *)
Module Tree.
Inductive tree :=
  | TNull | TBool (b : bool) | TInt64 (z : Z) | TUint64 (z : Z) | TString (s : string)
  | TArray (l : list tree) | TObject (o : list (string * tree)).

Definition tree_kind (v : tree) : json_kind :=
  match v with
  | TNull => kind_null | TBool _ => kind_bool | TInt64 _ => kind_int64
  | TUint64 _ => kind_uint64 | TString _ => kind_string | TArray _ => kind_array
  | TObject _ => kind_object
  end.

Fixpoint lookup_name (o : list (string * tree)) (k : string) : option tree :=
  match o with
  | [] => None
  | (k0, v) :: o' => if decide (k0 = k) then Some v else lookup_name o' k
  end.

Definition erase_name (o : list (string * tree)) (k : string) : list (string * tree) :=
  filter (λ p, p.1 ≠ k) o.

Lemma lookup_erase o k k' :
  lookup_name (erase_name o k) k' = if decide (k = k') then None else lookup_name o k'.
Proof.
  induction o as [|[k0 v] o IH]; simpl; [by case_decide|].
  unfold erase_name in *. rewrite filter_cons. simpl.
  repeat case_decide; simpl; rewrite ?IH; repeat case_decide; congruence.
Qed.

#[export] Instance tree_json : Json := {|
  value := tree; object := list (string * tree); kind := tree_kind;
  v_null := TNull; v_bool := TBool; v_int64 := TInt64; v_uint64 := TUint64;
  v_string := TString; v_array := TArray; v_object := TObject;
  as_bool v := match v with TBool b => Some b | _ => None end;
  as_int64 v := match v with TInt64 z => Some z | _ => None end;
  as_uint64 v := match v with TUint64 z => Some z | _ => None end;
  as_string v := match v with TString s => Some s | _ => None end;
  as_array v := match v with TArray l => Some l | _ => None end;
  as_object v := match v with TObject o => Some o | _ => None end;
  obj_empty := []; obj_at := lookup_name;
  obj_set o k v := erase_name o k ++ [(k, v)];
  obj_erase := erase_name;
|}.

Lemma lookup_app o1 o2 k :
  lookup_name (o1 ++ o2) k =
    match lookup_name o1 k with Some v => Some v | None => lookup_name o2 k end.
Proof. induction o1 as [|[k0 v] o1 IH]; simpl; [done|]. by case_decide. Qed.

#[export] Instance tree_json_spec : JsonSpec.
Proof.
  split; simpl; try done; try (intros [] ?; simpl; naive_solver).
  - intros o k v k'. rewrite lookup_app, lookup_erase. simpl.
    case_decide; [done|]. by destruct (lookup_name o k').
  - apply lookup_erase.
Qed.

Fixpoint tree_wire (v : tree) : tree :=
  match v with
  | TUint64 z => if decide (z < 2 ^ 63)%Z then TInt64 z else TUint64 z
  | TArray l => TArray (map tree_wire l)
  | TObject o => TObject (map (λ p, (p.1, tree_wire p.2)) o)
  | _ => v
  end.

#[export] Instance tree_json_wire : JsonWire := tree_wire.

#[export] Instance tree_json_wire_spec : JsonWireSpec.
Proof.
  split; simpl; try done.
  intros o. exists (map (λ p, (p.1, tree_wire p.2)) o). split; [done|]. intros k.
  induction o as [|[k0 v] o IH]; simpl; [done|]. by case_decide.
Qed.
End Tree.

(** Unfold effectful code down to its [match]es. *)
Ltac mred := cbv beta iota zeta delta [catch_std catch_all throw mbind M_bind mret M_ret modify gets
  lift_opt at_ int64_of uint64_of bool_of string_of array_of object_of].

(** Evaluate reads of an object built by assignments. *)
Ltac jred := unfold contains, is_null, is_object; autorewrite with json;
  rewrite ?kind_of_null, ?kind_of_object, ?kind_of_array, ?kind_of_int64, ?kind_of_uint64,
    ?kind_of_string, ?kind_of_bool by typeclasses eauto;
  repeat (first [rewrite decide_True by done | rewrite decide_False by done]);
  autorewrite with json.
