(* ===== verification/Coordinator.v ===== *)
(** * Routing and the coordinator's messages

    [lib/include/transactions/DistributedCoordinator.h] and
    [lib/src/transactions/DistributedCoordinator.cpp]. *)
From S2P Require Import Prelude Operations KVStore Json.

Inductive DistTxMessage :=
  | LOCK_REQUEST | LOCK_GRANTED | LOCK_DENIED | LOCK_RELEASE
  | OPERATION_REQUEST | OPERATION_RESULT.

(** The underlying [uint8_t] of the enumerators, in declaration order. *)
Definition DistTxMessage_value (m : DistTxMessage) : Z :=
  match m with
  | LOCK_REQUEST => 0 | LOCK_GRANTED => 1 | LOCK_DENIED => 2 | LOCK_RELEASE => 3
  | OPERATION_REQUEST => 4 | OPERATION_RESULT => 5
  end.

Record DistributedCoordinator := mkCoordinator {
  co_local_node_id : NodeID;
  all_nodes : list NodeID;
}.

Definition get_local_node_id (c : DistributedCoordinator) : NodeID := co_local_node_id c.
Definition get_all_nodes (c : DistributedCoordinator) : list NodeID := all_nodes c.

(** ** Routing *)
Section routing.
Context `{StdHash}.

(** [None]: the remainder by an empty cluster's size is undefined. *)
Definition get_primary_node (c : DistributedCoordinator) (key : KeyType) : option NodeID :=
  let hash_value := hash_i64 key in
  if decide (length (all_nodes c) = 0) then None
  else Some (u16 (hash_value mod Z.of_nat (length (all_nodes c)))).

Definition is_local (c : DistributedCoordinator) (key : KeyType) : option bool :=
  primary ← get_primary_node c key;
  Some (bool_decide (primary = co_local_node_id c)).

Definition set_nodes (nodes : list NodeID) (c : DistributedCoordinator)
    : DistributedCoordinator :=
  mkCoordinator (co_local_node_id c) nodes.

Lemma get_primary_node_small c key :
  0 < length (all_nodes c) → (Z.of_nat (length (all_nodes c)) ≤ 2 ^ 16)%Z →
  get_primary_node c key = Some (hash_i64 key mod Z.of_nat (length (all_nodes c)))%Z.
Proof.
  intros Hpos Hsmall. unfold get_primary_node. rewrite decide_False by lia. f_equal.
  apply wrap_u_small. unfold in_u.
  pose proof (Z.mod_pos_bound (hash_i64 key) (Z.of_nat (length (all_nodes c)))). lia.
Qed.

(** A node whose id is at least the number of nodes is never the primary of any key:
    [get_primary_node] returns an index into the node list, not the id found there. *)
Lemma high_node_id_is_never_primary (c : DistributedCoordinator) (key : KeyType) :
  0 < length (all_nodes c) → (Z.of_nat (length (all_nodes c)) ≤ co_local_node_id c)%Z →
  is_local c key = Some false.
Proof.
  intros Hpos Hid. unfold is_local, get_primary_node. rewrite decide_False by lia. simpl.
  f_equal. apply bool_decide_eq_false. intros E.
  pose proof (Z.mod_pos_bound (hash_i64 key) (Z.of_nat (length (all_nodes c)))) as Hb.
  unfold u16, wrap_u in E.
  pose proof (Z.mod_le (hash_i64 key mod Z.of_nat (length (all_nodes c))) (2 ^ 16)). lia.
Qed.
End routing.

(** ** Messages *)
Section messages.
Context `{Json}.

Definition create_lock_request (tx_id : TransactionId) (key : KeyType) (timestamp : Z) : value :=
  let msg := obj_set obj_empty "type" (v_uint64 (DistTxMessage_value LOCK_REQUEST)) in
  let msg := obj_set msg "tx_id" (v_uint64 tx_id) in
  let msg := obj_set msg "key" (v_int64 key) in
  let msg := obj_set msg "timestamp" (v_uint64 timestamp) in
  v_object msg.

Definition create_lock_response (tx_id : TransactionId) (granted : bool) : value :=
  let msg := obj_set obj_empty "type" (v_uint64 (DistTxMessage_value LOCK_GRANTED)) in
  let msg := obj_set msg "tx_id" (v_uint64 tx_id) in
  let msg := obj_set msg "granted" (v_bool granted) in
  v_object msg.

Definition create_lock_release (tx_id : TransactionId) (key : KeyType) : value :=
  let msg := obj_set obj_empty "type" (v_uint64 (DistTxMessage_value LOCK_RELEASE)) in
  let msg := obj_set msg "tx_id" (v_uint64 tx_id) in
  let msg := obj_set msg "key" (v_int64 key) in
  v_object msg.

(** The output parameters are the state; those assigned before an accessor
    throws stay assigned. *)
Record RequestOut := { out_tx_id : Z; out_key : Z; out_timestamp : Z }.
Record ResponseOut := { out_resp_tx_id : Z; out_granted : bool }.

Definition parse_lock_request (msg : value) : M RequestOut bool :=
  catch_all
    (if is_object msg then
       obj ← object_of msg;
       if contains obj "tx_id" && contains obj "key" && contains obj "timestamp" then
         t ← (v ← at_ obj "tx_id"; uint64_of v);
         _ ← modify (λ o, {| out_tx_id := t; out_key := out_key o;
                             out_timestamp := out_timestamp o |});
         k ← (v ← at_ obj "key"; int64_of v);
         _ ← modify (λ o, {| out_tx_id := out_tx_id o; out_key := k;
                             out_timestamp := out_timestamp o |});
         ts ← (v ← at_ obj "timestamp"; uint64_of v);
         _ ← modify (λ o, {| out_tx_id := out_tx_id o; out_key := out_key o;
                             out_timestamp := ts |});
         mret true
       else mret false
     else mret false)
    (λ _, mret false).

Definition parse_lock_response (msg : value) : M ResponseOut bool :=
  catch_all
    (if is_object msg then
       obj ← object_of msg;
       if contains obj "tx_id" && contains obj "granted" then
         t ← (v ← at_ obj "tx_id"; uint64_of v);
         _ ← modify (λ o, {| out_resp_tx_id := t; out_granted := out_granted o |});
         g ← (v ← at_ obj "granted"; bool_of v);
         _ ← modify (λ o, {| out_resp_tx_id := out_resp_tx_id o; out_granted := g |});
         mret true
       else mret false
     else mret false)
    (λ _, mret false).
End messages.

Section message_theorems.
Context `{JsonSpec}.

Lemma parse_lock_request_fields obj t k ts out :
  obj_at obj "tx_id" = Some (v_uint64 t) → obj_at obj "key" = Some (v_int64 k) →
  obj_at obj "timestamp" = Some (v_uint64 ts) →
  parse_lock_request (v_object obj) out =
    (Ok true, {| out_tx_id := t; out_key := k; out_timestamp := ts |}).
Proof.
  intros Ht Hk Hts. unfold parse_lock_request, is_object. mred.
  rewrite kind_of_object, as_object_object, !(contains_at obj _ _ Ht),
    !(contains_at obj _ _ Hk), !(contains_at obj _ _ Hts). simpl.
  rewrite Ht, as_uint64_uint64. simpl. rewrite Hk, as_int64_int64. simpl.
  by rewrite Hts, as_uint64_uint64.
Qed.

(** A field of the wrong kind makes the parser return [false]. *)
Lemma parse_lock_request_bad_tx obj v out :
  obj_at obj "tx_id" = Some v → kind v ≠ kind_uint64 →
  parse_lock_request (v_object obj) out = (Ok false, out).
Proof.
  intros Ht Hkind. unfold parse_lock_request, is_object. mred.
  rewrite kind_of_object, as_object_object, (contains_at obj _ _ Ht).
  destruct (contains obj "key"), (contains obj "timestamp"); simpl; try done.
  by rewrite Ht, as_uint64_other.
Qed.

(** After serialization and parsing a small id is an int64 value, and the
    request is rejected. *)
Lemma wired_request_rejected `{!JsonWire, !JsonWireSpec} tx_id key timestamp out :
  (0 ≤ tx_id < 2 ^ 63)%Z →
  parse_lock_request (wire (create_lock_request tx_id key timestamp)) out = (Ok false, out).
Proof.
  intros Htx. unfold create_lock_request. edestruct wire_object as (o' & -> & Ho').
  eapply (parse_lock_request_bad_tx _ (v_int64 tx_id)); [|by rewrite kind_of_int64].
  rewrite Ho'. jred. simpl. rewrite wire_uint64 by (unfold in_u; lia).
  by rewrite decide_True by lia.
Qed.

(** C37. create_lock_request and parse_lock_request, and create_lock_response and
    parse_lock_response, are inverse on the value itself; the type field of a response says
    LOCK_GRANTED also for a refusal; and after a request has been serialized and parsed, an
    id below 2^63 is an int64 value, and parse_lock_request rejects the message and assigns
    nothing. *)
Theorem lock_message_roundtrips `{!JsonWire, !JsonWireSpec} tx_id key timestamp granted out out' :
  parse_lock_request (create_lock_request tx_id key timestamp) out =
    (Ok true, {| out_tx_id := tx_id; out_key := key; out_timestamp := timestamp |}) ∧
  parse_lock_response (create_lock_response tx_id granted) out' =
    (Ok true, {| out_resp_tx_id := tx_id; out_granted := granted |}) ∧
  (∃ obj, create_lock_response tx_id granted = v_object obj ∧
          obj_at obj "type" = Some (v_uint64 (DistTxMessage_value LOCK_GRANTED))) ∧
  ((0 ≤ tx_id < 2 ^ 63)%Z →
   parse_lock_request (wire (create_lock_request tx_id key timestamp)) out = (Ok false, out)).
Proof.
  split_and!.
  - apply parse_lock_request_fields; by jred.
  - unfold parse_lock_response, create_lock_response. mred. by jred.
  - eexists. split; [done|]. by jred.
  - apply wired_request_rejected.
Qed.
End message_theorems.

Import Tree.

Lemma lock_message_roundtrips_witness :
  parse_lock_response (create_lock_response 1 false)
    {| out_resp_tx_id := 0; out_granted := true |} =
    (Ok true, {| out_resp_tx_id := 1; out_granted := false |}) ∧
  parse_lock_request (wire (create_lock_request 1 (-5) 9))
    {| out_tx_id := 0; out_key := 0; out_timestamp := 0 |} =
    (Ok false, {| out_tx_id := 0; out_key := 0; out_timestamp := 0 |}).
Proof.
  destruct (lock_message_roundtrips 1 (-5) 9 false
    {| out_tx_id := 0; out_key := 0; out_timestamp := 0 |}
    {| out_resp_tx_id := 0; out_granted := true |}) as (_ & Hresp & _ & Hwire).
  split; [exact Hresp|]. apply Hwire. lia.
Defined.
