(* ===== verification/Scheduler.v ===== *)
(** * The two-phase locking scheduler

    [lib/include/transactions/impl/TwoPLScheduler.h] and
    [lib/src/transactions/impl/TwoPLScheduler.cpp]: the scheduler's state and
    the path a transaction takes through it, local and remote.  A method is
    code over the state ([M]); what the other threads of the node do while it
    waits is an argument, and the calls on the transaction server, whose
    implementation is not in the repository, are recorded in order, each with
    an outcome that is a parameter. *)
From S2P Require Import Prelude Operations KVStore LockManager Json Coordinator.

(** [namespace MessageType]. *)
Module MessageType.
Definition LOCK_REQUEST : string := "lock_req".
Definition LOCK_GRANTED : string := "lock_granted".
Definition LOCK_DENIED : string := "lock_denied".
Definition LOCK_RELEASE : string := "lock_rel".
Definition OP_REQUEST : string := "op_req".
Definition OP_RESPONSE : string := "op_resp".
Definition TXN_PREPARE : string := "txn_prep".
Definition TXN_COMMIT : string := "txn_commit".
Definition TXN_ABORT : string := "txn_abort".
End MessageType.

(** ** State *)

(** The node's identity, written by [start] only. *)
Record NodeState := mkNode {
  base_id : NodeID;                              (* TransactionManager::_id *)
  local_node_id : NodeID;
  num_nodes : Z;
  coordinator : option DistributedCoordinator;
  stop_listener : bool;
  listener_joinable : bool;                      (* message_listener_thread *)
}.

(** What [distributed_mutex] protects. *)
Record RemoteState := mkRemote {
  pending_remote_locks : gmap TransactionId (gmap NodeID (gset KeyType));
  granted_remote_locks : gmap TransactionId (gset KeyType);
  remote_results : gmap TransactionId (gmap KeyType ValueContainer);
  pending_remote_ops : gmap TransactionId (gset (NodeID * KeyType));
}.

Definition set_pending_locks p (r : RemoteState) : RemoteState :=
  mkRemote p (granted_remote_locks r) (remote_results r) (pending_remote_ops r).
Definition set_results x (r : RemoteState) : RemoteState :=
  mkRemote (pending_remote_locks r) (granted_remote_locks r) x (pending_remote_ops r).
Definition set_pending_ops p (r : RemoteState) : RemoteState :=
  mkRemote (pending_remote_locks r) (granted_remote_locks r) (remote_results r) p.

Section scheduler.
Context {S : Type} `{KVStore S} `{OpExecutor S} `{Json} `{StdHash} `{!Iteration Z}.

(** A call on the [TransactionServer]. *)
Inductive ServerCall :=
  | Startup (id : NodeID) (peers : list NodeID)
  | Send (peer : NodeID) (message : object).

(** The exception a call ends with, if any; it may depend on all earlier calls. *)
Class TransactionServer := call_throws : list ServerCall → ServerCall → option exn.
Context `{TransactionServer}.

Record Scheduler := mkScheduler {
  lock_manager : LockManager;
  store : S;
  next_tx_id : TransactionId;
  node : NodeState;
  remote : RemoteState;
  calls : list ServerCall;
}.

Definition set_lock_manager l (s : Scheduler) : Scheduler :=
  mkScheduler l (store s) (next_tx_id s) (node s) (remote s) (calls s).
Definition set_store x (s : Scheduler) : Scheduler :=
  mkScheduler (lock_manager s) x (next_tx_id s) (node s) (remote s) (calls s).
Definition set_next x (s : Scheduler) : Scheduler :=
  mkScheduler (lock_manager s) (store s) x (node s) (remote s) (calls s).
Definition set_node x (s : Scheduler) : Scheduler :=
  mkScheduler (lock_manager s) (store s) (next_tx_id s) x (remote s) (calls s).
Definition set_remote x (s : Scheduler) : Scheduler :=
  mkScheduler (lock_manager s) (store s) (next_tx_id s) (node s) x (calls s).
Definition set_calls x (s : Scheduler) : Scheduler :=
  mkScheduler (lock_manager s) (store s) (next_tx_id s) (node s) (remote s) x.

Definition on_locks {A} : M LockManager A → M Scheduler A := zoom lock_manager set_lock_manager.
Definition on_store {A} : M S A → M Scheduler A := zoom store set_store.
Definition on_remote (f : RemoteState → RemoteState) : M Scheduler unit :=
  modify (λ s, set_remote (f (remote s)) s).

Definition server_call (c : ServerCall) : M Scheduler unit := λ s,
  let s' := set_calls (calls s ++ [c]) s in
  match call_throws (calls s) c with
  | None => (Ok tt, s')
  | Some e => (Throw e, s')
  end.
Definition send (peer : NodeID) (message : object) : M Scheduler unit :=
  server_call (Send peer message).

(** The constructor: the members' initializers.  [base_id] is whatever the
    base class leaves in [_id]. *)
Definition new_scheduler (st : S) (base_id : NodeID) : Scheduler :=
  mkScheduler new_lock_manager st 1 (mkNode base_id 0 1 None false false)
    (mkRemote ∅ ∅ ∅ ∅) [].

(** ** What other threads do while a call waits

    A wait on a condition variable with a deadline ends a finite number of
    times before the deadline: a list of wake-ups, each with the state
    changes other threads made meanwhile, and a timeout at the latest when
    the list is used up. *)
Inductive cv_status := no_timeout | timeout.
Definition Wakeups : Type := list (cv_status * (Scheduler → Scheduler)).

(** A remote operation takes [distributed_mutex] after others may have had it,
    and gives it up also between sending the request and waiting, and between
    waiting and fetching the result. *)
Record OpWait := {
  before_call : Scheduler → Scheduler;
  before_wait : Scheduler → Scheduler;
  op_wakeups : Wakeups;
  before_result : Scheduler → Scheduler;
}.
Definition only_wakeups (w : Wakeups) : OpWait :=
  {| before_call := id; before_wait := id; op_wakeups := w; before_result := id |}.

Record Environment := {
  env_acquire : KeyType → Interference;
  env_lock_wait : Wakeups;
  env_op_wait : nat → OpWait;    (* by the operation's position *)
}.

Definition quiet : Environment :=
  {| env_acquire := λ _, no_interference; env_lock_wait := [];
     env_op_wait := λ _, only_wakeups [] |}.

(** ** Messages *)
Definition tx_key_message (type : string) (tx_id : TransactionId) (key : KeyType) : object :=
  obj_set (obj_set (obj_set obj_empty "type" (v_string type)) "tx_id" (v_uint64 tx_id))
    "key" (v_int64 key).

Definition op_request (tx_id : TransactionId) (op : Operation) : object :=
  let request := tx_key_message MessageType.OP_REQUEST tx_id (op_key op) in
  match op_type op with
  | APPEND => obj_set (obj_set request "op_type" (v_string "append")) "value" (v_int64 (op_value op))
  | READ => obj_set request "op_type" (v_string "read")
  end.

(** ** Locks *)
Definition is_local_key (s : Scheduler) (key : KeyType) : option bool :=
  match coordinator (node s) with
  | Some c => is_local c key
  | None => Some true
  end.

(** The keys of a map from nodes to key sets, in the iteration order of the
    container [c] that holds it. *)
Definition node_keys (c : Container) (m : gmap NodeID (gset KeyType)) : list (NodeID * KeyType) :=
  n ← iter_order c (dom m);
  k ← iter_order (KeysAt c n) (set_at m n);
  [(n, k)].

(** Send one message per node and key. *)
Definition send_each (type : string) (tx_id : TransactionId) (l : list (NodeID * KeyType))
    : M Scheduler unit :=
  for_each l (λ p, send p.1 (tx_key_message type tx_id p.2)).

(** [pending_remote_locks[tx_id]], which inserts an empty map if there is none. *)
Definition pending_at (tx_id : TransactionId) (r : RemoteState) : gmap NodeID (gset KeyType) :=
  default ∅ (pending_remote_locks r !! tx_id).
Definition touch_pending (tx_id : TransactionId) (r : RemoteState) : RemoteState :=
  set_pending_locks (<[tx_id := pending_at tx_id r]> (pending_remote_locks r)) r.
(** [pending_remote_locks[tx_id][node_id].insert(key)] *)
Definition add_pending (tx_id : TransactionId) (n : NodeID) (k : KeyType) (r : RemoteState)
    : RemoteState :=
  let m := pending_at tx_id r in
  set_pending_locks (<[tx_id := <[n := {[k]} ∪ set_at m n]> m]> (pending_remote_locks r)) r.
Definition erase_pending (tx_id : TransactionId) (r : RemoteState) : RemoteState :=
  set_pending_locks (delete tx_id (pending_remote_locks r)) r.

(** The branch taken when the deadline passes. *)
Definition lock_wait_timeout (tx_id : TransactionId) : M Scheduler bool :=
  _ ← on_remote (touch_pending tx_id);
  pending ← gets (λ s, pending_at tx_id (remote s));
  _ ← send_each MessageType.LOCK_RELEASE tx_id (node_keys (PendingLocks tx_id) pending);
  _ ← on_remote (erase_pending tx_id);
  mret false.

Fixpoint lock_wait (wakes : Wakeups) (tx_id : TransactionId) : M Scheduler bool :=
  _ ← on_remote (touch_pending tx_id);
  pending ← gets (λ s, pending_at tx_id (remote s));
  if decide (pending = ∅) then mret true
  else match wakes with
       | (no_timeout, f) :: wakes' => _ ← modify f; lock_wait wakes' tx_id
       | (timeout, f) :: _ => _ ← modify f; lock_wait_timeout tx_id
       | [] => lock_wait_timeout tx_id
       end.

Definition acquire_remote_locks_with_retry (wakes : Wakeups)
    (remote_keys : gmap NodeID (gset KeyType)) (tx_id : TransactionId) : M Scheduler bool :=
  _ ← for_each (node_keys (RemoteKeys tx_id) remote_keys) (λ p, on_remote (add_pending tx_id p.1 p.2));
  _ ← send_each MessageType.LOCK_REQUEST tx_id (node_keys (RemoteKeys tx_id) remote_keys);
  lock_wait wakes tx_id.

(** The loop over the local keys: [false] once a lock is refused. *)
Fixpoint acquire_local (env : KeyType → Interference) (keys : list KeyType)
    (tx_id : TransactionId) : M Scheduler bool :=
  match keys with
  | [] => mret true
  | key :: keys' =>
      result ← on_locks (acquire (env key) key tx_id);
      match result with
      | ABORTED =>
          _ ← on_locks (modify (release_all tx_id));
          mret false
      | ACQUIRED => acquire_local env keys' tx_id
      end
  end.

Definition acquire_all_locks (env : Environment) (node_to_keys : gmap NodeID (gset KeyType))
    (tx_id : TransactionId) : M Scheduler bool :=
  local_id ← gets (λ s, local_node_id (node s));
  let local_keys := set_at node_to_keys local_id in
  let remote_keys := delete local_id node_to_keys in
  ok ← acquire_local (env_acquire env) (iter_order (LocalKeys tx_id) local_keys) tx_id;
  match ok with
  | false => mret false
  | true =>
      if decide (remote_keys = ∅) then mret true
      else
        ok' ← acquire_remote_locks_with_retry (env_lock_wait env) remote_keys tx_id;
        match ok' with
        | true => mret true
        | false =>
            _ ← on_locks (modify (release_all tx_id));
            mret false
        end
  end.

Definition release_all_locks (node_to_keys : gmap NodeID (gset KeyType))
    (tx_id : TransactionId) : M Scheduler unit :=
  _ ← on_locks (modify (release_all tx_id));
  local_id ← gets (λ s, local_node_id (node s));
  send_each MessageType.LOCK_RELEASE tx_id
    (filter (λ p, p.1 ≠ local_id) (node_keys (NodeToKeys tx_id) node_to_keys)).

(** ** Operations *)
Definition ops_at (tx_id : TransactionId) (r : RemoteState) : gset (NodeID * KeyType) :=
  set_at (pending_remote_ops r) tx_id.
(** [pending_remote_ops[tx_id].insert({n, k})] *)
Definition add_pending_op (tx_id : TransactionId) (p : NodeID * KeyType) (r : RemoteState)
    : RemoteState :=
  set_pending_ops (<[tx_id := {[p]} ∪ ops_at tx_id r]> (pending_remote_ops r)) r.
(** [pending_remote_ops[tx_id].erase({n, k})], which creates the set if there is none. *)
Definition erase_pending_op (tx_id : TransactionId) (p : NodeID * KeyType) (r : RemoteState)
    : RemoteState :=
  set_pending_ops (<[tx_id := ops_at tx_id r ∖ {[p]}]> (pending_remote_ops r)) r.

(** [true]: the pair is no longer waited for; [false]: the deadline passed. *)
Fixpoint op_wait (wakes : Wakeups) (tx_id : TransactionId) (p : NodeID * KeyType)
    : M Scheduler bool :=
  waiting ← gets (λ s, bool_decide (p ∈ ops_at tx_id (remote s)));
  if (waiting : bool) then
    match wakes with
    | (no_timeout, f) :: wakes' => _ ← modify f; op_wait wakes' tx_id p
    | (timeout, f) :: _ =>
        _ ← modify f;
        _ ← on_remote (erase_pending_op tx_id p);
        mret false
    | [] =>
        _ ← on_remote (erase_pending_op tx_id p);
        mret false
    end
  else mret true.

Definition execute_remote_operation (w : OpWait) (target_node : NodeID)
    (tx_id : TransactionId) (op : Operation) : M Scheduler (option ValueContainer) :=
  catch_all
    (_ ← modify (before_call w);
     _ ← on_remote (add_pending_op tx_id (target_node, op_key op));
     _ ← send target_node (op_request tx_id op);
     _ ← modify (before_wait w);
     arrived ← op_wait (op_wakeups w) tx_id (target_node, op_key op);
     if (arrived : bool)
     then _ ← modify (before_result w);
          gets (λ s, m ← remote_results (remote s) !! tx_id; m !! op_key op)
     else mret None)
    (λ _, mret None).

(** [std::async] with [std::launch::deferred]: nothing runs before the
    returned future is asked for its value. *)
Definition execute_remote_op (w : OpWait) (target_node : NodeID) (tx_id : TransactionId)
    (op : Operation) : M Scheduler (M Scheduler (option ValueContainer)) :=
  mret (execute_remote_operation w target_node tx_id op).

(** [op->Accept(&visitor)] with a fresh visitor, and the pair a read reports. *)
Definition execute_locally (op : Operation) : M Scheduler Reads :=
  v ← on_store (visit op new_executor);
  mret (match op_type op with READ => [(op_key op, (exec_result v).1)] | APPEND => [] end).

(** The loop of phase 2.  [i] is the operation's position. *)
Fixpoint execute_operations (env : Environment) (key_to_node : gmap KeyType NodeID)
    (tx_id : TransactionId) (i : nat) (tx : Transaction) (results : Reads) : M Scheduler Reads :=
  match tx with
  | [] => mret results
  | op :: tx' =>
      local_id ← gets (λ s, local_node_id (node s));
      let key := op_key op in
      let primary := default 0%Z (key_to_node !! key) in
      if decide (primary = local_id) then
        r ← execute_locally op;
        execute_operations env key_to_node tx_id (Datatypes.S i) tx' (results ++ r)
      else
        remote_result ← execute_remote_operation (env_op_wait env i) primary tx_id op;
        execute_operations env key_to_node tx_id (Datatypes.S i) tx'
          (match remote_result with Some v => results ++ [(key, Some v)] | None => results end)
  end.

(** The primary of a key; undefined behaviour of the coordinator shows as a
    throw here (it needs an empty cluster, which [start] never creates). *)
Definition primary_of (key : KeyType) : M Scheduler NodeID :=
  local ← (o ← gets (λ s, is_local_key s key); lift_opt "undefined" o);
  if (local : bool) then gets (λ s, local_node_id (node s))
  else
    o ← gets (λ s, c ← coordinator (node s); get_primary_node c key);
    lift_opt "undefined" o.

(** Categorize keys by their primary node. *)
Fixpoint categorize (tx : Transaction) (key_to_node : gmap KeyType NodeID)
    (node_to_keys : gmap NodeID (gset KeyType))
    : M Scheduler (gmap KeyType NodeID * gmap NodeID (gset KeyType)) :=
  match tx with
  | [] => mret (key_to_node, node_to_keys)
  | op :: tx' =>
      let key := op_key op in
      primary ← primary_of key;
      categorize tx' (<[key := primary]> key_to_node)
        (<[primary := {[key]} ∪ set_at node_to_keys primary]> node_to_keys)
  end.

Definition execute_with_distributed_support (env : Environment) (tx : Transaction)
    (tx_id : TransactionId) : M Scheduler Reads :=
  '(key_to_node, node_to_keys) ← categorize tx ∅ ∅;
  acquired ← acquire_all_locks env node_to_keys tx_id;
  match acquired with
  | false => mret []
  | true =>
      catch_all
        (results ← execute_operations env key_to_node tx_id 0 tx [];
         _ ← release_all_locks node_to_keys tx_id;
         mret results)
        (λ e, _ ← release_all_locks node_to_keys tx_id; throw e)
  end.

(** [next_tx_id.fetch_add(1)], then the above. *)
Definition execute_transaction (env : Environment) (tx : Transaction) : M Scheduler Reads :=
  tx_id ← gets next_tx_id;
  _ ← modify (set_next (u64 (tx_id + 1)));
  execute_with_distributed_support env tx tx_id.

(** ** The single-node variant [execute_with_id] *)
Fixpoint visit_all (v : executor) (tx : Transaction) (results : Reads) : M Scheduler Reads :=
  match tx with
  | [] => mret results
  | op :: tx' =>
      v' ← on_store (visit op v);
      match op_type op with
      | READ => let '(r, v'') := exec_result v' in visit_all v'' tx' (results ++ [(op_key op, r)])
      | APPEND => visit_all v' tx' results
      end
  end.

Definition execute_with_id (env : Environment) (tx : Transaction) (tx_id : TransactionId)
    : M Scheduler (Reads * bool) :=
  catch_all
    (let keys_to_lock := list_to_set (op_key <$> tx) : gset KeyType in
     acquired ← acquire_local (env_acquire env) (iter_order (KeysToLock tx_id) keys_to_lock) tx_id;
     match acquired with
     | false => mret ([], false)
     | true =>
         results ← visit_all new_executor tx [];
         _ ← on_locks (modify (release_all tx_id));
         mret (results, true)
     end)
    (λ e, _ ← on_locks (modify (release_all tx_id)); throw e).
End scheduler.
Arguments ServerCall {_}.
Arguments Scheduler S {_}.

(** ** The parameters instantiated

    A node over a flat map, with a JSON tree, the identity hash and a server
    whose calls never throw. *)
Module Demo.
Export Tree.
Abbreviation demo_store := (gmap KeyType ValueContainer).

#[export] Existing Instance flat_store.
#[export] Existing Instance flat_store_spec.
#[export] Existing Instance identity_hash.
#[export] Instance demo_executor : OpExecutor demo_store := last_read_executor _.
#[export] Instance demo_executor_spec : OpExecutorSpec demo_store := last_read_executor_spec _.
#[export] Instance reliable_server : TransactionServer := λ _ _, None.
(** A server without connections. *)
Definition broken_server : TransactionServer := λ _ _, Some (StdException "not connected").

(** Key 1 holds [[10]] and is locked by transaction 99. *)
Definition busy_locks : LockManager :=
  (acquire no_interference 1 99 new_lock_manager).2.
Definition demo_node : Scheduler demo_store := new_scheduler {[ 1%Z := [10%Z] ]} 0.
Definition busy_node : Scheduler demo_store := set_lock_manager busy_locks demo_node.
(** Node 0 of the cluster [0, 1]: odd keys are remote. *)
Definition clustered_node : Scheduler demo_store :=
  set_node (mkNode 0 0 2 (Some (mkCoordinator 0 [0%Z; 1%Z])) false true) demo_node.
End Demo.
