(* ===== verification/SchedulerLocal.v ===== *)
(** * Transactions whose keys are all local

    What [execute_transaction] does on a node without a coordinator, where
    every key is local: all locks or none, all operations or none, and no
    lock left behind whatever the interference and the executor do. *)
From S2P Require Import Prelude Operations KVStore LockManager Json Coordinator Scheduler.

Section local_execution.
Context {S : Type} `{KVStore S} `{OpExecutor S} `{Json} `{StdHash} `{!Iteration Z}
  `{!TransactionServer}.
Implicit Types (s : Scheduler S) (t : TransactionId) (tx : Transaction).

(** Interference that keeps to the lock manager's protocol. *)
Definition fair_env t (env : KeyType → Interference) : Prop := ∀ k, respects t (env k).

Lemma fair_quiet t : fair_env t (λ _, no_interference).
Proof. intros k. apply respects_none. Qed.

Lemma on_locks_run {A} (m : M LockManager A) s r l :
  m (lock_manager s) = (r, l) → on_locks m s = (r, set_lock_manager l s).
Proof. intros E. unfold on_locks, zoom. by rewrite E. Qed.

Lemma on_store_run {A} (m : M S A) s r st :
  m (store s) = (r, st) → on_store m s = (r, set_store st s).
Proof. intros E. unfold on_store, zoom. by rewrite E. Qed.

Lemma bind_on_remote {B} f (k : unit → M (Scheduler S) B) s :
  (on_remote f ≫= k) s = k tt (set_remote (f (remote s)) s).
Proof. done. Qed.

Lemma release_all_run t s :
  on_locks (modify (release_all t)) s =
    (Ok tt, set_lock_manager (release_all t (lock_manager s)) s).
Proof. done. Qed.

(** ** The growing phase *)

(** With the locks of [done] held, the loop ends holding those of [keys]
    too, or holding nothing. *)
Lemma acquire_local_spec env keys t s :
  fair_env t env → tracked t (lock_manager s) →
  ∃ b l', acquire_local env keys t s = (Ok b, set_lock_manager l' s) ∧ tracked t l' ∧
    (b = true → (∀ k, k ∈ keys → owner_of l' k = Some t) ∧
                (∀ k, k ∉ keys → owner_of l' k = Some t ↔ owner_of (lock_manager s) k = Some t)) ∧
    (b = false → idle t l').
Proof.
  intros Henv. revert s. induction keys as [|key keys IH]; intros s Htr; simpl.
  { exists true, (lock_manager s). split_and!; [by destruct s|done|set_solver|done]. }
  destruct (acquire_post (env key) key t (lock_manager s)) as (r & l1 & Hacq & Hr & Hh & Hk);
    [apply Henv|].
  pose proof (acquire_tracked key t (env key) (lock_manager s) (Henv key) Htr) as Htr1.
  rewrite Hacq in Htr1. simpl in Htr1.
  rewrite (bind_ok _ _ _ _ _ (on_locks_run _ _ _ _ Hacq)). destruct r.
  - destruct (IH (set_lock_manager l1 s) Htr1) as (b & l' & Hrun & Htr' & Htrue & Hfalse).
    exists b, l'. split_and!; [done|done| |done]. intros Hb.
    destruct (Htrue Hb) as [Hin Hout]. simpl in Hout.
    assert (Hkey : owner_of l1 key = Some t) by naive_solver. split.
    + intros k [->|Hk']%elem_of_cons; [|by apply Hin].
      destruct (decide (key ∈ keys)); [by apply Hin|by apply Hout].
    + intros k [Hne Hk']%not_elem_of_cons. rewrite Hout, <- Hk; done.
  - rewrite (bind_ok _ _ _ _ _ (release_all_run t (set_lock_manager l1 s))).
    destruct (release_all_post t l1 Htr1) as (Hidle & _).
    exists false, (release_all t l1). split_and!; [done|by apply idle_tracked|done..].
Qed.

(** ** Routing without a coordinator *)
Lemma categorize_local tx m n s :
  coordinator (node s) = None →
  ∃ m' n', categorize tx m n s = (Ok (m', n'), s) ∧
    set_at n' (local_node_id (node s)) = tx_keys tx ∪ set_at n (local_node_id (node s)) ∧
    delete (local_node_id (node s)) n' = delete (local_node_id (node s)) n ∧
    (∀ k, k ∈ tx_keys tx → m' !! k = Some (local_node_id (node s))) ∧
    (∀ k, k ∉ tx_keys tx → m' !! k = m !! k).
Proof.
  intros Hc. set (L := local_node_id (node s)).
  assert (Hprim : ∀ k, primary_of k s = (Ok L, s)).
  { intros k. unfold primary_of, is_local_key. mred. by rewrite Hc. }
  revert m n. induction tx as [|op tx IH]; intros m n; simpl.
  { exists m, n. split_and!; try done; set_solver. }
  destruct (IH (<[op_key op := L]> m) (<[L := {[op_key op]} ∪ set_at n L]> n))
    as (m' & n' & Hrun & Hn & Hd & Hin & Hout).
  exists m', n'. split_and!.
  - by rewrite (bind_ok _ _ _ _ _ (Hprim _)).
  - rewrite Hn, set_at_insert, decide_True by done. set_solver.
  - by rewrite Hd, delete_insert_eq.
  - intros k Hk. destruct (decide (k ∈ tx_keys tx)) as [Hk'|Hk']; [by apply Hin|].
    rewrite Hout by done. assert (k = op_key op) as -> by set_solver. apply lookup_insert_eq.
  - intros k Hk. rewrite Hout by set_solver. apply lookup_insert_ne. set_solver.
Qed.

(** ** The execution phase *)

Lemma execute_locally_run op s :
  execute_locally op s =
    match visit op new_executor (store s) with
    | (Ok v, st) => (Ok match op_type op with
                        | READ => [(op_key op, (exec_result v).1)]
                        | APPEND => []
                        end, set_store st s)
    | (Throw e, st) => (Throw e, set_store st s)
    end.
Proof.
  unfold execute_locally, on_store, zoom. mred.
  by destruct (visit op new_executor (store s)) as [[]?].
Qed.

(** Local operations change the store only. *)
Lemma execute_operations_local env m t i tx res s :
  (∀ k, k ∈ tx_keys tx → m !! k = Some (local_node_id (node s))) →
  ∃ r st, execute_operations env m t i tx res s = (r, set_store st s).
Proof.
  revert i res s. induction tx as [|op tx IH]; intros i res s Hm; simpl.
  { exists (Ok res), (store s). by destruct s. }
  rewrite bind_gets.
  rewrite Hm by set_solver. simpl. rewrite decide_True by done.
  pose proof (execute_locally_run op s) as Hop.
  destruct (visit op new_executor (store s)) as [[v|e] st].
  - rewrite (bind_ok _ _ _ _ _ Hop). apply (IH _ _ (set_store st s)). set_solver.
  - exists (Throw e), st. by apply bind_throw.
Qed.

Lemma execute_operations_reads `{!KVStoreSpec S} `{!OpExecutorSpec S} env m t i tx res s :
  (∀ k, k ∈ tx_keys tx → m !! k = Some (local_node_id (node s))) →
  execute_operations env m t i tx res s =
    (Ok (res ++ tx_reads tx (store s)), set_store (apply_tx tx (store s)) s).
Proof.
  revert i res s. induction tx as [|op tx IH]; intros i res s Hm; simpl.
  { rewrite app_nil_r. by destruct s. }
  rewrite bind_gets.
  rewrite Hm by set_solver. simpl. rewrite decide_True by done.
  destruct (visit_spec op new_executor (store s)) as (v & Hv & Hres).
  pose proof (execute_locally_run op s) as Hop. rewrite Hv in Hop.
  rewrite (bind_ok _ _ _ _ _ Hop).
  rewrite (IH _ _ (set_store (apply_op op (store s)) s)) by set_solver. simpl.
  do 2 f_equal. rewrite <- (assoc_L (++)). do 2 f_equal.
  destruct op; simpl in *; [by rewrite Hres|done].
Qed.

(** ** The shrinking phase: with every key local, no message is sent *)
Lemma release_all_locks_local n t s :
  delete (local_node_id (node s)) n = ∅ →
  release_all_locks n t s =
    (Ok tt, set_lock_manager (release_all t (lock_manager s)) s).
Proof.
  intros Hd. unfold release_all_locks. mred. simpl.
  assert (Hnil : filter (λ p, p.1 ≠ local_node_id (node s)) (node_keys (NodeToKeys t) n) = []).
  { apply elem_of_nil_inv. intros [n0 k] [Hne Hin]%list_elem_of_filter. simpl in Hne.
    unfold node_keys in Hin. apply list_elem_of_bind in Hin as (n1 & Hin & Hn1).
    apply list_elem_of_bind in Hin as (k1 & Hin & _). apply list_elem_of_singleton in Hin.
    simplify_eq. apply elem_of_iter_order, elem_of_dom in Hn1 as [X HX].
    assert (E : delete (local_node_id (node s)) n !! n1 = Some X)
      by by rewrite lookup_delete_ne.
    by rewrite Hd, lookup_empty in E. }
  by rewrite Hnil.
Qed.

Lemma acquire_all_locks_local env n t s :
  fair_env t (env_acquire env) → tracked t (lock_manager s) →
  delete (local_node_id (node s)) n = ∅ →
  acquire_all_locks env n t s =
    acquire_local (env_acquire env) (iter_order (LocalKeys t) (set_at n (local_node_id (node s)))) t s.
Proof.
  intros Henv Htr Hd. unfold acquire_all_locks. rewrite bind_gets.
  edestruct acquire_local_spec as (b & l' & Hrun & _); [done..|].
  rewrite (bind_ok _ _ _ _ _ Hrun), Hrun. destruct b; [|done].
  by rewrite decide_True.
Qed.

(** The whole call on a node without a coordinator: lock every key or none,
    then run the operations and release. *)
Lemma local_run env tx t s :
  coordinator (node s) = None → fair_env t (env_acquire env) → tracked t (lock_manager s) →
  ∃ b l1 m, acquire_local (env_acquire env) (iter_order (LocalKeys t) (tx_keys tx)) t s =
              (Ok b, set_lock_manager l1 s) ∧ tracked t l1 ∧ (b = false → idle t l1) ∧
    (∀ k, k ∈ tx_keys tx → m !! k = Some (local_node_id (node s))) ∧
    execute_with_distributed_support env tx t s =
      if b then
        let '(r, s2) := execute_operations env m t 0 tx [] (set_lock_manager l1 s) in
        (r, set_lock_manager (release_all t l1) s2)
      else (Ok [], set_lock_manager l1 s).
Proof.
  intros Hc Henv Htr.
  destruct (categorize_local tx ∅ ∅ s Hc) as (m & n & Hcat & Hn & Hd & Hm & _).
  rewrite set_at_empty, (right_id_L ∅ (∪)) in Hn. rewrite delete_empty in Hd.
  destruct (acquire_local_spec (env_acquire env) (iter_order (LocalKeys t) (tx_keys tx)) t s Henv Htr)
    as (b & l1 & Hacq & Htr1 & _ & Hidle).
  exists b, l1, m. split_and!; [done..|].
  unfold execute_with_distributed_support. rewrite (bind_ok _ _ _ _ _ Hcat).
  rewrite <- Hn in Hacq. rewrite <- (acquire_all_locks_local env n t s) in Hacq by done.
  rewrite (bind_ok _ _ _ _ _ Hacq). destruct b; [|done].
  destruct (execute_operations_local env m t 0 tx [] (set_lock_manager l1 s)) as (r & st & Hops);
    [done|].
  pose proof (release_all_locks_local n t (set_store st (set_lock_manager l1 s)) Hd) as Hrel.
  unfold catch_all. destruct r as [r|e].
  - rewrite (bind_ok _ _ _ _ _ Hops), (bind_ok _ _ _ _ _ Hrel), Hops. done.
  - rewrite (bind_throw _ _ _ _ _ Hops), (bind_ok _ _ _ _ _ Hrel), Hops. done.
Qed.

(** C19. No leak even on exceptions: with every key local, whatever the operation executor
    does - including throwing any exception in the middle of a transaction - and whatever
    protocol-conforming threads do to the lock table, execute_transaction leaves its
    transaction with no lock and no tracked key, and changes nothing but the lock table, the
    store and the transaction counter. *)
Theorem local_execution_never_leaks_locks env tx s :
  coordinator (node s) = None →
  fair_env (next_tx_id s) (env_acquire env) → tracked (next_tx_id s) (lock_manager s) →
  ∃ r l' st, execute_transaction env tx s =
               (r, set_lock_manager l' (set_store st (set_next (u64 (next_tx_id s + 1)) s))) ∧
    idle (next_tx_id s) l'.
Proof.
  intros Hc Henv Htr. unfold execute_transaction. rewrite bind_gets, bind_modify.
  set (s1 := set_next (u64 (next_tx_id s + 1)) s).
  destruct (local_run env tx (next_tx_id s) s1) as (b & l1 & m & _ & Htr1 & Hidle & Hm & ->);
    [done..|]. destruct b.
  - destruct (execute_operations_local env m (next_tx_id s) 0 tx [] (set_lock_manager l1 s1))
      as (r & st & ->); [done|].
    destruct (release_all_post (next_tx_id s) l1 Htr1) as (Hidle2 & _).
    by exists r, (release_all (next_tx_id s) l1), st.
  - exists (Ok []), l1, (store s). split; [done|by apply Hidle].
Qed.

(** All of the transaction's effect with its reads, or none of it. *)
Lemma local_execution_outcome `{!KVStoreSpec S} `{!OpExecutorSpec S} env tx s :
  coordinator (node s) = None →
  fair_env (next_tx_id s) (env_acquire env) → tracked (next_tx_id s) (lock_manager s) →
  ∃ l', let done := set_lock_manager l' (set_next (u64 (next_tx_id s + 1)) s) in
    idle (next_tx_id s) l' ∧
    (execute_transaction env tx s = (Ok (tx_reads tx (store s)),
                                     set_store (apply_tx tx (store s)) done) ∨
     execute_transaction env tx s = (Ok [], done)).
Proof.
  intros Hc Henv Htr. unfold execute_transaction. rewrite bind_gets, bind_modify.
  set (s1 := set_next (u64 (next_tx_id s + 1)) s).
  destruct (local_run env tx (next_tx_id s) s1) as (b & l1 & m & _ & Htr1 & Hidle & Hm & ->);
    [done..|]. destruct b.
  - rewrite (execute_operations_reads env m (next_tx_id s) 0 tx [] (set_lock_manager l1 s1))
      by done.
    destruct (release_all_post (next_tx_id s) l1 Htr1) as (Hidle2 & _).
    exists (release_all (next_tx_id s) l1). split; [done|by left].
  - exists l1. split; [by apply Hidle|by right].
Qed.

(** C18. All or nothing: with every key local, and with other threads interfering with the
    lock table within its protocol, execute_transaction - given a store and an executor that
    meet their contracts - returns without exception, with either the reads of running the
    whole transaction on the store and the store it leaves, or an empty result and the store
    untouched; in both cases the next transaction id is used up and the transaction holds no
    lock. *)
Theorem local_execution_atomic `{!KVStoreSpec S} `{!OpExecutorSpec S} env tx s :
  coordinator (node s) = None →
  fair_env (next_tx_id s) (env_acquire env) → tracked (next_tx_id s) (lock_manager s) →
  ∃ l', let done := set_lock_manager l' (set_next (u64 (next_tx_id s + 1)) s) in
    idle (next_tx_id s) l' ∧
    (execute_transaction env tx s = (Ok (tx_reads tx (store s)),
                                     set_store (apply_tx tx (store s)) done) ∨
     execute_transaction env tx s = (Ok [], done)).
Proof. apply local_execution_outcome. Qed.

Lemma visit_all_reads `{!KVStoreSpec S} `{!OpExecutorSpec S} v tx res s :
  visit_all v tx res s =
    (Ok (res ++ tx_reads tx (store s)), set_store (apply_tx tx (store s)) s).
Proof.
  revert v res s. induction tx as [|op tx IH]; intros v res s; simpl.
  { rewrite app_nil_r. by destruct s. }
  destruct (visit_spec op v (store s)) as (v' & Hv & Hres).
  rewrite (bind_ok _ _ _ _ _ (on_store_run _ _ _ _ Hv)).
  destruct op as [k|k x]; simpl in *.
  - destruct (exec_result v') as [r v'']. simpl in Hres. rewrite IH. simpl.
    rewrite Hres by done. by rewrite <- (assoc_L (++)).
  - by rewrite IH.
Qed.

(** ** Without interference: exactly the transactions that find a key locked abort *)
Definition available (l : LockManager) t (k : KeyType) : Prop :=
  match owner_of l k with Some o => o = t | None => True end.

#[export] Instance available_dec l t k : Decision (available l t k).
Proof. unfold available. destruct (owner_of l k); apply _. Defined.

Lemma available_acquired key t l k :
  available l t key →
  available (acquire no_interference key t l).2 t k ↔ available l t k.
Proof.
  rewrite acquire_alone. unfold available at 1. destruct (owner_of l key) as [o|] eqn:E; simpl.
  - intros ->. unfold available.
    change (owner_of (track_key key t ?l0)) with (owner_of l0). by rewrite owner_of_emplace.
  - intros _. unfold available. rewrite owner_of_set_owner.
    change (owner_of (track_key key t ?l0)) with (owner_of l0). rewrite owner_of_emplace.
    case_decide; [subst; by rewrite E|done].
Qed.

Lemma acquire_local_alone keys t s :
  (acquire_local (λ _, no_interference) keys t s).1 =
    Ok (bool_decide (Forall (available (lock_manager s) t) keys)).
Proof.
  revert s. induction keys as [|key keys IH]; intros s; simpl; [done|].
  pose proof (available_acquired key t (lock_manager s)) as Hav.
  pose proof (acquire_alone key t (lock_manager s)) as Hacq.
  unfold available at 1 in Hav. destruct (owner_of (lock_manager s) key) as [o|] eqn:E.
  - cbn zeta in Hacq. destruct (decide (o = t)) as [->|Hne].
    + rewrite (bind_ok _ _ _ _ _ (on_locks_run _ _ _ _ Hacq)), IH. f_equal.
      rewrite Hacq in Hav. simpl in Hav. apply bool_decide_ext. simpl.
      rewrite Forall_cons. setoid_rewrite Forall_forall. unfold available at 2.
      rewrite E. naive_solver.
    + rewrite (bind_ok _ _ _ _ _ (on_locks_run _ _ _ _ Hacq)). mred. simpl. f_equal.
      symmetry. apply bool_decide_eq_false. rewrite Forall_cons. unfold available at 1.
      rewrite E. naive_solver.
  - cbn zeta in Hacq. rewrite (bind_ok _ _ _ _ _ (on_locks_run _ _ _ _ Hacq)), IH. f_equal.
    rewrite Hacq in Hav. simpl in Hav. apply bool_decide_ext. simpl.
    rewrite Forall_cons. setoid_rewrite Forall_forall. unfold available at 2.
    rewrite E. naive_solver.
Qed.

(** The locks of [t] are gone, all others are as they were. *)
Record released t (l l' : LockManager) : Prop := {
  released_owner k : owner_of l' k = if decide (owner_of l k = Some t) then None else owner_of l k;
  released_held t' : held_by l' t' = if decide (t' = t) then ∅ else held_by l t';
}.

Lemma released_all t l : tracked t l → released t l (release_all t l).
Proof.
  intros (Hidle & Ho & Hr)%release_all_post. split; [done|]. intros t'.
  case_decide as E; [subst; apply Hidle|apply (rely_held _ _ _ (Hr _ E))].
Qed.

(** One step of the growing phase changes none of this. *)
Lemma released_acquire key t l l' :
  available l t key → released t (acquire no_interference key t l).2 l' → released t l l'.
Proof.
  intros Hav [Ho Hh]. split.
  - intros k. rewrite Ho. rewrite acquire_alone. unfold available in Hav.
    destruct (owner_of l key) as [o|] eqn:E; cbn [snd].
    + change (owner_of (track_key key t ?l0)) with (owner_of l0). by rewrite owner_of_emplace.
    + rewrite !owner_of_set_owner. change (owner_of (track_key key t ?l0)) with (owner_of l0).
      rewrite !owner_of_emplace. destruct (decide (key = k)) as [<-|]; [|done].
      by rewrite E, decide_True.
  - intros t'. rewrite Hh. case_decide as Ht; [done|].
    apply (rely_held t' l), acquire_rely; [done|apply respects_none].
Qed.

(** Alone, the growing phase and the release after it come down to this,
    whatever the order of the keys. *)
Lemma acquire_local_leaves keys t s b l :
  tracked t (lock_manager s) →
  acquire_local (λ _, no_interference) keys t s = (Ok b, set_lock_manager l s) →
  released t (lock_manager s) (if b then release_all t l else l).
Proof.
  revert s. induction keys as [|key keys IH]; intros s Htr; simpl.
  { intros [= <- E%(f_equal lock_manager)]. simpl in E. subst. by apply released_all. }
  pose proof (acquire_tracked key t no_interference (lock_manager s) (respects_none t) Htr) as Htr1.
  pose proof (acquire_alone key t (lock_manager s)) as Hacq. cbn zeta in Hacq.
  pose proof (released_acquire key t (lock_manager s)) as Hstep. unfold available in Hstep.
  destruct (owner_of (lock_manager s) key) as [o|] eqn:Eo.
  1: destruct (decide (o = t)) as [->|Hne].
  - rewrite (bind_ok _ _ _ _ _ (on_locks_run _ _ _ _ Hacq)). intros Hrun.
    rewrite Hacq in Hstep, Htr1. apply Hstep; [done|]. by apply (IH (set_lock_manager _ s)).
  - rewrite (bind_ok _ _ _ _ _ (on_locks_run _ _ _ _ Hacq)).
    rewrite (bind_ok _ _ _ _ _ (release_all_run t _)). intros [= <- <-].
    rewrite Hacq in Htr1. cbn [snd] in Htr1. destruct (released_all t _ Htr1) as [Ho Hh]. split.
    + intros k. rewrite Ho. change (owner_of (track_key key t ?l0)) with (owner_of l0).
      by rewrite owner_of_emplace.
    + intros t'. rewrite Hh. case_decide; [done|].
      by rewrite held_by_track, decide_False, held_by_emplace.
  - rewrite (bind_ok _ _ _ _ _ (on_locks_run _ _ _ _ Hacq)). intros Hrun.
    rewrite Hacq in Hstep, Htr1. apply Hstep; [done|]. by apply (IH (set_lock_manager _ s)).
Qed.

Lemma acquire_local_released c X t s :
  tracked t (lock_manager s) →
  let ok := bool_decide (set_Forall (available (lock_manager s) t) X) in
  ∃ l, acquire_local (λ _, no_interference) (iter_order c X) t s =
         (Ok ok, set_lock_manager l s) ∧
    released t (lock_manager s) (if ok then release_all t l else l).
Proof.
  intros Htr ok. pose proof (acquire_local_alone (iter_order c X) t s) as Hb.
  destruct (acquire_local_spec (λ _, no_interference) (iter_order c X) t s (fair_quiet t) Htr)
    as (b & l & E & _). rewrite E in Hb. simpl in Hb. injection Hb as Hb.
  assert (b = ok) as ->.
  { rewrite Hb. apply bool_decide_ext. rewrite Forall_forall. unfold set_Forall.
    by setoid_rewrite elem_of_iter_order. }
  exists l. split; [done|]. by eapply acquire_local_leaves.
Qed.

(** C33. The single-node variant execute_with_id and execute_with_distributed_support agree
    when every key is local and no other thread interferes, whatever orders their key sets
    are visited in: both execute the transaction if every key is free or already its own,
    with the reads and the store of running it, and otherwise both return no reads and leave
    the store alone, execute_with_id with false; either way both leave every lock and every
    tracked key of other transactions as they were, and none of the transaction. *)
Theorem execute_with_id_equivalent `{!KVStoreSpec S} `{!OpExecutorSpec S} tx t s :
  coordinator (node s) = None → tracked t (lock_manager s) →
  ∃ reads ok st l1 l2,
    execute_with_distributed_support quiet tx t s =
      (Ok reads, set_lock_manager l1 (set_store st s)) ∧
    execute_with_id quiet tx t s =
      (Ok (reads, ok), set_lock_manager l2 (set_store st s)) ∧
    (if (ok : bool)
     then (∀ k, k ∈ tx_keys tx → available (lock_manager s) t k) ∧
          reads = tx_reads tx (store s) ∧ st = apply_tx tx (store s)
     else (∃ k, k ∈ tx_keys tx ∧ ¬ available (lock_manager s) t k) ∧ reads = [] ∧ st = store s) ∧
    released t (lock_manager s) l1 ∧ released t (lock_manager s) l2.
Proof.
  intros Hc Htr.
  destruct (local_run quiet tx t s) as (b & l1 & m & Hacq & _ & _ & Hm & Hrun);
    [done|apply fair_quiet|done|].
  destruct (acquire_local_released (LocalKeys t) (tx_keys tx) t s Htr) as (l1' & Hacq1 & Hl1).
  destruct (acquire_local_released (KeysToLock t) (tx_keys tx) t s Htr) as (l2 & Hacq2 & Hl2).
  cbn [env_acquire quiet] in Hacq. rewrite Hacq1 in Hacq. injection Hacq as Hb Hl.
  subst l1' b. rewrite Hrun.
  unfold execute_with_id, catch_all. fold (tx_keys tx).
  rewrite (bind_ok _ _ _ _ _ Hacq2). case_bool_decide as Hall.
  - rewrite execute_operations_reads, (bind_ok _ _ _ _ _ (visit_all_reads _ _ _ _)) by done.
    by eexists _, true, _, _, _.
  - apply not_set_Forall_Exists in Hall as (k & Hk & Hno); [|apply _].
    exists [], false, (store s), l1, l2. destruct s; split_and!; try done. by exists k.
Qed.

(** Without other threads a local transaction aborts exactly when some key it
    touches is locked by another transaction. *)
Lemma local_alone_outcome `{!KVStoreSpec S} `{!OpExecutorSpec S} tx s :
  coordinator (node s) = None → tracked (next_tx_id s) (lock_manager s) →
  ((execute_transaction quiet tx s).1, store (execute_transaction quiet tx s).2) =
    if decide (∀ k, k ∈ tx_keys tx → available (lock_manager s) (next_tx_id s) k)
    then (Ok (tx_reads tx (store s)), apply_tx tx (store s))
    else (Ok [], store s).
Proof.
  intros Hc Htr. unfold execute_transaction. rewrite bind_gets, bind_modify.
  set (s1 := set_next (u64 (next_tx_id s + 1)) s).
  destruct (local_run quiet tx (next_tx_id s) s1) as (b & l1 & m & Hacq & _ & _ & Hm & ->);
    [done|apply fair_quiet|done|].
  pose proof (acquire_local_alone (iter_order (LocalKeys (next_tx_id s)) (tx_keys tx)) (next_tx_id s) s1) as Hb.
  simpl in Hacq. rewrite Hacq in Hb. simpl in Hb. injection Hb as Hb.
  assert (Hiff : b = true ↔ ∀ k, k ∈ tx_keys tx → available (lock_manager s) (next_tx_id s) k).
  { rewrite Hb, bool_decide_eq_true, Forall_forall. by setoid_rewrite elem_of_iter_order. }
  destruct b.
  - rewrite execute_operations_reads by done. by rewrite decide_True by naive_solver.
  - rewrite decide_False; [done|]. intros Hall. by apply Hiff in Hall.
Qed.

End local_execution.

(** ** The hypotheses hold: a node where transaction 99 has key 1 locked *)
Module LocalDemo.
Import Demo.

Lemma busy_tracked t : t ≠ 99%Z → tracked t (lock_manager busy_node).
Proof.
  intros Hne. eapply tracked_rely; [|apply tracked_new].
  apply acquire_rely; [done|apply respects_none].
Qed.

Lemma local_execution_never_leaks_locks_witness :
  ∃ r l' st, execute_transaction quiet [AppendOp 2 5; ReadOp 1] busy_node =
      (r, set_lock_manager l' (set_store st (set_next 2 busy_node))) ∧ idle 1 l'.
Proof.
  apply (local_execution_never_leaks_locks quiet [AppendOp 2 5; ReadOp 1] busy_node);
    [done|apply fair_quiet|by apply busy_tracked].
Defined.

Lemma local_execution_atomic_witness :
  ∃ l', idle 1 l' ∧
    (execute_transaction quiet [AppendOp 2 5; ReadOp 2] busy_node =
       (Ok [(2%Z, Some [5%Z])],
        set_store (apply_tx [AppendOp 2 5; ReadOp 2] (store busy_node))
          (set_lock_manager l' (set_next 2 busy_node))) ∨
     execute_transaction quiet [AppendOp 2 5; ReadOp 2] busy_node =
       (Ok [], set_lock_manager l' (set_next 2 busy_node))).
Proof.
  destruct (local_execution_atomic quiet [AppendOp 2 5; ReadOp 2] busy_node)
    as (l' & Hidle & Hrun); [done|apply fair_quiet|by apply busy_tracked|].
  exists l'. split; [exact Hidle|]. replace [(2%Z, Some [5%Z])]
    with (tx_reads [AppendOp 2 5; ReadOp 2] (store busy_node)) by by vm_compute.
  exact Hrun.
Defined.

#[local] Existing Instance mixed_iteration | 0.

Lemma execute_with_id_equivalent_witness :
  ∃ l1 l2,
    execute_with_distributed_support (Iteration0 := mixed_iteration)
      quiet [ReadOp 1; AppendOp 2 5] 7 busy_node = (Ok [], set_lock_manager l1 busy_node) ∧
    execute_with_id (Iteration0 := mixed_iteration) quiet [ReadOp 1; AppendOp 2 5] 7 busy_node =
      (Ok ([], false), set_lock_manager l2 busy_node) ∧
    released 7 busy_locks l1 ∧ released 7 busy_locks l2.
Proof.
  destruct (execute_with_id_equivalent [ReadOp 1; AppendOp 2 5] 7 busy_node)
    as (reads & [] & st & l1 & l2 & Hd & Hi & (Hk & -> & ->) & Hl1 & Hl2);
    [reflexivity|by apply busy_tracked| |].
  - exfalso. enough (99%Z = 7%Z) by discriminate.
    refine (Hk 1%Z _). apply elem_of_tx_keys. by exists (ReadOp 1); split; [constructor|].
  - exists l1, l2. exact (conj Hd (conj Hi (conj Hl1 Hl2))).
Defined.
End LocalDemo.
