(* ===== verification/TwoPLRefinement.v ===== *)
(** * The interleaving implements the methods

    [TwoPL] interleaves the accesses of [LockManager::acquire],
    [LockManager::release], [LockManager::release_all] and
    [TwoPLScheduler::execute_transaction] one by one; [LockManager] and
    [Scheduler] have the same methods as functions, with what other threads
    do as an argument.  This file relates the two: a transaction of the
    interleaving returns what the function returns for an environment made of
    the accesses of the other threads, every one of them used once and in the
    order in which they happened.

    The accesses that other threads make while the thread is in the middle of
    its own are moved to the nearest window of the function; they commute with
    what they are moved over. *)
From S2P Require Import Prelude Operations KVStore LockManager TwoPL TwoPLInvariant Serializability.
From S2P Require Import Progress Scenarios Json Coordinator Scheduler SchedulerLocal.

(** ** Accesses to the lock manager *)
Inductive lock_access :=
  | Emplace (k : KeyType)
  | Track (k : KeyType) (t : TransactionId)
  | Own (k : KeyType) (t : TransactionId)
  | Disown (k : KeyType) (t : TransactionId)
  | Untrack (k : KeyType) (t : TransactionId)
  | Take (t : TransactionId).

(** [Own] and [Disown] test the owner and write it in one critical section. *)
Definition perform_lock (a : lock_access) (l : LockManager) : LockManager :=
  match a with
  | Emplace k => emplace_entry k l
  | Track k t => track_key k t l
  | Own k t => match owner_of l k with None => set_owner k (Some t) l | Some _ => l end
  | Disown k t => if decide (owner_of l k = Some t) then set_owner k None l else l
  | Untrack k t => untrack_key k t l
  | Take t => (take_held t l).2
  end.

Definition perform_locks (la : list lock_access) (l : LockManager) : LockManager :=
  foldl (λ l a, perform_lock a l) l la.

(** The access is made for another transaction than [x]. *)
Definition of_other (x : TransactionId) (a : lock_access) : Prop :=
  match a with
  | Emplace _ => True
  | Track _ t | Own _ t | Disown _ t | Untrack _ t | Take t => t ≠ x
  end.

(** The test of the access succeeds. *)
Definition effective (l : LockManager) (a : lock_access) : Prop :=
  match a with Own k _ => owner_of l k = None | _ => True end.

(** The accesses of the next step of a thread. *)
Definition accesses_of (th : thread) (l : LockManager) : list lock_access :=
  match th_pc th with
  | P_acquire k _ AQ_emplace => [Emplace k]
  | P_acquire k _ AQ_track => [Track k (th_id th)]
  | P_acquire k _ (AQ_try i) =>
      match attempt i, owner_of l k with
      | Some _, None => [Own k (th_id th)]
      | _, _ => []
      end
  | P_take _ => [Take (th_id th)]
  | P_release k _ _ RL_check =>
      if decide (owner_of l k = Some (th_id th)) then [Disown k (th_id th)] else []
  | P_release k _ _ RL_untrack => [Untrack k (th_id th)]
  | _ => []
  end.

Lemma attempt_owner i try k t l :
  attempt i = Some try →
  try k t l = match owner_of l k with
              | None => Some (set_owner k (Some t) l)
              | Some o => if decide (o = t ∧ i < MAX_SPINS) then Some l else None
              end.
Proof.
  unfold attempt. repeat case_decide; intros; simplify_eq; unfold try_spin, try_yield;
    destruct (owner_of l k); try done; cases; repeat case_decide; naive_solver.
Qed.

Lemma thread_step_accesses {S} `{OpExecutor S} th (sh : shared S) :
  sh_lm (thread_step th sh).2 = perform_locks (accesses_of th (sh_lm sh)) (sh_lm sh).
Proof.
  unfold thread_step, accesses_of.
  destruct (th_pc th) as [|k ks a|ran todo rs|o|o|o ks|k ks o r|o]; try done.
  - destruct a as [| | | | | | | |i| | |[]]; simpl; try done; [by case_match|].
    destruct (attempt i) as [try|] eqn:Ha; simpl; [|done].
    rewrite (attempt_owner i) by done. destruct (owner_of (sh_lm sh) k) eqn:E.
    + by case_decide.
    + simpl. by rewrite E.
  - unfold exec_step. destruct todo as [|op todo]; [done|].
    destruct (visit op new_executor (sh_store sh)) as [[]?]; done.
  - simpl. by destruct (take_held _ _).
  - destruct r; simpl; try done; [by case_match|].
    case_decide as E; [|done]. simpl. by rewrite decide_True.
Qed.

Lemma accesses_effective th l : Forall (effective l) (accesses_of th l).
Proof. unfold accesses_of. repeat case_match; repeat constructor; done. Qed.

Lemma accesses_of_other x th l :
  (started th = true → th_id th ≠ x) → Forall (of_other x) (accesses_of th l).
Proof.
  intros Hne. unfold accesses_of, started in *.
  repeat case_match; repeat constructor; by apply Hne.
Qed.

(** ** They commute with the thread's own accesses *)
Section commute.
Context (x : TransactionId).

Lemma rely_perform a l : of_other x a → rely x l (perform_lock a l).
Proof.
  destruct a as [k|k t|k t|k t|k t|t]; simpl; intros Hne.
  - apply rely_emplace.
  - by apply rely_track.
  - destruct (owner_of l k) eqn:E; [done|]. by apply rely_set_owner.
  - case_decide as E; [|done]. split; [|done|apply dom_set_owner].
    intros k'. rewrite owner_of_set_owner. case_decide; naive_solver.
  - split; [|rewrite held_by_untrack; by case_decide|unfold untrack_key; by repeat case_match].
    intros k'. by rewrite owner_of_untrack.
  - by apply rely_take_held.
Qed.

Lemma rely_performs la l : Forall (of_other x) la → rely x l (perform_locks la l).
Proof.
  intros Hla. revert l. induction Hla as [|a la Ha _ IH]; intros l; [done|].
  etrans; [by apply rely_perform|apply IH].
Qed.

Lemma lock_manager_eq l l' :
  lock_table l = lock_table l' → held_locks l = held_locks l' → l = l'.
Proof. by destruct l, l'; simpl; intros -> ->. Qed.

Lemma emplace_set_owner k k' o l :
  emplace_entry k (set_owner k' o l) = set_owner k' o (emplace_entry k l).
Proof.
  unfold emplace_entry; simpl. rewrite lookup_insert. case_decide as E; [subst|].
  - case_match; [done|]. unfold set_owner; simpl. by rewrite insert_insert_eq.
  - case_match; [done|]. unfold set_owner; simpl. by rewrite insert_insert_ne.
Qed.

Lemma emplace_emplace k k' l :
  emplace_entry k' (emplace_entry k l) = emplace_entry k (emplace_entry k' l).
Proof.
  unfold emplace_entry at 2 4. destruct (lock_table l !! k) eqn:E, (lock_table l !! k') eqn:E';
    rewrite ?emplace_set_owner; unfold emplace_entry; rewrite ?E, ?E'; try done.
  destruct (decide (k = k')) as [->|Hne]; [done|].
  apply lock_manager_eq; [|done]. simpl. by apply insert_insert_ne.
Qed.

(** Every access to the tracking sets edits the set of one transaction. *)
Definition edit_held (f : option (gset KeyType) → option (gset KeyType)) (t : TransactionId)
    (l : LockManager) : LockManager := set_held (partial_alter f t (held_locks l)) l.

Lemma track_edit k t l : track_key k t l = edit_held (λ o, Some ({[k]} ∪ default ∅ o)) t l.
Proof.
  apply lock_manager_eq; [done|]. simpl. unfold held_by, set_at. apply map_eq. intros t'.
  rewrite lookup_insert, lookup_partial_alter. by case_decide; subst.
Qed.

Lemma untrack_edit k t l :
  untrack_key k t l =
    edit_held (λ o, keys ← o; if decide (keys ∖ {[k]} = ∅) then None else Some (keys ∖ {[k]})) t l.
Proof.
  unfold untrack_key, edit_held. destruct (held_locks l !! t) as [keys|] eqn:E.
  - case_decide as Hk; apply lock_manager_eq; try done; apply map_eq; intros t'; simpl;
      rewrite lookup_partial_alter, ?lookup_delete, ?lookup_insert;
      (destruct (decide (t = t')); [subst; rewrite E; simpl|done]).
    + by rewrite decide_True.
    + by rewrite decide_False.
  - apply lock_manager_eq; [done|]. simpl. apply map_eq. intros t'.
    rewrite lookup_partial_alter. case_decide; [subst|done]. by rewrite E.
Qed.

Lemma take_edit t l : (take_held t l).2 = edit_held (λ _, None) t l.
Proof.
  unfold take_held, edit_held. destruct (held_locks l !! t) eqn:E; [done|]. simpl.
  apply lock_manager_eq; [done|]. simpl. symmetry. exact (delete_id _ _ E).
Qed.

Lemma emplace_edit k f t l : emplace_entry k (edit_held f t l) = edit_held f t (emplace_entry k l).
Proof. unfold emplace_entry; simpl. by destruct (lock_table l !! k). Qed.

Lemma edit_edit f g t t' l :
  t ≠ t' → edit_held f t (edit_held g t' l) = edit_held g t' (edit_held f t l).
Proof. intros Hne. apply lock_manager_eq; [done|]. by apply partial_alter_partial_alter_ne. Qed.

(** Creating an entry commutes with every access. *)
Lemma perform_emplace a k l :
  perform_lock a (emplace_entry k l) = emplace_entry k (perform_lock a l).
Proof.
  destruct a as [k'|k' t|k' t|k' t|k' t|t]; simpl;
    rewrite ?track_edit, ?untrack_edit, ?take_edit, ?emplace_edit, ?owner_of_emplace; try done.
  - apply emplace_emplace.
  - case_match; [done|]. by rewrite emplace_set_owner.
  - case_match; [|done]. by rewrite emplace_set_owner.
Qed.

(** Editing the transaction's own set commutes with what others do. *)
Lemma perform_edit a f l :
  of_other x a → perform_lock a (edit_held f x l) = edit_held f x (perform_lock a l).
Proof.
  destruct a as [k|k t|k t|k t|k t|t]; simpl; intros Hne;
    rewrite ?track_edit, ?untrack_edit, ?take_edit; try by apply edit_edit.
  - apply emplace_edit.
  - change (owner_of (edit_held f x l)) with (owner_of l). by case_match.
  - change (owner_of (edit_held f x l)) with (owner_of l). by case_match.
Qed.

Lemma performs_edit la f l :
  Forall (of_other x) la → perform_locks la (edit_held f x l) = edit_held f x (perform_locks la l).
Proof.
  intros Hla. revert l. induction Hla as [|a la Ha _ IH]; intros l; simpl; [done|].
  by rewrite perform_edit, IH.
Qed.

(** Releasing a lock commutes with what others do meanwhile. *)
Lemma release_owner k l :
  release k x l =
    if decide (owner_of l k = Some x) then untrack_key k x (set_owner k None l) else l.
Proof. unfold release, owner_of. by destruct (lock_table l !! k). Qed.

Lemma perform_disown a k l :
  of_other x a → effective l a → owner_of l k = Some x →
  perform_lock a (set_owner k None l) = set_owner k None (perform_lock a l).
Proof.
  destruct a as [k'|k' t|k' t|k' t|k' t|t]; simpl; intros Hne Heff Ho; try done;
    rewrite ?owner_of_set_owner.
  - apply emplace_set_owner.
  - assert (k ≠ k') by congruence. rewrite decide_False by done. rewrite Heff.
    apply lock_manager_eq; [|done]. simpl. by apply insert_insert_ne.
  - destruct (decide (k = k')) as [->|Hk]; [by rewrite decide_False, decide_False by congruence|].
    case_decide; [|done]. apply lock_manager_eq; [|done]. simpl. by apply insert_insert_ne.
  - by rewrite !untrack_edit.
  - by rewrite !take_edit.
Qed.

Lemma perform_release a k l :
  of_other x a → effective l a →
  perform_lock a (release k x l) = release k x (perform_lock a l).
Proof.
  intros Ha Heff. rewrite !release_owner.
  rewrite <- (decide_ext _ _ _ _ (rely_owner _ _ _ (rely_perform a l Ha) k)).
  case_decide as Ho; [|done].
  by rewrite !untrack_edit, perform_edit, perform_disown.
Qed.

Lemma effective_release a k l : effective l a → effective (release k x l) a.
Proof. destruct a; simpl; try done. rewrite owner_of_release. by case_decide. Qed.

Definition releases (ks : list KeyType) (l : LockManager) : LockManager :=
  foldl (λ l k, release k x l) l ks.

Lemma perform_releases a ks l :
  of_other x a → effective l a → perform_lock a (releases ks l) = releases ks (perform_lock a l).
Proof.
  intros Ha. revert l. induction ks as [|k ks IH]; intros l Heff; simpl; [done|].
  unfold releases in *. rewrite IH by by apply effective_release. by rewrite perform_release.
Qed.

Lemma perform_release_all `{!Iteration KeyType} a l :
  of_other x a → effective l a →
  perform_lock a (release_all x l) = release_all x (perform_lock a l).
Proof.
  intros Ha Heff. unfold release_all.
  rewrite (surjective_pairing (take_held x l)), (surjective_pairing (take_held x (perform_lock a l))).
  rewrite !take_held_keys, !take_edit, <- perform_edit by done.
  rewrite (rely_held _ _ _ (rely_perform a l Ha)).
  apply perform_releases; [done|]. by destruct a.
Qed.
End commute.

(** ** The rest of a call

    For each program counter, what the rest of the call does to the lock
    manager if the other threads make their accesses in the windows of
    [acquire] only.  The windows of one call of [acquire] are a list: first
    the one before the entry is locked, then one after each iteration; at a
    program counter, the list starts with the window that is open there. *)
Abbreviation windows := (list (list lock_access)).

Definition open_window (ws : windows) : list lock_access := hd [] ws.

Definition to_interference (ws : windows) : Interference :=
  {| before_entry := perform_locks (open_window ws);
     in_window := λ i, perform_locks (nth i (tail ws) []) |}.

Section rest.
Context (x : TransactionId) `{!Iteration KeyType}.

(** The iterations from [i] on. *)
Fixpoint tries (n i : nat) (k : KeyType) (ws : windows) (l : LockManager)
    : AcquireResult * LockManager :=
  match n with
  | O => (ABORTED, l)
  | S n' =>
      match attempt i with
      | None => (ABORTED, l)
      | Some try =>
          match try k x l with
          | Some l' => (ACQUIRED, l')
          | None => tries n' (S i) k (tail ws) (perform_locks (open_window ws) l)
          end
      end
  end.

Definition tries_from (i : nat) : KeyType → windows → LockManager → AcquireResult * LockManager :=
  tries (MAX_SPINS + MAX_YIELDS - i) i.

Lemma tries_from_unfold i k ws l :
  tries_from i k ws l =
    match attempt i with
    | None => (ABORTED, l)
    | Some try =>
        match try k x l with
        | Some l' => (ACQUIRED, l')
        | None => tries_from (S i) k (tail ws) (perform_locks (open_window ws) l)
        end
    end.
Proof.
  unfold tries_from. destruct (MAX_SPINS + MAX_YIELDS - i) as [|n] eqn:E; cbn [tries].
  - destruct (attempt i) eqn:Ha; [|done]. apply attempt_bound in Ha. lia.
  - replace (MAX_SPINS + MAX_YIELDS - S i) with n by lia. done.
Qed.

(** They are the two loops of [acquire_with_wait_die]. *)
Lemma tries_loop try n m i k ws env l :
  (∀ j, i ≤ j < i + n → attempt j = Some try) →
  (∀ j l, env (i + j) l = perform_locks (nth j ws []) l) →
  tries (n + m) i k ws l =
    match wait_loop try n i env k x l with
    | (Some l1, _) => (ACQUIRED, l1)
    | (None, l1) => tries m (i + n) k (drop n ws) l1
    end.
Proof.
  revert i ws l. induction n as [|n IH]; intros i ws l Hatt Henv; cbn [tries wait_loop Nat.add].
  { by rewrite Nat.add_0_r, drop_0. }
  rewrite Hatt by lia. destruct (try k x l); [done|].
  pose proof (Henv 0 l) as H0. rewrite Nat.add_0_r in H0. rewrite H0.
  rewrite (IH (S i) (tail ws)).
  - replace (S i + n) with (i + S n) by lia.
    destruct ws as [|w ws]; cbn [tail drop]; by rewrite ?drop_nil.
  - intros j Hj. apply Hatt. lia.
  - intros j l0. replace (S i + j) with (i + S j) by lia.
    rewrite Henv. by destruct ws as [|w ws], j.
Qed.

Lemma tries_wait_die k ws env l :
  (∀ j l, env j l = perform_locks (nth j ws []) l) →
  acquire_with_wait_die env k x l =
    (Ok (tries_from 0 k ws l).1, (tries_from 0 k ws l).2).
Proof.
  intros Henv. unfold tries_from. rewrite Nat.sub_0_r.
  rewrite (tries_loop try_spin _ _ _ _ _ env).
  2:{ intros j Hj. unfold attempt. by rewrite decide_True by lia. }
  2:{ done. }
  unfold acquire_with_wait_die.
  destruct (wait_loop try_spin MAX_SPINS 0 env k x l) as [[l1|] l1']; [done|].
  rewrite <- (Nat.add_0_r MAX_YIELDS) at 2 3.
  rewrite (tries_loop try_yield MAX_YIELDS 0 _ _ _ env).
  - destruct (wait_loop try_yield _ _ _ _ _ _) as [[l2|] l2']; done.
  - intros j Hj. unfold attempt. by rewrite decide_False, decide_True by lia.
  - intros j l0. rewrite Henv, !nth_lookup, lookup_drop. done.
Qed.

#[local] Opaque tries_from.

(** After the entry's mutex is locked, with the window before it still open. *)
Definition reopened (i : nat) (k : KeyType) (ws : windows) (l : LockManager) :=
  tries_from i k (tail ws) (perform_locks (open_window ws) l).

Definition enter (k : KeyType) (ws : windows) (l : LockManager) : AcquireResult * LockManager :=
  tries_from 0 k (tail ws) (track_key k x (perform_locks (open_window ws) l)).

Definition acq_rest (k : KeyType) (a : acq_pc) (ws : windows) (l : LockManager)
    : AcquireResult * LockManager :=
  match a with
  | AQ_table_lock | AQ_emplace => enter k ws (emplace_entry k l)
  | AQ_table_unlock | AQ_at | AQ_entry_lock | AQ_held_lock | AQ_track => enter k ws l
  | AQ_held_unlock => reopened 0 k ws l
  | AQ_try i | AQ_relock i => reopened i k ws l
  | AQ_unlock i => reopened (S i) k ws l
  | AQ_return r => (r, l)
  end.

(** The locks of the keys [ks], one after the other, then their release;
    [true] if all were acquired. *)
Fixpoint grow (ks : list KeyType) (wss : list windows) (l : LockManager) : bool * LockManager :=
  match ks with
  | [] => (true, release_all x l)
  | k :: ks' =>
      match enter k (hd [] wss) (emplace_entry k l) with
      | (ACQUIRED, l1) => grow ks' (tail wss) l1
      | (ABORTED, l1) => (false, release_all x l1)
      end
  end.

Definition rel_rest (k : KeyType) (r : rel_pc) (l : LockManager) : LockManager :=
  match r with
  | RL_table_lock | RL_contains | RL_entry_lock | RL_check => release k x l
  | RL_held_lock | RL_untrack => untrack_key k x l
  | _ => l
  end.

Definition verdict (o : outcome) : bool := match o with Aborted => false | _ => true end.

Definition pc_rest (p : pc) (wss : list windows) (l : LockManager) : bool * LockManager :=
  match p with
  | P_start => (false, l)
  | P_acquire k ks (AQ_return r) =>
      match r with
      | ACQUIRED => grow ks wss l
      | ABORTED => (false, release_all x l)
      end
  | P_acquire k ks a =>
      match acq_rest k a (hd [] wss) l with
      | (ACQUIRED, l1) => grow ks (tail wss) l1
      | (ABORTED, l1) => (false, release_all x l1)
      end
  | P_exec _ _ _ => (true, release_all x l)
  | P_take_lock o | P_take o => (verdict o, release_all x l)
  | P_take_unlock o ks => (verdict o, releases x ks l)
  | P_release k ks o r => (verdict o, releases x ks (rel_rest k r l))
  | P_done o => (verdict o, l)
  end.

(** The whole plan: the windows, and the accesses after the call's last. *)
Record plan := mkPlan { pl_windows : list windows; pl_after : list lock_access }.

Definition plan_accesses (pl : plan) : list lock_access :=
  concat (concat (pl_windows pl)) ++ pl_after pl.

Definition run_plan (p : pc) (pl : plan) (l : LockManager) : bool * LockManager :=
  let '(b, l1) := pc_rest p (pl_windows pl) l in (b, perform_locks (pl_after pl) l1).

(** *** An access of another thread goes to the open window *)
Definition in_growing (p : pc) : bool :=
  match p with
  | P_acquire _ ks (AQ_return ACQUIRED) => match ks with [] => false | _ => true end
  | P_acquire _ _ (AQ_return ABORTED) => false
  | P_acquire _ _ _ => true
  | _ => false
  end.

Definition push_open (a : lock_access) (wss : list windows) : list windows :=
  ((a :: open_window (hd [] wss)) :: tail (hd [] wss)) :: tail wss.

Definition push (p : pc) (a : lock_access) (pl : plan) : plan :=
  if in_growing p then mkPlan (push_open a (pl_windows pl)) (pl_after pl)
  else mkPlan (pl_windows pl) (a :: pl_after pl).

Lemma concat_push_open a wss : concat (concat (push_open a wss)) = a :: concat (concat wss).
Proof. destruct wss as [|[|w ws] wss]; simpl; [done..|]. done. Qed.

Lemma push_accesses p a pl :
  in_growing p = true ∨ pl_windows pl = [] →
  plan_accesses (push p a pl) = a :: plan_accesses pl.
Proof.
  intros Hp. unfold push, plan_accesses. destruct (in_growing p); cbn [pl_windows pl_after].
  - by rewrite concat_push_open.
  - by destruct Hp as [?| ->].
Qed.

Lemma enter_push k a ws l :
  enter k ((a :: open_window ws) :: tail ws) l = enter k ws (perform_lock a l).
Proof. done. Qed.

Lemma reopened_push i k a ws l :
  reopened i k ((a :: open_window ws) :: tail ws) l = reopened i k ws (perform_lock a l).
Proof. done. Qed.

Lemma grow_push ks a wss l :
  ks ≠ [] → grow ks (push_open a wss) l = grow ks wss (perform_lock a l).
Proof.
  destruct ks as [|k ks]; [done|]. intros _. simpl.
  by rewrite enter_push, perform_emplace.
Qed.

Lemma acq_rest_push k p a wss l :
  (∀ r, p ≠ AQ_return r) →
  acq_rest k p (hd [] (push_open a wss)) l = acq_rest k p (hd [] wss) (perform_lock a l).
Proof.
  intros Hp. unfold push_open. destruct p; cbn [acq_rest hd].
  1-2: by rewrite enter_push, perform_emplace.
  1-5: apply enter_push.
  1-4: apply reopened_push.
  by edestruct Hp.
Qed.

Lemma run_plan_push p a pl l :
  of_other x a → effective l a → p ≠ P_start →
  run_plan p (push p a pl) l = run_plan p pl (perform_lock a l).
Proof.
  intros Ha Heff Hp. unfold run_plan, push.
  destruct p as [|k ks q|ran todo rs|o|o|o ks|k ks o r|o]; try done; cbn [in_growing];
    try by (simpl; rewrite perform_release_all).
  - destruct q as [| | | | | | | | | | |[]]; cbn [in_growing pl_windows pl_after].
    1-11: cbn [pc_rest]; rewrite acq_rest_push by done; done.
    + destruct ks as [|k' ks]; simpl; [by rewrite perform_release_all|].
      by rewrite enter_push, perform_emplace.
    + simpl. by rewrite perform_release_all.
  - simpl. by rewrite perform_releases.
  - simpl. rewrite perform_releases; [|done|].
    + do 3 f_equal. destruct r; simpl; rewrite ?untrack_edit; try done;
        solve [by apply perform_release|by apply perform_edit].
    + destruct r; simpl; try done; try by apply effective_release.
      all: destruct a; simpl in *; try done; by rewrite owner_of_untrack.
Qed.

Lemma next_acquire_rest tx ks wss l : pc_rest (next_acquire tx ks) wss l = grow ks wss l.
Proof. destruct ks; cbn [next_acquire pc_rest acq_rest grow]; reflexivity. Qed.

(** *** The thread's own steps *)

(** Outside the growing phase no window is left. *)
Definition windows_used (p : pc) (pl : plan) : Prop :=
  in_growing p = false → pl_windows pl = [].

Lemma open_window_other pl :
  Forall (of_other x) (plan_accesses pl) →
  Forall (of_other x) (open_window (hd [] (pl_windows pl))).
Proof.
  unfold plan_accesses. destruct (pl_windows pl) as [|[|w ws] wss]; simpl; [done..|].
  rewrite <- !(assoc_L (++)), Forall_app. by intros [? _].
Qed.

(** A failed test opens a window, the end of [acquire] leaves its last one. *)
Definition new_window (pl : plan) : plan :=
  mkPlan (([] :: hd [] (pl_windows pl)) :: tail (pl_windows pl)) (pl_after pl).
Definition new_call (pl : plan) : plan := mkPlan ([] :: pl_windows pl) (pl_after pl).

Lemma new_window_accesses pl : plan_accesses (new_window pl) = plan_accesses pl.
Proof. unfold plan_accesses; simpl. by destruct (pl_windows pl). Qed.

Lemma acquire_own {S} `{OpExecutor S} th (sh : shared S) k ks a pl :
  th_id th = x → th_pc th = P_acquire k ks a → thread_ok (sh_lm sh) th →
  Forall (of_other x) (plan_accesses pl) →
  windows_used (th_pc (acquire_step th k ks a sh).1) pl →
  ∃ pl', plan_accesses pl' = plan_accesses pl ∧ windows_used (P_acquire k ks a) pl' ∧
    run_plan (P_acquire k ks a) pl' (sh_lm sh) =
      run_plan (th_pc (acquire_step th k ks a sh).1) pl (sh_lm (acquire_step th k ks a sh).2).
Proof.
  intros Hid Hpc Hok Hother Hused. unfold thread_ok in Hok. rewrite Hpc in Hok.
  destruct Hok as (_ & Ha & _).
  destruct a as [| | | | | | | |i|i|i|[]]; cbn [acquire_step] in *.
  1-3, 5-6, 8, 10-11, 13: by exists pl.
  - simpl in Ha. apply elem_of_dom in Ha as [e He]. rewrite He. by exists pl.
  - exists pl. split_and!; [done..|]. unfold run_plan. cbn [goto th_pc pc_rest acq_rest fst snd].
    unfold reopened, enter. cbn [sh_lm with_lm]. rewrite Hid, !track_edit, performs_edit; [done|].
    by apply open_window_other.
  - destruct (attempt i) as [try|] eqn:Hatt; [destruct (try k (th_id th) (sh_lm sh)) eqn:Htry|].
    + exists (new_call pl). split_and!; [done..|]. unfold run_plan.
      cbn [goto th_pc pc_rest acq_rest new_call pl_windows pl_after fst snd hd tail]. unfold reopened.
      rewrite tries_from_unfold, Hatt. simpl. by rewrite <- Hid, Htry.
    + exists (new_window pl). split_and!; [apply new_window_accesses|done|]. unfold run_plan.
      cbn [goto th_pc pc_rest acq_rest new_window pl_windows pl_after fst snd hd tail].
      unfold reopened. rewrite tries_from_unfold, Hatt. simpl. by rewrite <- Hid, Htry.
    + exists (new_call pl). split_and!; [done..|]. unfold run_plan.
      cbn [goto th_pc pc_rest acq_rest new_call pl_windows pl_after fst snd hd tail]. unfold reopened.
      by rewrite tries_from_unfold, Hatt.
  - exists pl. split_and!; [done|by destruct ks|]. by destruct ks.
Qed.

Lemma release_own {S} `{OpExecutor S} th (sh : shared S) k ks o r wss :
  th_id th = x →
  in_growing (th_pc (release_step th k ks o r sh).1) = false ∧
  pc_rest (th_pc (release_step th k ks o r sh).1) wss (sh_lm (release_step th k ks o r sh).2) =
    (verdict o, releases x ks (rel_rest k r (sh_lm sh))).
Proof.
  intros Hid. destruct r; simpl; try done.
  - case_match eqn:E; [done|]. simpl. unfold release. by rewrite E.
  - rewrite Hid, release_owner. by case_decide.
  - by rewrite Hid.
  - by destruct ks.
Qed.

Lemma thread_own {S} `{OpExecutor S} th (sh : shared S) pl :
  th_id th = x → (∀ c X, th_order th c X = iter_order c X) → started th = true →
  thread_ok (sh_lm sh) th → Forall (of_other x) (plan_accesses pl) →
  windows_used (th_pc (thread_step th sh).1) pl →
  ∃ pl', plan_accesses pl' = plan_accesses pl ∧ windows_used (th_pc th) pl' ∧
    run_plan (th_pc th) pl' (sh_lm sh) =
      run_plan (th_pc (thread_step th sh).1) pl (sh_lm (thread_step th sh).2).
Proof.
  intros Hid Hord Hst Hok Hother Hused. unfold thread_step, started in *.
  destruct (th_pc th) as [|k ks a|ran todo rs|o|o|o ks|k ks o r|o] eqn:Hpc.
  - done.
  - by apply acquire_own.
  - exists pl. unfold exec_step in *. destruct todo as [|op todo]; [done|].
    by destruct (visit op new_executor (sh_store sh)) as [[]?].
  - by exists pl.
  - exists pl. rewrite Hid in *. destruct (take_held x (sh_lm sh)) as [keys l] eqn:Ht.
    split_and!; [done..|]. unfold run_plan. simpl. unfold release_all. by rewrite Ht, Hord.
  - exists pl. by destruct ks.
  - exists pl. destruct (release_own th sh k ks o r (pl_windows pl) Hid) as [Hg Hrel].
    unfold run_plan. rewrite Hrel. split_and!; [done| |done]. intros _. by apply Hused.
  - exists pl. simpl in *. by rewrite Hpc in *.
Qed.

(** ** What the other threads do during a schedule *)
Fixpoint others {S} `{OpExecutor S} (tid : nat) (sched : list nat) (s : sys S) : list lock_access :=
  match sched with
  | [] => []
  | i :: sched' =>
      match sy_threads s !! i, step_thread i s with
      | Some th, Some s' =>
          (if decide (i = tid) then [] else accesses_of th (sh_lm (sy_shared s))) ++
          others tid sched' s'
      | _, _ => []
      end
  end.

Lemma accesses_short th l : accesses_of th l = [] ∨ ∃ a, accesses_of th l = [a].
Proof. unfold accesses_of. repeat case_match; eauto. Qed.

Lemma thread_other th (l : LockManager) thi pl :
  started th = true → (started thi = true → th_id thi ≠ x) →
  windows_used (th_pc th) pl →
  ∃ pl', plan_accesses pl' = accesses_of thi l ++ plan_accesses pl ∧ windows_used (th_pc th) pl' ∧
    run_plan (th_pc th) pl' l = run_plan (th_pc th) pl (perform_locks (accesses_of thi l) l).
Proof.
  intros Hst Hne Hused. destruct (accesses_short thi l) as [->|[a E]]; [by exists pl|].
  pose proof (accesses_of_other x thi l Hne) as Ho. pose proof (accesses_effective thi l) as He.
  rewrite E in *. apply Forall_cons_1 in Ho as [Ho _], He as [He _].
  exists (push (th_pc th) a pl). split_and!.
  - apply push_accesses. unfold windows_used in Hused.
    destruct (in_growing (th_pc th)); [by left|right; by apply Hused].
  - unfold windows_used, push in *. destruct (in_growing (th_pc th)); [done|]. by simpl.
  - apply run_plan_push; [done..|]. intros Hp. unfold started in Hst. by rewrite Hp in Hst.
Qed.

(** Every schedule that takes the thread to its end runs a plan. *)
Lemma schedule_plan {S} `{OpExecutor S} tid sched (s s' : sys S) th th' o :
  sys_inv s → run_schedule sched s = Some s' →
  sy_threads s !! tid = Some th → started th = true → th_id th = x →
  (∀ c X, th_order th c X = iter_order c X) →
  sy_threads s' !! tid = Some th' → th_pc th' = P_done o →
  ∃ pl, plan_accesses pl = others tid sched s ∧ Forall (of_other x) (plan_accesses pl) ∧
    windows_used (th_pc th) pl ∧
    run_plan (th_pc th) pl (sh_lm (sy_shared s)) = (verdict o, sh_lm (sy_shared s')).
Proof.
  revert s th. induction sched as [|i sched IH];
    intros s th Hinv Hrun Hth Hst Hid Hord Hth' Hdone.
  { simpl in Hrun. simplify_eq. exists (mkPlan [] []). rewrite Hdone. by split_and!. }
  simpl in Hrun. apply bind_Some in Hrun as (s1 & Hs1 & Hrun).
  pose proof (sys_inv_step _ _ Hinv (step_by _ _ _ Hs1)) as Hinv1.
  cbn [others]. pose proof Hs1 as Hstep. unfold step_thread in Hstep.
  destruct (sy_threads s !! i) as [thi|] eqn:Hthi; [|done]. rewrite Hs1.
  case_decide as Hen; [|done].
  destruct (thread_step thi (sy_shared s)) as [thi' sh'] eqn:Hts. simplify_eq.
  pose proof (thread_step_id thi (sy_shared s)) as (Htx & Hor & Hids & _ & Hst').
  rewrite Hts in *. simpl in *. destruct (decide (i = tid)) as [->|Hne].
  - assert (thi = th) as -> by congruence. destruct (Hids Hst) as [Hid' _].
    destruct (IH _ thi' Hinv1 Hrun) as (pl & Hacc & Hoth & Hused & Hplan);
      [apply lookup_insert_eq|done|congruence|by rewrite Hor|done..|].
    destruct (thread_own th (sy_shared s) pl) as (pl' & Hacc' & Hused' & Hplan');
      [done..|by eapply inv_thread|done|by rewrite Hts|].
    rewrite Hts in Hplan'. exists pl'. rewrite Hacc'. split_and!; [done..|].
    by rewrite Hplan'.
  - assert (Hneq : started thi = true → th_id thi ≠ th_id th).
    { intros Hsti E. by apply Hne, (inv_unique _ Hinv _ _ thi th). }
    destruct (IH _ th Hinv1 Hrun) as (pl & Hacc & Hoth & Hused & Hplan);
      [by simpl; rewrite lookup_insert_ne|done..|].
    destruct (thread_other th (sh_lm (sy_shared s)) thi pl) as (pl' & Hacc' & Hused' & Hplan');
      [done..|by rewrite <- Hid|done|].
    exists pl'. rewrite Hacc'. split_and!; [by rewrite Hacc| |done|].
    + apply Forall_app. split; [|done]. by apply accesses_of_other; rewrite <- Hid.
    + rewrite Hplan'. pose proof (thread_step_accesses thi (sy_shared s)) as Hlm.
      rewrite Hts in Hlm. by rewrite <- Hlm.
Qed.

(** ** The plan is an environment of the function *)
Lemma enter_acquire k ws l :
  Forall (of_other x) (open_window ws) →
  acquire (to_interference ws) k x l =
    (Ok (enter k ws (emplace_entry k l)).1, (enter k ws (emplace_entry k l)).2).
Proof.
  intros Hws. rewrite acquire_entered.
  - by apply tries_wait_die.
  - by apply (rely_dom x), rely_performs.
Qed.

(** The windows of the key's call: the keys are locked in the order [ks]. *)
Fixpoint window_env (ks : list KeyType) (wss : list windows) (k : KeyType) : windows :=
  match ks with
  | [] => []
  | k' :: ks' => if decide (k = k') then hd [] wss else window_env ks' (tail wss) k
  end.
End rest.

(** ** The phases of a transaction in a schedule *)
Section phases.
Context {S : Type} `{KVStore S} `{!KVStoreSpec S} `{OpExecutor S} `{!OpExecutorSpec S}.
Implicit Types (s : sys S) (sh : shared S).

Lemma run_schedule_app l l' s : run_schedule (l ++ l') s = run_schedule l s ≫= run_schedule l'.
Proof.
  revert s. induction l as [|i l IH]; intros s; simpl; [done|].
  destruct (step_thread i s); [apply IH|done].
Qed.

(** The first step of a schedule, by the thread [tid] or by another. *)
Lemma run_schedule_step tid i sched s s' th :
  sys_inv s → run_schedule (i :: sched) s = Some s' → sy_threads s !! tid = Some th →
  ∃ s1 th1, step_thread i s = Some s1 ∧ sys_inv s1 ∧ run_schedule sched s1 = Some s' ∧
    sy_threads s1 !! tid = Some th1 ∧
    if decide (i = tid) then thread_step th (sy_shared s) = (th1, sy_shared s1)
    else th1 = th ∧ ∃ thi, sy_threads s !! i = Some thi ∧
           sy_shared s1 = (thread_step thi (sy_shared s)).2.
Proof.
  intros Hinv Hrun Hth. simpl in Hrun. apply bind_Some in Hrun as (s1 & Hs1 & Hrun).
  exists s1. pose proof (sys_inv_step _ _ Hinv (step_by _ _ _ Hs1)) as Hinv1.
  unfold step_thread in Hs1 |- *. destruct (sy_threads s !! i) as [thi|] eqn:Hthi; [|done].
  case_decide; [|done]. destruct (thread_step thi (sy_shared s)) as [thi' sh'] eqn:Hts.
  simplify_eq. case_decide as Hi; [subst|]; simpl.
  - exists thi'. simplify_eq. split_and!; [done..|apply lookup_insert_eq|done].
  - exists th. rewrite lookup_insert_ne by done. split_and!; [done..|]. exists thi.
    by rewrite Hts.
Qed.

Lemma outcome_stays tid sched s s' th th' o :
  sys_inv s → run_schedule sched s = Some s' → sy_threads s !! tid = Some th →
  pc_outcome (th_pc th) = Some o → sy_threads s' !! tid = Some th' →
  pc_outcome (th_pc th') = Some o.
Proof.
  revert s th. induction sched as [|i sched IH]; intros s th Hinv Hrun Hth Ho Hth'.
  { simpl in Hrun. by simplify_eq. }
  destruct (run_schedule_step _ _ _ _ _ _ Hinv Hrun Hth)
    as (s1 & th1 & _ & Hinv1 & Hrun1 & Hth1 & Hcase).
  apply (IH s1 th1); [done..| |done]. case_decide; [|by destruct Hcase as [-> _]].
  unfold thread_step in Hcase. destruct (th_pc th) as [|k ks a|ran todo rs|o'|o'|o' ks|k ks o' r|o'] eqn:Hpc;
    try done; simpl in Ho; simplify_eq/=; try done.
  - destruct (take_held _ _); by simplify_eq.
  - by destruct ks.
  - destruct r; simpl in Hcase; repeat case_match; simplify_eq/=; try done; by destruct ks.
  - by rewrite Hpc.
Qed.

Lemma transaction_stays tid sched s s' th th' :
  sys_inv s → run_schedule sched s = Some s' → sy_threads s !! tid = Some th →
  sy_threads s' !! tid = Some th' → th_tx th' = th_tx th.
Proof.
  revert s th. induction sched as [|i sched IH]; intros s th Hinv Hrun Hth Hth'.
  { simpl in Hrun. by simplify_eq. }
  destruct (run_schedule_step _ _ _ _ _ _ Hinv Hrun Hth)
    as (s1 & th1 & _ & Hinv1 & Hrun1 & Hth1 & Hcase).
  rewrite (IH s1 th1) by done. case_decide; [|by destruct Hcase as [-> _]].
  pose proof (thread_step_id th (sy_shared s)) as (Htx & _). by rewrite Hcase in Htx.
Qed.

(** While a thread executes, others leave the values of its keys alone. *)
Lemma other_store tid i s th thi :
  sys_inv s → sy_threads s !! tid = Some th → sy_threads s !! i = Some thi → i ≠ tid →
  executing th = true →
  agree_on (tx_keys (th_tx th)) (sh_store (thread_step thi (sy_shared s)).2)
    (sh_store (sy_shared s)).
Proof.
  intros Hinv Hth Hthi Hne Hex k Hk. destruct (executing thi) eqn:Hexi.
  2:{ by rewrite (proj1 (thread_step_quiet thi (sy_shared s) Hexi)). }
  pose proof Hexi as (ran & todo & r & Hpc)%executing_pc.
  pose proof (inv_thread _ Hinv _ _ Hthi) as Hok. unfold thread_ok in Hok. rewrite Hpc in Hok.
  destruct Hok as (_ & Htx & _). unfold thread_step. rewrite Hpc. unfold exec_step.
  destruct todo as [|op todo]; [done|].
  destruct (visit_spec op new_executor (sh_store (sy_shared s))) as (v & -> & _). simpl.
  apply apply_op_frame. intros ->. apply Hne.
  apply (executing_disjoint s _ _ thi th (op_key op)); try done.
  apply elem_of_tx_keys. exists op. rewrite Htx. set_solver.
Qed.

(** [s1] is a state the schedule passes through. *)
Definition passes (sched : list nat) (s s1 s' : sys S) : Prop :=
  ∃ l l', sched = l ++ l' ∧ run_schedule l s = Some s1 ∧ run_schedule l' s1 = Some s'.

Lemma passes_here sched s s' : run_schedule sched s = Some s' → passes sched s s s'.
Proof. intros Hrun. by exists [], sched. Qed.

Lemma passes_step i sched s s0 s1 s' :
  step_thread i s = Some s0 → passes sched s0 s1 s' → passes (i :: sched) s s1 s'.
Proof. intros Hi (l & l' & -> & Hl & Hl'). exists (i :: l), l'. simpl. by rewrite Hi. Qed.

(** From the lock point on, the reads and the values left are those of running
    the rest of the transaction on the store found there. *)
Lemma execution_phase tid sched s s' th th' ran todo r o :
  sys_inv s → run_schedule sched s = Some s' →
  sy_threads s !! tid = Some th → th_pc th = P_exec ran todo r →
  sy_threads s' !! tid = Some th' → th_pc th' = P_done o →
  o = Committed (r ++ tx_reads todo (sh_store (sy_shared s))) ∧
  ∃ s2 th2, passes sched s s2 s' ∧ sy_threads s2 !! tid = Some th2 ∧
    th_pc th2 = P_take_lock o ∧
    agree_on (tx_keys (th_tx th)) (sh_store (sy_shared s2))
      (apply_tx todo (sh_store (sy_shared s))).
Proof.
  revert s th ran todo r. induction sched as [|i sched IH];
    intros s th ran todo r Hinv Hrun Hth Hpc Hth' Hdone.
  { simpl in Hrun. simplify_eq. congruence. }
  destruct (run_schedule_step _ _ _ _ _ _ Hinv Hrun Hth)
    as (s1 & th1 & Hs1 & Hinv1 & Hrun1 & Hth1 & Hcase).
  pose proof (inv_thread _ Hinv _ _ Hth) as Hok. unfold thread_ok in Hok. rewrite Hpc in Hok.
  destruct Hok as (_ & Htx & _). case_decide as Hi; [subst i|].
  - unfold thread_step in Hcase. rewrite Hpc in Hcase. unfold exec_step in Hcase.
    destruct todo as [|op todo].
    + injection Hcase as <- Hsh. simpl.
      pose proof (outcome_stays _ _ _ _ _ _ (Committed r) Hinv1 Hrun1 Hth1 eq_refl Hth') as Ho.
      rewrite Hdone in Ho. simplify_eq/=. rewrite app_nil_r. split; [done|].
      exists s1, (goto th (P_take_lock (Committed r))). split_and!; [|done..|by rewrite Hsh].
      eapply passes_step; [done|]. by apply passes_here.
    + destruct (visit_spec op new_executor (sh_store (sy_shared s))) as (v & Hv & Hres).
      rewrite Hv in Hcase. injection Hcase as <- Hsh.
      destruct (IH s1 _ (ran ++ [op]) todo _ Hinv1 Hrun1 Hth1 eq_refl Hth' Hdone)
        as (-> & s2 & th2 & Hp & Hth2 & Hpc2 & Hagree).
      rewrite <- Hsh in *. cbn [sh_store goto th_tx] in *. split.
      * simpl. f_equal. destruct op as [k|k y]; simpl in *; [|done].
        by rewrite Hres, <- (assoc_L (++)).
      * exists s2, th2. split_and!; [by eapply passes_step|done..].
  - destruct Hcase as (-> & thi & Hthi & Hsh).
    assert (Hstore : agree_on (tx_keys (th_tx th)) (sh_store (sy_shared s1))
                       (sh_store (sy_shared s))).
    { rewrite Hsh. apply (other_store tid i); try done. apply executing_pc; eauto. }
    assert (Hsub : tx_keys todo ⊆ tx_keys (th_tx th)).
    { rewrite Htx. intros k. rewrite !elem_of_tx_keys. set_solver. }
    destruct (IH s1 th ran todo r Hinv1 Hrun1 Hth1 Hpc Hth' Hdone)
      as (-> & s2 & th2 & Hp & Hth2 & Hpc2 & Hagree).
    rewrite (tx_reads_agree todo _ _ _ Hsub Hstore) in *. split; [done|].
    exists s2, th2. split_and!; [by eapply passes_step|done..|].
    intros k Hk. rewrite Hagree by done. by apply (apply_tx_agree todo (tx_keys (th_tx th))).
Qed.

(** A growing phase ends at the lock point, or refused. *)
Lemma growing_phase tid sched s s' th th' k ks a o :
  sys_inv s → run_schedule sched s = Some s' →
  sy_threads s !! tid = Some th → th_pc th = P_acquire k ks a →
  sy_threads s' !! tid = Some th' → th_pc th' = P_done o →
  o = Aborted ∨
  ∃ s1 th1, passes sched s s1 s' ∧ sys_inv s1 ∧ sy_threads s1 !! tid = Some th1 ∧
    th_pc th1 = P_exec [] (th_tx th) [] ∧ th_tx th1 = th_tx th.
Proof.
  revert s th k ks a. induction sched as [|i sched IH];
    intros s th k ks a Hinv Hrun Hth Hpc Hth' Hdone.
  { simpl in Hrun. simplify_eq. congruence. }
  destruct (run_schedule_step _ _ _ _ _ _ Hinv Hrun Hth)
    as (s1 & th1 & Hs1 & Hinv1 & Hrun1 & Hth1 & Hcase).
  assert (Hgo : ∀ k ks a, th_pc th1 = P_acquire k ks a → th_tx th1 = th_tx th →
    o = Aborted ∨ ∃ s2 th2, passes (i :: sched) s s2 s' ∧ sys_inv s2 ∧ sy_threads s2 !! tid = Some th2 ∧
      th_pc th2 = P_exec [] (th_tx th) [] ∧ th_tx th2 = th_tx th).
  { intros k0 ks0 a0 Hpc1 Htx1. rewrite <- Htx1.
    destruct (IH s1 th1 k0 ks0 a0) as [?|(s2 & th2 & Hp & ?)]; [done..|by left|right].
    exists s2, th2. split; [by eapply passes_step|done]. }
  case_decide as Hi; [subst i|]; [|destruct Hcase as (-> & _); by eapply Hgo].
  pose proof (inv_thread _ Hinv _ _ Hth) as Hok. unfold thread_ok in Hok. rewrite Hpc in Hok.
  destruct Hok as (_ & Ha & _). unfold thread_step in Hcase. rewrite Hpc in Hcase.
  destruct a as [| | | | | | | |j|j|j|[]]; simpl in Hcase, Ha;
    try (injection Hcase as <- Hsh; by eapply Hgo).
  - apply elem_of_dom in Ha as [e He]. rewrite He in Hcase. injection Hcase as <- Hsh.
    by eapply Hgo.
  - repeat case_match; injection Hcase as <- Hsh; by eapply Hgo.
  - injection Hcase as <- Hsh. destruct ks as [|k' ks]; [|by eapply Hgo]. right.
    exists s1, (goto th (P_exec [] (th_tx th) [])). split_and!; [|done..].
    eapply passes_step; [done|]. by apply passes_here.
  - injection Hcase as <- Hsh. left.
    pose proof (outcome_stays _ _ _ _ _ _ Aborted Hinv1 Hrun1 Hth1 eq_refl Hth') as Ho.
    rewrite Hdone in Ho. by simplify_eq/=.
Qed.
End phases.

(** ** A transaction of the interleaving is a call of [execute_transaction] *)
Section refinement.
Context {S : Type} `{KVStore S} `{!KVStoreSpec S} `{OpExecutor S} `{!OpExecutorSpec S}
  `{Json} `{StdHash} `{!Iteration Z} `{!TransactionServer}.
Implicit Types (s : sys S) (σ : Scheduler S).

(** The windows of a plan as the environment of the call. *)
Definition plan_env (ks : list KeyType) (pl : plan) : Environment (S:=S) :=
  {| env_acquire := λ k, to_interference (window_env ks (pl_windows pl) k);
     env_lock_wait := []; env_op_wait := λ _, only_wakeups [] |}.

Lemma window_env_other x ks wss k :
  Forall (of_other x) (concat (concat wss)) → Forall (Forall (of_other x)) (window_env ks wss k).
Proof.
  revert wss. induction ks as [|k' ks IH]; intros [|ws wss] Hall; simpl; [done..| |].
  - case_decide; [done|]. by apply IH.
  - simpl in Hall. rewrite concat_app, Forall_app in Hall. destruct Hall as [Hws Hall].
    case_decide; [by apply Forall_concat|by apply IH].
Qed.

Lemma to_interference_respects x ws :
  Forall (Forall (of_other x)) ws → respects x (to_interference ws).
Proof.
  intros Hws. split; simpl.
  - intros l. apply rely_performs. by destruct Hws.
  - intros i l. apply rely_performs. rewrite nth_lookup.
    destruct (tail ws !! i) as [w|] eqn:E; [|done]. simpl.
    apply (Forall_lookup_1 _ (tail ws) i w); [by destruct Hws|done].
Qed.

Lemma plan_env_fair x ks pl :
  Forall (of_other x) (plan_accesses pl) → fair_env x (env_acquire (plan_env ks pl)).
Proof.
  intros [Hw _]%Forall_app k. by apply to_interference_respects, window_env_other.
Qed.

Lemma grow_acquire_local x env ks wss σ :
  NoDup ks → Forall (of_other x) (concat (concat wss)) →
  (∀ k, k ∈ ks → env k = to_interference (window_env ks wss k)) →
  ∃ l1, acquire_local env ks x σ =
          (Ok (grow x ks wss (lock_manager σ)).1, set_lock_manager l1 σ) ∧
        (grow x ks wss (lock_manager σ)).2 =
          if (grow x ks wss (lock_manager σ)).1 then release_all x l1 else l1.
Proof.
  revert wss σ. induction ks as [|k ks IH]; intros wss σ Hnd Hall Henv.
  { exists (lock_manager σ). by destruct σ. }
  apply NoDup_cons in Hnd as [Hk Hnd].
  assert (Hws : Forall (of_other x) (open_window (hd [] wss)) ∧
                Forall (of_other x) (concat (concat (tail wss)))).
  { destruct wss as [|[|w ws] wss]; simpl in *; [done..|].
    rewrite Forall_app, concat_app, Forall_app in Hall. by destruct Hall as (? & _ & ?). }
  destruct Hws as [Hopen Htail]. pose proof (enter_acquire x k _ (lock_manager σ) Hopen) as Hacq.
  cbn [acquire_local grow]. rewrite Henv by (apply elem_of_cons; auto). cbn [window_env].
  rewrite decide_True by done. rewrite (bind_ok _ _ _ _ _ (on_locks_run _ _ _ _ Hacq)).
  destruct (enter x k (hd [] wss) (emplace_entry k (lock_manager σ))) as [[] l1]; cbn [fst snd].
  - apply (IH (tail wss) (set_lock_manager l1 σ)); [done..|]. intros k' Hk'.
    rewrite Henv by (apply elem_of_cons; auto). cbn [window_env]. by rewrite decide_False by (intros ->; done).
  - exists (release_all x l1). split; [|done]. by rewrite (bind_ok _ _ _ _ _ (release_all_run _ _)).
Qed.

(** The first step draws the id. *)
Lemma start_step tid tx sched s s' :
  sys_inv s → sy_threads s !! tid = Some (fresh_thread tx iter_order) →
  run_schedule (tid :: sched) s = Some s' →
  ∃ sa tha, step_thread tid s = Some sa ∧ sys_inv sa ∧ run_schedule sched sa = Some s' ∧
    sy_threads sa !! tid = Some tha ∧
    tha = mkThread tx iter_order (sh_next (sy_shared s)) 
            (next_acquire tx (iter_order (LocalKeys (sh_next (sy_shared s))) (tx_keys tx))) ∧
    sh_lm (sy_shared sa) = sh_lm (sy_shared s).
Proof.
  intros Hinv Hth Hrun.
  destruct (run_schedule_step _ _ _ _ _ _ Hinv Hrun Hth)
    as (sa & tha & Hsa & Hinva & Hruna & Htha & Hcase).
  rewrite decide_True in Hcase by done. injection Hcase as <- Hsh.
  exists sa. eexists. split_and!; [done..|]. by rewrite <- Hsh.
Qed.

(** What has become of a started transaction at its end. *)
Lemma transaction_phases tid sched s s' th th' o :
  sys_inv s → run_schedule sched s = Some s' → sy_threads s !! tid = Some th →
  th_pc th = next_acquire (th_tx th) (iter_order (LocalKeys (th_id th)) (tx_keys (th_tx th))) →
  sy_threads s' !! tid = Some th' → th_pc th' = P_done o →
  o = Aborted ∨
  ∃ s1 th1 s2 th2, passes sched s s1 s' ∧
    sy_threads s1 !! tid = Some th1 ∧ th_pc th1 = P_exec [] (th_tx th) [] ∧
    o = Committed (tx_reads (th_tx th) (sh_store (sy_shared s1))) ∧
    passes sched s s2 s' ∧ sy_threads s2 !! tid = Some th2 ∧ th_pc th2 = P_take_lock o ∧
    agree_on (tx_keys (th_tx th)) (sh_store (sy_shared s2))
      (apply_tx (th_tx th) (sh_store (sy_shared s1))).
Proof.
  intros Hinv Hrun Hth Hpc Hth' Hdone.
  assert (Hlock : o = Aborted ∨ ∃ s1 th1, passes sched s s1 s' ∧ sys_inv s1 ∧
    sy_threads s1 !! tid = Some th1 ∧ th_pc th1 = P_exec [] (th_tx th) [] ∧ th_tx th1 = th_tx th).
  { destruct (iter_order (LocalKeys (th_id th)) (tx_keys (th_tx th))) as [|k ks] eqn:E.
    - right. exists s, th. split_and!; [by apply passes_here|done..].
    - by eapply growing_phase. }
  destruct Hlock as [|(s1 & th1 & Hp & Hinv1 & Hth1 & Hpc1 & Htx1)]; [by left|right].
  destruct Hp as (l & l' & -> & Hl & Hl').
  destruct (execution_phase _ _ _ _ _ _ _ _ _ _ Hinv1 Hl' Hth1 Hpc1 Hth' Hdone)
    as (Ho & s2 & th2 & (l1 & l2 & -> & Hl1 & Hl2) & Hth2 & Hpc2 & Hagree).
  rewrite Htx1 in Hagree. exists s1, th1, s2, th2.
  split_and!; [by eexists l, _|done|done|exact Ho| |done..].
  - exists (l ++ l1), l2. split_and!; [by rewrite (assoc_L (++))| |done].
    by rewrite run_schedule_app, Hl.
Qed.

(** The function under a plan: what the plan does, and the whole transaction
    or nothing. *)
Lemma plan_execution tx pl b l' σ :
  let t := next_tx_id σ in
  let env := plan_env (iter_order (LocalKeys t) (tx_keys tx)) pl in
  coordinator (node σ) = None → idle t (lock_manager σ) →
  Forall (of_other t) (plan_accesses pl) →
  grow t (iter_order (LocalKeys t) (tx_keys tx)) (pl_windows pl) (lock_manager σ) = (b, l') →
  ∃ σ', execute_transaction env tx σ =
          (Ok (if b then tx_reads tx (store σ) else []), σ') ∧
    lock_manager σ' = l' ∧ store σ' = (if b then apply_tx tx (store σ) else store σ).
Proof.
  intros t env Hc Hidle Hoth Hgrow. pose proof (plan_env_fair t (iter_order (LocalKeys t) (tx_keys tx)) pl Hoth) as Hfair.
  unfold execute_transaction. rewrite bind_gets, bind_modify. fold t.
  set (σ1 := set_next (u64 (t + 1)) σ).
  destruct (local_run env tx t σ1) as (b1 & l1 & m & Hacq & _ & _ & Hm & ->);
    [done|done|by apply idle_tracked|].
  destruct (grow_acquire_local t (env_acquire env) (iter_order (LocalKeys t) (tx_keys tx)) (pl_windows pl) σ1)
    as (l2 & Hacq' & Hl2); [apply NoDup_iter_order|by apply Forall_app in Hoth as [? _]|done|].
  rewrite Hacq' in Hacq. change (lock_manager σ1) with (lock_manager σ) in *.
  rewrite Hgrow in *. simpl in *. injection Hacq as -> Hl. assert (l2 = l1) as -> by congruence.
  destruct b1; subst.
  - rewrite execute_operations_reads by done. by eexists.
  - by eexists.
Qed.

(** What a whole transaction of the interleaving amounts to. *)
Lemma transaction_as_call G0 s0 s tid tx sched s' th' o :
  initial G0 s0 → rtc step s0 s →
  sy_threads s !! tid = Some (fresh_thread tx iter_order) →
  run_schedule (tid :: sched) s = Some s' →
  sy_threads s' !! tid = Some th' → th_pc th' = P_done o →
  let t := sh_next (sy_shared s) in
  ∃ pl s1,
    plan_accesses pl = others tid (tid :: sched) s ∧
    Forall (of_other t) (plan_accesses pl) ∧
    passes (tid :: sched) s s1 s' ∧
    (∀ r, o = Committed r → ∃ th1, sy_threads s1 !! tid = Some th1 ∧ th_pc th1 = P_exec [] tx []) ∧
    ∀ σ, coordinator (node σ) = None → lock_manager σ = sh_lm (sy_shared s) →
         store σ = sh_store (sy_shared s1) → next_tx_id σ = t →
      let env := plan_env (iter_order (LocalKeys t) (tx_keys tx)) pl in
      fair_env t (env_acquire env) ∧
      ∃ reads σ', execute_transaction env tx σ = (Ok reads, σ') ∧
        sh_lm (sy_shared s') = perform_locks (pl_after pl) (lock_manager σ') ∧
        match o with
        | Committed r => r = reads ∧
            ∃ s2 th2, passes (tid :: sched) s s2 s' ∧ sy_threads s2 !! tid = Some th2 ∧
              th_pc th2 = P_take_lock o ∧
              agree_on (tx_keys tx) (sh_store (sy_shared s2)) (store σ')
        | Aborted => reads = [] ∧ store σ' = store σ
        | Failed _ => False
        end.
Proof.
  intros Hinit Hsteps Hth Hrun Hth' Hdone t.
  pose proof (sys_inv_reachable _ _ _ Hinit Hsteps) as Hinv.
  destruct (start_step _ _ _ _ _ Hinv Hth Hrun)
    as (sa & tha & Hsa & Hinva & Hruna & Htha & Etha & Hlm).
  destruct (schedule_plan t tid sched sa s' tha th' o) as (pl & Hacc & Hoth & _ & Hplan);
    [done..|by subst tha; destruct (iter_order _)|by subst tha|by subst tha|done|done|].
  assert (Hgrow : pc_rest t (th_pc tha) (pl_windows pl) (sh_lm (sy_shared sa)) =
    grow t (iter_order (LocalKeys t) (tx_keys tx)) (pl_windows pl) (sh_lm (sy_shared s))).
  { subst tha. rewrite Hlm. apply next_acquire_rest. }
  unfold run_plan in Hplan. rewrite Hgrow in Hplan.
  destruct (grow t _ _ _) as [b l'] eqn:Eg. injection Hplan as -> Hlm'.
  assert (Hidle : idle t (sh_lm (sy_shared s))) by by apply unused_next_idle.
  assert (Hpass : ∀ s1, passes sched sa s1 s' → passes (tid :: sched) s s1 s')
    by (intros; by eapply passes_step).
  assert (Hothers : others tid (tid :: sched) s = others tid sched sa).
  { cbn [others]. by rewrite Hth, Hsa, decide_True. }
  destruct (transaction_phases tid sched sa s' tha th' o) as
    [->|(s1 & th1 & s2 & th2 & Hp1 & Hth1 & Hpc1 & -> & Hp2 & Hth2 & Hpc2 & Hagree)]; [done..|by subst tha|done|done| |].
  - exists pl, sa. rewrite Hothers. split_and!; [done..|by apply Hpass, passes_here|done|].
    intros σ Hc Hl Hs Ht env. split; [by apply plan_env_fair|]. subst env.
    rewrite <- Ht, <- Hl in *.
    destruct (plan_execution tx pl false l' σ) as (σ' & Hrunσ & <- & Hst); [done..|].
    by exists [], σ'.
  - exists pl, s1. rewrite Hothers. split_and!; [done..|by apply Hpass|by subst tha; eauto|].
    intros σ Hc Hl Hs Ht env. split; [by apply plan_env_fair|]. subst env.
    rewrite <- Ht, <- Hl in *.
    destruct (plan_execution tx pl true l' σ) as (σ' & Hrunσ & <- & Hst); [done..|].
    eexists _, σ'. split; [done|]. split; [done|]. rewrite Hst, Hs. subst tha. split; [done|].
    exists s2, th2. split_and!; [by apply Hpass|done..].
Qed.

(** C5. A transaction of the interleaving is a call of execute_transaction: take any
    interleaving of the threads of a node, from the first step of a transaction to its
    return. There are windows for the method - per key, one before the entry is locked and
    one after each failed test - filled with the accesses the other threads made to the lock
    manager, every access once and in the order they happened, the last ones after the call;
    on the lock manager at the start and, for a transaction that commits, the store at its
    lock point - a state passed through in which the thread has all its locks and has run no
    operation - the method with these windows returns the reads of the interleaving, or no
    reads if it aborted, leaves the lock manager that the remaining accesses turn into the
    one at the end, and the values of its keys are those in the store when the thread starts
    to release. Such windows keep to the protocol that the theorems on the methods ask for. *)
Theorem interleaved_transaction_refines_scheduler G0 s0 s tid tx sched s' th' o :
  initial G0 s0 → rtc step s0 s →
  sy_threads s !! tid = Some (fresh_thread tx iter_order) →
  run_schedule (tid :: sched) s = Some s' →
  sy_threads s' !! tid = Some th' → th_pc th' = P_done o →
  let t := sh_next (sy_shared s) in
  ∃ pl s1,
    plan_accesses pl = others tid (tid :: sched) s ∧
    Forall (of_other t) (plan_accesses pl) ∧
    passes (tid :: sched) s s1 s' ∧
    (∀ r, o = Committed r → ∃ th1, sy_threads s1 !! tid = Some th1 ∧ th_pc th1 = P_exec [] tx []) ∧
    ∀ σ, coordinator (node σ) = None → lock_manager σ = sh_lm (sy_shared s) →
         store σ = sh_store (sy_shared s1) → next_tx_id σ = t →
      let env := plan_env (iter_order (LocalKeys t) (tx_keys tx)) pl in
      fair_env t (env_acquire env) ∧
      ∃ reads σ', execute_transaction env tx σ = (Ok reads, σ') ∧
        sh_lm (sy_shared s') = perform_locks (pl_after pl) (lock_manager σ') ∧
        match o with
        | Committed r => r = reads ∧
            ∃ s2 th2, passes (tid :: sched) s s2 s' ∧ sy_threads s2 !! tid = Some th2 ∧
              th_pc th2 = P_take_lock o ∧
              agree_on (tx_keys tx) (sh_store (sy_shared s2)) (store σ')
        | Aborted => reads = [] ∧ store σ' = store σ
        | Failed _ => False
        end.
Proof. apply transaction_as_call. Qed.
End refinement.

(** ** The hypotheses hold

    Thread 1 wants key 1 while thread 0 owns it: its first test fails; in the
    window after it thread 0 commits and releases, and the second test
    succeeds.  Thread 2 locks key 3 in the middle of that. *)
Module RefinementDemo.
Import Demo.

Definition waiting_start : sys demo_store := demo_at (replicate 12 0).
Definition waiting_sched : list nat :=
  replicate 18 1 ++ replicate 11 2 ++ replicate 2 1 ++ replicate 14 0 ++ replicate 27 1.
Definition waiting_end : sys demo_store := demo_at (replicate 12 0 ++ 1 :: waiting_sched).

Lemma waiting_rtc : rtc step demo_start waiting_start.
Proof. demo_run. Qed.

(** A scheduler with the lock manager of the start and a given store. *)
Definition waiting_node (st : demo_store) : Scheduler demo_store :=
  mkScheduler (sh_lm (sy_shared waiting_start)) st 2 (node demo_node) (remote demo_node) [].

#[local] Existing Instance mixed_iteration | 0.

Lemma interleaved_transaction_refines_scheduler_witness :
  ∃ pl s1 σ',
    plan_accesses pl = [Emplace 3; Track 3 3; Own 3 3; Take 1; Disown 1 1; Untrack 1 1] ∧
    execute_transaction (plan_env (elements (tx_keys [ReadOp 1; AppendOp 2 20])) pl)
      [ReadOp 1; AppendOp 2 20] (waiting_node (sh_store (sy_shared s1))) =
      (Ok [(1%Z, Some [10%Z])], σ') ∧
    sh_lm (sy_shared waiting_end) = perform_locks (pl_after pl) (lock_manager σ').
Proof.
  destruct (interleaved_transaction_refines_scheduler ∅ demo_start waiting_start 1
    [ReadOp 1; AppendOp 2 20] waiting_sched waiting_end
    (mkThread [ReadOp 1; AppendOp 2 20] mixed_order 2 (P_done (Committed [(1%Z, Some [10%Z])])))
    (Committed [(1%Z, Some [10%Z])]))
    as (pl & s1 & Hacc & _ & _ & _ & Hσ).
  - exact demo_initial.
  - exact waiting_rtc.
  - vm_compute. reflexivity.
  - vm_compute. reflexivity.
  - vm_compute. reflexivity.
  - reflexivity.
  - destruct (Hσ (waiting_node (sh_store (sy_shared s1)))) as (_ & reads & σ' & Hrun & Hlm & Hr & _).
    + reflexivity.
    + reflexivity.
    + reflexivity.
    + vm_compute. reflexivity.
    + exists pl, s1, σ'. split; [rewrite Hacc; vm_compute; reflexivity|].
      rewrite Hr. split; [exact Hrun|exact Hlm].
Defined.
End RefinementDemo.
