(* ===== verification/Handlers.v ===== *)
(** * Messages from peers

    The [handle_*] methods of [TwoPLScheduler.cpp]: the code that runs at a
    key's primary node for a remote transaction and at the requesting node
    when answers come back. *)
From S2P Require Import Prelude Operations KVStore LockManager Json Coordinator Scheduler SchedulerLocal.

(** ** C strings

    [p == q] on [const char*] compares addresses.  A literal is an object of
    its own; [c_str()] of a JSON string points into that string's buffer. *)
Inductive char_ptr := to_literal (text : string) | to_json_buffer (text : string).

Definition same_address (p q : char_ptr) : bool :=
  match p, q with
  | to_literal a, to_literal b => bool_decide (a = b)
  | to_json_buffer a, to_json_buffer b => bool_decide (a = b)
  | _, _ => false
  end.

Section handlers.
Context {S : Type} `{KVStore S} `{OpExecutor S} `{Json} `{StdHash} `{!Iteration Z}
  `{!TransactionServer}.
Implicit Types (s : Scheduler S).

(** [error(...)] writes a log line. *)
Definition log_error (what : string) : M (Scheduler S) unit := mret tt.

Definition handle_lock_request (env : Interference) (peer_id : NodeID) (msg : object)
    : M (Scheduler S) unit :=
  catch_std
    (if negb (contains msg "tx_id") || negb (contains msg "key") then mret tt
     else
       tx_id ← (v ← at_ msg "tx_id"; uint64_of v);
       key ← (v ← at_ msg "key"; int64_of v);
       result ← on_locks (acquire env key tx_id);
       let type := match result with
                   | ACQUIRED => MessageType.LOCK_GRANTED
                   | ABORTED => MessageType.LOCK_DENIED
                   end in
       send peer_id (tx_key_message type tx_id key))
    log_error.

(** [pending_remote_locks[tx_id][peer_id].erase(key)] and the clean-up after it. *)
Definition note_granted (tx_id : TransactionId) (peer_id : NodeID) (key : KeyType)
    (r : RemoteState) : RemoteState :=
  match pending_remote_locks r !! tx_id with
  | Some m =>
      match m !! peer_id with
      | Some keys =>
          if decide (key ∈ keys) then
            let m' := if decide (keys ∖ {[key]} = ∅) then delete peer_id m
                      else <[peer_id := keys ∖ {[key]}]> m in
            set_pending_locks (<[tx_id := m']> (pending_remote_locks r)) r
          else r
      | None => r
      end
  | None => r
  end.

Definition handle_lock_response (peer_id : NodeID) (msg : object) : M (Scheduler S) unit :=
  catch_std
    (if negb (contains msg "tx_id") || negb (contains msg "key") then mret tt
     else
       tx_id ← (v ← at_ msg "tx_id"; uint64_of v);
       key ← (v ← at_ msg "key"; int64_of v);
       type ← (v ← at_ msg "type"; string_of v);
       let granted := same_address (to_json_buffer type)
                        (to_literal MessageType.LOCK_GRANTED) in
       if granted then on_remote (note_granted tx_id peer_id key)
       else on_remote (erase_pending tx_id))
    log_error.

Definition handle_lock_release (peer_id : NodeID) (msg : object) : M (Scheduler S) unit :=
  catch_std
    (if negb (contains msg "tx_id") || negb (contains msg "key") then mret tt
     else
       tx_id ← (v ← at_ msg "tx_id"; uint64_of v);
       key ← (v ← at_ msg "key"; int64_of v);
       on_locks (modify (release key tx_id)))
    log_error.

(** The answer to an operation request. *)
Definition op_response (tx_id : TransactionId) (key : KeyType) (result : option ValueContainer)
    : object :=
  obj_set (tx_key_message MessageType.OP_RESPONSE tx_id key) "value"
    (match result with Some l => v_array (v_int64 <$> l) | None => v_null end).

Definition handle_operation_request (peer_id : NodeID) (msg : object) : M (Scheduler S) unit :=
  catch_std
    (if negb (contains msg "tx_id") || negb (contains msg "op_type") || negb (contains msg "key")
     then mret tt
     else
       tx_id ← (v ← at_ msg "tx_id"; uint64_of v);
       op_type ← (v ← at_ msg "op_type"; string_of v);
       key ← (v ← at_ msg "key"; int64_of v);
       if decide (c_str op_type = "append"%string) then
         if negb (contains msg "value") then mret tt
         else
           x ← (v ← at_ msg "value"; int64_of v);
           _ ← on_store (visit (AppendOp key x) new_executor);
           send peer_id (op_response tx_id key None)
       else if decide (c_str op_type = "read"%string) then
         v ← on_store (visit (ReadOp key) new_executor);
         send peer_id (op_response tx_id key (exec_result v).1)
       else send peer_id (op_response tx_id key None))
    log_error.

(** [for (const auto& val : value_arr) result.push_back(val.as_int64());] *)
Fixpoint int64_array (l : list value) : M (Scheduler S) ValueContainer :=
  match l with
  | [] => mret []
  | v :: l' => z ← int64_of v; zs ← int64_array l'; mret (z :: zs)
  end.

Definition store_result (tx_id : TransactionId) (key : KeyType) (x : ValueContainer)
    (r : RemoteState) : RemoteState :=
  set_results (<[tx_id := <[key := x]> (default ∅ (remote_results r !! tx_id))]>
                 (remote_results r)) r.

Definition handle_operation_response (peer_id : NodeID) (msg : object) : M (Scheduler S) unit :=
  catch_std
    (if negb (contains msg "tx_id") || negb (contains msg "key") then mret tt
     else
       tx_id ← (v ← at_ msg "tx_id"; uint64_of v);
       key ← (v ← at_ msg "key"; int64_of v);
       has_value ← (if contains msg "value"
                    then v ← at_ msg "value"; mret (negb (is_null v))
                    else mret false);
       result ← (if (has_value : bool)
                 then v ← at_ msg "value"; l ← array_of v; int64_array l
                 else mret []);
       _ ← on_remote (store_result tx_id key result);
       on_remote (erase_pending_op tx_id (peer_id, key)))
    log_error.

Definition handle_prepare_request (peer_id : NodeID) (msg : object) : M (Scheduler S) unit :=
  let response := obj_set obj_empty "type" (v_string MessageType.TXN_COMMIT) in
  id ← (if contains msg "tx_id" then at_ msg "tx_id" else mret (v_uint64 0));
  send peer_id (obj_set response "tx_id" id).

Definition handle_commit_request (peer_id : NodeID) (msg : object) : M (Scheduler S) unit :=
  mret tt.
Definition handle_abort_request (peer_id : NodeID) (msg : object) : M (Scheduler S) unit :=
  mret tt.

Definition handle_peer_message (env : Interference) (peer_id : NodeID) (msg : object)
    : M (Scheduler S) unit :=
  if negb (contains msg "type") then mret tt
  else
    t ← (v ← at_ msg "type"; string_of v);
    let type := c_str t in
    if decide (type = MessageType.LOCK_REQUEST) then handle_lock_request env peer_id msg
    else if decide (type = MessageType.LOCK_GRANTED ∨ type = MessageType.LOCK_DENIED)
      then handle_lock_response peer_id msg
    else if decide (type = MessageType.LOCK_RELEASE) then handle_lock_release peer_id msg
    else if decide (type = MessageType.OP_REQUEST) then handle_operation_request peer_id msg
    else if decide (type = MessageType.OP_RESPONSE) then handle_operation_response peer_id msg
    else if decide (type = MessageType.TXN_PREPARE) then handle_prepare_request peer_id msg
    else if decide (type = MessageType.TXN_COMMIT) then handle_commit_request peer_id msg
    else if decide (type = MessageType.TXN_ABORT) then handle_abort_request peer_id msg
    else mret tt.
End handlers.

(** ** The fields of a message, once checked, are read without exceptions *)
Section facts.
Context {S : Type} `{KVStore S} `{OpExecutor S} `{Json} `{!JsonSpec} `{StdHash} `{!Iteration Z}
  `{!TransactionServer}.
Implicit Types (s : Scheduler S).

(** A message with the transaction and the key the handlers look for. *)
Record tx_key_fields (msg : object) (tx_id : TransactionId) (key : KeyType) : Prop := {
  field_tx_id : obj_at msg "tx_id" = Some (v_uint64 tx_id);
  field_key : obj_at msg "key" = Some (v_int64 key);
}.

Lemma tx_key_message_fields type tx_id key :
  tx_key_fields (tx_key_message type tx_id key) tx_id key ∧
  obj_at (tx_key_message type tx_id key) "type" = Some (v_string type).
Proof. unfold tx_key_message. split; [split|]; by jred. Qed.

(** [at] followed by the accessor of the value's own kind. *)
Lemma read_uint64 {T} msg k z (t : T) :
  obj_at msg k = Some (v_uint64 z) → (v ← at_ msg k; uint64_of v) t = (Ok z, t).
Proof. intros E. mred. by rewrite E, as_uint64_uint64. Qed.
Lemma read_int64 {T} msg k z (t : T) :
  obj_at msg k = Some (v_int64 z) → (v ← at_ msg k; int64_of v) t = (Ok z, t).
Proof. intros E. mred. by rewrite E, as_int64_int64. Qed.
Lemma read_string {T} msg k x (t : T) :
  obj_at msg k = Some (v_string x) → (v ← at_ msg k; string_of v) t = (Ok x, t).
Proof. intros E. mred. by rewrite E, as_string_string. Qed.
Lemma read_uint64_throws {T} msg k v (t : T) :
  obj_at msg k = Some v → kind v ≠ kind_uint64 →
  (v ← at_ msg k; uint64_of v) t = (Throw (StdException "not_uint64"), t).
Proof. intros E Hk. mred. by rewrite E, as_uint64_other. Qed.

Lemma catch_std_ok {T A} (m : M T A) h t a t' : m t = (Ok a, t') → catch_std m h t = (Ok a, t').
Proof. intros E. unfold catch_std, catch_all. by rewrite E. Qed.

Lemma catch_std_throw {T A} (m : M T A) h t w t' :
  m t = (Throw (StdException w), t') → catch_std m h t = h w t'.
Proof. intros E. unfold catch_std, catch_all. by rewrite E. Qed.

(** Only the fields of a message matter. *)
Lemma handle_peer_message_fields env peer msg msg' s :
  same_fields msg msg' →
  handle_peer_message env peer msg s = handle_peer_message env peer msg' s.
Proof.
  intros E. assert (Hc : ∀ k, contains msg k = contains msg' k) by (intros k; by rewrite E).
  assert (Ha : ∀ k, at_ (S := Scheduler S) msg k = at_ msg' k) by (intros k; by rewrite E).
  unfold handle_peer_message, handle_lock_request, handle_lock_response, handle_lock_release,
    handle_operation_request, handle_operation_response, handle_prepare_request,
    handle_commit_request, handle_abort_request.
  by rewrite !Hc, !Ha.
Qed.

(** A message goes to the handler of its type. *)
Lemma dispatch env peer msg type s :
  obj_at msg "type" = Some (v_string type) →
  handle_peer_message env peer msg s =
    (let type := c_str type in
     if decide (type = MessageType.LOCK_REQUEST) then handle_lock_request env peer msg
     else if decide (type = MessageType.LOCK_GRANTED ∨ type = MessageType.LOCK_DENIED)
       then handle_lock_response peer msg
     else if decide (type = MessageType.LOCK_RELEASE) then handle_lock_release peer msg
     else if decide (type = MessageType.OP_REQUEST) then handle_operation_request peer msg
     else if decide (type = MessageType.OP_RESPONSE) then handle_operation_response peer msg
     else if decide (type = MessageType.TXN_PREPARE) then handle_prepare_request peer msg
     else if decide (type = MessageType.TXN_COMMIT) then handle_commit_request peer msg
     else if decide (type = MessageType.TXN_ABORT) then handle_abort_request peer msg
     else mret tt) s.
Proof.
  intros Hty. unfold handle_peer_message. rewrite (contains_at _ _ _ Hty). cbn [negb].
  by rewrite (bind_ok _ _ _ _ _ (read_string _ _ _ _ Hty)).
Qed.

(** *** Lock responses *)
Lemma handle_lock_response_run peer msg tx_id key type s :
  tx_key_fields msg tx_id key → obj_at msg "type" = Some (v_string type) →
  handle_lock_response peer msg s =
    (Ok tt, set_remote (erase_pending tx_id (remote s)) s).
Proof.
  intros [Htx Hkey] Htype. unfold handle_lock_response. apply catch_std_ok.
  rewrite (contains_at _ _ _ Htx), (contains_at _ _ _ Hkey). simpl.
  rewrite (bind_ok _ _ _ _ _ (read_uint64 _ _ _ _ Htx)).
  rewrite (bind_ok _ _ _ _ _ (read_int64 _ _ _ _ Hkey)).
  by rewrite (bind_ok _ _ _ _ _ (read_string _ _ _ _ Htype)).
Qed.

(** Granted or denied, the response ends in the same branch. *)
Lemma handle_peer_message_response env peer msg tx_id key type s :
  (type = MessageType.LOCK_GRANTED ∨ type = MessageType.LOCK_DENIED) →
  tx_key_fields msg tx_id key → obj_at msg "type" = Some (v_string type) →
  handle_peer_message env peer msg s = (Ok tt, set_remote (erase_pending tx_id (remote s)) s).
Proof.
  intros Htype Hf Ht. unfold handle_peer_message. rewrite (contains_at _ _ _ Ht). cbn [negb].
  rewrite (bind_ok _ _ _ _ _ (read_string _ _ _ _ Ht)).
  assert (Hc : c_str type = type) by (by destruct Htype as [-> | ->]).
  cbv zeta. rewrite Hc, decide_False by (by destruct Htype as [-> | ->]).
  rewrite decide_True by done. by eapply handle_lock_response_run.
Qed.

(** *** Waiting for the responses *)

Lemma send_ok peer msg s :
  call_throws (calls s) (Send peer msg) = None →
  send peer msg s = (Ok tt, set_calls (calls s ++ [Send peer msg]) s).
Proof. intros Hok. unfold send, server_call. by rewrite Hok. Qed.

Lemma send_throw peer msg s e :
  call_throws (calls s) (Send peer msg) = Some e →
  send peer msg s = (Throw e, set_calls (calls s ++ [Send peer msg]) s).
Proof. intros Hok. unfold send, server_call. by rewrite Hok. Qed.

(** Sends that succeed are recorded, in order. *)
Lemma send_each_ok type tx_id l s :
  (∀ cs c, call_throws cs c = None) →
  send_each type tx_id l s =
    (Ok tt, set_calls (calls s ++ ((λ p, Send p.1 (tx_key_message type tx_id p.2)) <$> l)) s).
Proof.
  intros Hok. revert s. unfold send_each. induction l as [|[n k] l IH]; intros s; simpl.
  { rewrite app_nil_r. by destruct s. }
  rewrite (bind_ok _ _ _ _ _ (send_ok _ _ _ (Hok _ _))), IH. simpl.
  by rewrite <- (assoc_L (++)).
Qed.

Lemma add_pending_each tx_id l s :
  ∃ r, for_each l (λ p, on_remote (add_pending tx_id p.1 p.2)) s = (Ok tt, set_remote r s) ∧
    granted_remote_locks r = granted_remote_locks (remote s).
Proof.
  revert s. induction l as [|[n k] l IH]; intros s; simpl.
  { exists (remote s). by destruct s. }
  rewrite bind_on_remote.
  destruct (IH (set_remote (add_pending tx_id n k (remote s)) s)) as (r & -> & Hr). by exists r.
Qed.

Lemma lock_wait_erased wakes tx_id s :
  pending_remote_locks (remote s) !! tx_id = None →
  lock_wait wakes tx_id s = (Ok true, set_remote (touch_pending tx_id (remote s)) s).
Proof.
  intros Hn. destruct wakes; simpl;
    rewrite bind_on_remote, bind_gets; simpl; unfold pending_at, touch_pending; simpl;
    rewrite lookup_insert_eq; simpl; unfold pending_at; rewrite Hn; simpl;
    by rewrite decide_True.
Qed.

(** The wait for remote locks ends with success at the first lock response for the
    transaction, granted or denied, however many keys are pending. *)
Lemma acquire_remote_any_response peer msg type key remote_keys tx_id rest s :
  (∀ cs c, call_throws cs c = None) →
  (type = MessageType.LOCK_GRANTED ∨ type = MessageType.LOCK_DENIED) →
  tx_key_fields msg tx_id key → obj_at msg "type" = Some (v_string type) →
  ∃ r, acquire_remote_locks_with_retry
         ((no_timeout, λ s, (handle_peer_message no_interference peer msg s).2) :: rest)
         remote_keys tx_id s =
       (Ok true, set_calls (calls s ++ ((λ p, Send p.1 (tx_key_message MessageType.LOCK_REQUEST
                                          tx_id p.2)) <$> node_keys (RemoteKeys tx_id) remote_keys))
                   (set_remote r s)) ∧
    pending_at tx_id r = ∅ ∧ granted_remote_locks r = granted_remote_locks (remote s).
Proof.
  intros Hok Htype Hd Hdt. unfold acquire_remote_locks_with_retry.
  destruct (add_pending_each tx_id (node_keys (RemoteKeys tx_id) remote_keys) s) as (r & Hr & Hg).
  rewrite (bind_ok _ _ _ _ _ Hr).
  rewrite (bind_ok _ _ _ _ _ (send_each_ok _ _ _ _ Hok)). cbn [lock_wait].
  rewrite bind_on_remote, bind_gets. case_decide as E.
  { exists (touch_pending tx_id r). split; [done|]. by split. }
  rewrite bind_modify.
  rewrite (handle_peer_message_response no_interference _ _ _ _ _ _ Htype Hd Hdt). cbn [snd].
  rewrite lock_wait_erased by (simpl; apply lookup_delete_eq).
  eexists. split; [done|]. simpl. split; [|done].
  unfold pending_at, touch_pending; simpl. rewrite lookup_insert_eq. simpl.
  unfold pending_at; simpl. by rewrite lookup_delete_eq.
Qed.

(** *** Lock requests *)
Lemma handle_lock_request_run env peer msg tx_id key s r l :
  tx_key_fields msg tx_id key → acquire env key tx_id (lock_manager s) = (Ok r, l) →
  call_throws (calls s) (Send peer (tx_key_message
     match r with ACQUIRED => MessageType.LOCK_GRANTED | ABORTED => MessageType.LOCK_DENIED end
     tx_id key)) = None →
  handle_lock_request env peer msg s =
    (Ok tt, set_calls (calls s ++ [Send peer (tx_key_message
       match r with ACQUIRED => MessageType.LOCK_GRANTED | ABORTED => MessageType.LOCK_DENIED end
       tx_id key)]) (set_lock_manager l s)).
Proof.
  intros [Htx Hkey] Hacq Hcall. unfold handle_lock_request. apply catch_std_ok.
  rewrite (contains_at _ _ _ Htx), (contains_at _ _ _ Hkey). simpl.
  rewrite (bind_ok _ _ _ _ _ (read_uint64 _ _ _ _ Htx)).
  rewrite (bind_ok _ _ _ _ _ (read_int64 _ _ _ _ Hkey)).
  rewrite (bind_ok _ _ _ _ _ (on_locks_run _ _ _ _ Hacq)).
  by rewrite send_ok.
Qed.

Lemma handle_lock_release_run env peer tx_id key s :
  handle_peer_message env peer (tx_key_message MessageType.LOCK_RELEASE tx_id key) s =
    (Ok tt, set_lock_manager (release key tx_id (lock_manager s)) s).
Proof.
  destruct (tx_key_message_fields MessageType.LOCK_RELEASE tx_id key) as [[Htx Hkey] Hty].
  unfold handle_peer_message. rewrite (contains_at _ _ _ Hty). cbn [negb].
  rewrite (bind_ok _ _ _ _ _ (read_string _ _ _ _ Hty)). cbv zeta.
  rewrite !decide_False by (done || naive_solver). rewrite decide_True by done.
  unfold handle_lock_release. apply catch_std_ok.
  rewrite (contains_at _ _ _ Htx), (contains_at _ _ _ Hkey). simpl.
  rewrite (bind_ok _ _ _ _ _ (read_uint64 _ _ _ _ Htx)).
  by rewrite (bind_ok _ _ _ _ _ (read_int64 _ _ _ _ Hkey)).
Qed.

(** A lock request dispatched by handle_peer_message is answered exactly once, to the
    requesting peer and for the requested key and transaction, with lock_granted exactly
    when the transaction owns the lock afterwards and lock_denied otherwise; a lock_release
    for the same key and transaction then frees the lock; locks of other transactions are
    untouched by both. *)
Theorem lock_request_served env peer tx_id key s :
  (∀ cs c, call_throws cs c = None) → respects tx_id env →
  ∃ r l, handle_peer_message env peer (tx_key_message MessageType.LOCK_REQUEST tx_id key) s =
      (Ok tt, set_calls (calls s ++ [Send peer (tx_key_message
         match r with ACQUIRED => MessageType.LOCK_GRANTED | ABORTED => MessageType.LOCK_DENIED end
         tx_id key)]) (set_lock_manager l s)) ∧
    (r = ACQUIRED ↔ owner_of l key = Some tx_id) ∧
    (∀ t', t' ≠ tx_id → respects t' env → rely t' (lock_manager s) l) ∧
    ∀ env' s', lock_manager s' = l → ∃ l',
      handle_peer_message env' peer (tx_key_message MessageType.LOCK_RELEASE tx_id key) s' =
        (Ok tt, set_lock_manager l' s') ∧
      owner_of l' key ≠ Some tx_id ∧ (∀ t', t' ≠ tx_id → rely t' l l').
Proof.
  intros Hok Henv.
  destruct (tx_key_message_fields MessageType.LOCK_REQUEST tx_id key) as [Hm Hty].
  destruct (acquire_post env key tx_id (lock_manager s) Henv) as (r & l & Hacq & Hr & _).
  exists r, l. split_and!; [|done| |].
  - unfold handle_peer_message. rewrite (contains_at _ _ _ Hty). cbn [negb].
    rewrite (bind_ok _ _ _ _ _ (read_string _ _ _ _ Hty)). rewrite decide_True by done.
    by apply handle_lock_request_run.
  - intros t' Hne Ht'.
    pose proof (acquire_rely env key tx_id t' (lock_manager s) ltac:(done) Ht') as Hrely.
    by rewrite Hacq in Hrely.
  - intros env' s' Hs'. exists (release key tx_id l). split_and!.
    + by rewrite handle_lock_release_run, Hs'.
    + rewrite owner_of_release. case_decide; [done|]. naive_solver.
    + intros t' Hne. by apply rely_release.
Qed.

(** A lock request from another node that carries the id of the local owner of the key
    is granted while the owner keeps the lock: the lock table cannot tell transactions of
    different nodes with equal ids apart. *)
Lemma equal_ids_share_a_lock peer tx_id key s :
  (∀ cs c, call_throws cs c = None) →
  owner_of (lock_manager s) key = Some tx_id →
  ∃ s', handle_lock_request no_interference peer
          (tx_key_message MessageType.LOCK_REQUEST tx_id key) s = (Ok tt, s') ∧
    calls s' = calls s ++ [Send peer (tx_key_message MessageType.LOCK_GRANTED tx_id key)] ∧
    owner_of (lock_manager s') key = Some tx_id.
Proof.
  intros Hok Ho.
  destruct (tx_key_message_fields MessageType.LOCK_REQUEST tx_id key) as [Hm _].
  pose proof (acquire_alone key tx_id (lock_manager s)) as Hacq. rewrite Ho in Hacq.
  rewrite decide_True in Hacq by done. cbn zeta in Hacq.
  eexists. split; [by apply (handle_lock_request_run _ _ _ _ _ _ _ _ Hm Hacq)|].
  split; [done|]. simpl. change (owner_of (track_key key tx_id ?l0)) with (owner_of l0).
  by rewrite owner_of_emplace.
Qed.

(** *** Messages that went through text *)
Lemma wrong_tx_id_ignored env peer msg v s :
  obj_at msg "tx_id" = Some v → kind v ≠ kind_uint64 →
  handle_lock_request env peer msg s = (Ok tt, s) ∧
  handle_lock_response peer msg s = (Ok tt, s) ∧
  handle_lock_release peer msg s = (Ok tt, s) ∧
  handle_operation_request peer msg s = (Ok tt, s) ∧
  handle_operation_response peer msg s = (Ok tt, s).
Proof.
  intros Htx Hk.
  assert (Hthrow : ∀ {A} (k : Z → M (Scheduler S) A) h,
    catch_std ((x ← at_ msg "tx_id"; uint64_of x) ≫= k) h s = h "not_uint64"%string s).
  { intros A k h. apply catch_std_throw, bind_throw. by eapply read_uint64_throws. }
  unfold handle_lock_request, handle_lock_response, handle_lock_release,
    handle_operation_request, handle_operation_response.
  rewrite (contains_at _ _ _ Htx).
  destruct (contains msg "key"), (contains msg "op_type"); simpl; rewrite ?Hthrow; done.
Qed.

(** The messages the scheduler and its handlers build for a transaction. *)
Inductive peer_message (t : TransactionId) : object → Prop :=
  | pm_lock_request k : peer_message t (tx_key_message MessageType.LOCK_REQUEST t k)
  | pm_lock_granted k : peer_message t (tx_key_message MessageType.LOCK_GRANTED t k)
  | pm_lock_denied k : peer_message t (tx_key_message MessageType.LOCK_DENIED t k)
  | pm_lock_release k : peer_message t (tx_key_message MessageType.LOCK_RELEASE t k)
  | pm_op_request op : peer_message t (op_request t op)
  | pm_op_response k r : peer_message t (op_response t k r).

Lemma peer_message_fields t msg :
  peer_message t msg →
  obj_at msg "tx_id" = Some (v_uint64 t) ∧
  ∃ type, obj_at msg "type" = Some (v_string type) ∧
    type ∈ [MessageType.LOCK_REQUEST; MessageType.LOCK_GRANTED; MessageType.LOCK_DENIED;
            MessageType.LOCK_RELEASE; MessageType.OP_REQUEST; MessageType.OP_RESPONSE].
Proof.
  destruct 1 as [k|k|k|k|[k|k x]|k r]; unfold op_request, op_response, tx_key_message; simpl;
    (split; [by jred|eexists; split; [by jred|]]);
    repeat first [by left|right].
Qed.

(** A number below [2 ^ 63] is not an unsigned one after the text. *)
Lemma id_over_text `{!JsonWire, !JsonWireSpec} msg t :
  (0 ≤ t < 2 ^ 63)%Z → obj_at msg "tx_id" = Some (v_uint64 t) →
  obj_at (over_text msg) "tx_id" = Some (v_int64 t).
Proof.
  intros Ht E. rewrite obj_at_over_text, E. simpl.
  by rewrite wire_uint64, decide_True by (unfold in_u; lia).
Qed.

Lemma message_lost_in_text `{!JsonWire, !JsonWireSpec} env peer msg t s :
  (0 ≤ t < 2 ^ 63)%Z → peer_message t msg →
  handle_peer_message env peer (over_text msg) s = (Ok tt, s).
Proof.
  intros Ht (Hid & type & Hty & Hin)%peer_message_fields.
  assert (Hty' : obj_at (over_text msg) "type" = Some (v_string type)).
  { by rewrite obj_at_over_text, Hty; simpl; rewrite wire_string. }
  destruct (wrong_tx_id_ignored env peer (over_text msg) (v_int64 t) s) as (H1' & H2' & H3' & H4' & H5').
  { by apply id_over_text. }
  { by rewrite kind_of_int64. }
  rewrite (dispatch _ _ _ _ _ Hty').
  rewrite !elem_of_cons, elem_of_nil in Hin.
  destruct Hin as [->|[->|[->|[->|[->|[->|[]]]]]]]; assumption.
Qed.

(** C40. Messages of a transaction with an id below 2^63 that have been serialized and
    parsed are dropped: a lock request, response or release, an operation request or an
    operation response, with all its fields, leaves the node that handles it exactly as it
    was and is answered with nothing; so does any message with such an id in any of the five
    handlers, whatever its other fields: the id is then an int64 value, as_uint64 throws and
    the handler logs the error. *)
Theorem peer_messages_lost_in_text `{!JsonWire, !JsonWireSpec} t s :
  (0 ≤ t < 2 ^ 63)%Z →
  (∀ env peer msg, peer_message t msg →
     handle_peer_message env peer (over_text msg) s = (Ok tt, s)) ∧
  (∀ env peer msg, obj_at msg "tx_id" = Some (v_uint64 t) →
     handle_lock_request env peer (over_text msg) s = (Ok tt, s) ∧
     handle_lock_response peer (over_text msg) s = (Ok tt, s) ∧
     handle_lock_release peer (over_text msg) s = (Ok tt, s) ∧
     handle_operation_request peer (over_text msg) s = (Ok tt, s) ∧
     handle_operation_response peer (over_text msg) s = (Ok tt, s)).
Proof.
  intros Ht. split.
  - intros env peer msg. by apply message_lost_in_text.
  - intros env peer msg Hid. apply (wrong_tx_id_ignored _ _ _ (v_int64 t)).
    + by apply id_over_text.
    + by rewrite kind_of_int64.
Qed.

(** *** Remote operations *)

(** What the primary of the key answers. *)
Definition remote_reply (op : Operation) (st : S) : option ValueContainer :=
  match op with ReadOp k => kv_get st k | AppendOp _ _ => None end.

Lemma op_request_fields tx_id op :
  tx_key_fields (op_request tx_id op) tx_id (op_key op) ∧
  obj_at (op_request tx_id op) "op_type" =
    Some (v_string (match op_type op with READ => "read" | APPEND => "append" end)) ∧
  (op_type op = APPEND → obj_at (op_request tx_id op) "value" = Some (v_int64 (op_value op))).
Proof.
  unfold op_request, tx_key_message. destruct op; simpl; split_and!; try split;
    intros; simplify_eq; by jred.
Qed.

Lemma handle_operation_request_run `{!KVStoreSpec S} `{!OpExecutorSpec S} peer tx_id op s :
  (∀ cs c, call_throws cs c = None) →
  handle_operation_request peer (op_request tx_id op) s =
    (Ok tt, set_calls (calls s ++ [Send peer (op_response tx_id (op_key op)
                                                (remote_reply op (store s)))])
              (set_store (apply_op op (store s)) s)).
Proof.
  intros Hok. destruct (op_request_fields tx_id op) as ([Htx Hkey] & Hty & Hval).
  unfold handle_operation_request. apply catch_std_ok.
  rewrite (contains_at _ _ _ Htx), (contains_at _ _ _ Hkey), (contains_at _ _ _ Hty).
  cbn [negb orb].
  rewrite (bind_ok _ _ _ _ _ (read_uint64 _ _ _ _ Htx)).
  rewrite (bind_ok _ _ _ _ _ (read_string _ _ _ _ Hty)).
  rewrite (bind_ok _ _ _ _ _ (read_int64 _ _ _ _ Hkey)).
  destruct op as [k|k x]; cbn [op_type op_key op_value] in *.
  - destruct (visit_read k new_executor (store s)) as (v & Hv & Hres).
    rewrite decide_False, decide_True by done.
    rewrite (bind_ok _ _ _ _ _ (on_store_run _ _ _ _ Hv)), Hres. by rewrite send_ok.
  - destruct (visit_append k x new_executor (store s)) as (v & Hv).
    rewrite decide_True by done. specialize (Hval eq_refl).
    rewrite (contains_at _ _ _ Hval). cbn [negb].
    rewrite (bind_ok _ _ _ _ _ (read_int64 _ _ _ _ Hval)).
    rewrite (bind_ok _ _ _ _ _ (on_store_run _ _ _ _ Hv)). by rewrite send_ok.
Qed.

Lemma int64_array_run l s : int64_array (v_int64 <$> l) s = (Ok l, s).
Proof.
  induction l as [|z l IH]; [done|]. rewrite fmap_cons. cbn [int64_array].
  unfold int64_of. rewrite as_int64_int64. unfold lift_opt.
  rewrite (bind_ok _ _ _ z s eq_refl). by rewrite (bind_ok _ _ _ _ _ IH).
Qed.

Lemma handle_operation_response_run peer tx_id key r s :
  handle_operation_response peer (op_response tx_id key r) s =
    (Ok tt, set_remote (erase_pending_op tx_id (peer, key)
                          (store_result tx_id key (default [] r) (remote s))) s).
Proof.
  assert (Hf : tx_key_fields (op_response tx_id key r) tx_id key ∧
    obj_at (op_response tx_id key r) "value" =
      Some (match r with Some l => v_array (v_int64 <$> l) | None => v_null end)).
  { unfold op_response, tx_key_message. split; [split|]; by jred. }
  destruct Hf as [[Htx Hkey] Hval].
  unfold handle_operation_response. apply catch_std_ok.
  rewrite (contains_at _ _ _ Htx), (contains_at _ _ _ Hkey), (contains_at _ _ _ Hval).
  cbn [negb orb].
  rewrite (bind_ok _ _ _ _ _ (read_uint64 _ _ _ _ Htx)).
  rewrite (bind_ok _ _ _ _ _ (read_int64 _ _ _ _ Hkey)).
  unfold is_null. destruct r as [l|].
  - mred. rewrite Hval, kind_of_array. simpl. rewrite as_array_array, int64_array_run. done.
  - mred. rewrite Hval, kind_of_null. done.
Qed.

(** A request whose answer arrives before the deadline. *)
Lemma execute_remote_operation_run tx_id op target r rest s :
  (∀ cs c, call_throws cs c = None) →
  ∃ s', execute_remote_operation (only_wakeups
          ((no_timeout, λ s, (handle_operation_response target
              (op_response tx_id (op_key op) r) s).2) :: rest)) target tx_id op s =
        (Ok (Some (default [] r)), s') ∧ lock_manager s' = lock_manager s ∧
        store s' = store s ∧ node s' = node s.
Proof.
  intros Hok. unfold execute_remote_operation, catch_all.
  rewrite bind_modify, bind_on_remote, (bind_ok _ _ _ _ _ (send_ok _ _ _ (Hok _ _))), bind_modify.
  cbn [op_wait only_wakeups before_call before_wait op_wakeups before_result id].
  set (s1 := set_calls _ _).
  assert (Hin : bool_decide ((target, op_key op) ∈ ops_at tx_id (remote s1)) = true).
  { apply bool_decide_eq_true. unfold s1, ops_at; simpl. unfold ops_at.
    rewrite set_at_insert, decide_True by done. set_solver. }
  unfold mbind at 1, M_bind at 1. rewrite bind_gets, Hin, bind_modify.
  rewrite handle_operation_response_run. cbn [snd].
  set (s2 := set_remote _ s1).
  assert (Hout : bool_decide ((target, op_key op) ∈ ops_at tx_id (remote s2)) = false).
  { apply bool_decide_eq_false. unfold s2, ops_at; simpl.
    rewrite set_at_insert, decide_True by done. set_solver. }
  assert (Hw : op_wait rest tx_id (target, op_key op) s2 = (Ok true, s2)).
  { destruct rest; cbn [op_wait]; by rewrite bind_gets, Hout. }
  rewrite Hw. exists s2. split_and!; [|done..]. do 2 f_equal.
  unfold s2; simpl. rewrite lookup_insert_eq. simpl. by rewrite lookup_insert_eq.
Qed.

(** A remote operation, request and reply: the primary of the key applies the operation
    to its store and answers once; the requesting node, handling that answer before the
    deadline, returns the value read (for a read) - with an empty list, not a null, when the
    key does not exist or the operation is an append. *)
Theorem remote_operation_roundtrip `{!KVStoreSpec S} `{!OpExecutorSpec S}
    me target tx_id op (primary : Scheduler S) :
  (∀ cs c, call_throws cs c = None) →
  ∃ primary' reply,
    handle_operation_request me (op_request tx_id op) primary = (Ok tt, primary') ∧
    store primary' = apply_op op (store primary) ∧
    calls primary' = calls primary ++ [Send me reply] ∧
    ∀ s rest, ∃ s',
      execute_remote_operation (only_wakeups
        ((no_timeout, λ s, (handle_operation_response target reply s).2) :: rest))
        target tx_id op s = (Ok (Some (default [] (remote_reply op (store primary)))), s').
Proof.
  intros Hok. eexists _, (op_response tx_id (op_key op) (remote_reply op (store primary))).
  split; [by apply handle_operation_request_run|]. split_and!; [done..|]. intros s rest.
  destruct (execute_remote_operation_run tx_id op target (remote_reply op (store primary)) rest s)
    as (s' & Hrun & _); [done|]. by exists s'.
Qed.

(** *** When a request cannot be sent *)
Lemma node_keys_empty c : node_keys c ∅ = [].
Proof.
  apply elem_of_nil_inv. intros p (n & _ & Hn)%list_elem_of_bind.
  rewrite elem_of_iter_order in Hn. set_solver.
Qed.

Lemma acquire_remote_send_fails wakes remote_keys tx_id e s :
  (∀ cs c, call_throws cs c = Some e) → node_keys (RemoteKeys tx_id) remote_keys ≠ [] →
  ∃ s', acquire_remote_locks_with_retry wakes remote_keys tx_id s = (Throw e, s') ∧
        lock_manager s' = lock_manager s.
Proof.
  intros Hfail Hne. unfold acquire_remote_locks_with_retry.
  destruct (add_pending_each tx_id (node_keys (RemoteKeys tx_id) remote_keys) s) as (r & Hr & _).
  rewrite (bind_ok _ _ _ _ _ Hr). destruct (node_keys (RemoteKeys tx_id) remote_keys) as [|p l]; [done|].
  eexists. split; [|shelve]. apply bind_throw. apply bind_throw. by apply send_throw.
  Unshelve. done.
Qed.

(** If the request to a remote node cannot be sent, execute_with_distributed_support
    leaves by that exception with all its local locks still owned: the locks are acquired
    outside the try block. *)
Theorem failed_send_leaks_local_locks tx tx_id e m n s :
  (∀ cs c, call_throws cs c = Some e) →
  categorize tx ∅ ∅ s = (Ok (m, n), s) →
  node_keys (RemoteKeys tx_id) (delete (local_node_id (node s)) n) ≠ [] →
  tracked tx_id (lock_manager s) →
  (∀ k, k ∈ set_at n (local_node_id (node s)) → available (lock_manager s) tx_id k) →
  ∃ s', execute_with_distributed_support quiet tx tx_id s = (Throw e, s') ∧
    ∀ k, k ∈ set_at n (local_node_id (node s)) → owner_of (lock_manager s') k = Some tx_id.
Proof.
  intros Hfail Hcat Hne Htr Hav. unfold execute_with_distributed_support.
  rewrite (bind_ok _ _ _ _ _ Hcat). set (L := local_node_id (node s)) in *.
  destruct (acquire_local_spec (λ _, no_interference) (iter_order (LocalKeys tx_id) (set_at n L)) tx_id s
    (fair_quiet tx_id) Htr) as (b & l & Hacq & _ & Htrue & _).
  assert (b = true) as ->.
  { pose proof (acquire_local_alone (iter_order (LocalKeys tx_id) (set_at n L)) tx_id s) as Hb.
    rewrite Hacq in Hb. injection Hb as ->.
    apply bool_decide_eq_true, Forall_forall. intros k Hk%elem_of_iter_order. by apply Hav. }
  destruct (acquire_remote_send_fails [] (delete L n) tx_id e
              (set_lock_manager l s) Hfail Hne) as (s' & Hrem & Hlm).
  exists s'. split.
  - apply bind_throw. unfold acquire_all_locks. rewrite bind_gets. fold L.
    rewrite (bind_ok _ _ _ _ _ Hacq). cbn beta iota. rewrite decide_False.
    + by apply bind_throw.
    + intros E. apply Hne. rewrite E. apply node_keys_empty.
  - intros k Hk. rewrite Hlm. by apply (proj1 (Htrue eq_refl)), elem_of_iter_order.
Qed.
End facts.

(** ** The hypotheses hold *)
Module HandlersDemo.
Import Demo.

Lemma lock_request_served_witness :
  ∃ r l, handle_peer_message no_interference 3 (tx_key_message MessageType.LOCK_REQUEST 7 1)
           busy_node =
      (Ok tt, set_calls [Send 3 (tx_key_message
         match r with ACQUIRED => MessageType.LOCK_GRANTED | ABORTED => MessageType.LOCK_DENIED end
         7 1)] (set_lock_manager l busy_node)) ∧
    (r = ACQUIRED ↔ owner_of l 1 = Some 7%Z).
Proof.
  destruct (lock_request_served no_interference 3 7 1 busy_node (λ _ _, eq_refl)
              (respects_none 7)) as (r & l & Hrun & Hr & _).
  exists r, l. split; [exact Hrun|exact Hr].
Defined.

Lemma peer_messages_lost_in_text_witness :
  handle_peer_message no_interference 1
    (over_text (tx_key_message MessageType.LOCK_REQUEST 7 5)) clustered_node =
    (Ok tt, clustered_node) ∧
  handle_operation_request 1 (over_text (op_request 7 (AppendOp 5 8))) clustered_node =
    (Ok tt, clustered_node) ∧
  handle_operation_response 1 (over_text (op_response 7 5 (Some [8%Z]))) clustered_node =
    (Ok tt, clustered_node).
Proof.
  destruct (peer_messages_lost_in_text 7 clustered_node) as [Hmsg Hall]; [lia|].
  split_and!; [apply Hmsg; constructor|..].
  - by apply (Hall no_interference 1%Z (op_request 7 (AppendOp 5 8))).
  - by apply (Hall no_interference 1%Z (op_response 7 5 (Some [8%Z]))).
Defined.

Lemma remote_operation_roundtrip_witness :
  ∃ primary' reply,
    handle_operation_request 0 (op_request 7 (ReadOp 1)) demo_node = (Ok tt, primary') ∧
    calls primary' = [Send 0 reply] ∧
    ∃ s', execute_remote_operation (only_wakeups
            [(no_timeout, λ s, (handle_operation_response 1 reply s).2)]) 1 7 (ReadOp 1)
            clustered_node = (Ok (Some [10%Z]), s').
Proof.
  destruct (remote_operation_roundtrip 0 1 7 (ReadOp 1) demo_node (λ _ _, eq_refl))
    as (p' & reply & Hreq & _ & Hcalls & Hresp).
  exists p', reply. split; [exact Hreq|]. split; [exact Hcalls|].
  exact (Hresp clustered_node []).
Defined.

#[local] Existing Instance broken_server | 0.

(** Key 2 is local, key 5 belongs to the other node. *)
Lemma failed_send_leaks_local_locks_witness :
  ∃ s', execute_with_distributed_support quiet [AppendOp 2 1; AppendOp 5 1] 7 clustered_node =
          (Throw (StdException "not connected"), s') ∧ owner_of (lock_manager s') 2 = Some 7%Z.
Proof.
  edestruct (failed_send_leaks_local_locks [AppendOp 2 1; AppendOp 5 1] 7
              (StdException "not connected") {[ 2 := 0; 5 := 1 ]}%Z
              {[ 0 := {[ 2 ]}; 1 := {[ 5 ]} ]}%Z clustered_node) as (s' & Hrun & Hlock).
  - done.
  - vm_compute. reflexivity.
  - vm_compute. discriminate.
  - apply tracked_new.
  - intros k _. done.
  - exists s'. split; [exact Hrun|]. apply Hlock. vm_compute. reflexivity.
Defined.
End HandlersDemo.
