(* ===== verification/SchedulerRemote.v ===== *)
(** * Transactions with remote keys

    The scheduler's path for transactions that touch keys of other nodes,
    whatever the other threads and the transaction server do: which messages
    are sent, what happens when an answer does not come, and which locks are
    left. *)
From S2P Require Import Prelude Operations KVStore LockManager Json Coordinator Scheduler.
From S2P Require Import SchedulerLocal Handlers.

(** ** Routing *)
Section routing.
Context `{StdHash}.

(** What [start] establishes: the coordinator knows its own node's id, and the
    cluster has at least one node. *)
Definition well_configured (nd : NodeState) : Prop :=
  match coordinator nd with
  | Some c => co_local_node_id c = local_node_id nd ∧ all_nodes c ≠ []
  | None => True
  end.

(** The node a key is served by. *)
Definition route (nd : NodeState) (key : KeyType) : NodeID :=
  match coordinator nd with
  | Some c => default 0%Z (get_primary_node c key)
  | None => local_node_id nd
  end.

Definition keys_at (nd : NodeState) (tx : Transaction) (p : NodeID) : gset KeyType :=
  filter (λ k, route nd k = p) (tx_keys tx).

Lemma elem_of_keys_at nd tx p k : k ∈ keys_at nd tx p ↔ k ∈ tx_keys tx ∧ route nd k = p.
Proof. unfold keys_at. rewrite elem_of_filter. naive_solver. Qed.
End routing.

Section remote_execution.
Context {S : Type} `{KVStore S} `{OpExecutor S} `{Json} `{StdHash} `{!Iteration Z}
  `{!TransactionServer}.
Implicit Types (s : Scheduler S) (t : TransactionId) (tx : Transaction).

Lemma primary_of_run key s :
  well_configured (node s) → primary_of key s = (Ok (route (node s) key), s).
Proof.
  unfold well_configured, primary_of, is_local_key, route. mred.
  destruct (coordinator (node s)) as [c|] eqn:Hc; [|done].
  intros [Hid Hne]. unfold is_local.
  assert (∃ p, get_primary_node c key = Some p) as [p Hp].
  { unfold get_primary_node. rewrite decide_False; [by eexists|by intros E%nil_length_inv]. }
  rewrite Hp. simpl. case_bool_decide as E; [by rewrite E, Hid|].
  rewrite Hc. simpl. by rewrite Hp.
Qed.

(** Every key is mapped to its node, and every node to its keys. *)
Lemma categorize_run tx m n s :
  well_configured (node s) →
  ∃ m' n', categorize tx m n s = (Ok (m', n'), s) ∧
    (∀ k, k ∈ tx_keys tx → m' !! k = Some (route (node s) k)) ∧
    (∀ k, k ∉ tx_keys tx → m' !! k = m !! k) ∧
    (∀ p, set_at n' p = keys_at (node s) tx p ∪ set_at n p) ∧
    (∀ p, p ∈ dom n' ↔ p ∈ dom n ∨ ∃ k, k ∈ keys_at (node s) tx p).
Proof.
  intros Hwf. revert m n. induction tx as [|op tx IH]; intros m n; cbn [categorize].
  { exists m, n. split_and!; try done; set_solver. }
  rewrite (bind_ok _ _ _ _ _ (primary_of_run (op_key op) s Hwf)).
  set (r := route (node s) (op_key op)).
  destruct (IH (<[op_key op := r]> m) (<[r := {[op_key op]} ∪ set_at n r]> n))
    as (m' & n' & Hrun & Hin & Hout & Hset & Hdom).
  assert (Hk : ∀ p k, k ∈ keys_at (node s) (op :: tx) p ↔
                 k ∈ keys_at (node s) tx p ∨ k = op_key op ∧ r = p).
  { intros p k. rewrite !elem_of_keys_at. unfold tx_keys; simpl. set_solver. }
  exists m', n'. split_and!; [done|..].
  - intros k Hk'. destruct (decide (k ∈ tx_keys tx)) as [?|Hn]; [by apply Hin|].
    rewrite Hout by done. assert (k = op_key op) as -> by set_solver. apply lookup_insert_eq.
  - intros k Hk'. rewrite Hout by set_solver. apply lookup_insert_ne. set_solver.
  - intros p. rewrite Hset, set_at_insert. apply set_eq. intros k.
    rewrite !elem_of_union, Hk. case_decide; set_solver.
  - intros p. rewrite Hdom, dom_insert_L. setoid_rewrite Hk. set_solver.
Qed.

(** The map without the local node's entry lists the remote keys. *)
Lemma elem_of_node_keys c (m : gmap NodeID (gset KeyType)) p k :
  (p, k) ∈ node_keys c m ↔ k ∈ set_at m p.
Proof.
  unfold node_keys. rewrite list_elem_of_bind. setoid_rewrite list_elem_of_bind. split.
  - intros (n & (k' & Hk & Hk') & _). apply list_elem_of_singleton in Hk. simplify_eq.
    by apply elem_of_iter_order in Hk'.
  - intros Hk. exists p. split.
    + exists k. rewrite elem_of_iter_order. set_solver.
    + apply elem_of_iter_order, elem_of_dom. unfold set_at in Hk.
      destruct (m !! p); [done|set_solver].
Qed.

Lemma NoDup_node_keys c (m : gmap NodeID (gset KeyType)) : NoDup (node_keys c m).
Proof.
  unfold node_keys. apply NoDup_bind; [|intros n _|apply NoDup_iter_order].
  - intros n1 n2 p _ _ (k1 & Hp1 & _)%list_elem_of_bind (k2 & Hp2 & _)%list_elem_of_bind.
    apply list_elem_of_singleton in Hp1, Hp2. by simplify_eq.
  - apply NoDup_bind; [|intros; apply NoDup_singleton|apply NoDup_iter_order].
    intros k1 k2 p _ _ Hp1%list_elem_of_singleton Hp2%list_elem_of_singleton. by simplify_eq.
Qed.

(** Two containers with the same contents are visited in orders of the same keys. *)
Lemma node_keys_perm c c' (m : gmap NodeID (gset KeyType)) : node_keys c m ≡ₚ node_keys c' m.
Proof.
  apply NoDup_Permutation; [apply NoDup_node_keys..|]. intros [p k]. by rewrite !elem_of_node_keys.
Qed.

(** What [categorize] leaves in [node_to_keys]. *)
Record grouped (nd : NodeState) tx (n : gmap NodeID (gset KeyType)) : Prop := {
  grouped_keys p : set_at n p = keys_at nd tx p;
  grouped_dom p : p ∈ dom n ↔ ∃ k, k ∈ keys_at nd tx p;
}.

Lemma categorize_grouped tx s :
  well_configured (node s) →
  ∃ m n, categorize tx ∅ ∅ s = (Ok (m, n), s) ∧ grouped (node s) tx n ∧
    (∀ k, k ∈ tx_keys tx → m !! k = Some (route (node s) k)).
Proof.
  intros Hwf. destruct (categorize_run tx ∅ ∅ s Hwf) as (m & n & Hrun & Hm & _ & Hset & Hdom).
  exists m, n. split_and!; [done| |done]. split; intros p.
  - rewrite Hset, set_at_empty. set_solver.
  - rewrite Hdom. set_solver.
Qed.

(** The requests of a transaction: its remote keys, each once. *)
Lemma grouped_remote nd tx n c p k :
  grouped nd tx n →
  (p, k) ∈ node_keys c (delete (local_node_id nd) n) ↔
    p ≠ local_node_id nd ∧ k ∈ keys_at nd tx p.
Proof.
  intros Hn. rewrite elem_of_node_keys, set_at_delete.
  case_decide; [set_solver|]. rewrite (grouped_keys _ _ _ Hn). naive_solver.
Qed.

Lemma grouped_remote_dom nd tx n :
  grouped nd tx n →
  ∀ p, p ∈ dom (delete (local_node_id nd) n) ↔ ∃ k, k ∈ set_at (delete (local_node_id nd) n) p.
Proof.
  intros Hn p. rewrite dom_delete_L, elem_of_difference, elem_of_singleton.
  rewrite (grouped_dom _ _ _ Hn), set_at_delete, (grouped_keys _ _ _ Hn).
  case_decide; set_solver.
Qed.

Lemma grouped_remote_nil nd tx n c :
  grouped nd tx n → node_keys c (delete (local_node_id nd) n) = [] → delete (local_node_id nd) n = ∅.
Proof.
  intros Hn E. apply dom_empty_inv_L, set_eq. intros p. split; [|set_solver].
  rewrite (grouped_remote_dom _ _ _ Hn). intros [k Hk%(elem_of_node_keys c)].
  rewrite E in Hk. by apply not_elem_of_nil in Hk.
Qed.

(** The releases are for the same keys. *)
Lemma grouped_releases nd tx n c c' :
  grouped nd tx n →
  filter (λ p, p.1 ≠ local_node_id nd) (node_keys c n) ≡ₚ
    node_keys c' (delete (local_node_id nd) n).
Proof.
  intros Hn. apply NoDup_Permutation; [apply NoDup_filter| |]; try apply NoDup_node_keys.
  intros [p k]. rewrite (grouped_remote _ _ _ _ _ _ Hn), list_elem_of_filter, elem_of_node_keys.
  by rewrite (grouped_keys _ _ _ Hn).
Qed.

Lemma node_keys_remote nd tx n c :
  grouped nd tx n → (∃ k, k ∈ tx_keys tx ∧ route nd k ≠ local_node_id nd) →
  delete (local_node_id nd) n ≠ ∅ ∧ node_keys c (delete (local_node_id nd) n) ≠ [].
Proof.
  intros Hn (k & Hk & Hr).
  assert (Hin : (route nd k, k) ∈ node_keys c (delete (local_node_id nd) n)).
  { apply (grouped_remote _ _ _ _ _ _ Hn). by rewrite elem_of_keys_at. }
  split; [|by intros E; rewrite E in Hin; apply not_elem_of_nil in Hin].
  intros E. rewrite E, elem_of_node_keys, set_at_empty in Hin. set_solver.
Qed.

(** ** What a transaction can count on while it waits

    Other threads may do anything to the node but give the transaction a lock
    or take one, edit its tracking set, or change the node's identity. *)
Record undisturbed t s s' : Prop := {
  und_rely : rely t (lock_manager s) (lock_manager s');
  und_node : node s' = node s;
}.

#[export] Instance undisturbed_preorder t : PreOrder (undisturbed t).
Proof.
  split; [by split|]. intros s1 s2 s3 [Hr1 Hn1] [Hr2 Hn2]. split; [by etrans|congruence].
Qed.

Definition undisturbed_wakeups t (w : Wakeups) : Prop :=
  ∀ st f, (st, f) ∈ w → ∀ s, undisturbed t s (f s).

Record undisturbed_op_wait t (w : OpWait) : Prop := {
  und_before_call s : undisturbed t s (before_call w s);
  und_before_wait s : undisturbed t s (before_wait w s);
  und_wakeups : undisturbed_wakeups t (op_wakeups w);
  und_before_result s : undisturbed t s (before_result w s);
}.

Record undisturbed_env t (env : Environment) : Prop := {
  und_acquire : fair_env t (env_acquire env);
  und_lock_wait : undisturbed_wakeups t (env_lock_wait env);
  und_op_wait i : undisturbed_op_wait t (env_op_wait env i);
}.

Lemma idle_undisturbed t s s' :
  undisturbed t s s' → idle t (lock_manager s) → idle t (lock_manager s').
Proof.
  intros [[Ho Hh _] _] [Hh' Ho']. split; [congruence|].
  intros k Hk. by apply (Ho' k), Ho.
Qed.

Section frames.
Context (t : TransactionId).

Lemma within_on_remote f : within (undisturbed t) (on_remote f).
Proof. intros s. by split. Qed.

Lemma within_server_call c : within (undisturbed t) (server_call c).
Proof. intros s. unfold server_call. destruct (call_throws _ _); by split. Qed.

Lemma within_send p msg : within (undisturbed t) (send p msg).
Proof. apply within_server_call. Qed.
#[local] Hint Resolve within_on_remote within_server_call within_send : tp.

Lemma within_wakeup w st f : undisturbed_wakeups t w → (st, f) ∈ w → within (undisturbed t) (modify f).
Proof. intros Hw Hin s. by apply (Hw st). Qed.

Lemma undisturbed_tail w x : undisturbed_wakeups t (x :: w) → undisturbed_wakeups t w.
Proof. intros Hw st f Hin. apply (Hw st). by right. Qed.

Lemma undisturbed_nil : undisturbed_wakeups t [].
Proof. by intros st f ?%not_elem_of_nil. Qed.

Lemma undisturbed_cons st f w :
  (∀ s, undisturbed t s (f s)) → undisturbed_wakeups t w → undisturbed_wakeups t ((st, f) :: w).
Proof. intros Hf Hw st' f' [[= -> ->]|Hin]%elem_of_cons; [done|by apply (Hw st')]. Qed.

Lemma within_send_each type t' l : within (undisturbed t) (send_each type t' l).
Proof. unfold send_each. frame; auto with tp. Qed.

#[local] Hint Resolve within_send_each : tp.

Lemma within_lock_wait_timeout t' : within (undisturbed t) (lock_wait_timeout t').
Proof. unfold lock_wait_timeout. frame; auto with tp. Qed.

Lemma within_lock_wait w t' : undisturbed_wakeups t w → within (undisturbed t) (lock_wait w t').
Proof.
  induction w as [|[[] f] w IH]; intros Hw; cbn [lock_wait];
    frame; auto using within_lock_wait_timeout with tp;
    try (eapply within_wakeup; [done|by left]).
  apply IH. by eapply undisturbed_tail.
Qed.

Lemma within_acquire_remote w m t' :
  undisturbed_wakeups t w → within (undisturbed t) (acquire_remote_locks_with_retry w m t').
Proof.
  intros Hw. unfold acquire_remote_locks_with_retry.
  frame; auto using within_lock_wait with tp.
Qed.

#[local] Hint Resolve within_acquire_remote : tp.

Lemma within_op_wait w t' p : undisturbed_wakeups t w → within (undisturbed t) (op_wait w t' p).
Proof.
  induction w as [|[[] f] w IH]; intros Hw; cbn [op_wait];
    frame; auto with tp;
    try (eapply within_wakeup; [done|by left]).
  apply IH. by eapply undisturbed_tail.
Qed.

Lemma within_execute_remote_operation w p t' op :
  undisturbed_op_wait t w → within (undisturbed t) (execute_remote_operation w p t' op).
Proof.
  intros []. unfold execute_remote_operation.
  frame; auto using within_op_wait, within_modify with tp.
Qed.

Lemma within_execute_locally op : within (undisturbed t) (execute_locally op).
Proof.
  unfold execute_locally. frame. unfold on_store.
  apply (within_zoom _ _ _ (λ _ _, True)); by intros.
Qed.

Lemma within_execute_operations env m t' i tx res :
  (∀ i, undisturbed_op_wait t (env_op_wait env i)) →
  within (undisturbed t) (execute_operations env m t' i tx res).
Proof.
  intros Hw. revert i res. induction tx as [|op tx IH]; intros i res; cbn [execute_operations];
    frame; auto using within_execute_locally, within_execute_remote_operation.
Qed.
End frames.

(** ** Lock messages *)
Definition lock_send_failed t (e : exn) : Prop :=
  ∃ cs p type k, call_throws cs (Send p (tx_key_message type t k)) = Some e.

Lemma raises_send_each type t l : raises (lock_send_failed t) (send_each type t l : M (Scheduler S) unit).
Proof.
  apply raises_for_each. intros [p k] s e s'. unfold send, server_call.
  destruct (call_throws _ _) eqn:E; [|done]. intros [= <- _]. by eexists _, _, _, _.
Qed.

Lemma raises_lock_wait w t : raises (lock_send_failed t) (lock_wait w t : M (Scheduler S) bool).
Proof.
  assert (Ht : raises (lock_send_failed t) (lock_wait_timeout t : M (Scheduler S) bool)).
  { unfold lock_wait_timeout, on_remote. auto 10 using raises_send_each with tp. }
  induction w as [|[[] f] w IH]; cbn [lock_wait]; unfold on_remote;
    do 2 (apply raises_bind; [auto with tp|intros]); case_decide; auto with tp.
Qed.

Lemma raises_acquire_remote w m t :
  raises (lock_send_failed t) (acquire_remote_locks_with_retry w m t : M (Scheduler S) bool).
Proof.
  unfold acquire_remote_locks_with_retry, on_remote.
  auto 10 using raises_send_each, raises_lock_wait with tp.
Qed.

(** ** Locking *)
Lemma acquire_all_locks_post env n t s :
  undisturbed_env t env → tracked t (lock_manager s) →
  ∃ r s', acquire_all_locks env n t s = (r, s') ∧
    tracked t (lock_manager s') ∧ node s' = node s ∧
    match r with
    | Ok true => ∀ k, k ∈ set_at n (local_node_id (node s)) → owner_of (lock_manager s') k = Some t
    | Ok false => idle t (lock_manager s')
    | Throw e => lock_send_failed t e
    end.
Proof.
  intros Henv Htr. unfold acquire_all_locks. rewrite bind_gets.
  set (L := local_node_id (node s)).
  destruct (acquire_local_spec (env_acquire env) (iter_order (LocalKeys t) (set_at n L)) t s)
    as (b & l & Hacq & Htr1 & Htrue & Hfalse); [apply Henv|done|].
  rewrite (bind_ok _ _ _ _ _ Hacq). destruct b.
  2: { eexists _, _. split; [done|]. split_and!; [done..|by apply Hfalse]. }
  destruct (Htrue eq_refl) as [Hown _].
  case_decide.
  { eexists _, _. split; [done|]. split_and!; [done..|]. intros k Hk.
    by apply Hown, elem_of_iter_order. }
  pose proof (within_acquire_remote t (env_lock_wait env) (delete L n) t
                (und_lock_wait _ _ Henv) (set_lock_manager l s)) as Hund.
  pose proof (raises_acquire_remote (env_lock_wait env) (delete L n) t (set_lock_manager l s))
    as Hraise.
  destruct (acquire_remote_locks_with_retry _ _ _ _) as [[[]|e] s1] eqn:E; simpl in Hund.
  all: pose proof (tracked_rely _ _ _ (und_rely _ _ _ Hund) Htr1) as Htr2; pose proof (und_node _ _ _ Hund) as Hn.
  - rewrite (bind_ok _ _ _ _ _ E). eexists _, _. split; [done|]. split_and!; [done..|].
    intros k Hk. apply (rely_owner _ _ _ (und_rely _ _ _ Hund)).
    by apply Hown, elem_of_iter_order.
  - rewrite (bind_ok _ _ _ _ _ E). destruct (release_all_post t _ Htr2) as (Hidle & _).
    eexists _, _. split_and!; [done|by apply idle_tracked|done..].
  - rewrite (bind_throw _ _ _ _ _ E). eexists _, _. split; [done|]. split_and!; [done..|].
    by eapply Hraise.
Qed.

(** The shrinking phase frees the locks first, then sends the messages. *)
Lemma release_all_locks_post n t s :
  tracked t (lock_manager s) → idle t (lock_manager (release_all_locks n t s).2).
Proof.
  intros Htr. destruct (release_all_post t _ Htr) as (Hidle & _).
  unfold release_all_locks. rewrite (bind_ok _ _ _ _ _ (release_all_run t s)), bind_gets.
  pose proof (within_send_each t MessageType.LOCK_RELEASE t
    (filter (λ p, p.1 ≠ local_node_id (node s)) (node_keys (NodeToKeys t) n))
    (set_lock_manager (release_all t (lock_manager s)) s)) as Hund.
  by eapply idle_undisturbed.
Qed.

(** Whatever the operations end with, the last thing done is a release. *)
Lemma released_last {A} (body : M (Scheduler S) A) n t s :
  tracked t (lock_manager (body s).2) →
  ∃ s1, tracked t (lock_manager s1) ∧
    (catch_all (x ← body; _ ← release_all_locks n t; mret x)
       (λ e, _ ← release_all_locks n t; throw e) s).2 = (release_all_locks n t s1).2.
Proof.
  assert (Hthrow : ∀ e s1, ((_ ← release_all_locks n t; throw e : M (Scheduler S) A) s1).2 =
                           (release_all_locks n t s1).2).
  { intros e s1. unfold mbind, M_bind. by destruct (release_all_locks n t s1) as [[]?]. }
  intros Htr. unfold catch_all. destruct (body s) as [[x|e] s1] eqn:Hb; simpl in Htr.
  - rewrite (bind_ok _ _ _ _ _ Hb). pose proof (idle_tracked _ _ (release_all_locks_post n t s1 Htr)) as Htr2.
    destruct (release_all_locks n t s1) as [[[]|e] s2] eqn:Hrel.
    + rewrite (bind_ok _ _ _ _ _ Hrel). exists s1. by rewrite Hrel.
    + rewrite (bind_throw _ _ _ _ _ Hrel), Hthrow. by exists s2.
  - rewrite (bind_throw _ _ _ _ _ Hb), Hthrow. by exists s1.
Qed.

(** ** What other transactions see *)
Section others.
Context (t t' : TransactionId) (Hne : t ≠ t') (env : Environment (S:=S)).
Context (Henv' : undisturbed_env t' env).

Lemma within_release_all : within (undisturbed t') (on_locks (modify (release_all t))).
Proof.
  intros s. split; [|done]. simpl. by apply rely_release_all.
Qed.

Lemma within_acquire_local keys : within (undisturbed t') (acquire_local (env_acquire env) keys t).
Proof.
  induction keys as [|key keys IH]; cbn [acquire_local]; frame; auto using within_release_all.
  apply (within_zoom _ _ _ (rely t')); [by split|].
  intros l. apply acquire_rely; [done|apply Henv'].
Qed.

Lemma within_acquire_all_locks n : within (undisturbed t') (acquire_all_locks env n t).
Proof.
  unfold acquire_all_locks. frame; auto using within_acquire_local, within_release_all.
  apply within_acquire_remote, Henv'.
Qed.

Lemma within_release_all_locks n : within (undisturbed t') (release_all_locks n t).
Proof. unfold release_all_locks. frame; auto using within_release_all, within_send_each. Qed.

Lemma within_primary_of key : within (undisturbed t') (primary_of key).
Proof. unfold primary_of. frame. Qed.

Lemma within_categorize tx m n : within (undisturbed t') (categorize tx m n).
Proof.
  revert m n. induction tx as [|op tx IH]; intros m n; cbn [categorize];
    frame; auto using within_primary_of.
Qed.

Lemma within_execute tx : within (undisturbed t') (execute_with_distributed_support env tx t).
Proof.
  unfold execute_with_distributed_support. frame;
    auto using within_categorize, within_acquire_all_locks, within_release_all_locks.
  apply within_execute_operations, Henv'.
Qed.
End others.

(** C20. Local locks of a transaction with remote keys: whatever messages arrive or stay
    away, whatever the executor and the server throw, and whatever other threads do as long
    as they leave the transaction's locks alone, execute_with_distributed_support ends with
    no local lock and no tracked key of the transaction, unless sending a lock message fails
    and the call leaves by that exception; in all cases the locks it owns are tracked, and
    other transactions are undisturbed. *)
Theorem distributed_execution_releases_locks env tx t s :
  well_configured (node s) → undisturbed_env t env → tracked t (lock_manager s) →
  ∃ r s', execute_with_distributed_support env tx t s = (r, s') ∧
    tracked t (lock_manager s') ∧
    (idle t (lock_manager s') ∨ ∃ e, r = Throw e ∧ lock_send_failed t e) ∧
    (∀ t', t ≠ t' → undisturbed_env t' env → undisturbed t' s s').
Proof.
  intros Hwf Henv Htr.
  destruct (execute_with_distributed_support env tx t s) as [r s'] eqn:Hrun.
  exists r, s'. split; [done|]. apply and_assoc. split.
  2: { intros t' Hne Henv'. pose proof (within_execute t t' Hne env Henv' tx s) as Hw.
       by rewrite Hrun in Hw. }
  destruct (categorize_run tx ∅ ∅ s Hwf) as (m & n & Hcat & _).
  unfold execute_with_distributed_support in Hrun. rewrite (bind_ok _ _ _ _ _ Hcat) in Hrun.
  destruct (acquire_all_locks_post env n t s Henv Htr) as (b & s1 & Hacq & Htr1 & _ & Hb).
  destruct b as [[]|e].
  - rewrite (bind_ok _ _ _ _ _ Hacq) in Hrun.
    pose proof (within_execute_operations t env m t 0 tx [] (und_op_wait _ _ Henv) s1) as Hund.
    destruct (released_last (execute_operations env m t 0 tx []) n t s1) as (s2 & Htr2 & Hlast);
      [exact (tracked_rely _ _ _ (und_rely _ _ _ Hund) Htr1)|].
    pose proof (release_all_locks_post n t s2 Htr2) as Hidle.
    rewrite Hrun in Hlast. cbn [snd] in Hlast. rewrite Hlast. auto using idle_tracked.
  - rewrite (bind_ok _ _ _ _ _ Hacq) in Hrun. injection Hrun as <- <-. auto.
  - rewrite (bind_throw _ _ _ _ _ Hacq) in Hrun. injection Hrun as <- <-. eauto.
Qed.

(** ** When no answer comes *)

(** The pending set of the transaction replaced. *)
Definition with_pending t m (r : RemoteState) : RemoteState :=
  set_pending_locks (<[t := m]> (pending_remote_locks r)) r.

Lemma pending_at_with t m r : pending_at t (with_pending t m r) = m.
Proof. unfold pending_at; simpl. by rewrite lookup_insert_eq. Qed.

Lemma with_pending_with t m m' r : with_pending t m' (with_pending t m r) = with_pending t m' r.
Proof. unfold with_pending, set_pending_locks; simpl. by rewrite insert_insert_eq. Qed.

Lemma touch_pending_with t m r : touch_pending t (with_pending t m r) = with_pending t m r.
Proof.
  unfold touch_pending. rewrite pending_at_with. apply with_pending_with.
Qed.

Lemma erase_pending_with t m r :
  pending_remote_locks r !! t = None → erase_pending t (with_pending t m r) = r.
Proof.
  intros Hn. unfold erase_pending, set_pending_locks; simpl. rewrite delete_insert_id by done.
  by destruct r.
Qed.

Lemma add_pending_run t l s :
  l ≠ [] →
  ∃ m, for_each l (λ p, on_remote (add_pending t p.1 p.2)) s =
         (Ok tt, set_remote (with_pending t m (remote s)) s) ∧
    (∀ p k, k ∈ set_at m p ↔ k ∈ set_at (pending_at t (remote s)) p ∨ (p, k) ∈ l) ∧
    (∀ p, p ∈ dom m ↔ p ∈ dom (pending_at t (remote s)) ∨ ∃ k, (p, k) ∈ l).
Proof.
  revert s. induction l as [|[p0 k0] l IH]; intros s Hne; [done|]. cbn [for_each].
  rewrite bind_on_remote. simpl. set (M0 := pending_at t (remote s)).
  change (add_pending t p0 k0 (remote s)) with
    (with_pending t (<[p0 := {[k0]} ∪ set_at M0 p0]> M0) (remote s)).
  set (M1 := <[p0 := {[k0]} ∪ set_at M0 p0]> M0).
  assert (Hset : ∀ p k, k ∈ set_at M1 p ↔ k ∈ set_at M0 p ∨ (p, k) = (p0, k0)).
  { intros p k. unfold M1. rewrite set_at_insert. case_decide; set_solver. }
  assert (Hdom : ∀ p, p ∈ dom M1 ↔ p ∈ dom M0 ∨ p = p0).
  { intros p. unfold M1. rewrite dom_insert_L. set_solver. }
  destruct (decide (l = [])) as [->|Hl].
  { exists M1. simpl. split_and!; [done|..]; set_solver. }
  destruct (IH (set_remote (with_pending t M1 (remote s)) s) Hl) as (m & Hrun & Hm & Hd).
  exists m. rewrite Hrun. simpl in *. rewrite with_pending_with, pending_at_with in *.
  split_and!; [done|..].
  - intros p k. rewrite Hm, Hset. set_solver.
  - intros p. rewrite Hd, Hdom. set_solver.
Qed.

(** The pending set is the set of requests. *)
Lemma pending_requests t n s :
  (∀ p, p ∈ dom n ↔ ∃ k, k ∈ set_at n p) → node_keys (RemoteKeys t) n ≠ [] →
  pending_remote_locks (remote s) !! t = None →
  for_each (node_keys (RemoteKeys t) n) (λ p, on_remote (add_pending t p.1 p.2)) s =
    (Ok tt, set_remote (with_pending t n (remote s)) s).
Proof.
  intros Hd Hne Hp. destruct (add_pending_run t (node_keys (RemoteKeys t) n) s Hne) as (m & -> & Hm & Hdm).
  assert (E : pending_at t (remote s) = ∅) by (unfold pending_at; by rewrite Hp).
  rewrite E in *. replace m with n; [done|].
  assert (Hdom : dom n = dom m).
  { apply set_eq. intros p. rewrite Hd, Hdm. setoid_rewrite elem_of_node_keys. set_solver. }
  assert (Hset : ∀ p, set_at n p = set_at m p).
  { intros p. apply set_eq. intros k. rewrite Hm, elem_of_node_keys, set_at_empty. set_solver. }
  apply map_eq. intros p. specialize (Hset p). unfold set_at in Hset.
  destruct (n !! p) as [X|] eqn:En, (m !! p) as [Y|] eqn:Em; simpl in Hset; try congruence.
  - apply elem_of_dom_2 in En. rewrite Hdom in En. apply elem_of_dom in En as [? ?]. congruence.
  - apply elem_of_dom_2 in Em. rewrite <- Hdom in Em. apply elem_of_dom in Em as [? ?]. congruence.
Qed.

(** Spurious wake-ups do not end the wait. *)
Lemma lock_wait_spurious sts t m r s :
  m ≠ ∅ →
  lock_wait ((λ st, (st, id)) <$> sts) t (set_remote (with_pending t m r) s) =
    lock_wait_timeout t (set_remote (with_pending t m r) s).
Proof.
  intros Hm. assert (Hstep : ∀ {A} (k : gmap NodeID (gset KeyType) → M (Scheduler S) A),
    (_ ← on_remote (touch_pending t); p ← gets (λ s, pending_at t (remote s)); k p)
      (set_remote (with_pending t m r) s) = k m (set_remote (with_pending t m r) s)).
  { intros A k. rewrite bind_on_remote, bind_gets. simpl.
    by rewrite touch_pending_with, pending_at_with. }
  induction sts as [|[] sts IH]; simpl; rewrite Hstep, decide_False; done.
Qed.

Definition lock_messages (type : string) t (l : list (NodeID * KeyType)) : list ServerCall :=
  (λ p, Send p.1 (tx_key_message type t p.2)) <$> l.

(** Every requested key is given up again, and the request forgotten. *)
Lemma lock_wait_timeout_run t m r s :
  (∀ cs c, call_throws cs c = None) → pending_remote_locks r !! t = None →
  lock_wait_timeout t (set_remote (with_pending t m r) s) =
    (Ok false, set_calls (calls s ++ lock_messages MessageType.LOCK_RELEASE t (node_keys (PendingLocks t) m))
                 (set_remote r s)).
Proof.
  intros Hok Hr. unfold lock_wait_timeout. rewrite bind_on_remote, bind_gets. simpl.
  rewrite touch_pending_with, pending_at_with.
  rewrite (bind_ok _ _ _ _ _ (send_each_ok _ _ _ _ Hok)), bind_on_remote. simpl.
  by rewrite erase_pending_with.
Qed.

Lemma acquire_remote_unanswered sts t n s :
  (∀ cs c, call_throws cs c = None) → pending_remote_locks (remote s) !! t = None →
  (∀ p, p ∈ dom n ↔ ∃ k, k ∈ set_at n p) → n ≠ ∅ → node_keys (RemoteKeys t) n ≠ [] →
  acquire_remote_locks_with_retry ((λ st, (st, id)) <$> sts) n t s =
    (Ok false, set_calls (calls s ++ lock_messages MessageType.LOCK_REQUEST t (node_keys (RemoteKeys t) n) ++
                          lock_messages MessageType.LOCK_RELEASE t
                            (node_keys (PendingLocks t) n)) s).
Proof.
  intros Hok Hr Hd Hne Hk. unfold acquire_remote_locks_with_retry.
  rewrite (bind_ok _ _ _ _ _ (pending_requests t n s Hd Hk Hr)).
  rewrite (bind_ok _ _ _ _ _ (send_each_ok _ _ _ _ Hok)). simpl.
  change (set_calls ?x (set_remote ?y s)) with (set_remote y (set_calls x s)).
  rewrite lock_wait_spurious, lock_wait_timeout_run by done. simpl. f_equal.
  unfold set_calls, set_remote; simpl. by rewrite <- (assoc_L (++)).
Qed.

(** A wait that is answered but returns at its deadline: the timeout branch
    gives up the keys still pending, and after any lock response there are none.
    The requests have been sent and no release ever is. *)
Lemma answered_at_deadline_sends_no_release `{!JsonSpec} peer type key rest t n s :
  (∀ cs c, call_throws cs c = None) → pending_remote_locks (remote s) !! t = None →
  (∀ p, p ∈ dom n ↔ ∃ k, k ∈ set_at n p) → n ≠ ∅ → node_keys (RemoteKeys t) n ≠ [] →
  (type = MessageType.LOCK_GRANTED ∨ type = MessageType.LOCK_DENIED) →
  acquire_remote_locks_with_retry
    ((timeout, λ s, (handle_peer_message no_interference peer (tx_key_message type t key) s).2)
       :: rest) n t s =
  (Ok false, set_calls (calls s ++ lock_messages MessageType.LOCK_REQUEST t (node_keys (RemoteKeys t) n)) s).
Proof.
  intros Hok Hr Hd Hne Hk Htype. unfold acquire_remote_locks_with_retry.
  rewrite (bind_ok _ _ _ _ _ (pending_requests t n s Hd Hk Hr)).
  rewrite (bind_ok _ _ _ _ _ (send_each_ok _ _ _ _ Hok)). cbn [lock_wait].
  rewrite bind_on_remote, bind_gets. simpl.
  rewrite touch_pending_with, pending_at_with, decide_False, bind_modify by done.
  destruct (tx_key_message_fields type t key) as [Hf Hft].
  rewrite (handle_peer_message_response no_interference _ _ _ _ _ _ Htype Hf Hft). simpl.
  rewrite erase_pending_with by done.
  unfold lock_wait_timeout. rewrite bind_on_remote, bind_gets. simpl.
  assert (Hp : pending_at t (remote s) = ∅) by (unfold pending_at; by rewrite Hr).
  change (touch_pending t (remote s)) with (with_pending t (pending_at t (remote s)) (remote s)).
  rewrite pending_at_with, Hp, node_keys_empty. unfold send_each, mbind, M_bind. simpl.
  rewrite erase_pending_with by done. by destruct s.
Qed.

(** Without interference, available keys are locked and nothing else changes hands. *)
Lemma acquire_available key t l :
  available l t key →
  ∃ l', acquire no_interference key t l = (Ok ACQUIRED, l') ∧
    (∀ k, owner_of l' k = if decide (k = key) then Some t else owner_of l k) ∧
    (tracked t l → tracked t l') ∧ (∀ t', t' ≠ t → rely t' l l').
Proof.
  intros Hav.
  assert (Htr : tracked t l → tracked t (acquire no_interference key t l).2)
    by apply acquire_tracked, respects_none.
  assert (Hrely : ∀ t', t' ≠ t → rely t' l (acquire no_interference key t l).2)
    by (intros t' Hne; apply acquire_rely; [done|apply respects_none]).
  pose proof (acquire_alone key t l) as Hacq. unfold available in Hav.
  destruct (owner_of l key) as [o|] eqn:E; cbn zeta in Hacq.
  - subst o. rewrite decide_True in Hacq by done. rewrite Hacq in *.
    eexists. split_and!; [done| |done..]. intros k.
    change (owner_of (track_key key t ?l0)) with (owner_of l0). rewrite owner_of_emplace.
    by case_decide; subst.
  - rewrite Hacq in *. eexists. split_and!; [done| |done..]. intros k.
    rewrite owner_of_set_owner. change (owner_of (track_key key t ?l0)) with (owner_of l0).
    rewrite owner_of_emplace. repeat case_decide; naive_solver.
Qed.

Lemma acquire_local_available keys t s :
  (∀ k, k ∈ keys → available (lock_manager s) t k) →
  ∃ l', acquire_local (λ _, no_interference) keys t s = (Ok true, set_lock_manager l' s) ∧
    (∀ k, owner_of l' k = if decide (k ∈ keys) then Some t else owner_of (lock_manager s) k) ∧
    (tracked t (lock_manager s) → tracked t l').
Proof.
  revert s. induction keys as [|key keys IH]; intros s Hav; cbn [acquire_local].
  { exists (lock_manager s). split_and!; [by destruct s| |done]. intros k.
    by rewrite decide_False by set_solver. }
  destruct (acquire_available key t (lock_manager s)) as (l1 & Hacq & Ho & Htr & _);
    [apply Hav; set_solver|].
  rewrite (bind_ok _ _ _ _ _ (on_locks_run _ _ _ _ Hacq)).
  destruct (IH (set_lock_manager l1 s)) as (l' & -> & Ho' & Htr').
  { intros k Hk. unfold available. simpl. rewrite Ho. case_decide; [done|].
    apply Hav. set_solver. }
  exists l'. split_and!; [done| |by intros; apply Htr', Htr]. intros k. rewrite Ho'. simpl.
  rewrite Ho. repeat case_decide; set_solver.
Qed.

(** The growing phase at the node, up to the requests: local locks taken. *)
Lemma acquire_all_locks_available env n t s :
  env_acquire env = (λ _, no_interference) →
  (∀ k, k ∈ set_at n (local_node_id (node s)) → available (lock_manager s) t k) →
  delete (local_node_id (node s)) n ≠ ∅ → tracked t (lock_manager s) →
  ∃ l, tracked t l ∧
    (∀ k, owner_of l k = if decide (k ∈ set_at n (local_node_id (node s))) then Some t
                         else owner_of (lock_manager s) k) ∧
    acquire_all_locks env n t s =
      (ok ← acquire_remote_locks_with_retry (env_lock_wait env)
              (delete (local_node_id (node s)) n) t;
       match ok with
       | true => mret true
       | false => _ ← on_locks (modify (release_all t)); mret false
       end) (set_lock_manager l s).
Proof.
  intros Henv Hav Hne Htr. set (L := local_node_id (node s)) in *.
  destruct (acquire_local_available (iter_order (LocalKeys t) (set_at n L)) t s)
    as (l & Hacq & Ho & Htr1).
  { intros k. rewrite elem_of_iter_order. apply Hav. }
  exists l. split_and!; [by apply Htr1| |].
  - intros k. rewrite Ho. apply decide_ext. apply elem_of_iter_order.
  - unfold acquire_all_locks. rewrite bind_gets, Henv. fold L.
    rewrite (bind_ok _ _ _ _ _ Hacq). cbn beta iota. by rewrite decide_False by done.
Qed.

(** Nobody answers before the deadline. *)
Lemma unanswered_transaction env sts tx t s :
  (∀ cs c, call_throws cs c = None) →
  env_acquire env = (λ _, no_interference) → env_lock_wait env = (λ st, (st, id)) <$> sts →
  well_configured (node s) → tracked t (lock_manager s) →
  pending_remote_locks (remote s) !! t = None →
  (∀ k, k ∈ keys_at (node s) tx (local_node_id (node s)) → available (lock_manager s) t k) →
  (∃ k, k ∈ tx_keys tx ∧ route (node s) k ≠ local_node_id (node s)) →
  ∃ m n l', categorize tx ∅ ∅ s = (Ok (m, n), s) ∧ grouped (node s) tx n ∧
    execute_with_distributed_support env tx t s =
      (Ok [], set_calls (calls s ++
         lock_messages MessageType.LOCK_REQUEST t
           (node_keys (RemoteKeys t) (delete (local_node_id (node s)) n)) ++
         lock_messages MessageType.LOCK_RELEASE t
           (node_keys (PendingLocks t) (delete (local_node_id (node s)) n)))
         (set_lock_manager l' s)) ∧
    idle t l' ∧
    (∀ k, owner_of (lock_manager s) k ≠ Some t → owner_of l' k = owner_of (lock_manager s) k).
Proof.
  intros Hok Henv Hwait Hwf Htr Hp Hav Hrem. set (L := local_node_id (node s)) in *.
  destruct (categorize_grouped tx s Hwf) as (m & n & Hcat & Hn & _).
  destruct (node_keys_remote _ _ _ (RemoteKeys t) Hn Hrem) as [Hne Hk]. fold L in Hne, Hk.
  destruct (acquire_all_locks_available env n t s) as (l & Htr1 & Ho & Hacq); [done| |done..|].
  { intros k. rewrite (grouped_keys _ _ _ Hn). apply Hav. }
  destruct (release_all_post t l Htr1) as (Hidle & Ho2 & _).
  exists m, n, (release_all t l). split_and!; [done..| |done|].
  - unfold execute_with_distributed_support. rewrite (bind_ok _ _ _ _ _ Hcat).
    unfold mbind at 1, M_bind at 1. rewrite Hacq, Hwait. fold L.
    by rewrite (bind_ok _ _ _ _ _ (acquire_remote_unanswered sts t (delete L n)
      (set_lock_manager l s) Hok Hp (grouped_remote_dom _ _ _ Hn) Hne Hk)).
  - intros k Hk'. rewrite Ho2, Ho. fold L.
    destruct (decide (k ∈ set_at n L)) as [Hin|Hin]; [|by rewrite decide_False].
    rewrite decide_True by done. rewrite (grouped_keys _ _ _ Hn) in Hin.
    specialize (Hav k Hin). unfold available in Hav.
    destruct (owner_of (lock_manager s) k); [congruence|done].
Qed.

(** C26. The timeout of the remote locks: a transaction with a remote key whose local keys
    are free or its own and which has no pending requests runs on a node where no other
    thread interferes, no send throws, and no lock response arrives before the deadline,
    spurious wake-ups apart. It returns no reads, executes no operation and leaves the store
    as it is; it has sent one lock request per remote key and then one release for each of
    the same keys, in an order of its own; its pending set is gone, it holds no local lock,
    and locks of other transactions keep their owners. *)
Theorem unanswered_lock_requests_abort sts tx t s :
  (∀ cs c, call_throws cs c = None) →
  well_configured (node s) → tracked t (lock_manager s) →
  pending_remote_locks (remote s) !! t = None →
  (∀ k, k ∈ keys_at (node s) tx (local_node_id (node s)) → available (lock_manager s) t k) →
  (∃ k, k ∈ tx_keys tx ∧ route (node s) k ≠ local_node_id (node s)) →
  ∃ requests releases l',
    execute_with_distributed_support
      {| env_acquire := λ _, no_interference;
         env_lock_wait := (λ st, (st, id)) <$> sts; env_op_wait := λ _, only_wakeups [] |} tx t s =
      (Ok [], set_calls (calls s ++ lock_messages MessageType.LOCK_REQUEST t requests ++
                         lock_messages MessageType.LOCK_RELEASE t releases)
                (set_lock_manager l' s)) ∧
    NoDup requests ∧ releases ≡ₚ requests ∧
    (∀ p k, (p, k) ∈ requests ↔ p ≠ local_node_id (node s) ∧ k ∈ keys_at (node s) tx p) ∧
    idle t l' ∧
    (∀ k, owner_of (lock_manager s) k ≠ Some t → owner_of l' k = owner_of (lock_manager s) k).
Proof.
  intros Hok Hwf Htr Hp Hav Hrem.
  destruct (unanswered_transaction
    {| env_acquire := λ _, no_interference;
       env_lock_wait := (λ st, (st, id)) <$> sts; env_op_wait := λ _, only_wakeups [] |} sts tx t s) as (m & n & l' & _ & Hn & Hrun & Hidle & Ho);
    [done..|].
  eexists _, _, l'. split; [exact Hrun|].
  split_and!; [apply NoDup_node_keys|apply node_keys_perm| |done..].
  intros p k. by apply grouped_remote.
Qed.

End remote_execution.

(** ** The handlers keep to what waiting transactions count on *)
Section handler_frames.
Context {S : Type} `{KVStore S} `{OpExecutor S} `{Json} `{!JsonSpec} `{StdHash} `{!Iteration Z}
  `{!TransactionServer}.
Context (t : TransactionId) (env : Interference) (msg : object).

(** The message is of another transaction, and so is what runs meanwhile. *)
Record of_others : Prop := {
  others_tx z : obj_at msg "tx_id" = Some (v_uint64 z) → z ≠ t ∧ respects z env;
  others_respects : respects t env;
}.
Context (Hmsg : of_others).

Lemma within_read_tx {A} (R : relation (Scheduler S)) `{!PreOrder R} (k : Z → M (Scheduler S) A) :
  (∀ z, z ≠ t → respects z env → within R (k z)) →
  within R ((v ← at_ msg "tx_id"; uint64_of v) ≫= k).
Proof.
  intros Hk s. mred. destruct (obj_at msg "tx_id") as [v|] eqn:E; [|done].
  destruct (as_uint64 v) as [z|] eqn:Ez; [|done]. apply as_uint64_spec in Ez as ->.
  destruct (others_tx Hmsg z E). by apply Hk.
Qed.

Lemma within_acquire z key :
  z ≠ t → respects z env → within (undisturbed t) (on_locks (acquire env key z) : M (Scheduler S) _).
Proof.
  intros Hz Henv. apply (within_zoom _ _ _ (rely t)); [by split|].
  intros l. by apply acquire_rely, (others_respects Hmsg).
Qed.

Lemma within_release z key :
  z ≠ t → within (undisturbed t) (on_locks (modify (release key z)) : M (Scheduler S) unit).
Proof.
  intros Hz s. split; [by apply rely_release|done].
Qed.

Lemma within_on_store {A} (m : M S A) : within (undisturbed t) (on_store m).
Proof. apply (within_zoom _ _ _ (λ _ _, True)); by intros. Qed.

Lemma within_int64_array l : within (undisturbed t) (int64_array l : M (Scheduler S) _).
Proof. induction l as [|v l IH]; cbn [int64_array]; unfold int64_of; frame. Qed.
#[local] Hint Resolve within_acquire within_release within_on_store within_int64_array
  within_on_remote within_send : tp.

(** Reading the id tells it apart from [t]; other fields are just read. *)
Ltac handler := repeat first
  [ match goal with
    | |- within _ ((_ ← at_ msg "tx_id"; _) ≫= _) => apply within_read_tx; [apply _|]
    | |- within _ (at_ _ _) => apply within_lift
    | |- within _ (_ _) => progress unfold uint64_of, int64_of, string_of, array_of, log_error
    end
  | frame_step ]; auto with tp.

Lemma within_handle_lock_messages peer :
  within (undisturbed t) (handle_lock_request env peer msg : M (Scheduler S) unit) ∧
  within (undisturbed t) (handle_lock_response peer msg : M (Scheduler S) unit) ∧
  within (undisturbed t) (handle_lock_release peer msg : M (Scheduler S) unit).
Proof.
  unfold handle_lock_request, handle_lock_response, handle_lock_release.
  split_and!; handler.
Qed.

Lemma within_handle_operation_messages peer :
  within (undisturbed t) (handle_operation_request peer msg : M (Scheduler S) unit) ∧
  within (undisturbed t) (handle_operation_response peer msg : M (Scheduler S) unit) ∧
  within (undisturbed t) (handle_prepare_request peer msg : M (Scheduler S) unit).
Proof.
  unfold handle_operation_request, handle_operation_response, handle_prepare_request.
  split_and!; handler.
Qed.

Lemma within_handle_peer_message peer :
  within (undisturbed t) (handle_peer_message env peer msg : M (Scheduler S) unit).
Proof.
  destruct (within_handle_lock_messages peer) as (? & ? & ?).
  destruct (within_handle_operation_messages peer) as (? & ? & ?).
  unfold handle_peer_message, handle_commit_request, handle_abort_request. handler.
Qed.

(** C25. Handling a message of one transaction, of whatever type and content, well-formed or
    not, leaves every other transaction undisturbed: it gains and loses no lock, and its
    tracking set and the node's identity are unchanged. *)
Theorem handlers_leave_other_transactions_alone peer s :
  undisturbed t s (handle_peer_message (S:=S) env peer msg s).2.
Proof. apply within_handle_peer_message. Qed.
End handler_frames.

(** ** The hypotheses hold: node 0 of a cluster of two, where odd keys are remote *)
Module RemoteDemo.
Import Demo.

(** While the transaction waits, other threads serve a lock request of
    transaction 9 and its release. *)
Definition busy_wakeups : Wakeups (S:=demo_store) :=
  [(no_timeout, λ s, (handle_peer_message no_interference 1
      (tx_key_message MessageType.LOCK_REQUEST 9 4) s).2);
   (no_timeout, λ s, (handle_peer_message no_interference 1
      (tx_key_message MessageType.LOCK_RELEASE 9 4) s).2)].

Lemma demo_of_others type z k :
  z ≠ 7%Z → of_others 7 no_interference (tx_key_message type z k).
Proof.
  intros Hz. split; [|apply respects_none].
  intros z' E. rewrite (field_tx_id _ _ _ (proj1 (tx_key_message_fields type z k))) in E.
  injection E as <-. split; [done|apply respects_none].
Qed.

Lemma handlers_leave_other_transactions_alone_witness :
  undisturbed 7 clustered_node
    (handle_peer_message no_interference 1 (tx_key_message MessageType.LOCK_REQUEST 9 4)
       clustered_node).2.
Proof.
  exact (handlers_leave_other_transactions_alone 7 no_interference
           (tx_key_message MessageType.LOCK_REQUEST 9 4)
           (demo_of_others MessageType.LOCK_REQUEST 9 4 ltac:(done)) 1 clustered_node).
Defined.

Lemma distributed_execution_releases_locks_witness :
  ∃ r s', execute_with_distributed_support
            {| env_acquire := λ _, no_interference; env_lock_wait := busy_wakeups;
               env_op_wait := λ _, only_wakeups [] |} [AppendOp 2 1; AppendOp 5 1] 7 clustered_node = (r, s') ∧
    tracked 7 (lock_manager s') ∧ owner_of (lock_manager s') 2 ≠ Some 7%Z.
Proof.
  destruct (distributed_execution_releases_locks
    {| env_acquire := λ _, no_interference; env_lock_wait := busy_wakeups;
       env_op_wait := λ _, only_wakeups [] |} [AppendOp 2 1; AppendOp 5 1] 7 clustered_node)
    as (r & s' & Hrun & Htr & Hidle & _).
  - done.
  - split; [apply fair_quiet| |intros i; split; [done|done|apply undisturbed_nil|done]].
    repeat (apply undisturbed_cons; [by apply within_handle_peer_message, demo_of_others|]).
    apply undisturbed_nil.
  - apply tracked_new.
  - exists r, s'. split; [exact Hrun|]. split; [exact Htr|].
    destruct Hidle as [[_ Ho]|(e & _ & cs & p & ty & k & Hfail)]; [apply Ho|discriminate Hfail].
Defined.

#[local] Existing Instance mixed_iteration | 0.

(** Two spurious wake-ups, then the deadline. *)
Lemma unanswered_lock_requests_abort_witness :
  ∃ requests releases l',
    execute_with_distributed_support
      {| env_acquire := λ _, no_interference;
         env_lock_wait := [(no_timeout, id); (no_timeout, id)]; env_op_wait := λ _, only_wakeups [] |}
      [AppendOp 2 1; AppendOp 5 1; ReadOp 7] 7 clustered_node =
      (Ok [], set_calls (lock_messages MessageType.LOCK_REQUEST 7 requests ++
                         lock_messages MessageType.LOCK_RELEASE 7 releases)
                (set_lock_manager l' clustered_node)) ∧
    (1%Z, 5%Z) ∈ requests ∧ (1%Z, 7%Z) ∈ requests ∧ releases ≡ₚ requests ∧ idle 7 l'.
Proof.
  destruct (unanswered_lock_requests_abort [no_timeout; no_timeout]
              [AppendOp 2 1; AppendOp 5 1; ReadOp 7] 7 clustered_node)
    as (requests & releases & l' & Hrun & _ & Hrel & Hreq & Hidle & _).
  - done.
  - done.
  - apply tracked_new.
  - done.
  - intros k _. done.
  - exists 5%Z. split; [by vm_compute|]. by vm_compute.
  - exists requests, releases, l'. split; [exact Hrun|].
    split_and!; [|apply Hreq; split; [done|by vm_compute]..|exact Hrel|exact Hidle].
    apply Hreq. split; [done|]. by vm_compute.
Defined.

End RemoteDemo.
