(* ===== verification/Monitor.v ===== *)
(** * [distributed_mutex] and its condition variables

    The threads of a node that wait for answers of other nodes and those that
    deliver the answers, one step per access: [acquire_remote_locks_with_retry]
    and [execute_remote_operation] of TwoPLScheduler.cpp wait on
    [remote_lock_cv] and [remote_op_cv], [handle_lock_response] and
    [handle_operation_response] notify them.  [next] gives the next step of a
    thread from its program counter; [do_step] runs one step of the node under
    [distributed_mutex]; a schedule is a list of steps, among them the wake-ups
    a condition variable may have for no reason and those at a deadline.

    [Scheduler] describes the same methods as code that is given, as an
    argument, what happens during its waits; MonitorRefinement relates the two. *)
From S2P Require Import Prelude Operations KVStore LockManager Json Coordinator Scheduler.
From S2P Require Import SchedulerLocal Handlers SchedulerRemote.

(** ** Accesses to what the mutex protects *)
Inductive access :=
  | AddPending (tx_id : TransactionId) (n : NodeID) (k : KeyType)
  | TouchPending (tx_id : TransactionId)
  | ErasePending (tx_id : TransactionId)
  | NoteGranted (tx_id : TransactionId) (peer : NodeID) (k : KeyType)
  | AddOp (tx_id : TransactionId) (p : NodeID * KeyType)
  | EraseOp (tx_id : TransactionId) (p : NodeID * KeyType)
  | StoreResult (tx_id : TransactionId) (k : KeyType) (x : ValueContainer).

Definition perform (a : access) : RemoteState → RemoteState :=
  match a with
  | AddPending t n k => add_pending t n k
  | TouchPending t => touch_pending t
  | ErasePending t => erase_pending t
  | NoteGranted t p k => note_granted t p k
  | AddOp t p => add_pending_op t p
  | EraseOp t p => erase_pending_op t p
  | StoreResult t k x => store_result t k x
  end.

Definition perform_all (l : list access) (r : RemoteState) : RemoteState :=
  foldl (λ r a, perform a r) r l.

(** The two condition variables. *)
Inductive cv := remote_lock_cv | remote_op_cv.
#[export] Instance cv_eq_dec : EqDecision cv.
Proof. solve_decision. Defined.

(** ** Program counters *)

(** [acquire_remote_locks_with_retry].  Between [LRegister] and [LReturn] or
    [LUnwind] the thread holds the mutex, but for [LWait] and [LWoken]. *)
Inductive lock_pc :=
  | LLock (remote_keys : gmap NodeID (gset KeyType))      (* unique_lock lock(...) *)
  | LRegister (todo : list (NodeID * KeyType)) (remote_keys : gmap NodeID (gset KeyType))
  | LSend (todo : list (NodeID * KeyType))
  | LTest                                                 (* the while condition *)
  | LSleep                                                (* calls wait_until *)
  | LWait                                                 (* blocked in it *)
  | LWoken (st : cv_status)                               (* awake, without the mutex *)
  | LTimeout                                              (* the timeout branch *)
  | LRelease (todo : list (NodeID * KeyType))
  | LErase
  | LReturn (b : bool)
  | LUnwind (e : exn).

(** [execute_remote_operation]. *)
Inductive op_pc :=
  | OLock | OInsert | OUnlock                             (* the first block *)
  | OSend
  | ORelock | OTest | OSleep | OWait | OWoken (st : cv_status) | OTimeout | OLeave
  | OFetchLock | OFetch
  | OReturn (v : option ValueContainer)
  | OCatch.                                               (* catch (...) *)

(** A transaction: first the remote locks, then its remote operations one
    after the other.  Its local operations and the release messages at the end
    do not use the mutex and are left out; [reads] are its remote results. *)
Inductive client_pc :=
  | Locking (p : lock_pc)
  | Between
  | Operating (target : NodeID) (op : Operation) (p : op_pc)
  | Finished (r : res Reads).

(** [handle_lock_response]. *)
Inductive lock_response_pc :=
  | RParse
  | RLock (tx_id : TransactionId) (key : KeyType) (granted : bool)
  | RUpdate (tx_id : TransactionId) (key : KeyType) (granted : bool)
  | RTest (tx_id : TransactionId)
  | RNotify | RUnlock | RDone.

(** [handle_operation_response]. *)
Inductive op_response_pc :=
  | SParse
  | SLock (tx_id : TransactionId) (key : KeyType)
  | SStore (tx_id : TransactionId) (key : KeyType)
  | SErase (tx_id : TransactionId) (key : KeyType)
  | STest (tx_id : TransactionId)
  | SNotify | SUnlock | SDone.

(** What a step does to the mutex and to what it protects.  [Access None]
    only reads. *)
Inductive effect :=
  | Acquire | Release
  | Access (a : option access)
  | Sleep (c : cv)
  | Notify (c : cv)
  | Silent.

(** A step of the node: the next step of a thread, or the return of a wait. *)
Inductive action := Run (i : nat) | Wake (i : nat) (st : cv_status).
#[export] Instance cv_status_eq_dec : EqDecision cv_status.
Proof. solve_decision. Defined.
#[export] Instance action_eq_dec : EqDecision action.
Proof. solve_decision. Defined.

Section monitor.
Context `{Json} `{!Iteration Z}.
(** The exception a send ends with, if any, by peer and message.  A message
    carries its transaction's id and a transaction asks for a key, and gives it
    up, once: a choice per message is a choice per send, except that an
    operation a transaction repeats is sent with the same fate each time. *)
Context (fails : ServerCall → option exn).

Inductive thread :=
  | Client (tx_id : TransactionId) (ops : list (NodeID * Operation)) (reads : Reads)
      (p : client_pc)
  | LockResponse (peer_id : NodeID) (msg : object) (p : lock_response_pc)
  | OpResponse (peer_id : NodeID) (msg : object) (p : op_response_pc).

(** ** The next step of a thread *)
Definition lock_next (tx_id : TransactionId) (r : RemoteState) (p : lock_pc)
    : option (effect * lock_pc) :=
  match p with
  | LLock keys => Some (Acquire, LRegister (node_keys (RemoteKeys tx_id) keys) keys)
  | LRegister ((n, k) :: l) keys => Some (Access (Some (AddPending tx_id n k)), LRegister l keys)
  | LRegister [] keys => Some (Silent, LSend (node_keys (RemoteKeys tx_id) keys))
  | LSend ((n, k) :: l) =>
      match fails (Send n (tx_key_message MessageType.LOCK_REQUEST tx_id k)) with
      | None => Some (Silent, LSend l)
      | Some e => Some (Silent, LUnwind e)
      end
  | LSend [] => Some (Silent, LTest)
  | LTest => Some (Access (Some (TouchPending tx_id)),
                   if decide (pending_at tx_id r = ∅) then LReturn true else LSleep)
  | LSleep => Some (Sleep remote_lock_cv, LWait)
  | LWait => None
  | LWoken no_timeout => Some (Acquire, LTest)
  | LWoken timeout => Some (Acquire, LTimeout)
  | LTimeout => Some (Access (Some (TouchPending tx_id)),
                      LRelease (node_keys (PendingLocks tx_id) (pending_at tx_id r)))
  | LRelease ((n, k) :: l) =>
      match fails (Send n (tx_key_message MessageType.LOCK_RELEASE tx_id k)) with
      | None => Some (Silent, LRelease l)
      | Some e => Some (Silent, LUnwind e)
      end
  | LRelease [] => Some (Silent, LErase)
  | LErase => Some (Access (Some (ErasePending tx_id)), LReturn false)
  | LReturn _ | LUnwind _ => None                         (* see [client_next] *)
  end.

Definition op_next (tx_id : TransactionId) (target : NodeID) (op : Operation)
    (r : RemoteState) (p : op_pc) : option (effect * op_pc) :=
  let pair := (target, op_key op) in
  match p with
  | OLock => Some (Acquire, OInsert)
  | OInsert => Some (Access (Some (AddOp tx_id pair)), OUnlock)
  | OUnlock => Some (Release, OSend)
  | OSend => Some (Silent, match fails (Send target (op_request tx_id op)) with
                           | None => ORelock
                           | Some _ => OCatch
                           end)
  | ORelock => Some (Acquire, OTest)
  | OTest => Some (Access None, if decide (pair ∈ ops_at tx_id r) then OSleep else OLeave)
  | OSleep => Some (Sleep remote_op_cv, OWait)
  | OWait => None
  | OWoken no_timeout => Some (Acquire, OTest)
  | OWoken timeout => Some (Acquire, OTimeout)
  | OTimeout => Some (Access (Some (EraseOp tx_id pair)), OReturn None)
  | OLeave => Some (Release, OFetchLock)
  | OFetchLock => Some (Acquire, OFetch)
  | OFetch => Some (Access None, OReturn (m ← remote_results r !! tx_id; m !! op_key op))
  | OReturn _ | OCatch => None                            (* see [client_next] *)
  end.

(** A transaction's calls, composed as in [execute_with_distributed_support]
    and [execute_operations]. *)
Definition client_next (tx_id : TransactionId) (ops : list (NodeID * Operation)) (reads : Reads)
    (r : RemoteState) (p : client_pc) : option (effect * thread) :=
  match p with
  | Locking (LReturn b) =>
      Some (Release, if b then Client tx_id ops reads Between
                     else Client tx_id ops reads (Finished (Ok [])))
  | Locking (LUnwind e) => Some (Release, Client tx_id ops reads (Finished (Throw e)))
  | Locking q => '(e, q') ← lock_next tx_id r q; Some (e, Client tx_id ops reads (Locking q'))
  | Between =>
      match ops with
      | [] => Some (Silent, Client tx_id [] reads (Finished (Ok reads)))
      | (n, op) :: ops' => Some (Silent, Client tx_id ops' reads (Operating n op OLock))
      end
  | Operating n op (OReturn v) =>
      Some (Release, Client tx_id ops
        (match v with Some x => reads ++ [(op_key op, Some x)] | None => reads end) Between)
  | Operating n op OCatch => Some (Silent, Client tx_id ops reads Between)
  | Operating n op q =>
      '(e, q') ← op_next tx_id n op r q; Some (e, Client tx_id ops reads (Operating n op q'))
  | Finished _ => None
  end.

(** The fields a lock response is read for, before the mutex is taken. *)
Definition lock_response_fields (msg : object)
    : M unit (option (TransactionId * KeyType * bool)) :=
  if negb (contains msg "tx_id") || negb (contains msg "key") then mret None
  else
    tx_id ← (v ← at_ msg "tx_id"; uint64_of v);
    key ← (v ← at_ msg "key"; int64_of v);
    type ← (v ← at_ msg "type"; string_of v);
    mret (Some (tx_id, key, same_address (to_json_buffer type)
                              (to_literal MessageType.LOCK_GRANTED))).

Definition lock_response_next (peer_id : NodeID) (msg : object) (r : RemoteState)
    (p : lock_response_pc) : option (effect * lock_response_pc) :=
  match p with
  | RParse =>
      Some (Silent, match (lock_response_fields msg tt).1 with
                    | Ok (Some (tx_id, key, granted)) => RLock tx_id key granted
                    | Ok None | Throw _ => RDone
                    end)
  | RLock t k g => Some (Acquire, RUpdate t k g)
  | RUpdate t k true => Some (Access (Some (NoteGranted t peer_id k)),
      if decide (k ∈ set_at (pending_at t r) peer_id) then RTest t else RUnlock)
  | RUpdate t k false => Some (Access (Some (ErasePending t)), RNotify)
  | RTest t => Some (Access None, if decide (pending_at t r = ∅) then RNotify else RUnlock)
  | RNotify => Some (Notify remote_lock_cv, RUnlock)
  | RUnlock => Some (Release, RDone)
  | RDone => None
  end.

Definition op_response_fields (msg : object) : M unit (option (TransactionId * KeyType)) :=
  if negb (contains msg "tx_id") || negb (contains msg "key") then mret None
  else
    tx_id ← (v ← at_ msg "tx_id"; uint64_of v);
    key ← (v ← at_ msg "key"; int64_of v);
    mret (Some (tx_id, key)).

(** [result.push_back(val.as_int64())] for each element. *)
Fixpoint int64_values (l : list value) : M unit ValueContainer :=
  match l with
  | [] => mret []
  | v :: l' => z ← int64_of v; zs ← int64_values l'; mret (z :: zs)
  end.

(** The value, read while the mutex is held. *)
Definition op_response_value (msg : object) : M unit ValueContainer :=
  has_value ← (if contains msg "value"
               then v ← at_ msg "value"; mret (negb (is_null v))
               else mret false);
  if (has_value : bool) then v ← at_ msg "value"; l ← array_of v; int64_values l
  else mret [].

Definition op_response_next (peer_id : NodeID) (msg : object) (r : RemoteState)
    (p : op_response_pc) : option (effect * op_response_pc) :=
  match p with
  | SParse =>
      Some (Silent, match (op_response_fields msg tt).1 with
                    | Ok (Some (tx_id, key)) => SLock tx_id key
                    | Ok None | Throw _ => SDone
                    end)
  | SLock t k => Some (Acquire, SStore t k)
  | SStore t k => match (op_response_value msg tt).1 with
                  | Ok x => Some (Access (Some (StoreResult t k x)), SErase t k)
                  | Throw _ => Some (Silent, SUnlock)
                  end
  | SErase t k => Some (Access (Some (EraseOp t (peer_id, k))), STest t)
  | STest t => Some (Access None, if decide (ops_at t r = ∅) then SNotify else SUnlock)
  | SNotify => Some (Notify remote_op_cv, SUnlock)
  | SUnlock => Some (Release, SDone)
  | SDone => None
  end.

Definition next (r : RemoteState) (t : thread) : option (effect * thread) :=
  match t with
  | Client tx_id ops reads p => client_next tx_id ops reads r p
  | LockResponse peer msg p =>
      '(e, p') ← lock_response_next peer msg r p; Some (e, LockResponse peer msg p')
  | OpResponse peer msg p =>
      '(e, p') ← op_response_next peer msg r p; Some (e, OpResponse peer msg p')
  end.

(** ** Waking up *)
Definition waits_on (t : thread) : option cv :=
  match t with
  | Client _ _ _ (Locking LWait) => Some remote_lock_cv
  | Client _ _ _ (Operating _ _ OWait) => Some remote_op_cv
  | _ => None
  end.

(** [wait_until] comes back with a status.  It is [timeout] whenever the
    deadline has passed by the time the mutex is free, also after a notification. *)
Definition wake (st : cv_status) (t : thread) : option thread :=
  match t, st with
  | Client x ops reads (Locking LWait), _ => Some (Client x ops reads (Locking (LWoken st)))
  | Client x ops reads (Locking (LWoken no_timeout)), timeout =>
      Some (Client x ops reads (Locking (LWoken timeout)))
  | Client x ops reads (Operating n op OWait), _ =>
      Some (Client x ops reads (Operating n op (OWoken st)))
  | Client x ops reads (Operating n op (OWoken no_timeout)), timeout =>
      Some (Client x ops reads (Operating n op (OWoken timeout)))
  | _, _ => None
  end.

(** [notify_all] *)
Definition notify (c : cv) (t : thread) : thread :=
  if decide (waits_on t = Some c) then default t (wake no_timeout t) else t.

(** ** The node *)
Record config := mkConfig {
  shared : RemoteState;
  distributed_mutex : option nat;      (* the thread that holds it *)
  threads : list thread;
}.

(** The step of thread [i], after which the threads are [ts]. *)
Definition take_effect (e : effect) (i : nat) (ts : list thread) (c : config) : option config :=
  match e with
  | Acquire => match distributed_mutex c with
               | None => Some (mkConfig (shared c) (Some i) ts)
               | Some _ => None
               end
  | Release | Sleep _ => Some (mkConfig (shared c) None ts)
  | Access (Some a) => Some (mkConfig (perform a (shared c)) (distributed_mutex c) ts)
  | Access None | Silent => Some (mkConfig (shared c) (distributed_mutex c) ts)
  | Notify v => Some (mkConfig (shared c) (distributed_mutex c) (notify v <$> ts))
  end.

Definition do_step (a : action) (c : config) : option config :=
  match a with
  | Run i =>
      t ← threads c !! i;
      '(e, t') ← next (shared c) t;
      take_effect e i (<[i := t']> (threads c)) c
  | Wake i st =>
      t ← threads c !! i;
      t' ← wake st t;
      Some (mkConfig (shared c) (distributed_mutex c) (<[i := t']> (threads c)))
  end.

Fixpoint run (sched : list action) (c : config) : option config :=
  match sched with
  | [] => Some c
  | a :: sched' => c' ← do_step a c; run sched' c'
  end.

(** A thread that has not begun: a transaction with its remote keys, or
    without any, and a message about to be handled. *)
Definition fresh (t : thread) : bool :=
  match t with
  | Client _ _ [] (Locking (LLock _)) | Client _ _ [] Between => true
  | LockResponse _ _ RParse | OpResponse _ _ SParse => true
  | _ => false
  end.

Definition finished (t : thread) : bool :=
  match t with
  | Client _ _ _ (Finished _) | LockResponse _ _ RDone | OpResponse _ _ SDone => true
  | _ => false
  end.

Definition client_tx (t : thread) : option TransactionId :=
  match t with Client x _ _ _ => Some x | _ => None end.

(** Transaction ids are drawn from one counter: no two threads share one, and
    nothing is pending for an id before its transaction runs. *)
Record initial (c : config) : Prop := {
  initial_fresh : Forall (λ t, fresh t = true) (threads c);
  initial_mutex : distributed_mutex c = None;
  initial_txs : NoDup (omap client_tx (threads c));
  initial_locks : ∀ t x, t ∈ threads c → client_tx t = Some x → pending_at x (shared c) = ∅;
  initial_ops : ∀ t x, t ∈ threads c → client_tx t = Some x → ops_at x (shared c) = ∅;
}.

Definition reachable (c c' : config) : Prop := ∃ sched, run sched c = Some c'.
End monitor.

(** All the cases of a step of one thread. *)
Ltac next_cases H := unfold next, client_next, lock_next, op_next, lock_response_next,
  op_response_next in H; repeat (case_match; simplify_eq/=).

(** ** Mutual exclusion *)
Section exclusion.
Context `{Json} `{!Iteration Z} {fails : ServerCall → option exn}.
Implicit Types (t : thread) (c : config).

(** Between taking and giving up the mutex. *)
Definition holds (t : thread) : bool :=
  match t with
  | Client _ _ _ (Locking p) =>
      match p with LLock _ | LWait | LWoken _ => false | _ => true end
  | Client _ _ _ (Operating _ _ p) =>
      match p with
      | OInsert | OUnlock | OTest | OSleep | OTimeout | OLeave | OFetch | OReturn _ => true
      | _ => false
      end
  | Client _ _ _ _ => false
  | LockResponse _ _ p =>
      match p with RUpdate _ _ _ | RTest _ | RNotify | RUnlock => true | _ => false end
  | OpResponse _ _ p =>
      match p with SStore _ _ | SErase _ _ | STest _ | SNotify | SUnlock => true | _ => false end
  end.

Lemma next_holds r t e t' :
  next fails r t = Some (e, t') →
  match e with
  | Acquire => holds t = false ∧ holds t' = true
  | Release | Sleep _ => holds t = true ∧ holds t' = false
  | Access _ | Notify _ => holds t = true ∧ holds t' = true
  | Silent => holds t' = holds t
  end.
Proof. intros Hn. next_cases Hn; done. Qed.

Lemma wake_holds st t t' : wake st t = Some t' → holds t = false ∧ holds t' = false.
Proof. intros Hw. unfold wake in Hw. by repeat (case_match; simplify_eq/=). Qed.

Lemma notify_holds v t : holds (notify v t) = holds t.
Proof.
  unfold notify. case_decide; [|done].
  destruct (wake no_timeout t) as [t'|] eqn:Hw; [|done].
  apply wake_holds in Hw as [??]. simpl. congruence.
Qed.

(** A step, by what it does. *)
Lemma do_step_inv a c c' :
  do_step fails a c = Some c' →
  (∃ i t e t', a = Run i ∧ threads c !! i = Some t ∧ next fails (shared c) t = Some (e, t') ∧
     take_effect e i (<[i := t']> (threads c)) c = Some c') ∨
  (∃ i st t t', a = Wake i st ∧ threads c !! i = Some t ∧ wake st t = Some t' ∧
     c' = mkConfig (shared c) (distributed_mutex c) (<[i := t']> (threads c))).
Proof.
  destruct a as [i|i st]; simpl; intros Hs; simplify_option_eq.
  - destruct_and?. case_match; simplify_eq. left. by repeat eexists.
  - right. by repeat eexists.
Qed.

(** Invariants of single steps are invariants of runs. *)
Lemma run_invariant (P : config → Prop) :
  (∀ a c c', do_step fails a c = Some c' → P c → P c') →
  ∀ sched c c', run fails sched c = Some c' → P c → P c'.
Proof.
  intros Hstep sched. induction sched as [|a sched IH]; intros c c' Hr Hc; simplify_option_eq.
  - done.
  - eauto.
Qed.

(** A thread is between lock and unlock exactly when the mutex is its own. *)
Definition exclusive c : Prop :=
  ∀ i t, threads c !! i = Some t → holds t = true ↔ distributed_mutex c = Some i.

Lemma exclusive_insert i t t' c o :
  exclusive c → threads c !! i = Some t →
  (holds t' = true ↔ o = Some i) →
  (∀ j, j ≠ i → distributed_mutex c = Some j ↔ o = Some j) →
  ∀ r, exclusive (mkConfig r o (<[i := t']> (threads c))).
Proof.
  intros Hc Hi Ht' Ho r j u. simpl. rewrite list_lookup_insert_Some.
  intros [(<- & <- & _)|[Hne Hj]]; [done|]. rewrite <- (Ho j) by done. by apply Hc.
Qed.

Lemma exclusive_step a c c' : do_step fails a c = Some c' → exclusive c → exclusive c'.
Proof.
  intros Hs Hc.
  destruct (do_step_inv _ _ _ Hs) as [(i & t & e & t' & -> & Hi & Hn & He)|
    (i & st & t & t' & -> & Hi & Hw & ->)].
  2:{ apply wake_holds in Hw as [Ht Ht']. apply (exclusive_insert i t); [done|done| |done].
      rewrite <- (Hc _ _ Hi). by rewrite Ht, Ht'. }
  apply next_holds in Hn. pose proof (Hc _ _ Hi) as Hown.
  assert (Hkeep : holds t' = holds t → ∀ r, exclusive (mkConfig r (distributed_mutex c)
      (<[i := t']> (threads c)))).
  { intros Hh. apply (exclusive_insert i t); [done|done| |done]. by rewrite Hh. }
  assert (Hfree : holds t = true ∧ holds t' = false →
    exclusive (mkConfig (shared c) None (<[i := t']> (threads c)))).
  { intros [Ht Ht']. apply (exclusive_insert i t); [done|done|by rewrite Ht'|].
    intros j Hj. apply Hown in Ht. rewrite Ht. naive_solver. }
  destruct e as [| |[a|]|v|v|]; simplify_eq/=; eauto.
  - destruct (distributed_mutex c) eqn:Ho; simplify_eq/=. destruct Hn as [Ht Ht'].
    apply (exclusive_insert i t); [done|done|by rewrite Ht'|]. rewrite Ho. naive_solver.
  - apply Hkeep. destruct Hn. congruence.
  - apply Hkeep. destruct Hn. congruence.
  - intros j u. simpl. rewrite list_lookup_fmap, fmap_Some. intros (w & Hw & ->).
    rewrite notify_holds. revert j w Hw. apply (Hkeep ltac:(destruct Hn; congruence) (shared c)).
Qed.

Lemma fresh_holds t : fresh t = true → holds t = false.
Proof. unfold fresh. by repeat (case_match; simplify_eq/=). Qed.

Lemma exclusive_initial c : initial c → exclusive c.
Proof.
  intros [Hf Ho _ _ _] i t Hi. rewrite Ho, (fresh_holds t); [done|].
  apply (Forall_lookup_1 _ _ _ _ Hf Hi).
Qed.

Lemma reachable_exclusive c c' : initial c → reachable fails c c' → exclusive c'.
Proof. intros Hi [sched Hr]. eapply run_invariant; eauto using exclusive_step, exclusive_initial. Qed.

(** A step reads what the mutex protects only where it is an [Access]. *)
Lemma next_reads r r' t e t' :
  next fails r t = Some (e, t') → (∀ a, e ≠ Access a) → next fails r' t = Some (e, t').
Proof. intros Hn He. next_cases Hn; naive_solver. Qed.

(** C14. distributed_mutex guards what is shared by the threads that wait for remote answers
    and those that deliver them: in every state reached by any interleaving, spurious
    wake-ups and expired deadlines included, at most one thread is between lock and unlock;
    a step that reads or writes the pending and result maps is taken by the holder of the
    mutex; any other step does not depend on them; and only the holder unlocks or waits. *)
Theorem remote_state_guarded_by_mutex c c' i t e t' :
  initial c → reachable fails c c' →
  threads c' !! i = Some t → next fails (shared c') t = Some (e, t') →
  (∀ j u, threads c' !! j = Some u → holds t = true → holds u = true → i = j) ∧
  (∀ a, e = Access a → distributed_mutex c' = Some i) ∧
  ((∀ a, e ≠ Access a) → ∀ r, next fails r t = Some (e, t')) ∧
  (e = Release ∨ (∃ v, e = Sleep v) → distributed_mutex c' = Some i).
Proof.
  intros Hi Hr Ht Hn. pose proof (reachable_exclusive _ _ Hi Hr) as Hx.
  pose proof (next_holds _ _ _ _ Hn) as Hh. split_and!.
  - intros j u Hu H1 H2. apply (Hx i) in H1; [|done]. apply (Hx j) in H2; [|done]. congruence.
  - intros a ->. apply (Hx i t); [done|]. apply Hh.
  - intros He r. by eapply next_reads.
  - intros [->|[v ->]]; apply (Hx i t); try done; apply Hh.
Qed.

(** ** Transactions and their ids *)
Lemma next_client r t e t' : next fails r t = Some (e, t') → client_tx t' = client_tx t.
Proof. intros Hn. by next_cases Hn. Qed.
Lemma wake_client st t t' : wake st t = Some t' → client_tx t' = client_tx t.
Proof. intros Hw. unfold wake in Hw. by repeat (case_match; simplify_eq/=). Qed.
Lemma notify_client v t : client_tx (notify v t) = client_tx t.
Proof.
  unfold notify. case_decide; [|done].
  destruct (wake no_timeout t) as [t'|] eqn:Hw; [|done]. by apply wake_client in Hw.
Qed.

Lemma take_effect_threads e i ts c c' :
  take_effect e i ts c = Some c' →
  threads c' = match e with Notify v => notify v <$> ts | _ => ts end.
Proof. destruct e as [| |[]| | |]; simpl; repeat case_match; by intros [= <-]. Qed.

Lemma step_txs a c c' :
  do_step fails a c = Some c' → client_tx <$> threads c' = client_tx <$> threads c.
Proof.
  intros Hs.
  assert (Hins : ∀ i t t', threads c !! i = Some t → client_tx t' = client_tx t →
    client_tx <$> <[i := t']> (threads c) = client_tx <$> threads c).
  { intros i t t' Hi Ht. rewrite list_fmap_insert, Ht. apply list_insert_id.
    by rewrite list_lookup_fmap, Hi. }
  destruct (do_step_inv _ _ _ Hs) as [(i & t & e & t' & -> & Hi & Hn & He)|
    (i & st & t & t' & -> & Hi & Hw & ->)]; [|by eapply Hins, wake_client].
  apply take_effect_threads in He. apply next_client in Hn. rewrite He.
  destruct e; try by eapply Hins.
  rewrite <- (Hins i t t') by done. rewrite <- list_fmap_compose.
  apply list_fmap_ext. intros k u _. apply notify_client.
Qed.

(** No two threads run the same transaction. *)
Definition distinct c : Prop := ∀ i j x,
  (client_tx <$> threads c) !! i = Some (Some x) →
  (client_tx <$> threads c) !! j = Some (Some x) → i = j.

Lemma distinct_step a c c' : do_step fails a c = Some c' → distinct c → distinct c'.
Proof. intros Hs Hd i j x. rewrite (step_txs _ _ _ Hs). apply Hd. Qed.

Lemma distinct_lookup c i j t u x :
  distinct c → threads c !! i = Some t → threads c !! j = Some u →
  client_tx t = Some x → client_tx u = Some x → i = j.
Proof.
  intros Hd Hi Hj Ht Hu. apply (Hd i j x); rewrite list_lookup_fmap.
  - by rewrite Hi, <- Ht.
  - by rewrite Hj, <- Hu.
Qed.

Lemma distinct_initial c : initial c → distinct c.
Proof.
  intros [_ _ Hnd _ _] i j x. revert Hnd. unfold distinct.
  generalize (threads c). intros l. revert i j.
  induction l as [|t l IH]; intros i j; [done|]. simpl. intros Hnd Hi Hj.
  assert (Hin : ∀ k, (client_tx <$> l) !! k = Some (Some x) → x ∈ omap client_tx l).
  { intros k. rewrite list_lookup_fmap, fmap_Some. intros (u & Hu & Hx).
    apply list_elem_of_omap. exists u. eauto using list_elem_of_lookup_2. }
  destruct (client_tx t) as [y|] eqn:Hy; [apply NoDup_cons in Hnd as [Hy' Hnd]|];
    destruct i as [|i], j as [|j]; simplify_eq/=; try done; try (by f_equal; eauto).
  all: naive_solver.
Qed.

(** The transaction an access is made for. *)
Definition access_tx (a : access) : TransactionId :=
  match a with
  | AddPending x _ _ | TouchPending x | ErasePending x | NoteGranted x _ _
  | AddOp x _ | EraseOp x _ | StoreResult x _ _ => x
  end.

Lemma client_access r t a t' x :
  next fails r t = Some (Access (Some a), t') → client_tx t = Some x → access_tx a = x.
Proof. intros Hn Hx. next_cases Hn; done. Qed.

(** Accesses for one transaction leave what is pending for others alone. *)
Lemma pending_at_other a x r : access_tx a ≠ x → pending_at x (perform a r) = pending_at x r.
Proof.
  intros Hx. destruct a; simpl in *; unfold pending_at, add_pending, touch_pending, erase_pending,
    note_granted, add_pending_op, erase_pending_op, store_result; simpl; try done;
    repeat case_match; simpl; by rewrite ?lookup_insert_ne, ?lookup_delete_ne by done.
Qed.
Lemma ops_at_other a x r : access_tx a ≠ x → ops_at x (perform a r) = ops_at x r.
Proof.
  intros Hx. destruct a; simpl in *; unfold ops_at, set_at, add_pending, touch_pending,
    erase_pending, note_granted, add_pending_op, erase_pending_op, store_result; simpl; try done;
    repeat case_match; simpl; by rewrite ?lookup_insert_ne by done.
Qed.

(** What accesses for a transaction do to what is pending for it. *)
Lemma pending_at_touch x r : pending_at x (touch_pending x r) = pending_at x r.
Proof. unfold pending_at, touch_pending. simpl. by rewrite lookup_insert_eq. Qed.
Lemma pending_at_erase x r : pending_at x (erase_pending x r) = ∅.
Proof. unfold pending_at, erase_pending. simpl. by rewrite lookup_delete_eq. Qed.
Lemma ops_at_add x p r : ops_at x (add_pending_op x p r) = {[p]} ∪ ops_at x r.
Proof. unfold ops_at, add_pending_op. simpl. by rewrite set_at_insert, decide_True. Qed.
Lemma ops_at_erase x p r : ops_at x (erase_pending_op x p r) = ops_at x r ∖ {[p]}.
Proof. unfold ops_at, erase_pending_op. simpl. by rewrite set_at_insert, decide_True. Qed.
Lemma note_granted_other x p k r :
  k ∉ set_at (pending_at x r) p → note_granted x p k r = r.
Proof.
  unfold note_granted, pending_at, set_at. intros Hk.
  destruct (pending_remote_locks r !! x) as [m|]; [|done]. simpl in *.
  destruct (m !! p) as [ks|]; [|done]. simpl in *. by rewrite decide_False.
Qed.
Lemma ops_at_note x y p k r : ops_at x (note_granted y p k r) = ops_at x r.
Proof. unfold note_granted. by repeat case_match. Qed.
End exclusion.
