(* ===== verification/MonitorWakeups.v ===== *)
(** * Waiting for remote answers

    What the protocol of [distributed_mutex], [remote_lock_cv] and
    [remote_op_cv] guarantees: no thread sleeps on although it may go on, all
    threads come to an end, and what happens to the operations of a transaction
    one of whose requests could not be sent. *)
From S2P Require Import Prelude Operations KVStore LockManager Json Coordinator Scheduler.
From S2P Require Import SchedulerLocal Handlers SchedulerRemote Monitor.

Section wakeups.
Context `{Json} `{!Iteration Z} (fails : ServerCall → option exn).
Implicit Types (t u : thread) (c : config).
(** ** Waiting threads *)

(** The condition of the loop a thread sleeps in. *)
Definition blocked (r : RemoteState) (t : thread) : Prop :=
  match t with
  | Client x _ _ (Locking (LSleep | LWait)) => pending_at x r ≠ ∅
  | Client x _ _ (Operating n op (OSleep | OWait)) => (n, op_key op) ∈ ops_at x r
  | _ => True
  end.

(** A handler about to notify the sleeping thread [t], or to test whether it has to. *)
Definition announces (u t : thread) : Prop :=
  match t, u with
  | Client x _ _ (Locking LWait), LockResponse _ _ p =>
      match p with RNotify => True | RTest y => x = y | _ => False end
  | Client x _ _ (Operating _ _ OWait), OpResponse _ _ p =>
      match p with SNotify => True | STest y => x = y | _ => False end
  | _, _ => False
  end.

(** The operation a transaction has registered and not yet taken back. *)
Definition registered (t : thread) : gset (NodeID * KeyType) :=
  match t with
  | Client _ _ _ (Operating n op (OUnlock | OSend | ORelock | OTest | OSleep | OWait | OWoken _
      | OTimeout)) => {[(n, op_key op)]}
  | _ => ∅
  end.

(** The operation requests of a transaction are sent without exceptions. *)
Definition op_sends_succeed (x : TransactionId) : Prop :=
  ∀ n op, fails (Send n (op_request x op)) = None.
Definition trusted (t : thread) : Prop :=
  match t with Client x _ _ (Operating _ _ _) => op_sends_succeed x | _ => True end.

Record wakeful c : Prop := {
  wakeful_exclusive : exclusive c;
  wakeful_distinct : distinct c;
  wakeful_ops : ∀ i t x, threads c !! i = Some t → client_tx t = Some x →
    op_sends_succeed x → ops_at x (shared c) ⊆ registered t;
  wakeful_blocked : ∀ i t, threads c !! i = Some t → trusted t →
    blocked (shared c) t ∨
    ∃ j u, distributed_mutex c = Some j ∧ threads c !! j = Some u ∧ announces u t;
}.

Definition after (e : effect) (r : RemoteState) : RemoteState :=
  match e with Access (Some a) => perform a r | _ => r end.

Lemma take_effect_shared e i ts c c' : take_effect e i ts c = Some c' → shared c' = after e (shared c).
Proof. destruct e as [| |[]| | |]; simpl; repeat case_match; by intros [= <-]. Qed.

Lemma own_registered r t e t' x :
  next fails r t = Some (e, t') → client_tx t = Some x → op_sends_succeed x →
  ops_at x r ⊆ registered t → ops_at x (after e r) ⊆ registered t'.
Proof.
  intros Hn Hx Hok. next_cases Hn; rewrite ?ops_at_add, ?ops_at_erase; try set_solver.
  all: by rewrite Hok in *.
Qed.

Lemma other_registered r u a u' t x :
  next fails r u = Some (Access (Some a), u') → client_tx t = Some x → client_tx u ≠ Some x →
  ops_at x r ⊆ registered t → ops_at x (perform a r) ⊆ registered t.
Proof.
  intros Hn Ht Hu Hops. destruct (decide (access_tx a = x)) as [<-|]; [|by rewrite ops_at_other].
  destruct (client_tx u) as [y|] eqn:Hy; [by apply (client_access _ _ _ _ y) in Hn; subst|].
  next_cases Hn; rewrite ?ops_at_note, ?ops_at_erase; try done. set_solver.
Qed.

Lemma own_blocked r t e t' :
  next fails r t = Some (e, t') →
  (trusted t → blocked r t) → trusted t' → blocked (after e r) t'.
Proof. intros Hn Hb Ht. next_cases Hn; rewrite ?pending_at_touch; auto. Qed.

(** An access that takes a sleeping thread's condition away is followed by a notification. *)
Lemma other_blocked r u a u' t :
  next fails r u = Some (Access (Some a), u') →
  (∀ x, client_tx u = Some x → client_tx t ≠ Some x) → holds t = false →
  blocked r t → blocked (perform a r) t ∨ announces u' t.
Proof.
  intros Hn Hu Hh Hb. destruct t as [x ops reads p| |]; try by left.
  destruct (decide (access_tx a = x)) as [<-|Hne].
  2:{ left. revert Hb. simpl. by rewrite pending_at_other, ops_at_other. }
  destruct (client_tx u) as [y|] eqn:Hy.
  { apply (client_access _ _ _ _ y) in Hn; [|done]. subst. by destruct (Hu (access_tx a)). }
  destruct p as [[]| |n op []|]; try (by left); try done; simpl in *;
    next_cases Hn; rewrite ?ops_at_note; eauto.
  left. by rewrite note_granted_other.
Qed.

Lemma announced_next r u e u' t :
  next fails r u = Some (e, u') → announces u t → trusted t →
  (∀ x, client_tx t = Some x → op_sends_succeed x → ops_at x r ⊆ registered t) →
  (∃ v, e = Notify v ∧ waits_on t = Some v) ∨
  (e = Access None ∧ (blocked r t ∨ announces u' t)).
Proof.
  intros Hn Ha Htr Hops. destruct t as [x ops reads [[]| |n op []|]| |]; simpl in *; try done;
    next_cases Hn; try naive_solver.
  right. split; [done|]. left. specialize (Hops _ eq_refl Htr).
  destruct (set_choose_L (ops_at tx_id r)) as [q Hq]; [done|]. set_solver.
Qed.

Lemma wake_not_announcer st u u' t : wake st u = Some u' → ¬ announces u t.
Proof. intros Hw Ha. destruct u; try done. by destruct t as [? ? ? [[]| |? ? []|]| |]. Qed.

Lemma wake_blocked st r t t' : wake st t = Some t' → blocked r t' ∧ registered t' = registered t.
Proof. intros Hw. unfold wake in Hw. by repeat (case_match; simplify_eq/=). Qed.

Lemma notify_blocked v r t : blocked r t → blocked r (notify v t).
Proof.
  intros Hb. unfold notify. case_decide; [|done].
  destruct (wake no_timeout t) as [t'|] eqn:Hw; [|done]. by apply (wake_blocked _ r) in Hw as [? _].
Qed.
Lemma notify_woken v r t : waits_on t = Some v → blocked r (notify v t).
Proof. intros Hv. unfold notify. rewrite decide_True by done. by destruct t as [? ? ? [[]| |? ? []|]| |]. Qed.
Lemma notify_registered v t : registered (notify v t) = registered t.
Proof.
  unfold notify. case_decide; [|done].
  destruct (wake no_timeout t) as [t'|] eqn:Hw; [|done]. by apply (wake_blocked _ (mkRemote ∅ ∅ ∅ ∅)) in Hw as [_ ?].
Qed.

Lemma notify_trusted v t : trusted (notify v t) ↔ trusted t.
Proof.
  unfold notify. case_decide; [|done]. by destruct t as [? ? ? [[]| |? ? []|]| |].
Qed.

(** Of the other threads. *)
Lemma wakeful_ops_run i c t e t' :
  wakeful c → threads c !! i = Some t → next fails (shared c) t = Some (e, t') →
  ∀ j u x, <[i := t']> (threads c) !! j = Some u → client_tx u = Some x →
    op_sends_succeed x → ops_at x (after e (shared c)) ⊆ registered u.
Proof.
  intros Hc Hi Hn j u x. rewrite list_lookup_insert_Some. intros [(<- & <- & _)|[Hne Hj]] Hx Hok.
  - rewrite (next_client _ _ _ _ Hn) in Hx. eapply own_registered; [done..|].
    by apply (wakeful_ops _ Hc i).
  - pose proof (wakeful_ops _ Hc j u x Hj Hx Hok) as Hops.
    destruct e as [| |[a|]| | |]; try done. eapply other_registered; [done..| |done].
    intros Hx'. apply Hne. by apply (distinct_lookup c i j t u x (wakeful_distinct _ Hc)).
Qed.

Lemma announced_waits u t : announces u t → waits_on t ≠ None.
Proof. by destruct t as [? ? ? [[]| |? ? []|]| |]. Qed.
Lemma waiting_no_next r t : waits_on t ≠ None → next fails r t = None.
Proof. by destruct t as [? ? ? [[]| |? ? []|]| |]. Qed.

(** Another thread [u] when thread [i] steps. *)
Lemma wakeful_others i j c t e t' u :
  wakeful c → threads c !! i = Some t → next fails (shared c) t = Some (e, t') →
  (e = Acquire → distributed_mutex c = None) → threads c !! j = Some u → i ≠ j → trusted u →
  blocked (after e (shared c)) u ∨ ((∃ a, e = Access a) ∧ announces t' u) ∨
  (∃ v, e = Notify v ∧ waits_on u = Some v) ∨
  (e = Silent ∧ ∃ k w, k ≠ i ∧ distributed_mutex c = Some k ∧ threads c !! k = Some w ∧
     announces w u).
Proof.
  intros Hc Hi Hn Hfree Hj Hne Htr. pose proof (next_holds _ _ _ _ Hn) as Hh.
  pose proof (wakeful_exclusive _ Hc) as Hx.
  destruct (wakeful_blocked _ Hc j u Hj Htr) as [Hb|(k & w & Hk & Hw & Ha)].
  - destruct e as [| |[a|]| | |]; try by left.
    destruct (other_blocked (shared c) t a t' u) as [?|?]; eauto.
    + intros x Ht Hu. apply Hne. by apply (distinct_lookup c i j t u x (wakeful_distinct _ Hc)).
    + apply (Hx i) in Hi. destruct (holds u) eqn:Hu; [|done]. apply (Hx j) in Hj.
      destruct Hh as [?%Hi _]. apply Hj in Hu. congruence.
  - destruct (decide (k = i)) as [->|Hki].
    + simplify_eq. destruct (announced_next _ _ _ _ _ Hn Ha Htr) as [?|[-> [?|?]]]; eauto 10.
      intros x Hxu. by apply (wakeful_ops _ Hc j).
    + assert (holds t = false) as Ht.
      { destruct (holds t) eqn:Ht; [|done]. apply (Hx i) in Ht; [|done]. congruence. }
      destruct e as [| |[a|]| | |]; destruct_and?; try congruence; [|by eauto 10].
      specialize (Hfree eq_refl). congruence.
Qed.

Lemma wakeful_blocked_run i c c' t e t' :
  wakeful c → threads c !! i = Some t → next fails (shared c) t = Some (e, t') →
  take_effect e i (<[i := t']> (threads c)) c = Some c' →
  ∀ j u, threads c' !! j = Some u → trusted u →
    blocked (shared c') u ∨
    ∃ k w, distributed_mutex c' = Some k ∧ threads c' !! k = Some w ∧ announces w u.
Proof.
  intros Hc Hi Hn He j u Hu Htr.
  assert (Hlt : i < length (threads c)) by by eapply lookup_lt_Some.
  assert (Hsh := take_effect_shared _ _ _ _ _ He). assert (Hts := take_effect_threads _ _ _ _ _ He).
  assert (Hfree : e = Acquire → distributed_mutex c = None).
  { intros ->. simpl in He. by destruct (distributed_mutex c). }
  assert (Hown : trusted t' → blocked (after e (shared c)) t').
  { eapply own_blocked; [done|]. intros Ht.
    destruct (wakeful_blocked _ Hc i t Hi Ht) as [|(k & w & _ & _ & Ha)];
      [done|]. apply announced_waits, (waiting_no_next (shared c)) in Ha. congruence. }
  assert (Hcases : ∀ u0, <[i := t']> (threads c) !! j = Some u0 → trusted u0 →
    blocked (after e (shared c)) u0 ∨ ((∃ a, e = Access a) ∧ announces t' u0) ∨
    (∃ v, e = Notify v ∧ waits_on u0 = Some v) ∨
    (e = Silent ∧ ∃ k w, k ≠ i ∧ distributed_mutex c = Some k ∧ threads c !! k = Some w ∧
       announces w u0)).
  { intros u0. rewrite list_lookup_insert_Some. intros [(<- & <- & _)|[Hne Hj]] Ht; [by left; auto|].
    by eapply wakeful_others. }
  rewrite Hsh. destruct e as [| |o| |v|]; simpl in Hts; rewrite Hts in Hu |- *;
    try (destruct (Hcases u Hu Htr) as [?|[[[? ?] ?]|[(? & ? & ?)|[? ?]]]]; by eauto).
  - destruct (Hcases u Hu Htr) as [?|[[_ Ha]|[(? & ? & ?)|[? ?]]]]; try done; [by left|].
    right. exists i, t'. rewrite list_lookup_insert_eq by done. split_and!; [|done..].
    apply next_holds in Hn as [Ht _]. apply (wakeful_exclusive _ Hc i) in Ht; [|done].
    by destruct o; simplify_eq/=.
  - rewrite list_lookup_fmap in Hu. apply fmap_Some in Hu as (u0 & Hu & ->). left.
    destruct (Hcases u0 Hu ltac:(by rewrite <- (notify_trusted v))) as [?|[[[? ?] ?]|[(? & ? & ?)|[? ?]]]]; simplify_eq/=.
    + by apply notify_blocked.
    + by apply notify_woken.
  - destruct (Hcases u Hu Htr) as [?|[[[? ?] ?]|[(? & ? & ?)|[_ (k & w & Hk & Hm & Hw & Ha)]]]];
      try done; [by left|]. right. exists k, w. simplify_eq/=.
    by rewrite list_lookup_insert_ne.
Qed.

Lemma wakeful_step a c c' : do_step fails a c = Some c' → wakeful c → wakeful c'.
Proof.
  intros Hs Hc. pose proof Hc as [Hx Hd Hops Hb].
  split; [by eapply exclusive_step|by eapply distinct_step| |];
    destruct (do_step_inv _ _ _ Hs) as [(i & t & e & t' & -> & Hi & Hn & He)|
      (i & st & t & t' & -> & Hi & Hw & ->)].
  - intros j u x. rewrite (take_effect_shared _ _ _ _ _ He), (take_effect_threads _ _ _ _ _ He).
    pose proof (wakeful_ops_run _ _ _ _ _ Hc Hi Hn) as Hrun.
    destruct e; try apply Hrun. rewrite list_lookup_fmap, fmap_Some. intros (u0 & Hu & ->).
    rewrite notify_client, notify_registered. by apply (Hrun j).
  - intros j u x. simpl. rewrite list_lookup_insert_Some. intros [(<- & <- & _)|[_ Hj]].
    + rewrite (wake_client _ _ _ Hw). destruct (wake_blocked _ (shared c) _ _ Hw) as [_ ->].
      by apply (Hops i).
    + by apply (Hops j).
  - by eapply wakeful_blocked_run.
  - intros j u. simpl. rewrite list_lookup_insert_Some. intros [(<- & <- & _)|[Hne Hj]] Htr.
    { left. by eapply wake_blocked. }
    destruct (Hb j u Hj Htr) as [?|(k & w & Hk & Hkw & Ha)]; [by left|]. right. exists k, w.
    rewrite list_lookup_insert_ne; [done|]. intros ->. simplify_eq.
    by eapply wake_not_announcer.
Qed.

Lemma fresh_blocked r t : fresh t = true → blocked r t.
Proof. unfold fresh. by repeat (case_match; simplify_eq/=). Qed.

Lemma wakeful_initial c : initial c → wakeful c.
Proof.
  intros Hi. pose proof Hi as [Hf _ _ _ Hops].
  split; [by apply exclusive_initial|by apply distinct_initial| |].
  - intros i t x Ht Hx _. rewrite (Hops t x); [set_solver|by eapply list_elem_of_lookup_2|done].
  - intros i t Ht _. left. apply fresh_blocked. apply (Forall_lookup_1 _ _ _ _ Hf Ht).
Qed.

(** C12. No lost wake-up: whenever a transaction is blocked in wait_until, for remote locks
    or for the answer to an operation, the condition of its loop still holds, or the mutex
    is held by a handler that is about to notify it or to test whether it has to - whatever
    the interleaving, and for an operation provided the operation requests of that
    transaction are sent without exceptions. *)
Theorem no_lost_wakeup c c' i t :
  initial c → reachable fails c c' →
  threads c' !! i = Some t → waits_on t ≠ None → trusted t →
  blocked (shared c') t ∨
  ∃ j u, distributed_mutex c' = Some j ∧ threads c' !! j = Some u ∧ announces u t.
Proof.
  intros Hi [sched Hr] Ht _ Htr. apply (wakeful_blocked c') with i; [|done..].
  eapply run_invariant; eauto using wakeful_step, wakeful_initial.
Qed.
End wakeups.

Section progress.
Context `{Json} `{!Iteration Z} (fails : ServerCall → option exn).
Implicit Types (t u : thread) (c : config).
(** ** Progress and termination *)

(** The number of keys a map from nodes to key sets lists, in any order. *)
Definition key_count (m : gmap NodeID (gset KeyType)) : nat :=
  length (node_keys (RemoteKeys 0) m).

Lemma length_node_keys b m : length (node_keys b m) = key_count m.
Proof. apply Permutation_length, node_keys_perm. Qed.

(** A bound on the steps a thread takes unless it is woken up for nothing;
    [N] threads may have to be woken by a notification. *)
Definition lock_cost (pending : nat) (p : lock_pc) : nat :=
  match p with
  | LLock keys => 11 + pending + 3 * key_count keys
  | LRegister l keys => 10 + pending + 2 * length l + key_count keys
  | LSend l => 9 + pending + length l
  | LWoken no_timeout => 9 + pending
  | LTest => 8 + pending
  | LSleep => 7 + pending
  | LWait => 6 + pending
  | LWoken timeout => 5 + pending
  | LTimeout => 4 + pending
  | LRelease l => 3 + length l
  | LErase => 2
  | LReturn _ | LUnwind _ => 1
  end.
Definition op_cost (p : op_pc) : nat :=
  match p with
  | OLock => 15 | OInsert => 14 | OUnlock => 13 | OSend => 12 | ORelock => 11
  | OWoken no_timeout => 10 | OTest => 9 | OSleep => 8 | OWait => 7 | OWoken timeout => 6
  | OTimeout => 5 | OLeave => 4 | OFetchLock => 3 | OFetch => 2 | OReturn _ | OCatch => 1
  end.
Definition cost (N : nat) (r : RemoteState) (t : thread) : nat :=
  match t with
  | Client x ops _ p =>
      match p with
      | Locking q => 1 + 20 * length ops + lock_cost (key_count (pending_at x r)) q
      | Between => 1 + 20 * length ops
      | Operating _ _ q => 1 + 20 * length ops + op_cost q
      | Finished _ => 0
      end
  | LockResponse _ _ p =>
      match p with
      | RParse => 6 + 3 * N | RLock _ _ _ => 5 + 3 * N | RUpdate _ _ _ => 4 + 3 * N
      | RTest _ => 3 + 3 * N | RNotify => 2 + 3 * N | RUnlock => 1 | RDone => 0
      end
  | OpResponse _ _ p =>
      match p with
      | SParse => 7 + 3 * N | SLock _ _ => 6 + 3 * N | SStore _ _ => 5 + 3 * N
      | SErase _ _ => 4 + 3 * N | STest _ => 3 + 3 * N | SNotify => 2 + 3 * N
      | SUnlock => 1 | SDone => 0
      end
  end.
Definition total_cost c : nat :=
  sum_list_with (cost (length (threads c)) (shared c)) (threads c).

(** Wake-ups that no notification and no deadline explains. *)
Definition is_spurious (a : action) : nat :=
  match a with Wake _ no_timeout => 1 | _ => 0 end.
Definition spurious (sched : list action) : nat := sum_list_with is_spurious sched.

(** The number of keys asked for and not answered. *)
Lemma key_count_le (m m' : gmap NodeID (gset KeyType)) extra :
  (∀ n k, k ∈ set_at m' n → k ∈ set_at m n ∨ (n, k) ∈ extra) →
  key_count m' ≤ key_count m + length extra.
Proof.
  intros Hm. unfold key_count. rewrite <- length_app. apply submseteq_length, NoDup_submseteq.
  - apply NoDup_node_keys.
  - intros [n k]. rewrite elem_of_app, !elem_of_node_keys. apply Hm.
Qed.

Lemma pending_after_add x n k r :
  key_count (pending_at x (add_pending x n k r)) ≤ S (key_count (pending_at x r)).
Proof.
  rewrite <- Nat.add_1_r. apply (key_count_le _ _ [(n, k)]). intros n' k'.
  unfold pending_at at 1, add_pending. simpl. rewrite lookup_insert_eq. simpl.
  rewrite set_at_insert. case_decide; set_solver.
Qed.

Lemma pending_after_note x y p k r :
  key_count (pending_at x (note_granted y p k r)) ≤ key_count (pending_at x r).
Proof.
  rewrite <- (Nat.add_0_r (key_count (pending_at x r))).
  apply (key_count_le _ _ []). intros n' k'. unfold note_granted.
  destruct (pending_remote_locks r !! y) as [m|] eqn:Hm; [|by left].
  destruct (m !! p) as [ks|] eqn:Hp; [|by left]. case_decide; [|by left].
  unfold pending_at. simpl. destruct (decide (y = x)) as [->|]; [|by rewrite lookup_insert_ne; auto].
  rewrite lookup_insert_eq, Hm. simpl.
  case_decide; rewrite ?set_at_insert, ?set_at_delete; case_decide; simplify_eq;
    [set_solver|auto| |auto].
  intros Hk. left. unfold set_at. rewrite Hp. set_solver.
Qed.

Lemma pending_after x a r :
  (∀ n k, a = AddPending x n k → False) →
  key_count (pending_at x (perform a r)) ≤ key_count (pending_at x r).
Proof.
  intros Ha. destruct (decide (access_tx a = x)) as [<-|]; [|by rewrite pending_at_other].
  destruct a; simpl; rewrite ?pending_at_touch, ?pending_at_erase; try done.
  - by exfalso; eapply Ha.
  - rewrite <- (Nat.add_0_r (key_count (pending_at _ _))).
    apply (key_count_le _ _ []). intros n k. rewrite set_at_empty. set_solver.
  - apply pending_after_note.
Qed.

Lemma cost_mono N r r' t :
  (∀ x, client_tx t = Some x →
     key_count (pending_at x r') ≤ key_count (pending_at x r)) →
  cost N r' t ≤ cost N r t.
Proof.
  intros Hx. destruct t as [x ops reads [q| |n op q|]|peer msg p|peer msg p]; simpl; try lia.
  specialize (Hx x eq_refl). destruct q as [| | | | | |[]| | | | |]; simpl; lia.
Qed.

(** Each step of its own brings a thread nearer to its end. *)
Lemma cost_next N r t e t' :
  next fails r t = Some (e, t') →
  cost N (after e r) t' + match e with Notify _ => 3 * N | _ => 0 end < cost N r t.
Proof.
  intros Hn. next_cases Hn; rewrite ?pending_at_touch, ?length_node_keys; try lia.
  match goal with |- context [add_pending ?x ?n ?k r] =>
    pose proof (pending_after_add x n k r); lia end.
Qed.

Lemma cost_wake N r st t t' :
  wake st t = Some t' →
  cost N r t' + 1 ≤ cost N r t + 4 * match st with no_timeout => 1 | timeout => 0 end.
Proof. intros Hw. unfold wake in Hw. repeat (case_match; simplify_eq/=); lia. Qed.
Lemma cost_notify N r v t : cost N r (notify v t) ≤ cost N r t + 3.
Proof.
  unfold notify. case_decide; [|lia].
  destruct (wake no_timeout t) as [t'|] eqn:Hw; simpl; [|lia]. apply (cost_wake N r) in Hw. lia.
Qed.

Lemma sum_insert {A} (f g : A → nat) (l : list A) i x y :
  l !! i = Some x → (∀ j z, j ≠ i → l !! j = Some z → g z ≤ f z) →
  sum_list_with g (<[i := y]> l) + f x ≤ sum_list_with f l + g y.
Proof.
  revert i. induction l as [|z l IH]; intros i Hi Hfg; [done|]. destruct i as [|i]; simplify_eq/=.
  - enough (sum_list_with g l ≤ sum_list_with f l) by lia. clear IH.
    assert (Hl : ∀ j z, l !! j = Some z → g z ≤ f z) by (intros j z; by apply (Hfg (S j))).
    clear Hfg. induction l as [|z l IH]; simpl; [done|].
    pose proof (Hl 0 z eq_refl). specialize (IH (λ j, Hl (S j))). lia.
  - pose proof (Hfg 0 z ltac:(done) eq_refl).
    specialize (IH i Hi (λ j w Hj, Hfg (S j) w ltac:(congruence))). lia.
Qed.

Lemma sum_fmap_bound {A} (f : A → nat) (g : A → A) k (l : list A) :
  (∀ x, f (g x) ≤ f x + k) → sum_list_with f (g <$> l) ≤ sum_list_with f l + k * length l.
Proof.
  intros Hg. induction l as [|x l IH]; csimpl; [lia|].
  pose proof (Hg x). rewrite Nat.mul_succ_r. lia.
Qed.

(** Every step but a spurious wake-up lowers the total. *)
Lemma total_cost_step a c c' :
  do_step fails a c = Some c' → distinct c → total_cost c' + 1 ≤ total_cost c + 4 * is_spurious a.
Proof.
  intros Hs Hd. unfold total_cost.
  assert (Hlen : length (threads c') = length (threads c)).
  { rewrite <- (length_fmap client_tx (threads c')), (step_txs _ _ _ Hs). apply length_fmap. }
  rewrite Hlen. set (N := length (threads c)).
  destruct (do_step_inv _ _ _ Hs) as [(i & t & e & t' & -> & Hi & Hn & He)|
    (i & st & t & t' & -> & Hi & Hw & ->)]; simpl.
  2:{ pose proof (sum_insert (cost N (shared c)) (cost N (shared c)) _ i t t' Hi (λ _ _ _ _, le_n _)).
      apply (cost_wake N (shared c)) in Hw. destruct st; lia. }
  pose proof (cost_next N _ _ _ _ Hn) as Hc.
  assert (Hsum : sum_list_with (cost N (after e (shared c))) (<[i := t']> (threads c)) +
    cost N (shared c) t ≤ sum_list_with (cost N (shared c)) (threads c) +
      cost N (after e (shared c)) t').
  { apply sum_insert; [done|]. intros j u Hj Hu. apply cost_mono. intros x Hx.
    destruct e as [| |[a|]| | |]; try done. apply pending_after. intros n k ->.
    destruct (client_tx t) as [y|] eqn:Hy; [|by next_cases Hn].
    pose proof (client_access _ _ _ _ _ Hn Hy). simplify_eq/=.
    apply Hj. by apply (distinct_lookup c j i u t y Hd). }
  rewrite (take_effect_shared _ _ _ _ _ He), (take_effect_threads _ _ _ _ _ He).
  destruct e; try lia.
  pose proof (sum_fmap_bound (cost N (shared c)) (notify c0) 3 (<[i := t']> (threads c))
    (cost_notify N (shared c) c0)) as Hnot. rewrite length_insert in Hnot. fold N in Hnot.
  simpl in *. lia.
Qed.

Lemma total_cost_run sched c c' :
  run fails sched c = Some c' → distinct c →
  length sched + total_cost c' ≤ total_cost c + 4 * spurious sched.
Proof.
  revert c. induction sched as [|a sched IH]; intros c Hr Hd; simpl in Hr; [simplify_eq/=; lia|].
  apply bind_Some in Hr as (c1 & Hs & Hr). pose proof (total_cost_step _ _ _ Hs Hd).
  specialize (IH _ Hr (distinct_step _ _ _ Hs Hd)). unfold spurious in *. simpl. lia.
Qed.

(** A thread that is not finished has a step, or sleeps. *)
Lemma next_or_asleep r t :
  finished t = false → (∃ e t', next fails r t = Some (e, t')) ∨ waits_on t ≠ None.
Proof.
  destruct t as [x ops reads [q| |n op q|]|peer msg p|peer msg p]; simpl; try done.
  - destruct q as [|[|[]]|[|[]]| | | |[]| |[|[]]| | |]; simpl; repeat case_match; eauto.
  - intros _. destruct ops as [|[]]; eauto.
  - destruct q as [| | | | | | | |[]| | | | | |]; simpl; repeat case_match; eauto.
  - destruct p as [| |? ? []| | | |]; simpl; repeat case_match; eauto.
  - destruct p; simpl; repeat case_match; eauto.
Qed.

(** The mutex is held by a thread. *)
Definition held_by_thread c : Prop := ∀ i, distributed_mutex c = Some i → i < length (threads c).

Lemma held_by_thread_step a c c' :
  do_step fails a c = Some c' → held_by_thread c → held_by_thread c'.
Proof.
  intros Hs Hc.
  assert (Hlen : length (threads c') = length (threads c)).
  { rewrite <- (length_fmap client_tx (threads c')), (step_txs _ _ _ Hs). apply length_fmap. }
  unfold held_by_thread. rewrite Hlen.
  destruct (do_step_inv _ _ _ Hs) as [(i & t & e & t' & -> & Hi & Hn & He)|
    (i & st & t & t' & -> & Hi & Hw & ->)]; [|done].
  apply lookup_lt_Some in Hi.
  destruct e as [| |[]| | |]; simpl in He; repeat case_match; simplify_eq/=; try done.
  by intros j [= <-].
Qed.

Lemma holds_next r t :
  holds t = true → ∃ e t', next fails r t = Some (e, t') ∧ e ≠ Acquire.
Proof.
  intros Hh. destruct (next_or_asleep r t) as [(e & t' & Hn)|Hw].
  - unfold finished. by repeat (case_match; simplify_eq/=).
  - exists e, t'. split; [done|]. intros ->.
    destruct (next_holds _ _ _ _ Hn). congruence.
  - exfalso. by destruct t as [? ? ? [[]| |? ? []|]| |].
Qed.

Lemma step_or_finished c :
  exclusive c → held_by_thread c →
  (∃ a c', is_spurious a = 0 ∧ do_step fails a c = Some c') ∨
  Forall (λ t, finished t = true) (threads c).
Proof.
  intros Hx Hheld. destruct (distributed_mutex c) as [i|] eqn:Ho.
  { left. destruct (lookup_lt_is_Some_2 _ _ (Hheld i Ho)) as [t Ht].
    destruct (holds_next (shared c) t) as (e & t' & Hn & He); [by apply (Hx i)|].
    exists (Run i). simpl. rewrite Ht. simpl. rewrite Hn. simpl.
    destruct e as [| |[]| | |]; simpl; by eauto. }
  destruct (decide (Forall (λ t, finished t = true) (threads c))) as [|Hnot]; [by right|].
  left. apply not_Forall_Exists, Exists_exists in Hnot as (t & Hin & Hf); [|apply _].
  apply not_true_is_false in Hf. apply list_elem_of_lookup in Hin as [i Hi].
  destruct (next_or_asleep (shared c) t Hf) as [(e & t' & Hn)|Hw].
  - exists (Run i). simpl. rewrite Hi. simpl. rewrite Hn. simpl.
    destruct e as [| |[]| | |]; simpl; rewrite ?Ho; by eauto.
  - exists (Wake i timeout). simpl. rewrite Hi. simpl.
    destruct t as [? ? ? [[]| |? ? []|]| |]; try done; simpl; by eauto.
Qed.

(** C15. Waiting for remote answers ends: a schedule of the transactions and response
    handlers of a node has at most a number of steps given by their keys and operations,
    plus four for each spurious wake-up; and as long as a thread has not finished, some
    thread can take a step that is not a spurious wake-up (no deadlock on the mutex, no wait
    without an end). *)
Theorem remote_waits_terminate c sched c' :
  initial c → run fails sched c = Some c' →
  length sched ≤ total_cost c + 4 * spurious sched ∧
  ((∃ a c'', is_spurious a = 0 ∧ do_step fails a c' = Some c'') ∨
   Forall (λ t, finished t = true) (threads c')).
Proof.
  intros Hi Hr. split.
  - pose proof (total_cost_run _ _ _ Hr (distinct_initial _ Hi)). lia.
  - apply step_or_finished; eapply run_invariant;
      eauto using exclusive_step, exclusive_initial, held_by_thread_step.
    intros j. by rewrite (initial_mutex _ Hi).
Qed.
End progress.

(** ** A transaction one of whose requests could not be sent

    [execute_remote_operation] registers an operation before it sends the
    request; if the send throws, the registration stays.
    [handle_operation_response] notifies only when nothing at all is registered
    for the transaction any more. *)
Section stale.
Context `{Json} `{!Iteration Z} (fails : ServerCall → option exn).

(** A failed send leaves the operation registered. *)
Lemma failed_send_stays_registered c i x ops reads n op e :
  threads c !! i = Some (Client x ops reads (Operating n op OLock)) →
  distributed_mutex c = None → fails (Send n (op_request x op)) = Some e →
  ∃ c', run fails (replicate 5 (Run i)) c = Some c' ∧
    threads c' = <[i := Client x ops reads Between]> (threads c) ∧
    distributed_mutex c' = None ∧ (n, op_key op) ∈ ops_at x (shared c').
Proof.
  intros Hi Hm Hf. pose proof (lookup_lt_Some _ _ _ Hi) as Hlt. simpl.
  repeat (first [rewrite Hi | rewrite list_lookup_insert_eq by (by rewrite ?length_insert)];
    simpl; rewrite ?Hm, ?Hf, ?list_insert_insert_eq; simpl).
  eexists. split; [done|]. simpl. split_and!; [done..|]. rewrite ops_at_add. set_solver.
Qed.

(** C39. A lost wake-up: if a transaction that waits for the answer to an operation has
    another operation registered, as a failed send leaves it, then the handler of the answer
    stores the result and takes the operation off the list but notifies nobody: the
    transaction sleeps on although its loop condition is false, and at its deadline it drops
    the result and goes on without it. *)
Theorem stale_operation_loses_wakeup c i j x ops reads n op msg v q :
  threads c !! i = Some (Client x ops reads (Operating n op OWait)) →
  threads c !! j = Some (OpResponse n msg SParse) →
  distributed_mutex c = None →
  (op_response_fields msg tt).1 = Ok (Some (x, op_key op)) → (op_response_value msg tt).1 = Ok v →
  q ∈ ops_at x (shared c) → q ≠ (n, op_key op) →
  ∃ c', run fails (replicate 6 (Run j)) c = Some c' ∧
    threads c' = <[j := OpResponse n msg SDone]> (threads c) ∧
    distributed_mutex c' = None ∧
    ¬ blocked (shared c') (Client x ops reads (Operating n op OWait)) ∧
    (m ← remote_results (shared c') !! x; m !! op_key op) = Some v ∧
    ∃ c'', run fails [Wake i timeout; Run i; Run i; Run i] c' = Some c'' ∧
      threads c'' !! i = Some (Client x ops reads Between).
Proof.
  intros Hi Hj Hm Hf Hv Hq Hne.
  pose proof (lookup_lt_Some _ _ _ Hi) as Hlti. pose proof (lookup_lt_Some _ _ _ Hj) as Hltj.
  assert (Hij : i ≠ j) by congruence.
  simpl. repeat (first [rewrite Hj | rewrite list_lookup_insert_eq by (by rewrite ?length_insert)];
    simpl; rewrite ?Hm, ?Hf, ?Hv, ?list_insert_insert_eq; simpl).
  rewrite ops_at_erase. rewrite decide_False by set_solver. simpl.
  rewrite ?list_insert_insert_eq. eexists. split; [done|]. simpl. split_and!; [done..| | |].
  - rewrite ops_at_erase. set_solver.
  - by rewrite lookup_insert_eq; simpl; rewrite lookup_insert_eq.
  - rewrite list_lookup_insert_ne by done. rewrite Hi. simpl.
    repeat (rewrite list_lookup_insert_eq by (by rewrite ?length_insert); simpl).
    eexists. split; [done|]. simpl. by rewrite list_lookup_insert_eq by (by rewrite ?length_insert).
Qed.
End stale.

(** ** Witnesses

    Transaction 1 of node 0 asks node 1 for the locks of keys 3 and 5 and then
    reads both; the answers are waiting to be handled. *)
Module MonitorDemo.
Export Demo.

Definition no_failures : ServerCall → option exn := λ _, None.
(** The request to read key 3 cannot be sent. *)
Definition read3_fails (s : ServerCall) : option exn :=
  match s with
  | Send _ msg =>
      if decide ((v ← obj_at msg "key"; as_int64 v) = Some 3%Z ∧
                 (v ← obj_at msg "type"; as_string v) = Some MessageType.OP_REQUEST)
      then Some (StdException "not connected") else None
  | _ => None
  end.

Definition lock_answer : thread :=
  LockResponse 1 (tx_key_message MessageType.LOCK_GRANTED 1 3) RParse.
Definition read_answer (key : KeyType) (x : ValueContainer) : thread :=
  OpResponse 1 (op_response 1 key (Some x)) SParse.
Definition reads_3_and_5 : list (NodeID * Operation) := [(1%Z, ReadOp 3); (1%Z, ReadOp 5)].

Definition remote_demo : config :=
  mkConfig (mkRemote ∅ ∅ ∅ ∅) None
    [Client 1 reads_3_and_5 [] (Locking (LLock {[1%Z := {[3%Z; 5%Z]}]})); lock_answer;
     read_answer 3 [7%Z]; read_answer 5 [8%Z]; Client 2 [] [] (Locking (LLock {[1%Z := {[4%Z]}]}))].
(** The same without the locks. *)
Definition stale_demo : config :=
  mkConfig (mkRemote ∅ ∅ ∅ ∅) None [Client 1 reads_3_and_5 [] Between; read_answer 5 [8%Z]].

Lemma remote_demo_initial : initial remote_demo.
Proof.
  split; [by repeat constructor|done|apply (bool_decide_unpack _); by vm_compute| |];
    intros t x _ _; by unfold pending_at, ops_at, set_at; simpl; rewrite lookup_empty.
Qed.

(** Until the first transaction sleeps on the lock answers. *)
Definition until_lock_wait : list action := replicate 9 (Run 0).
(** Until it has both reads, woken up by the handlers. *)
Definition with_answers : list action :=
  until_lock_wait ++ replicate 5 (Run 1) ++ replicate 11 (Run 0) ++ replicate 7 (Run 2) ++
  replicate 14 (Run 0) ++ replicate 7 (Run 3) ++ replicate 7 (Run 0).

(** The configuration after a schedule. *)
Definition demo_after (sched : list action) : config :=
  default remote_demo (run no_failures sched remote_demo).

(** The keys transaction 1 locks. *)
Definition demo_keys : gmap NodeID (gset KeyType) := {[1%Z := {[3%Z; 5%Z]}]}.

Lemma demo_after_reachable sched :
  is_Some (run no_failures sched remote_demo) → reachable no_failures remote_demo (demo_after sched).
Proof. intros [c Hc]. exists sched. unfold demo_after. by rewrite Hc. Qed.

(** The thread registers its last key. *)
Lemma remote_state_guarded_by_mutex_witness :
  threads (demo_after [Run 0; Run 0]) !! 0 =
    Some (Client 1 reads_3_and_5 [] (Locking (LRegister [(1%Z, 3%Z)] demo_keys))) ∧
  distributed_mutex (demo_after [Run 0; Run 0]) = Some 0.
Proof.
  assert (threads (demo_after [Run 0; Run 0]) !! 0 =
    Some (Client 1 reads_3_and_5 [] (Locking (LRegister [(1%Z, 3%Z)] demo_keys)))) as Ht
    by (vm_compute; reflexivity).
  split; [exact Ht|].
  refine (proj1 (proj2 (remote_state_guarded_by_mutex remote_demo _ 0 _
    (Access (Some (AddPending 1 1 3))) _ remote_demo_initial
    (demo_after_reachable [Run 0; Run 0] _) Ht eq_refl)) _ eq_refl).
  eexists. vm_compute. reflexivity.
Defined.

Lemma no_lost_wakeup_witness :
  threads (demo_after until_lock_wait) !! 0 = Some (Client 1 reads_3_and_5 [] (Locking LWait)) ∧
  (blocked (shared (demo_after until_lock_wait)) (Client 1 reads_3_and_5 [] (Locking LWait)) ∨
   ∃ j u, distributed_mutex (demo_after until_lock_wait) = Some j ∧
     threads (demo_after until_lock_wait) !! j = Some u ∧
     announces u (Client 1 reads_3_and_5 [] (Locking LWait))).
Proof.
  assert (threads (demo_after until_lock_wait) !! 0 =
    Some (Client 1 reads_3_and_5 [] (Locking LWait))) as Ht by (vm_compute; reflexivity).
  split; [exact Ht|].
  apply (no_lost_wakeup no_failures remote_demo _ 0); [apply remote_demo_initial| |exact Ht|done|done].
  apply demo_after_reachable. eexists. vm_compute. reflexivity.
Defined.

Lemma remote_waits_terminate_witness :
  run no_failures with_answers remote_demo = Some (demo_after with_answers) ∧
  threads (demo_after with_answers) !! 0 =
    Some (Client 1 [] [(3%Z, Some [7%Z]); (5%Z, Some [8%Z])]
      (Finished (Ok [(3%Z, Some [7%Z]); (5%Z, Some [8%Z])]))) ∧
  length with_answers ≤ total_cost remote_demo + 4 * spurious with_answers.
Proof.
  assert (run no_failures with_answers remote_demo = Some (demo_after with_answers)) as Hr
    by (vm_compute; reflexivity).
  split; [exact Hr|]. split; [vm_compute; reflexivity|].
  apply (remote_waits_terminate no_failures remote_demo with_answers _ remote_demo_initial Hr).
Defined.

(** Until transaction 1 sleeps on the answer for key 5. *)
Definition stale_wait : config :=
  default stale_demo (run read3_fails (replicate 14 (Run 0)) stale_demo).

(** Key 3 stays registered; the answer for key 5 arrives and nobody is woken. *)
Lemma stale_operation_loses_wakeup_witness :
  run read3_fails (replicate 14 (Run 0)) stale_demo = Some stale_wait ∧
  ∃ c', run read3_fails (replicate 6 (Run 1)) stale_wait = Some c' ∧
    ¬ blocked (shared c') (Client 1 [] [] (Operating 1 (ReadOp 5) OWait)) ∧
    (m ← remote_results (shared c') !! 1%Z; m !! 5%Z) = Some [8%Z].
Proof.
  split; [vm_compute; reflexivity|].
  destruct (stale_operation_loses_wakeup read3_fails stale_wait 0 1 1 [] [] 1 (ReadOp 5)
    (op_response 1 5 (Some [8%Z])) [8%Z] (1%Z, 3%Z)) as (c' & Hr & _ & _ & Hb & Hv & _);
    [vm_compute; reflexivity..| |done|].
  - apply (bool_decide_unpack _). vm_compute. exact I.
  - exists c'. exact (conj Hr (conj Hb Hv)).
Defined.
End MonitorDemo.
