(* ===== verification/MonitorRefinement.v ===== *)
(** * The monitor refines the scheduler's methods

    Scheduler describes [acquire_remote_locks_with_retry] and
    [execute_remote_operation] as code that is told what happens while it
    waits, and Handlers the message handlers as code that runs at once.  Here
    every interleaving of Monitor is related to that: what the remote part of a
    transaction returns in the monitor is what the scheduler's methods return
    in an environment made of the accesses of other threads, and a handler acts
    as one call. *)
From S2P Require Import Prelude Operations KVStore LockManager Json Coordinator Scheduler.
From S2P Require Import SchedulerLocal Handlers SchedulerRemote Monitor MonitorWakeups.

(** An access some thread other than the one of transaction [x] may make. *)
Definition foreign (x : TransactionId) (a : access) : Prop :=
  match a with
  | AddPending y _ _ | TouchPending y | AddOp y _ => y ≠ x
  | ErasePending _ | NoteGranted _ _ _ | EraseOp _ _ | StoreResult _ _ _ => True
  end.

Lemma perform_all_app l l' r : perform_all (l ++ l') r = perform_all l' (perform_all l r).
Proof. apply foldl_app. Qed.

Section others.
Context `{Json} `{!Iteration Z} {fails : ServerCall → option exn}.
Implicit Types (t u : thread) (c : config).

Lemma access_foreign r u a u' x :
  next fails r u = Some (Access (Some a), u') → client_tx u ≠ Some x → foreign x a.
Proof. intros Hn Hx. next_cases Hn; done || congruence. Qed.

(** The state of thread [t] after other threads, a deadline or chance may have woken it. *)
Definition woken (t t' : thread) : Prop := t' = t ∨ ∃ st, wake st t = Some t'.

Lemma notify_woken_as v t : woken t (notify v t).
Proof.
  unfold notify. case_decide; [|by left]. destruct (wake no_timeout t) as [t'|] eqn:Hw; [|by left].
  right. by exists no_timeout.
Qed.

(** A step that is not one of thread [i]'s own, from where thread [i] stands. *)
Lemma other_step a c c' i t x :
  do_step fails a c = Some c' → a ≠ Run i → exclusive c → distinct c →
  threads c !! i = Some t →
  ∃ l t', threads c' !! i = Some t' ∧ woken t t' ∧
    shared c' = perform_all l (shared c) ∧ (client_tx t = Some x → Forall (foreign x) l) ∧
    (holds t = true → l = [] ∧ t' = t).
Proof.
  intros Hs Ha Hx Hd Hi.
  destruct (do_step_inv _ _ _ Hs) as [(j & u & e & u' & -> & Hj & Hn & He)|
    (j & st & u & u' & -> & Hj & Hw & ->)].
  - assert (Hij : i ≠ j) by congruence.
    rewrite (take_effect_shared _ _ _ _ _ He), (take_effect_threads _ _ _ _ _ He).
    pose proof (next_holds _ _ _ _ Hn) as Hh.
    assert (Hq : holds t = true → holds u = false).
    { intros Hti. destruct (holds u) eqn:Hu; [|done]. apply (Hx i) in Hti; [|done].
      apply (Hx j) in Hu; [|done]. congruence. }
    destruct e as [| |[a|]| |v|]; simpl;
      rewrite ?list_lookup_fmap, list_lookup_insert_ne, Hi by done; simpl.
    3:{ exists [a], t. split_and!; [done|by left|done| |].
        - intros Htx. constructor; [|done]. eapply access_foreign; [done|]. intros Hu.
          apply Hij. by apply (distinct_lookup c i j t u x Hd).
        - intros Hti. apply Hq in Hti. destruct Hh. congruence. }
    5:{ exists [], (notify v t). split_and!; [done|apply notify_woken_as|done|done|].
        intros Hti. apply Hq in Hti. destruct Hh. congruence. }
    all: exists [], t; split_and!; [done|by left|done..].
  - destruct (decide (i = j)) as [->|Hij]; simplify_eq/=.
    + exists [], u'. rewrite list_lookup_insert_eq by (by eapply lookup_lt_Some).
      split_and!; [done|by right; exists st|done|done|].
      intros Hh. apply wake_holds in Hw as [??]. congruence.
    + exists [], t. rewrite list_lookup_insert_ne by done. split_and!; [done|by left|done..].
Qed.
End others.

Section own_steps.
Context `{Json} `{!Iteration Z} {fails : ServerCall → option exn}.
Implicit Types (t u : thread) (c : config).

Lemma run_app l l' c : run fails (l ++ l') c = run fails l c ≫= run fails l'.
Proof.
  revert c. induction l as [|a l IH]; intros c; [done|]. simpl.
  destruct (do_step fails a c); [apply IH|done].
Qed.

Lemma notifier_awake r t v t' : next fails r t = Some (Notify v, t') → waits_on t' = None.
Proof. intros Hn. by next_cases Hn. Qed.

Lemma own_step c c' i t :
  do_step fails (Run i) c = Some c' → threads c !! i = Some t →
  ∃ e t', next fails (shared c) t = Some (e, t') ∧ shared c' = after e (shared c) ∧
    threads c' !! i = Some t'.
Proof.
  intros Hs Hi. destruct (do_step_inv _ _ _ Hs) as [(j & u & e & t' & [= <-] & Hj & Hn & He)|
    (? & ? & ? & ? & ? & _)]; [|done]. simplify_eq. exists e, t'.
  assert (Hlt := lookup_lt_Some _ _ _ Hi).
  rewrite (take_effect_shared _ _ _ _ _ He), (take_effect_threads _ _ _ _ _ He).
  split_and!; [done..|]. destruct e; rewrite ?list_lookup_fmap, list_lookup_insert_eq by done; try done.
  simpl. f_equal. unfold notify. apply notifier_awake in Hn. by rewrite decide_False by congruence.
Qed.

(** A property of thread [i] alone that none of its steps ends. *)
Lemma thread_invariant (P : thread → Prop) i :
  (∀ r t e t', next fails r t = Some (e, t') → P t → P t') →
  (∀ t t', woken t t' → P t → P t') →
  ∀ sched c c' t, run fails sched c = Some c' → exclusive c → distinct c →
    threads c !! i = Some t → P t → ∃ t', threads c' !! i = Some t' ∧ P t'.
Proof.
  intros Hown Hwoken sched. induction sched as [|a sched IH]; intros c c' t Hr Hx Hd Hi Ht;
    simpl in Hr; simplify_eq; [by eauto|].
  apply bind_Some in Hr as (c1 & Hs & Hr).
  assert (∃ t1, threads c1 !! i = Some t1 ∧ P t1) as (t1 & Hi1 & Ht1).
  { destruct (decide (a = Run i)) as [->|Ha].
    - destruct (own_step _ _ _ _ Hs Hi) as (e & t1 & Hn & _ & Hi1). eauto.
    - destruct (other_step _ _ _ i t 0%Z Hs Ha Hx Hd Hi) as (l & t1 & Hi1 & Hw & _). eauto. }
  eauto using exclusive_step, distinct_step.
Qed.

End own_steps.

(** ** Waiting for lock answers *)
Section locks.
Context {S : Type} `{OpExecutor S} `{Json} `{!Iteration Z} (fails : ServerCall → option exn).
#[local] Instance fails_server : TransactionServer := λ _ c, fails c.
Implicit Types (s : Scheduler S) (c : config).

(** What accesses of other threads do to the scheduler. *)
Definition interfere (l : list access) (s : Scheduler S) : Scheduler S :=
  set_remote (perform_all l (remote s)) s.
Definition to_wakeups (w : list (cv_status * list access)) : Wakeups :=
  (λ p, (p.1, interfere p.2)) <$> w.

(** Such wake-ups meet what the guarantees of SchedulerRemote ask of them. *)
Lemma to_wakeups_undisturbed t w : undisturbed_wakeups t (to_wakeups w).
Proof.
  intros st f. unfold to_wakeups. rewrite list_elem_of_fmap. intros ([st' l] & [= -> ->] & _) s.
  by split.
Qed.

Definition after_wakeup (x : TransactionId) (w : Wakeups) : M (Scheduler S) bool :=
  match w with
  | (no_timeout, f) :: w' => _ ← modify f; lock_wait w' x
  | (timeout, f) :: _ => _ ← modify f; lock_wait_timeout x
  | [] => lock_wait_timeout x
  end.

(** What is left to do of [acquire_remote_locks_with_retry] at a program counter. *)
Definition lock_rest (x : TransactionId) (p : lock_pc) (w : Wakeups) : M (Scheduler S) bool :=
  match p with
  | LLock keys => acquire_remote_locks_with_retry w keys x
  | LRegister l keys =>
      _ ← for_each l (λ p, on_remote (add_pending x p.1 p.2));
      _ ← send_each MessageType.LOCK_REQUEST x (node_keys (RemoteKeys x) keys);
      lock_wait w x
  | LSend l => _ ← send_each MessageType.LOCK_REQUEST x l; lock_wait w x
  | LTest => lock_wait w x
  | LSleep | LWait | LWoken _ => after_wakeup x w
  | LTimeout => lock_wait_timeout x
  | LRelease l =>
      _ ← send_each MessageType.LOCK_RELEASE x l;
      _ ← on_remote (erase_pending x);
      mret false
  | LErase => _ ← on_remote (erase_pending x); mret false
  | LReturn b => mret b
  | LUnwind e => throw e
  end.

(** A sleeping thread has a wake-up ahead, by timeout if its deadline has passed. *)
Definition lock_ahead (p : lock_pc) (w : list (cv_status * list access)) : Prop :=
  match p with
  | LSleep | LWait | LWoken no_timeout => w ≠ []
  | LWoken timeout => ∃ l w', w = (timeout, l) :: w'
  | LLock _ => False
  | _ => True
  end.
Definition lock_wakeups (p : lock_pc) (w : list (cv_status * list access))
    : list (cv_status * list access) :=
  match p with LWoken st => (st, []) :: w | _ => w end.

Lemma lock_wait_unfold w x s :
  lock_wait w x s = (if decide (pending_at x (remote (set_remote (touch_pending x (remote s)) s)) = ∅)
                     then mret true else after_wakeup x w) (set_remote (touch_pending x (remote s)) s).
Proof. by destruct w as [|[[] f] w]. Qed.

(** One send of a loop of sends. *)
Lemma send_step type x n k l (m : M (Scheduler S) bool) p e p' (rest : lock_pc → M (Scheduler S) bool) s :
  match fails (Send n (tx_key_message type x k)) with
  | None => Some (Silent, p)
  | Some e' => Some (Silent, LUnwind e')
  end = Some (e, p') →
  rest p = (_ ← send_each type x l; m) → (∀ e', rest (LUnwind e') = throw e') →
  ∃ s', remote s' = after e (remote s) ∧
    (_ ← send_each type x ((n, k) :: l); m) s = rest p' s'.
Proof.
  intros Hn Hp Hu. exists (set_calls (calls s ++ [Send n (tx_key_message type x k)]) s).
  unfold send_each, send, server_call, mbind, M_bind, call_throws, fails_server in *. simpl.
  destruct (fails _) as [e0|]; simplify_eq/=; (split; [done|]).
  - by rewrite Hu.
  - by rewrite Hp.
Qed.

Lemma lock_ahead_own x r p w e p' :
  lock_next fails x r p = Some (e, p') → (∀ keys, p ≠ LLock keys) → lock_ahead p' w →
  lock_ahead p (lock_wakeups p w).
Proof.
  intros Hn Hp Hg. destruct p as [keys| | | | | |[]| | | | |]; simplify_eq/=; try done;
    [by destruct (Hp keys)|by eexists _, _].
Qed.

Lemma lock_rest_own x p w e p' s :
  lock_next fails x (remote s) p = Some (e, p') →
  ∃ s', remote s' = after e (remote s) ∧
    lock_rest x p (to_wakeups (lock_wakeups p w)) s = lock_rest x p' (to_wakeups w) s'.
Proof.
  intros Hn. destruct p as [keys|[|[n k] l] keys|[|[n k] l]| | | |[]| |[|[n k] l]| | |];
    simpl in Hn; simplify_eq/=; try by exists s.
  - by exists (set_remote (add_pending x n k (remote s)) s).
  - by eapply (send_step _ x n k l _ _ e p' (λ q, lock_rest x q (to_wakeups w))).
  - exists (set_remote (touch_pending x (remote s)) s). split; [done|].
    rewrite lock_wait_unfold. simpl. rewrite pending_at_touch. by case_decide.
  - by exists (interfere [] s).
  - exists (set_remote (touch_pending x (remote s)) s). split; [done|].
    unfold lock_wait_timeout. rewrite bind_on_remote, bind_gets. simpl. by rewrite pending_at_touch.
  - by eapply (send_step _ x n k l _ _ e p' (λ q, lock_rest x q (to_wakeups w))).
  - by exists (set_remote (erase_pending x (remote s)) s).
Qed.

(** Other threads' accesses while the thread has given the mutex up. *)
Lemma lock_rest_other x ops reads p p' w l :
  woken (Client x ops reads (Locking p)) (Client x ops reads (Locking p')) →
  (∀ keys, p ≠ LLock keys) → (holds (Client x ops reads (Locking p)) = true → l = [] ∧ p' = p) →
  lock_ahead p' w → Forall (λ q, Forall (foreign x) q.2) w → Forall (foreign x) l →
  ∃ w', lock_ahead p w' ∧ Forall (λ q, Forall (foreign x) q.2) w' ∧
    ∀ s, lock_rest x p (to_wakeups w') s = lock_rest x p' (to_wakeups w) (interfere l s).
Proof.
  intros Hw Hp Hh Hg Hf Hl. destruct (holds (Client x ops reads (Locking p))) eqn:Hq.
  { destruct Hh as [-> ->]; [done|]. exists w. split_and!; [done..|].
    intros s. unfold interfere. simpl. by destruct s. }
  assert (∃ st l0 w0, w = (st, l0) :: w0) as (st & l0 & w0 & ->).
  { destruct p as [keys| | | | | |[]| | | | |]; simplify_eq/=; [by destruct (Hp keys)|..];
      destruct Hw as [Hw|[[] Hw]]; simplify_eq/=; destruct w as [|[]]; naive_solver. }
  exists ((st, l ++ l0) :: w0). inversion Hf; subst. split_and!.
  - destruct p as [keys| | | | | |[]| | | | |]; simplify_eq/=; try done; [by destruct (Hp keys)|].
    destruct Hw as [Hw|[[] Hw]]; simplify_eq/=; naive_solver.
  - constructor; [by apply Forall_app|done].
  - intros s. assert (lock_rest x p = after_wakeup x ∧ lock_rest x p' = after_wakeup x) as [-> ->].
    { destruct p as [keys| | | | | |[]| | | | |]; simplify_eq/=; [by destruct (Hp keys)|..];
        destruct Hw as [Hw|[[] Hw]]; by simplify_eq/=. }
    unfold after_wakeup. simpl. assert (interfere (l ++ l0) s = interfere l0 (interfere l s)) as E.
    { unfold interfere. simpl. by rewrite perform_all_app. }
    destruct st; rewrite !bind_modify; by rewrite E.
Qed.

(** ** Waiting for the answer to an operation *)

(** What other threads do in the windows of a remote operation. *)
Record op_windows := mkWindows {
  win_call : list access;
  win_before : list access;
  win_wakes : list (cv_status * list access);
  win_result : list access;
}.
Definition foreign_windows (x : TransactionId) (e : op_windows) : Prop :=
  Forall (foreign x) (win_call e) ∧ Forall (foreign x) (win_before e) ∧
  Forall (λ q, Forall (foreign x) q.2) (win_wakes e) ∧ Forall (foreign x) (win_result e).
Definition to_op_wait (e : op_windows) : OpWait :=
  {| before_call := interfere (win_call e); before_wait := interfere (win_before e);
     op_wakeups := to_wakeups (win_wakes e);
     before_result := interfere (win_result e) |}.

Lemma to_op_wait_undisturbed t e : undisturbed_op_wait t (to_op_wait e).
Proof. split; [by split|by split|apply to_wakeups_undisturbed|by split]. Qed.

Section operation.
Context (x : TransactionId) (n : NodeID) (op : Operation).

Definition op_after_wakeup (w : Wakeups) : M (Scheduler S) bool :=
  match w with
  | (no_timeout, f) :: w' => _ ← modify f; op_wait w' x (n, op_key op)
  | (timeout, f) :: _ =>
      _ ← modify f; _ ← on_remote (erase_pending_op x (n, op_key op)); mret false
  | [] => _ ← on_remote (erase_pending_op x (n, op_key op)); mret false
  end.

Definition fetch_result : M (Scheduler S) (option ValueContainer) :=
  gets (λ s, m ← remote_results (remote s) !! x; m !! op_key op).
Definition op_finish (e : OpWait) (arrived : bool) : M (Scheduler S) (option ValueContainer) :=
  if arrived then _ ← modify (before_result e); fetch_result else mret None.

(** What is left to do of [execute_remote_operation], inside its [try]. *)
Definition op_rest (p : op_pc) (e : OpWait) : M (Scheduler S) (option ValueContainer) :=
  match p with
  | OLock =>
      _ ← modify (before_call e);
      _ ← on_remote (add_pending_op x (n, op_key op));
      _ ← send n (op_request x op);
      _ ← modify (before_wait e);
      arrived ← op_wait (op_wakeups e) x (n, op_key op);
      op_finish e arrived
  | OInsert =>
      _ ← on_remote (add_pending_op x (n, op_key op));
      _ ← send n (op_request x op);
      _ ← modify (before_wait e);
      arrived ← op_wait (op_wakeups e) x (n, op_key op);
      op_finish e arrived
  | OUnlock | OSend =>
      _ ← send n (op_request x op);
      _ ← modify (before_wait e);
      arrived ← op_wait (op_wakeups e) x (n, op_key op);
      op_finish e arrived
  | ORelock =>
      _ ← modify (before_wait e);
      arrived ← op_wait (op_wakeups e) x (n, op_key op);
      op_finish e arrived
  | OTest => arrived ← op_wait (op_wakeups e) x (n, op_key op); op_finish e arrived
  | OSleep | OWait | OWoken _ => arrived ← op_after_wakeup (op_wakeups e); op_finish e arrived
  | OTimeout => _ ← on_remote (erase_pending_op x (n, op_key op)); mret None
  | OLeave | OFetchLock => _ ← modify (before_result e); fetch_result
  | OFetch => fetch_result
  | OReturn v => mret v
  | OCatch => throw OtherException
  end.
Definition op_caught (p : op_pc) (e : OpWait) : M (Scheduler S) (option ValueContainer) :=
  catch_all (op_rest p e) (λ _, mret None).

Definition op_ahead (p : op_pc) (e : op_windows) : Prop :=
  match p with
  | OSleep | OWait | OWoken no_timeout => win_wakes e ≠ []
  | OWoken timeout => ∃ l w', win_wakes e = (timeout, l) :: w'
  | _ => True
  end.
(** The windows of the whole rest from those of the rest after a step of its own. *)
Definition op_open (p : op_pc) (e : op_windows) : op_windows :=
  match p with
  | OLock => mkWindows [] (win_before e) (win_wakes e) (win_result e)
  | ORelock => mkWindows (win_call e) [] (win_wakes e) (win_result e)
  | OWoken st => mkWindows (win_call e) (win_before e) ((st, []) :: win_wakes e) (win_result e)
  | OFetchLock => mkWindows (win_call e) (win_before e) (win_wakes e) []
  | _ => e
  end.

Lemma op_ahead_own r p e p' w :
  op_next fails x n op r p = Some (e, p') → op_ahead p' w → op_ahead p (op_open p w).
Proof.
  intros Hn Hg. destruct p as [| | | | | | | |[]| | | | | |]; simplify_eq/=; try done. by eexists _, _.
Qed.

Lemma op_wait_unfold w s :
  op_wait w x (n, op_key op) s =
    (if decide ((n, op_key op) ∈ ops_at x (remote s)) then op_after_wakeup w else mret true) s.
Proof.
  destruct w as [|[[] f] w]; simpl; rewrite bind_gets;
    case_bool_decide; by case_decide.
Qed.

Lemma op_rest_own p w e p' s :
  op_next fails x n op (remote s) p = Some (e, p') →
  ∃ s', remote s' = after e (remote s) ∧
    op_caught p (to_op_wait (op_open p w)) s = op_caught p' (to_op_wait w) s'.
Proof.
  intros Hn. unfold op_caught, catch_all. destruct p as [| | | | | | | |[]| | | | | |];
    simplify_eq/=; try by exists s.
  - by exists (set_remote (add_pending_op x (n, op_key op) (remote s)) s).
  - exists (set_calls (calls s ++ [Send n (op_request x op)]) s). split; [done|].
    unfold send, server_call, mbind, M_bind, call_throws, fails_server. simpl.
    by destruct (fails _).
  - by exists (interfere [] s).
  - exists s. split; [done|]. unfold mbind at 1, M_bind at 1. rewrite op_wait_unfold.
    by case_decide.
  - by exists (interfere [] s).
  - by exists (set_remote (erase_pending_op x (n, op_key op) (remote s)) s).
  - by exists (interfere [] s).
Qed.

(** The accesses of others in a window open at program counter [p]. *)
Definition op_extend (p : op_pc) (l : list access) (e : op_windows) : op_windows :=
  match p with
  | OLock => mkWindows (l ++ win_call e) (win_before e) (win_wakes e) (win_result e)
  | OSend | ORelock => mkWindows (win_call e) (l ++ win_before e) (win_wakes e) (win_result e)
  | OWait | OWoken _ =>
      mkWindows (win_call e) (win_before e)
        (match win_wakes e with (st, l0) :: w => (st, l ++ l0) :: w | [] => [] end) (win_result e)
  | OFetchLock => mkWindows (win_call e) (win_before e) (win_wakes e) (l ++ win_result e)
  | _ => e
  end.

Lemma interfere_app l l' s : interfere (l ++ l') s = interfere l' (interfere l s).
Proof. unfold interfere. simpl. by rewrite perform_all_app. Qed.

Lemma foreign_extend p l e :
  Forall (foreign x) l → foreign_windows x e → foreign_windows x (op_extend p l e).
Proof.
  intros Hl (Hc & Hb & Hw & Hr). destruct p; try done; split_and!; simpl; try done;
    try by apply Forall_app.
  all: destruct (win_wakes e) as [|[st0 l0] w]; [done|]; inversion Hw; subst;
    constructor; [by apply Forall_app|done].
Qed.

Definition asleep (p : op_pc) : bool := match p with OWait | OWoken _ => true | _ => false end.

Lemma op_rest_asleep ops reads p p' w l :
  woken (Client x ops reads (Operating n op p)) (Client x ops reads (Operating n op p')) →
  asleep p = true → op_ahead p' w →
  op_ahead p (op_extend p l w) ∧
  ∀ s, op_caught p (to_op_wait (op_extend p l w)) s =
         op_caught p' (to_op_wait w) (interfere l s).
Proof.
  intros Hw Hp Hg.
  assert (∃ st0 l0 w0, win_wakes w = (st0, l0) :: w0) as (st0 & l0 & w0 & Ew).
  { destruct p as [| | | | | | | |[]| | | | | |]; simplify_eq/=;
      destruct Hw as [Hw|[[] Hw]]; simplify_eq/=; destruct (win_wakes w) as [|[]]; naive_solver. }
  assert (op_extend p l w = mkWindows (win_call w) (win_before w) ((st0, l ++ l0) :: w0) (win_result w)) as ->.
  { destruct p; simplify_eq/=; by rewrite Ew. }
  split.
  - destruct p as [| | | | | | | |[]| | | | | |]; try done.
    destruct Hw as [Hw|[[] Hw]]; simplify_eq/=. destruct Hg as (l1 & w1 & E).
    rewrite Ew in E. simplify_eq. by eexists _, _.
  - intros s. assert (op_rest p = op_rest OWait ∧ op_rest p' = op_rest OWait) as [E E'].
    { destruct p as [| | | | | | | |[]| | | | | |]; simplify_eq/=;
        destruct Hw as [Hw|[[] Hw]]; by simplify_eq/=. }
    unfold op_caught, catch_all. rewrite E, E'. simpl. rewrite Ew. unfold mbind, M_bind. simpl.
    destruct st0; simpl; unfold mbind, M_bind; simpl;
      by rewrite ?interfere_app, ?perform_all_app.
Qed.

(** They may as well happen before, or after if no window is open any more. *)
Lemma op_rest_other ops reads p p' w l :
  woken (Client x ops reads (Operating n op p)) (Client x ops reads (Operating n op p')) →
  (holds (Client x ops reads (Operating n op p)) = true → l = [] ∧ p' = p) →
  op_ahead p' w →
  op_ahead p (op_extend p l w) ∧
  ((∀ s, op_caught p (to_op_wait (op_extend p l w)) s =
           op_caught p' (to_op_wait w) (interfere l s)) ∨
   (∀ s, op_caught p' (to_op_wait w) (interfere l s) =
           ((op_caught p (to_op_wait (op_extend p l w)) s).1,
            interfere l (op_caught p (to_op_wait (op_extend p l w)) s).2))).
Proof.
  intros Hw Hh Hg. destruct (holds (Client x ops reads (Operating n op p))) eqn:Hq.
  { destruct Hh as [-> ->]; [done|]. assert (op_extend p [] w = w) as -> by by destruct p.
    split; [done|]. left. intros s. by assert (interfere [] s = s) as -> by by destruct s. }
  destruct (asleep p) eqn:Hs.
  { destruct (op_rest_asleep ops reads p p' w l) as [? E]; [done..|]. split; [done|by left]. }
  assert (p' = p) as ->.
  { destruct Hw as [[= ->]|[st Hw]]; [done|]. by destruct p. }
  destruct p; try done; clear Hq Hh Hs; (split; [done|]);
    unfold op_caught, catch_all, op_rest, send, server_call, mbind, M_bind, call_throws, fails_server;
    simpl.
  - left. intros s. by rewrite ?interfere_app, ?perform_all_app.
  - destruct (fails _); [by right|left]. intros s. by rewrite ?interfere_app, ?perform_all_app.
  - left. intros s. by rewrite ?interfere_app, ?perform_all_app.
  - left. intros s. by rewrite ?interfere_app, ?perform_all_app.
  - by right.
Qed.
End operation.

(** ** A whole transaction *)

(** What other threads do in all the windows of a transaction's remote part. *)
Record windows := mkAll {
  w_lock : list (cv_status * list access);
  w_ops : list op_windows;      (* the operations not yet ended, in order *)
  w_end : list access;
}.
Definition no_windows : op_windows := mkWindows [] [] [] [].
Definition foreign_all (x : TransactionId) (w : windows) : Prop :=
  Forall (λ q, Forall (foreign x) q.2) (w_lock w) ∧ Forall (foreign_windows x) (w_ops w) ∧
  Forall (foreign x) (w_end w).

Section transaction.
Context (x : TransactionId).

Definition add_read (op : Operation) (v : option ValueContainer) (reads : Reads) : Reads :=
  match v with Some y => reads ++ [(op_key op, Some y)] | None => reads end.

(** The operations left, each in its windows. *)
Fixpoint ops_rest (ops : list (NodeID * Operation)) (reads : Reads) (ws : list op_windows)
    : M (Scheduler S) Reads :=
  match ops with
  | [] => mret reads
  | (n, op) :: ops' =>
      v ← execute_remote_operation (to_op_wait (hd no_windows ws)) n x op;
      ops_rest ops' (add_read op v reads) (tl ws)
  end.

(** What is left of the transaction. *)
Definition client_rest (ops : list (NodeID * Operation)) (reads : Reads) (p : client_pc)
    (w : windows) : M (Scheduler S) Reads :=
  match p with
  | Locking q =>
      ok ← lock_rest x q (to_wakeups (w_lock w));
      if (ok : bool) then ops_rest ops reads (w_ops w) else mret []
  | Between => ops_rest ops reads (w_ops w)
  | Operating n op q =>
      v ← op_caught x n op q (to_op_wait (hd no_windows (w_ops w)));
      ops_rest ops (add_read op v reads) (tl (w_ops w))
  | Finished r => λ s, (r, s)
  end.

(** Its result and the maps at the end, after the accesses others made since. *)
Definition outcome_of (m : M (Scheduler S) Reads) (l : list access) (s : Scheduler S)
    : res Reads * RemoteState :=
  ((m s).1, perform_all l (remote (m s).2)).

Definition client_ahead (p : client_pc) (w : windows) : Prop :=
  match p with
  | Locking q => lock_ahead q (w_lock w)
  | Operating _ _ q => op_ahead q (hd no_windows (w_ops w))
  | _ => True
  end.

(** Accesses between two operations, or after the last. *)
Definition push_window (ops : list (NodeID * Operation)) (l : list access) (w : windows) : windows :=
  match ops with
  | [] => mkAll (w_lock w) (w_ops w) (l ++ w_end w)
  | _ => mkAll (w_lock w) (op_extend OLock l (hd no_windows (w_ops w)) :: tl (w_ops w)) (w_end w)
  end.

Lemma foreign_hd ws : Forall (foreign_windows x) ws → foreign_windows x (hd no_windows ws).
Proof. destruct 1; [split_and!; constructor|done]. Qed.
Lemma foreign_tl ws : Forall (foreign_windows x) ws → Forall (foreign_windows x) (tl ws).
Proof. by destruct 1. Qed.

Lemma push_window_foreign ops l w :
  Forall (foreign x) l → foreign_all x w → foreign_all x (push_window ops l w).
Proof.
  intros Hl (H1 & H2 & H3). destruct ops as [|[]]; split_and!; simpl; try done.
  - by apply Forall_app.
  - apply Forall_cons. split; [|by apply foreign_tl].
    apply (foreign_extend x OLock); [done|by apply foreign_hd].
Qed.

Lemma push_window_rest ops reads l w s :
  outcome_of (ops_rest ops reads (w_ops (push_window ops l w))) (w_end (push_window ops l w)) s =
  outcome_of (ops_rest ops reads (w_ops w)) (w_end w) (interfere l s).
Proof.
  destruct ops as [|[n op] ops]; unfold outcome_of; simpl.
  - by rewrite perform_all_app.
  - unfold execute_remote_operation, catch_all, mbind, M_bind. simpl.
    by rewrite ?interfere_app, ?perform_all_app.
Qed.

Lemma op_caught_ok n op p e s : ∃ v s', op_caught x n op p e s = (Ok v, s').
Proof. unfold op_caught, catch_all. destruct (op_rest x n op p e s) as [[v|] s']; by eauto. Qed.

Lemma outcome_bind {A} (m m' : M (Scheduler S) A) k l s s' :
  m s = m' s' → outcome_of (m ≫= k) l s = outcome_of (m' ≫= k) l s'.
Proof. intros E. unfold outcome_of, mbind, M_bind. by rewrite E. Qed.

(** The windows of what is left before a step of the transaction itself. *)
Definition client_open (p : client_pc) (w : windows) : windows :=
  match p with
  | Locking q => mkAll (lock_wakeups q (w_lock w)) (w_ops w) (w_end w)
  | Operating _ _ (OReturn _ | OCatch) => mkAll (w_lock w) (no_windows :: w_ops w) (w_end w)
  | Operating _ _ q =>
      mkAll (w_lock w) (op_open q (hd no_windows (w_ops w)) :: tl (w_ops w)) (w_end w)
  | _ => w
  end.

Lemma client_open_foreign p w : foreign_all x w → foreign_all x (client_open p w).
Proof.
  intros (H1 & H2 & H3). pose proof (foreign_hd _ H2) as (? & ? & ? & ?).
  pose proof (foreign_tl _ H2).
  destruct p as [q| |n op q|]; [destruct q|done|destruct q|done]; split_and!; simpl; auto;
    apply Forall_cons; (split; [|done]); split_and!; simpl; auto.
Qed.

(** A step inside a call is one of [lock_next] or [op_next]. *)
Ltac inner_step H q' :=
  unfold next, client_next in H; apply bind_Some in H as ([? q'] & H & [= -> <- <- <-]).

Lemma client_ahead_own r ops reads p e ops' reads' p' w :
  next fails r (Client x ops reads p) = Some (e, Client x ops' reads' p') →
  (∀ keys, p ≠ Locking (LLock keys)) → client_ahead p' w → client_ahead p (client_open p w).
Proof.
  intros Hn Hp Hg. destruct p as [q| |n op q|]; [|done| |done].
  - assert (Hq : ∀ keys, q ≠ LLock keys) by (intros keys ->; by apply (Hp keys)).
    destruct q; try done;
      inner_step Hn q'; by eapply lock_ahead_own.
  - destruct q; try done;
      inner_step Hn q'; by eapply (op_ahead_own x n op).
Qed.

(** A step of the transaction itself. *)
Lemma client_rest_own ops reads p e ops' reads' p' w s :
  next fails (remote s) (Client x ops reads p) = Some (e, Client x ops' reads' p') →
  ∃ s', remote s' = after e (remote s) ∧
    outcome_of (client_rest ops reads p (client_open p w)) (w_end (client_open p w)) s =
      outcome_of (client_rest ops' reads' p' w) (w_end w) s'.
Proof.
  intros Hn. destruct p as [q| |n op q|]; [| | |done].
  - assert (Hend : w_end (client_open (Locking q) w) = w_end w) by done. rewrite Hend.
    destruct q as [| | | | | | | | | |[]|];
      try (inner_step Hn q'; destruct (lock_rest_own _ _ (w_lock w) _ _ _ Hn) as (s' & Es & E); exists s';
        split; [done|]; by apply outcome_bind);
      simplify_eq/=; by exists s.
  - destruct ops as [|[n op] ops]; simplify_eq/=; by exists s.
  - assert (Hend : w_end (client_open (Operating n op q) w) = w_end w) by by destruct q. rewrite Hend.
    destruct q;
      try (inner_step Hn q'; destruct (op_rest_own _ _ _ _ (hd no_windows (w_ops w)) _ _ _ Hn) as (s' & Es & E); exists s';
        split; [done|]; by apply outcome_bind);
      simplify_eq/=; by exists s.
Qed.

Lemma client_next_client ops reads r p e t' :
  next fails r (Client x ops reads p) = Some (e, t') →
  ∃ ops' reads' p', t' = Client x ops' reads' p' ∧ ∀ keys, p' ≠ Locking (LLock keys).
Proof. intros Hn. next_cases Hn; by do 3 eexists. Qed.

(** An operation while other threads have the mutex. *)
Lemma operating_other ops reads n op q q' w l :
  woken (Client x ops reads (Operating n op q)) (Client x ops reads (Operating n op q')) →
  (holds (Client x ops reads (Operating n op q)) = true → l = [] ∧ q' = q) →
  client_ahead (Operating n op q') w → foreign_all x w → Forall (foreign x) l →
  ∃ w', client_ahead (Operating n op q) w' ∧ foreign_all x w' ∧
    ∀ s, outcome_of (client_rest ops reads (Operating n op q) w') (w_end w') s =
           outcome_of (client_rest ops reads (Operating n op q') w) (w_end w) (interfere l s).
Proof.
  intros Hw Hh Hg (Hf1 & Hf2 & Hf3) Hl.
  assert (Hhd : foreign_windows x (op_extend q l (hd no_windows (w_ops w))))
    by (apply foreign_extend; [done|by apply foreign_hd]).
  destruct (op_rest_other x n op ops reads q q' (hd no_windows (w_ops w)) l) as [Hg' [E|E]]; try done.
  - exists (mkAll (w_lock w) (op_extend q l (hd no_windows (w_ops w)) :: tl (w_ops w)) (w_end w)).
    split; [done|]. split.
    { split; [done|]. split; [|done]. apply Forall_cons. split; [done|by apply foreign_tl]. }
    intros s. by apply outcome_bind.
  - set (w1 := push_window ops l (mkAll (w_lock w) (tl (w_ops w)) (w_end w))).
    assert (foreign_all x w1) as (_ & Hw2 & Hw3)
      by (apply push_window_foreign; [done|]; split_and!; [done|by apply foreign_tl|done]).
    exists (mkAll (w_lock w) (op_extend q l (hd no_windows (w_ops w)) :: w_ops w1) (w_end w1)).
    split; [done|]. split; [split; [done|]; split; [by apply Forall_cons|done]|].
    intros s. simpl. specialize (E s).
    destruct (op_caught_ok n op q (to_op_wait (op_extend q l (hd no_windows (w_ops w)))) s)
      as (v & s1 & E1). rewrite E1 in E. simpl in E.
    transitivity (outcome_of (ops_rest ops (add_read op v reads) (w_ops w1)) (w_end w1) s1).
    { unfold outcome_of, mbind, M_bind. by rewrite E1. }
    unfold w1. rewrite push_window_rest. unfold outcome_of, mbind, M_bind. by rewrite E.
Qed.

Lemma woken_client ops reads p t' :
  woken (Client x ops reads p) t' → ∃ p', t' = Client x ops reads p' ∧
    ((∀ keys, p ≠ Locking (LLock keys)) → ∀ keys, p' ≠ Locking (LLock keys)).
Proof.
  intros [->|[st Hw]]; [by eauto|]. unfold wake in Hw.
  repeat (case_match; simplify_eq/=); by eexists.
Qed.

(** Accesses of other threads while the transaction has given the mutex up. *)
Lemma client_rest_other ops reads p p' w l :
  woken (Client x ops reads p) (Client x ops reads p') → (∀ keys, p ≠ Locking (LLock keys)) →
  (holds (Client x ops reads p) = true → l = [] ∧ p' = p) →
  client_ahead p' w → foreign_all x w → Forall (foreign x) l →
  ∃ w', client_ahead p w' ∧ foreign_all x w' ∧
    ∀ s, outcome_of (client_rest ops reads p w') (w_end w') s =
           outcome_of (client_rest ops reads p' w) (w_end w) (interfere l s).
Proof.
  intros Hw Hp Hh Hg Hf Hl. pose proof Hf as (Hf1 & Hf2 & Hf3).
  destruct p as [q| |n op q|r].
  - assert (∃ q', p' = Locking q') as [q' ->].
    { destruct Hw as [[= ->]|[st Hw]]; [by eauto|]. unfold wake in Hw.
      repeat (case_match; simplify_eq/=); by eexists. }
    destruct (lock_rest_other x ops reads q q' (w_lock w) l) as (w' & Hg' & Hf' & E); try done.
    { intros keys ->. by apply (Hp keys). }
    { intros Hq. destruct (Hh Hq) as [-> [= ->]]. done. }
    exists (mkAll w' (w_ops w) (w_end w)). split; [done|]. split; [done|].
    intros s. by apply outcome_bind.
  - assert (p' = Between) as -> by (by destruct Hw as [[= ->]|[st [=]]]).
    exists (push_window ops l w). split; [done|]. split; [by apply push_window_foreign|].
    intros s. apply push_window_rest.
  - assert (∃ q', p' = Operating n op q') as [q' ->].
    { destruct Hw as [[= ->]|[st Hw]]; [by eauto|]. unfold wake in Hw.
      repeat (case_match; simplify_eq/=); by eexists. }
    eapply operating_other; try done. intros Hq. destruct (Hh Hq) as [-> [= ->]]. done.
  - assert (p' = Finished r) as -> by (by destruct Hw as [[= ->]|[st [=]]]).
    exists (mkAll (w_lock w) (w_ops w) (l ++ w_end w)).
    split; [done|]. split; [split; [done|]; split; [done|by apply Forall_app]|].
    intros s. unfold outcome_of. simpl. by rewrite perform_all_app.
Qed.

Lemma client_rest_sound i sched c c' ops reads p r opsf readsf :
  run fails sched c = Some c' → exclusive c → distinct c →
  threads c !! i = Some (Client x ops reads p) → (∀ keys, p ≠ Locking (LLock keys)) →
  threads c' !! i = Some (Client x opsf readsf (Finished r)) →
  ∃ w, client_ahead p w ∧ foreign_all x w ∧
    ∀ s, remote s = shared c → outcome_of (client_rest ops reads p w) (w_end w) s = (r, shared c').
Proof.
  revert c ops reads p. induction sched as [|a sched IH]; intros c ops reads p Hr Hx Hd Hi Hp Hi'.
  { simpl in Hr. simplify_eq. exists (mkAll [] [] []). split; [done|]. split; [by split_and!; constructor|].
    intros s Hs. unfold outcome_of. simpl. by rewrite Hs. }
  simpl in Hr. apply bind_Some in Hr as (c1 & Hs & Hr).
  pose proof (exclusive_step _ _ _ Hs Hx) as Hx1. pose proof (distinct_step _ _ _ Hs Hd) as Hd1.
  destruct (decide (a = Run i)) as [->|Ha].
  - destruct (own_step _ _ _ _ Hs Hi) as (e & t1 & Hn & Hsh & Hi1).
    destruct (client_next_client _ _ _ _ _ _ Hn) as (ops1 & reads1 & p1 & -> & Hp1).
    destruct (IH _ _ _ _ Hr Hx1 Hd1 Hi1 Hp1 Hi') as (w & Hg & Hf & Hrest).
    exists (client_open p w). split; [by eapply client_ahead_own|].
    split; [by apply client_open_foreign|]. intros s Es. rewrite <- Es in Hn.
    destruct (client_rest_own _ _ _ _ _ _ _ w _ Hn) as (s1 & Es1 & ->).
    apply Hrest. by rewrite Es1, Es.
  - destruct (other_step _ _ _ _ _ x Hs Ha Hx Hd Hi) as (l & t1 & Hi1 & Hw & Hsh & Hl & Hh).
    destruct (woken_client _ _ _ _ Hw) as (p1 & -> & Hp1).
    destruct (IH _ _ _ _ Hr Hx1 Hd1 Hi1 (Hp1 Hp) Hi') as (w & Hg & Hf & Hrest).
    destruct (client_rest_other ops reads p p1 w l) as (w' & Hg' & Hf' & E); try done.
    { intros Hq. destruct (Hh Hq) as [-> [= ->]]. done. }
    { by apply Hl. }
    exists w'. split; [done|]. split; [done|]. intros s Es. rewrite E. apply Hrest.
    unfold interfere. simpl. by rewrite Hsh, Es.
Qed.

(** The windows as the environment of [execute_with_distributed_support]. *)
Definition to_environment (w : windows) : Environment :=
  {| env_acquire := λ _, no_interference; env_lock_wait := to_wakeups (w_lock w);
     env_op_wait := λ i, to_op_wait (nth i (w_ops w) no_windows) |}.

Lemma to_environment_undisturbed t w : undisturbed_env t (to_environment w).
Proof.
  split; [apply fair_quiet|apply to_wakeups_undisturbed|intros i; apply to_op_wait_undisturbed].
Qed.

(** The loop of phase 2 when every operation is remote. *)
Lemma ops_rest_execute key_to_node ops w i reads s :
  (∀ n op, (n, op) ∈ ops → key_to_node !! op_key op = Some n ∧ n ≠ local_node_id (node s)) →
  execute_operations (to_environment w) key_to_node x i (snd <$> ops) reads s =
    ops_rest ops reads (drop i (w_ops w)) s.
Proof.
  revert i reads s. induction ops as [|[n op] ops IH]; intros i reads s Hops; [done|].
  csimpl. rewrite bind_gets. destruct (Hops n op) as [Hn Hloc]; [by left|].
  rewrite Hn. simpl. rewrite decide_False by done.
  assert (hd no_windows (drop i (w_ops w)) = nth i (w_ops w) no_windows) as ->.
  { clear. revert i. induction (w_ops w) as [|y l IH]; intros [|i]; try done. apply IH. }
  assert (tl (drop i (w_ops w)) = drop (Datatypes.S i) (w_ops w)) as ->.
  { clear. revert i. induction (w_ops w) as [|y l IH]; intros [|i]; try done. apply IH. }
  pose proof (within_execute_remote_operation 0%Z (to_op_wait (nth i (w_ops w) no_windows)) n x op
    (to_op_wait_undisturbed _ _) s) as Hnode. apply und_node in Hnode.
  unfold mbind, M_bind.
  destruct (execute_remote_operation (to_op_wait (nth i (w_ops w) no_windows)) n x op s)
    as [[v|e] s1]; [|done]. simpl in Hnode. rewrite <- (IH (Datatypes.S i)).
  - done.
  - intros n' op' Hin. rewrite Hnode. apply Hops. by right.
Qed.

(** C13. The remote part of a transaction in any interleaving is the scheduler's methods
    applied to the state in which it took the mutex: from there until the transaction has
    ended, there is an environment - wake-ups of the lock wait, and for each operation what
    happens before it, after its request, at its wake-ups and before its result is fetched,
    all made of accesses only other threads may make and leaving locks undisturbed - in
    which acquire_remote_locks_with_retry followed by execute_operations ends with the same
    reads or exception and leaves the same pending and result maps, up to accesses of others
    made since. *)
Theorem transaction_refines_scheduler keys ops i c0 c sched c' r opsf readsf :
  initial c0 → reachable fails c0 c → run fails sched c = Some c' →
  threads c !! i = Some (Client x ops [] (Locking (LRegister (node_keys (RemoteKeys x) keys) keys))) →
  threads c' !! i = Some (Client x opsf readsf (Finished r)) →
  ∃ w, foreign_all x w ∧ (∀ t, undisturbed_env t (to_environment w)) ∧
    ∀ s key_to_node, remote s = shared c →
      (∀ n op, (n, op) ∈ ops → key_to_node !! op_key op = Some n ∧ n ≠ local_node_id (node s)) →
      ∃ s', (ok ← acquire_remote_locks_with_retry (env_lock_wait (to_environment w)) keys x;
             if (ok : bool)
             then execute_operations (to_environment w) key_to_node x 0 (snd <$> ops) []
             else mret []) s = (r, s') ∧
        shared c' = perform_all (w_end w) (remote s').
Proof.
  intros Hi0 [s0 Hr0] Hr Hi Hi'.
  destruct (client_rest_sound i sched c c' ops [] (Locking (LRegister (node_keys (RemoteKeys x) keys) keys)) r
    opsf readsf) as (w & _ & Hf & Hrest); try done.
  { eapply run_invariant; eauto using exclusive_step, exclusive_initial. }
  { eapply run_invariant; eauto using distinct_step, distinct_initial. }
  exists w. split; [done|]. split; [intros t; apply to_environment_undisturbed|].
  intros s m Es Hops. specialize (Hrest s Es).
  pose proof (within_acquire_remote 0%Z (to_wakeups (w_lock w)) keys x
    (to_wakeups_undisturbed _ _) s) as Hnode. apply und_node in Hnode.
  unfold outcome_of, client_rest in Hrest.
  change (lock_rest x (LRegister (node_keys (RemoteKeys x) keys) keys)) with
    (λ w, acquire_remote_locks_with_retry w keys x : M (Scheduler S) bool) in Hrest.
  unfold mbind, M_bind in Hrest |- *. simpl in Hrest |- *.
  destruct (acquire_remote_locks_with_retry (to_wakeups (w_lock w)) keys x s) as [[[]|e] s1];
    simpl in Hnode, Hrest.
  - rewrite ops_rest_execute by (intros n op; rewrite Hnode; apply Hops). rewrite drop_0.
    destruct (ops_rest ops [] (w_ops w) s1) as [r' s']. exists s'. by simplify_eq/=.
  - exists s1. by simplify_eq/=.
  - exists s1. by simplify_eq/=.
Qed.
End transaction.
End locks.

(** ** Handlers *)
Section handler_sections.
Context `{Json} `{!Iteration Z} {fails : ServerCall → option exn}.
Implicit Types (t u : thread) (c : config).

(** What a handler that holds the mutex makes of the state by the time it unlocks. *)
Definition section_target (t : thread) (r : RemoteState) : RemoteState :=
  match t with
  | LockResponse peer _ (RUpdate x k granted) =>
      if granted then note_granted x peer k r else erase_pending x r
  | OpResponse peer msg (SStore x k) =>
      match (op_response_value msg tt).1 with
      | Ok v => erase_pending_op x (peer, k) (store_result x k v r)
      | Throw _ => r
      end
  | OpResponse peer _ (SErase x k) => erase_pending_op x (peer, k) r
  | _ => r
  end.

Lemma section_target_next r t e t' :
  next fails r t = Some (e, t') → client_tx t = None → holds t = true →
  (section_target t r = section_target t' (after e r) ∧ holds t' = true) ∨ finished t' = true.
Proof.
  intros Hn Hc Hh. next_cases Hn; auto; left; (split; [|done]); simpl; try done.
  all: by repeat (case_match; simplify_eq/=).
Qed.

Lemma finished_stays i sched c c' t t' :
  run fails sched c = Some c' → exclusive c → distinct c → threads c !! i = Some t →
  finished t = true → threads c' !! i = Some t' → finished t' = true.
Proof.
  intros Hr Hx Hd Hi Ht Hi'.
  destruct (thread_invariant (fails := fails) (λ t, finished t = true) i) with sched c c' t
    as (u & Hu & Hp); [| |done..|by simplify_eq].
  - intros r u e u' Hn Hp. unfold finished in Hp. by repeat (case_match; simplify_eq/=).
  - intros u u' [->|[st Hw]] Hp; [done|]. unfold wake in Hw. by repeat (case_match; simplify_eq/=).
Qed.

(** Nobody else touches the state between a handler's lock and unlock. *)
Lemma handler_section i sched c c' t t' :
  run fails sched c = Some c' → exclusive c → distinct c →
  threads c !! i = Some t → client_tx t = None → holds t = true →
  threads c' !! i = Some t' → holds t' = true →
  section_target t (shared c) = section_target t' (shared c').
Proof.
  revert c t. induction sched as [|a sched IH]; intros c t Hr Hx Hd Hi Hc Hh Hi' Hh';
    simpl in Hr; simplify_eq; [by simplify_eq|].
  apply bind_Some in Hr as (c1 & Hs & Hr).
  pose proof (exclusive_step _ _ _ Hs Hx) as Hx1. pose proof (distinct_step _ _ _ Hs Hd) as Hd1.
  destruct (decide (a = Run i)) as [->|Ha].
  - destruct (own_step _ _ _ _ Hs Hi) as (e & t1 & Hn & Hsh & Hi1).
    destruct (section_target_next _ _ _ _ Hn Hc Hh) as [[-> Hh1]|Hf].
    + rewrite <- Hsh. apply (IH c1); try done. by rewrite (next_client _ _ _ _ Hn).
    + pose proof (finished_stays _ _ _ _ _ _ Hr Hx1 Hd1 Hi1 Hf Hi') as Hf'.
      exfalso. unfold finished in Hf'. by repeat (case_match; simplify_eq/=).
  - destruct (other_step _ _ _ _ _ 0%Z Hs Ha Hx Hd Hi) as (l & t1 & Hi1 & _ & Hsh & _ & Hkeep).
    destruct (Hkeep Hh) as [-> ->]. simpl in Hsh. rewrite <- Hsh. by apply (IH c1).
Qed.

(** What a handler has read from its message. *)
Definition parsed (t : thread) : Prop :=
  match t with
  | LockResponse _ msg (RLock x k g | RUpdate x k g) =>
      (lock_response_fields msg tt).1 = Ok (Some (x, k, g))
  | OpResponse _ msg (SLock x k | SStore x k | SErase x k) =>
      (op_response_fields msg tt).1 = Ok (Some (x, k))
  | _ => True
  end.

Lemma reachable_parsed c0 c i t :
  initial c0 → reachable fails c0 c → threads c !! i = Some t → parsed t.
Proof.
  intros Hi0 [sched Hr] Hi.
  assert (∃ t0, threads c0 !! i = Some t0) as [t0 Ht0].
  { apply lookup_lt_is_Some_2. rewrite <- (length_fmap client_tx).
    apply lookup_lt_Some in Hi. rewrite <- (length_fmap client_tx) in Hi.
    assert (client_tx <$> threads c = client_tx <$> threads c0) as <-; [|done].
    eapply (run_invariant (fails := fails) (λ c, client_tx <$> threads c = client_tx <$> threads c0));
      [|done|done].
    intros a c1 c2 Hs <-. by eapply step_txs. }
  destruct (thread_invariant (fails := fails) parsed i) with sched c0 c t0 as (u & Hu & Hp);
    [| |done|by apply exclusive_initial|by apply distinct_initial|done| |by simplify_eq].
  - intros r u e u' Hn Hp. next_cases Hn; done.
  - intros u u' [->|[st Hw]] Hp; [done|]. unfold wake in Hw. by repeat (case_match; simplify_eq/=).
  - pose proof (Forall_lookup_1 _ _ _ _ (initial_fresh _ Hi0) Ht0) as Hf. simpl in Hf.
    unfold fresh in Hf. by repeat (case_match; simplify_eq/=).
Qed.
End handler_sections.

Section handlers_at_once.
Context {S : Type} `{KVStore S} `{OpExecutor S} `{Json} `{StdHash} `{!Iteration Z}.
Context `{!TransactionServer} {fails : ServerCall → option exn}.
Implicit Types (s : Scheduler S) (c : config).

(** Reading a message does not depend on the state. *)
Lemma lock_response_reads peer msg s :
  handle_lock_response peer msg s =
    (Ok tt, match (lock_response_fields msg tt).1 with
            | Ok (Some (x, k, g)) =>
                set_remote (section_target (LockResponse peer msg (RUpdate x k g)) (remote s)) s
            | _ => s
            end).
Proof.
  unfold lock_response_fields, handle_lock_response, catch_std, catch_all.
  destruct (_ || _); [done|].
  unfold at_, uint64_of, int64_of, string_of, lift_opt, mbind, M_bind.
  destruct (obj_at msg "tx_id") as [v1|]; [|done]. simpl. destruct (as_uint64 v1); [|done]. simpl.
  destruct (obj_at msg "key") as [v2|]; [|done]. simpl. destruct (as_int64 v2); [|done]. simpl.
  destruct (obj_at msg "type") as [v3|]; [|done]. simpl. by destruct (as_string v3).
Qed.

Lemma int64_values_run l s :
  int64_array l s = ((int64_values l tt).1, s).
Proof.
  induction l as [|v l IH]; [done|]. simpl. unfold int64_of, lift_opt, mbind, M_bind in *.
  destruct (as_int64 v); [|done]. simpl. rewrite IH.
  by destruct (int64_values l tt) as [[] []].
Qed.

Lemma op_response_value_raises msg e t :
  op_response_value msg tt = (Throw e, t) → ∃ w, e = StdException w.
Proof.
  assert (Hl : ∀ l, raises (λ e, ∃ w, e = StdException w) (int64_values l)).
  { intros l. induction l as [|v l IH]; simpl; [apply raises_ret|].
    apply raises_bind; [apply raises_lift; eauto|]. intros z.
    apply raises_bind; [done|]. intros zs. apply raises_ret. }
  revert t. cut (raises (λ e, ∃ w, e = StdException w) (op_response_value msg)).
  { intros Hr t He. by eapply Hr. }
  unfold op_response_value. apply raises_bind.
  - destruct (contains msg "value"); [|apply raises_ret].
    apply raises_bind; [apply raises_lift; eauto|]. intros v. apply raises_ret.
  - intros []; [|apply raises_ret]. apply raises_bind; [apply raises_lift; eauto|]. intros v.
    apply raises_bind; [apply raises_lift; eauto|]. done.
Qed.

Lemma op_value_reads msg s :
  (has_value ← (if contains msg "value"
                then v ← at_ msg "value"; mret (negb (is_null v))
                else mret false);
   if (has_value : bool) then v ← at_ msg "value"; l ← array_of v; int64_array l
   else mret []) s = ((op_response_value msg tt).1, s).
Proof.
  unfold op_response_value, contains. destruct (obj_at msg "value") as [v|] eqn:Hv; [|done].
  unfold at_, array_of, lift_opt, mbind, M_bind. simpl. rewrite Hv. simpl.
  destruct (negb (is_null v)); [|done]. simpl.
  destruct (as_array v) as [l|]; [|done]. simpl. rewrite int64_values_run.
  by destruct (int64_values l tt) as [? []].
Qed.

Lemma op_response_reads peer msg s :
  handle_operation_response peer msg s =
    (Ok tt, match (op_response_fields msg tt).1 with
            | Ok (Some (x, k)) =>
                set_remote (section_target (OpResponse peer msg (SStore x k)) (remote s)) s
            | _ => s
            end).
Proof.
  unfold op_response_fields, handle_operation_response, catch_std, catch_all.
  destruct (_ || _); [done|].
  pose proof (op_value_reads msg s) as Hv.
  destruct (obj_at msg "tx_id") as [v1|] eqn:O1.
  2:{ unfold at_, mbind, M_bind, lift_opt. by rewrite O1. }
  destruct (as_uint64 v1) as [x|] eqn:E1.
  2:{ unfold at_, uint64_of, mbind, M_bind, lift_opt. by rewrite O1; simpl; rewrite E1. }
  assert (∀ {T} (t : T), (v ← at_ msg "tx_id"; uint64_of v) t = (Ok x, t)) as Hx
    by (intros; unfold at_, uint64_of, mbind, M_bind, lift_opt; by rewrite O1; simpl; rewrite E1).
  rewrite !(bind_ok _ _ _ _ _ (Hx _ _)).
  destruct (obj_at msg "key") as [v2|] eqn:O2.
  2:{ unfold at_, mbind, M_bind, lift_opt. by rewrite O2. }
  destruct (as_int64 v2) as [k|] eqn:E2.
  2:{ unfold at_, int64_of, mbind, M_bind, lift_opt. by rewrite O2; simpl; rewrite E2. }
  assert (∀ {T} (t : T), (v ← at_ msg "key"; int64_of v) t = (Ok k, t)) as Hk
    by (intros; unfold at_, int64_of, mbind, M_bind, lift_opt; by rewrite O2; simpl; rewrite E2).
  rewrite !(bind_ok _ _ _ _ _ (Hk _ _)). simpl.
  rewrite <- bind_assoc.
  destruct (op_response_value msg tt).1 as [v|e] eqn:Ev.
  - by rewrite (bind_ok _ _ _ _ _ Hv).
  - rewrite (bind_throw _ _ _ _ _ Hv). destruct (op_response_value msg tt) as [[] t] eqn:Et;
      simplify_eq/=. destruct (op_response_value_raises _ _ _ Et) as [w ->]. by destruct s.
Qed.

(** C16. The handlers of lock and operation responses are atomic: in any interleaving, what
    the maps are when such a handler is about to unlock the mutex is what
    handle_lock_response or handle_operation_response, run as one call, makes of them as
    they were when it had taken the mutex. *)
Theorem response_handlers_act_at_once c0 c sched c' i peer msg s :
  initial c0 → reachable fails c0 c → run fails sched c = Some c' → remote s = shared c →
  (∀ x k g, threads c !! i = Some (LockResponse peer msg (RUpdate x k g)) →
     threads c' !! i = Some (LockResponse peer msg RUnlock) →
     handle_lock_response peer msg s = (Ok tt, set_remote (shared c') s)) ∧
  (∀ x k, threads c !! i = Some (OpResponse peer msg (SStore x k)) →
     threads c' !! i = Some (OpResponse peer msg SUnlock) →
     handle_operation_response peer msg s = (Ok tt, set_remote (shared c') s)).
Proof.
  intros Hi0 Hr0 Hr Es. pose proof Hr0 as [s0 Hs0].
  assert (exclusive c) as Hx by (eapply run_invariant; eauto using exclusive_step, exclusive_initial).
  assert (distinct c) as Hd by (eapply run_invariant; eauto using distinct_step, distinct_initial).
  split.
  - intros x k g Hi Hi'. pose proof (reachable_parsed _ _ _ _ Hi0 Hr0 Hi) as Hp.
    pose proof (handler_section _ _ _ _ _ _ Hr Hx Hd Hi eq_refl eq_refl Hi' eq_refl) as Ht.
    rewrite lock_response_reads, Hp, Es, Ht. done.
  - intros x k Hi Hi'. pose proof (reachable_parsed _ _ _ _ Hi0 Hr0 Hi) as Hp.
    pose proof (handler_section _ _ _ _ _ _ Hr Hx Hd Hi eq_refl eq_refl Hi' eq_refl) as Ht.
    rewrite op_response_reads, Hp, Es, Ht. done.
Qed.
End handlers_at_once.

(** ** Witnesses *)
Module RefinementDemo.
Export MonitorDemo.

Lemma demo_after_app l l' :
  is_Some (run no_failures (l ++ l') remote_demo) →
  run no_failures l' (demo_after l) = Some (demo_after (l ++ l')).
Proof.
  unfold demo_after. rewrite run_app. intros [c' Hc].
  destruct (run no_failures l remote_demo) as [c|]; [|done]. simpl in *. by rewrite Hc.
Qed.

(** Transaction 1 from its first access until it has both reads. *)
Definition demo_reads : Reads := [(3%Z, Some [7%Z]); (5%Z, Some [8%Z])].
Definition demo_route : gmap KeyType NodeID := {[3%Z := 1%Z; 5%Z := 1%Z]}.

Lemma transaction_refines_scheduler_witness :
  threads (demo_after ([Run 0] ++ drop 1 with_answers)) !! 0 =
    Some (Client 1 [] demo_reads (Finished (Ok demo_reads))) ∧
  ∃ w s', foreign_all 1 w ∧
    (ok ← acquire_remote_locks_with_retry (env_lock_wait (to_environment w)) demo_keys 1;
     if (ok : bool)
     then execute_operations (to_environment w) demo_route 1 0 (snd <$> reads_3_and_5) []
     else mret []) clustered_node = (Ok demo_reads, s').
Proof.
  assert (threads (demo_after ([Run 0] ++ drop 1 with_answers)) !! 0 =
    Some (Client 1 [] demo_reads (Finished (Ok demo_reads)))) as Hend by (vm_compute; reflexivity).
  split; [exact Hend|].
  destruct (transaction_refines_scheduler (S:=demo_store) no_failures 1 demo_keys reads_3_and_5 0
    remote_demo (demo_after [Run 0]) (drop 1 with_answers)
    (demo_after ([Run 0] ++ drop 1 with_answers)) (Ok demo_reads) [] demo_reads)
    as (w & Hf & _ & Hrest).
  - apply remote_demo_initial.
  - apply demo_after_reachable. eexists. vm_compute. reflexivity.
  - apply demo_after_app. eexists. vm_compute. reflexivity.
  - vm_compute. reflexivity.
  - exact Hend.
  - destruct (Hrest clustered_node demo_route) as (s' & E & _).
    + vm_compute. reflexivity.
    + intros n op. unfold reads_3_and_5. rewrite !elem_of_cons, elem_of_nil.
      intros [[= -> ->]|[[= -> ->]|[]]]; (split; [vm_compute; reflexivity|done]).
    + exists w, s'. exact (conj Hf E).
Defined.

(** The handler of the lock answer, from its first access until it unlocks. *)
Definition before_update : list action := until_lock_wait ++ replicate 2 (Run 1).
Definition update : list action := replicate 2 (Run 1).

Lemma response_handlers_act_at_once_witness :
  threads (demo_after (before_update ++ update)) !! 1 =
    Some (LockResponse 1 (tx_key_message MessageType.LOCK_GRANTED 1 3) RUnlock) ∧
  handle_lock_response 1 (tx_key_message MessageType.LOCK_GRANTED 1 3)
    (set_remote (shared (demo_after before_update)) demo_node) =
  (Ok tt, set_remote (shared (demo_after (before_update ++ update))) demo_node).
Proof.
  assert (threads (demo_after (before_update ++ update)) !! 1 =
    Some (LockResponse 1 (tx_key_message MessageType.LOCK_GRANTED 1 3) RUnlock)) as Hend
    by (vm_compute; reflexivity).
  split; [exact Hend|].
  refine (proj1 (response_handlers_act_at_once (fails := no_failures) remote_demo
    (demo_after before_update) update (demo_after (before_update ++ update)) 1 1
    (tx_key_message MessageType.LOCK_GRANTED 1 3)
    (set_remote (shared (demo_after before_update)) demo_node) remote_demo_initial _ _ eq_refl)
    1%Z 3%Z false _ Hend).
  - apply demo_after_reachable. eexists. vm_compute. reflexivity.
  - apply demo_after_app. eexists. vm_compute. reflexivity.
  - vm_compute. reflexivity.
Defined.
End RefinementDemo.
