(* ===== verification/Distributed.v ===== *)
(** * A distributed transaction, end to end

    One node runs a transaction whose keys live on several nodes, the other
    nodes serve its messages with the handlers of [Handlers], and their
    answers come back to the waiting node.  What is handled is what the channel
    between the nodes makes of a message.  Over the text that [Peer] sends, the
    messages of a transaction with an id below [2 ^ 63] are dropped on arrival
    and the transaction ends at its deadline; over a channel that keeps the
    fields of the messages, as text does for larger ids, the cluster is compared
    with running the transaction on a single map. *)
From S2P Require Import Prelude Operations KVStore LockManager Json Coordinator Scheduler.
From S2P Require Import SchedulerLocal Handlers SchedulerRemote.

(** A store that is a function: the reference the cluster is compared with. *)
#[export] Instance fun_store : KVStore (KeyType → option ValueContainer) := {|
  kv_get f k := f k;
  kv_append f k v := λ k', if decide (k = k') then Some (default [] (f k) ++ [v]) else f k';
|}.

#[export] Instance fun_store_spec : KVStoreSpec (KeyType → option ValueContainer).
Proof. by intros f k v k'. Qed.

(** The nodes of a cluster other than the one that runs the transaction. *)
Abbreviation Cluster S := (gmap NodeID (Scheduler S)) (only parsing).

Section cluster.
Context {S : Type} `{KVStore S} `{OpExecutor S} `{Json} `{StdHash} `{!Iteration Z}
  `{!TransactionServer}.
Implicit Types (s : Scheduler S) (t : TransactionId) (tx : Transaction).

(** ** The other nodes *)
Implicit Types (c : Cluster S).

(** What arrives of a message that is sent. *)
Context (channel : object → object).

(** Node [p] handles a message from node [me]. *)
Definition handled (me : NodeID) (msg : object) (q : Scheduler S) : Scheduler S :=
  (handle_peer_message no_interference me (channel msg) q).2.
Definition serve (me p : NodeID) (msg : object) (c : Cluster S) : Cluster S :=
  alter (handled me msg) p c.

(** What it sends back meanwhile. *)
Definition replies (me p : NodeID) (msg : object) (c : Cluster S) : list object :=
  match c !! p with
  | Some q =>
      omap (λ call, match call with
                    | Send to m => if decide (to = me) then Some m else None
                    | Startup _ _ => None
                    end) (drop (length (calls q)) (calls (handled me msg q)))
  | None => []
  end.

(** A message of [p] arrives while a thread of the node waits. *)
Definition deliver (p : NodeID) (msg : object) : cv_status * (Scheduler S → Scheduler S) :=
  (no_timeout, handled p msg).
Definition answers (me p : NodeID) (msg : object) (c : Cluster S) : Wakeups :=
  deliver p <$> replies me p msg c.

(** A sequence of messages, served in the order they were sent. *)
Definition serve_call (me : NodeID) (c : Cluster S) (call : ServerCall) : Cluster S :=
  match call with Send p msg => serve me p msg c | Startup _ _ => c end.
Definition serve_all (me : NodeID) (sent : list ServerCall) (c : Cluster S) : Cluster S :=
  foldl (serve_call me) c sent.
Fixpoint answers_all (me : NodeID) (sent : list ServerCall) (c : Cluster S) : Wakeups :=
  match sent with
  | [] => []
  | call :: sent' =>
      match call with Send p msg => answers me p msg c | Startup _ _ => [] end ++
      answers_all me sent' (serve_call me c call)
  end.

Lemma serve_all_app me l1 l2 c :
  serve_all me (l1 ++ l2) c = serve_all me l2 (serve_all me l1 c).
Proof. apply foldl_app. Qed.

Lemma is_Some_serve_all me l c p : is_Some (serve_all me l c !! p) ↔ is_Some (c !! p).
Proof.
  revert c. induction l as [|[|n msg] l IH]; intros c; [done|apply IH|].
  etrans; [apply IH|]. simpl. unfold serve. rewrite lookup_alter.
  case_decide; [subst|done]. by rewrite fmap_is_Some.
Qed.

(** ** The messages of a transaction *)

(** The lock requests, in the order [acquire_remote_locks_with_retry] sends them. *)
Definition lock_requests t tx s : list (NodeID * KeyType) :=
  match (categorize tx ∅ ∅ s).1 with
  | Ok (_, n) => node_keys (RemoteKeys t) (delete (local_node_id (node s)) n)
  | Throw _ => []
  end.

(** The operation requests. *)
Definition op_calls (nd : NodeState) t tx : list ServerCall :=
  op ← tx;
  if decide (route nd (op_key op) = local_node_id nd) then []
  else [Send (route nd (op_key op)) (op_request t op)].

(** The environment in which the other nodes answer: the lock requests are
    answered in order; each operation request is answered after the messages
    before it were served.  [late i] are lock responses that arrive only
    during the wait of operation [i]. *)
Definition cluster_env (late : nat → list (NodeID * object)) t tx s c : Environment :=
  let me := local_node_id (node s) in
  let locks := lock_messages MessageType.LOCK_REQUEST t (lock_requests t tx s) in
  {| env_acquire := λ _, no_interference;
     env_lock_wait := answers_all me locks c;
     env_op_wait := λ i,
       only_wakeups (((λ x, deliver x.1 x.2) <$> late i) ++
       match tx !! i with
       | Some op =>
           answers me (route (node s) (op_key op)) (op_request t op)
             (serve_all me (locks ++ op_calls (node s) t (take i tx)) c)
       | None => []
       end) |}.

Definition is_lock_response t (msg : object) : Prop :=
  ∃ type k, (type = MessageType.LOCK_GRANTED ∨ type = MessageType.LOCK_DENIED) ∧
    msg = tx_key_message type t k.

(** ** The cluster seen as one store and one lock table

    A key's value and lock are those at its primary node. *)
Definition view (nd : NodeState) (st : S) (c : Cluster S) : KeyType → option ValueContainer := λ k,
  if decide (route nd k = local_node_id nd) then kv_get st k
  else q ← c !! route nd k; kv_get (store q) k.

Definition peer_owner (c : Cluster S) (p : NodeID) (k : KeyType) : option TransactionId :=
  q ← c !! p; owner_of (lock_manager q) k.

Definition owner_in (nd : NodeState) (l : LockManager) (c : Cluster S) (k : KeyType)
    : option TransactionId :=
  if decide (route nd k = local_node_id nd) then owner_of l k else peer_owner c (route nd k) k.

(** The reads a distributed transaction reports: those of a local key as on
    one node; for a remote key every operation is reported, a missing value
    as an empty list. *)
Fixpoint cluster_reads (nd : NodeState) tx (st : KeyType → option ValueContainer) : Reads :=
  match tx with
  | [] => []
  | op :: tx' =>
      (if decide (route nd (op_key op) = local_node_id nd) then op_reads op st
       else [(op_key op, Some (default [] (remote_reply op st)))]) ++
      cluster_reads nd tx' (apply_op op st)
  end.
(** A request is granted when nobody else has the lock. *)
Definition grantable t (o : option TransactionId) : bool :=
  match o with Some o => bool_decide (o = t) | None => true end.
Definition verdict t (o : option TransactionId) : string :=
  if grantable t o then MessageType.LOCK_GRANTED else MessageType.LOCK_DENIED.
Definition owner_after t (o : option TransactionId) : option TransactionId :=
  if grantable t o then Some t else o.

Lemma verdict_cases t o :
  verdict t o = MessageType.LOCK_GRANTED ∨ verdict t o = MessageType.LOCK_DENIED.
Proof. unfold verdict. destruct (grantable t o); auto. Qed.

(** The nodes that serve the keys are there, and the local keys are free. *)
Record ready t tx s c : Prop := {
  ready_config : well_configured (node s);
  ready_tracked : tracked t (lock_manager s);
  ready_peers k : k ∈ tx_keys tx → route (node s) k ≠ local_node_id (node s) →
    is_Some (c !! route (node s) k);
  ready_local k : k ∈ keys_at (node s) tx (local_node_id (node s)) →
    available (lock_manager s) t k;
}.

(** So are the remote ones. *)
Definition uncontended t tx s c : Prop :=
  ∀ k, k ∈ tx_keys tx → route (node s) k ≠ local_node_id (node s) →
    grantable t (peer_owner c (route (node s) k) k) = true.

(** A channel that delivers the messages of a transaction with their fields. *)
Definition keeps_fields t : Prop := ∀ msg, peer_message t msg → same_fields (channel msg) msg.
End cluster.

Section serving.
Context {S : Type} `{KVStore S} `{!KVStoreSpec S} `{OpExecutor S} `{!OpExecutorSpec S}
  `{Json} `{!JsonSpec} `{StdHash} `{!Iteration Z} `{!TransactionServer}.
Context (Hok : ∀ cs c, call_throws cs c = None).
Context (channel : object → object) (t : TransactionId) (Hch : keeps_fields channel t).
Implicit Types (s q : Scheduler S) (tx : Transaction) (c : Cluster S).

(** ** One message *)

(** Then it is handled as if it had been passed on as it is. *)
Lemma handled_fields me msg q :
  peer_message t msg → handled channel me msg q = (handle_peer_message no_interference me msg q).2.
Proof. intros Hm. unfold handled. by rewrite (handle_peer_message_fields _ _ _ msg) by by apply Hch. Qed.

Lemma handled_lock_request me k q :
  let o := owner_of (lock_manager q) k in
  ∃ l, handled channel me (tx_key_message MessageType.LOCK_REQUEST t k) q =
         set_calls (calls q ++ [Send me (tx_key_message (verdict t o) t k)])
           (set_lock_manager l q) ∧
    (∀ k', owner_of l k' = if decide (k' = k) then owner_after t o
                           else owner_of (lock_manager q) k').
Proof.
  intros o. destruct (tx_key_message_fields MessageType.LOCK_REQUEST t k) as [Hf Hty].
  assert (∃ r l, acquire no_interference k t (lock_manager q) = (Ok r, l) ∧
    match r with ACQUIRED => MessageType.LOCK_GRANTED | ABORTED => MessageType.LOCK_DENIED end =
      verdict t o ∧
    (∀ k', owner_of l k' = if decide (k' = k) then owner_after t o
                           else owner_of (lock_manager q) k')) as (r & l & Hacq & Hr & Ho).
  { rewrite acquire_alone. fold o. unfold verdict, owner_after, grantable. cbn zeta.
    assert (Hown : ∀ k', owner_of (track_key k t (emplace_entry k (lock_manager q))) k' =
                         owner_of (lock_manager q) k').
    { intros k'. change (owner_of (track_key k t ?l0)) with (owner_of l0).
      apply owner_of_emplace. }
    destruct o as [o0|] eqn:E; eexists _, _; (split; [done|]).
    - case_bool_decide; case_decide; try done; (split; [done|]); intros k'; rewrite Hown;
        case_decide; subst; done.
    - split; [done|]. intros k'. rewrite owner_of_set_owner, Hown. by repeat case_decide. }
  exists l. split; [|done]. rewrite handled_fields by constructor. rewrite (dispatch _ _ _ _ _ Hty). cbv zeta.
  rewrite decide_True by done.
  by rewrite (handle_lock_request_run no_interference me _ t k q r l Hf Hacq (Hok _ _)), Hr.
Qed.

Lemma handled_lock_release me k q :
  handled channel me (tx_key_message MessageType.LOCK_RELEASE t k) q =
    set_lock_manager (release k t (lock_manager q)) q.
Proof. rewrite handled_fields by constructor. by rewrite handle_lock_release_run. Qed.

Lemma handled_lock_response me msg q :
  is_lock_response t msg → handled channel me msg q = set_remote (erase_pending t (remote q)) q.
Proof.
  intros (type & k & Htype & ->). rewrite handled_fields.
  2: destruct Htype as [-> | ->]; constructor.
  destruct (tx_key_message_fields type t k) as [Hf Hty].
  by rewrite (handle_peer_message_response no_interference _ _ _ _ _ _ Htype Hf Hty).
Qed.

Lemma handled_op_request me op q :
  handled channel me (op_request t op) q =
    set_calls (calls q ++ [Send me (op_response t (op_key op) (remote_reply op (store q)))])
      (set_store (apply_op op (store q)) q).
Proof.
  assert (Hty : obj_at (op_request t op) "type" = Some (v_string MessageType.OP_REQUEST)).
  { unfold op_request, tx_key_message. destruct op; simpl; by jred. }
  rewrite handled_fields by constructor. rewrite (dispatch _ _ _ _ _ Hty). cbv zeta.
  rewrite !decide_False by (done || naive_solver). rewrite decide_True by done.
  by rewrite handle_operation_request_run.
Qed.

Lemma handled_op_response p k r q :
  handled channel p (op_response t k r) q =
    set_remote (erase_pending_op t (p, k) (store_result t k (default [] r) (remote q))) q.
Proof.
  assert (Hty : obj_at (op_response t k r) "type" = Some (v_string MessageType.OP_RESPONSE)).
  { unfold op_response, tx_key_message. by jred. }
  rewrite handled_fields by constructor. rewrite (dispatch _ _ _ _ _ Hty). cbv zeta.
  rewrite !decide_False by (done || naive_solver). rewrite decide_True by done.
  by rewrite handle_operation_response_run.
Qed.

(** The answer to a message is what its handler sends to the node that asked. *)
Lemma answers_one me p msg c q r q' :
  c !! p = Some q → handled channel me msg q = set_calls (calls q ++ [Send me r]) q' →
  answers channel me p msg c = [deliver channel p r].
Proof.
  intros Hq Hh. unfold answers, replies. rewrite Hq, Hh. simpl.
  rewrite drop_app_length. simpl. by rewrite decide_True.
Qed.

(** ** The locking phase at the peers *)
Definition same_stores c c' : Prop := ∀ p, store <$> c' !! p = store <$> c !! p.

Lemma same_stores_serve me p msg c :
  (∀ q, c !! p = Some q → store (handled channel me msg q) = store q) → same_stores c (serve channel me p msg c).
Proof.
  intros Hst p'. unfold serve. rewrite lookup_alter. case_decide; [subst|done].
  destruct (c !! p') as [q|]; simpl; [|done]. by rewrite Hst.
Qed.

Lemma peer_owner_serve me p msg c p' k :
  peer_owner (serve channel me p msg c) p' k =
    if decide (p = p') then q ← c !! p; owner_of (lock_manager (handled channel me msg q)) k
    else peer_owner c p' k.
Proof.
  unfold peer_owner, serve. rewrite lookup_alter. case_decide; [subst|done].
  by destruct (c !! p').
Qed.

(** Every request is answered; those for keys that are not locked are granted. *)
Lemma serve_lock_requests me l c :
  (∀ p k, (p, k) ∈ l → is_Some (c !! p)) →
  let c' := serve_all channel me (lock_messages MessageType.LOCK_REQUEST t l) c in
  same_stores c c' ∧
  (∀ p k, peer_owner c' p k = if decide ((p, k) ∈ l) then owner_after t (peer_owner c p k)
                              else peer_owner c p k) ∧
  answers_all channel me (lock_messages MessageType.LOCK_REQUEST t l) c =
    (λ p, deliver channel p.1 (tx_key_message (verdict t (peer_owner c p.1 p.2)) t p.2)) <$> l.
Proof.
  assert (Htwice : ∀ o, owner_after t (owner_after t o) = owner_after t o).
  { intros [o|]; unfold owner_after; simpl; repeat (case_bool_decide; simpl); congruence. }
  assert (Hverdict : ∀ o, verdict t (owner_after t o) = verdict t o).
  { intros [o|]; unfold verdict, owner_after; simpl; repeat (case_bool_decide; simpl); congruence. }
  revert c. induction l as [|[p k] l IH]; intros c Hc; cbn zeta.
  { split_and!; [done| |done]. intros p k. by rewrite decide_False by apply not_elem_of_nil. }
  destruct (Hc p k) as [q Hq]; [by left|].
  destruct (handled_lock_request me k q) as (lk & Hh & Ho).
  set (c1 := serve channel me p (tx_key_message MessageType.LOCK_REQUEST t k) c).
  assert (Ho1 : ∀ p' k', peer_owner c1 p' k' =
     if decide ((p', k') = (p, k)) then owner_after t (peer_owner c p' k') else peer_owner c p' k').
  { intros p' k'. unfold c1. rewrite peer_owner_serve. case_decide as E; [subst p'|].
    - unfold peer_owner. rewrite Hq. simpl. rewrite Hh. simpl. rewrite Ho.
      repeat case_decide; naive_solver.
    - by rewrite decide_False by congruence. }
  destruct (IH c1) as (Hst & Hown & Hans).
  { intros p' k' Hin. apply (is_Some_serve_all channel me [Send p _] c p'), (Hc p' k'). by right. }
  split_and!.
  - intros p'. etrans; [apply Hst|]. apply same_stores_serve. intros q0 Hq0.
    assert (q0 = q) as -> by congruence. by rewrite Hh.
  - intros p' k'. etrans; [apply Hown|]. rewrite Ho1.
    destruct (decide ((p', k') = (p, k))) as [E|E].
    + rewrite Htwice. rewrite (decide_True (P := _ ∈ (p, k) :: l)) by (rewrite E; by left).
      by case_decide.
    + apply decide_ext. rewrite elem_of_cons. naive_solver.
  - cbn [lock_messages fmap list_fmap answers_all serve_call]. simpl.
    rewrite (answers_one _ _ _ _ _ _ _ Hq Hh). simpl.
    assert (peer_owner c p k = owner_of (lock_manager q) k) as ->
      by (unfold peer_owner; by rewrite Hq).
    f_equal. etrans; [apply Hans|]. apply list_fmap_ext. intros i [p' k'] _. simpl.
    rewrite Ho1. case_decide; [by rewrite Hverdict|done].
Qed.

(** ** The shrinking phase at the peers *)
Lemma serve_lock_releases me l c :
  let c' := serve_all channel me (lock_messages MessageType.LOCK_RELEASE t l) c in
  same_stores c c' ∧
  (∀ p k, peer_owner c' p k =
     if decide ((p, k) ∈ l ∧ peer_owner c p k = Some t) then None else peer_owner c p k).
Proof.
  revert c. induction l as [|[p k] l IH]; intros c; cbn zeta.
  { split; [done|]. intros p k. rewrite decide_False; [done|].
    by intros [?%not_elem_of_nil _]. }
  set (c1 := serve channel me p (tx_key_message MessageType.LOCK_RELEASE t k) c).
  assert (Ho1 : ∀ p' k', peer_owner c1 p' k' =
     if decide ((p', k') = (p, k) ∧ peer_owner c p' k' = Some t) then None
     else peer_owner c p' k').
  { intros p' k'. unfold c1. rewrite peer_owner_serve. case_decide as E; [subst p'|].
    - unfold peer_owner. destruct (c !! p) as [q|]; simpl; [|by case_decide].
      rewrite handled_lock_release. simpl. rewrite owner_of_release.
      repeat case_decide; naive_solver.
    - by rewrite decide_False by naive_solver. }
  destruct (IH c1) as [Hst Hown]. split.
  - intros p'. etrans; [apply Hst|]. apply same_stores_serve. intros q _.
    by rewrite handled_lock_release.
  - intros p' k'. etrans; [apply Hown|]. rewrite Ho1. repeat case_decide; set_solver.
Qed.

(** ** One remote operation *)

(** Lock responses that arrive late do not end the wait for an operation. *)
Lemma op_wait_late late rest p s :
  Forall (is_lock_response t ∘ snd) late →
  p ∈ ops_at t (remote s) →
  ∃ r, op_wait (((λ x, deliver channel x.1 x.2) <$> late) ++ rest) t p s =
         op_wait rest t p (set_remote r s) ∧ p ∈ ops_at t r.
Proof.
  intros Hlate. revert s. induction Hlate as [|[n msg] late Hmsg _ IH]; intros s Hp.
  { exists (remote s). split; [by destruct s|done]. }
  rewrite fmap_cons, <- app_comm_cons. cbn [op_wait deliver fst snd].
  rewrite bind_gets, bool_decide_eq_true_2 by done. rewrite bind_modify.
  rewrite (handled_lock_response n msg s Hmsg).
  destruct (IH (set_remote (erase_pending t (remote s)) s)) as (r & -> & Hr); [done|].
  by exists r.
Qed.

(** The answer of the primary arrives before the deadline. *)
Lemma remote_operation_answered late me p op q c s :
  Forall (is_lock_response t ∘ snd) late → c !! p = Some q →
  ∃ r, execute_remote_operation (only_wakeups
         (((λ x, deliver channel x.1 x.2) <$> late) ++ answers channel me p (op_request t op) c)) p t op s =
       (Ok (Some (default [] (remote_reply op (store q)))),
        set_calls (calls s ++ [Send p (op_request t op)]) (set_remote r s)).
Proof.
  intros Hlate Hq. rewrite (answers_one _ _ _ _ _ _ _ Hq (handled_op_request me op q)).
  unfold execute_remote_operation, catch_all.
  rewrite bind_modify, bind_on_remote, (bind_ok _ _ _ _ _ (send_ok _ _ _ (Hok _ _))), bind_modify.
  cbn [only_wakeups before_call before_wait op_wakeups before_result id].
  match goal with |- context [set_calls ?x ?y] => set (s1 := set_calls x y) end.
  destruct (op_wait_late late [deliver channel p (op_response t (op_key op) (remote_reply op (store q)))]
    (p, op_key op) s1 Hlate) as (r & Hw & Hr).
  { unfold s1, ops_at, add_pending_op; simpl. rewrite set_at_insert, decide_True by done. set_solver. }
  unfold mbind at 1, M_bind at 1. rewrite Hw. cbn [op_wait deliver].
  rewrite bind_gets, bool_decide_eq_true_2 by done. rewrite bind_modify, handled_op_response.
  rewrite bind_gets, bool_decide_eq_false_2.
  2: { simpl. unfold ops_at at 1, erase_pending_op; simpl.
       rewrite set_at_insert, decide_True by done. set_solver. }
  eexists. unfold mret, M_ret, gets. f_equal. do 2 f_equal. simpl.
  rewrite lookup_insert_eq. simpl. by rewrite lookup_insert_eq.
Qed.

(** ** The execution phase *)
Section operations.
Context (nd : NodeState) (late : nat → list (NodeID * object)).
Context (Hlate : ∀ i, Forall (is_lock_response t ∘ snd) (late i)).
#[local] Abbreviation me := (local_node_id nd).

Definition served_ops (env : Environment) (i : nat) tx c : Prop :=
  ∀ j op, tx !! j = Some op → route nd (op_key op) ≠ me →
    env_op_wait env (i + j) = only_wakeups
      (((λ x, deliver channel x.1 x.2) <$> late (i + j)) ++
       answers channel me (route nd (op_key op)) (op_request t op)
         (serve_all channel me (op_calls nd t (take j tx)) c)).

Lemma op_calls_cons op tx :
  op_calls nd t (op :: tx) =
    (if decide (route nd (op_key op) = me) then []
     else [Send (route nd (op_key op)) (op_request t op)]) ++ op_calls nd t tx.
Proof. done. Qed.

Lemma op_calls_one op tx : op_calls nd t (op :: tx) = op_calls nd t [op] ++ op_calls nd t tx.
Proof. rewrite (op_calls_cons op tx), (op_calls_cons op []). simpl. by rewrite app_nil_r. Qed.

Lemma served_ops_tail env i op tx c :
  served_ops env i (op :: tx) c →
  served_ops env (Datatypes.S i) tx (serve_all channel me (op_calls nd t [op]) c).
Proof.
  intros Hs j op' Hj Hne. specialize (Hs (Datatypes.S j) op' Hj Hne).
  rewrite Nat.add_succ_r in Hs. rewrite Nat.add_succ_l, Hs. do 2 f_equal.
  cbn [take]. by rewrite (op_calls_one op (take j tx)), serve_all_app.
Qed.

(** A local operation changes the local store ... *)
Lemma view_local op st c k :
  route nd (op_key op) = me →
  view nd (apply_op op st) c k = apply_op op (view nd st c) k.
Proof.
  intros Hr. unfold view. destruct op as [k0|k0 x]; simpl in *; [done|].
  rewrite kv_get_append. repeat case_decide; naive_solver.
Qed.

(** ... and a remote one that of the key's primary. *)
Lemma view_remote op st c k :
  route nd (op_key op) ≠ me → is_Some (c !! route nd (op_key op)) →
  view nd st (serve channel me (route nd (op_key op)) (op_request t op) c) k =
    apply_op op (view nd st c) k.
Proof.
  intros Hr [q Hq]. unfold view, serve. rewrite lookup_alter.
  destruct op as [k0|k0 x]; simpl in *.
  - case_decide as E; [done|]. case_decide as E'; [|done].
    rewrite <- E', Hq. simpl. by rewrite handled_op_request.
  - case_decide as E; [by rewrite decide_False by congruence|].
    case_decide as E'; [|by rewrite decide_False by congruence].
    rewrite <- E', Hq. simpl. rewrite handled_op_request. simpl. rewrite kv_get_append.
    case_decide; [|done]. by rewrite decide_False.
Qed.

Lemma apply_op_ext op (V W : KeyType → option ValueContainer) :
  (∀ k, V k = W k) → ∀ k, apply_op op V k = apply_op op W k.
Proof. intros E k. destruct op; simpl; [done|]. by rewrite !E. Qed.

(** One operation, local or remote: what it reports and what it changes. *)
Lemma execute_operation_cluster env m i op tx res s c V :
  node s = nd → m !! op_key op = Some (route nd (op_key op)) →
  (route nd (op_key op) ≠ me → is_Some (c !! route nd (op_key op))) →
  served_ops env i (op :: tx) c → (∀ k, V k = view nd (store s) c k) →
  ∃ r st, execute_operations env m t i (op :: tx) res s =
      execute_operations env m t (Datatypes.S i) tx (res ++ cluster_reads nd [op] V)
        (set_calls (calls s ++ op_calls nd t [op]) (set_remote r (set_store st s))) ∧
    ∀ k, apply_op op V k = view nd st (serve_all channel me (op_calls nd t [op]) c) k.
Proof.
  intros Hnd Hm Hc Hs HV. cbn [execute_operations]. rewrite bind_gets, Hm, Hnd. cbn beta zeta.
  cbn [default id].
  pose proof (apply_op_ext op V _ HV) as HV'.
  rewrite op_calls_cons. cbn [cluster_reads].
  destruct (decide (route nd (op_key op) = me)) as [Hl|Hr].
  - destruct (visit_spec op new_executor (store s)) as (v & Hv & Hres).
    pose proof (execute_locally_run op s) as Hop. rewrite Hv in Hop.
    rewrite (bind_ok _ _ _ _ _ Hop). exists (remote s), (apply_op op (store s)). split.
    + simpl. rewrite !app_nil_r. do 2 f_equal.
      destruct op as [k|k x]; simpl in *; [|done].
      rewrite Hres, HV by done. unfold view. by rewrite decide_True.
    + intros k. rewrite HV'. symmetry. by apply view_local.
  - destruct (Hc Hr) as [q Hq]. pose proof (Hs 0 op eq_refl Hr) as Hw.
    rewrite Nat.add_0_r in Hw. rewrite Hw. cbn [take].
    destruct (remote_operation_answered (late i) me (route nd (op_key op)) op q c s
      (Hlate i) Hq) as (r & Hrun).
    change (serve_all channel me (op_calls nd t []) c) with c. rewrite (bind_ok _ _ _ _ _ Hrun).
    exists r, (store s). split.
    + simpl. do 5 f_equal.
      destruct op as [k|k x]; simpl in *; [|done]. rewrite HV. unfold view.
      rewrite decide_False by done. by rewrite Hq.
    + intros k. rewrite HV'. symmetry. simpl. by apply view_remote.
Qed.

Lemma execute_operations_cluster env m i tx res s c V :
  node s = nd → (∀ k, k ∈ tx_keys tx → m !! k = Some (route nd k)) →
  (∀ k, k ∈ tx_keys tx → route nd k ≠ me → is_Some (c !! route nd k)) →
  served_ops env i tx c → (∀ k, V k = view nd (store s) c k) →
  ∃ r st, execute_operations env m t i tx res s =
      (Ok (res ++ cluster_reads nd tx V),
       set_calls (calls s ++ op_calls nd t tx) (set_remote r (set_store st s))) ∧
    ∀ k, apply_tx tx V k = view nd st (serve_all channel me (op_calls nd t tx) c) k.
Proof.
  revert i res s c V. induction tx as [|op tx IH]; intros i res s c V Hnd Hm Hc Hs HV.
  { exists (remote s), (store s). simpl. rewrite !app_nil_r. by destruct s. }
  destruct (execute_operation_cluster env m i op tx res s c V) as (r1 & st1 & -> & HV1);
    [done|apply Hm; set_solver|apply Hc; set_solver|done|done|].
  set (c1 := serve_all channel me (op_calls nd t [op]) c) in *.
  destruct (IH (Datatypes.S i) (res ++ cluster_reads nd [op] V)
    (set_calls (calls s ++ op_calls nd t [op]) (set_remote r1 (set_store st1 s))) c1
    (apply_op op V)) as (r & st & -> & HV2).
  - done.
  - intros k Hk. apply Hm. set_solver.
  - intros k Hk Hr. unfold c1. apply is_Some_serve_all, Hc; [set_solver|done].
  - by apply served_ops_tail.
  - done.
  - exists r, st. split.
    + rewrite (op_calls_one op tx), (assoc_L (++) (calls s)). do 2 f_equal.
      cbn [cluster_reads]. by rewrite app_nil_r, <- (assoc_L (++)).
    + intros k. cbn [apply_tx]. rewrite HV2, (op_calls_one op tx). unfold c1.
      by rewrite serve_all_app.
Qed.

(** Operations do not touch the peers' locks. *)
Lemma peer_owner_ops tx c p k :
  peer_owner (serve_all channel me (op_calls nd t tx) c) p k = peer_owner c p k.
Proof.
  revert c. induction tx as [|op tx IH]; intros c; [done|].
  rewrite op_calls_cons, serve_all_app, IH. case_decide; [done|]. simpl.
  rewrite peer_owner_serve. case_decide; [subst|done]. unfold peer_owner.
  destruct (c !! _) as [q|]; [|done]. simpl. by rewrite handled_op_request.
Qed.
End operations.

(** ** The whole transaction *)

Lemma view_same_stores nd st c c' k : same_stores c c' → view nd st c' k = view nd st c k.
Proof.
  intros Hc. unfold view. case_decide; [done|]. specialize (Hc (route nd k)).
  destruct (c' !! route nd k), (c !! route nd k); simpl in *; congruence.
Qed.

Section whole.
Context (tx : Transaction) (s : Scheduler S) (c : Cluster S).
Context (Hready : ready t tx s c).
#[local] Abbreviation nd := (node s).
#[local] Abbreviation me := (local_node_id (node s)).
#[local] Abbreviation locks := (lock_messages MessageType.LOCK_REQUEST t (lock_requests t tx s)).

Lemma elem_of_lock_requests p k :
  (p, k) ∈ lock_requests t tx s ↔ p ≠ me ∧ k ∈ keys_at nd tx p.
Proof.
  destruct (categorize_grouped tx s (ready_config _ _ _ _ Hready)) as (m & n & Hcat & Hn & _).
  unfold lock_requests. rewrite Hcat. simpl. by apply grouped_remote.
Qed.

Lemma ready_requests p k : (p, k) ∈ lock_requests t tx s → is_Some (c !! p).
Proof.
  rewrite elem_of_lock_requests, elem_of_keys_at. intros (Hp & Hk & <-).
  by apply (ready_peers _ _ _ _ Hready).
Qed.

(** The growing phase: local locks taken, remote locks requested and answered. *)
Lemma cluster_locks late n m :
  categorize tx ∅ ∅ s = (Ok (m, n), s) → grouped nd tx n →
  ∃ l r, acquire_all_locks (cluster_env channel late t tx s c) n t s =
      (Ok true, set_calls (calls s ++ locks) (set_remote r (set_lock_manager l s))) ∧
    tracked t l ∧
    (∀ k, owner_of l k = if decide (k ∈ keys_at nd tx me) then Some t
                         else owner_of (lock_manager s) k).
Proof.
  intros Hcat Hn. unfold acquire_all_locks. rewrite bind_gets.
  destruct (acquire_local_available (iter_order (LocalKeys t) (set_at n me)) t s) as (l & Hacq & Ho & Htr).
  { intros k. rewrite elem_of_iter_order, (grouped_keys _ _ _ Hn), elem_of_keys_at.
    intros Hk. apply (ready_local _ _ _ _ Hready). by rewrite elem_of_keys_at. }
  cbn [env_acquire cluster_env]. rewrite (bind_ok _ _ _ _ _ Hacq). cbn beta iota.
  assert (Hreq : lock_requests t tx s = node_keys (RemoteKeys t) (delete me n))
    by (unfold lock_requests; by rewrite Hcat).
  assert (Hpost : tracked t l ∧ ∀ k, owner_of l k =
    if decide (k ∈ keys_at nd tx me) then Some t else owner_of (lock_manager s) k).
  { split; [apply Htr, Hready|]. intros k. rewrite Ho. apply decide_ext.
    by rewrite elem_of_iter_order, (grouped_keys _ _ _ Hn). }
  rewrite Hreq. case_decide as Hd.
  { exists l, (remote s). split; [|done]. rewrite Hd.
    assert (node_keys (RemoteKeys t) ∅ = []) as -> by apply node_keys_empty. simpl.
    rewrite app_nil_r. by destruct s. }
  destruct (serve_lock_requests me (lock_requests t tx s) c ready_requests) as (_ & _ & Hans).
  cbn [env_lock_wait cluster_env]. rewrite Hans, Hreq.
  destruct (node_keys (RemoteKeys t) (delete me n)) as [|[p k] rest] eqn:Hnk.
  { by destruct (Hd (grouped_remote_nil _ _ _ _ Hn Hnk)). }
  rewrite fmap_cons.
  pose proof (tx_key_message_fields (verdict t (peer_owner c p k)) t k) as [Hf Hty].
  assert (Hpm : peer_message t (tx_key_message (verdict t (peer_owner c p k)) t k)).
  { destruct (verdict_cases t (peer_owner c p k)) as [-> | ->]; constructor. }
  destruct (acquire_remote_any_response p
    (channel (tx_key_message (verdict t (peer_owner c p k)) t k)) (verdict t (peer_owner c p k)) k
    (delete me n) t
    ((λ p, deliver channel p.1 (tx_key_message (verdict t (peer_owner c p.1 p.2)) t p.2)) <$> rest)
    (set_lock_manager l s) Hok (verdict_cases _ _)) as (r & Hr & _).
  { destruct Hf. split; by rewrite (Hch _ Hpm). }
  { by rewrite (Hch _ Hpm). }
  exists l, r. split; [|done]. rewrite <- Hnk. exact (bind_ok _ _ _ _ _ Hr).
Qed.

(** The locks at the end. *)
Lemma locks_freed l releases k :
  (∀ k, owner_of l k = if decide (k ∈ keys_at nd tx me) then Some t
                       else owner_of (lock_manager s) k) →
  tracked t l → releases ≡ₚ lock_requests t tx s → uncontended t tx s c →
  let o := owner_in nd (release_all t l)
    (serve_all channel me (locks ++ op_calls nd t tx ++ lock_messages MessageType.LOCK_RELEASE t releases) c)
    k in
  (k ∈ tx_keys tx → o = None) ∧
  (k ∉ tx_keys tx → owner_in nd (lock_manager s) c k ≠ Some t →
   o = owner_in nd (lock_manager s) c k).
Proof.
  intros Ho Htr Hperm Hfree' o. unfold o, owner_in.
  destruct (release_all_post t l Htr) as (_ & Hfree & _).
  case_decide as Hl.
  - pose proof (elem_of_keys_at nd tx me k) as Hkeys. rewrite Hfree, Ho. split; intros Hk.
    + rewrite (decide_True (P := k ∈ _)) by naive_solver. by rewrite decide_True.
    + intros Hne. rewrite (decide_False (P := k ∈ _)) by naive_solver. by rewrite decide_False.
  - rewrite serve_all_app, serve_all_app.
    set (c2 := serve_all channel me (op_calls nd t tx) (serve_all channel me locks c)).
    destruct (serve_lock_releases me releases c2) as [_ ->].
    assert (Hin : (route nd k, k) ∈ lock_requests t tx s ↔ k ∈ tx_keys tx).
    { rewrite elem_of_lock_requests, elem_of_keys_at. naive_solver. }
    assert (Hrel : (route nd k, k) ∈ releases ↔ k ∈ tx_keys tx) by (by rewrite Hperm).
    assert (Hc2 : peer_owner c2 (route nd k) k =
      if decide ((route nd k, k) ∈ lock_requests t tx s)
      then owner_after t (peer_owner c (route nd k) k) else peer_owner c (route nd k) k).
    { unfold c2. rewrite peer_owner_ops. by apply serve_lock_requests, ready_requests. }
    rewrite Hc2. split; intros Hk.
    + rewrite (decide_True (P := _ ∈ lock_requests t tx s)) by naive_solver.
      unfold owner_after. rewrite Hfree' by done. by rewrite decide_True by naive_solver.
    + intros Hne. rewrite (decide_False (P := _ ∈ lock_requests t tx s)) by naive_solver.
      by rewrite decide_False by naive_solver.
Qed.

Lemma distributed_commit late :
  (∀ i, Forall (is_lock_response t ∘ snd) (late i)) →
  ∃ l r st releases s',
    execute_with_distributed_support (cluster_env channel late t tx s c) tx t s =
      (Ok (cluster_reads nd tx (view nd (store s) c)), s') ∧
    s' = set_calls (calls s ++ locks ++ op_calls nd t tx ++
                    lock_messages MessageType.LOCK_RELEASE t releases)
           (set_remote r (set_store st (set_lock_manager (release_all t l) s))) ∧
    releases ≡ₚ lock_requests t tx s ∧ tracked t l ∧
    (∀ k, owner_of l k = if decide (k ∈ keys_at nd tx me) then Some t
                         else owner_of (lock_manager s) k) ∧
    (∀ k, apply_tx tx (view nd (store s) c) k =
          view nd st (serve_all channel me (locks ++ op_calls nd t tx) c) k).
Proof.
  intros Hlate.
  destruct (categorize_grouped tx s (ready_config _ _ _ _ Hready)) as (m & n & Hcat & Hn & Hm).
  destruct (cluster_locks late n m Hcat Hn) as (l & r & Hacq & Htr & Ho).
  destruct (serve_lock_requests me (lock_requests t tx s) c ready_requests) as (Hst & _ & _).
  set (s1 := set_calls (calls s ++ locks) (set_remote r (set_lock_manager l s))) in *.
  destruct (execute_operations_cluster nd late Hlate (cluster_env channel late t tx s c) m 0 tx [] s1
    (serve_all channel me locks c) (view nd (store s) c)) as (r' & st & Hops & Hview).
  - done.
  - done.
  - intros k Hk Hr. apply is_Some_serve_all. by apply (ready_peers _ _ _ _ Hready).
  - intros j op Hj Hr. simpl. by rewrite Hj, serve_all_app.
  - intros k. symmetry. by apply view_same_stores.
  - set (s2 := set_calls _ _) in Hops. set (releases := filter (λ p, p.1 ≠ me) (node_keys (NodeToKeys t) n)).
    assert (Hrel : release_all_locks n t s2 =
      (Ok tt, set_calls (calls s2 ++ lock_messages MessageType.LOCK_RELEASE t releases)
                (set_lock_manager (release_all t l) s2))).
    { unfold release_all_locks. rewrite (bind_ok _ _ _ _ _ (release_all_run t s2)), bind_gets.
      by rewrite (send_each_ok _ _ _ _ Hok). }
    exists l, r', st, releases.
    exists (set_calls (calls s2 ++ lock_messages MessageType.LOCK_RELEASE t releases)
              (set_lock_manager (release_all t l) s2)).
    split_and!; [| | |done|done|].
    + unfold execute_with_distributed_support. rewrite (bind_ok _ _ _ _ _ Hcat). cbn beta iota.
      rewrite (bind_ok _ _ _ _ _ Hacq). unfold catch_all.
      by rewrite (bind_ok _ _ _ _ _ Hops), (bind_ok _ _ _ _ _ Hrel).
    + unfold s2, s1. simpl. by rewrite <- !(assoc_L (++)).
    + unfold lock_requests. rewrite Hcat. by apply grouped_releases with tx.
    + intros k. by rewrite serve_all_app.
Qed.
End whole.

(** A distributed transaction acts as on one map, over a channel that keeps the fields of its
    messages (the ids of a node start at 1, and text keeps only those from [2 ^ 63] on).  A
    node runs a transaction whose keys have their primaries on several nodes, no send throws,
    the other nodes serve its messages in the order they were sent, their answers arrive before the
    deadlines (lock responses possibly late), and no other transaction holds its keys.  Then
    the call returns, the messages sent are the lock requests of the remote keys, the
    operation requests and the releases of the same keys; the values at the primaries
    afterwards are those of running the transaction on the single map the primaries stand
    for; the reads are the ones of that run, except that a remote missing key is reported as
    an empty list and a remote append as an empty read; and once the releases are served all
    keys of the transaction are unlocked at their primaries and other locks are unchanged. *)
Theorem distributed_transaction_refines_one_map late tx s c :
  ready t tx s c → uncontended t tx s c → (∀ i, Forall (is_lock_response t ∘ snd) (late i)) →
  let nd := node s in let me := local_node_id nd in
  let locks := lock_messages MessageType.LOCK_REQUEST t (lock_requests t tx s) in
  ∃ s' releases,
    let sent := locks ++ op_calls nd t tx ++ lock_messages MessageType.LOCK_RELEASE t releases in
    let c' := serve_all channel me sent c in
    execute_with_distributed_support (cluster_env channel late t tx s c) tx t s =
      (Ok (cluster_reads nd tx (view nd (store s) c)), s') ∧
    calls s' = calls s ++ sent ∧ releases ≡ₚ lock_requests t tx s ∧
    (∀ k, view nd (store s') c' k = apply_tx tx (view nd (store s) c) k) ∧
    idle t (lock_manager s') ∧
    (∀ k, k ∈ tx_keys tx → owner_in nd (lock_manager s') c' k = None) ∧
    (∀ k, k ∉ tx_keys tx → owner_in nd (lock_manager s) c k ≠ Some t →
       owner_in nd (lock_manager s') c' k = owner_in nd (lock_manager s) c k).
Proof.
  intros Hready Hfree Hlate nd me locks.
  destruct (distributed_commit tx s c Hready late Hlate)
    as (l & r & st & releases & s' & Hrun & -> & Hperm & Htr & Ho & Hview).
  exists (set_calls (calls s ++ locks ++ op_calls nd t tx ++
                     lock_messages MessageType.LOCK_RELEASE t releases)
           (set_remote r (set_store st (set_lock_manager (release_all t l) s)))), releases.
  cbn zeta. split_and!; [done|done|done| | | |].
  - intros k. rewrite Hview, !serve_all_app.
    apply view_same_stores, serve_lock_releases.
  - by apply release_all_post.
  - intros k. by apply (locks_freed tx s c Hready l releases k Ho Htr Hperm Hfree).
  - intros k. by apply (locks_freed tx s c Hready l releases k Ho Htr Hperm Hfree).
Qed.
End serving.

(** ** Over text

    The ids that a node gives out are below [2 ^ 63] for its first [2 ^ 63 - 1]
    transactions.  Their messages are lost in text. *)
Section over_text.
Context {S : Type} `{KVStore S} `{OpExecutor S} `{Json} `{!JsonSpec} `{!JsonWire} `{!JsonWireSpec}
  `{StdHash} `{!Iteration Z} `{!TransactionServer}.
Implicit Types (s : Scheduler S) (t : TransactionId) (tx : Transaction) (c : Cluster S).

Lemma serve_lost me p t msg c :
  (0 ≤ t < 2 ^ 63)%Z → peer_message t msg → serve over_text me p msg c = c.
Proof.
  intros Ht Hm. unfold serve. apply map_eq. intros p'. rewrite lookup_alter.
  case_decide as E; [subst|done]. destruct (c !! p') as [q|]; simpl; [|done].
  unfold handled. by rewrite (message_lost_in_text _ _ _ t).
Qed.

Lemma answers_lost me p t msg c :
  (0 ≤ t < 2 ^ 63)%Z → peer_message t msg → answers over_text me p msg c = [].
Proof.
  intros Ht Hm. unfold answers, replies. destruct (c !! p) as [q|]; [|done].
  unfold handled. rewrite (message_lost_in_text _ _ _ t) by done. simpl.
  by rewrite drop_all.
Qed.

(** No node notices the messages. *)
Lemma messages_lost me t sent c :
  (0 ≤ t < 2 ^ 63)%Z →
  Forall (λ call, ∃ p msg, call = Send p msg ∧ peer_message t msg) sent →
  serve_all over_text me sent c = c ∧ answers_all over_text me sent c = [].
Proof.
  intros Ht. induction 1 as [|call sent (p & msg & -> & Hm) _ [IHs IHa]]; [done|].
  cbn [answers_all serve_call]. unfold serve_all. cbn [foldl serve_call].
  rewrite (serve_lost me p t msg c), (answers_lost me p t msg c) by done. done.
Qed.

Lemma lock_messages_peer type t l :
  type = MessageType.LOCK_REQUEST ∨ type = MessageType.LOCK_RELEASE →
  Forall (λ call, ∃ p msg, call = Send p msg ∧ peer_message t msg) (lock_messages type t l).
Proof.
  intros Ht. apply Forall_fmap, Forall_forall. intros [p k] _. eexists _, _. split; [done|].
  destruct Ht as [-> | ->]; constructor.
Qed.

(** C11. A distributed transaction over the text that peers exchange: a node runs a
    transaction with an id below 2^63 - the ids start at 1 - and a remote key, its local
    keys are free or its own, it has no pending requests, no send throws and no thread of
    the node interferes; the other nodes, in any state, handle what the text of each message
    parses to, and what they send back comes the same way. Then they answer nothing and stay
    exactly as they are, and at its deadline the transaction returns no reads, with the
    store unchanged, no local lock left and other locks with their owners; it has sent one
    lock request per remote key and one release for each of the same keys. *)
Theorem distributed_transaction_times_out late t tx s c :
  (∀ cs call, call_throws cs call = None) → (0 ≤ t < 2 ^ 63)%Z →
  well_configured (node s) → tracked t (lock_manager s) →
  pending_remote_locks (remote s) !! t = None →
  (∀ k, k ∈ keys_at (node s) tx (local_node_id (node s)) → available (lock_manager s) t k) →
  (∃ k, k ∈ tx_keys tx ∧ route (node s) k ≠ local_node_id (node s)) →
  ∃ releases l',
    let requests := lock_requests t tx s in
    let sent := lock_messages MessageType.LOCK_REQUEST t requests ++
                lock_messages MessageType.LOCK_RELEASE t releases in
    execute_with_distributed_support (cluster_env over_text late t tx s c) tx t s =
      (Ok [], set_calls (calls s ++ sent) (set_lock_manager l' s)) ∧
    NoDup requests ∧ releases ≡ₚ requests ∧
    (∀ p k, (p, k) ∈ requests ↔ p ≠ local_node_id (node s) ∧ k ∈ keys_at (node s) tx p) ∧
    serve_all over_text (local_node_id (node s)) sent c = c ∧
    answers_all over_text (local_node_id (node s)) sent c = [] ∧
    idle t l' ∧
    (∀ k, owner_of (lock_manager s) k ≠ Some t → owner_of l' k = owner_of (lock_manager s) k).
Proof.
  intros Hok Ht Hwf Htr Hp Hav Hrem.
  assert (Hlost : ∀ type l, type = MessageType.LOCK_REQUEST ∨ type = MessageType.LOCK_RELEASE →
    serve_all over_text (local_node_id (node s)) (lock_messages type t l) c = c ∧
    answers_all over_text (local_node_id (node s)) (lock_messages type t l) c = []).
  { intros type l Htype. by apply (messages_lost _ t), lock_messages_peer. }
  destruct (unanswered_transaction (cluster_env over_text late t tx s c) [] tx t s)
    as (m & n & l' & Hcat & Hn & Hrun & Hidle & Ho); [done..| |done|done|done|done|done|].
  { apply Hlost. by left. }
  assert (Hreq : lock_requests t tx s =
    node_keys (RemoteKeys t) (delete (local_node_id (node s)) n))
    by (unfold lock_requests; by rewrite Hcat).
  eexists _, l'. rewrite Hreq. split; [exact Hrun|].
  split_and!; [apply NoDup_node_keys|apply node_keys_perm|intros p k; by apply grouped_remote|..];
    [| |done|done].
  all: apply (messages_lost _ t); [done|]; apply Forall_app; split; apply lock_messages_peer; auto.
Qed.

(** From [2 ^ 63] on the id arrives as it was sent. *)
Lemma text_keeps_tx_id t msg :
  (2 ^ 63 ≤ t < 2 ^ 64)%Z → peer_message t msg →
  obj_at (over_text msg) "tx_id" = Some (v_uint64 t).
Proof.
  intros Ht [Hid _]%peer_message_fields. rewrite obj_at_over_text, Hid. simpl.
  by rewrite wire_uint64, decide_False by (unfold in_u; lia).
Qed.
End over_text.

(** ** The hypotheses hold

    Node 0 of a cluster of two appends to its own key 2 and to key 5 of node
    1, and reads key 5; the second lock response arrives late. *)
Module DistributedDemo.
Import Demo.

Definition other_node : Scheduler demo_store :=
  set_store {[ 5%Z := [50%Z] ]}
    (set_node (mkNode 1 1 2 (Some (mkCoordinator 1 [0%Z; 1%Z])) false true) demo_node).
Definition other_nodes : Cluster demo_store := {[ 1%Z := other_node ]}.
Definition demo_tx : Transaction := [AppendOp 2 9; AppendOp 5 8; ReadOp 5; ReadOp 2].

(** Transaction 7: no answer comes and node 1 stays as it is. *)
Lemma distributed_transaction_times_out_witness :
  ∃ sent l', execute_with_distributed_support
      (cluster_env over_text (λ _, []) 7 demo_tx clustered_node other_nodes) demo_tx 7
      clustered_node = (Ok [], set_calls sent (set_lock_manager l' clustered_node)) ∧
    serve_all over_text 0 sent other_nodes = other_nodes ∧ idle 7 l'.
Proof.
  destruct (distributed_transaction_times_out (λ _, []) 7 demo_tx clustered_node other_nodes)
    as (releases & l' & Hrun & _ & _ & _ & Hserve & _ & Hidle & _).
  - done.
  - lia.
  - done.
  - apply tracked_new.
  - done.
  - intros k _. done.
  - exists 5%Z. split; by vm_compute.
  - eexists _, l'. split; [exact Hrun|]. split; [exact Hserve|exact Hidle].
Defined.

(** The first id whose messages survive. *)
Definition late_id : TransactionId := (2 ^ 63)%Z.
Definition demo_late (i : nat) : list (NodeID * object) :=
  match i with
  | 1 => [(1%Z, tx_key_message MessageType.LOCK_GRANTED late_id 5)]
  | _ => []
  end.

Lemma tree_text_keeps_fields : keeps_fields over_text late_id.
Proof.
  intros msg Hm. enough (over_text msg = msg) as -> by done.
  destruct Hm as [k|k|k|k|[k|k x]|k [l|]]; try done.
  enough (Hl : map tree_wire (TInt64 <$> l) = (TInt64 <$> l)).
  { change (over_text (op_response late_id k (Some l))) with
      (take 3 (op_response late_id k (Some l)) ++
       [("value"%string, TArray (map tree_wire (TInt64 <$> l)))]). by rewrite Hl. }
  induction l as [|z l IH]; [done|]. rewrite fmap_cons. cbn [map tree_wire]. by rewrite IH.
Qed.

Lemma demo_ready c :
  is_Some (c !! 1%Z) → ready late_id demo_tx clustered_node c.
Proof.
  intros Hc. split; [done|apply tracked_new| |done].
  intros k Hk Hr. unfold demo_tx, tx_keys in Hk. simpl in Hk.
  assert (k = 2 ∨ k = 5)%Z as [-> | ->] by set_solver; [by vm_compute in Hr|done].
Qed.

Lemma demo_late_responses i : Forall (is_lock_response late_id ∘ snd) (demo_late i).
Proof.
  destruct i as [|[|i]]; [by constructor|apply Forall_singleton|by constructor].
  exists MessageType.LOCK_GRANTED, 5%Z. split; [by left|done].
Qed.

Lemma distributed_transaction_refines_one_map_witness :
  ∃ s', execute_with_distributed_support
          (cluster_env over_text demo_late late_id demo_tx clustered_node other_nodes) demo_tx
          late_id clustered_node =
          (Ok [(5, Some []); (5, Some [50; 8]); (2, Some [9])]%Z, s') ∧
    idle late_id (lock_manager s').
Proof.
  destruct (distributed_transaction_refines_one_map (λ _ _, eq_refl) over_text late_id
              tree_text_keeps_fields demo_late demo_tx
              clustered_node other_nodes (demo_ready other_nodes ltac:(by eexists)))
    as (s' & releases & Hrun & _ & _ & _ & Hidle & _).
  - intros k Hk Hr. unfold demo_tx, tx_keys in Hk. simpl in Hk.
    assert (k = 2 ∨ k = 5)%Z as [-> | ->] by set_solver; by vm_compute.
  - apply demo_late_responses.
  - exists s'. split; [|exact Hidle]. etrans; [exact Hrun|].
    by f_equal.
Defined.
End DistributedDemo.
