(* ===== verification/Startup.v ===== *)
(** * Starting a node

    [TwoPLScheduler::start] with the number parsing it uses
    ([std::from_chars], [std::stoi]) and the listener thread's life cycle. *)
From Stdlib Require Import Ascii.
From stdpp Require Import sorting pretty.
From S2P Require Import Prelude Operations KVStore LockManager Json Coordinator Scheduler.

(** ** Parsing numbers *)
Definition digit_of (a : Ascii.ascii) : option Z :=
  let n := Z.of_nat (Ascii.nat_of_ascii a) in
  if decide (48 ≤ n ≤ 57)%Z then Some (n - 48)%Z else None.

(** The longest prefix of decimal digits. *)
Fixpoint leading_digits (s : string) : list Z :=
  match s with
  | EmptyString => []
  | String a s' => match digit_of a with Some d => d :: leading_digits s' | None => [] end
  end.

Definition digits_value (ds : list Z) : Z := foldl (λ acc d, 10 * acc + d)%Z 0%Z ds.

(** [std::from_chars] into a [uint16_t]: no sign, trailing characters are not
    looked at; [None] for any [ec] but success, the target then unchanged. *)
Definition from_chars_u16 (s : string) : option Z :=
  match leading_digits s with
  | [] => None
  | ds => if decide (digits_value ds < 2 ^ 16)%Z then Some (digits_value ds) else None
  end.

Definition is_space (a : Ascii.ascii) : bool :=
  let n := Ascii.nat_of_ascii a in bool_decide (n = 32 ∨ 9 ≤ n ≤ 13).

Fixpoint skip_spaces (s : string) : string :=
  match s with
  | EmptyString => EmptyString
  | String a s' => if is_space a then skip_spaces s' else s
  end.

(** [std::stoi]: white space, a sign, digits; [None]: it throws. *)
Definition stoi (s : string) : option Z :=
  let '(sign, rest) :=
    match skip_spaces s with
    | String "-"%char s' => ((-1)%Z, s')
    | String "+"%char s' => (1%Z, s')
    | s' => (1%Z, s')
    end in
  match leading_digits rest with
  | [] => None
  | ds => let v := (sign * digits_value ds)%Z in
          if decide (in_s 32 v) then Some v else None
  end.

(** ** The cluster *)

(** [std::unique]: drop each element equal to the one kept before it. *)
Fixpoint unique (l : list Z) : list Z :=
  match l with
  | [] => []
  | x :: l' => match unique l' with
               | y :: r => if decide (x = y) then y :: r else x :: y :: r
               | [] => [x]
               end
  end.

Definition sort_unique (l : list Z) : list Z := unique (merge_sort Z.le l).

Section start.
Context {S : Type} `{KVStore S} `{OpExecutor S} `{Json} `{StdHash} `{!TransactionServer}.
Implicit Types (s : Scheduler S).

Definition on_node (f : NodeState → NodeState) : M (Scheduler S) unit :=
  modify (λ s, set_node (f (node s)) s).

(** Assigning a new [std::thread] over a joinable one calls
    [std::terminate]: [false] stands for that end of the process. *)
Definition start_message_listener : M (Scheduler S) bool :=
  joinable ← gets (λ s, listener_joinable (node s));
  _ ← on_node (λ n, mkNode (base_id n) (local_node_id n) (num_nodes n) (coordinator n) false true);
  mret (negb joinable).

(** Sets the flag and joins the thread, if there is one. *)
Definition stop_message_listener : M (Scheduler S) unit :=
  on_node (λ n, mkNode (base_id n) (local_node_id n) (num_nodes n) (coordinator n) true false).

(** [~TwoPLScheduler]: the same, before the members are destroyed. *)
Definition destroy_scheduler : M (Scheduler S) unit :=
  on_node (λ n, mkNode (base_id n) (local_node_id n) (num_nodes n) (coordinator n) true false).

(** The ids of the peers whose name starts with [n], appended to [node_ids]. *)
Fixpoint push_peer_ids (peers : list string) (node_ids : list NodeID)
    : M (Scheduler S) (list NodeID) :=
  match peers with
  | [] => mret node_ids
  | String "n"%char rest :: peers' =>
      id ← lift_opt "stoi" (stoi rest);
      push_peer_ids peers' (node_ids ++ [u16 id])
  | _ :: peers' => push_peer_ids peers' node_ids
  end.

(** The first block: [false] when the id does not parse. *)
Definition set_own_id (nodeID : string) : M (Scheduler S) bool :=
  match nodeID with
  | String "n"%char to_int =>
      match from_chars_u16 to_int with
      | None => mret false
      | Some i =>
          _ ← on_node (λ n, mkNode i i (num_nodes n) (coordinator n) (stop_listener n)
                              (listener_joinable n));
          mret true
      end
  | _ => mret true
  end.

Definition join_cluster (peers : list string) : M (Scheduler S) bool :=
  match peers with
  | [] => mret true
  | _ =>
      local_id ← gets (λ s, local_node_id (node s));
      ids ← push_peer_ids peers [local_id];
      let node_ids := sort_unique ids in
      _ ← on_node (λ n, mkNode (base_id n) (local_node_id n) (Z.of_nat (length node_ids))
                          (Some (mkCoordinator (local_node_id n) node_ids))
                          (stop_listener n) (listener_joinable n));
      start_message_listener
  end.

(** [None]: the process was terminated. *)
Definition start (nodeID : string) (peers : list string) : M (Scheduler S) (option bool) :=
  ok ← set_own_id nodeID;
  if (ok : bool) then
    alive ← join_cluster peers;
    if (alive : bool) then
      id ← gets (λ s, base_id (node s));
      _ ← server_call (Startup id []);
      mret (Some true)
    else mret None
  else mret (Some false).
End start.

(** A thread that is still joinable when its object is destroyed, or assigned
    over, ends the process: the destructor and [stop_message_listener] prevent
    that. *)
Lemma listener_stopped {S : Type} `{KVStore S} `{OpExecutor S} `{Json} (s : Scheduler S) :
  listener_joinable (node (destroy_scheduler s).2) = false ∧
  (start_message_listener (stop_message_listener s).2).1 = Ok true.
Proof. done. Qed.

(** ** Sorting and deduplication *)
Lemma unique_elem_of l x : x ∈ unique l ↔ x ∈ l.
Proof.
  induction l as [|y l IH]; simpl; [done|]. rewrite elem_of_cons, <- IH.
  destruct (unique l) as [|z r]; [set_solver|]. case_decide; set_solver.
Qed.

Lemma unique_head l y r : unique l = y :: r → ∃ l', l = y :: l'.
Proof.
  destruct l as [|x l]; simpl; [done|]. destruct (unique l) as [|z r']; intros; cases; eauto.
Qed.

Lemma unique_sorted l : StronglySorted Z.le l → StronglySorted Z.lt (unique l).
Proof.
  induction 1 as [|x l Hs IH Hx]; simpl; [constructor|].
  destruct (unique l) as [|y r] eqn:E; [repeat constructor|].
  case_decide as Hxy; [done|]. constructor; [done|].
  apply Forall_forall. intros z Hz.
  assert (Hy : (x ≤ y)%Z).
  { destruct (unique_head _ _ _ E) as [l' ->]. by inversion Hx. }
  inversion IH as [|? ? Hr Hyr]; subst. apply elem_of_cons in Hz as [->|Hz]; [lia|].
  rewrite Forall_forall in Hyr. specialize (Hyr z Hz). lia.
Qed.

Lemma sort_unique_spec l :
  StronglySorted Z.lt (sort_unique l) ∧ ∀ x, x ∈ sort_unique l ↔ x ∈ l.
Proof.
  unfold sort_unique. split.
  - apply unique_sorted, StronglySorted_merge_sort; apply _.
  - intros x. by rewrite unique_elem_of, merge_sort_Permutation.
Qed.

(** A strictly increasing list is determined by its elements. *)
Lemma strictly_sorted_eq (l1 l2 : list Z) :
  StronglySorted Z.lt l1 → StronglySorted Z.lt l2 → (∀ x, x ∈ l1 ↔ x ∈ l2) → l1 = l2.
Proof.
  intros H1 H2 Heq. apply (StronglySorted_unique_strong Z.lt); [intros; lia|done..|].
  apply NoDup_Permutation; [..|done]; [clear H2|clear H1]; clear Heq.
  - induction H1 as [|x l Hs IH Hx]; constructor; [|done]. intros Hin.
    rewrite Forall_forall in Hx. specialize (Hx x Hin). lia.
  - induction H2 as [|x l Hs IH Hx]; constructor; [|done]. intros Hin.
    rewrite Forall_forall in Hx. specialize (Hx x Hin). lia.
Qed.

(** ** Node names *)
Definition node_name (i : nat) : string := "n" +:+ pretty i.

Lemma digit_of_char (x : N) : (x < 10)%N → digit_of (pretty_N_char x) = Some (Z.of_N x).
Proof.
  intros Hx. assert (Hin : x ∈ [0;1;2;3;4;5;6;7;8;9]%N) by (rewrite !elem_of_cons; lia).
  repeat (apply elem_of_cons in Hin as [->|Hin]; [done|]). by apply not_elem_of_nil in Hin.
Qed.

Lemma digits_pretty_go (x : N) (s : string) :
  foldl (λ acc d, 10 * acc + d)%Z 0%Z (leading_digits (pretty_N_go x s)) =
    foldl (λ acc d, 10 * acc + d)%Z (Z.of_N x) (leading_digits s).
Proof.
  revert s. induction (N.lt_wf_0 x) as [x _ IH]. intros s.
  destruct (decide (x = 0)%N) as [->|Hx]; [by rewrite pretty_N_go_0|].
  rewrite pretty_N_go_step by lia. rewrite IH by (apply N.div_lt; lia). simpl.
  rewrite digit_of_char by (apply N.mod_lt; lia). simpl. f_equal.
  rewrite N2Z.inj_div, N2Z.inj_mod. simpl. pose proof (Z.div_mod (Z.of_N x) 10). lia.
Qed.

Lemma leading_digits_pretty (n : nat) :
  leading_digits (pretty n) ≠ [] ∧ digits_value (leading_digits (pretty n)) = Z.of_nat n.
Proof.
  unfold pretty, pretty_nat, pretty, pretty_N, digits_value.
  destruct (decide (N.of_nat n = 0%N)) as [E|E].
  - replace n with 0 by lia. done.
  - pose proof (digits_pretty_go (N.of_nat n) "") as Hd. simpl in Hd.
    rewrite Hd. split; [|lia]. intros Hnil. rewrite Hnil in Hd. simpl in Hd. lia.
Qed.

(** Text that starts with a digit has neither white space nor a sign. *)
Lemma stoi_digits (s : string) :
  leading_digits s ≠ [] → in_s 32 (digits_value (leading_digits s)) →
  stoi s = Some (digits_value (leading_digits s)).
Proof.
  intros Hne Hin. destruct s as [|a s]; [done|].
  assert (Hd : is_Some (digit_of a)) by (simpl in Hne; destruct (digit_of a); [eauto|done]).
  assert (Hstoi : stoi (String a s) =
    match leading_digits (String a s) with
    | [] => None
    | ds => if decide (in_s 32 (1 * digits_value ds)) then Some (1 * digits_value ds)%Z else None
    end).
  { clear Hne Hin. unfold stoi. simpl. destruct a as [[] [] [] [] [] [] [] []]; try done;
      by destruct Hd. }
  rewrite Hstoi. destruct (leading_digits (String a s)); [done|].
  cbv zeta. by rewrite !Z.mul_1_l, decide_True.
Qed.

Lemma stoi_pretty (n : nat) : (Z.of_nat n < 2 ^ 31)%Z → stoi (pretty n) = Some (Z.of_nat n).
Proof.
  intros Hn. destruct (leading_digits_pretty n) as [Hne Hv].
  rewrite stoi_digits; rewrite ?Hv; [done..|]. unfold in_s. lia.
Qed.

Lemma from_chars_pretty (n : nat) :
  from_chars_u16 (pretty n) = if decide (Z.of_nat n < 2 ^ 16)%Z then Some (Z.of_nat n) else None.
Proof.
  destruct (leading_digits_pretty n) as [Hne Hv]. unfold from_chars_u16.
  destruct (leading_digits (pretty n)) eqn:E; [done|]. cbv zeta. by rewrite Hv.
Qed.

(** A node's name has no NUL character. *)
Lemma c_str_node_name (n : nat) : c_str (node_name n) = node_name n.
Proof.
  assert (Hchar : ∀ d, pretty_N_char d ≠ Ascii.zero)
    by (intros [|[[[[]|[]|]|[[]|[]|]|]|[[[]|[]|]|[[]|[]|]|]|]]; done).
  assert (Hgo : ∀ x s, c_str s = s → c_str (pretty_N_go x s) = pretty_N_go x s).
  { intros x. induction (N.lt_wf_0 x) as [x _ IH]. intros s Hs.
    destruct (decide (x = 0)%N) as [->|Hx]; [by rewrite pretty_N_go_0|].
    rewrite pretty_N_go_step by lia. apply IH; [apply N.div_lt; lia|].
    simpl. rewrite decide_False by apply Hchar. by rewrite Hs. }
  change (node_name n) with (String "n" (pretty n)). cbn [c_str]. rewrite decide_False by done.
  f_equal. unfold pretty, pretty_nat, pretty, pretty_N. case_decide; [done|]. by apply Hgo.
Qed.

(** ** What [start] establishes *)

(** The ids the peers' names stand for; [None]: some name makes [stoi] throw. *)
Definition peer_ids (peers : list string) : option (list NodeID) :=
  mapM (λ rest, u16 <$> stoi rest)
    (omap (λ p, match p with String "n"%char rest => Some rest | _ => None end) peers).

Lemma peer_ids_cons n peers :
  peer_ids (node_name n :: peers) =
    (i ← stoi (pretty n); rest ← peer_ids peers; Some (u16 i :: rest)).
Proof.
  unfold peer_ids. change (node_name n) with (String "n" (pretty n)). cbn -[pretty stoi u16].
  by destruct (stoi (pretty n)).
Qed.

Section start_proofs.
Context {S : Type} `{KVStore S} `{OpExecutor S} `{Json} `{StdHash} `{!TransactionServer}.
Implicit Types (s : Scheduler S).

Lemma push_peer_ids_spec peers acc s :
  push_peer_ids peers acc s =
    match peer_ids peers with
    | Some ids => (Ok (acc ++ ids), s)
    | None => (Throw (StdException "stoi"), s)
    end.
Proof.
  unfold peer_ids. revert acc. induction peers as [|p peers IH]; intros acc.
  { simpl. by rewrite app_nil_r. }
  destruct p as [|[[] [] [] [] [] [] [] []] rest]; try exact (IH acc).
  cbn -[u16]. mred. destruct (stoi rest) as [i|]; [|done]. cbn -[u16]. rewrite IH.
  match goal with |- context [mapM ?f ?l] => destruct (mapM f l); [|done] end.
  simpl. by rewrite <- app_assoc.
Qed.

Lemma set_own_id_parsed digits i s :
  from_chars_u16 digits = Some i →
  set_own_id (String "n" digits) s =
    (Ok true, set_node (mkNode i i (num_nodes (node s)) (coordinator (node s))
                          (stop_listener (node s)) (listener_joinable (node s))) s).
Proof. intros E. unfold set_own_id. by rewrite E. Qed.

Lemma join_cluster_spec peers ids s :
  peers ≠ [] → peer_ids peers = Some ids →
  join_cluster peers s =
    (Ok (negb (listener_joinable (node s))),
     let ns := sort_unique (local_node_id (node s) :: ids) in
     set_node (mkNode (base_id (node s)) (local_node_id (node s)) (Z.of_nat (length ns))
                 (Some (mkCoordinator (local_node_id (node s)) ns)) false true) s).
Proof.
  intros Hne Hids. destruct peers as [|p peers]; [done|].
  unfold join_cluster. rewrite bind_gets. unfold mbind at 1, M_bind at 1.
  rewrite push_peer_ids_spec, Hids. by destruct s as [? ? ? [] ? ?].
Qed.

(** A start without peers leaves the node without a coordinator. *)
Lemma start_alone s (i : nat) :
  (Z.of_nat i < 2 ^ 16)%Z → call_throws (calls s) (Startup (Z.of_nat i) []) = None →
  start (node_name i) [] s =
    (Ok (Some true),
     set_calls (calls s ++ [Startup (Z.of_nat i) []])
       (set_node (mkNode (Z.of_nat i) (Z.of_nat i) (num_nodes (node s)) (coordinator (node s))
                    (stop_listener (node s)) (listener_joinable (node s))) s)).
Proof.
  intros Hi Hcall. change (node_name i) with (String "n" (pretty i)).
  assert (Hparse : from_chars_u16 (pretty i) = Some (Z.of_nat i))
    by (by rewrite from_chars_pretty, decide_True).
  unfold start. run (set_own_id_parsed (pretty i) (Z.of_nat i) s Hparse).
  set (s1 := set_node _ s). run (eq_refl : join_cluster [] s1 = (Ok true, s1)).
  rewrite bind_gets. unfold server_call, mbind, M_bind. simpl. by rewrite Hcall.
Qed.

(** The state a successful start leaves behind. *)
Definition started s (i : NodeID) (ns : list NodeID) : Scheduler S :=
  set_calls (calls s ++ [Startup i []])
    (set_node (mkNode i i (Z.of_nat (length ns)) (Some (mkCoordinator i ns)) false true) s).

Lemma start_spec s digits i peers ids :
  listener_joinable (node s) = false →
  from_chars_u16 digits = Some i → peers ≠ [] → peer_ids peers = Some ids →
  call_throws (calls s) (Startup i []) = None →
  start (String "n" digits) peers s = (Ok (Some true), started s i (sort_unique (i :: ids))).
Proof.
  intros Hj Hi Hne Hids Hcall. unfold start. run (set_own_id_parsed digits i s Hi).
  set (s1 := set_node _ s). assert (Hj1 : listener_joinable (node s1) = false) by done.
  run (join_cluster_spec peers ids s1 Hne Hids). rewrite Hj1. simpl.
  rewrite bind_gets. simpl. unfold server_call, mbind, M_bind. simpl. by rewrite Hcall.
Qed.

(** C34. A start with a well-formed own name and well-formed peer names: the coordinator's
    node list is strictly increasing and contains exactly the own id and the peers' ids,
    num_nodes is its length, both ids are set, the listener runs, every key has a primary,
    and the server is started once; locks, store, counter and remote state are unchanged. *)
Theorem start_builds_the_cluster s digits i peers ids :
  listener_joinable (node s) = false →
  from_chars_u16 digits = Some i → peers ≠ [] → peer_ids peers = Some ids →
  call_throws (calls s) (Startup i []) = None →
  ∃ s' ns,
    start (String "n" digits) peers s = (Ok (Some true), s') ∧
    node s' = mkNode i i (Z.of_nat (length ns)) (Some (mkCoordinator i ns)) false true ∧
    StronglySorted Z.lt ns ∧ (∀ x, x ∈ ns ↔ x = i ∨ x ∈ ids) ∧
    (∀ key, is_Some (is_local_key s' key)) ∧
    calls s' = calls s ++ [Startup i []] ∧
    (lock_manager s', store s', next_tx_id s', remote s') =
      (lock_manager s, store s, next_tx_id s, remote s).
Proof.
  intros Hj Hi Hne Hids Hcall.
  destruct (sort_unique_spec (i :: ids)) as [Hsort Hin].
  exists (started s i (sort_unique (i :: ids))), (sort_unique (i :: ids)).
  split; [by apply start_spec|]. simpl. split; [done|]. split; [done|]. split.
  { intros x. rewrite Hin. apply elem_of_cons. }
  split; [|done]. intros key. unfold is_local_key, is_local, get_primary_node. simpl.
  rewrite decide_False; [by eexists|].
  intros Hlen%length_zero_iff_nil. specialize (Hin i). rewrite Hlen in Hin. set_solver.
Qed.

(** A number that does not fit 16 bits is refused as the own id and taken
    modulo [2^16] as a peer's. *)
Lemma oversized_node_numbers s n peers :
  (2 ^ 16 ≤ Z.of_nat n < 2 ^ 31)%Z →
  start (node_name n) peers s = (Ok (Some false), s) ∧
  peer_ids [node_name n] = Some [Z.of_nat n mod 2 ^ 16]%Z.
Proof.
  intros Hn. split.
  - change (node_name n) with (String "n" (pretty n)). unfold start, set_own_id.
    rewrite from_chars_pretty, decide_False by lia. done.
  - by rewrite peer_ids_cons, stoi_pretty by lia.
Qed.

Lemma peer_ids_names (l : list nat) :
  Forall (λ n, (Z.of_nat n < 2 ^ 16)%Z) l → peer_ids (node_name <$> l) = Some (Z.of_nat <$> l).
Proof.
  induction 1 as [|n l Hn Hl IH]; [done|].
  rewrite fmap_cons, peer_ids_cons, IH, stoi_pretty by lia. simpl. do 2 f_equal.
  apply wrap_u_small. unfold in_u. lia.
Qed.

Lemma seqZ_sorted m n : StronglySorted Z.lt (seqZ m n).
Proof.
  destruct (decide (0 ≤ n)%Z) as [Hn|]; [|rewrite seqZ_nil by lia; constructor].
  revert m. pattern n. apply natlike_ind; [..|done]; clear n Hn.
  - intros m. rewrite seqZ_nil by lia. constructor.
  - intros n Hn IH m. rewrite seqZ_cons by lia. constructor; [by rewrite Z.pred_succ|].
    apply Forall_forall. intros x Hx%elem_of_seqZ. lia.
Qed.

(** C29. Start-up of a whole cluster: when nodes n0, ..., n(k-1) are each started with the
    names of the others as peers, all starts succeed and for every key exactly one of the
    nodes considers the key local, the same on every node. *)
Theorem started_cluster_partitions_keys (k : nat) (key : KeyType) (st : S) (junk : NodeID) :
  1 < k → (Z.of_nat k ≤ 2 ^ 16)%Z → (∀ i, call_throws [] (Startup i []) = None) →
  ∃ primary, primary < k ∧ ∀ i, i < k →
    ∃ s, start (node_name i) (node_name <$> filter (λ j, j ≠ i) (seq 0 k))
           (new_scheduler st junk) = (Ok (Some true), s) ∧
         is_local_key s key = Some (bool_decide (i = primary)).
Proof.
  intros Hk Hsmall Hcall. set (hv := hash_i64 key).
  pose proof (Z.mod_pos_bound hv (Z.of_nat k) ltac:(lia)) as Hb.
  exists (Z.to_nat (hv mod Z.of_nat k)). split; [lia|]. intros i Hi.
  set (others := filter (λ j, j ≠ i) (seq 0 k)).
  assert (Hothers : ∀ j, j ∈ others ↔ j ≠ i ∧ j < k).
  { intros j. unfold others. rewrite list_elem_of_filter, elem_of_seq. lia. }
  assert (Hids : peer_ids (node_name <$> others) = Some (Z.of_nat <$> others)).
  { apply peer_ids_names, Forall_forall. intros j Hj%Hothers. lia. }
  assert (Hne : node_name <$> others ≠ []).
  { intros E%fmap_nil_inv. destruct (decide (i = 0)) as [->|].
    - pose proof (proj2 (Hothers 1)) as X. rewrite E in X. set_solver by lia.
    - pose proof (proj2 (Hothers 0)) as X. rewrite E in X. set_solver by lia. }
  assert (Hns : sort_unique (Z.of_nat i :: (Z.of_nat <$> others)) = seqZ 0 (Z.of_nat k)).
  { destruct (sort_unique_spec (Z.of_nat i :: (Z.of_nat <$> others))) as [Hsort Hin].
    apply strictly_sorted_eq; [done|apply seqZ_sorted|]. intros x.
    rewrite Hin, elem_of_cons, list_elem_of_fmap, elem_of_seqZ. split.
    - intros [->|(j & -> & Hj%Hothers)]; lia.
    - intros Hx. destruct (decide (x = Z.of_nat i)); [by left|right].
      exists (Z.to_nat x). split; [lia|]. apply Hothers. lia. }
  exists (started (new_scheduler st junk) (Z.of_nat i) (seqZ 0 (Z.of_nat k))). split.
  { rewrite <- Hns. apply start_spec; [done| |done..|apply Hcall].
    by rewrite from_chars_pretty, decide_True by lia. }
  unfold is_local_key, is_local. simpl. rewrite get_primary_node_small;
    simpl; rewrite length_seqZ, Nat2Z.id; [|lia..].
  simpl. f_equal. apply bool_decide_ext. fold hv. lia.
Qed.
End start_proofs.

(** ** The hypotheses hold *)
Module StartupDemo.
Import Demo.

Lemma start_builds_the_cluster_witness :
  ∃ s' ns, start "n2" ["n0"; "n1"; "n2"; "c7"] demo_node = (Ok (Some true), s') ∧
    node s' = mkNode 2 2 (Z.of_nat (length ns)) (Some (mkCoordinator 2 ns)) false true ∧
    StronglySorted Z.lt ns ∧ (∀ x, x ∈ ns ↔ x = 2%Z ∨ x ∈ [0; 1; 2]%Z).
Proof.
  destruct (start_builds_the_cluster demo_node "2" 2 ["n0"; "n1"; "n2"; "c7"] [0; 1; 2]%Z)
    as (s' & ns & Hrun & Hnode & Hsort & Hin & _); try done.
  exists s', ns. split; [exact Hrun|]. split; [exact Hnode|]. split; [exact Hsort|exact Hin].
Defined.

Lemma started_cluster_partitions_keys_witness :
  ∃ primary, primary < 3 ∧ ∀ i, i < 3 →
    ∃ s, start (node_name i) (node_name <$> filter (λ j, j ≠ i) (seq 0 3))
           (new_scheduler (∅ : demo_store) 0) = (Ok (Some true), s) ∧
         is_local_key s (-5) = Some (bool_decide (i = primary)).
Proof.
  apply (started_cluster_partitions_keys 3 (-5) ∅ 0); [lia|vm_compute; discriminate|done].
Defined.
End StartupDemo.
