(* ===== verification/Typing.v ===== *)
(** * Machine types

    The model keeps integers as [Z]; the sources declare [uint64_t]
    transaction ids, [int64_t] keys and values, and [uint16_t] node ids.
    This file shows that the numbers a node stores, sends and returns stay
    within those types: [typed] is an invariant of everything the scheduler
    does. *)
From S2P Require Import Prelude Operations KVStore LockManager Json Coordinator Scheduler.
From S2P Require Import SchedulerLocal Handlers SchedulerRemote Startup.

(** ** Invariants of code

    [keeps P m Q]: from a state in [P], [m] ends in a state in [P], and with a
    value in [Q] if it ends with one. *)
Definition keeps {S A} (P : S → Prop) (m : M S A) (Q : A → Prop) : Prop :=
  ∀ s, P s → P (m s).2 ∧ match (m s).1 with Ok a => Q a | Throw _ => True end.

Section keeps.
Context {S : Type} (P : S → Prop).

Lemma keeps_ret {A} (a : A) (Q : A → Prop) : Q a → keeps P (mret a) Q.
Proof. by intros Ha s Hs. Qed.
Lemma keeps_throw {A} e (Q : A → Prop) : keeps P (throw e) Q.
Proof. by intros s Hs. Qed.
Lemma keeps_gets {A} (f : S → A) (Q : A → Prop) : (∀ s, P s → Q (f s)) → keeps P (gets f) Q.
Proof. intros Hf s Hs. split; [done|by apply Hf]. Qed.
Lemma keeps_modify f (Q : unit → Prop) : (∀ s, P s → P (f s)) → Q tt → keeps P (modify f) Q.
Proof. intros Hf HQ s Hs. split; [by apply Hf|done]. Qed.
Lemma keeps_lift {A} w (o : option A) (Q : A → Prop) :
  (∀ a, o = Some a → Q a) → keeps P (lift_opt w o) Q.
Proof. intros Ho s Hs. destruct o; split; try done. by apply Ho. Qed.

Lemma keeps_bind {A B} (m : M S A) (k : A → M S B) Q Q' :
  keeps P m Q → (∀ a, Q a → keeps P (k a) Q') → keeps P (m ≫= k) Q'.
Proof.
  intros Hm Hk s Hs. destruct (Hm s Hs) as [Hs1 Ha]. unfold mbind, M_bind.
  destruct (m s) as [[a|e] s1]; [by apply Hk|done].
Qed.

Lemma keeps_catch_all {A} (m : M S A) h Q :
  keeps P m Q → (∀ e, keeps P (h e) Q) → keeps P (catch_all m h) Q.
Proof.
  intros Hm Hh s Hs. destruct (Hm s Hs) as [Hs1 Ha]. unfold catch_all.
  destruct (m s) as [[a|e] s1]; [done|by apply Hh].
Qed.

Lemma keeps_catch_std {A} (m : M S A) h Q :
  keeps P m Q → (∀ w, keeps P (h w) Q) → keeps P (catch_std m h) Q.
Proof.
  intros Hm Hh. apply keeps_catch_all; [done|]. intros [w|]; [apply Hh|apply keeps_throw].
Qed.

Lemma keeps_for_each {A} (l : list A) (body : A → M S unit) :
  (∀ x, x ∈ l → keeps P (body x) (λ _, True)) → keeps P (for_each l body) (λ _, True).
Proof.
  induction l as [|x l IH]; intros Hb; simpl; [by apply keeps_ret|].
  eapply keeps_bind; [apply Hb; set_solver|]. intros _ _. apply IH. set_solver.
Qed.
End keeps.

Lemma keeps_zoom {S T A} (P : S → Prop) get put (P' : T → Prop) (m : M T A) Q :
  (∀ s, P s → P' (get s)) → (∀ s t, P s → P' t → P (put t s)) →
  keeps P' m Q → keeps P (zoom get put m) Q.
Proof.
  intros Hg Hp Hm s Hs. destruct (Hm (get s) (Hg s Hs)) as [Ht Ha]. unfold zoom.
  destruct (m (get s)) as [r t]. split; [by apply Hp|done].
Qed.

(** ** Types *)
Definition is_tx_id (t : TransactionId) : Prop := in_u 64 t.
Definition is_key (k : KeyType) : Prop := in_s 64 k.
Definition is_value (v : ValueType) : Prop := in_s 64 v.
Definition is_node_id (n : NodeID) : Prop := in_u 16 n.

Definition keys_typed (X : gset KeyType) : Prop := ∀ k, k ∈ X → is_key k.
Definition groups_typed (m : gmap NodeID (gset KeyType)) : Prop :=
  map_Forall (λ n X, is_node_id n ∧ keys_typed X) m.
Definition op_typed (op : Operation) : Prop := is_key (op_key op) ∧ is_value (op_value op).
Definition read_typed (r : KeyType * option ValueContainer) : Prop :=
  is_key r.1 ∧ ∀ l, r.2 = Some l → Forall is_value l.

Record locks_typed (l : LockManager) : Prop := {
  lt_table : map_Forall (λ k e, is_key k ∧ ∀ t, owner e = Some t → is_tx_id t) (lock_table l);
  lt_held : map_Forall (λ t X, is_tx_id t ∧ keys_typed X) (held_locks l);
}.

Record node_typed (n : NodeState) : Prop := {
  nt_base : is_node_id (base_id n);
  nt_local : is_node_id (local_node_id n);
  nt_coordinator c : coordinator n = Some c →
    is_node_id (co_local_node_id c) ∧ Forall is_node_id (all_nodes c);
}.

Record remote_typed (r : RemoteState) : Prop := {
  rt_locks : map_Forall (λ t m, is_tx_id t ∧ groups_typed m) (pending_remote_locks r);
  rt_results : map_Forall (λ t m, is_tx_id t ∧ map_Forall (λ k l, is_key k ∧ Forall is_value l) m)
                 (remote_results r);
  rt_ops : map_Forall (λ t X, is_tx_id t ∧ ∀ n k, (n, k) ∈ X → is_node_id n ∧ is_key k)
             (pending_remote_ops r);
}.

Lemma keys_typed_union X Y : keys_typed X → keys_typed Y → keys_typed (X ∪ Y).
Proof. intros HX HY k [?|?]%elem_of_union; auto. Qed.
Lemma keys_typed_singleton k : is_key k → keys_typed {[k]}.
Proof. by intros Hk k' ->%elem_of_singleton. Qed.
Lemma keys_typed_empty : keys_typed ∅.
Proof. intros k. set_solver. Qed.
Lemma keys_typed_difference X Y : keys_typed X → keys_typed (X ∖ Y).
Proof. intros HX k [? _]%elem_of_difference. auto. Qed.

Lemma keys_typed_at {P : Z → Prop} (m : gmap Z (gset KeyType)) k :
  map_Forall (λ n X, P n ∧ keys_typed X) m → keys_typed (set_at m k).
Proof.
  intros Hm. unfold set_at. destruct (m !! k) as [X|] eqn:E; [|apply keys_typed_empty].
  by apply (Hm k X).
Qed.
#[local] Hint Resolve keys_typed_union keys_typed_singleton keys_typed_empty
  keys_typed_difference keys_typed_at : typing.

(** ** The lock manager *)
Section locks.
Context (key : KeyType) (t : TransactionId) (Hkey : is_key key) (Ht : is_tx_id t).

Lemma set_owner_typed o l :
  (o = None ∨ o = Some t) → locks_typed l → locks_typed (set_owner key o l).
Proof.
  intros Ho [Htab Hheld]. split; [|done]. simpl. apply map_Forall_insert_2; [|done].
  split; [done|]. simpl. naive_solver.
Qed.

Lemma emplace_typed l : locks_typed l → locks_typed (emplace_entry key l).
Proof. intros Hl. unfold emplace_entry. case_match; [done|]. apply set_owner_typed; auto. Qed.

Lemma track_typed l : locks_typed l → locks_typed (track_key key t l).
Proof.
  intros [Htab Hheld]. split; [done|]. simpl. apply map_Forall_insert_2; [|done].
  split; [done|]. unfold held_by. eauto with typing.
Qed.

Lemma untrack_typed l : locks_typed l → locks_typed (untrack_key key t l).
Proof.
  intros [Htab Hheld]. unfold untrack_key. case_match eqn:E; [|done].
  case_decide; (split; [done|]); simpl; [by apply map_Forall_delete|].
  apply map_Forall_insert_2; [|done]. destruct (Hheld _ _ E). auto with typing.
Qed.

Lemma release_typed l : locks_typed l → locks_typed (release key t l).
Proof.
  intros Hl. unfold release. case_match; [|done]. case_decide; [|done].
  apply untrack_typed, set_owner_typed; auto.
Qed.

Lemma wait_die_typed env :
  (∀ i l, locks_typed l → locks_typed (env i l)) →
  keeps locks_typed (acquire_with_wait_die env key t) (λ _, True).
Proof.
  intros Henv l Hl. split; [|by destruct (acquire_with_wait_die env key t l).1].
  pose (R (l1 l2 : LockManager) := locks_typed l1 → locks_typed l2).
  assert (PreOrder R) by (split; unfold R; intros ?; naive_solver).
  apply (wait_die_rel key t R); [..|done].
  - intros l1 l2 E Hl1. unfold try_spin in E. destruct (owner_of l1 key); cases; [done|].
    apply set_owner_typed; auto.
  - intros l1 l2 E Hl1. unfold try_yield in E. destruct (owner_of l1 key); cases.
    apply set_owner_typed; auto.
  - intros i l1 Hl1. by apply Henv.
Qed.

Lemma acquire_typed env :
  (∀ l, locks_typed l → locks_typed (before_entry env l)) →
  (∀ i l, locks_typed l → locks_typed (in_window env i l)) →
  keeps locks_typed (acquire env key t) (λ _, True).
Proof.
  intros He Hw. unfold acquire.
  repeat (apply (keeps_bind _ _ _ (λ _, True)); [|intros ? _]); [..|by apply wait_die_typed].
  - apply keeps_modify; [apply emplace_typed|exact I].
  - by apply keeps_modify.
  - by apply keeps_gets.
  - by apply keeps_lift.
  - apply keeps_modify; [apply track_typed|exact I].
Qed.

End locks.

Lemma release_all_typed `{!Iteration KeyType} t l :
  is_tx_id t → locks_typed l → locks_typed (release_all t l).
Proof.
  intros Ht Hl. unfold release_all, take_held. destruct (held_locks l !! t) as [X|] eqn:E.
  2: { assert (iter_order (HeldLocks t) (∅ : gset Z) = []) as ->; [|done].
       apply elem_of_nil_inv. intros k. rewrite elem_of_iter_order. set_solver. }
  assert (HX : ∀ k, k ∈ iter_order (HeldLocks t) X → is_key k).
  { intros k. rewrite elem_of_iter_order. apply (lt_held _ Hl _ _ E). }
  assert (Hl' : locks_typed (set_held (delete t (held_locks l)) l)).
  { destruct Hl. split; [done|]. by apply map_Forall_delete. }
  revert Hl'. generalize (set_held (delete t (held_locks l)) l).
  induction (iter_order (HeldLocks t) X) as [|k ks IH]; intros l0 Hl0; [done|]. cbn [foldl].
  apply IH; [intros; apply HX; by right|]. apply release_typed; [|done..]. apply HX. by left.
Qed.

Lemma new_locks_typed : locks_typed new_lock_manager.
Proof. split; apply map_Forall_empty. Qed.

(** ** The scheduler *)
Section typed.
Context {S : Type} `{KVStore S} `{!KVStoreSpec S} `{OpExecutor S} `{!OpExecutorSpec S}
  `{Json} `{!JsonSpec} `{StdHash} `{!Iteration Z} `{!TransactionServer}.
Implicit Types (s : Scheduler S) (t : TransactionId) (tx : Transaction).

Definition store_typed (st : S) : Prop :=
  ∀ k l, kv_get st k = Some l → is_key k ∧ Forall is_value l.

(** Numbers in JSON values are what the 64-bit alternatives can hold. *)
Definition value_typed (v : value) : Prop :=
  (∀ z, v = v_int64 z → in_s 64 z) ∧ (∀ z, v = v_uint64 z → in_u 64 z) ∧
  (∀ l, v = v_array l → ∀ z, v_int64 z ∈ l → in_s 64 z).
Definition msg_typed (o : object) : Prop := ∀ name v, obj_at o name = Some v → value_typed v.

Definition call_typed (c : ServerCall) : Prop :=
  match c with
  | Startup id peers => is_node_id id ∧ Forall is_node_id peers
  | Send p msg => is_node_id p ∧ msg_typed msg
  end.

Record typed s : Prop := {
  ty_locks : locks_typed (lock_manager s);
  ty_store : store_typed (store s);
  ty_next : is_tx_id (next_tx_id s);
  ty_node : node_typed (node s);
  ty_remote : remote_typed (remote s);
  ty_calls : Forall call_typed (calls s);
}.

(** *** JSON *)
Lemma as_int64_inj z z' : v_int64 z = v_int64 z' → z = z'.
Proof. intros E%(f_equal as_int64). rewrite !as_int64_int64 in E. by injection E. Qed.
Lemma as_uint64_inj z z' : v_uint64 z = v_uint64 z' → z = z'.
Proof. intros E%(f_equal as_uint64). rewrite !as_uint64_uint64 in E. by injection E. Qed.

(** Values of different kinds are different. *)
Ltac kinds := intros; match goal with
  | E : ?a = ?b :> value |- _ => apply (f_equal kind) in E;
      rewrite ?kind_of_null, ?kind_of_string, ?kind_of_int64, ?kind_of_uint64, ?kind_of_array in E;
      discriminate E
  end.

Lemma null_typed : value_typed v_null.
Proof. split_and!; kinds. Qed.
Lemma string_typed x : value_typed (v_string x).
Proof. split_and!; kinds. Qed.
Lemma int64_typed z : in_s 64 z → value_typed (v_int64 z).
Proof. intros Hz. split_and!; [|kinds..]. by intros z' <-%as_int64_inj. Qed.
Lemma uint64_typed z : in_u 64 z → value_typed (v_uint64 z).
Proof. intros Hz. split_and!; [kinds| |kinds]. by intros z' <-%as_uint64_inj. Qed.
Lemma array_typed l : Forall is_value l → value_typed (v_array (v_int64 <$> l)).
Proof.
  intros Hl. split_and!; [kinds|kinds|]. intros l' E%(f_equal as_array) z Hz.
  rewrite !as_array_array in E. injection E as <-.
  apply list_elem_of_fmap in Hz as (z' & <-%as_int64_inj & Hz). rewrite Forall_forall in Hl.
  by apply Hl.
Qed.
Lemma empty_typed : msg_typed obj_empty.
Proof. intros name v. by rewrite obj_at_empty. Qed.
Lemma set_typed o name v : msg_typed o → value_typed v → msg_typed (obj_set o name v).
Proof. intros Ho Hv name' v'. rewrite obj_at_set. case_decide; [naive_solver|apply Ho]. Qed.
#[local] Hint Resolve null_typed string_typed int64_typed uint64_typed array_typed empty_typed
  set_typed : typing.

Lemma tx_key_message_typed type t k : is_tx_id t → is_key k → msg_typed (tx_key_message type t k).
Proof. intros. unfold tx_key_message. auto with typing. Qed.

Lemma op_request_typed t op : is_tx_id t → op_typed op → msg_typed (op_request t op).
Proof.
  intros Ht [Hk Hv]. unfold op_request.
  destruct (op_type op); auto using tx_key_message_typed with typing.
Qed.

Lemma op_response_typed t k r :
  is_tx_id t → is_key k → (∀ l, r = Some l → Forall is_value l) → msg_typed (op_response t k r).
Proof.
  intros. unfold op_response. apply set_typed; [by apply tx_key_message_typed|].
  destruct r; auto with typing.
Qed.

(** *** Accesses *)
Lemma on_locks_typed {A} (m : M LockManager A) Q :
  keeps locks_typed m Q → keeps typed (on_locks m) Q.
Proof. apply keeps_zoom; [by intros s []|]. by intros s l [] ?. Qed.

Lemma on_store_typed {A} (m : M S A) Q : keeps store_typed m Q → keeps typed (on_store m) Q.
Proof. apply keeps_zoom; [by intros s []|]. by intros s l [] ?. Qed.

Lemma on_remote_typed f :
  (∀ r, remote_typed r → remote_typed (f r)) → keeps typed (on_remote f) (λ _, True).
Proof. intros Hf. apply keeps_modify; [|done]. intros s []. split; try done. by apply Hf. Qed.

Lemma server_call_typed c : call_typed c → keeps typed (server_call c) (λ _, True).
Proof.
  intros Hc s []. assert (Forall call_typed (calls s ++ [c])) by (apply Forall_app; auto).
  unfold server_call. destruct (call_throws _ _); by split.
Qed.

Lemma send_typed p msg : is_node_id p → msg_typed msg → keeps typed (send p msg) (λ _, True).
Proof. intros. by apply server_call_typed. Qed.

Lemma local_id_typed : keeps typed (gets (λ s, local_node_id (node s))) is_node_id.
Proof. apply keeps_gets. intros s []. by apply nt_local. Qed.

Lemma visit_typed op e :
  op_typed op →
  keeps store_typed (visit op e)
    (λ e', op_type op = READ → ∀ l, (exec_result e').1 = Some l → Forall is_value l).
Proof.
  intros [Hk Hv] st Hst. destruct (visit_spec op e st) as (e' & -> & Hres). simpl. split.
  - destruct op as [k|k x]; simpl in *; [done|]. intros k' l. rewrite kv_get_append.
    case_decide as E; [|apply Hst]. subst k'. intros [= <-]. split; [done|].
    apply Forall_app. split; [|by constructor].
    destruct (kv_get st k) eqn:E; [by apply (Hst _ _ E)|constructor].
  - intros Hr l El. rewrite Hres in El by done. by apply (Hst _ _ El).
Qed.

(** *** Waiting for locks *)
Definition wakeups_typed (w : Wakeups) : Prop := ∀ st f, (st, f) ∈ w → ∀ s, typed s → typed (f s).

Record interference_typed (env : Interference) : Prop := {
  it_entry l : locks_typed l → locks_typed (before_entry env l);
  it_window i l : locks_typed l → locks_typed (in_window env i l);
}.

Record op_wait_env_typed (w : OpWait) : Prop := {
  ot_before_call s : typed s → typed (before_call w s);
  ot_before_wait s : typed s → typed (before_wait w s);
  ot_wakeups : wakeups_typed (op_wakeups w);
  ot_before_result s : typed s → typed (before_result w s);
}.

Record env_typed (env : Environment) : Prop := {
  et_acquire k : interference_typed (env_acquire env k);
  et_lock_wait : wakeups_typed (env_lock_wait env);
  et_op_wait i : op_wait_env_typed (env_op_wait env i);
}.

Lemma wakeups_typed_head st f w : wakeups_typed ((st, f) :: w) → keeps typed (modify f) (λ _, True).
Proof. intros Hw. apply keeps_modify; [|done]. apply (Hw st). by left. Qed.
Lemma wakeups_typed_tail x w : wakeups_typed (x :: w) → wakeups_typed w.
Proof. intros Hw st f Hin. apply (Hw st). by right. Qed.

Lemma groups_typed_insert n X m :
  is_node_id n → keys_typed X → groups_typed m → groups_typed (<[n := X]> m).
Proof. intros. by apply map_Forall_insert_2. Qed.
Lemma groups_typed_empty : groups_typed ∅.
Proof. apply map_Forall_empty. Qed.
Lemma groups_typed_delete n m : groups_typed m → groups_typed (delete n m).
Proof. apply map_Forall_delete. Qed.

Lemma pending_at_typed t r : remote_typed r → groups_typed (pending_at t r).
Proof.
  intros [Hl _ _]. unfold pending_at. destruct (_ !! t) eqn:E; [by apply (Hl _ _ E)|].
  apply groups_typed_empty.
Qed.

Lemma set_pending_typed t m r :
  is_tx_id t → groups_typed m → remote_typed r →
  remote_typed (set_pending_locks (<[t := m]> (pending_remote_locks r)) r).
Proof. intros Ht Hm []. split; [|done..]. by apply map_Forall_insert_2. Qed.

Lemma erase_pending_typed t r : remote_typed r → remote_typed (erase_pending t r).
Proof. intros []. split; [|done..]. by apply map_Forall_delete. Qed.

Lemma touch_pending_typed t r : is_tx_id t → remote_typed r → remote_typed (touch_pending t r).
Proof. intros. apply set_pending_typed; auto using pending_at_typed. Qed.

Lemma add_pending_typed t n k r :
  is_tx_id t → is_node_id n → is_key k → remote_typed r → remote_typed (add_pending t n k r).
Proof.
  intros Ht Hn Hk Hr. pose proof (pending_at_typed t r Hr).
  apply set_pending_typed; [done| |done]. apply groups_typed_insert; eauto with typing.
Qed.

Lemma node_keys_typed c m p k : groups_typed m → (p, k) ∈ node_keys c m → is_node_id p ∧ is_key k.
Proof.
  intros Hm Hk%elem_of_node_keys. unfold set_at in Hk.
  destruct (m !! p) as [X|] eqn:E; [|set_solver]. destruct (Hm _ _ E). auto.
Qed.

Lemma send_each_typed type t l :
  is_tx_id t → (∀ p k, (p, k) ∈ l → is_node_id p ∧ is_key k) →
  keeps typed (send_each type t l) (λ _, True).
Proof.
  intros Ht Hl. apply keeps_for_each. intros [p k] Hin. destruct (Hl _ _ Hin).
  apply send_typed; [done|by apply tx_key_message_typed].
Qed.

Section waiting.
Context (t : TransactionId) (Ht : is_tx_id t).

Lemma touched_typed : keeps typed (on_remote (touch_pending t)) (λ _, True).
Proof. apply on_remote_typed. intros. by apply touch_pending_typed. Qed.
Lemma pending_typed : keeps typed (gets (λ s, pending_at t (remote s))) groups_typed.
Proof. apply keeps_gets. intros s []. by apply pending_at_typed. Qed.

Lemma lock_wait_timeout_typed : keeps typed (lock_wait_timeout t) (λ _, True).
Proof.
  unfold lock_wait_timeout. eapply keeps_bind; [apply touched_typed|intros _ _].
  eapply keeps_bind; [apply pending_typed|intros m Hm].
  eapply keeps_bind; [apply send_each_typed; eauto using node_keys_typed|intros _ _].
  eapply keeps_bind; [apply on_remote_typed; auto using erase_pending_typed|intros _ _].
  by apply keeps_ret.
Qed.

Lemma lock_wait_typed w : wakeups_typed w → keeps typed (lock_wait w t) (λ _, True).
Proof.
  induction w as [|[st f] w IH]; intros Hw; cbn [lock_wait];
    (eapply keeps_bind; [apply touched_typed|intros _ _]);
    (eapply keeps_bind; [apply pending_typed|intros m Hm]);
    (case_decide; [by apply keeps_ret|]); [apply lock_wait_timeout_typed|].
  destruct st; (eapply keeps_bind; [by eapply wakeups_typed_head|intros _ _]);
    [|apply lock_wait_timeout_typed]. apply IH. by eapply wakeups_typed_tail.
Qed.

Lemma acquire_remote_typed w m :
  wakeups_typed w → groups_typed m →
  keeps typed (acquire_remote_locks_with_retry w m t) (λ _, True).
Proof.
  intros Hw Hm. unfold acquire_remote_locks_with_retry.
  eapply keeps_bind; [|intros _ _; eapply keeps_bind; [|intros _ _; by apply lock_wait_typed]].
  - apply keeps_for_each. intros [p k] Hin. destruct (node_keys_typed _ _ _ _ Hm Hin).
    apply on_remote_typed. intros. by apply add_pending_typed.
  - apply send_each_typed; eauto using node_keys_typed.
Qed.

Lemma release_all_keeps : keeps typed (on_locks (modify (release_all t))) (λ _, True).
Proof. apply on_locks_typed, keeps_modify; [|done]. intros. by apply release_all_typed. Qed.

Lemma acquire_keeps env key :
  interference_typed env → is_key key → keeps typed (on_locks (acquire env key t)) (λ _, True).
Proof. intros [He Hw] Hk. apply on_locks_typed. by apply acquire_typed. Qed.

Lemma acquire_local_typed env keys :
  (∀ k, interference_typed (env k)) → (∀ k, k ∈ keys → is_key k) →
  keeps typed (acquire_local env keys t) (λ _, True).
Proof.
  intros Henv. induction keys as [|k keys IH]; intros Hk; cbn [acquire_local];
    [by apply keeps_ret|].
  eapply keeps_bind; [apply acquire_keeps; [done|apply Hk; by left]|intros [] _].
  - apply IH. intros. apply Hk. by right.
  - eapply keeps_bind; [apply release_all_keeps|intros _ _; by apply keeps_ret].
Qed.

Lemma acquire_all_locks_typed env n :
  env_typed env → groups_typed n → keeps typed (acquire_all_locks env n t) (λ _, True).
Proof.
  intros Henv Hn. unfold acquire_all_locks. eapply keeps_bind; [apply local_id_typed|intros L HL].
  eapply keeps_bind; [apply acquire_local_typed; [apply Henv|]|intros [] _].
  - intros k. rewrite elem_of_iter_order. by apply (keys_typed_at (P := is_node_id)).
  - case_decide; [by apply keeps_ret|].
    eapply keeps_bind; [apply acquire_remote_typed; [apply Henv|by apply groups_typed_delete]|].
    intros [] _; [by apply keeps_ret|].
    eapply keeps_bind; [apply release_all_keeps|intros _ _; by apply keeps_ret].
  - by apply keeps_ret.
Qed.

Lemma release_all_locks_typed n :
  groups_typed n → keeps typed (release_all_locks n t) (λ _, True).
Proof.
  intros Hn. unfold release_all_locks. eapply keeps_bind; [apply release_all_keeps|intros _ _].
  eapply keeps_bind; [apply local_id_typed|intros L _]. apply send_each_typed; [done|].
  intros p k [_ Hin]%list_elem_of_filter. by eapply node_keys_typed.
Qed.
End waiting.

(** *** Operations *)
Lemma ops_at_typed t r n k :
  remote_typed r → (n, k) ∈ ops_at t r → is_node_id n ∧ is_key k.
Proof.
  intros [_ _ Ho]. unfold ops_at, set_at. destruct (_ !! t) as [X|] eqn:E; [|set_solver].
  by apply (Ho _ _ E).
Qed.

Lemma set_ops_typed t X r :
  is_tx_id t → (∀ n k, (n, k) ∈ X → is_node_id n ∧ is_key k) → remote_typed r →
  remote_typed (set_pending_ops (<[t := X]> (pending_remote_ops r)) r).
Proof. intros Ht HX []. split; [done..|]. by apply map_Forall_insert_2. Qed.

Lemma add_pending_op_typed t n k r :
  is_tx_id t → is_node_id n → is_key k → remote_typed r → remote_typed (add_pending_op t (n, k) r).
Proof.
  intros Ht Hn Hk Hr. apply set_ops_typed; [done| |done].
  intros n' k' [E%elem_of_singleton|Hin]%elem_of_union; [naive_solver|by eapply ops_at_typed].
Qed.

Lemma erase_pending_op_typed t p r :
  is_tx_id t → remote_typed r → remote_typed (erase_pending_op t p r).
Proof.
  intros Ht Hr. apply set_ops_typed; [done| |done].
  intros n k [Hin _]%elem_of_difference. by eapply ops_at_typed.
Qed.

Lemma store_result_typed t k l r :
  is_tx_id t → is_key k → Forall is_value l → remote_typed r → remote_typed (store_result t k l r).
Proof.
  intros Ht Hk Hl []. split; [done| |done]. apply map_Forall_insert_2; [|done]. split; [done|].
  apply map_Forall_insert_2; [done|]. destruct (_ !! t) eqn:E; [|apply map_Forall_empty].
  by apply (rt_results0 _ _ E).
Qed.

Definition result_typed (o : option ValueContainer) : Prop := ∀ l, o = Some l → Forall is_value l.

Section operations.
Context (t : TransactionId) (Ht : is_tx_id t).

Lemma op_wait_typed w p : wakeups_typed w → keeps typed (op_wait w t p) (λ _, True).
Proof.
  assert (Herase : keeps typed (_ ← on_remote (erase_pending_op t p); mret false) (λ _, True)).
  { eapply keeps_bind; [|intros _ _; by apply keeps_ret].
    apply on_remote_typed. intros. by apply erase_pending_op_typed. }
  induction w as [|[st f] w IH]; intros Hw; cbn [op_wait];
    (apply (keeps_bind _ _ _ (λ _, True)); [by apply keeps_gets|intros [] _];
     [|by apply keeps_ret]); [done|].
  destruct st; (eapply keeps_bind; [by eapply wakeups_typed_head|intros _ _]); [|done].
  apply IH. by eapply wakeups_typed_tail.
Qed.

Lemma execute_remote_operation_typed w p op :
  op_wait_env_typed w → is_node_id p → op_typed op →
  keeps typed (execute_remote_operation w p t op) result_typed.
Proof.
  intros [Hc Hb Hw Hr] Hp Hop. unfold execute_remote_operation.
  apply keeps_catch_all; [|intros _; by apply keeps_ret].
  apply (keeps_bind _ _ _ (λ _, True)); [by apply keeps_modify|intros _ _].
  eapply keeps_bind; [apply on_remote_typed; intros; apply add_pending_op_typed; apply Hop || done|].
  intros _ _. eapply keeps_bind; [apply send_typed; [done|by apply op_request_typed]|intros _ _].
  apply (keeps_bind _ _ _ (λ _, True)); [by apply keeps_modify|intros _ _].
  eapply keeps_bind; [by apply op_wait_typed|intros [] _]; [|by apply keeps_ret].
  apply (keeps_bind _ _ _ (λ _, True)); [by apply keeps_modify|intros _ _].
  apply keeps_gets. intros s Hs l E. destruct (remote_results (remote s) !! t) eqn:Em; [|done].
  destruct (rt_results _ (ty_remote _ Hs) _ _ Em) as [_ Hm]. by apply (Hm _ _ E).
Qed.

Lemma execute_locally_typed op :
  op_typed op → keeps typed (execute_locally op) (Forall read_typed).
Proof.
  intros Hop. unfold execute_locally.
  eapply keeps_bind; [by apply on_store_typed, visit_typed|intros e He]. apply keeps_ret.
  destruct (op_type op); [|done]. apply Forall_singleton. split; [apply Hop|by apply He].
Qed.

Lemma execute_operations_typed env m i tx res :
  env_typed env → map_Forall (λ _ n, is_node_id n) m → Forall op_typed tx →
  Forall read_typed res → keeps typed (execute_operations env m t i tx res) (Forall read_typed).
Proof.
  intros Henv Hm Htx. revert i res. induction Htx as [|op tx Hop _ IH]; intros i res Hres;
    cbn [execute_operations]; [by apply keeps_ret|].
  eapply keeps_bind; [apply local_id_typed|intros L HL].
  assert (Hprim : is_node_id (default 0%Z (m !! op_key op))).
  { destruct (m !! op_key op) eqn:E; [by apply (Hm _ _ E)|]. split; done. }
  case_decide.
  - eapply keeps_bind; [by apply execute_locally_typed|intros r Hr]. apply IH.
    by apply Forall_app.
  - eapply keeps_bind; [by apply execute_remote_operation_typed; [apply Henv|..]|].
    intros [l|] Hl; apply IH; [|done]. apply Forall_app. split; [done|]. apply Forall_singleton.
    split; [apply Hop|]. intros l' [= <-]. by apply Hl.
Qed.
End operations.

(** *** Transactions *)
Lemma get_primary_node_typed c key p : get_primary_node c key = Some p → is_node_id p.
Proof.
  unfold get_primary_node. case_decide; [done|]. intros [= <-]. by apply wrap_u_range.
Qed.

Lemma primary_of_typed key : keeps typed (primary_of key) is_node_id.
Proof.
  unfold primary_of. apply (keeps_bind _ _ _ (λ _, True)).
  { apply (keeps_bind _ _ _ (λ _, True)); [by apply keeps_gets|intros; by apply keeps_lift]. }
  intros [] _; [apply local_id_typed|].
  apply (keeps_bind _ _ _ (λ o, ∀ p, o = Some p → is_node_id p)).
  - apply keeps_gets. intros s _ p E. destruct (coordinator (node s)); [|done].
    by eapply get_primary_node_typed.
  - intros o Ho. by apply keeps_lift.
Qed.

Lemma categorize_typed tx m n :
  Forall op_typed tx → map_Forall (λ _ p, is_node_id p) m → groups_typed n →
  keeps typed (categorize tx m n)
    (λ mn, map_Forall (λ _ p, is_node_id p) mn.1 ∧ groups_typed mn.2).
Proof.
  intros Htx. revert m n. induction Htx as [|op tx Hop _ IH]; intros m n Hm Hn;
    cbn [categorize]; [by apply keeps_ret|].
  eapply keeps_bind; [apply primary_of_typed|intros p Hp]. apply IH.
  - by apply map_Forall_insert_2.
  - apply groups_typed_insert; [done| |done]. destruct Hop. eauto with typing.
Qed.

Lemma execute_typed env tx t :
  env_typed env → Forall op_typed tx → is_tx_id t →
  keeps typed (execute_with_distributed_support env tx t) (Forall read_typed).
Proof.
  intros Henv Htx Ht. unfold execute_with_distributed_support.
  eapply keeps_bind; [apply categorize_typed; [done|apply map_Forall_empty..]|].
  intros [m n] [Hm Hn]. simpl in Hm, Hn.
  eapply keeps_bind; [by apply acquire_all_locks_typed|intros [] _]; [|by apply keeps_ret].
  apply keeps_catch_all.
  - eapply keeps_bind; [by apply execute_operations_typed|intros r Hr].
    eapply keeps_bind; [by apply release_all_locks_typed|intros _ _; by apply keeps_ret].
  - intros e. eapply keeps_bind; [by apply release_all_locks_typed|intros _ _; by apply keeps_throw].
Qed.

Lemma execute_transaction_typed env tx :
  env_typed env → Forall op_typed tx → keeps typed (execute_transaction env tx) (Forall read_typed).
Proof.
  intros Henv Htx. unfold execute_transaction.
  eapply keeps_bind; [apply (keeps_gets _ _ is_tx_id); by intros s []|intros t Ht].
  eapply keeps_bind; [|intros _ _; by apply execute_typed].
  apply (keeps_modify _ _ (λ _, True)); [|done]. intros s []. split; try done.
  by apply wrap_u_range.
Qed.

(** *** Messages from peers *)
Section messages.
Context (env : Interference) (Henv : interference_typed env).
Context (peer : NodeID) (Hpeer : is_node_id peer) (msg : object) (Hmsg : msg_typed msg).

Lemma field_typed name : keeps typed (at_ msg name) value_typed.
Proof. apply keeps_lift. apply Hmsg. Qed.

Lemma uint64_field_typed name : keeps typed (v ← at_ msg name; uint64_of v) is_tx_id.
Proof.
  eapply keeps_bind; [apply field_typed|intros v Hv]. apply keeps_lift.
  intros z ->%as_uint64_spec. by apply Hv.
Qed.

Lemma int64_field_typed name : keeps typed (v ← at_ msg name; int64_of v) is_key.
Proof.
  eapply keeps_bind; [apply field_typed|intros v Hv]. apply keeps_lift.
  intros z ->%as_int64_spec. by apply Hv.
Qed.

Lemma string_field_typed name : keeps typed (v ← at_ msg name; string_of v) (λ _, True).
Proof. eapply keeps_bind; [apply field_typed|intros v Hv]. by apply keeps_lift. Qed.

Lemma int64_array_typed l :
  (∀ z, v_int64 z ∈ l → in_s 64 z) → keeps typed (int64_array l) (Forall is_value).
Proof.
  induction l as [|v l IH]; intros Hl; cbn [int64_array]; [by apply keeps_ret|].
  apply (keeps_bind _ _ _ is_value).
  { apply keeps_lift. intros z ->%as_int64_spec. apply Hl. by left. }
  intros z Hz. eapply keeps_bind; [apply IH; intros; apply Hl; by right|intros zs Hzs].
  apply keeps_ret. by constructor.
Qed.

(** The checks for missing fields, then the fields read one by one. *)
Ltac fields := apply keeps_catch_std; [|intros; by apply keeps_ret];
  case_match; [by apply keeps_ret|];
  eapply keeps_bind; [apply uint64_field_typed|intros tx_id Htx].

Lemma handle_lock_messages_typed :
  keeps typed (handle_lock_request env peer msg) (λ _, True) ∧
  keeps typed (handle_lock_response peer msg) (λ _, True) ∧
  keeps typed (handle_lock_release peer msg) (λ _, True).
Proof.
  unfold handle_lock_request, handle_lock_response, handle_lock_release.
  split_and!; fields; (eapply keeps_bind; [apply int64_field_typed|intros key Hkey]).
  - eapply keeps_bind; [by apply acquire_keeps|intros r _].
    apply send_typed; [done|by apply tx_key_message_typed].
  - eapply keeps_bind; [apply string_field_typed|intros ty _].
    case_match; [done|]. apply on_remote_typed. intros. by apply erase_pending_typed.
  - apply on_locks_typed, keeps_modify; [|done]. intros. by apply release_typed.
Qed.

Lemma handle_operation_request_typed :
  keeps typed (handle_operation_request peer msg) (λ _, True).
Proof.
  unfold handle_operation_request. fields.
  eapply keeps_bind; [apply string_field_typed|intros ty _].
  eapply keeps_bind; [apply int64_field_typed|intros key Hkey].
  repeat case_decide.
  - case_match; [by apply keeps_ret|].
    eapply keeps_bind; [apply int64_field_typed|intros x Hx].
    eapply keeps_bind; [by apply on_store_typed, visit_typed|intros e _].
    apply send_typed; [done|by apply op_response_typed].
  - eapply keeps_bind; [by apply on_store_typed, visit_typed|intros e He].
    apply send_typed; [done|apply op_response_typed; [done..|by apply He]].
  - apply send_typed; [done|by apply op_response_typed].
Qed.

Lemma handle_operation_response_typed :
  keeps typed (handle_operation_response peer msg) (λ _, True).
Proof.
  unfold handle_operation_response. fields.
  eapply keeps_bind; [apply int64_field_typed|intros key Hkey].
  apply (keeps_bind _ _ _ (λ _, True)).
  { case_match; [|by apply keeps_ret].
    eapply keeps_bind; [apply field_typed|intros; by apply keeps_ret]. }
  intros has _. apply (keeps_bind _ _ _ (Forall is_value)).
  { destruct has; [|by apply keeps_ret].
    eapply keeps_bind; [apply field_typed|intros v (_ & _ & Hv)].
    apply (keeps_bind _ _ _ (λ l, ∀ z, v_int64 z ∈ l → in_s 64 z)).
    - apply keeps_lift. intros l ->%as_array_spec. by apply Hv.
    - intros l Hl. by apply int64_array_typed. }
  intros l Hl. eapply keeps_bind; [apply on_remote_typed; intros; by apply store_result_typed|].
  intros _ _. apply on_remote_typed. intros. by apply erase_pending_op_typed.
Qed.

Lemma handle_prepare_request_typed :
  keeps typed (handle_prepare_request peer msg) (λ _, True).
Proof.
  unfold handle_prepare_request. apply (keeps_bind _ _ _ value_typed).
  - case_match; [apply field_typed|]. apply keeps_ret, uint64_typed. split; done.
  - intros v Hv. apply send_typed; [done|]. auto with typing.
Qed.

Lemma handle_peer_message_typed :
  keeps typed (handle_peer_message env peer msg) (λ _, True).
Proof.
  destruct handle_lock_messages_typed as (? & ? & ?).
  pose proof handle_operation_request_typed. pose proof handle_operation_response_typed.
  pose proof handle_prepare_request_typed.
  unfold handle_peer_message, handle_commit_request, handle_abort_request.
  case_match; [by apply keeps_ret|].
  eapply keeps_bind; [apply string_field_typed|intros ty _]. cbv zeta.
  repeat case_decide; done || by apply keeps_ret.
Qed.
End messages.

(** *** Starting *)
Lemma from_chars_u16_typed x i : from_chars_u16 x = Some i → is_node_id i.
Proof.
  assert (Hd : Forall (λ d, 0 ≤ d)%Z (leading_digits x)).
  { induction x as [|a x IH]; simpl; [done|]. unfold digit_of.
    destruct (decide _); constructor; [lia|done]. }
  assert (Hv : ∀ ds acc, Forall (λ d, 0 ≤ d)%Z ds → (0 ≤ acc)%Z →
                 (0 ≤ foldl (λ acc d, 10 * acc + d) acc ds)%Z).
  { intros ds acc Hds. revert acc. induction Hds; intros acc Hacc; simpl; [done|].
    apply IHHds. lia. }
  unfold from_chars_u16. destruct (leading_digits x) as [|d ds] eqn:E; [done|].
  case_decide; [|done]. intros [= <-]. split; [|done]. by apply Hv.
Qed.

Lemma on_node_typed f :
  (∀ n, node_typed n → node_typed (f n)) → keeps typed (on_node f) (λ _, True).
Proof. intros Hf. apply keeps_modify; [|done]. intros s []. split; try done. by apply Hf. Qed.

Lemma push_peer_ids_typed peers ids :
  Forall is_node_id ids → keeps typed (push_peer_ids peers ids) (Forall is_node_id).
Proof.
  revert ids. induction peers as [|p peers IH]; intros ids Hids; cbn [push_peer_ids];
    [by apply keeps_ret|].
  repeat case_match; try by apply IH.
  apply (keeps_bind _ _ _ (λ _, True)); [by apply keeps_lift|intros z _].
  apply IH, Forall_app. split; [done|]. apply Forall_singleton. by apply wrap_u_range.
Qed.

Lemma start_typed nodeID peers : keeps typed (start nodeID peers) (λ _, True).
Proof.
  unfold start. apply (keeps_bind _ _ _ (λ _, True)).
  { unfold set_own_id. repeat case_match; try by apply keeps_ret.
    eapply keeps_bind; [|intros; by apply keeps_ret]. apply on_node_typed. intros n [].
    split; simpl; by eauto using from_chars_u16_typed. }
  intros [] _; [|by apply keeps_ret]. apply (keeps_bind _ _ _ (λ _, True)).
  - unfold join_cluster. destruct peers as [|p peers]; [by apply keeps_ret|].
    eapply keeps_bind; [apply local_id_typed|intros L HL].
    eapply keeps_bind; [by apply push_peer_ids_typed; constructor|intros ids Hids].
    assert (Forall is_node_id (sort_unique ids)).
    { rewrite Forall_forall in *. intros n. rewrite (proj2 (sort_unique_spec ids)). apply Hids. }
    eapply keeps_bind; [apply on_node_typed|intros _ _].
    { intros n []. split; [done..|]. intros c [= <-]. done. }
    unfold start_message_listener.
    apply (keeps_bind _ _ _ (λ _, True)); [by apply keeps_gets|intros b _].
    eapply keeps_bind; [apply on_node_typed|intros _ _; by apply keeps_ret].
    intros n []. by split.
  - intros [] _; [|by apply keeps_ret].
    eapply keeps_bind; [apply (keeps_gets _ _ is_node_id); intros s []; by apply nt_base|].
    intros id Hid. eapply keeps_bind; [by apply server_call_typed|intros; by apply keeps_ret].
Qed.

Lemma new_scheduler_typed st id : store_typed st → is_node_id id → typed (new_scheduler st id).
Proof.
  intros Hst Hid. split; simpl; [apply new_locks_typed|done|split; done| |split; apply map_Forall_empty|done].
  split; [done|split; done|done].
Qed.

(** ** The life of a node: what the front end and the peers can make it do *)
Inductive node_step : Scheduler S → Scheduler S → Prop :=
  | step_start nodeID peers s : node_step s (start nodeID peers s).2
  | step_transaction env tx s :
      env_typed env → Forall op_typed tx → node_step s (execute_transaction env tx s).2
  | step_message env peer msg s :
      interference_typed env → is_node_id peer → msg_typed msg →
      node_step s (handle_peer_message env peer msg s).2.

Lemma reachable_typed st id s :
  store_typed st → is_node_id id → rtc node_step (new_scheduler st id) s → typed s.
Proof.
  intros Hst Hid Hrtc. pose proof (new_scheduler_typed st id Hst Hid) as Hty.
  induction Hrtc as [s|s1 s2 s3 Hstep _ IH]; [done|]. apply IH.
  destruct Hstep.
  - by apply start_typed.
  - by apply execute_transaction_typed.
  - by apply handle_peer_message_typed.
Qed.

(** C24. Machine types: in every state a node reaches by starting, running transactions and
    handling peer messages - with operations and messages whose numbers fit their types -
    transaction ids are 64-bit unsigned, keys and values 64-bit signed and node ids 16-bit
    unsigned, in the lock table, the store, the pending maps, the node list and every
    message sent to the server; and so are the reads of any transaction run then. *)
Theorem machine_types_invariant st id s env tx :
  store_typed st → is_node_id id → rtc node_step (new_scheduler st id) s →
  env_typed env → Forall op_typed tx →
  typed s ∧ Forall call_typed (calls s) ∧
  ∀ reads s', execute_transaction env tx s = (Ok reads, s') → Forall read_typed reads.
Proof.
  intros Hst Hid Hrtc Henv Htx. pose proof (reachable_typed st id s Hst Hid Hrtc) as Hty.
  split_and!; [done|by apply Hty|]. intros reads s' Hrun.
  destruct (execute_transaction_typed env tx Henv Htx s Hty) as [_ Hr]. by rewrite Hrun in Hr.
Qed.
End typed.

(** ** The hypotheses hold: a node starts, runs a transaction and serves a message *)
Module TypingDemo.
Import Demo.

Lemma quiet_typed : env_typed (S:=demo_store) quiet.
Proof.
  assert (wakeups_typed (S:=demo_store) []) by (by intros st f ?%not_elem_of_nil).
  split; [by split|done|by split].
Qed.

Lemma demo_store_typed : store_typed (store demo_node).
Proof.
  intros k l E. change (({[1 := [10]]} : gmap Z (list Z)) !! k = Some l)%Z in E.
  apply lookup_singleton_Some in E as [<- <-].
  split; [split; done|]. apply Forall_singleton. split; done.
Qed.

Definition typing_tx : Transaction := [AppendOp 2 (-5); ReadOp 1].

Lemma typing_tx_typed : Forall op_typed typing_tx.
Proof. repeat constructor; done. Qed.

Definition served_node : Scheduler demo_store :=
  (handle_peer_message no_interference 1 (tx_key_message MessageType.LOCK_REQUEST 9 4)
     (execute_transaction quiet typing_tx (start "n0" ["n1"%string] demo_node).2).2).2.

Lemma machine_types_invariant_witness :
  typed served_node ∧
  ∀ reads s', execute_transaction quiet typing_tx served_node = (Ok reads, s') →
    Forall read_typed reads.
Proof.
  destruct (machine_types_invariant {[ 1%Z := [10%Z] ]} 0 served_node quiet typing_tx
              demo_store_typed) as (Hty & _ & Hreads).
  - split; done.
  - eapply rtc_l; [apply (step_start "n0" ["n1"%string])|].
    eapply rtc_l; [apply (step_transaction quiet typing_tx); [apply quiet_typed|apply typing_tx_typed]|].
    eapply rtc_l; [|apply rtc_refl]. apply step_message; [by split|split; done|].
    apply tx_key_message_typed; split; done.
  - apply quiet_typed.
  - apply typing_tx_typed.
  - split; [exact Hty|exact Hreads].
Defined.
End TypingDemo.
