(* ===== verification/Maelstrom.v ===== *)
(** * The Maelstrom front end

    [lib/include/system/maelstrom.h], [lib/src/system/maelstrom.cpp] and the
    echo handler [lib/src/system/EchoMessageHandler.cpp]: messages, the node's
    start-up handshake, dispatch to handlers and the main loop. *)
From S2P Require Import Prelude Operations Json.

(** [boost::json::parse] on a line of input; [None]: it throws. *)
Class JsonText `{Json} := json_parse : string → option value.

(** [errorStream << ... << args] *)
Fixpoint streamed (args : list string) : string :=
  match args with
  | [] => ""
  | [x] => x
  | x :: args' => x +:+ streamed args'
  end.
(** [raiseRuntimeError(args...)] throws a [std::runtime_error]. *)
Definition raiseRuntimeError {St A} (args : list string) : M St A := throw (StdException (streamed args)).

(** ** Messages *)
Record Message `{Json} := mkMessage {
  _sender : string;
  _recipient : string;
  _type : string;
  _body : object;
  _msgId : option Z;
  _inReplyTo : option Z;
}.

Section message.
Context `{Json}.

(** The getters. *)
Definition getSender (m : Message) : string := _sender m.
Definition getRecipient (m : Message) : string := _recipient m.
Definition getType (m : Message) : string := _type m.
Definition getBody (m : Message) : object := _body m.
Definition getMsgId (m : Message) : option Z := _msgId m.
Definition getInReplyTo (m : Message) : option Z := _inReplyTo m.

(** A name of [_body] stored in an [int]: [as_int64] narrowed to 32 bits. *)
Definition int_field {St} (body : object) (name : string) : M St (option Z) :=
  if contains body name
  then v ← at_ body name; z ← int64_of v; mret (Some (i32 z))
  else mret None.

(** [Message(const std::string &strMessage)] *)
Definition parse_message `{!JsonText} {St} (strMessage : string) : M St Message :=
  jsonValue ← lift_opt "syntax_error" (json_parse strMessage);
  if negb (is_object jsonValue)
  then raiseRuntimeError ["Invalid message: "; strMessage]
  else
    jsonObject ← object_of jsonValue;
    src ← (v ← at_ jsonObject "src"; string_of v);
    dest ← (v ← at_ jsonObject "dest"; string_of v);
    body ← (v ← at_ jsonObject "body"; object_of v);
    type ← (v ← at_ body "type"; string_of v);
    msgId ← int_field body "msg_id";
    inReplyTo ← int_field body "in_reply_to";
    mret (mkMessage _ (c_str src) (c_str dest) (c_str type) body msgId inReplyTo).

(** [Message(sender, recipent, type, body, msgId, inReplyTo)] *)
Definition new_message {St} (sender recipient type : string) (body : object)
    (msgId inReplyTo : option Z) : M St Message :=
  let body := obj_set body "type" (v_string type) in
  match msgId, inReplyTo with
  | Some _, Some _ => raiseRuntimeError ["'msg_Id' and 'in_reply_to' cannot be set together"%string]
  | _, _ =>
      let body := match msgId with
                  | Some i => let body := obj_set body "msg_id" (v_int64 i) in
                              if contains body "in_reply_to"
                              then obj_erase body "in_reply_to" else body
                  | None => body
                  end in
      let body := match inReplyTo with
                  | Some i => let body := obj_set body "in_reply_to" (v_int64 i) in
                              if contains body "msg_id" then obj_erase body "msg_id" else body
                  | None => body
                  end in
      mret (mkMessage _ sender recipient type body msgId inReplyTo)
  end.

(** What [Message::send] prints. *)
Definition json_message (m : Message) : object :=
  obj_set (obj_set (obj_set obj_empty "src" (v_string (_sender m)))
             "dest" (v_string (_recipient m)))
    "body" (v_object (_body m)).
End message.
#[global] Arguments new_message : simpl never.

(** ** The node *)
Section node.
Context `{Json}.
Context {A : Type}.   (* the state the handlers share *)

(** What a handler can change: its own objects and standard output. *)
Record World := mkWorld { app : A; output : list object }.

Definition send_message (m : Message) : M World unit :=
  modify (λ w, mkWorld (app w) (output w ++ [json_message m])).
Definition on_app {B} : M A B → M World B := zoom app (λ a w, mkWorld a (output w)).

Record MessageHandler := { name : string; handle : Message → M World unit }.
Definition InitHandler : Type := string → list string → M World bool.

Record Node := mkNodeM {
  _messageHandlers : gmap string MessageHandler;
  _nodeId : option string;
  _peerIds : list string;
  _initHandler : list InitHandler;
  _pool : list (MessageHandler * Message);   (* posted, not yet run *)
  world : World;
}.

Definition on_world {B} : M World B → M Node B :=
  zoom world (λ w n, mkNodeM (_messageHandlers n) (_nodeId n) (_peerIds n) (_initHandler n)
                       (_pool n) w).

Definition registerMessageHandler (h : MessageHandler) : M Node unit :=
  modify (λ n, mkNodeM (<[name h := h]> (_messageHandlers n)) (_nodeId n) (_peerIds n)
                 (_initHandler n) (_pool n) (world n)).
Definition registerInitHandler (f : InitHandler) : M Node unit :=
  modify (λ n, mkNodeM (_messageHandlers n) (_nodeId n) (_peerIds n) (_initHandler n ++ [f])
                 (_pool n) (world n)).

Definition set_nodeId (i : string) (n : Node) : Node :=
  mkNodeM (_messageHandlers n) (Some i) (_peerIds n) (_initHandler n) (_pool n) (world n).
Definition set_peerIds (l : list string) (n : Node) : Node :=
  mkNodeM (_messageHandlers n) (_nodeId n) l (_initHandler n) (_pool n) (world n).
Definition post (h : MessageHandler) (m : Message) (n : Node) : Node :=
  mkNodeM (_messageHandlers n) (_nodeId n) (_peerIds n) (_initHandler n)
    (_pool n ++ [(h, m)]) (world n).

(** The loop over [node_ids]; the node's own id is skipped. *)
Fixpoint push_peers (self : string) (items : list value) : M Node unit :=
  match items with
  | [] => mret tt
  | item :: items' =>
      x ← string_of item;
      _ ← (if decide (x = self) then mret tt
           else modify (λ n, set_peerIds (_peerIds n ++ [c_str x]) n));
      push_peers self items'
  end.

(** [std::ranges::all_of]: stops at the first handler that returns false. *)
Fixpoint all_of (hs : list InitHandler) (nodeId : string) (peers : list string)
    : M Node bool :=
  match hs with
  | [] => mret true
  | h :: hs' =>
      ok ← on_world (h nodeId peers);
      if (ok : bool) then all_of hs' nodeId peers else mret false
  end.

Definition _init (message : Message) : M Node unit :=
  id ← gets _nodeId;
  match id with
  | Some i => raiseRuntimeError ["Node: "; i; " already initialized"]
  | None =>
      let requestBody := getBody message in
      raw ← (v ← at_ requestBody "node_id"; string_of v);
      let self := c_str raw in
      _ ← modify (set_nodeId self);
      _ ← modify (set_peerIds []);
      items ← (v ← at_ requestBody "node_ids"; array_of v);
      _ ← push_peers self items;
      peers ← gets _peerIds;
      hs ← gets _initHandler;
      init_state ← all_of hs self peers;
      response ← new_message (getRecipient message) (getSender message)
                   (if (init_state : bool) then "init_ok" else "error") obj_empty
                   None (getMsgId message);
      on_world (send_message response)
  end.

Definition handleMessage (message : Message) : M Node unit :=
  if decide (getType message = "init"%string) then _init message
  else
    hs ← gets _messageHandlers;
    match hs !! getType message with
    | Some h => modify (post h message)
    | None => raiseRuntimeError ["No handler found for message type"; getType message]
    end.

(** [Node::run] on the lines of standard input; the end of the input reads
    as an empty line. *)
Fixpoint run_node `{!JsonText} (lines : list string) : M Node unit :=
  match lines with
  | [] => mret tt
  | inputLine :: lines' =>
      if decide (inputLine = ""%string) then mret tt
      else
        request ← parse_message inputLine;
        _ ← handleMessage request;
        run_node lines'
  end.

(** A thread of the pool takes the [i]-th posted task. *)
Definition run_task (i : nat) : M Node unit :=
  t ← gets (λ n, _pool n !! i);
  match t with
  | Some (h, m) =>
      _ ← modify (λ n, mkNodeM (_messageHandlers n) (_nodeId n) (_peerIds n) (_initHandler n)
                         (delete i (_pool n)) (world n));
      on_world (handle h m)
  | None => mret tt
  end.

(** ** [EchoMessageHandler] *)
Definition EchoMessageHandler : MessageHandler := {|
  name := "echo";
  handle request :=
    response ← new_message (getRecipient request) (getSender request) "echo_ok" (getBody request)
                 None (getMsgId request);
    send_message response
|}.
End node.
Arguments World {_} A.
Arguments Node {_} A.
Arguments MessageHandler {_} A.
Arguments InitHandler {_} A.
Arguments EchoMessageHandler {_} A.

(** ** Replies *)
Section replies.
Context `{JsonSpec}.

(** The body a reply to message [i] of type [type] is built from. *)
Record reply_body (type : string) (i : Z) (body body' : object) : Prop := {
  reply_type : obj_at body' "type" = Some (v_string type);
  reply_to : obj_at body' "in_reply_to" = Some (v_int64 i);
  reply_no_id : obj_at body' "msg_id" = None;
  reply_rest k : k ∉ ["type"; "in_reply_to"; "msg_id"]%string → obj_at body' k = obj_at body k;
}.

(** A name erased if it is there. *)
Lemma erase_if_contained o k k' :
  obj_at (if contains o k then obj_erase o k else o) k' = if decide (k = k') then None else obj_at o k'.
Proof.
  unfold contains. case_bool_decide as Hc; [apply obj_at_erase|].
  case_decide as Hk; [subst|done]. by apply eq_None_not_Some.
Qed.

Lemma new_message_reply sender recipient type body i :
  ∃ body', (∀ St (st : St), new_message sender recipient type body None (Some i) st =
             (Ok (mkMessage _ sender recipient type body' None (Some i)), st)) ∧
           reply_body type i body body'.
Proof.
  eexists. split; [intros; reflexivity|]. set (b := obj_set _ _ _).
  split; [..|intros k Hk]; rewrite erase_if_contained; unfold b; autorewrite with json;
    repeat case_decide; set_solver.
Qed.

(** What is printed for a message. *)
Lemma json_message_fields m :
  obj_at (json_message m) "src" = Some (v_string (_sender m)) ∧
  obj_at (json_message m) "dest" = Some (v_string (_recipient m)) ∧
  obj_at (json_message m) "body" = Some (v_object (_body m)).
Proof. unfold json_message. split_and!; by jred. Qed.

(** [o] is the printed reply to request [m]. *)
Definition is_reply (m : Message) (type : string) (i : Z) (body : object) (o : object) : Prop :=
  obj_at o "src" = Some (v_string (_recipient m)) ∧
  obj_at o "dest" = Some (v_string (_sender m)) ∧
  ∃ body', obj_at o "body" = Some (v_object body') ∧ reply_body type i body body'.

Lemma reply_message m type i body :
  _msgId m = Some i →
  ∃ r, (∀ St (st : St), new_message (_recipient m) (_sender m) type body None (_msgId m) st =
          (Ok r, st)) ∧ is_reply m type i body (json_message r).
Proof.
  intros ->. destruct (new_message_reply (_recipient m) (_sender m) type body i)
    as (body' & Hnew & Hbody).
  set (r := mkMessage _ (_recipient m) (_sender m) type body' None (Some i)) in Hnew.
  exists r. split; [exact Hnew|].
  destruct (json_message_fields r) as (? & ? & ?). split_and!; [done..|]. by exists body'.
Qed.

Lemma send_reply {A} m type i body (w : World A) :
  _msgId m = Some i →
  ∃ o, (response ← new_message (_recipient m) (_sender m) type body None (_msgId m);
        send_message response) w = (Ok tt, mkWorld (app w) (output w ++ [o])) ∧
       is_reply m type i body o.
Proof.
  intros Hi. destruct (reply_message m type i body Hi) as (r & Hnew & Hrep).
  exists (json_message r). split; [|done]. by rewrite (bind_ok _ _ _ _ _ (Hnew _ w)).
Qed.

(** *** Reading a request *)

(** The fields of a request with id [z]. *)
Record request_text `{!JsonText} (line : string) (src dest type : string) (body : object) (z : Z)
    : Prop := {
  text_object : ∃ o, json_parse line = Some (v_object o) ∧
    obj_at o "src" = Some (v_string src) ∧ obj_at o "dest" = Some (v_string dest) ∧
    obj_at o "body" = Some (v_object body);
  text_type : obj_at body "type" = Some (v_string type);
  text_id : obj_at body "msg_id" = Some (v_int64 z);
  text_reply : obj_at body "in_reply_to" = None;
}.

Lemma parse_request `{!JsonText} {St} line src dest type body z (st : St) :
  request_text line src dest type body z →
  parse_message line st =
    (Ok (mkMessage _ (c_str src) (c_str dest) (c_str type) body (Some (i32 z)) None), st).
Proof.
  intros [(o & Hp & Hs & Hd & Hb) Ht Hi Hr]. unfold parse_message, int_field, is_object. mred.
  rewrite Hp. rewrite kind_of_object. simpl. rewrite as_object_object. simpl.
  rewrite Hs, as_string_string. simpl. rewrite Hd, as_string_string. simpl.
  rewrite Hb, as_object_object. simpl. rewrite Ht, as_string_string. simpl.
  rewrite (contains_at _ _ _ Hi), (contains_not _ _ Hr). by rewrite Hi, as_int64_int64.
Qed.

Lemma on_world_run {A B} (m : M (World A) B) (n : Node A) r w :
  m (world n) = (r, w) →
  on_world m n = (r, mkNodeM (_messageHandlers n) (_nodeId n) (_peerIds n) (_initHandler n)
                       (_pool n) w).
Proof. intros E. unfold on_world, zoom. by rewrite E. Qed.

(** An echo request from its line of text to the reply: parsing, dispatch and the echo
    handler print one message from the node to the client whose body is the request's body
    with type echo_ok, in_reply_to set and msg_id removed; the id is narrowed to 32 bits,
    and it is the request's id exactly when that fits an int. *)
Theorem echo_request_answered `{!JsonText} {A} line src dest body z (n : Node A) :
  request_text line src dest "echo" body z → line ≠ ""%string →
  _messageHandlers n !! "echo"%string = Some (EchoMessageHandler A) → _pool n = [] →
  ∃ n' o, (_ ← run_node [line]; run_task 0) n = (Ok tt, n') ∧
    output (world n') = output (world n) ++ [o] ∧
    obj_at o "src" = Some (v_string (c_str dest)) ∧
    obj_at o "dest" = Some (v_string (c_str src)) ∧
    ∃ body', obj_at o "body" = Some (v_object body') ∧
             reply_body "echo_ok" (i32 z) body body' ∧ (i32 z = z ↔ in_s 32 z).
Proof.
  intros Hreq Hne Hh Hpool. cbn [run_node]. rewrite decide_False by done.
  set (m := mkMessage _ (c_str src) (c_str dest) (c_str "echo") body (Some (i32 z)) None).
  assert (Hrun : (request ← parse_message line; _ ← handleMessage request; mret tt) n =
                   (Ok tt, post (EchoMessageHandler A) m n)).
  { rewrite (bind_ok _ _ _ _ _ (parse_request _ _ _ _ _ _ n Hreq)). fold m.
    unfold handleMessage, getType. rewrite decide_False by done.
    unfold mbind, M_bind, gets. simpl. by rewrite Hh. }
  rewrite (bind_ok _ _ _ _ _ Hrun). unfold run_task. rewrite bind_gets. simpl. rewrite Hpool.
  cbn [Datatypes.app lookup list_lookup]. rewrite bind_modify.
  destruct (send_reply m "echo_ok" (i32 z) body (world n) eq_refl)
    as (o & Hsend & Hsrc & Hdest & body' & Hbody & Hrep).
  eexists _, o. split; [apply on_world_run; exact Hsend|].
  split; [done|]. split; [done|]. split; [done|]. exists body'. split; [done|].
  split; [done|]. split.
  - intros <-. by apply wrap_s_range.
  - by apply wrap_s_small.
Qed.
End replies.

(** ** Printing and parsing back *)
Section roundtrip.
Context `{JsonSpec} `{!JsonWire} `{!JsonWireSpec} `{!JsonText}.

(** The fields the second constructor leaves in the body. *)
Record body_fields (type : string) (msgId inReplyTo : option Z) (body : object) : Prop := {
  body_type : obj_at body "type" = Some (v_string type);
  body_msg_id : obj_at body "msg_id" = v_int64 <$> msgId;
  body_in_reply_to : obj_at body "in_reply_to" = v_int64 <$> inReplyTo;
}.

Lemma new_message_fields {St} sender recipient type body msgId inReplyTo (st : St) m :
  new_message sender recipient type body msgId inReplyTo st = (Ok m, st) →
  (msgId = None → inReplyTo = None →
     obj_at body "msg_id" = None ∧ obj_at body "in_reply_to" = None) →
  ∃ body', m = mkMessage _ sender recipient type body' msgId inReplyTo ∧
    body_fields type msgId inReplyTo body'.
Proof.
  unfold new_message. intros Hm Hb.
  destruct msgId as [i|], inReplyTo as [j|]; cbv [mret M_ret throw] in Hm; simplify_eq;
    eexists; (split; [done|]); split; simpl; rewrite ?erase_if_contained; jred; try done.
  all: by apply Hb.
Qed.

(** A field stored as an [int] comes back if it fits one. *)
Lemma int_field_back {St} body body' name z (st : St) :
  (∀ k, obj_at body' k = wire <$> obj_at body k) → obj_at body name = v_int64 <$> z →
  (∀ i, z = Some i → in_s 32 i) → int_field body' name st = (Ok z, st).
Proof.
  intros Hw Hz Hr. specialize (Hw name). rewrite Hz in Hw. unfold int_field.
  destruct z as [i|]; simpl in Hw.
  - pose proof (Hr i eq_refl) as Hi.
    rewrite wire_int64 in Hw by (unfold in_s in *; lia).
    rewrite (contains_at _ _ _ Hw). mred. rewrite Hw, as_int64_int64. simpl.
    unfold i32. by rewrite wrap_s_small by done.
  - by rewrite (contains_not _ _ Hw).
Qed.

(** C28. A message printed and read back: if the second constructor built a message and a
    line parses to what send prints for it, the first constructor reads from that line a
    message with the same sender, recipient, type, msg_id and in_reply_to, and with the same
    body up to the kinds of its numbers - for names without NUL characters and ids of 32
    bits, and a body that does not bring ids of its own. *)
Theorem printed_message_parses_back {St} sender recipient type body msgId inReplyTo m line (st : St) :
  new_message sender recipient type body msgId inReplyTo st = (Ok m, st) →
  json_parse line = Some (wire (v_object (json_message m))) →
  c_str sender = sender → c_str recipient = recipient → c_str type = type →
  (∀ i, msgId = Some i ∨ inReplyTo = Some i → in_s 32 i) →
  (msgId = None → inReplyTo = None →
     obj_at body "msg_id" = None ∧ obj_at body "in_reply_to" = None) →
  ∃ m', parse_message line st = (Ok m', st) ∧
    getSender m' = sender ∧ getRecipient m' = recipient ∧ getType m' = type ∧
    getMsgId m' = msgId ∧ getInReplyTo m' = inReplyTo ∧
    ∀ k, obj_at (getBody m') k = wire <$> obj_at (getBody m) k.
Proof.
  intros Hnew Hline Hs Hd Ht Hids Hnone.
  destruct (new_message_fields _ _ _ _ _ _ _ _ Hnew Hnone) as (b & -> & [Hbt Hbi Hbr]).
  destruct (wire_object (json_message (mkMessage _ sender recipient type b msgId inReplyTo)))
    as (o & Ho & Hof).
  destruct (wire_object b) as (b' & Hb' & Hbf).
  destruct (json_message_fields (mkMessage _ sender recipient type b msgId inReplyTo))
    as (Hsrc & Hdest & Hbody). simpl in *.
  exists (mkMessage _ sender recipient type b' msgId inReplyTo). split; [|done].
  assert (Hi : int_field b' "msg_id" st = (Ok msgId, st))
    by (eapply int_field_back; eauto).
  assert (Hr : int_field b' "in_reply_to" st = (Ok inReplyTo, st))
    by (eapply int_field_back; eauto).
  unfold parse_message, is_object. mred. rewrite Hline, Ho, kind_of_object. simpl.
  rewrite as_object_object. simpl.
  rewrite Hof, Hsrc. simpl. rewrite wire_string, as_string_string. simpl.
  rewrite Hof, Hdest. simpl. rewrite wire_string, as_string_string. simpl.
  rewrite Hof, Hbody. simpl. rewrite Hb', as_object_object. simpl.
  rewrite Hbf, Hbt. simpl. rewrite wire_string, as_string_string. simpl.
  by rewrite Hi, Hr, Hs, Hd, Ht.
Qed.
End roundtrip.

(** ** The main loop *)
Section main_loop.
Context `{JsonSpec} `{!JsonText} {A : Type}.
Implicit Types (n : Node A) (m : Message).

(** [line] is a request some handler of [n] is registered for. *)
Definition dispatchable n (line : string) (task : MessageHandler A * Message) : Prop :=
  line ≠ ""%string ∧ (∀ n' : Node A, parse_message line n' = (Ok task.2, n')) ∧
  _type task.2 ≠ "init"%string ∧ _messageHandlers n !! _type task.2 = Some task.1.

Definition set_pool (p : list (MessageHandler A * Message)) n : Node A :=
  mkNodeM (_messageHandlers n) (_nodeId n) (_peerIds n) (_initHandler n) p (world n).

Lemma handleMessage_post n h m :
  _type m ≠ "init"%string → _messageHandlers n !! _type m = Some h →
  handleMessage m n = (Ok tt, set_pool (_pool n ++ [(h, m)]) n).
Proof.
  intros Hi Hh. unfold handleMessage, getType. rewrite decide_False by done.
  rewrite bind_gets, Hh. done.
Qed.

Lemma handleMessage_unknown n m :
  _type m ≠ "init"%string → _messageHandlers n !! _type m = None →
  handleMessage m n =
    (Throw (StdException ("No handler found for message type" +:+ _type m)), n).
Proof.
  intros Hi Hh. unfold handleMessage, getType. rewrite decide_False by done.
  rewrite bind_gets, Hh. done.
Qed.

Lemma run_node_app lines tasks rest n :
  Forall2 (dispatchable n) lines tasks →
  run_node (lines ++ rest) n = run_node rest (set_pool (_pool n ++ tasks) n).
Proof.
  intros Hd. remember (dispatchable n) as P eqn:EP.
  assert (HP : ∀ l t, P l t → dispatchable n l t) by by subst. clear EP.
  revert n HP. induction Hd as [|line [h m] lines tasks Hl Hd IH]; intros n HP.
  { rewrite app_nil_r. by destruct n. }
  destruct (HP _ _ Hl) as (Hne & Hparse & Hi & Hh). simpl in *.
  rewrite decide_False by done. rewrite (bind_ok _ _ _ _ _ (Hparse n)).
  rewrite (bind_ok _ _ _ _ _ (handleMessage_post n h m Hi Hh)).
  rewrite IH by exact HP. unfold set_pool; simpl. by rewrite <- (assoc_L (++)).
Qed.

(** The main loop: the requests up to the first empty line are posted to the pool once
    each, in input order, each with the handler registered for its type, and the loop ends
    without an exception; a message with no handler ends the loop with an exception after
    the requests before it were posted. *)
Theorem run_posts_requests_in_order lines tasks rest n :
  Forall2 (dispatchable n) lines tasks →
  run_node (lines ++ ""%string :: rest) n = (Ok tt, set_pool (_pool n ++ tasks) n) ∧
  ∀ line m, line ≠ ""%string → (∀ n' : Node A, parse_message line n' = (Ok m, n')) →
    _type m ≠ "init"%string → _messageHandlers n !! _type m = None →
    run_node (lines ++ line :: rest) n =
      (Throw (StdException ("No handler found for message type" +:+ _type m)),
       set_pool (_pool n ++ tasks) n).
Proof.
  intros Hd. split.
  - by rewrite (run_node_app lines tasks).
  - intros line m Hne Hparse Hi Hh. rewrite (run_node_app lines tasks) by done. cbn [run_node].
    rewrite decide_False by done. rewrite (bind_ok _ _ _ _ _ (Hparse _)).
    apply bind_throw. by apply handleMessage_unknown.
Qed.

(** ** Initialization *)
Lemma push_peers_strings self names n :
  push_peers self (v_string <$> names) n =
    (Ok tt, set_peerIds (_peerIds n ++ (c_str <$> filter (λ x, x ≠ self) names)) n).
Proof.
  revert n. induction names as [|x names IH]; intros n.
  { cbn. rewrite app_nil_r. by destruct n. }
  rewrite fmap_cons. cbn [push_peers]. unfold string_of. rewrite as_string_string.
  rewrite (bind_ok _ _ _ x n eq_refl). rewrite filter_cons. destruct (decide (x = self)) as [->|Hx].
  - rewrite decide_False by (intros ?; done). rewrite (bind_ok _ _ _ tt n eq_refl). apply IH.
  - rewrite decide_True by done. rewrite bind_modify, IH. simpl. by rewrite <- (assoc_L (++)).
Qed.

Lemma all_of_accept (h : InitHandler A) self peers n ok w :
  h self peers (world n) = (Ok ok, w) →
  all_of [h] self peers n =
    (Ok ok, mkNodeM (_messageHandlers n) (_nodeId n) (_peerIds n) (_initHandler n) (_pool n) w).
Proof.
  intros E. cbn [all_of]. rewrite (bind_ok _ _ _ _ _ (on_world_run _ _ _ _ E)). by destruct ok.
Qed.

(** One init message, with one init handler. *)
Lemma init_run n m self names i (h : InitHandler A) ok w :
  _nodeId n = None → _initHandler n = [h] →
  obj_at (_body m) "node_id" = Some (v_string self) →
  obj_at (_body m) "node_ids" = Some (v_array (v_string <$> names)) →
  c_str self = self → _msgId m = Some i →
  h self (c_str <$> filter (λ x, x ≠ self) names) (world n) = (Ok ok, w) →
  ∃ n' o, _init m n = (Ok tt, n') ∧
    _nodeId n' = Some self ∧ _peerIds n' = c_str <$> filter (λ x, x ≠ self) names ∧
    app (world n') = app w ∧ output (world n') = output w ++ [o] ∧
    is_reply m (if ok then "init_ok" else "error") i obj_empty o ∧
    (_messageHandlers n', _initHandler n', _pool n') =
      (_messageHandlers n, _initHandler n, _pool n) ∧
    _init m n' = (Throw (StdException ("Node: " +:+ self +:+ " already initialized")), n').
Proof.
  intros Hid Hh Hself Hnames Hc Hi Hrun.
  set (peers := c_str <$> filter (λ x, x ≠ self) names) in *.
  set (n1 := set_peerIds peers (set_nodeId self n)).
  destruct (reply_message m (if ok then "init_ok" else "error") i obj_empty Hi)
    as (r & Hnew & Hrep).
  eexists _, (json_message r). split_and!; [|..|exact Hrep| |].
  - unfold _init, getBody, getRecipient, getSender, getMsgId. rewrite bind_gets, Hid.
    rewrite (bind_ok _ _ n self n) by (mred; by rewrite Hself, as_string_string).
    rewrite Hc, !bind_modify.
    rewrite (bind_ok _ _ _ (v_string <$> names) _) by (mred; by rewrite Hnames, as_array_array).
    rewrite (bind_ok _ _ _ _ _ (push_peers_strings _ _ _)). simpl.
    change (set_peerIds _ (set_peerIds _ _)) with n1. rewrite !bind_gets. simpl. rewrite Hh.
    rewrite (bind_ok _ _ _ _ _ (all_of_accept h self peers n1 ok w Hrun)).
    rewrite (bind_ok _ _ _ _ _ (Hnew _ _)). by apply on_world_run.
  - done.
  - done.
  - done.
  - done.
  - done.
  - done.
Qed.

(** The init message: the node takes the id it is given, its peers are the other nodes
    in the given order, the init handler sees exactly these, one reply init_ok or error
    according to its answer is printed, handlers and posted tasks stay as they are, and a
    second init throws and changes nothing. *)
Theorem init_handshake n m self names i (h : InitHandler A) ok w :
  _nodeId n = None → _initHandler n = [h] →
  obj_at (_body m) "node_id" = Some (v_string self) →
  obj_at (_body m) "node_ids" = Some (v_array (v_string <$> names)) →
  c_str self = self → _msgId m = Some i →
  h self (c_str <$> filter (λ x, x ≠ self) names) (world n) = (Ok ok, w) →
  ∃ n' o, _init m n = (Ok tt, n') ∧
    _nodeId n' = Some self ∧ _peerIds n' = c_str <$> filter (λ x, x ≠ self) names ∧
    app (world n') = app w ∧ output (world n') = output w ++ [o] ∧
    is_reply m (if ok then "init_ok" else "error") i obj_empty o ∧
    (_messageHandlers n', _initHandler n', _pool n') =
      (_messageHandlers n, _initHandler n, _pool n) ∧
    _init m n' = (Throw (StdException ("Node: " +:+ self +:+ " already initialized")), n').
Proof. apply init_run. Qed.
End main_loop.

(** ** The hypotheses hold *)
Module MaelstromDemo.
Import Tree.

Definition echo_body : object (Json := tree_json) :=
  [("type", TString "echo"); ("msg_id", TInt64 4294967298); ("echo", TString "hi")]%string.
Definition echo_object : object (Json := tree_json) :=
  [("src", TString "c1"); ("dest", TString "n0"); ("body", TObject echo_body)]%string.
Definition echo_line : string := "an echo request".

(** A parser that knows one line. *)
#[export] Instance demo_text : JsonText :=
  λ line, if decide (line = echo_line) then Some (TObject echo_object) else None.

Definition demo_init : InitHandler unit := λ _ peers w,
  (Ok (bool_decide (length peers = 1)), w).
Definition echo_node : Node unit :=
  ((_ ← registerMessageHandler (EchoMessageHandler unit); registerInitHandler demo_init)
     (mkNodeM ∅ None [] [] [] (mkWorld tt []))).2.

(** The id [2^32 + 2] is answered as 2. *)
Lemma echo_request_answered_witness :
  ∃ n' o, (_ ← run_node [echo_line]; run_task 0) echo_node = (Ok tt, n') ∧
    output (world n') = [o] ∧ obj_at o "dest" = Some (v_string "c1") ∧
    ∃ body', obj_at o "body" = Some (v_object body') ∧ reply_body "echo_ok" 2 echo_body body'.
Proof.
  destruct (echo_request_answered echo_line "c1" "n0" echo_body 4294967298 echo_node)
    as (n' & o & Hrun & Hout & _ & Hdest & body' & Hbody & Hrep & _).
  - split; [exists echo_object; by vm_compute|done..].
  - done.
  - done.
  - done.
  - exists n', o. split; [exact Hrun|]. split; [exact Hout|]. split; [exact Hdest|].
    exists body'. split; [exact Hbody|exact Hrep].
Defined.

Definition echo_message : Message := mkMessage _ "c1" "n0" "echo" echo_body (Some 2%Z) None.

Lemma run_posts_requests_in_order_witness :
  run_node [echo_line; echo_line; ""%string; echo_line] echo_node =
    (Ok tt, set_pool [(EchoMessageHandler unit, echo_message);
                      (EchoMessageHandler unit, echo_message)] echo_node).
Proof.
  apply (run_posts_requests_in_order [echo_line; echo_line]
           [(EchoMessageHandler unit, echo_message); (EchoMessageHandler unit, echo_message)]
           [echo_line] echo_node).
  repeat constructor; done.
Defined.

Definition init_body : object (Json := tree_json) :=
  [("type", TString "init"); ("msg_id", TInt64 1); ("node_id", TString "n0");
   ("node_ids", TArray [TString "n0"; TString "n1"])]%string.
Definition init_message : Message := mkMessage _ "c1" "n0" "init" init_body (Some 1%Z) None.

Lemma init_handshake_witness :
  ∃ n' o, _init init_message echo_node = (Ok tt, n') ∧ _peerIds n' = ["n1"%string] ∧
    output (world n') = [o] ∧ is_reply init_message "init_ok" 1 obj_empty o.
Proof.
  destruct (init_handshake echo_node init_message "n0" ["n0"; "n1"]%string 1 demo_init true
              (world echo_node)) as (n' & o & Hrun & _ & Hpeers & _ & Hout & Hrep & _ & _); try done.
  exists n', o. split; [exact Hrun|]. split; [exact Hpeers|]. split; [exact Hout|exact Hrep].
Defined.
(** The answer to [init_message], printed and read back. *)
Definition init_ok_line : string := "an init_ok reply".
Definition init_ok : Message :=
  mkMessage _ "n0" "c1" "init_ok" [("type", TString "init_ok"); ("in_reply_to", TInt64 1)]%string
    None (Some 1%Z).
Definition reply_text : JsonText :=
  λ line, if decide (line = init_ok_line) then Some (wire (v_object (json_message init_ok))) else None.

Lemma printed_message_parses_back_witness :
  new_message "n0" "c1" "init_ok" obj_empty None (Some 1%Z) tt = (Ok init_ok, tt) ∧
  ∃ m', parse_message (H0 := reply_text) init_ok_line tt = (Ok m', tt) ∧
    getSender m' = "n0"%string ∧ getRecipient m' = "c1"%string ∧ getType m' = "init_ok"%string ∧
    getInReplyTo m' = Some 1%Z.
Proof.
  split; [reflexivity|].
  destruct (printed_message_parses_back (H3 := reply_text) "n0" "c1" "init_ok" obj_empty None
    (Some 1%Z) init_ok init_ok_line tt) as (m' & Hp & Hs & Hr & Ht & _ & Hi & _);
    [reflexivity| |reflexivity..| |done|].
  - unfold json_parse, reply_text. by rewrite decide_True.
  - intros i [[=]|[= <-]]. unfold in_s. lia.
  - exists m'. exact (conj Hp (conj Hs (conj Hr (conj Ht Hi)))).
Defined.
End MaelstromDemo.
