(* ===== verification/TxnHandler.v ===== *)
(** * Transactions as Maelstrom requests

    [lib/src/system/TransactionMessageHandler.cpp] with its header, the
    interface [TransactionManager.h] it is written against, and the wiring of
    [lib/main.cpp]. *)
From S2P Require Import Prelude Operations KVStore LockManager Json Coordinator Scheduler.
From S2P Require Import SchedulerLocal Startup Maelstrom.

(** The constructor of [Transaction] from a JSON array is declared in
    [Transaction.h] and defined outside the repository: a parameter; [None]
    when it throws. *)
Class TransactionParser `{Json} := parse_transaction : list value → option Transaction.

(** The virtual methods of [TransactionManager] over the manager's state. *)
Class TransactionManager (A : Type) := {
  manager_execute : Transaction → M A Reads;
  manager_start : string → list string → M A bool;
}.

Section handler.
Context `{Json} `{!TransactionParser} {A : Type} `{!TransactionManager A}.

(** [arr.at(i)], and the same as the target of an assignment. *)
Definition elem {St} (arr : list value) (i : nat) : M St value :=
  lift_opt "out_of_range" (arr !! i).
Definition put_elem {St} (arr : list value) (i : nat) (v : value) : M St (list value) :=
  if decide (i < length arr) then mret (<[i := v]> arr)
  else throw (StdException "out_of_range").

(** One iteration of the loop in [createReply]: the operation with its
    result filled in, and the reads left. *)
Definition reply_op {St} (val : value) (curRead : Reads) : M St (value * Reads) :=
  arr ← array_of val;
  kind ← (v ← elem arr 0; string_of v);
  if decide (kind = "r"%string) then
    matching ← match curRead with
               | [] => mret false
               | (k, _) :: _ =>
                   key ← (v ← elem arr 1; int64_of v);
                   mret (bool_decide (k = key))
               end;
    match (matching : bool), curRead with
    | true, (_, result) :: rest =>
        arr' ← put_elem arr 2 (match result with
                               | Some insertArr => v_array (v_int64 <$> insertArr)
                               | None => v_null
                               end);
        mret (v_array arr', rest)
    | _, _ =>
        arr' ← put_elem arr 2 v_null;
        mret (v_array arr', curRead)
    end
  else mret (val, curRead).

Fixpoint reply_ops {St} (ops : list value) (curRead : Reads) : M St (list value) :=
  match ops with
  | [] => mret []
  | val :: ops' =>
      '(val', rest) ← reply_op val curRead;
      vals ← reply_ops ops' rest;
      mret (val' :: vals)
  end.

Definition createReply {St} (inBody : object) (reads : Reads) : M St object :=
  ops ← (v ← at_ inBody "txn"; array_of v);
  ops' ← reply_ops ops reads;
  mret (obj_set inBody "txn" (v_array ops')).

(** The [try] block of [handle]: run the transaction, then answer. *)
Definition answer_txn (request : Message) (reads : Reads) : M (World A) unit :=
  responseMsgBody ← createReply (getBody request) reads;
  response ← new_message (getRecipient request) (getSender request) "txn_ok" responseMsgBody
               None (getMsgId request);
  send_message response.
Definition try_txn (request : Message) : M (World A) unit :=
  arr ← (v ← at_ (getBody request) "txn"; array_of v);
  tx ← lift_opt "transaction" (parse_transaction arr);
  reads ← on_app (manager_execute tx);
  answer_txn request reads.

Definition TransactionMessageHandler : MessageHandler A := {|
  name := "txn";
  handle request :=
    catch_std (try_txn request)
      (λ _,
       response ← new_message (getRecipient request) (getSender request) "error" obj_empty
                    None (getMsgId request);
       send_message response)
|}.

(** [main]: the node before [run], over a manager in state [a]. *)
Definition configure (a : A) : Node A :=
  ((_ ← registerMessageHandler (EchoMessageHandler A);
    _ ← registerMessageHandler TransactionMessageHandler;
    registerInitHandler (λ nodeId peers, on_app (manager_start nodeId peers)))
     (mkNodeM ∅ None [] [] [] (mkWorld a []))).2.
Definition main_program `{!JsonText} (a : A) (stdin : list string) : res unit * Node A :=
  run_node stdin (configure a).
End handler.
Arguments TransactionMessageHandler {_ _} A {_}.

(** [TwoPLScheduler] as the manager.  A terminated process is an exception
    that nothing above catches. *)
Definition two_pl_manager {S} `{KVStore S} `{OpExecutor S} `{Json} `{StdHash} `{!Iteration Z}
    `{!TransactionServer} (env : Environment) : TransactionManager (Scheduler S) := {|
  manager_execute tx := execute_transaction env tx;
  manager_start nodeID peers :=
    r ← start nodeID peers;
    match r with Some b => mret b | None => throw OtherException end;
|}.

(** ** What a reply says *)
Section answers.
Context `{JsonSpec} {S : Type} `{KVStoreSpec S}.

(** The JSON form of an operation; [x] is the third element of a read. *)
Definition op_json (x : value) (op : Operation) : value :=
  match op with
  | ReadOp k => v_array [v_string "r"; v_int64 k; x]
  | AppendOp k v => v_array [v_string "append"; v_int64 k; v_int64 v]
  end.
Definition values_json (r : option ValueContainer) : value :=
  match r with Some l => v_array (v_int64 <$> l) | None => v_null end.

(** The transaction with every read answered from the store as it is when
    the operations before it have run. *)
Fixpoint answers (tx : Transaction) (st : S) : list value :=
  match tx with
  | [] => []
  | op :: tx' => op_json (values_json (kv_get st (op_key op))) op :: answers tx' (apply_op op st)
  end.

Lemma reply_op_read {St} k x r rest (s : St) :
  reply_op (op_json x (ReadOp k)) ((k, r) :: rest) s =
    (Ok (op_json (values_json r) (ReadOp k), rest), s).
Proof.
  unfold reply_op, op_json, elem, put_elem. mred. rewrite as_array_array. simpl.
  rewrite as_string_string. simpl. rewrite as_int64_int64. simpl.
  rewrite bool_decide_true by done. by destruct r.
Qed.

Lemma reply_op_append {St} k v x cur (s : St) :
  reply_op (op_json x (AppendOp k v)) cur s = (Ok (op_json x (AppendOp k v), cur), s).
Proof.
  unfold reply_op, op_json, elem. mred. rewrite as_array_array. simpl.
  by rewrite as_string_string.
Qed.

Lemma reply_op_missing {St} op x (s : St) :
  reply_op (op_json x op) [] s = (Ok (op_json v_null op, []), s).
Proof.
  destruct op as [k|k v]; [|exact (reply_op_append k v x [] s)].
  unfold reply_op, op_json, elem, put_elem. mred. rewrite as_array_array. simpl.
  by rewrite as_string_string.
Qed.

Lemma reply_ops_answers {St} x tx st (s : St) :
  reply_ops (op_json x <$> tx) (tx_reads tx st) s = (Ok (answers tx st), s).
Proof.
  revert st. induction tx as [|op tx IH]; intros st; [done|].
  rewrite fmap_cons. cbn [reply_ops answers tx_reads]. destruct op as [k|k v].
  - cbn [op_reads Datatypes.app]. rewrite (bind_ok _ _ _ _ _ (reply_op_read _ _ _ _ _)).
    by rewrite (bind_ok _ _ _ _ _ (IH _)).
  - cbn [op_reads Datatypes.app]. rewrite (bind_ok _ _ _ _ _ (reply_op_append _ _ _ _ _)).
    by rewrite (bind_ok _ _ _ _ _ (IH _)).
Qed.

Lemma reply_ops_nulls {St} x tx (s : St) :
  reply_ops (op_json x <$> tx) [] s = (Ok (op_json v_null <$> tx), s).
Proof.
  induction tx as [|op tx IH]; [done|]. rewrite fmap_cons. cbn [reply_ops].
  rewrite (bind_ok _ _ _ _ _ (reply_op_missing _ _ _)). by rewrite (bind_ok _ _ _ _ _ IH).
Qed.

Lemma createReply_run {St} body ops reads ops' (s : St) :
  obj_at body "txn" = Some (v_array ops) → reply_ops ops reads s = (Ok ops', s) →
  createReply body reads s = (Ok (obj_set body "txn" (v_array ops')), s).
Proof.
  intros Hb Hops. unfold createReply.
  rewrite (bind_ok _ _ s ops s) by (mred; by rewrite Hb, as_array_array).
  by rewrite (bind_ok _ _ _ _ _ Hops).
Qed.

(** createReply matches results to operations: given the reads of running the
    transaction on a store, it fills the third element of every read operation with the
    value the key has when the operations before it have run (null for a missing key) and
    leaves the append operations alone. *)
Theorem reply_reports_serial_reads {St} body x tx st (s : St) :
  obj_at body "txn" = Some (v_array (op_json x <$> tx)) →
  createReply body (tx_reads tx st) s =
    (Ok (obj_set body "txn" (v_array (answers tx st))), s).
Proof. intros Hb. apply (createReply_run _ _ _ _ _ Hb), reply_ops_answers. Qed.
End answers.

(** ** Code that reads and may throw a standard exception, nothing else *)
Definition pure_code {St B} (m : M St B) : Prop :=
  ∀ s, (m s).2 = s ∧ (m s).1 ≠ Throw OtherException.

Lemma pure_ret {St B} (b : B) : pure_code (mret b : M St B).
Proof. done. Qed.
Lemma pure_throw {St B} w : pure_code (throw (StdException w) : M St B).
Proof. done. Qed.
Lemma pure_lift {St B} w (o : option B) : pure_code (lift_opt w o : M St B).
Proof. by destruct o. Qed.
Lemma pure_bind {St B C} (m : M St B) (k : B → M St C) :
  pure_code m → (∀ b, pure_code (k b)) → pure_code (m ≫= k).
Proof.
  intros Hm Hk s. unfold mbind, M_bind. destruct (Hm s) as [Hs He].
  destruct (m s) as [[b|e] s']; simpl in *; subst; [apply Hk|].
  split; [done|]. intros [= ->]. done.
Qed.
#[export] Hint Resolve pure_ret pure_throw pure_lift pure_bind : tp.

(** The result of pure code: a value, or a standard exception. *)
Lemma pure_run {St B} (m : M St B) s :
  pure_code m → (∃ b, m s = (Ok b, s)) ∨ (∃ w, m s = (Throw (StdException w), s)).
Proof.
  intros Hm. destruct (Hm s) as [Hs He]. destruct (m s) as [[b|[w|]] s']; simpl in *; subst; eauto.
  done.
Qed.

Section handler_facts.
Context `{JsonSpec} `{!TransactionParser} {A : Type} `{!TransactionManager A}.

Lemma pure_reply_op {St} val cur : pure_code (reply_op val cur : M St _).
Proof.
  unfold reply_op, array_of, string_of, int64_of, elem, put_elem.
  apply pure_bind; [auto with tp|]. intros arr. apply pure_bind; [auto with tp|].
  intros kind. case_decide; [|auto with tp]. apply pure_bind.
  { destruct cur as [|[k r] cur]; auto 6 with tp. }
  intros []; destruct cur as [|[k r] cur]; case_decide; auto with tp.
Qed.

Lemma pure_createReply {St} body reads : pure_code (createReply body reads : M St _).
Proof.
  unfold createReply, at_, array_of. apply pure_bind; [auto with tp|]. intros ops.
  apply pure_bind; [|auto with tp]. revert reads. induction ops as [|v ops IH]; intros reads;
    cbn [reply_ops]; [auto with tp|]. apply pure_bind; [apply pure_reply_op|].
  intros [v' rest]. auto with tp.
Qed.

(** The [try] block, up to the reply. *)
Lemma try_txn_run m arr tx r a (w : World A) :
  (v ← at_ (_body m) "txn"; array_of v) w = (Ok arr, w) →
  parse_transaction arr = Some tx → manager_execute tx (app w) = (r, a) →
  try_txn m w = match r with
                | Ok reads => answer_txn m reads (mkWorld a (output w))
                | Throw e => (Throw e, mkWorld a (output w))
                end.
Proof.
  intros Harr Htx Hex. unfold try_txn, getBody.
  rewrite (bind_ok _ _ _ _ _ Harr), Htx, (bind_ok _ _ w tx w) by done.
  assert (Hon : on_app (manager_execute tx) w = (r, mkWorld a (output w)))
    by (unfold on_app, zoom; by rewrite Hex).
  destruct r; [by rewrite (bind_ok _ _ _ _ _ Hon)|by rewrite (bind_throw _ _ _ _ _ Hon)].
Qed.

Lemma answer_txn_run m i reads body (w : World A) :
  _msgId m = Some i → createReply (_body m) reads w = (Ok body, w) →
  ∃ o, answer_txn m reads w = (Ok tt, mkWorld (app w) (output w ++ [o])) ∧
       is_reply m "txn_ok" i body o.
Proof.
  intros Hi Hc. destruct (send_reply m "txn_ok" i body w Hi) as (o & Hs & Hrep).
  exists o. split; [|done]. unfold answer_txn. by rewrite (bind_ok _ _ _ _ _ Hc).
Qed.

(** A transaction that ran and whose reply could be built. *)
Lemma handle_txn_reply m i tx arr reads a ops' (w : World A) :
  _msgId m = Some i → obj_at (_body m) "txn" = Some (v_array arr) →
  parse_transaction arr = Some tx → manager_execute tx (app w) = (Ok reads, a) →
  (∀ s : World A, reply_ops arr reads s = (Ok ops', s)) →
  ∃ o, handle (TransactionMessageHandler A) m w = (Ok tt, mkWorld a (output w ++ [o])) ∧
       is_reply m "txn_ok" i (obj_set (_body m) "txn" (v_array ops')) o.
Proof.
  intros Hi Hbody Hparse Hexec Hops.
  destruct (answer_txn_run m i reads _ (mkWorld a (output w)) Hi
              (createReply_run _ _ _ _ _ Hbody (Hops _))) as (o & Hans & Hrep).
  exists o. split; [|done]. cbn [handle TransactionMessageHandler]. unfold catch_std, catch_all.
  rewrite (try_txn_run m arr tx (Ok reads) a); [by rewrite Hans| |done..].
  mred. by rewrite Hbody, as_array_array.
Qed.

(** A [try] block left by a standard exception is answered with an error. *)
Lemma handle_txn_error m i e a (w : World A) :
  _msgId m = Some i → try_txn m w = (Throw (StdException e), mkWorld a (output w)) →
  ∃ o, handle (TransactionMessageHandler A) m w = (Ok tt, mkWorld a (output w ++ [o])) ∧
       is_reply m "error" i obj_empty o.
Proof.
  intros Hi Ht.
  destruct (send_reply m "error" i obj_empty (mkWorld a (output w)) Hi) as (o & Hs & Hrep).
  exists o. split; [|done]. cbn [handle TransactionMessageHandler].
  unfold catch_std, catch_all. rewrite Ht. exact Hs.
Qed.

(** C32. Whatever the request's body and the transaction manager do, handling a txn request
    with a message id prints exactly one message, of type txn_ok or error, to the sender and
    with that id in in_reply_to; the only other outcome is that an exception outside
    std::exception, thrown by the manager, leaves the handler with nothing printed. *)
Theorem every_txn_request_gets_one_reply m i (w : World A) :
  _msgId m = Some i →
  (∃ a o type body, handle (TransactionMessageHandler A) m w =
      (Ok tt, mkWorld a (output w ++ [o])) ∧
      (type = "txn_ok" ∨ type = "error")%string ∧ is_reply m type i body o) ∨
  (∃ a tx, handle (TransactionMessageHandler A) m w =
      (Throw OtherException, mkWorld a (output w)) ∧
      manager_execute tx (app w) = (Throw OtherException, a)).
Proof.
  intros Hi.
  assert (Herr : ∀ e a, try_txn m w = (Throw (StdException e), mkWorld a (output w)) →
    ∃ a o type b, handle (TransactionMessageHandler A) m w =
      (Ok tt, mkWorld a (output w ++ [o])) ∧
      (type = "txn_ok" ∨ type = "error")%string ∧ is_reply m type i b o).
  { intros e a Ht. destruct (handle_txn_error m i e a w Hi Ht) as (o & Hh & Hrep).
    by exists a, o, "error"%string, obj_empty; auto. }
  assert (Hw : mkWorld (app w) (output w) = w) by by destruct w.
  destruct (pure_run (St := World A) (v ← at_ (_body m) "txn"; array_of v) w)
    as [[arr Harr]|[e He]]; [unfold at_, array_of; auto with tp| |].
  2: { left. apply (Herr e (app w)). rewrite Hw. by apply bind_throw. }
  destruct (parse_transaction arr) as [tx|] eqn:Htx.
  2: { left. apply (Herr "transaction"%string (app w)). rewrite Hw. unfold try_txn, getBody.
       by rewrite (bind_ok _ _ _ _ _ Harr), Htx. }
  destruct (manager_execute tx (app w)) as [[reads|[e|]] a] eqn:Hex;
    pose proof (try_txn_run m arr tx _ _ _ Harr Htx Hex) as Htry.
  - destruct (pure_run (createReply (_body m) reads) (mkWorld a (output w)))
      as [[body Hbody]|[e He]]; [apply pure_createReply| |]; left.
    + destruct (answer_txn_run m i reads body _ Hi Hbody) as (o & Hans & Hrep).
      exists a, o, "txn_ok"%string, body. split; [|auto]. cbn [handle TransactionMessageHandler].
      unfold catch_std, catch_all. by rewrite Htry, Hans.
    + apply (Herr e a). rewrite Htry. by apply bind_throw.
  - left. by apply (Herr e a).
  - right. exists a, tx. split; [|done]. cbn [handle TransactionMessageHandler].
    unfold catch_std, catch_all. by rewrite Htry.
Qed.

End handler_facts.

(** ** From the request to the store and back *)
Section end_to_end.
Context {S : Type} `{KVStoreSpec S} `{!OpExecutor S} `{!OpExecutorSpec S} `{Json} `{!JsonSpec}
  `{StdHash} `{!Iteration Z} `{!TransactionServer} `{!TransactionParser}.

(** C9. A transaction request on a node without coordinator, end to end: exactly one txn_ok
    reply is printed, addressed to the sender and referring to the request's id; its txn
    array either answers every read from the store as the earlier operations of the
    transaction left it, and the store has all of the transaction's appends, or has null for
    every read, and the store is unchanged; the transaction holds no lock afterwards. Other
    threads may use the lock manager meanwhile as far as they keep to its protocol. *)
Theorem txn_request_served_atomically env m i x tx (w : World (Scheduler S)) :
  let _ : TransactionManager (Scheduler S) := two_pl_manager env in
  let s := app w in
  coordinator (node s) = None →
  fair_env (next_tx_id s) (env_acquire env) → tracked (next_tx_id s) (lock_manager s) →
  _msgId m = Some i → obj_at (_body m) "txn" = Some (v_array (op_json x <$> tx)) →
  parse_transaction (op_json x <$> tx) = Some tx →
  ∃ s' ops o, handle (TransactionMessageHandler (Scheduler S)) m w =
      (Ok tt, mkWorld s' (output w ++ [o])) ∧
    is_reply m "txn_ok" i (obj_set (_body m) "txn" (v_array ops)) o ∧
    idle (next_tx_id s) (lock_manager s') ∧
    (store s' = apply_tx tx (store s) ∧ ops = answers tx (store s) ∨
     store s' = store s ∧ ops = op_json v_null <$> tx).
Proof.
  intros mgr s Hc Henv Htr Hi Hb Hp.
  destruct (local_execution_outcome env tx s Hc Henv Htr) as (l' & Hidle & Hrun).
  change (execute_transaction env tx s) with (manager_execute (A := Scheduler S) tx (app w))
    in Hrun. destruct Hrun as [Hrun|Hrun].
  - destruct (handle_txn_reply m i tx _ _ _ (answers tx (store s)) w Hi Hb Hp Hrun)
      as (o & Hh & Hrep); [intros; apply reply_ops_answers|].
    eexists _, (answers tx (store s)), o. split; [exact Hh|]. split_and!; [done..|by left].
  - destruct (handle_txn_reply m i tx _ _ _ (op_json v_null <$> tx) w Hi Hb Hp Hrun)
      as (o & Hh & Hrep); [intros; apply reply_ops_nulls|].
    eexists _, (op_json v_null <$> tx), o. split; [exact Hh|]. split_and!; [done..|by right].
Qed.
End end_to_end.

(** ** A session with a single node *)
Section session.
Context {S : Type} `{KVStoreSpec S} `{!OpExecutor S} `{!OpExecutorSpec S} `{Json} `{!JsonSpec}
  `{StdHash} `{!Iteration Z} `{!TransactionServer} `{!TransactionParser} `{!JsonText}.

#[local] Instance session_manager : TransactionManager (Scheduler S) := two_pl_manager quiet.

(** The scheduler of node [i] after the handshake. *)
Definition session_scheduler (st : S) (junk : NodeID) (i : nat) : Scheduler S :=
  set_calls [Startup (Z.of_nat i) []]
    (set_node (mkNode (Z.of_nat i) (Z.of_nat i) 1 None false false) (new_scheduler st junk)).

Lemma session_transaction st junk i tx :
  ∃ a, execute_transaction quiet tx (session_scheduler st junk i) = (Ok (tx_reads tx st), a) ∧
       store a = apply_tx tx st.
Proof.
  pose proof (local_alone_outcome tx (session_scheduler st junk i) eq_refl (tracked_new _)) as E.
  rewrite decide_True in E.
  - destruct (execute_transaction quiet tx (session_scheduler st junk i)) as [r a].
    simpl in E. exists a. by simplify_eq.
  - intros k _. unfold available, owner_of. simpl. by rewrite lookup_empty.
Qed.

(** C10. A whole session with a single node, from the lines of its standard input to its
    output and store: main wires the node, an init message naming only this node starts the
    scheduler and is answered with init_ok, a txn request is posted and, when the pool runs
    it, answered with txn_ok, every read answered from the store as the earlier operations
    of the transaction left it; the store is the one the transaction produces, no task is
    left, and nothing else is printed. *)
Theorem single_node_session st junk i l1 l2 src1 dest1 body1 z1 src2 dest2 body2 z2 x tx :
  (Z.of_nat i < 2 ^ 16)%Z → call_throws [] (Startup (Z.of_nat i) []) = None →
  l1 ≠ ""%string → request_text l1 src1 dest1 "init" body1 z1 →
  obj_at body1 "node_id" = Some (v_string (node_name i)) →
  obj_at body1 "node_ids" = Some (v_array [v_string (node_name i)]) →
  l2 ≠ ""%string → request_text l2 src2 dest2 "txn" body2 z2 →
  obj_at body2 "txn" = Some (v_array (op_json x <$> tx)) →
  parse_transaction (op_json x <$> tx) = Some tx →
  ∃ n m1 m2 n' o1 o2,
    main_program (new_scheduler st junk) [l1; l2] = (Ok tt, n) ∧
    run_task 0 n = (Ok tt, n') ∧ _pool n' = [] ∧
    output (world n') = [o1; o2] ∧
    (_sender m1, _recipient m1) = (c_str src1, c_str dest1) ∧
    (_sender m2, _recipient m2) = (c_str src2, c_str dest2) ∧
    is_reply m1 "init_ok" (i32 z1) obj_empty o1 ∧
    is_reply m2 "txn_ok" (i32 z2) (obj_set body2 "txn" (v_array (answers tx st))) o2 ∧
    store (app (world n')) = apply_tx tx st.
Proof.
  intros Hi Hcall Hl1 Hr1 Hid Hids Hl2 Hr2 Htxn Hparse.
  set (m1 := mkMessage _ (c_str src1) (c_str dest1) "init" body1 (Some (i32 z1)) None).
  set (m2 := mkMessage _ (c_str src2) (c_str dest2) "txn" body2 (Some (i32 z2)) None).
  set (n0 := configure (new_scheduler st junk)).
  destruct (init_run n0 m1 (node_name i) [node_name i] (i32 z1)
              (λ nodeId peers, on_app (manager_start nodeId peers)) true
              (mkWorld (session_scheduler st junk i) []))
    as (n1 & o1 & Hinit & _ & _ & Happ & Hout & Hrep1 & Hsame & _);
    [try done..|]; [apply c_str_node_name| |].
  { rewrite filter_cons, decide_False by (intros ?; done). cbn [filter list_filter fmap list_fmap].
    unfold on_app, zoom, manager_start, session_manager, two_pl_manager.
    by run (start_alone (new_scheduler st junk) i Hi Hcall). }
  injection Hsame as Hhandlers _ Hpool.
  destruct (session_transaction st junk i tx) as (a & Hexec & Hstore).
  destruct (handle_txn_reply m2 (i32 z2) tx (op_json x <$> tx) (tx_reads tx st) a (answers tx st)
              (world n1)) as (o2 & Hhandle & Hrep2); [done..| | |].
  { rewrite Happ. exact Hexec. }
  { intros s. apply reply_ops_answers. }
  set (n2 := set_pool [(TransactionMessageHandler (Scheduler S), m2)] n1).
  eexists n2, m1, m2, _, o1, o2. split_and!; [| | | | | |exact Hrep1|exact Hrep2|].
  - unfold main_program. cbn [run_node]. rewrite !decide_False by done.
    rewrite (bind_ok _ _ _ _ _ (parse_request _ _ _ _ _ _ n0 Hr1)).
    rewrite (bind_ok _ _ n0 tt n1) by exact Hinit.
    rewrite (bind_ok _ _ _ _ _ (parse_request _ _ _ _ _ _ n1 Hr2)).
    pose proof (handleMessage_post n1 (TransactionMessageHandler (Scheduler S)) m2) as Hpost.
    rewrite Hpool in Hpost. rewrite (bind_ok _ _ n1 tt n2); [done|].
    apply Hpost; [done|]. by rewrite Hhandlers.
  - unfold run_task. rewrite bind_gets. cbn [_pool set_pool n2 lookup list_lookup].
    rewrite bind_modify. apply on_world_run. exact Hhandle.
  - done.
  - cbn [world output]. by rewrite Hout.
  - done.
  - done.
  - done.
Qed.
End session.

(** ** The hypotheses hold *)
Module TxnDemo.
Import Demo.

(** The list-append workload's micro-operations. *)
Definition parse_op (v : tree) : option Operation :=
  match v with
  | TArray [TString s; TInt64 k; x] =>
      if decide (s = "r"%string) then Some (ReadOp k)
      else if decide (s = "append"%string) then
        match x with TInt64 z => Some (AppendOp k z) | _ => None end
      else None
  | _ => None
  end.
#[export] Instance demo_parser : TransactionParser (H := tree_json) := mapM parse_op.

Definition demo_tx : Transaction := [ReadOp 1; AppendOp 2 5; ReadOp 2; ReadOp 3].
Definition txn_body : object (Json := tree_json) :=
  [("type", TString "txn"); ("msg_id", TInt64 4);
   ("txn", TArray (op_json TNull <$> demo_tx))]%string.
Definition txn_message : Message := mkMessage _ "c1" "n0" "txn" txn_body (Some 4%Z) None.
Definition idle_world : World (Scheduler demo_store) := mkWorld demo_node [].

(** Reads of keys 1, 2 and 3: [[10]], the value just appended, nothing. *)
Lemma reply_reports_serial_reads_witness :
  createReply txn_body (tx_reads demo_tx (store demo_node)) tt =
    (Ok (obj_set txn_body "txn" (v_array (answers demo_tx (store demo_node)))), tt) ∧
  answers demo_tx (store demo_node) =
    [op_json (TArray [TInt64 10]) (ReadOp 1); op_json TNull (AppendOp 2 5);
     op_json (TArray [TInt64 5]) (ReadOp 2); op_json TNull (ReadOp 3)].
Proof.
  split; [|by vm_compute].
  apply (reply_reports_serial_reads txn_body TNull demo_tx (store demo_node) tt). done.
Defined.

#[local] Instance demo_manager : TransactionManager (Scheduler demo_store) :=
  two_pl_manager quiet.

Lemma every_txn_request_gets_one_reply_witness :
  (∃ a o type body, handle (TransactionMessageHandler (Scheduler demo_store)) txn_message
      idle_world = (Ok tt, mkWorld a [o]) ∧
      (type = "txn_ok" ∨ type = "error")%string ∧ is_reply txn_message type 4 body o) ∨
  (∃ a tx, handle (TransactionMessageHandler (Scheduler demo_store)) txn_message idle_world =
      (Throw OtherException, mkWorld a []) ∧
      manager_execute tx demo_node = (Throw OtherException, a)).
Proof. exact (every_txn_request_gets_one_reply txn_message 4 idle_world eq_refl). Defined.

Lemma txn_request_served_atomically_witness :
  ∃ s' ops o, handle (TransactionMessageHandler (Scheduler demo_store)) txn_message idle_world =
      (Ok tt, mkWorld s' [o]) ∧
    is_reply txn_message "txn_ok" 4 (obj_set txn_body "txn" (v_array ops)) o ∧
    idle 1 (lock_manager s').
Proof.
  destruct (txn_request_served_atomically quiet txn_message 4 TNull demo_tx idle_world)
    as (s' & ops & o & Hh & Hrep & Hidle & _);
    [done|apply fair_quiet|apply tracked_new|done..|].
  exists s', ops, o. split; [exact Hh|]. split; [exact Hrep|exact Hidle].
Defined.

Definition init_body : object (Json := tree_json) :=
  [("type", TString "init"); ("msg_id", TInt64 1); ("node_id", TString "n3");
   ("node_ids", TArray [TString "n3"])]%string.

(** A parser that knows the two lines of the session. *)
#[local] Instance session_text : JsonText := λ line,
  if decide (line = "init"%string) then
    Some (TObject [("src", TString "c0"); ("dest", TString "n3"); ("body", TObject init_body)])%string
  else if decide (line = "txn"%string) then
    Some (TObject [("src", TString "c1"); ("dest", TString "n3"); ("body", TObject txn_body)])%string
  else None.

Lemma single_node_session_witness :
  ∃ n m1 m2 n' o1 o2,
    main_program demo_node ["init"; "txn"]%string = (Ok tt, n) ∧
    run_task 0 n = (Ok tt, n') ∧ _pool n' = [] ∧ output (world n') = [o1; o2] ∧
    (_sender m1, _recipient m1) = ("c0", "n3")%string ∧
    (_sender m2, _recipient m2) = ("c1", "n3")%string ∧
    is_reply m1 "init_ok" 1 obj_empty o1 ∧
    is_reply m2 "txn_ok" 4
      (obj_set txn_body "txn" (v_array (answers demo_tx (store demo_node)))) o2 ∧
    store (app (world n')) = apply_tx demo_tx (store demo_node).
Proof.
  apply (single_node_session {[ 1%Z := [10%Z] ]} 0 3 "init" "txn" "c0" "n3" init_body 1
           "c1" "n3" txn_body 4 TNull demo_tx);
    try done; split; try done; eexists; (split; [reflexivity|done]).
Defined.
End TxnDemo.
