(* ===== verification/ConcurrentService.v ===== *)
(** * Requests served concurrently

    [TransactionMessageHandler::handle] on a thread of the pool calls
    [TwoPLScheduler::execute_transaction] while other threads of the pool do
    the same.  This file puts the three descriptions of that together: the
    handler ([TxnHandler]), the interleaving of the calls ([TwoPL],
    [TwoPLRefinement]) and the serial log that explains it
    ([Serializability]). *)
From S2P Require Import Prelude Operations KVStore LockManager TwoPL TwoPLInvariant Serializability.
From S2P Require Import Progress Scenarios Json Coordinator Scheduler SchedulerLocal TwoPLRefinement.
From S2P Require Import Maelstrom TxnHandler.

Section service.
Context {S : Type} `{KVStore S} `{!KVStoreSpec S} `{!OpExecutor S} `{!OpExecutorSpec S} `{Json}
  `{!JsonSpec} `{StdHash} `{!Iteration Z} `{!TransactionServer} `{!TransactionParser}.
Implicit Types (s : sys S) (σ : Scheduler S).

Lemma serial_reads_middle log1 e log2 (G : S) :
  serial_reads (log1 ++ e :: log2) G → en_reads e = tx_reads (en_tx e) (serial_store log1 G).
Proof.
  revert G. induction log1 as [|e0 log1 IH]; intros G; simpl; [by intros [-> _]|].
  intros [_ Hr]. by apply IH.
Qed.

(** The place of a committed transaction in a serial log of the state. *)
Lemma committed_in_log G0 s0 s tid th r :
  initial G0 s0 → rtc step s0 s → sy_threads s !! tid = Some th →
  th_pc th = P_done (Committed r) →
  ∃ log1 log2, explains G0 s (log1 ++ mkEntry tid (th_tx th) r :: log2) ∧
    r = tx_reads (th_tx th) (serial_store log1 G0).
Proof.
  intros Hinit Hsteps Hth Hpc.
  destruct (sim_steps G0 s0 s [] (sys_inv_initial _ _ Hinit) (sim_initial _ _ Hinit) Hsteps)
    as [log Hsim%sim_explains]. simpl in Hsim.
  assert (Hin : mkEntry tid (th_tx th) r ∈ log).
  { apply (explains_committed _ _ _ Hsim). exists th. by rewrite Hpc. }
  apply list_elem_of_split in Hin as (log1 & log2 & ->). exists log1, log2. split; [done|].
  exact (serial_reads_middle _ _ _ _ (explains_reads _ _ _ Hsim)).
Qed.

(** C4. Requests served concurrently: when a transaction request is handled on a pool thread
    while other threads run transactions in any interleaving, the handler prints exactly one
    txn_ok reply to the sender; if the transaction committed, the reply answers every read
    from the store of a serial execution - that of the log which explains the whole
    interleaving, up to this transaction - and if it could not get its locks, with null; and
    the lock manager is left as the interleaving leaves it. *)
Theorem concurrent_request_answered_serially G0 s0 s tid tx sched s' th' o m i x out :
  initial G0 s0 → rtc step s0 s →
  sy_threads s !! tid = Some (fresh_thread tx iter_order) →
  run_schedule (tid :: sched) s = Some s' →
  sy_threads s' !! tid = Some th' → th_pc th' = P_done o →
  _msgId m = Some i → obj_at (_body m) "txn" = Some (v_array (op_json x <$> tx)) →
  parse_transaction (op_json x <$> tx) = Some tx →
  ∃ pl s1, plan_accesses pl = others tid (tid :: sched) s ∧ passes (tid :: sched) s s1 s' ∧
    (∀ r, o = Committed r → ∃ th1, sy_threads s1 !! tid = Some th1 ∧ th_pc th1 = P_exec [] tx []) ∧
    ∀ σ, coordinator (node σ) = None → lock_manager σ = sh_lm (sy_shared s) →
         store σ = sh_store (sy_shared s1) → next_tx_id σ = sh_next (sy_shared s) →
      let _ : TransactionManager (Scheduler S) :=
        two_pl_manager (plan_env (iter_order (LocalKeys (sh_next (sy_shared s))) (tx_keys tx)) pl) in
      ∃ σ' ops reply,
        handle (TransactionMessageHandler (Scheduler S)) m (mkWorld σ out) =
          (Ok tt, mkWorld σ' (out ++ [reply])) ∧
        is_reply m "txn_ok" i (obj_set (_body m) "txn" (v_array ops)) reply ∧
        sh_lm (sy_shared s') = perform_locks (pl_after pl) (lock_manager σ') ∧
        match o with
        | Committed r => ∃ log1 log2,
            explains G0 s' (log1 ++ mkEntry tid tx r :: log2) ∧
            ops = answers tx (serial_store log1 G0)
        | Aborted => ops = op_json v_null <$> tx
        | Failed _ => False
        end.
Proof.
  intros Hinit Hsteps Hth Hrun Hth' Hdone Hi Hbody Hparse.
  pose proof (sys_inv_reachable _ _ _ Hinit Hsteps) as Hinv.
  destruct (transaction_as_call G0 s0 s tid tx sched s' th' o)
    as (pl & s1 & Hacc & _ & Hpass & Hlock & Hcall); [done..|].
  exists pl, s1. split_and!; [done..|]. intros σ Hc Hl Hs Hn mgr.
  destruct (Hcall σ Hc Hl Hs Hn) as (_ & reads & σ' & Hexec & Hlm & Ho).
  change (execute_transaction _ tx σ)
    with (manager_execute (A := Scheduler S) tx (app (mkWorld σ out))) in Hexec.
  destruct o as [r| |e]; [| |done].
  - destruct Ho as [<- _].
    destruct (committed_in_log G0 s0 s' tid th' r) as (log1 & log2 & Hlog & Hr); [done| |done..|].
    { etrans; [done|]. by apply (run_schedule_rtc (tid :: sched)). }
    rewrite (transaction_stays _ _ _ _ _ _ Hinv Hrun Hth Hth') in Hlog, Hr. simpl in Hlog, Hr.
    rewrite Hr in Hexec.
    destruct (handle_txn_reply m i tx _ _ _ (answers tx (serial_store log1 G0))
                (mkWorld σ out) Hi Hbody Hparse Hexec) as (rep & Hh & Hrep);
      [intros; apply reply_ops_answers|].
    exists σ', (answers tx (serial_store log1 G0)), rep. split_and!; [done..|].
    by exists log1, log2.
  - destruct Ho as [-> _].
    destruct (handle_txn_reply m i tx _ _ _ (op_json v_null <$> tx)
                (mkWorld σ out) Hi Hbody Hparse Hexec) as (rep & Hh & Hrep);
      [intros; apply reply_ops_nulls|].
    by exists σ', (op_json v_null <$> tx), rep.
Qed.
End service.

(** ** The hypotheses hold: the request of the transaction that had to wait *)
Module ServiceDemo.
Import Demo RefinementDemo TxnDemo.

Definition waiting_tx : Transaction := [ReadOp 1; AppendOp 2 20].
Definition waiting_body : object (Json := tree_json) :=
  [("type", TString "txn"); ("msg_id", TInt64 9);
   ("txn", TArray (op_json TNull <$> waiting_tx))]%string.
Definition waiting_request : Message :=
  mkMessage _ "c2" "n0" "txn" waiting_body (Some 9%Z) None.

#[local] Existing Instance mixed_iteration | 0.

Lemma concurrent_request_answered_serially_witness :
  ∃ pl s1 σ' ops reply log1 log2,
    handle (TransactionMessageHandler (Scheduler demo_store)
              (TransactionManager0 := two_pl_manager (plan_env (elements (tx_keys waiting_tx)) pl)))
      waiting_request (mkWorld (waiting_node (sh_store (sy_shared s1))) []) =
      (Ok tt, mkWorld σ' [reply]) ∧
    is_reply waiting_request "txn_ok" 9 (obj_set waiting_body "txn" (v_array ops)) reply ∧
    explains ∅ waiting_end (log1 ++ mkEntry 1 waiting_tx [(1%Z, Some [10%Z])] :: log2) ∧
    ops = answers waiting_tx (serial_store log1 ∅).
Proof.
  destruct (concurrent_request_answered_serially ∅ demo_start waiting_start 1
    waiting_tx waiting_sched waiting_end
    (mkThread waiting_tx mixed_order 2 (P_done (Committed [(1%Z, Some [10%Z])])))
    (Committed [(1%Z, Some [10%Z])]) waiting_request 9 TNull [])
    as (pl & s1 & _ & _ & _ & Hσ).
  - exact demo_initial.
  - exact waiting_rtc.
  - vm_compute. reflexivity.
  - vm_compute. reflexivity.
  - vm_compute. reflexivity.
  - reflexivity.
  - reflexivity.
  - reflexivity.
  - vm_compute. reflexivity.
  - destruct (Hσ (waiting_node (sh_store (sy_shared s1))))
      as (σ' & ops & reply & Hh & Hrep & _ & log1 & log2 & Hlog & Hops).
    + reflexivity.
    + reflexivity.
    + reflexivity.
    + vm_compute. reflexivity.
    + exists pl, s1, σ', ops, reply, log1, log2.
      split; [exact Hh|]. split; [exact Hrep|]. split; [exact Hlog|exact Hops].
Defined.
End ServiceDemo.
