(* ===== verification/PeerWire.v ===== *)
(** * The connection between two nodes

    [lib/include/system/Peer.h] and [lib/src/system/Peer.cpp]: the framing of
    messages on a TCP stream, the connection attempts, the wait for the
    incoming connection and the shutdown.  The sockets and the timer are boost::asio's: a
    socket is the bytes written to it or the bytes that will arrive on it. *)
From stdpp Require Import pretty.
From S2P Require Import Prelude Operations Json.
Local Open Scope Z_scope.

(** ** Bytes of a 32-bit word *)
Definition byte_at (x : Z) (i : Z) : Z := Z.land (Z.shiftr x (8 * i)) 255.
Definition join4 (b0 b1 b2 b3 : Z) : Z :=
  Z.lor b0 (Z.lor (Z.shiftl b1 8) (Z.lor (Z.shiftl b2 16) (Z.shiftl b3 24))).

Definition bswap32 (x : Z) : Z :=
  join4 (byte_at x 3) (byte_at x 2) (byte_at x 1) (byte_at x 0).

(** The host's byte order; [htonl] and [ntohl] are the same function. *)
Inductive endian := little | big.

Definition htonl (e : endian) (x : Z) : Z :=
  match e with little => bswap32 x | big => x end.
Definition ntohl : endian → Z → Z := htonl.

(** What [memcpy] from and to a [uint32_t] copies. *)
Definition u32_bytes (e : endian) (x : Z) : list Z :=
  match e with
  | little => [byte_at x 0; byte_at x 1; byte_at x 2; byte_at x 3]
  | big => [byte_at x 3; byte_at x 2; byte_at x 1; byte_at x 0]
  end.
Definition u32_of_bytes (e : endian) (l : list Z) : Z :=
  match l with
  | [a; b; c; d] => match e with little => join4 a b c d | big => join4 d c b a end
  | _ => 0
  end.

Lemma byte_at_bit x i n : 0 <= i -> 0 <= n ->
  Z.testbit (byte_at x i) n = (n <? 8) && Z.testbit x (n + 8 * i).
Proof.
  intros Hi Hn. unfold byte_at. change 255 with (Z.ones 8).
  rewrite Z.land_spec, Z.shiftr_spec, Z.testbit_ones_nonneg by lia. apply andb_comm.
Qed.

Lemma shiftl_byte_bit b k n : 0 <= n ->
  Z.testbit (Z.shiftl b k) n = (k <=? n) && Z.testbit b (n - k).
Proof.
  intros Hn. rewrite Z.shiftl_spec by done. destruct (Z.leb_spec k n); [done|].
  by rewrite Z.testbit_neg_r by lia.
Qed.

(** Splitting a word into bytes loses nothing. *)
Lemma join4_bytes x : in_u 32 x → join4 (byte_at x 0) (byte_at x 1) (byte_at x 2) (byte_at x 3) = x.
Proof.
  intros Hx. apply Z.bits_inj'. intros n Hn. unfold join4.
  rewrite !Z.lor_spec, !shiftl_byte_bit by done.
  destruct (Z.le_gt_cases 32 n) as [Hbig|Hsmall].
  - rewrite !byte_at_bit by lia.
    assert (Hz : Z.testbit x n = false).
    { unfold in_u in Hx. rewrite <- (Z.mod_small x (2 ^ 32)) by lia.
      apply Z.mod_pow2_bits_high. lia. }
    rewrite Hz, !(proj2 (Z.ltb_ge _ _)) by lia. by rewrite !andb_false_r.
  - assert (Hc : n ∈ seqZ 0 32) by (apply elem_of_seqZ; lia). revert Hc. vm_compute seqZ.
    intros Hc. repeat (apply elem_of_cons in Hc as [->|Hc];
      [rewrite ?byte_at_bit by lia; simpl; rewrite ?orb_false_r; done|]).
    by apply elem_of_nil in Hc.
Qed.

Lemma byte_at_range x i : 0 <= i → in_u 8 (byte_at x i).
Proof.
  intros Hi. unfold byte_at, in_u. change 255 with (Z.ones 8).
  rewrite Z.land_ones by lia. apply Z.mod_pos_bound. lia.
Qed.

Lemma byte_high_bit b n : in_u 8 b → 8 <= n → Z.testbit b n = false.
Proof.
  intros Hb Hn. unfold in_u in Hb. rewrite <- (Z.mod_small b (2 ^ 8)) by lia.
  by apply Z.mod_pow2_bits_high.
Qed.

(** Taking the bytes of joined bytes. *)
Lemma byte_at_join4 b0 b1 b2 b3 i b :
  in_u 8 b0 → in_u 8 b1 → in_u 8 b2 → in_u 8 b3 →
  [b0; b1; b2; b3] !! i = Some b → byte_at (join4 b0 b1 b2 b3) (Z.of_nat i) = b.
Proof.
  intros H0 H1 H2 H3 Hi. apply Z.bits_inj'. intros n Hn.
  rewrite byte_at_bit by lia. unfold join4. rewrite !Z.lor_spec, !shiftl_byte_bit by lia.
  destruct (Z.le_gt_cases 8 n) as [Hbig|Hsmall].
  - rewrite (proj2 (Z.ltb_ge _ _)) by lia. symmetry. apply byte_high_bit; [|lia].
    by do 4 (destruct i as [|i]; [by simplify_eq/=|]).
  - assert (Hc : n ∈ [0; 1; 2; 3; 4; 5; 6; 7]) by (rewrite !elem_of_cons; lia).
    do 4 (destruct i as [|i]; [simplify_eq/=;
      repeat (apply elem_of_cons in Hc as [->|Hc];
        [cbn -[Z.testbit]; rewrite ?(byte_high_bit b0), ?(byte_high_bit b1), ?(byte_high_bit b2),
          ?(byte_high_bit b3) by (done || lia); cbn -[Z.testbit]; by rewrite ?orb_false_r|]);
      by apply elem_of_nil in Hc|]). done.
Qed.

Lemma byte_at_bswap32 x :
  byte_at (bswap32 x) 0 = byte_at x 3 ∧ byte_at (bswap32 x) 1 = byte_at x 2 ∧
  byte_at (bswap32 x) 2 = byte_at x 1 ∧ byte_at (bswap32 x) 3 = byte_at x 0.
Proof.
  pose proof (byte_at_join4 (byte_at x 3) (byte_at x 2) (byte_at x 1) (byte_at x 0)) as Hb.
  split_and!; [apply (Hb 0%nat)|apply (Hb 1%nat)|apply (Hb 2%nat)|apply (Hb 3%nat)];
    done || (apply byte_at_range; lia).
Qed.

(** The length prefix is in network order whatever the host's order ... *)
Lemma htonl_bytes e x : u32_bytes e (htonl e x) = u32_bytes big x.
Proof.
  destruct e; [|done]. cbn [htonl u32_bytes].
  destruct (byte_at_bswap32 x) as (-> & -> & -> & ->). done.
Qed.

(** ... and read back in any order. *)
Lemma ntohl_bytes e x : in_u 32 x → ntohl e (u32_of_bytes e (u32_bytes big x)) = x.
Proof.
  intros Hx. destruct e; cbn [u32_of_bytes u32_bytes]; [|by apply join4_bytes].
  change (join4 _ _ _ _) with (bswap32 x). unfold ntohl, htonl. unfold bswap32 at 1.
  destruct (byte_at_bswap32 x) as (-> & -> & -> & ->). by apply join4_bytes.
Qed.

(** ** Frames *)

(** [memcpy] to offset [off] of a buffer; [None]: it writes past its end. *)
Definition memcpy (buf : list Z) (off : nat) (src : list Z) : option (list Z) :=
  if decide (off + length src ≤ length buf)%nat
  then Some (take off buf ++ src ++ drop (off + length src) buf)
  else None.

Inductive frame_result := Frame (out : list Z) | TooLarge | Overrun.

(** The body of [Peer::send] up to the write.  [4 + len] is computed in
    [uint32_t]. *)
Definition frame (e : endian) (payload : list Z) : frame_result :=
  let size := Z.of_nat (length payload) in
  if decide (2 ^ 32 - 1 ≤ size) then TooLarge
  else
    let len := u32 size in
    let len_be := htonl e len in
    let out := replicate (Z.to_nat (u32 (4 + len))) 0 in
    match memcpy out 0 (u32_bytes e len_be) with
    | Some out1 => match memcpy out1 4 payload with
                   | Some out2 => Frame out2
                   | None => Overrun
                   end
    | None => Overrun
    end.

Lemma length_u32_bytes e x : length (u32_bytes e x) = 4%nat.
Proof. by destruct e. Qed.

Lemma frame_fits e payload :
  Z.of_nat (length payload) < 2 ^ 32 - 4 →
  frame e payload = Frame (u32_bytes big (Z.of_nat (length payload)) ++ payload).
Proof.
  intros Hlt. unfold frame. rewrite decide_False by lia.
  assert (Hlen : u32 (Z.of_nat (length payload)) = Z.of_nat (length payload))
    by (apply wrap_u_small; unfold in_u; lia).
  rewrite Hlen. assert (H4 : u32 (4 + Z.of_nat (length payload)) = 4 + Z.of_nat (length payload))
    by (apply wrap_u_small; unfold in_u; lia).
  rewrite H4, htonl_bytes. set (hdr := u32_bytes big _).
  assert (Hh : length hdr = 4%nat) by done.
  replace (Z.to_nat (4 + Z.of_nat (length payload))) with (4 + length payload)%nat by lia.
  unfold memcpy. rewrite decide_True by (rewrite length_replicate; lia).
  rewrite take_0, Hh. rewrite decide_True
    by (rewrite !length_app, length_drop, length_replicate; simpl length; lia).
  f_equal. rewrite (app_nil_l (hdr ++ _)), take_app_length' by done. f_equal.
  rewrite drop_ge; [apply app_nil_r|].
  rewrite length_app, length_drop, length_replicate. lia.
Qed.

(** C36. The three regimes of Peer::send by payload size: below 2^32 - 4 bytes the frame is
    the length in network order followed by the payload; from 2^32 - 4 to 2^32 - 2 bytes the
    buffer size 4 + len wraps around and the copy writes past its end; from 2^32 - 1 bytes
    on it throws. *)
Theorem frame_size_limits e payload :
  let size := Z.of_nat (length payload) in
  (size < 2 ^ 32 - 4 → frame e payload = Frame (u32_bytes big size ++ payload)) ∧
  (2 ^ 32 - 4 ≤ size < 2 ^ 32 - 1 → frame e payload = Overrun) ∧
  (2 ^ 32 - 1 ≤ size → frame e payload = TooLarge).
Proof.
  intros size. split_and!.
  - apply frame_fits.
  - intros Hsize. unfold frame. fold size. rewrite decide_False by lia.
    assert (Hlen : u32 size = size) by (apply wrap_u_small; unfold in_u; lia). rewrite Hlen.
    assert (H4 : u32 (4 + size) < 4).
    { unfold u32, wrap_u. replace (4 + size) with (size - (2 ^ 32 - 4) + 1 * 2 ^ 32) by lia.
      rewrite Z.mod_add by lia. rewrite Z.mod_small; lia. }
    unfold memcpy at 1. rewrite decide_False; [done|].
    rewrite length_replicate, length_u32_bytes. lia.
  - intros Hsize. unfold frame. by rewrite decide_True.
Qed.

(** ** Sending and receiving *)
Record JSONMessage `{Json} := { src : NodeID; dest : NodeID; msg_body : object }.

(** boost's conversions: a message to a value, a value to text, and
    [JSONMessage::parse]; [None] when it throws. *)
Class MessageCodec `{Json} := {
  value_from : JSONMessage → value;
  serialize : value → list Z;
  message_parse : list Z → option JSONMessage;
}.

Section peer.
Context `{MessageCodec}.
(** The number of bytes after which the outgoing connection breaks, if it
    does: the write that reaches it throws after the bytes before it. *)
Context (breaks : option nat).

(** The bytes written to [out_socket], those still to come on [in_socket],
    and whether [incoming_init] has been used. *)
Record Peer := mkPeer {
  out_socket : list Z;
  in_socket : option (list Z);
  incoming_init : bool;
}.

(** [boost::asio::write] on [out_socket]. *)
Definition write (out : list Z) (p : Peer) : res unit * Peer :=
  let to_socket l := mkPeer (out_socket p ++ l) (in_socket p) (incoming_init p) in
  match breaks with
  | None => (Ok tt, to_socket out)
  | Some n =>
      let left := (n - length (out_socket p))%nat in
      if decide (length out ≤ left)%nat then (Ok tt, to_socket out)
      else (Throw (StdException "system_error"), to_socket (take left out))
  end.

(** [Peer::send]; [None]: undefined behaviour. *)
Definition peer_send (e : endian) (message : value) (p : Peer) : option (res unit * Peer) :=
  match frame e (serialize message) with
  | Frame out => Some (write out p)
  | TooLarge => Some (Throw (StdException "Message size too large"), p)
  | Overrun => None
  end.

(** [async_read] of a buffer of [n] bytes. *)
Definition read_exactly (n : Z) : M (list Z) (list Z) := λ s,
  if decide (n ≤ Z.of_nat (length s)) then (Ok (take (Z.to_nat n) s), drop (Z.to_nat n) s)
  else (Throw (StdException "end of file"), []).

(** [Peer::receive] once the incoming socket is there. *)
Definition receive_message (e : endian) : M (list Z) JSONMessage :=
  response_len_be ← read_exactly 4;
  let response_len := ntohl e (u32_of_bytes e response_len_be) in
  payload_buf ← read_exactly response_len;
  lift_opt "parse" (message_parse payload_buf).

Fixpoint send_all (e : endian) (ms : list JSONMessage) (p : Peer)
    : option (res unit * Peer) :=
  match ms with
  | [] => Some (Ok tt, p)
  | m :: ms' => match peer_send e (value_from m) p with
                | Some (Ok _, p') => send_all e ms' p'
                | r => r
                end
  end.
Fixpoint receive_all (e : endian) (n : nat) : M (list Z) (list JSONMessage) :=
  match n with
  | O => mret []
  | S n' => m ← receive_message e; ms ← receive_all e n'; mret (m :: ms)
  end.

(** ** The incoming connection *)

(** [std::call_once]; the expiry set first cancels pending waits. *)
Definition setup_incoming (socket : list Z) (p : Peer) : Peer :=
  if incoming_init p then p else mkPeer (out_socket p) (Some socket) true.

(** [Peer::receive].  Without an incoming socket it waits for the timer that
    [setup_incoming] moves; moving a timer ends the waits on it with
    [operation_aborted].  [arrives] is the socket set up meanwhile. *)
Definition receive (e : endian) (arrives : list Z) : M Peer JSONMessage := λ p,
  match in_socket p with
  | None => (Throw (StdException "operation_aborted"), setup_incoming arrives p)
  | Some s => let '(r, s') := receive_message e s in
              (r, mkPeer (out_socket p) (Some s') (incoming_init p))
  end.

Definition send_receive (e : endian) (message : value) (arrives : list Z) (p : Peer)
    : option (res JSONMessage * Peer) :=
  match peer_send e message p with
  | Some (Ok _, p') => Some (receive e arrives p')
  | Some (Throw x, p') => Some (Throw x, p')
  | None => None
  end.

(** ** The outgoing connection *)
Inductive attempt_result := connected | connection_refused | timed_out | other_error.
Inductive connect_result := Connected (i : nat) | ConnectThrew (i : nat) | ExitFailure.

(** The loop of [Peer::connect] from attempt [i], [n] attempts left. *)
Fixpoint connect_loop (try : nat → attempt_result) (i n : nat) : connect_result :=
  match n with
  | O => ExitFailure
  | S n' => match try i with
            | connected => Connected i
            | connection_refused | timed_out => connect_loop try (S i) n'
            | other_error => ConnectThrew i
            end
  end.
Definition DEFAULT_CONN_RETRIES : nat := 10.

Definition SERVER_IP : string := "127.0.0.1".
Definition BASE_PORT_RANGE_START : Z := 40000.
(** Both operands of the sum are promoted to [int]. *)
Definition connect_service (peerId : NodeID) : string := pretty (BASE_PORT_RANGE_START + peerId).

(** The network: whether a host and service resolve ([resolve] throws if not),
    and how the attempts to connect to them end. *)
Record Network := {
  resolves : string → string → bool;
  attempts : string → string → nat → attempt_result;
}.

Definition connect (net : Network) (peerId : NodeID) : connect_result :=
  if resolves net SERVER_IP (connect_service peerId)
  then connect_loop (attempts net SERVER_IP (connect_service peerId)) 1 DEFAULT_CONN_RETRIES
  else ConnectThrew 0.

Definition connect_message (nodeID peerId : NodeID) : JSONMessage :=
  {| src := nodeID; dest := peerId;
     msg_body := obj_set obj_empty "type" (v_string "connect") |}.

(** The constructor: connect, then introduce the node.  [None]: no object is
    left - the process exited, an exception was thrown or memory overrun. *)
Definition new_peer (e : endian) (net : Network) (nodeID peerId : NodeID)
    : option Peer :=
  match connect net peerId with
  | Connected _ =>
      match peer_send e (value_from (connect_message nodeID peerId)) (mkPeer [] None false) with
      | Some (Ok _, p) => Some p
      | _ => None
      end
  | ConnectThrew _ | ExitFailure => None
  end.

(** ** Shutdown *)
Inductive shutdown_error := not_connected | operation_aborted | other_shutdown_error.
Inductive which_socket := Incoming | Outgoing.

(** The destructor: the sockets it shuts down, and whether it logs an error.
    [shutdown] is the [system_error] the call on a socket throws, if any. *)
Definition destroy_peer (shutdown : which_socket → option shutdown_error) (p : Peer)
    : list which_socket * bool :=
  let logged e := match e with
                  | not_connected | operation_aborted => false
                  | other_shutdown_error => true
                  end in
  let finish calls := match shutdown Outgoing with
                      | None => (calls ++ [Outgoing], false)
                      | Some e => (calls ++ [Outgoing], logged e)
                      end in
  match in_socket p with
  | None => finish []
  | Some _ => match shutdown Incoming with
              | None => finish [Incoming]
              | Some e => ([Incoming], logged e)
              end
  end.

(** *** Theorems *)

Lemma read_exactly_app l rest :
  read_exactly (Z.of_nat (length l)) (l ++ rest) = (Ok l, rest).
Proof.
  unfold read_exactly. rewrite decide_True by (rewrite length_app; lia).
  rewrite Nat2Z.id, take_app_length, drop_app_length. done.
Qed.

(** The message survives serialization and fits a frame. *)
Definition transmissible (m : JSONMessage) : Prop :=
  message_parse (serialize (value_from m)) = Some m ∧
  Z.of_nat (length (serialize (value_from m))) < 2 ^ 32 - 4.

Definition framed (m : JSONMessage) : list Z :=
  u32_bytes big (Z.of_nat (length (serialize (value_from m)))) ++ serialize (value_from m).

Lemma receive_framed e m rest :
  transmissible m → receive_message e (framed m ++ rest) = (Ok m, rest).
Proof.
  intros [Hp Hlen]. unfold receive_message, framed. set (pl := serialize (value_from m)) in *.
  rewrite <- (assoc_L (++)).
  pose proof (read_exactly_app (u32_bytes big (Z.of_nat (length pl))) (pl ++ rest)) as Hhdr.
  rewrite length_u32_bytes in Hhdr. rewrite (bind_ok _ _ _ _ _ Hhdr). cbv zeta.
  rewrite ntohl_bytes by (unfold in_u; lia).
  by rewrite (bind_ok _ _ _ _ _ (read_exactly_app pl rest)), Hp.
Qed.

Lemma peer_send_framed e m p :
  transmissible m → peer_send e (value_from m) p = Some (write (framed m) p).
Proof. intros [_ Hlen]. unfold peer_send. by rewrite frame_fits. Qed.

(** The connection does not break before the messages are written. *)
Definition lasts (sent : list Z) (ms : list JSONMessage) : Prop :=
  match breaks with Some n => (length (sent ++ (ms ≫= framed)) ≤ n)%nat | None => True end.

Lemma write_lasts m ms p :
  lasts (out_socket p) (m :: ms) →
  let p' := mkPeer (out_socket p ++ framed m) (in_socket p) (incoming_init p) in
  write (framed m) p = (Ok tt, p') ∧ lasts (out_socket p') ms.
Proof.
  unfold lasts, write. cbn [mbind list_bind out_socket]. destruct breaks as [n|]; [|done].
  rewrite (assoc_L (++)), !length_app. intros Hn. by rewrite decide_True by lia.
Qed.

Lemma send_all_framed e ms p :
  Forall transmissible ms → lasts (out_socket p) ms →
  send_all e ms p =
    Some (Ok tt, mkPeer (out_socket p ++ (ms ≫= framed)) (in_socket p) (incoming_init p)).
Proof.
  intros Hms. revert p. induction Hms as [|m ms Hm Hms IH]; intros p Hl; cbn [send_all].
  { cbn. rewrite app_nil_r. by destruct p. }
  destruct (write_lasts m ms p Hl) as [Hw Hl'].
  rewrite peer_send_framed, Hw, IH by done. simpl. by rewrite <- (assoc_L (++)).
Qed.

Lemma receive_all_framed e ms rest :
  Forall transmissible ms →
  receive_all e (length ms) ((ms ≫= framed) ++ rest) = (Ok ms, rest).
Proof.
  induction 1 as [|m ms Hm Hms IH]; [done|]. cbn [length receive_all mbind list_bind].
  rewrite <- (assoc_L (++)). rewrite (bind_ok _ _ _ _ _ (receive_framed _ _ _ Hm)).
  by rewrite (bind_ok _ _ _ _ _ IH).
Qed.

(** C27. Round trip of the peer protocol: once the connection is established, a new peer
    introduces itself and sends messages, and the receiver reads from the byte stream
    exactly the connect message and the messages sent, in order, leaving what follows unread
    - on hosts of any, also different, byte order, for messages that survive serialization
    and whose text is shorter than 2^32 - 4 bytes, on a connection that does not break
    before they are written. *)
Theorem message_stream_roundtrip e_send e_recv net j nodeID peerId ms rest :
  connect net peerId = Connected j → Forall transmissible (connect_message nodeID peerId :: ms) →
  lasts [] (connect_message nodeID peerId :: ms) →
  ∃ p p', new_peer e_send net nodeID peerId = Some p ∧
    send_all e_send ms p = Some (Ok tt, p') ∧
    receive_all e_recv (S (length ms)) (out_socket p' ++ rest) =
      (Ok (connect_message nodeID peerId :: ms), rest).
Proof.
  intros Hconn Hall Hlast. inversion Hall as [|? ? Hhello Hms]; subst.
  destruct (write_lasts _ _ (mkPeer [] None false) Hlast) as [Hw Hl].
  eexists _, _. split_and!.
  - unfold new_peer. by rewrite Hconn, peer_send_framed, Hw.
  - by apply send_all_framed.
  - simpl. by apply (receive_all_framed e_recv (connect_message nodeID peerId :: ms)).
Qed.

(** A stream that ends in the middle of a frame, in the length or in the payload, makes
    receive throw and never yields a message. *)
Theorem truncated_frame_rejected e m prefix missing :
  transmissible m → missing ≠ [] → framed m = prefix ++ missing →
  receive_message e prefix = (Throw (StdException "end of file"), []).
Proof.
  intros [_ Hlen] Hne Hf. unfold framed in Hf. set (pl := serialize (value_from m)) in *.
  unfold receive_message. destruct (decide (length prefix < 4)%nat) as [Hshort|Hlong].
  { apply bind_throw. unfold read_exactly. by rewrite decide_False by lia. }
  assert (∃ k, prefix = u32_bytes big (Z.of_nat (length pl)) ++ k ∧ pl = k ++ missing)
    as (k & -> & Hpl).
  { destruct (app_eq_inv _ _ _ _ Hf) as [(k & Hhdr & Hpre)|(k & Hhdr & Hpl)]; [|by exists k].
    assert (k = []) as ->; [|exists []; rewrite app_nil_r in *; naive_solver].
    apply (f_equal length) in Hhdr. rewrite length_u32_bytes, length_app in Hhdr.
    destruct k; [done|]. simpl in Hhdr. lia. }
  pose proof (read_exactly_app (u32_bytes big (Z.of_nat (length pl))) k) as Hr.
  rewrite length_u32_bytes in Hr. rewrite (bind_ok _ _ _ _ _ Hr). cbv zeta.
  rewrite ntohl_bytes by (unfold in_u; lia). apply bind_throw. unfold read_exactly.
  rewrite decide_False; [done|]. rewrite Hpl, length_app. destruct missing; [done|].
  simpl. lia.
Qed.

(** If the connection breaks while messages are sent, the send that reaches the end throws,
    and the receiver reads exactly the messages written before it and then gets the end of
    the stream; if it does not break, all of them. *)
Theorem broken_connection_delivers_prefix e_send e_recv ms p :
  Forall transmissible ms →
  ∃ r p' k new rest,
    send_all e_send ms p = Some (r, p') ∧ out_socket p' = out_socket p ++ new ∧
    receive_all e_recv k new = (Ok (take k ms), rest) ∧
    match r with
    | Ok _ => k = length ms ∧ rest = []
    | Throw _ => (k < length ms)%nat ∧
        receive_message e_recv rest = (Throw (StdException "end of file"), [])
    end.
Proof.
  intros Hms. revert p. induction Hms as [|m ms Hm Hms IH]; intros p; cbn [send_all].
  { exists (Ok tt), p, 0%nat, [], []. by rewrite app_nil_r. }
  rewrite peer_send_framed by done.
  destruct (write (framed m) p) as [[[]|x] p1] eqn:Hw.
  - assert (out_socket p1 = out_socket p ++ framed m) as E.
    { unfold write in Hw. repeat case_match; by simplify_eq/=. }
    destruct (IH p1) as (r & p' & k & new & rest & Hs & Ho & Hr & Hend).
    exists r, p', (S k), (framed m ++ new), rest. rewrite Hs, Ho, E, <- (assoc_L (++)).
    split_and!; [done..| |].
    + cbn [receive_all take]. rewrite (bind_ok _ _ _ _ _ (receive_framed _ _ _ Hm)).
      by rewrite (bind_ok _ _ _ _ _ Hr).
    + simpl. destruct r; naive_solver lia.
  - unfold write in Hw. destruct breaks as [n|]; [|done]. case_decide as Hn; [done|].
    injection Hw as <- <-. set (left := (n - _)%nat) in *.
    eexists (Throw _), _, 0%nat, (take left (framed m)), (take left (framed m)).
    split_and!; [done..|simpl; lia|].
    apply (truncated_frame_rejected e_recv m _ (drop left (framed m)) Hm).
    + intros E%(f_equal length). rewrite length_drop in E. change (length []) with 0%nat in E. lia.
    + symmetry. apply take_drop.
Qed.

(** A receive that waits for the incoming connection is aborted by it; the
    message is read by the next call, and later connections are ignored. *)
Lemma receive_before_connection_aborts e m other :
  transmissible m →
  ∃ p1 p2,
    receive e (framed m) (mkPeer [] None false) =
      (Throw (StdException "operation_aborted"), p1) ∧
    setup_incoming other p1 = p1 ∧
    receive e other p1 = (Ok m, p2) ∧ in_socket p2 = Some [].
Proof.
  intros Hm. pose proof (receive_framed e m [] Hm) as Hr. rewrite app_nil_r in Hr.
  eexists _, _. split_and!; [done|done| |].
  - unfold receive. simpl. by rewrite Hr.
  - done.
Qed.

Definition retryable (a : attempt_result) : Prop := a = connection_refused ∨ a = timed_out.

(** Attempts [i], ..., [i + n - 1]: the first that is not retried decides. *)
Lemma connect_loop_spec try i n :
  (∃ j, (i ≤ j < i + n)%nat ∧ (∀ k, (i ≤ k < j)%nat → retryable (try k)) ∧
    (connect_loop try i n = Connected j ∧ try j = connected ∨
     connect_loop try i n = ConnectThrew j ∧ try j = other_error)) ∨
  (connect_loop try i n = ExitFailure ∧ ∀ k, (i ≤ k < i + n)%nat → retryable (try k)).
Proof.
  revert i. induction n as [|n IH]; intros i; simpl.
  { right. split; [done|]. lia. }
  assert (Hretry : retryable (try i) → ∀ k j, (i ≤ k < j)%nat →
    (∀ k, (S i ≤ k < j)%nat → retryable (try k)) → retryable (try k)).
  { intros Hi k j Hk Hrest. destruct (decide (k = i)) as [->|]; [done|]. apply Hrest. lia. }
  destruct (try i) eqn:E.
  1, 4: left; exists i; split; [lia|]; split; [lia|]; auto.
  all: specialize (Hretry ltac:(by rewrite ?E; unfold retryable; auto));
    destruct (IH (S i)) as [(j & Hj & Hbefore & Hres)|[Hres Hall]].
  1, 3: left; exists j; split; [lia|]; split; [|done]; intros k Hk; by apply (Hretry k j).
  all: right; split; [done|]; intros k Hk; apply (Hretry k (i + S n)%nat); [lia|];
    intros; apply Hall; lia.
Qed.

(** At most ten attempts at the service of the peer: the first that is neither
    refused nor timed out decides, and if all ten are the process exits. *)
Lemma connect_outcome net peerId :
  let try := attempts net SERVER_IP (connect_service peerId) in
  resolves net SERVER_IP (connect_service peerId) = true →
  (∃ i, (1 ≤ i ≤ 10)%nat ∧ (∀ j, (1 ≤ j < i)%nat → retryable (try j)) ∧
    (connect net peerId = Connected i ∧ try i = connected ∨
     connect net peerId = ConnectThrew i ∧ try i = other_error)) ∨
  (connect net peerId = ExitFailure ∧ ∀ j, (1 ≤ j ≤ 10)%nat → retryable (try j)).
Proof.
  intros try Hres. unfold connect, DEFAULT_CONN_RETRIES. rewrite Hres.
  destruct (connect_loop_spec try 1 10) as [(i & Hi & Hrest)|[Hexit Hall]].
  - left. exists i. split; [lia|done].
  - right. split; [done|]. intros j Hj. apply Hall. lia.
Qed.

(** Every peer has a service of its own. *)
Lemma connect_service_inj p p' : connect_service p = connect_service p' → p = p'.
Proof. unfold connect_service. intros E%(inj pretty). lia. Qed.

(** The destructor shuts the outgoing socket down unless shutting down the
    incoming one failed. *)
Lemma destroy_peer_sockets shutdown p :
  (destroy_peer shutdown p).1 =
    match in_socket p with
    | None => [Outgoing]
    | Some _ => match shutdown Incoming with None => [Incoming; Outgoing] | Some _ => [Incoming] end
    end.
Proof. unfold destroy_peer. repeat case_match; done. Qed.
End peer.

(** ** The hypotheses hold *)
Module PeerDemo.
Import Tree.

(** A codec for messages whose body is that of a connect message. *)
#[export] Instance demo_codec : MessageCodec := {|
  value_from m := TArray [TUint64 (src m); TUint64 (dest m)];
  serialize v := match v with TArray [TUint64 a; TUint64 b] => [a; b] | _ => [] end;
  message_parse l := match l with
                     | [a; b] => Some {| src := a; dest := b;
                         msg_body := obj_set obj_empty "type" (v_string "connect") |}
                     | _ => None
                     end;
|}.
Definition hello : JSONMessage := connect_message 1 2.

Lemma hello_transmissible : transmissible hello.
Proof. by split. Qed.

(** Refused twice, then connected. *)
Definition third_time : Network :=
  {| resolves := λ _ _, true;
     attempts := λ _ _ i, if decide (i < 3)%nat then connection_refused else connected |}.

Lemma message_stream_roundtrip_witness :
  ∃ p p', new_peer (Some 18%nat) little third_time 1 2 = Some p ∧
    send_all (Some 18%nat) little [hello; hello] p = Some (Ok tt, p') ∧
    receive_all big 3 (out_socket p' ++ [7]) = (Ok [hello; hello; hello], [7]).
Proof.
  apply (message_stream_roundtrip (Some 18%nat) little big third_time 3 1 2 [hello; hello] [7]);
    [done|repeat constructor; done|].
  vm_compute. lia.
Defined.

(** The connection breaks inside the second frame. *)
Lemma broken_connection_delivers_prefix_witness :
  ∃ r p' k new rest,
    send_all (Some 8%nat) little [hello; hello] (mkPeer [] None false) = Some (r, p') ∧
    receive_all big k new = (Ok (take k [hello; hello]), rest) ∧ out_socket p' = new.
Proof.
  destruct (broken_connection_delivers_prefix (Some 8%nat) little big [hello; hello]
    (mkPeer [] None false)) as (r & p' & k & new & rest & Hs & Ho & Hr & _).
  - repeat constructor; done.
  - exists r, p', k, new, rest. split_and!; [exact Hs|exact Hr|exact Ho].
Defined.

Lemma truncated_frame_rejected_witness :
  receive_message little [0; 0; 0; 2; 1] = (Throw (StdException "end of file"), []).
Proof.
  apply (truncated_frame_rejected little hello [0; 0; 0; 2; 1] [2]);
    [apply hello_transmissible|done|by vm_compute].
Defined.

(** A payload of [2^32 - 4] bytes. *)
Lemma frame_size_limits_witness :
  frame little (replicate (Z.to_nat (2 ^ 32 - 4)) 0) = Overrun.
Proof.
  destruct (frame_size_limits little (replicate (Z.to_nat (2 ^ 32 - 4)) 0)) as (_ & Hover & _).
  apply Hover. rewrite length_replicate. lia.
Defined.
End PeerDemo.
