(* ===== verification/Logger.v ===== *)
(** * The logger

    [lib/include/system/Logger.h]: log lines of six severities on standard
    error, through Boost.Log and [std::vformat]. *)
From Stdlib Require Import Ascii.
From S2P Require Import Prelude.

(** [boost::log::trivial::severity_level], in declaration order. *)
Inductive log_level := trace_level | debug_level | info_level | warning_level | error_level | fatal_level.

Definition level_value (l : log_level) : Z :=
  match l with
  | trace_level => 0 | debug_level => 1 | info_level => 2
  | warning_level => 3 | error_level => 4 | fatal_level => 5
  end.
Definition level_name (l : log_level) : string :=
  match l with
  | trace_level => "trace" | debug_level => "debug" | info_level => "info"
  | warning_level => "warning" | error_level => "error" | fatal_level => "fatal"
  end.
Definition at_least (threshold l : log_level) : bool :=
  bool_decide (level_value threshold ≤ level_value l)%Z.

(** ** Boost.Log

    The logging core keeps a list of sinks and a filter.  A record that the
    filter lets through goes to every sink, whose formatter makes a line of
    it.  (Without any sink the library falls back to a default one, about
    which nothing is said here.) *)
Definition formatter : Type := log_level → string → string.

Class BoostLog := {
  log_core : Type;
  new_core : log_core;
  sinks : log_core → list formatter;
  filter_of : log_core → log_level → bool;
  add_sink : formatter → log_core → log_core;
  set_filter : (log_level → bool) → log_core → log_core;
  push_record : log_core → log_level → string → list string;
}.

Class BoostLogSpec `{BoostLog} : Prop := {
  new_core_sinks : sinks new_core = [];
  new_core_filter l : filter_of new_core l = true;
  add_sink_sinks f c : sinks (add_sink f c) = sinks c ++ [f];
  add_sink_filter f c l : filter_of (add_sink f c) l = filter_of c l;
  set_filter_sinks g c : sinks (set_filter g c) = sinks c;
  set_filter_filter g c l : filter_of (set_filter g c) l = g l;
  push_record_lines c l msg :
    sinks c ≠ [] →
    push_record c l msg = if filter_of c l then (λ f, f l msg) <$> sinks c else [];
}.

(** ** [std::vformat]

    [{}] takes the next argument, [{{] and [}}] are braces.  [None]: a
    [format_error]; the format strings of the program are checked when it is
    compiled. *)
Fixpoint vformat (fmt : string) (args : list string) : option string :=
  match fmt with
  | EmptyString => Some EmptyString
  | String "{"%char (String "}"%char fmt') =>
      match args with
      | a :: args' => (λ r, a +:+ r) <$> vformat fmt' args'
      | [] => None
      end
  | String "{"%char (String "{"%char fmt') => String "{"%char <$> vformat fmt' args
  | String "{"%char _ => None
  | String "}"%char (String "}"%char fmt') => String "}"%char <$> vformat fmt' args
  | String "}"%char _ => None
  | String a fmt' => String a <$> vformat fmt' args
  end.

Section logger.
Context `{BoostLog}.

(** The core, the function-local [once_flag] of [init], and what was written
    to standard error, line by line. *)
Record LogState := mkLog {
  core : log_core;
  init_flag : bool;
  stderr : list string;
}.

Definition new_log : LogState := mkLog new_core false [].

(** The formatter of the sink: severity in brackets, then the message. *)
Definition bracketed : formatter := λ l msg, "[" +:+ level_name l +:+ "] " +:+ msg.

Definition init : M LogState unit :=
  modify (λ s, if init_flag s then s
               else mkLog (add_sink bracketed (core s)) true (stderr s)).

(** The static logger object has no state of its own. *)
Definition get_logger : M LogState unit := init.

Definition log_msg (level : log_level) (formatted_string : string) : M LogState unit :=
  _ ← get_logger;
  modify (λ s, mkLog (core s) (init_flag s)
                 (stderr s ++ push_record (core s) level formatted_string)).

Definition log_formatted (level : log_level) (fmt : string) (args : list string) : M LogState unit :=
  text ← lift_opt "format_error" (vformat fmt args);
  log_msg level text.

Definition trace := log_formatted trace_level.
Definition debug := log_formatted debug_level.
Definition info := log_formatted info_level.
Definition warn := log_formatted warning_level.
Definition error := log_formatted error_level.
Definition fatal := log_formatted fatal_level.

Definition set_level (level : log_level) : M LogState unit :=
  modify (λ s, mkLog (set_filter (at_least level) (core s)) (init_flag s) (stderr s)).

(** The function of each severity. *)
Definition log_at (level : log_level) : string → list string → M LogState unit :=
  match level with
  | trace_level => trace | debug_level => debug | info_level => info
  | warning_level => warn | error_level => error | fatal_level => fatal
  end.

(** A use of the logger. *)
Inductive LogCall :=
  | Init
  | Log (level : log_level) (fmt : string) (args : list string)
  | SetLevel (level : log_level).

Definition log_call (c : LogCall) : M LogState unit :=
  match c with
  | Init => init
  | Log level fmt args => log_at level fmt args
  | SetLevel level => set_level level
  end.

(** ** What the calls should print

    One line for each message at or above the level in force when it was
    logged. *)
Fixpoint expected_lines (threshold : option log_level) (cs : list LogCall) : list string :=
  match cs with
  | [] => []
  | Init :: cs' => expected_lines threshold cs'
  | SetLevel l :: cs' => expected_lines (Some l) cs'
  | Log l fmt args :: cs' =>
      match vformat fmt args with
      | Some text =>
          if match threshold with Some t => at_least t l | None => true end
          then ["[" +:+ level_name l +:+ "] " +:+ text] else []
      | None => []
      end ++ expected_lines threshold cs'
  end.
End logger.

Section facts.
Context `{BoostLogSpec}.

(** At most one sink is ever registered. *)
Record log_ok (threshold : option log_level) (s : LogState) : Prop := {
  ok_sinks : sinks (core s) = if init_flag s then [bracketed] else [];
  ok_filter l : filter_of (core s) l = match threshold with Some t => at_least t l | None => true end;
}.

Lemma new_log_ok : log_ok None new_log.
Proof. split; [apply new_core_sinks|apply new_core_filter]. Qed.

Lemma log_init_run th s :
  log_ok th s → ∃ s', init s = (Ok tt, s') ∧ log_ok th s' ∧ init_flag s' = true ∧ stderr s' = stderr s.
Proof.
  intros [Hs Hf]. eexists. split; [done|]. simpl. destruct (init_flag s) eqn:E.
  - split_and!; try done. split; [by rewrite E|done].
  - split_and!; try done. split; simpl.
    + by rewrite add_sink_sinks, Hs.
    + intros l. by rewrite add_sink_filter.
Qed.

Lemma log_msg_run th l text s :
  log_ok th s →
  ∃ s', log_msg l text s = (Ok tt, s') ∧ log_ok th s' ∧
    stderr s' = stderr s ++
      (if match th with Some t => at_least t l | None => true end then [bracketed l text] else []).
Proof.
  intros Hok. destruct (log_init_run th s Hok) as (s1 & Hi & Hok1 & Hflag & Herr).
  unfold log_msg, get_logger. rewrite (bind_ok _ _ _ _ _ Hi). eexists. split; [done|].
  destruct Hok1 as [Hs Hf]. rewrite Hflag in Hs. split; [split; simpl; [by rewrite Hflag|done]|].
  simpl. rewrite push_record_lines by (by rewrite Hs). rewrite Hf, Hs, Herr. by case_match.
Qed.

Lemma log_at_formatted l : log_at l = log_formatted l.
Proof. by destruct l. Qed.

Lemma log_calls_run th cs s :
  log_ok th s → Forall (λ c, match c with Log _ fmt args => is_Some (vformat fmt args) | _ => True end) cs →
  ∃ s', for_each cs log_call s = (Ok tt, s') ∧ stderr s' = stderr s ++ expected_lines th cs.
Proof.
  intros Hok Hcs. revert th s Hok.
  induction Hcs as [|c cs Hc _ IH]; intros th s Hok; cbn [for_each expected_lines].
  { exists s. by rewrite app_nil_r. }
  destruct c as [|l fmt args|l]; cbn [log_call].
  - destruct (log_init_run th s Hok) as (s1 & Hi & Hok1 & _ & Herr).
    rewrite (bind_ok _ _ _ _ _ Hi), <- Herr. by apply IH.
  - destruct Hc as [text Ht]. rewrite log_at_formatted. unfold log_formatted. rewrite Ht.
    destruct (log_msg_run th l text s Hok) as (s1 & Hl & Hok1 & Herr).
    unfold mbind at 1, M_bind at 1. cbn [lift_opt]. rewrite (bind_ok _ _ _ text s eq_refl), Hl.
    destruct (IH th s1 Hok1) as (s' & -> & Herr'). exists s'. split; [done|].
    by rewrite Herr', Herr, <- (assoc_L (++)).
  - unfold set_level. rewrite bind_modify.
    apply (IH (Some l) (mkLog (set_filter (at_least l) (core s)) (init_flag s) (stderr s))).
    destruct Hok as [Hs Hf]. split; simpl; [by rewrite set_filter_sinks|].
    intros l'. by rewrite set_filter_filter.
Qed.

(** C35. The logger: however the calls that initialise it, set its level and log are mixed,
    standard error gets exactly one line per message at or above the level in force at that
    time, in order, each with its severity in brackets before the formatted text. *)
Theorem log_lines_printed_once cs :
  Forall (λ c, match c with Log _ fmt args => is_Some (vformat fmt args) | _ => True end) cs →
  ∃ s', for_each cs log_call new_log = (Ok tt, s') ∧ stderr s' = expected_lines None cs.
Proof. intros Hcs. by apply (log_calls_run None cs new_log new_log_ok). Qed.
End facts.

(** ** The parameter instantiated *)
Module LogDemo.
Record demo_core := { demo_sinks : list formatter; demo_filter : log_level → bool }.

#[export] Instance demo_boost_log : BoostLog := {|
  log_core := demo_core;
  new_core := {| demo_sinks := []; demo_filter := λ _, true |};
  sinks := demo_sinks;
  filter_of := demo_filter;
  add_sink f c := {| demo_sinks := demo_sinks c ++ [f]; demo_filter := demo_filter c |};
  set_filter g c := {| demo_sinks := demo_sinks c; demo_filter := g |};
  push_record c l msg := if demo_filter c l then (λ f, f l msg) <$> demo_sinks c else [];
|}.

#[export] Instance demo_boost_log_spec : BoostLogSpec.
Proof. by split. Qed.

(** Messages of [Peer::connect] and of a handler, before and after the level
    is raised; the logger is initialised three times. *)
Lemma log_lines_printed_once_witness :
  ∃ s', for_each [Log info_level "Establish outgoing connection to n{}" ["1"%string];
                  Init; SetLevel error_level;
                  Log info_level "Connection to n{} successful" ["1"%string];
                  Log error_level "Error handling lock request: {}" ["not_uint64"%string]]
          log_call new_log = (Ok tt, s') ∧
    stderr s' = ["[info] Establish outgoing connection to n1";
                 "[error] Error handling lock request: not_uint64"]%string.
Proof.
  apply (log_lines_printed_once
    [Log info_level "Establish outgoing connection to n{}" ["1"%string];
     Init; SetLevel error_level;
     Log info_level "Connection to n{} successful" ["1"%string];
     Log error_level "Error handling lock request: {}" ["not_uint64"%string]]).
  repeat constructor; by eexists.
Defined.
End LogDemo.
